(* ===== verification/_CoqProject ===== *)
-Q . S2P
Prelude.v
Chrono.v
Gregorian.v
Model.v
Schema.v
Storage.v
MemStore.v
Paths.v
Text.v
ArchiveFormat.v
OpenDal.v
Codecs.v
MemArchive.v
ArchiveCache.v
Observability.v
Pool.v
PoolConfig.v
PoolReports.v
Prog.v
Table.v
Spans.v
DataFusion.v
Placeholders.v
Gateway.v
Results.v
SidecarSecurity.v
GatewaySpans.v
Coordinator.v
Reports.v
Programs.v
Startup.v
System.v
Renewer.v
Leases.v
Queries.v
Cutover.v
Cockroach.v
LeaseStores.v
Migrations.v
LoadProfile.v
Showcase.v
Witnesses.v
QueryWitnesses.v
RenewerWitnesses.v
ObjectWitnesses.v
PoolWitnesses.v
SqlWitnesses.v
ResultWitnesses.v
GatewayWitnesses.v
StartupWitnesses.v
