(* ===== verification/Prelude.v ===== *)
(** * Pulpitum: a hot/cold routing layer for append-oriented tables

    Pulpitum stores append-only tables in time buckets. A bucket starts in a mutable
    database (hot); once it has ended, an archive worker fences it (archiving), uploads a
    snapshot of it as an immutable object, publishes the object's name (archived) and deletes
    the database rows. Clients append and query through a router that hides which tier
    serves a bucket. Workers hold leases with generations and random tokens; a worker may
    stall or crash anywhere and another takes over when its lease expires. The development
    models this from the Rust sources (under src/, the paths below) and proves that no
    acknowledged record is lost or invented by any of it.

    ** Files and what they model

    - [Prelude] (this file): Rust's [Result], panics, machine-width arithmetic, orders as
      the class [Ord], stable sorting, strings, and the tactics and hints of the rest.
    - [Chrono]: the operations of the [chrono] crate that the domain calls, as a class with
      laws; [Gregorian]: the proleptic Gregorian calendar, an instance of them.
    - [Model] (src/domain/model.rs): keys, bucket strategies, bucket derivation
      ([for_event_time_with_strategy], [bucket_bounds]), records, cursors, ranges.
    - [Schema] (src/domain/schema.rs): table definitions, [validate], [buckets_for_range],
      [recent_buckets], [writable_buckets_at].
    - [Storage] (src/ports/storage.rs): the traits [DurableBucketStore] and [ArchiveStore].
      A method call is a value of [store_call] or [archive_call]; an adapter is an instance
      that runs calls on its state. [entry_spec] is the contract of each method on one
      bucket, in terms of an abstract entry (state, generation, owner, multiset of
      records); [StoreLaws] and [ArchiveLaws] say that an adapter implements it.
    - [MemStore] and [MemArchive], with [Paths] for object names (src/ports/storage.rs): the
      in-memory adapters.
    - [Cockroach] (src/adapters/cockroach_durable.rs, and the table constraints of
      src/adapters/cockroach_schema.rs): the database adapter. The database is its two
      tables; each SQL statement is a function on them; the transaction retry loop runs
      against any sequence of attempt outcomes; every process has its own route cache.
    - [ArchiveFormat], [OpenDal], with [Text] for the [str] methods they use
      (src/adapters/opendal_store.rs): payload formats, manifests, object names, verified
      conditional creation, uploads, reads and the S3 configuration. The object store is a map
      of objects whose requests may fail, time out, or take effect after they were reported
      as failed, and to which other clients may add objects between requests; [serde_json],
      the Parquet library and SHA-256 are classes with laws, and [Codecs] satisfies them.
    - [ArchiveCache] (src/adapters/immutable_archive_cache.rs): the LRU read cache, over any
      archive.
    - [Observability] (src/integrations/observability.rs, and [PoolMetrics] of
      src/adapters/cockroach_pool.rs): the calls of the [Telemetry] trait, and the measurements
      its OpenTelemetry implementation makes of them on named instruments.
    - [Pool] (src/adapters/cockroach_pool.rs): the connection pool as threads interleaved one
      atomic operation at a time (state bytes, idle stack, semaphore, wrapping gauges), with
      connections that die at any moment and callers that are cancelled at any await;
      [PoolConfig] (the same file and src/adapters/cockroach_tls.rs): settings, URL checks,
      constructors and TLS configuration; [PoolReports]: what each operation of the pool adds to
      its counters.
    - [Prog]: code over the ports as programs (a free monad of storage calls, renewal
      supervision and telemetry calls), with an interpreter over two adapters, and [reports],
      which says what a program may report whatever the ports answer.
    - [Table] (src/application/durable_table.rs): [append], [read_bucket], the bounded
      parallel [read_buckets], [query_page].
    - [Spans]: the tracing spans of the stores, the table and the coordinators, as the values they
      are opened with: the fields of the attribute and the arguments it does not skip.
    - [DataFusion] (src/integrations/datafusion.rs): the SQL table provider: filters into one
      partition and one time range, pushdown reports, planning, execution and Arrow batches.
      The value of an expression on a row is the class [SqlEngine], Arrow the class [Arrow].
    - [Placeholders] and [Gateway] (src/bin/pulpitum-sql-sidecar.rs): the PostgreSQL sidecar:
      statement kinds, INSERT parsing, literals, the placeholder scanner, bound parameters,
      both query handlers, result encoding and telemetry shapes. The SQL parser is the class
      [SqlFrontend]; the DataFusion session, parameter decoding and field encoding are
      arguments.
    - [Results]: the batches of a scan through the row encoder of the sidecar.
    - [SidecarSecurity] (src/bin/sql_sidecar_security.rs, and the settings of the sidecar):
      security configuration, password file, credentials, startup and listen address;
      [GatewaySpans]: the server span of a request.
    - [Coordinator] (src/application/durable_archive.rs and durable_archive_recovery.rs): the
      direct cutover and the recovery cycle, and the fencing discipline they follow; [Reports]:
      what they report.
    - [Programs] (src/bin/archive_connection.rs, cockroach_connection.rs, pulpitum-archiver.rs,
      pulpitum-migrate.rs): what the programs read from their environment and connect to;
      [Startup]: the start of the sidecar, its accept loop, and the start of the archiver.
    - [System]: any number of clients and workers over one store and one archive, as a step
      relation with crashes; its abstract specification is an append-only table. [Renewer]
      ([ArchiveLeaseRenewer] of src/application/durable_archive_recovery.rs): the coordinators with
      their renewal tasks and the channels between them. [Leases]: a renewal task over a
      store with a clock, a delay of the executor and a latency of the store, against what a store
      promises about leases; [LeaseStores]: both stores keep that promise. [Queries]: a
      query over several buckets, and a client that follows cursors, while the system moves.
    - [Cutover]: complete cutovers over the in-memory store.
    - [Migrations] (src/adapters/cockroach_schema.rs, and [migrate] and [validate_schema] of
      src/adapters/cockroach_durable.rs): the migration planner, the transaction that applies
      what is missing, and startup validation.
    - [LoadProfile] (src/dev_support/load_profile.rs) and [Showcase] (examples/showcase.rs): the
      load profile, the load simulator, its workers, the chat interface and the main function of the example.
    - [Witnesses], [QueryWitnesses], [RenewerWitnesses], [ObjectWitnesses], [PoolWitnesses], [SqlWitnesses],
      [ResultWitnesses], [GatewayWitnesses], [StartupWitnesses]: the theorems applied to concrete inputs.

    ** What the theorems show

    - Time: buckets partition the representable instants and tile them, a bucket's key
      identifies it, range routing and the write window are exact, and they return where
      they should ([Model], [Schema]).
    - Adapters: the in-memory store, the CockroachDB store, the in-memory archive and the
      cache implement the contracts ([mem_store_refines], [cockroach_store_refines],
      the instances of [ArchiveLaws]); claims, discovery and appends are characterised on
      every branch; transactions are atomic and retry conflicts; both caches are
      transparent and bounded; object names identify uploads.
    - The object store: uploads and reads implement the archive contract; an acknowledged
      upload stays readable whatever fails or interferes; a retry succeeds; a read returns
      records only when manifest, digest, bucket and order check; payloads round-trip.
    - The pool: the budget is never exceeded and no connection is shared, an uncertain
      connection is never reused, some thread can always go on, and what the gauges count at
      rest; TLS configurations are well formed and the transport follows the URL.
    - Fencing: a superseded session can do nothing, in every store that implements the
      contract; leases are exclusive until they expire and transferable then; and a renewer whose
      interval, three delays, two answers and the lead of the store fit into the lease keeps it for
      good ([Leases]), in memory and, for clocks that differ by a bounded skew, in the database
      ([LeaseStores]); the settings of the direct coordinator do so for delays of half a minute and
      answers within one.
    - Coordinators: every path takes a session through its lifecycle in order (claim, snapshot,
      one upload under the session's own name, publish that object, only then delete; abort
      and deferral only where nothing was published), and so keeps the fencing discipline; the
      outcome of whole cutovers, with and without a failing upload; what a recovery cycle reports.
    - The system: every reachable state implements the append-only table, only an append changes
      a content, and only by its own record, and a routed read is a page of it at one instant
      during the read; with the
      real lease renewers it does the same, no channel is polled after it has delivered, and a
      renewer that was told to stop ends after at most one more renewal ([Renewer]).
    - Queries: a page is the page of the logical table, whatever tier serves each bucket and
      in whatever order the parallel reads complete; following cursors enumerates a range. Both
      also hold while appends, cutovers and crashes run between any two storage calls: a page is
      the page of one content per bucket, each from an instant during the query, and following
      cursors misses nothing that was acknowledged before it started ([Queries]). These theorems need
      an adapter that keeps the arguments of a read (see the conventions), and those on
      cursors unique clustering keys in each bucket.
    - SQL scans: which filters are accepted; an accepted filter means what the routed query
      means, except that comparisons with the column on the right are off by one instant and casts
      are ignored; without those a scan returns the projected rows that pass its filters, and the sidecar encodes the rows of
      a scan one by one in their order ([Results]).
    - The sidecar: what reaches the table and DataFusion, that an INSERT appends the record it
      spells as literals or as parameters, which placeholders the scanner finds, that handling
      a statement, its append and its rows included, always ends and in which two cases it panics; a sidecar reachable from other hosts requires
      TLS, and logins reveal nothing.
    - The programs: development keys and plain HTTP are used only for local endpoints, database
      connections never downgrade, grants follow a validated schema; a sidecar that starts is safe
      to reach and panics only for a blank table name, and an archiver that starts was enabled and
      can keep its leases ([Startup]).
    - Telemetry: the metrics have finitely many series whatever the buckets are called; the phases
      and counters of a recovery cycle agree with its outcome, a cutover or a read is reported as
      what it did ([Reports]); the gauge of open connections is the connections created less those
      closed ([PoolReports]). Spans carry no data of the application but those of archive reads,
      which name their bucket ([Spans]); the spans of the gateway show the shape of a statement and
      not its text unless that was asked for, and requests of the extended protocol have none
      ([GatewaySpans]).
    - Load: the four intervals of a profile add up to four times its target, the simulator never
      reuses an identifier, its statements are the ones the sidecar knows, a worker whose
      connection died never opens another, and the interface shows what the example seeds.
    - Schema: a history is accepted exactly when it is a prefix of the shipped migrations,
      [migrate] applies the rest once, and startup accepts exactly a complete schema.

    ** Conventions and bounds

    An instant is an integer number of nanoseconds since the epoch; [Duration]s are
    nanoseconds; [u64], [usize] and [i64] values are integers with their limits written out
    where the code checks or wraps ([u64_checked_add], [saturating_add],
    [wrapping_add_u64], [int8_range]). What a call reads from outside (clocks, fresh tokens,
    the outcome of a transaction attempt) is in its environment, and the theorems quantify
    over it. A loop that is not structurally recursive takes fuel: [range_loop] takes
    [range_fuel], one unit per day of the range and more, and never runs out
    ([buckets_for_range_returns]); [join_loop] takes one unit per bucket; [evict] one per
    cached entry; [transaction_loop] the five attempts of the code; [scan] one per byte
    of the statement and one more; [consecutive_types] one per type and one more; [chunks] one
    per record; [paginate], a client's loop, one per record and one more. Two table entries with the same records in another
    order are equal to every client, so entries are compared with the setoid [≡].

    What an adapter keeps of timestamps and limits is its [fidelity]. The in-memory store keeps
    everything; CockroachDB keeps whole microseconds and limits up to [i64::MAX], so a record with
    a finer time is stored with a rounded one, and a read with finer bounds or cursor is
    answered by rounded ones as long as its bucket is hot, by the exact ones once it is
    archived. [routed_read_is_linearizable] says which page that is; the theorems on pages of
    several buckets, on cursors and on scans assume that the adapter keeps the bounds, cursors
    and limits of the query ([precise], [precise_for]).

    ** What is not modelled

    Log output; span fields that are filled after a span was opened, but for the endpoint;
    serialization derives; mutex poisoning; leap seconds. The trait methods are atomic steps: the in-memory store holds its lock over each, and the database
    runs each as one statement or one serializable transaction (discovery, which is two
    statements, is also characterised on two states). In [System] the renewal task's
    renewals are client steps and its failure an input of [supervise], which [Renewer] justifies.
    SHA-256 is a parameter, and the effect of DDL is the log of the batches that were committed. In the object store objects
    are only created, as the conditional writes of the code do; in [System] one archive call
    is one step, which the contract of [OpenDal] justifies. The Arrow and Parquet libraries,
    DataFusion's planner and evaluator, rustls, the SQL parser, the
    wire protocol library and the PostgreSQL driver are parameters with their documented
    behaviour as laws. The exporters, the HTTP server of the example and the sleeps between archiver cycles are outside
    the model; the archiver's loop is any number of recovery cycles. The gauges of the pool are
    read by several loads that are not one step, so only the counters they load are modelled. The
    theorems of [Queries] are about pages that the query returns; that a query over tiers that
    serve every call returns one is proved in [Table] on a state that does not change. The process
    and the database of [LeaseStores] have clocks of the same rate.

    What is left of the sources besides these is imports, attributes, [Debug] and [Display]
    implementations, accessors, the setup of the exporters, and tests. *)

From Stdlib Require Export ZArith Lia Ascii Strings.Byte.
From stdpp Require Export base list gmap strings pretty sorting.

Declare Scope rust_scope.
Delimit Scope rust_scope with rust.

(** ** Rust's [Result] and panics

    [Result E A] is Rust's [Result<A, E>].  [Outcome A] is what a Rust function
    can do besides returning: [Panicked] is an [expect]/[unwrap]/arithmetic
    panic, [OutOfFuel] is a loop of the model that was given too little fuel
    (every theorem that uses a looping definition proves that this does not
    happen). *)
Inductive Result (E A : Type) : Type :=
  | Ok (a : A)
  | Err (e : E).
Arguments Ok {E A} a.
Arguments Err {E A} e.

Inductive Outcome (A : Type) : Type :=
  | Value (a : A)
  | Panicked
  | OutOfFuel.
Arguments Value {A} a.
Arguments Panicked {A}.
Arguments OutOfFuel {A}.

#[export] Instance Result_eq_dec {E A} `{EqDecision E, EqDecision A} : EqDecision (Result E A).
Proof. solve_decision. Defined.
#[export] Instance Outcome_eq_dec {A} `{EqDecision A} : EqDecision (Outcome A).
Proof. solve_decision. Defined.

#[export] Instance Result_ret {E} : MRet (Result E) := λ A a, Ok a.
#[export] Instance Result_bind {E} : MBind (Result E) := λ A B k c,
  match c with Ok a => k a | Err e => Err e end.
#[export] Instance Result_fmap {E} : FMap (Result E) := λ A B f c,
  match c with Ok a => Ok (f a) | Err e => Err e end.
#[export] Instance Outcome_ret : MRet Outcome := λ A a, Value a.
#[export] Instance Outcome_bind : MBind Outcome := λ A B k c,
  match c with Value a => k a | Panicked => Panicked | OutOfFuel => OutOfFuel end.
#[export] Instance Outcome_fmap : FMap Outcome := λ A B f c,
  match c with Value a => Value (f a) | Panicked => Panicked | OutOfFuel => OutOfFuel end.

(** [Option::ok_or] and [Option::expect]. *)
Definition ok_or {E A} (o : option A) (e : E) : Result E A :=
  match o with Some a => Ok a | None => Err e end.
Definition map_err {E E' A} (f : E → E') (r : Result E A) : Result E' A :=
  match r with Ok a => Ok a | Err e => Err (f e) end.
Definition expect {A} (o : option A) : Outcome A :=
  match o with Some a => Value a | None => Panicked end.

Definition is_ok {E A} (r : Result E A) : bool :=
  match r with Ok _ => true | Err _ => false end.

(** ** Machine integers

    A [w]-bit unsigned integer is a [Z] in [0, 2^w); the operations the code
    uses on them are the checked and the saturating ones. *)
Definition u64_max : Z := 2 ^ 64 - 1.
Definition usize_max : Z := 2 ^ 64 - 1.
Definition i64_max : Z := 2 ^ 63 - 1.
Definition i64_min : Z := - 2 ^ 63.

Definition u64_checked_add (x y : Z) : option Z :=
  if (x + y <=? u64_max)%Z then Some (x + y)%Z else None.
Definition saturating_add (x y : Z) : Z := Z.min (x + y) usize_max.
Definition saturating_sub (x y : Z) : Z := Z.max (x - y) 0.
Definition wrapping_add_u64 (x y : Z) : Z := ((x + y) mod 2 ^ 64)%Z.

(** ** Rust's [Ord] *)
Class Ord (A : Type) := cmp : A → A → comparison.
#[export] Hint Mode Ord ! : typeclass_instances.

Class OrdLaws (A : Type) `{Ord A} : Prop := {
  cmp_eq (x y : A) : cmp x y = Eq ↔ x = y;
  cmp_opp (x y : A) : cmp y x = CompOpp (cmp x y);
  cmp_lt_trans (x y z : A) : cmp x y = Lt → cmp y z = Lt → cmp x z = Lt;
}.

#[export] Hint Mode OrdLaws ! - : typeclass_instances.

Definition ltb {A} `{Ord A} (x y : A) : bool :=
  match cmp x y with Lt => true | _ => false end.
Definition leb {A} `{Ord A} (x y : A) : bool :=
  match cmp x y with Gt => false | _ => true end.
Definition ord_lt {A} `{Ord A} (x y : A) : Prop := ltb x y = true.
Definition ord_le {A} `{Ord A} (x y : A) : Prop := leb x y = true.

#[export] Instance Z_ord : Ord Z := Z.compare.
#[export] Instance byte_ord : Ord byte := λ x y, N.compare (Byte.to_N x) (Byte.to_N y).
#[export] Instance ascii_ord : Ord ascii := λ x y, N.compare (N_of_ascii x) (N_of_ascii y).
#[export] Instance prod_ord {A B} `{Ord A, Ord B} : Ord (A * B) := λ x y,
  match cmp x.1 y.1 with Eq => cmp x.2 y.2 | c => c end.
Fixpoint list_cmp {A} `{Ord A} (x y : list A) : comparison :=
  match x, y with
  | [], [] => Eq
  | [], _ => Lt
  | _, [] => Gt
  | a :: x, b :: y => match cmp a b with Eq => list_cmp x y | c => c end
  end.
#[export] Instance list_ord {A} `{Ord A} : Ord (list A) := list_cmp.
#[export] Instance string_ord : Ord string := λ x y, list_cmp (String.list_ascii_of_string x) (String.list_ascii_of_string y).

(** ** [slice::sort_by] on a key: a stable sort *)
Section sort_by_def.
Context {A K : Type} `{Ord K} (f : A → K).

Fixpoint insert_by (x : A) (l : list A) : list A :=
  match l with
  | [] => [x]
  | y :: l' => if leb (f x) (f y) then x :: l else y :: insert_by x l'
  end.

Fixpoint sort_by (l : list A) : list A :=
  match l with
  | [] => []
  | x :: l' => insert_by x (sort_by l')
  end.

(** The merge of two sorted runs, the left run first on equal keys. *)
Fixpoint merge_by (l1 : list A) : list A → list A :=
  fix go l2 :=
  match l1, l2 with
  | [], _ => l2
  | _, [] => l1
  | x :: l1', y :: l2' => if leb (f x) (f y) then x :: merge_by l1' l2 else y :: go l2'
  end.

Definition sorted_by (l : list A) : Prop := StronglySorted (λ x y, ord_le (f x) (f y)) l.
Definition strictly_sorted_by (l : list A) : Prop := StronglySorted (λ x y, ord_lt (f x) (f y)) l.
End sort_by_def.

(** ** Strings

    A Rust [String] is its UTF-8 bytes.  [is_blank s] is [s.trim().is_empty()]:
    every character of [s] is Unicode white space, whose code points are
    recognised here in their UTF-8 form. *)
Definition byte_at (a : ascii) : N := N_of_ascii a.

(** The rest of the string after one leading white-space character. *)
Definition strip_white_space (s : string) : option string :=
  match s with
  | EmptyString => None
  | String a s1 =>
      let x := byte_at a in
      if ((9 <=? x) && (x <=? 13) || (x =? 32))%N then Some s1
      else match s1 with
      | EmptyString => None
      | String b s2 =>
          let y := byte_at b in
          if ((x =? 194) && ((y =? 133) || (y =? 160)))%N then Some s2
          else match s2 with
          | EmptyString => None
          | String c s3 =>
              let z := byte_at c in
              if ((x =? 225) && (y =? 154) && (z =? 128)
                  || (x =? 226) && (y =? 128) &&
                     ((128 <=? z) && (z <=? 138) || (z =? 168) || (z =? 169) || (z =? 175))
                  || (x =? 226) && (y =? 129) && (z =? 159)
                  || (x =? 227) && (y =? 128) && (z =? 128))%N
              then Some s3 else None
          end
      end
  end.

Fixpoint blank_fuel (fuel : nat) (s : string) : bool :=
  match s, fuel with
  | EmptyString, _ => true
  | _, O => false
  | _, S fuel' =>
      match strip_white_space s with Some s' => blank_fuel fuel' s' | None => false end
  end.
Definition is_blank (s : string) : bool := blank_fuel (String.length s) s.

Example is_blank_spaces : is_blank "  " = true.
Proof. reflexivity. Qed.

(** [str::as_bytes]. *)
Definition string_bytes (s : string) : list byte := String.list_byte_of_string s.

(** ** Tactics and hints *)
Create HintDb pulpitum.
Create HintDb ord.

(** Destruct the scrutinee of every [match]/[if] of the goal or of a hypothesis,
    keeping the equations, and clean up. *)
Ltac case_all :=
  repeat (case_match; simplify_eq/=; try done).

(** Turn boolean tests on [Z] into propositions. *)
Ltac zbool :=
  repeat match goal with
  | H : (_ && _)%bool = true |- _ => apply andb_prop in H as [? ?]
  | H : (_ || _)%bool = false |- _ => apply orb_false_elim in H as [? ?]
  | H : negb _ = true |- _ => apply negb_true_iff in H
  | H : negb _ = false |- _ => apply negb_false_iff in H
  | H : (_ <=? _)%Z = true |- _ => apply Z.leb_le in H
  | H : (_ <=? _)%Z = false |- _ => apply Z.leb_gt in H
  | H : (_ <? _)%Z = true |- _ => apply Z.ltb_lt in H
  | H : (_ <? _)%Z = false |- _ => apply Z.ltb_ge in H
  | H : (_ =? _)%Z = true |- _ => apply Z.eqb_eq in H
  | H : (_ =? _)%Z = false |- _ => apply Z.eqb_neq in H
  | H : bool_decide _ = true |- _ => apply bool_decide_eq_true_1 in H
  | H : bool_decide _ = false |- _ => apply bool_decide_eq_false_1 in H
  end.

(** Linear arithmetic with divisions and remainders by constants. *)
Ltac zlia := Z.to_euclidean_division_equations; lia.

(** ** Lemmas about [Ord] *)
Lemma ord_inj_laws {A B} `{Ord A, Ord B} `{!OrdLaws B} (g : A → B) `{!Inj (=) (=) g} :
  (∀ x y, cmp x y = cmp (g x) (g y)) → OrdLaws A.
Proof.
  intros E. split.
  - intros x y. rewrite E, cmp_eq. split; [apply (inj g)|by intros ->].
  - intros x y. rewrite !E. apply cmp_opp.
  - intros x y z. rewrite !E. apply cmp_lt_trans.
Qed.

#[export] Instance Z_ord_laws : OrdLaws Z.
Proof.
  split; unfold cmp, Z_ord.
  - apply Z.compare_eq_iff.
  - intros x y. apply Z.compare_antisym.
  - intros x y z. rewrite !Z.compare_lt_iff. lia.
Qed.

#[export] Instance N_ord : Ord N := N.compare.
#[export] Instance N_ord_laws : OrdLaws N.
Proof.
  split; unfold cmp, N_ord.
  - apply N.compare_eq_iff.
  - intros x y. apply N.compare_antisym.
  - intros x y z. rewrite !N.compare_lt_iff. lia.
Qed.

#[export] Instance byte_to_N_inj : Inj (=) (=) Byte.to_N.
Proof.
  intros x y E. apply (f_equal Byte.of_N) in E. rewrite !Byte.of_to_N in E. congruence.
Qed.
#[export] Instance byte_ord_laws : OrdLaws byte.
Proof. by apply (ord_inj_laws Byte.to_N). Qed.

#[export] Instance N_of_ascii_inj : Inj (=) (=) N_of_ascii.
Proof.
  intros x y E. by rewrite <- (ascii_N_embedding x), <- (ascii_N_embedding y), E.
Qed.
#[export] Instance ascii_ord_laws : OrdLaws ascii.
Proof. by apply (ord_inj_laws N_of_ascii). Qed.

Lemma cmp_refl {A} `{OrdLaws A} (x : A) : cmp x x = Eq.
Proof. by apply cmp_eq. Qed.

#[export] Instance prod_ord_laws {A B} `{OrdLaws A} `{OrdLaws B} : OrdLaws (A * B).
Proof.
  split.
  - intros [a b] [a' b']. unfold cmp, prod_ord; simpl.
    destruct (cmp a a') eqn:E.
    + apply cmp_eq in E as ->. rewrite cmp_eq. naive_solver.
    + split; [done|]. intros [= -> ->]. by rewrite cmp_refl in E.
    + split; [done|]. intros [= -> ->]. by rewrite cmp_refl in E.
  - intros [a b] [a' b']. unfold cmp, prod_ord; simpl.
    rewrite (cmp_opp a a'). destruct (cmp a a'); simpl; [apply cmp_opp|done..].
  - intros [a b] [a' b'] [a'' b'']. unfold cmp, prod_ord; simpl.
    destruct (cmp a a') eqn:E1, (cmp a' a'') eqn:E2; try done; intros.
    + apply cmp_eq in E1 as ->, E2 as ->. rewrite cmp_refl. by eapply cmp_lt_trans.
    + apply cmp_eq in E1 as ->. by rewrite E2.
    + apply cmp_eq in E2 as ->. by rewrite E1.
    + by rewrite (cmp_lt_trans _ _ _ E1 E2).
Qed.

#[export] Instance list_ord_laws {A} `{OrdLaws A} : OrdLaws (list A).
Proof.
  split; unfold cmp, list_ord.
  - intros x. induction x as [|a x IH]; intros [|b y]; simpl; try done.
    destruct (cmp a b) eqn:E.
    + apply cmp_eq in E as ->. rewrite IH. naive_solver.
    + split; [done|]. intros [= -> ->]. by rewrite cmp_refl in E.
    + split; [done|]. intros [= -> ->]. by rewrite cmp_refl in E.
  - intros x. induction x as [|a x IH]; intros [|b y]; simpl; try done.
    rewrite (cmp_opp a b). destruct (cmp a b); simpl; auto.
  - intros x. induction x as [|a x IH]; intros [|b y] [|c z]; simpl; try done.
    destruct (cmp a b) eqn:E1, (cmp b c) eqn:E2; try done; intros.
    + apply cmp_eq in E1 as ->, E2 as ->. rewrite cmp_refl. eauto.
    + apply cmp_eq in E1 as ->. by rewrite E2.
    + apply cmp_eq in E2 as ->. by rewrite E1.
    + by rewrite (cmp_lt_trans _ _ _ E1 E2).
Qed.

#[export] Instance list_ascii_inj : Inj (=) (=) String.list_ascii_of_string.
Proof.
  intros x y E. rewrite <- (String.string_of_list_ascii_of_string x), E.
  apply String.string_of_list_ascii_of_string.
Qed.
#[export] Instance string_ord_laws : OrdLaws string.
Proof. by apply (ord_inj_laws String.list_ascii_of_string). Qed.

Section ord_lemmas.
Context {A : Type} `{OrdLaws A}.
Implicit Types x y z : A.

Lemma ord_lt_irrefl x : ¬ ord_lt x x.
Proof. unfold ord_lt, ltb. by rewrite cmp_refl. Qed.
Lemma ord_le_refl x : ord_le x x.
Proof. unfold ord_le, leb. by rewrite cmp_refl. Qed.
Lemma ord_lt_spec x y : ord_lt x y ↔ cmp x y = Lt.
Proof. unfold ord_lt, ltb. destruct (cmp x y); naive_solver. Qed.
Lemma ord_le_spec x y : ord_le x y ↔ cmp x y ≠ Gt.
Proof. unfold ord_le, leb. destruct (cmp x y); naive_solver. Qed.
Lemma ord_le_lt_eq x y : ord_le x y ↔ ord_lt x y ∨ x = y.
Proof.
  rewrite ord_le_spec, ord_lt_spec, <- cmp_eq. destruct (cmp x y); naive_solver.
Qed.
Lemma ord_lt_trans x y z : ord_lt x y → ord_lt y z → ord_lt x z.
Proof. rewrite !ord_lt_spec. apply cmp_lt_trans. Qed.
Lemma ord_le_lt_trans x y z : ord_le x y → ord_lt y z → ord_lt x z.
Proof. rewrite ord_le_lt_eq. intros [?| ->]; eauto using ord_lt_trans. Qed.
Lemma ord_lt_le_trans x y z : ord_lt x y → ord_le y z → ord_lt x z.
Proof. rewrite ord_le_lt_eq. intros ? [?| <-]; eauto using ord_lt_trans. Qed.
Lemma ord_lt_le x y : ord_lt x y → ord_le x y.
Proof. rewrite ord_le_lt_eq. by left. Qed.
Lemma ord_le_trans x y z : ord_le x y → ord_le y z → ord_le x z.
Proof.
  rewrite (ord_le_lt_eq x y). intros [Hl| ->]; [|done].
  intros ?. eapply ord_lt_le, ord_lt_le_trans; eauto.
Qed.
Lemma not_leb x y : leb x y = false ↔ ord_lt y x.
Proof.
  unfold leb. rewrite ord_lt_spec, (cmp_opp x y).
  destruct (cmp x y); simpl; split; congruence.
Qed.
Lemma not_ltb x y : ltb x y = false ↔ ord_le y x.
Proof.
  unfold ltb. rewrite ord_le_spec, (cmp_opp x y).
  destruct (cmp x y); simpl; split; congruence.
Qed.
Lemma ord_le_antisym x y : ord_le x y → ord_le y x → x = y.
Proof.
  rewrite (ord_le_lt_eq x y). intros [Hl|?]; [|done]. intros Hle.
  destruct (ord_lt_irrefl x). eauto using ord_lt_le_trans.
Qed.
Lemma ord_lt_not_le x y : ord_lt x y → ¬ ord_le y x.
Proof. intros H1 H2. destruct (ord_lt_irrefl x). eauto using ord_lt_le_trans. Qed.
Lemma ord_le_total x y : ord_le x y ∨ ord_le y x.
Proof.
  destruct (leb x y) eqn:E; [by left|]. right. by apply ord_lt_le, not_leb.
Qed.
End ord_lemmas.
#[export] Hint Resolve ord_le_refl ord_lt_le : ord.
#[export] Hint Resolve ord_lt_trans ord_le_lt_trans ord_lt_le_trans ord_le_trans : ord.

(** ** Lemmas about lists *)
Lemma filter_none {A} (P : A → Prop) `{∀ x, Decision (P x)} (l : list A) :
  Forall (λ x, ¬ P x) l → filter P l = [].
Proof. induction 1 as [|x l Hx _ IH]; [done|]. by rewrite filter_cons_False. Qed.
Lemma filter_all {A} (P : A → Prop) `{∀ x, Decision (P x)} (l : list A) :
  Forall P l → filter P l = l.
Proof. induction 1 as [|x l Hx _ IH]; [done|]. rewrite filter_cons_True by done. by f_equal. Qed.

(** ** Lemmas about strings *)
Lemma string_length_app (s t : string) :
  String.length (s +:+ t) = (String.length s + String.length t)%nat.
Proof. induction s as [|a s IH]; simpl; [done|]. by rewrite IH. Qed.
Lemma string_app_inv_r (s1 s2 t1 t2 : string) :
  String.length t1 = String.length t2 → s1 +:+ t1 = s2 +:+ t2 → s1 = s2 ∧ t1 = t2.
Proof.
  intros Hl. revert s2. induction s1 as [|a s1 IH]; intros [|b s2] E.
  - done.
  - apply (f_equal String.length) in E. rewrite !string_length_app in E. simpl in E. lia.
  - apply (f_equal String.length) in E. rewrite !string_length_app in E. simpl in E. lia.
  - injection E as -> E. destruct (IH s2 E) as [-> ->]. done.
Qed.
Lemma string_app_assoc (s t u : string) : s +:+ (t +:+ u) = (s +:+ t) +:+ u.
Proof. induction s as [|a s IH]; [done|]. exact (f_equal (String a) IH). Qed.

(** The number a string of decimal digits denotes. *)
Fixpoint decimal_go (acc : N) (s : string) : N :=
  match s with
  | EmptyString => acc
  | String a s => decimal_go (10 * acc + (N_of_ascii a - 48)) s
  end.
Definition decimal_value (s : string) : N := decimal_go 0 s.

Lemma decimal_pretty_char (x : N) : (x < 10)%N → (N_of_ascii (pretty_N_char x) - 48)%N = x.
Proof.
  intros. assert (x = 0 ∨ x = 1 ∨ x = 2 ∨ x = 3 ∨ x = 4 ∨ x = 5 ∨ x = 6 ∨ x = 7 ∨ x = 8
    ∨ x = 9)%N as Hx by lia. naive_solver.
Qed.
Lemma decimal_pretty_go (x : N) (s : string) :
  decimal_go 0 (pretty_N_go x s) = decimal_go x s.
Proof.
  revert s. induction (N.lt_wf_0 x) as [x _ IH]; intros s.
  assert (x = 0 ∨ 0 < x)%N as [->|Hx] by lia; [by rewrite pretty_N_go_0|].
  rewrite pretty_N_go_step by done. rewrite IH by by apply N.div_lt. simpl.
  rewrite decimal_pretty_char by by apply N.mod_lt. f_equal.
  by rewrite <- N.div_mod.
Qed.
Lemma decimal_value_pretty (x : N) : decimal_value (pretty x) = x.
Proof.
  unfold decimal_value, pretty, pretty_N. case_decide; [by subst|].
  apply decimal_pretty_go.
Qed.

(** ** Lemmas about the stable sort *)
Section sort_lemmas.
Context {A K : Type} `{OrdLaws K} (f : A → K).
Implicit Types (x y : A) (l : list A) (P : A → Prop).

Lemma insert_by_Permutation x l : insert_by f x l ≡ₚ x :: l.
Proof.
  induction l as [|y l IH]; simpl; [done|]. case_match; [done|].
  by rewrite IH, Permutation_swap.
Qed.
Lemma sort_by_Permutation l : sort_by f l ≡ₚ l.
Proof. induction l as [|x l IH]; simpl; [done|]. by rewrite insert_by_Permutation, IH. Qed.

Lemma insert_by_sorted x l : sorted_by f l → sorted_by f (insert_by f x l).
Proof.
  unfold sorted_by. induction 1 as [|y l Hl IH Hy]; simpl; [repeat constructor|].
  destruct (leb (f x) (f y)) eqn:E.
  - constructor; [by constructor|]. constructor; [done|].
    eapply Forall_impl; [done|]. simpl. intros z ?. by eapply ord_le_trans.
  - constructor; [done|]. rewrite insert_by_Permutation. constructor; [|done].
    by apply ord_lt_le, not_leb.
Qed.
Lemma sort_by_sorted l : sorted_by f (sort_by f l).
Proof. induction l as [|x l IH]; simpl; [constructor|]. by apply insert_by_sorted. Qed.

Lemma sorted_by_filter P `{∀ x, Decision (P x)} l : sorted_by f l → sorted_by f (filter P l).
Proof.
  unfold sorted_by. induction 1 as [|x l Hl IH Hx]; [constructor|].
  rewrite filter_cons. case_decide; [|done]. constructor; [done|].
  rewrite Forall_forall in Hx |- *. intros y [_ ?]%list_elem_of_filter. auto.
Qed.

(** Two sorted lists with the same elements of each key, in the same order, are equal:
    this is what makes the result of a stable sort unique. *)
Lemma sorted_by_unique l1 l2 :
  (∀ k, filter (λ x, cmp (f x) k = Eq) l1 = filter (λ x, cmp (f x) k = Eq) l2) →
  sorted_by f l1 → sorted_by f l2 → l1 = l2.
Proof.
  intros E H1 H2. revert l2 E H2.
  induction H1 as [|x l1 H1 IH Hx]; intros l2 E H2.
  - destruct l2 as [|y l2]; [done|]. specialize (E (f y)). rewrite filter_cons in E.
    rewrite decide_True in E by apply cmp_refl. done.
  - destruct H2 as [|y l2 H2 Hy].
    + specialize (E (f x)). rewrite filter_cons in E. rewrite decide_True in E by apply cmp_refl. done.
    + assert (cmp (f x) (f y) = Eq) as Exy.
      { apply cmp_eq. apply ord_le_antisym.
        - specialize (E (f y)). rewrite !filter_cons in E.
          rewrite (decide_True (P := cmp (f y) (f y) = Eq)) in E by apply cmp_refl.
          case_decide as Hxy; [apply cmp_eq in Hxy; rewrite Hxy; apply ord_le_refl|].
          assert (y ∈ filter (λ x, cmp (f x) (f y) = Eq) l1) as [_ Hin]%list_elem_of_filter
            by (rewrite E; by left).
          rewrite Forall_forall in Hx. by apply Hx.
        - specialize (E (f x)). rewrite !filter_cons in E.
          rewrite (decide_True (P := cmp (f x) (f x) = Eq)) in E by apply cmp_refl.
          case_decide as Hxy; [apply cmp_eq in Hxy; rewrite Hxy; apply ord_le_refl|].
          assert (x ∈ filter (λ z, cmp (f z) (f x) = Eq) l2) as [_ Hin]%list_elem_of_filter
            by (rewrite <- E; by left).
          rewrite Forall_forall in Hy. by apply Hy. }
      apply cmp_eq in Exy.
      assert (x = y) as <-.
      { specialize (E (f x)). rewrite !filter_cons in E. rewrite Exy in E.
        rewrite !decide_True in E by apply cmp_refl. by simplify_eq. }
      f_equal. apply IH; [|done]. intros k. specialize (E k). rewrite !filter_cons in E.
      case_decide; by simplify_eq.
Qed.

Lemma insert_by_filter x l k :
  sorted_by f l →
  filter (λ y, cmp (f y) k = Eq) (insert_by f x l) = filter (λ y, cmp (f y) k = Eq) (x :: l).
Proof.
  induction 1 as [|y l Hl IH Hy]; simpl; [done|]. destruct (leb (f x) (f y)) eqn:E; [done|].
  rewrite !filter_cons. rewrite filter_cons in IH. rewrite IH. apply not_leb, ord_lt_spec in E.
  do 2 case_decide; [|done..].
  exfalso. assert (f x = k) as Ex by by apply cmp_eq. assert (f y = k) as Ey by by apply cmp_eq.
  rewrite Ex, Ey, cmp_refl in E. done.
Qed.
(** Stability: the elements of each key keep their order. *)
Lemma sort_by_filter l k :
  filter (λ y, cmp (f y) k = Eq) (sort_by f l) = filter (λ y, cmp (f y) k = Eq) l.
Proof.
  induction l as [|x l IH]; simpl; [done|].
  rewrite insert_by_filter by apply sort_by_sorted. by rewrite !filter_cons, IH.
Qed.

Lemma sort_by_ext l1 l2 :
  (∀ k, filter (λ x, cmp (f x) k = Eq) l1 = filter (λ x, cmp (f x) k = Eq) l2) →
  sort_by f l1 = sort_by f l2.
Proof.
  intros E. apply sorted_by_unique; [|apply sort_by_sorted..].
  intros k. by rewrite !sort_by_filter.
Qed.
Lemma sort_by_id l : sorted_by f l → sort_by f l = l.
Proof.
  intros. apply sorted_by_unique; [|apply sort_by_sorted|done]. apply sort_by_filter.
Qed.
Lemma sort_by_app l1 l1' l2 l2' :
  sort_by f l1 = sort_by f l1' → sort_by f l2 = sort_by f l2' →
  sort_by f (l1 ++ l2) = sort_by f (l1' ++ l2').
Proof.
  intros E1 E2. apply sort_by_ext. intros k. rewrite !filter_app.
  by rewrite <- (sort_by_filter l1), E1, <- (sort_by_filter l2), E2, !sort_by_filter.
Qed.
Lemma filter_comm P Q `{∀ x, Decision (P x)} `{∀ x, Decision (Q x)} l :
  filter P (filter Q l) = filter Q (filter P l).
Proof. rewrite !list_filter_filter. apply list_filter_iff. naive_solver. Qed.
Lemma filter_sort_by P `{∀ x, Decision (P x)} l :
  filter P (sort_by f l) = sort_by f (filter P l).
Proof.
  apply sorted_by_unique; [|apply sorted_by_filter, sort_by_sorted|apply sort_by_sorted].
  intros k. by rewrite sort_by_filter, filter_comm, sort_by_filter, filter_comm.
Qed.

(** Merging sorted runs. *)
Lemma merge_by_nil_r l : merge_by f l [] = l.
Proof. by destruct l. Qed.
Lemma merge_by_nil_l l : merge_by f [] l = l.
Proof. by destruct l. Qed.
Lemma merge_by_cons x y l1 l2 :
  merge_by f (x :: l1) (y :: l2) =
    if leb (f x) (f y) then x :: merge_by f l1 (y :: l2) else y :: merge_by f (x :: l1) l2.
Proof. done. Qed.

Lemma merge_by_Permutation l1 l2 : merge_by f l1 l2 ≡ₚ l1 ++ l2.
Proof.
  revert l2. induction l1 as [|x l1 IH1]; intros l2; [by rewrite merge_by_nil_l|].
  induction l2 as [|y l2 IH2]; [by rewrite merge_by_nil_r, app_nil_r|].
  rewrite merge_by_cons. case_match; [by rewrite IH1|].
  rewrite IH2. by rewrite Permutation_middle.
Qed.
Lemma merge_by_sorted l1 l2 : sorted_by f l1 → sorted_by f l2 → sorted_by f (merge_by f l1 l2).
Proof.
  intros H1. revert l2. induction H1 as [|x l1 H1 IH1 Hx]; intros l2 H2;
    [by rewrite merge_by_nil_l|].
  induction H2 as [|y l2 H2 IH2 Hy]; [rewrite merge_by_nil_r; by constructor|].
  rewrite merge_by_cons. destruct (leb (f x) (f y)) eqn:E.
  - constructor; [apply IH1; by constructor|]. rewrite merge_by_Permutation, Forall_app.
    split; [done|]. constructor; [done|]. eapply Forall_impl; [done|].
    intros. by eapply ord_le_trans.
  - apply not_leb, ord_lt_le in E. constructor; [done|].
    rewrite merge_by_Permutation, Forall_app. split; [|done]. constructor; [done|].
    eapply Forall_impl; [exact Hx|]. intros. by eapply ord_le_trans.
Qed.
Lemma merge_by_filter k l1 l2 :
  sorted_by f l1 →
  filter (λ x, cmp (f x) k = Eq) (merge_by f l1 l2) =
    filter (λ x, cmp (f x) k = Eq) l1 ++ filter (λ x, cmp (f x) k = Eq) l2.
Proof.
  intros H1. revert l2. induction H1 as [|x l1 H1 IH1 Hx]; intros l2;
    [by rewrite merge_by_nil_l|].
  induction l2 as [|y l2 IH2]; [by rewrite merge_by_nil_r, app_nil_r|].
  rewrite merge_by_cons. destruct (leb (f x) (f y)) eqn:E.
  - rewrite !(filter_cons _ x), IH1. by case_decide.
  - rewrite !(filter_cons _ y), IH2. case_decide as Hk; [|done].
    apply cmp_eq in Hk. apply not_leb in E. rewrite Hk in E.
    assert (filter (λ z, cmp (f z) k = Eq) (x :: l1) = []) as ->; [|done].
    apply filter_none. constructor.
    + intros Heq%cmp_eq. rewrite Heq in E. by apply ord_lt_irrefl in E.
    + eapply Forall_impl; [exact Hx|]. intros z Hz Heq%cmp_eq. rewrite <- Heq in E.
      by apply (ord_lt_not_le _ _ E).
Qed.
Lemma sort_by_merge l1 l2 : sort_by f (l1 ++ l2) = merge_by f (sort_by f l1) (sort_by f l2).
Proof.
  apply sorted_by_unique; [|apply sort_by_sorted|apply merge_by_sorted; apply sort_by_sorted].
  intros k. rewrite merge_by_filter by apply sort_by_sorted.
  by rewrite !sort_by_filter, filter_app.
Qed.

(** The first [n] of a merge only depend on the first [n] of each run. *)
Lemma take_merge_by n l1 l2 :
  take n (merge_by f l1 l2) = take n (merge_by f (take n l1) (take n l2)).
Proof.
  cut (∀ m m', n ≤ m → n ≤ m' →
    take n (merge_by f l1 l2) = take n (merge_by f (take m l1) (take m' l2))); [auto|].
  revert l1 l2. induction n as [|n IH]; intros l1 l2 m m' Hm Hm'; [done|].
  destruct m as [|m]; [lia|]. destruct m' as [|m']; [lia|].
  destruct l1 as [|x l1].
  { rewrite take_nil, !merge_by_nil_l, take_take. f_equal. lia. }
  destruct l2 as [|y l2].
  { rewrite take_nil, !merge_by_nil_r, take_take. f_equal. lia. }
  rewrite !firstn_cons, !merge_by_cons. case_match; rewrite !firstn_cons; f_equal.
  - rewrite (IH l1 (y :: l2) m (S m')); [done|lia..].
  - rewrite (IH (x :: l1) l2 (S m) m'); [done|lia..].
Qed.

(** Sorting the first [m] of each sorted run and keeping [n ≤ m] of the result is
    the same as keeping [n] of the sort of everything. *)
Lemma take_sort_concat n m (ls : list (list A)) :
  n ≤ m →
  take n (sort_by f (concat (map (λ l, take m (sort_by f l)) ls))) =
  take n (sort_by f (concat ls)).
Proof.
  intros Hn. induction ls as [|l ls IH]; [done|]. simpl. rewrite !sort_by_merge.
  rewrite take_merge_by, IH, (take_merge_by n (sort_by f l)). do 2 f_equal.
  rewrite sort_by_id; [by rewrite take_take, Nat.min_l|].
  pose proof (sort_by_sorted l) as Hs. rewrite <- (take_drop m (sort_by f l)) in Hs.
  by apply StronglySorted_app_1_l in Hs.
Qed.

(** Pushing an element at the end of a sorted vector and sorting inserts it after every
    element whose key is not greater. *)
Lemma sort_by_snoc l x : sorted_by f l →
  sort_by f (l ++ [x]) =
  filter (λ y, Is_true (leb (f y) (f x))) l ++ x :: filter (λ y, Is_true (ltb (f x) (f y))) l.
Proof.
  induction 1 as [|y l Hl IH Hy]; simpl; [done|]. rewrite IH, !filter_cons.
  rewrite Forall_forall in Hy. destruct (leb (f y) (f x)) eqn:E; simpl.
  - rewrite (decide_False (P := Is_true (ltb (f x) (f y)))).
    2: { rewrite Is_true_true. intros Hlt. by apply (ord_lt_not_le (f x) (f y)). }
    destruct (filter _ l ++ x :: _) as [|z l'] eqn:El; [by destruct (filter _ l)|].
    simpl. assert (leb (f y) (f z) = true) as ->; [|done].
    assert (z ∈ filter (λ y, Is_true (leb (f y) (f x))) l ++ x :: filter (λ y, Is_true (ltb (f x) (f y))) l)
      as Hz by (rewrite El; left).
    apply elem_of_app in Hz as [[_ Hz]%list_elem_of_filter|[->|[_ Hz]%list_elem_of_filter]%elem_of_cons];
      [by apply Hy|done|by apply Hy].
  - apply not_leb in E. rewrite (decide_True (P := Is_true (ltb (f x) (f y))))
      by (by apply Is_true_true).
    assert (∀ z, z ∈ l → ord_lt (f x) (f z)) as Hx by (intros; eapply ord_lt_le_trans; eauto).
    rewrite filter_none; [|apply Forall_forall; intros z Hz; rewrite Is_true_true; intros Hle;
      by apply (ord_lt_not_le (f x) (f z)); [apply Hx|]].
    rewrite filter_all by (apply Forall_forall; intros z Hz; apply Is_true_true; by apply Hx). simpl.
    assert (leb (f y) (f x) = false) as -> by (by apply not_leb). f_equal.
    destruct l as [|z l]; [done|]. simpl. assert (leb (f y) (f z) = true) as ->; [|done].
    apply Hy. left.
Qed.

Lemma sorted_by_strict l : sorted_by f l → NoDup (f <$> l) → strictly_sorted_by f l.
Proof.
  unfold sorted_by, strictly_sorted_by. induction 1 as [|x l Hl IH Hx]; [constructor|].
  rewrite fmap_cons, NoDup_cons. intros [Hn Hnd]. constructor; [by apply IH|].
  rewrite Forall_forall in Hx |- *. intros y Hy. specialize (Hx y Hy).
  apply ord_le_lt_eq in Hx as [|E]; [done|]. exfalso. apply Hn. rewrite E.
  by apply list_elem_of_fmap_2.
Qed.
End sort_lemmas.
