(* ===== verification/Chrono.v ===== *)
(** * UTC instants and the calendar operations the domain layer calls

    The [chrono] crate is not part of this repository, so the calendar is an
    interface: [Chrono] names the operations [src/src/domain] calls on
    [DateTime<Utc>], and [ChronoLaws] states the documented behaviour the code
    relies on.  An instant is the number of nanoseconds since the Unix epoch
    (the leap-second representation of [chrono] is left out).  [Gregorian] gives
    a concrete instance that satisfies every law. *)
From S2P Require Import Prelude.

Local Open Scope Z_scope.

Definition NANOS_PER_DAY : Z := 86400000000000.

Class Chrono := {
  (** [DateTime::<Utc>::MIN_UTC] and [MAX_UTC]. *)
  min_utc : Z;
  max_utc : Z;
  (** [Datelike::year], [month] and [day]. *)
  year : Z → Z;
  month : Z → Z;
  day : Z → Z;
  (** [Utc.with_ymd_and_hms(y, m, d, 0, 0, 0).single()]. *)
  with_ymd : Z → Z → Z → option Z;
  (** [DateTime::checked_add_months], [checked_add_days] and [checked_sub_signed]. *)
  checked_add_months : Z → Z → option Z;
  checked_add_days : Z → Z → option Z;
  checked_sub_signed : Z → Z → option Z;
}.

Definition in_range `{Chrono} (t : Z) : Prop := min_utc <= t <= max_utc.
Definition ymd `{Chrono} (t : Z) : Z * (Z * Z) := (year t, (month t, day t)).
(** [DateTime::timestamp_nanos_opt]: nanoseconds that fit an [i64]. *)
Definition timestamp_nanos_opt (t : Z) : option Z :=
  if (i64_min <=? t) && (t <=? i64_max) then Some t else None.
(** [DateTime::from_timestamp_nanos] of an [i64]. *)
Definition from_timestamp_nanos (nanos : Z) : Z := nanos.
Definition midnight (t : Z) : Prop := t mod NANOS_PER_DAY = 0.

Class ChronoLaws `{Chrono} : Prop := {
  (** The representable instants run from midnight of January 1 of the first year
      to the last nanosecond of December 31 of the last one. *)
  min_utc_midnight : midnight min_utc;
  min_le_max_utc : min_utc <= max_utc;
  max_utc_december : month max_utc = 12;
  (** A civil date is one day of 86400 seconds, and dates follow time. *)
  ymd_same_day t1 t2 : in_range t1 → in_range t2 →
    ymd t1 = ymd t2 ↔ t1 / NANOS_PER_DAY = t2 / NANOS_PER_DAY;
  ymd_mono t1 t2 : in_range t1 → in_range t2 → t1 <= t2 → ord_le (ymd t1) (ymd t2);
  month_bounds t : in_range t → 1 <= month t <= 12;
  day_bounds t : in_range t → 1 <= day t <= 31;
  (** [with_ymd] is the midnight of a date, when there is one; the first of every
      month of a representable year is one. *)
  with_ymd_spec y m d t :
    with_ymd y m d = Some t ↔ in_range t ∧ midnight t ∧ ymd t = (y, (m, d));
  with_ymd_first y m : year min_utc <= y <= year max_utc → 1 <= m <= 12 →
    is_Some (with_ymd y m 1);
  (** Adding months to the midnight of a first of the month. *)
  checked_add_months_first t n : in_range t → midnight t → day t = 1 → 0 <= n →
    checked_add_months t n =
      with_ymd (year t + (month t - 1 + n) / 12) ((month t - 1 + n) mod 12 + 1) 1;
  (** A UTC day has no gaps, and instants subtract as integers. *)
  checked_add_days_spec t n : in_range t → 0 <= n →
    checked_add_days t n =
      if bool_decide (in_range (t + n * NANOS_PER_DAY)) then Some (t + n * NANOS_PER_DAY) else None;
  checked_sub_signed_spec t d : in_range t →
    checked_sub_signed t d = if bool_decide (in_range (t - d)) then Some (t - d) else None;
  (** [i64] nanoseconds since the epoch end in 2262, far inside the representable years. *)
  nanos_in_range t : i64_min <= t <= i64_max → in_range t;
  nanos_year t : i64_min <= t <= i64_max → year t + 1 < year max_utc;
}.

Section chrono_lemmas.
Context `{ChronoLaws}.
Implicit Types t u : Z.

Lemma with_ymd_in_range y m d t : with_ymd y m d = Some t → in_range t.
Proof. rewrite with_ymd_spec. naive_solver. Qed.
Lemma with_ymd_midnight y m d t : with_ymd y m d = Some t → midnight t.
Proof. rewrite with_ymd_spec. naive_solver. Qed.
Lemma with_ymd_ymd y m d t : with_ymd y m d = Some t → ymd t = (y, (m, d)).
Proof. rewrite with_ymd_spec. naive_solver. Qed.

Lemma floor_day_bounds t :
  t - t mod NANOS_PER_DAY <= t < t - t mod NANOS_PER_DAY + NANOS_PER_DAY.
Proof. unfold NANOS_PER_DAY. zlia. Qed.
Lemma floor_day_midnight t : midnight (t - t mod NANOS_PER_DAY).
Proof. unfold midnight, NANOS_PER_DAY. zlia. Qed.
Lemma floor_day_div t :
  (t - t mod NANOS_PER_DAY) / NANOS_PER_DAY = t / NANOS_PER_DAY.
Proof. unfold NANOS_PER_DAY. zlia. Qed.
(** A midnight that is not after [t] is not after the midnight of [t]'s day. *)
Lemma midnight_le_floor m t : midnight m → m <= t → m <= t - t mod NANOS_PER_DAY.
Proof. unfold midnight, NANOS_PER_DAY. zlia. Qed.

Lemma floor_day_in_range t : in_range t → in_range (t - t mod NANOS_PER_DAY).
Proof.
  unfold in_range. intros [? ?]. pose proof (floor_day_bounds t).
  pose proof (midnight_le_floor min_utc t min_utc_midnight). lia.
Qed.

(** The midnight of [t]'s own date. *)
Lemma with_ymd_own_date t : in_range t →
  with_ymd (year t) (month t) (day t) = Some (t - t mod NANOS_PER_DAY).
Proof.
  intros Ht. apply with_ymd_spec. split; [by apply floor_day_in_range|].
  split; [apply floor_day_midnight|]. apply ymd_same_day; [by apply floor_day_in_range|done|].
  apply floor_day_div.
Qed.

(** Dates compare as instants do: an instant of an earlier date is earlier. *)
Lemma ymd_lt_inv t u : in_range t → in_range u → ord_lt (ymd t) (ymd u) → t < u.
Proof.
  intros Ht Hu Hlt. destruct (Z.lt_ge_cases t u) as [?|Hge]; [done|exfalso].
  apply (ord_lt_not_le _ _ Hlt). by apply ymd_mono.
Qed.
Lemma ymd_le_midnight t u :
  in_range t → in_range u → midnight t → ord_le (ymd t) (ymd u) → t <= u.
Proof.
  intros Ht Hu Hm [Hlt|Heq]%ord_le_lt_eq; [apply ymd_lt_inv in Hlt; [lia|done..]|].
  apply ymd_same_day in Heq; [|done..].
  unfold midnight, NANOS_PER_DAY in *. zlia.
Qed.
Lemma midnight_ymd_inj t u :
  in_range t → in_range u → midnight t → midnight u → ymd t = ymd u → t = u.
Proof.
  intros Ht Hu Mt Mu E. apply Z.le_antisymm; apply ymd_le_midnight; auto;
    rewrite E; apply ord_le_refl.
Qed.

Lemma lex_lt_spec (a b : Z * (Z * Z)) :
  ord_lt a b ↔ a.1 < b.1 ∨ a.1 = b.1 ∧ (a.2.1 < b.2.1 ∨ a.2.1 = b.2.1 ∧ a.2.2 < b.2.2).
Proof.
  rewrite ord_lt_spec. destruct a as [y [m d]], b as [y' [m' d']]; simpl.
  unfold cmp, prod_ord, cmp, prod_ord, cmp, Z_ord; simpl.
  destruct (Z.compare_spec y y'), (Z.compare_spec m m'), (Z.compare_spec d d');
    split; try done; intuition lia.
Qed.
Lemma lex_le_spec (a b : Z * (Z * Z)) :
  ord_le a b ↔ a.1 < b.1 ∨ a.1 = b.1 ∧ (a.2.1 < b.2.1 ∨ a.2.1 = b.2.1 ∧ a.2.2 <= b.2.2).
Proof.
  rewrite ord_le_lt_eq, lex_lt_spec. destruct a as [y [m d]], b as [y' [m' d']]; simpl.
  split; [naive_solver lia|]. intros. destruct (decide (d = d')); [|naive_solver lia].
  destruct (decide (m = m')), (decide (y = y')); subst; intuition lia.
Qed.
End chrono_lemmas.
