(* ===== verification/Gregorian.v ===== *)
(** * The proleptic Gregorian calendar

    A concrete instance of the [Chrono] interface, used by the witnesses: it shows
    that the laws the theorems assume of the calendar can hold together.  The
    range of years is the one [chrono] documents for [DateTime<Utc>]. *)
From S2P Require Import Prelude Chrono.

Local Open Scope Z_scope.

(** Days before January 1 of year [y], counted from year 0. *)
Definition days_before_year (y : Z) : Z :=
  365 * y + (y + 3) / 4 - (y + 99) / 100 + (y + 399) / 400.
Definition leap (y : Z) : Z := days_before_year (y + 1) - days_before_year y - 365.

(** Days before month [m] of a year with [l] leap days; [m = 13] is the year's length. *)
Definition days_before_month (l m : Z) : Z :=
  if m <=? 2 then 31 * (m - 1) else 59 + l + (153 * (m - 3) + 2) / 5.
Definition month_length (y m : Z) : Z :=
  days_before_month (leap y) (m + 1) - days_before_month (leap y) m.

Definition unix_epoch_days : Z := 719528.

Definition days_from_civil (y m d : Z) : Z :=
  days_before_year y + days_before_month (leap y) m + d - 1.

Definition civil_year (n : Z) : Z :=
  let y := 400 * n / 146097 in
  if n <? days_before_year y then y - 1
  else if days_before_year (y + 1) <=? n then y + 1 else y.
Definition day_of_year (n : Z) : Z := n - days_before_year (civil_year n).
Definition civil_month (n : Z) : Z :=
  let l := leap (civil_year n) in
  let r := day_of_year n in
  if r <? 31 then 1 else if r <? 59 + l then 2 else (5 * (r - 59 - l) + 2) / 153 + 3.
Definition civil_day (n : Z) : Z :=
  day_of_year n - days_before_month (leap (civil_year n)) (civil_month n) + 1.

Definition epoch_day (t : Z) : Z := t / NANOS_PER_DAY + unix_epoch_days.
Definition day_instant (n : Z) : Z := (n - unix_epoch_days) * NANOS_PER_DAY.

Definition min_year : Z := -262143.
Definition max_year : Z := 262142.

Definition greg_min : Z := day_instant (days_from_civil min_year 1 1).
Definition greg_max : Z := day_instant (days_from_civil (max_year + 1) 1 1) - 1.

Arguments greg_min : simpl never.
Arguments greg_max : simpl never.

Definition greg_range (t : Z) : bool := (greg_min <=? t) && (t <=? greg_max).
Definition greg_with_ymd (y m d : Z) : option Z :=
  if (min_year <=? y) && (y <=? max_year) && (1 <=? m) && (m <=? 12)
     && (1 <=? d) && (d <=? month_length y m)
  then Some (day_instant (days_from_civil y m d)) else None.
Definition greg_add_months (t n : Z) : option Z :=
  let y := civil_year (epoch_day t) in
  let m := civil_month (epoch_day t) in
  let y' := y + (m - 1 + n) / 12 in
  let m' := (m - 1 + n) mod 12 + 1 in
  let d' := Z.min (civil_day (epoch_day t)) (month_length y' m') in
  match greg_with_ymd y' m' d' with
  | Some t' => Some (t' + t mod NANOS_PER_DAY)
  | None => None
  end.

#[export] Instance gregorian : Chrono := {|
  min_utc := greg_min;
  max_utc := greg_max;
  year t := civil_year (epoch_day t);
  month t := civil_month (epoch_day t);
  day t := civil_day (epoch_day t);
  with_ymd := greg_with_ymd;
  checked_add_months := greg_add_months;
  checked_add_days t n :=
    let t' := t + n * NANOS_PER_DAY in if greg_range t' then Some t' else None;
  checked_sub_signed t d := let t' := t - d in if greg_range t' then Some t' else None;
|}.

Example epoch_is_1970_01_01 : ymd 0 = (1970, (1, 1)).
Proof. reflexivity. Qed.
Example leap_day_2024 : with_ymd 2024 2 29 = Some 1709164800000000000.
Proof. reflexivity. Qed.

Lemma days_before_year_step y : 365 <= days_before_year (y + 1) - days_before_year y <= 366.
Proof. unfold days_before_year. zlia. Qed.
Lemma leap_bounds y : 0 <= leap y <= 1.
Proof. unfold leap. pose proof (days_before_year_step y). lia. Qed.
Lemma days_before_year_mono y1 y2 : y1 < y2 → days_before_year (y1 + 1) <= days_before_year y2.
Proof. unfold days_before_year. zlia. Qed.

Lemma civil_year_spec n :
  days_before_year (civil_year n) <= n < days_before_year (civil_year n + 1).
Proof.
  unfold civil_year. cbv zeta. set (y := 400 * n / 146097).
  assert (days_before_year (y - 1) <= n < days_before_year (y + 1 + 1)) as [? ?].
  { unfold days_before_year, y. zlia. }
  destruct (n <? days_before_year y) eqn:E1; zbool; [rewrite Z.sub_add; lia|].
  destruct (days_before_year (y + 1) <=? n) eqn:E2; zbool; lia.
Qed.
Lemma day_of_year_bounds n : 0 <= day_of_year n < 365 + leap (civil_year n).
Proof. unfold day_of_year, leap. pose proof (civil_year_spec n). lia. Qed.

Lemma civil_month_spec n :
  1 <= civil_month n <= 12 ∧
  days_before_month (leap (civil_year n)) (civil_month n) <= day_of_year n
    < days_before_month (leap (civil_year n)) (civil_month n + 1).
Proof.
  pose proof (day_of_year_bounds n) as Hr. pose proof (leap_bounds (civil_year n)) as Hl.
  unfold civil_month. generalize dependent (leap (civil_year n)). intros l Hr Hl.
  generalize dependent (day_of_year n). intros r Hr. unfold days_before_month.
  destruct (r <? 31) eqn:?; zbool; [simpl; lia|].
  destruct (r <? 59 + l) eqn:?; zbool; [simpl; zlia|].
  repeat case_match; zbool; zlia.
Qed.
Lemma civil_day_spec n :
  1 <= civil_day n <= month_length (civil_year n) (civil_month n).
Proof. unfold civil_day, month_length. pose proof (civil_month_spec n). lia. Qed.
Lemma month_length_bounds y m : 1 <= m <= 12 → 28 <= month_length y m <= 31.
Proof.
  intros. unfold month_length, days_before_month. pose proof (leap_bounds y).
  repeat case_match; zbool; zlia.
Qed.

Lemma days_from_civil_year n :
  days_from_civil (civil_year n) (civil_month n) (civil_day n) = n.
Proof. unfold days_from_civil, civil_day, day_of_year. lia. Qed.

Lemma days_before_month_mono l m1 m2 : 0 <= l <= 1 → 1 <= m1 → m1 < m2 → m2 <= 13 →
  days_before_month l (m1 + 1) <= days_before_month l m2.
Proof. intros. unfold days_before_month. repeat case_match; zbool; zlia. Qed.

Definition valid_date (y m d : Z) : Prop := 1 <= m <= 12 ∧ 1 <= d <= month_length y m.

Lemma days_from_civil_bounds y m d : valid_date y m d →
  days_before_year y <= days_from_civil y m d < days_before_year (y + 1).
Proof.
  intros [Hm Hd]. unfold days_from_civil, month_length in *.
  pose proof (leap_bounds y) as Hl.
  assert (days_before_month (leap y) (m + 1) <= 365 + leap y).
  { replace (365 + leap y) with (days_before_month (leap y) 13)
      by (unfold days_before_month; simpl; zlia).
    destruct (decide (m = 12)) as [->|]; [done|]. apply days_before_month_mono; lia. }
  assert (0 <= days_before_month (leap y) m).
  { unfold days_before_month. case_match; zbool; zlia. }
  unfold leap in *. lia.
Qed.

Lemma days_from_civil_mono y1 m1 d1 y2 m2 d2 :
  valid_date y1 m1 d1 → valid_date y2 m2 d2 →
  ord_lt (y1, (m1, d1)) (y2, (m2, d2)) →
  days_from_civil y1 m1 d1 < days_from_civil y2 m2 d2.
Proof.
  intros V1 V2 Hlt%lex_lt_spec. simpl in Hlt.
  destruct Hlt as [Hy|[<- [Hm|[<- Hd]]]].
  - pose proof (days_from_civil_bounds _ _ _ V1). pose proof (days_from_civil_bounds _ _ _ V2).
    pose proof (days_before_year_mono y1 y2 Hy). lia.
  - destruct V1 as [? ?], V2 as [? ?]. unfold days_from_civil, month_length in *.
    pose proof (days_before_month_mono (leap y1) m1 m2 (leap_bounds y1)). lia.
  - unfold days_from_civil. lia.
Qed.
Lemma days_from_civil_inj y1 m1 d1 y2 m2 d2 :
  valid_date y1 m1 d1 → valid_date y2 m2 d2 →
  days_from_civil y1 m1 d1 = days_from_civil y2 m2 d2 → (y1, (m1, d1)) = (y2, (m2, d2)).
Proof.
  intros V1 V2 E. apply ord_le_antisym.
  - destruct (leb (y1, (m1, d1)) (y2, (m2, d2))) eqn:L; [done|].
    apply not_leb in L. pose proof (days_from_civil_mono _ _ _ _ _ _ V2 V1 L). lia.
  - destruct (leb (y2, (m2, d2)) (y1, (m1, d1))) eqn:L; [done|].
    apply not_leb in L. pose proof (days_from_civil_mono _ _ _ _ _ _ V1 V2 L). lia.
Qed.

Definition civil (n : Z) : Z * (Z * Z) := (civil_year n, (civil_month n, civil_day n)).

Lemma civil_valid n : valid_date (civil_year n) (civil_month n) (civil_day n).
Proof. split; [apply civil_month_spec|apply civil_day_spec]. Qed.
Lemma civil_days y m d : valid_date y m d → civil (days_from_civil y m d) = (y, (m, d)).
Proof.
  intros V. apply days_from_civil_inj; [apply civil_valid|done|].
  apply days_from_civil_year.
Qed.
Lemma civil_inj n1 n2 : civil n1 = civil n2 → n1 = n2.
Proof.
  unfold civil. intros E. rewrite <- (days_from_civil_year n1), <- (days_from_civil_year n2).
  congruence.
Qed.
Lemma civil_mono n1 n2 : n1 <= n2 → ord_le (civil n1) (civil n2).
Proof.
  intros Hle. destruct (leb (civil n1) (civil n2)) eqn:L; [done|]. apply not_leb in L.
  pose proof (days_from_civil_mono _ _ _ _ _ _ (civil_valid n2) (civil_valid n1) L) as Hlt.
  rewrite !days_from_civil_year in Hlt. lia.
Qed.

Lemma epoch_day_instant n : epoch_day (day_instant n) = n.
Proof. unfold epoch_day, day_instant, NANOS_PER_DAY. zlia. Qed.
Lemma day_instant_midnight n : midnight (day_instant n).
Proof. unfold midnight, day_instant, NANOS_PER_DAY. zlia. Qed.
Lemma midnight_day_instant t : midnight t → t = day_instant (epoch_day t).
Proof. unfold midnight, epoch_day, day_instant, NANOS_PER_DAY. zlia. Qed.

(** The representable instants are those of the representable years. *)
Lemma greg_range_days t :
  greg_min <= t <= greg_max ↔
  days_before_year min_year <= epoch_day t < days_before_year (max_year + 1).
Proof.
  assert (greg_min = day_instant (days_before_year min_year)) as -> by reflexivity.
  assert (greg_max = day_instant (days_before_year (max_year + 1)) - 1) as -> by reflexivity.
  unfold epoch_day, day_instant, NANOS_PER_DAY. zlia.
Qed.
Lemma greg_range_year t :
  greg_min <= t <= greg_max ↔ min_year <= civil_year (epoch_day t) <= max_year.
Proof.
  rewrite greg_range_days. pose proof (civil_year_spec (epoch_day t)) as Hy.
  generalize dependent (civil_year (epoch_day t)). intros y Hy.
  unfold days_before_year, min_year, max_year in *. zlia.
Qed.
#[local] Opaque greg_min greg_max.
Lemma greg_range_spec t : greg_range t = bool_decide (in_range t).
Proof.
  unfold greg_range, in_range. simpl. case_bool_decide as H; [destruct H|];
    destruct (Z.leb_spec greg_min t), (Z.leb_spec t greg_max); simpl; try done; lia.
Qed.

Lemma greg_with_ymd_spec y m d t :
  greg_with_ymd y m d = Some t ↔ in_range t ∧ midnight t ∧ ymd t = (y, (m, d)).
Proof.
  unfold greg_with_ymd, in_range. split.
  - intros E. case_match eqn:C; simplify_eq. zbool.
    assert (valid_date y m d) as V by (unfold valid_date; lia).
    pose proof (civil_days y m d V) as Ed. unfold civil in Ed. simplify_eq Ed. intros Ey Em Edd.
    unfold ymd. simpl. rewrite epoch_day_instant. split; [|split].
    + apply greg_range_year. rewrite epoch_day_instant. lia.
    + apply day_instant_midnight.
    + congruence.
  - intros (Hr & Hm & E). unfold ymd in E. injection E as <- <- <-. cbn [year month day gregorian].
    pose proof (proj1 (greg_range_year t) Hr) as Hy. destruct (civil_valid (epoch_day t)) as [? ?].
    repeat match goal with |- context [?a <=? ?b] =>
      replace (a <=? b) with true by (symmetry; apply Z.leb_le; lia) end.
    simpl. by rewrite days_from_civil_year, <- midnight_day_instant.
Qed.

#[local] Transparent greg_min greg_max.
#[export] Instance gregorian_laws : ChronoLaws.
Proof.
  split.
  - reflexivity.
  - by vm_compute.
  - reflexivity.
  - intros t1 t2 _ _. unfold ymd. simpl. fold (civil (epoch_day t1)) (civil (epoch_day t2)).
    split.
    + intros E%civil_inj. unfold epoch_day in E. lia.
    + intros E. unfold epoch_day. by rewrite E.
  - intros t1 t2 _ _ Hle. apply civil_mono. unfold epoch_day, NANOS_PER_DAY. zlia.
  - intros t _. apply civil_month_spec.
  - intros t _. pose proof (civil_day_spec (epoch_day t)).
    pose proof (month_length_bounds (civil_year (epoch_day t)) (civil_month (epoch_day t))
      (proj1 (civil_month_spec _))). simpl. lia.
  - apply greg_with_ymd_spec.
  - intros y m Hy Hm. assert (year min_utc = min_year) as Emin by reflexivity.
    assert (year max_utc = max_year) as Emax by reflexivity. rewrite Emin, Emax in Hy.
    simpl. unfold greg_with_ymd. pose proof (month_length_bounds y m Hm).
    repeat match goal with |- context [?a <=? ?b] =>
      replace (a <=? b) with true by (symmetry; apply Z.leb_le; lia) end. by eexists.
  - intros t n Hr Hm Hd Hn. simpl in *. unfold greg_add_months. rewrite Hd, Hm.
    rewrite Z.min_l.
    + destruct (greg_with_ymd _ _ _); [by rewrite Z.add_0_r|done].
    + pose proof (month_length_bounds (civil_year (epoch_day t)
        + (civil_month (epoch_day t) - 1 + n) / 12)
        ((civil_month (epoch_day t) - 1 + n) mod 12 + 1)).
      assert (1 <= (civil_month (epoch_day t) - 1 + n) mod 12 + 1 <= 12) by zlia. lia.
  - intros t n _ _. simpl. rewrite greg_range_spec. done.
  - intros t d _. simpl. rewrite greg_range_spec. done.
  - unfold in_range. intros t Ht. assert (min_utc <= i64_min) by (by vm_compute).
    assert (i64_max <= max_utc) by (by vm_compute). lia.
  - intros t Ht. assert (ord_le (civil (epoch_day t)) (civil (epoch_day i64_max))) as Hle
      by (apply civil_mono; unfold epoch_day, NANOS_PER_DAY; zlia).
    assert (year i64_max + 1 < year max_utc) by (by vm_compute).
    rewrite lex_le_spec in Hle. simpl in *. lia.
Qed.
