(* ===== verification/Model.v ===== *)
(** * The domain model: keys, buckets, records, cursors ([src/src/domain/model.rs])

    [PartitionKey] and [SortKey] are opaque byte strings; a [BucketId] is a
    physical partition whose key and bounds a calendar strategy derives from an
    event time.  The theorems show that the buckets of a strategy tile time:
    every event time lies in exactly one bucket, and the canonical key names it. *)
From S2P Require Import Prelude Chrono.

Local Open Scope Z_scope.

(** ** Opaque keys

    [PartitionKey] and [SortKey] wrap a [Vec<u8>], here a [list byte]. *)
Definition key_len (k : list byte) : nat := length k.
Definition key_is_empty (k : list byte) : bool := bool_decide (k = []).
Definition key_from_string (s : string) : list byte := string_bytes s.

#[export] Instance byte_eq_dec : EqDecision byte := Byte.byte_eq_dec.
#[export] Program Instance byte_countable : Countable byte :=
  inj_countable Byte.to_N Byte.of_N _.
Next Obligation. intros x. apply Byte.of_to_N. Qed.

(** ** Bucket keys *)
Inductive BucketKeyError := BucketKeyEmpty.

Definition BucketKey_new (value : string) : Result BucketKeyError string :=
  if is_blank value then Err BucketKeyEmpty else Ok value.

(** ** Strategies *)
Inductive BucketStrategy := CalendarYearUtc | CalendarMonthUtc | CalendarDayUtc.

#[export] Instance BucketStrategy_eq_dec : EqDecision BucketStrategy.
Proof. solve_decision. Defined.
Definition strategy_index (s : BucketStrategy) : Z :=
  match s with CalendarYearUtc => 0 | CalendarMonthUtc => 1 | CalendarDayUtc => 2 end.
Definition strategy_of_index (z : Z) : option BucketStrategy :=
  if z =? 0 then Some CalendarYearUtc else if z =? 1 then Some CalendarMonthUtc
  else if z =? 2 then Some CalendarDayUtc else None.
#[export] Program Instance BucketStrategy_countable : Countable BucketStrategy :=
  inj_countable strategy_index strategy_of_index _.
Next Obligation. by intros []. Qed.

Definition strategy_default : BucketStrategy := CalendarYearUtc.

Definition strategy_as_str (s : BucketStrategy) : string :=
  match s with
  | CalendarYearUtc => "calendar_year_utc"
  | CalendarMonthUtc => "calendar_month_utc"
  | CalendarDayUtc => "calendar_day_utc"
  end.

Inductive BucketStrategyParseError := UnsupportedStrategy (value : string).

Definition strategy_from_str (value : string) : Result BucketStrategyParseError BucketStrategy :=
  if decide (value = "calendar_year_utc") then Ok CalendarYearUtc
  else if decide (value = "calendar_month_utc") then Ok CalendarMonthUtc
  else if decide (value = "calendar_day_utc") then Ok CalendarDayUtc
  else Err (UnsupportedStrategy value).

(** Rust's [{:0w}]: sign-aware zero padding to a minimal width. *)
Fixpoint zeros (n : nat) : string :=
  match n with O => "" | S n => String "0" (zeros n) end.
Definition zero_pad (w : nat) (s : string) : string := zeros (w - String.length s) +:+ s.
Definition fmt_width (w : nat) (z : Z) : string :=
  if z <? 0 then "-" +:+ zero_pad (w - 1) (pretty (Z.to_N (- z))) else zero_pad w (pretty (Z.to_N z)).

Section strategies.
Context `{Chrono}.

(** The text [format!] builds for each strategy. *)
Definition bucket_key_text (s : BucketStrategy) (event_time : Z) : string :=
  match s with
  | CalendarYearUtc => "year:" +:+ fmt_width 4 (year event_time)
  | CalendarMonthUtc =>
      "month:" +:+ fmt_width 4 (year event_time) +:+ "-" +:+ fmt_width 2 (month event_time)
  | CalendarDayUtc =>
      "day:" +:+ fmt_width 4 (year event_time) +:+ "-" +:+ fmt_width 2 (month event_time)
        +:+ "-" +:+ fmt_width 2 (day event_time)
  end.
Definition bucket_key (s : BucketStrategy) (event_time : Z) : Outcome string :=
  match BucketKey_new (bucket_key_text s event_time) with Ok k => Value k | Err _ => Panicked end.

(** [utc_date] panics on a date that is not representable. *)
Definition utc_date (y m d : Z) : Outcome Z := expect (with_ymd y m d).

Definition bucket_bounds (s : BucketStrategy) (event_time : Z) : Outcome (Z * Z) :=
  start ← match s with
          | CalendarYearUtc => utc_date (year event_time) 1 1
          | CalendarMonthUtc => utc_date (year event_time) (month event_time) 1
          | CalendarDayUtc => utc_date (year event_time) (month event_time) (day event_time)
          end;
  end_ ← expect match s with
                | CalendarYearUtc => checked_add_months start 12
                | CalendarMonthUtc => checked_add_months start 1
                | CalendarDayUtc => checked_add_days start 1
                end;
  Value (start, end_).
End strategies.

(** ** Buckets *)
Record BucketId := mkBucketId {
  table_id : string;
  partition_key : list byte;
  strategy : BucketStrategy;
  key : string;
  start : Z;
  end_ : Z;
}.

Definition bucket_fields (b : BucketId) :=
  (table_id b, (partition_key b, (strategy b, (key b, (start b, end_ b))))).
#[export] Instance bucket_fields_inj : Inj (=) (=) bucket_fields.
Proof. intros [] []; unfold bucket_fields; simpl. congruence. Qed.
#[export] Instance BucketId_eq_dec : EqDecision BucketId.
Proof. solve_decision. Defined.
#[export] Program Instance BucketId_countable : Countable BucketId :=
  inj_countable bucket_fields
    (λ '(t, (p, (s, (k, (a, e))))), Some (mkBucketId t p s k a e)) _.
Next Obligation. by intros []. Qed.

(** [#[derive(Ord)]]: the fields in their declared order. *)
#[export] Instance BucketStrategy_ord : Ord BucketStrategy :=
  λ x y, Z.compare (strategy_index x) (strategy_index y).
#[export] Instance BucketId_ord : Ord BucketId :=
  λ x y, cmp (bucket_fields x) (bucket_fields y).

#[export] Instance strategy_index_inj : Inj (=) (=) strategy_index.
Proof. by intros [] []. Qed.
#[export] Instance BucketStrategy_ord_laws : OrdLaws BucketStrategy.
Proof. by apply (ord_inj_laws strategy_index). Qed.
#[export] Instance BucketId_ord_laws : OrdLaws BucketId.
Proof. by apply (ord_inj_laws bucket_fields). Qed.

Definition for_event_time_with_strategy `{Chrono}
    (tid : string) (pk : list byte) (s : BucketStrategy) (event_time : Z) : Outcome BucketId :=
  bounds ← bucket_bounds s event_time;
  k ← bucket_key s event_time;
  Value (mkBucketId tid pk s k bounds.1 bounds.2).

Definition bucket_contains (b : BucketId) (event_time : Z) : bool :=
  (start b <=? event_time) && (event_time <? end_ b).

(** ** Records, cursors and time ranges *)
Record Record_ := mkRecord {
  r_partition_key : list byte;
  event_time : Z;
  sort_key : list byte;
  value : list byte;
}.
Record Cursor := mkCursor { c_event_time : Z; c_sort_key : list byte }.
Record TimeRange := mkTimeRange { range_start : Z; range_end : Z }.

#[export] Instance Record_eq_dec : EqDecision Record_.
Proof. solve_decision. Defined.
#[export] Instance Cursor_eq_dec : EqDecision Cursor.
Proof. solve_decision. Defined.

Definition cursor_from (r : Record_) : Cursor := mkCursor (event_time r) (sort_key r).
Definition range_contains (range : TimeRange) (timestamp : Z) : bool :=
  (range_start range <=? timestamp) && (timestamp <? range_end range).

(** The clustering key [(event_time, sort_key)], compared as a Rust tuple. *)
Definition clustering (r : Record_) : Z * list byte := (event_time r, sort_key r).
Definition cursor_key (c : Cursor) : Z * list byte := (c_event_time c, c_sort_key c).

(** ** Canonical bucket keys *)
Lemma decimal_zeros n s : decimal_value (zeros n +:+ s) = decimal_value s.
Proof. unfold decimal_value. induction n as [|n IH]; simpl; [done|]. exact IH. Qed.
Lemma decimal_zero_pad w s : decimal_value (zero_pad w s) = decimal_value s.
Proof. apply decimal_zeros. Qed.
Lemma zero_pad_not_dash w (n : N) s : zero_pad w (pretty n) ≠ "-" +:+ s.
Proof.
  unfold zero_pad. destruct (w - _)%nat; simpl; [|done].
  unfold pretty, pretty_N. case_decide; [done|]. by apply pretty_N_go_ne_dash.
Qed.
Lemma fmt_width_inj w z1 z2 : fmt_width w z1 = fmt_width w z2 → z1 = z2.
Proof.
  unfold fmt_width. destruct (z1 <? 0) eqn:E1, (z2 <? 0) eqn:E2; zbool; intros E.
  - apply (inj (String.append "-")), (f_equal decimal_value) in E.
    rewrite !decimal_zero_pad, !decimal_value_pretty in E. lia.
  - symmetry in E. by apply zero_pad_not_dash in E.
  - by apply zero_pad_not_dash in E.
  - apply (f_equal decimal_value) in E.
    rewrite !decimal_zero_pad, !decimal_value_pretty in E. lia.
Qed.
Lemma fmt_width_2_length z : 1 <= z <= 31 → String.length (fmt_width 2 z) = 2%nat.
Proof.
  intros Hz. assert (Forall (λ z, String.length (fmt_width 2 z) = 2%nat) (seqZ 1 31)) as Hall
    by (by vm_compute; repeat constructor).
  rewrite Forall_forall in Hall. apply Hall. apply elem_of_seqZ. lia.
Qed.

(** The date a strategy keeps of a date. *)
Definition truncate_date (s : BucketStrategy) (d : Z * (Z * Z)) : Z * (Z * Z) :=
  match s with
  | CalendarYearUtc => (d.1, (1, 1))
  | CalendarMonthUtc => (d.1, (d.2.1, 1))
  | CalendarDayUtc => d
  end.

Section bucket_lemmas.
Context `{ChronoLaws}.
Implicit Types (t u : Z) (s : BucketStrategy).

Lemma bucket_key_Value s t : bucket_key s t = Value (bucket_key_text s t).
Proof. unfold bucket_key, BucketKey_new. by destruct s. Qed.

Lemma midnight_le_iff a u :
  in_range a → in_range u → midnight a → a <= u ↔ ord_le (ymd a) (ymd u).
Proof. intros. split; [by apply ymd_mono|by apply ymd_le_midnight]. Qed.
Lemma midnight_lt_iff u b :
  in_range u → in_range b → midnight b → u < b ↔ ord_lt (ymd u) (ymd b).
Proof.
  intros Hu Hb Hm. rewrite <- not_leb.
  pose proof (midnight_le_iff b u Hb Hu Hm) as Hiff. unfold ord_le in Hiff.
  destruct (leb (ymd b) (ymd u)); split; try done; intros; intuition lia.
Qed.

(** What [bucket_bounds] returns, when it returns. *)
Lemma bucket_bounds_inv s t a b :
  in_range t → bucket_bounds s t = Value (a, b) →
  (in_range a ∧ midnight a ∧ ymd a = truncate_date s (ymd t)) ∧
  (in_range b ∧ midnight b ∧ truncate_date s (ymd b) = ymd b) ∧
  (∀ u, in_range u → a <= u < b ↔ truncate_date s (ymd u) = truncate_date s (ymd t)).
Proof.
  intros Ht E. unfold bucket_bounds, utc_date in E.
  assert (∃ y m d, with_ymd y m d = Some a ∧ (y, (m, d)) = truncate_date s (ymd t) ∧
    match s with
    | CalendarYearUtc => checked_add_months a 12
    | CalendarMonthUtc => checked_add_months a 1
    | CalendarDayUtc => checked_add_days a 1
    end = Some b) as (y & m & d & Ha & Ed & Hb).
  { destruct s; simpl in E; destruct (with_ymd _ _ _) eqn:Ha; simplify_eq/=;
      destruct (expect _) eqn:Hb; simplify_eq/=; unfold expect in Hb; case_match;
      simplify_eq; by eauto 10. }
  clear E. apply with_ymd_spec in Ha as (Ra & Ma & Ya).
  pose proof (month_bounds t Ht) as Bm. pose proof (day_bounds t Ht) as Bd.
  split; [split_and!; congruence|]. destruct s; simpl in Ed.
  - simplify_eq Ed. intros -> -> ->. unfold ymd in Ya. injection Ya as Ya1 Ya2 Ya3.
    rewrite checked_add_months_first in Hb by (done || lia). rewrite Ya1, Ya2 in Hb.
    change ((1 - 1 + 12) / 12) with 1 in Hb. change ((1 - 1 + 12) mod 12 + 1) with 1 in Hb.
    apply with_ymd_spec in Hb as (Rb & Mb & Yb). split; [rewrite Yb; done|].
    intros u Hu. rewrite (midnight_le_iff a u), (midnight_lt_iff u b) by done.
    rewrite lex_le_spec, lex_lt_spec, Yb. unfold ymd. rewrite Ya1, Ya2, Ya3. simpl.
    pose proof (month_bounds u Hu). pose proof (day_bounds u Hu).
    split; [|intros [= ->]; lia]. intros. f_equal. lia.
  - simplify_eq Ed. intros -> -> ->. unfold ymd in Ya. injection Ya as Ya1 Ya2 Ya3.
    rewrite checked_add_months_first in Hb by (done || lia). rewrite Ya1, Ya2 in Hb.
    replace (month t - 1 + 1) with (month t) in Hb by lia.
    apply with_ymd_spec in Hb as (Rb & Mb & Yb). split; [rewrite Yb; done|].
    intros u Hu. rewrite (midnight_le_iff a u), (midnight_lt_iff u b) by done.
    rewrite lex_le_spec, lex_lt_spec, Yb. unfold ymd. rewrite Ya1, Ya2, Ya3. simpl.
    pose proof (month_bounds u Hu). pose proof (day_bounds u Hu).
    split; [|intros [= -> ->]; zlia].
    intros. assert (year u = year t ∧ month u = month t) as [-> ->] by zlia. done.
  - rewrite checked_add_days_spec in Hb by (done || lia). case_bool_decide as Rb; simplify_eq Hb.
    intros <-. split; [split_and!; [done| |done]|].
    { unfold midnight, NANOS_PER_DAY in *. zlia. }
    intros u Hu. simpl. rewrite <- Ed, <- Ya, ymd_same_day by done.
    unfold midnight, NANOS_PER_DAY in *. zlia.
Qed.

(** The bounds and the key only depend on the truncated date. *)
Lemma bucket_bounds_ext s t u :
  truncate_date s (ymd t) = truncate_date s (ymd u) → bucket_bounds s t = bucket_bounds s u.
Proof. unfold bucket_bounds, ymd. destruct s; simpl; congruence. Qed.
Lemma bucket_key_text_ext s t u :
  truncate_date s (ymd t) = truncate_date s (ymd u) → bucket_key_text s t = bucket_key_text s u.
Proof. unfold bucket_key_text, ymd. destruct s; simpl; congruence. Qed.

Lemma bucket_key_text_inj s1 s2 t1 t2 :
  in_range t1 → in_range t2 → bucket_key_text s1 t1 = bucket_key_text s2 t2 →
  s1 = s2 ∧ truncate_date s1 (ymd t1) = truncate_date s2 (ymd t2).
Proof.
  intros H1 H2 E.
  pose proof (month_bounds t1 H1). pose proof (month_bounds t2 H2).
  pose proof (day_bounds t1 H1). pose proof (day_bounds t2 H2).
  assert (s1 = s2) as <- by (destruct s1, s2; try done; simplify_eq/=).
  split; [done|]. unfold ymd. destruct s1; simpl in E |- *; simplify_eq.
  - by rewrite (fmt_width_inj 4 _ _ E).
  - rewrite !string_app_assoc in E.
    apply string_app_inv_r in E as [E Em]; [|by rewrite !fmt_width_2_length by lia].
    apply string_app_inv_r in E as [Ey _]; [|done].
    by rewrite (fmt_width_inj 4 _ _ Ey), (fmt_width_inj 2 _ _ Em).
  - rewrite !string_app_assoc in E.
    apply string_app_inv_r in E as [E Ed]; [|by rewrite !fmt_width_2_length by lia].
    apply string_app_inv_r in E as [E _]; [|done].
    apply string_app_inv_r in E as [E Em]; [|by rewrite !fmt_width_2_length by lia].
    apply string_app_inv_r in E as [Ey _]; [|done].
    by rewrite (fmt_width_inj 4 _ _ Ey), (fmt_width_inj 2 _ _ Em), (fmt_width_inj 2 _ _ Ed).
Qed.

(** [for_event_time_with_strategy] returns exactly when the bounds are representable. *)
Lemma for_event_time_inv tid pk s t b :
  for_event_time_with_strategy tid pk s t = Value b ↔
  ∃ a e, bucket_bounds s t = Value (a, e) ∧ b = mkBucketId tid pk s (bucket_key_text s t) a e.
Proof.
  unfold for_event_time_with_strategy. rewrite bucket_key_Value. split.
  - destruct (bucket_bounds s t) as [[a e]| |]; simpl; intros; simplify_eq. eauto.
  - by intros (a & e & -> & ->).
Qed.

Lemma for_event_time_not_fuel tid pk s t : for_event_time_with_strategy tid pk s t ≠ OutOfFuel.
Proof.
  unfold for_event_time_with_strategy, bucket_bounds, utc_date. rewrite bucket_key_Value.
  destruct s; simpl; destruct (with_ymd _ _ _); simpl; try done; by destruct (_ : option Z).
Qed.

(** A canonical bucket: one that some representable event time has. *)
Definition canonical (b : BucketId) : Prop :=
  ∃ t, in_range t ∧
    for_event_time_with_strategy (table_id b) (partition_key b) (strategy b) t = Value b.

Lemma for_event_time_fields tid pk s t b :
  for_event_time_with_strategy tid pk s t = Value b →
  table_id b = tid ∧ partition_key b = pk ∧ strategy b = s ∧ key b = bucket_key_text s t.
Proof. intros (a & e & _ & ->)%for_event_time_inv. done. Qed.
Lemma for_event_time_canonical tid pk s t b :
  in_range t → for_event_time_with_strategy tid pk s t = Value b → canonical b.
Proof.
  intros Ht E. exists t. split; [done|].
  destruct (for_event_time_fields _ _ _ _ _ E) as (-> & -> & -> & _). done.
Qed.

Lemma bucket_contains_spec b t : bucket_contains b t = true ↔ start b <= t < end_ b.
Proof. unfold bucket_contains. rewrite andb_true_iff, Z.leb_le, Z.ltb_lt. done. Qed.
Lemma range_contains_spec r t : range_contains r t = true ↔ range_start r <= t < range_end r.
Proof. unfold range_contains. rewrite andb_true_iff, Z.leb_le, Z.ltb_lt. done. Qed.

Lemma canonical_bounds b : canonical b →
  in_range (start b) ∧ in_range (end_ b) ∧ midnight (start b) ∧ midnight (end_ b) ∧
  start b < end_ b.
Proof.
  intros (t & Ht & (a & e & Eb & ->)%for_event_time_inv).
  destruct (bucket_bounds_inv _ _ _ _ Ht Eb) as ((Ra & Ma & _) & (Re & Me & _) & Hiff).
  simpl. split_and!; try done. destruct (Hiff t Ht) as [_ [? ?]]; [done|lia].
Qed.

Lemma bucket_of_member b t : canonical b → in_range t →
  bucket_contains b t = true ↔
  for_event_time_with_strategy (table_id b) (partition_key b) (strategy b) t = Value b.
Proof.
  intros (t0 & Ht0 & E0) Ht. rewrite bucket_contains_spec.
  destruct (proj1 (for_event_time_inv _ _ _ _ _) E0) as (a & e & Eb & Hb).
  destruct (bucket_bounds_inv _ _ _ _ Ht0 Eb) as (_ & _ & Hiff).
  assert (start b = a ∧ end_ b = e) as [-> ->] by (rewrite Hb; done).
  rewrite (Hiff t Ht). split.
  - intros Etr. rewrite <- E0. unfold for_event_time_with_strategy.
    by rewrite (bucket_bounds_ext _ _ _ Etr), !bucket_key_Value, (bucket_key_text_ext _ _ _ Etr).
  - intros E1. destruct (for_event_time_fields _ _ _ _ _ E1) as (_ & _ & _ & Ek1).
    destruct (for_event_time_fields _ _ _ _ _ E0) as (_ & _ & _ & Ek0).
    rewrite Ek1 in Ek0. by apply bucket_key_text_inj in Ek0 as [_ ?].
Qed.

(** A canonical bucket is determined by its primary key. *)
Lemma canonical_key_inj b1 b2 : canonical b1 → canonical b2 →
  table_id b1 = table_id b2 → partition_key b1 = partition_key b2 → key b1 = key b2 → b1 = b2.
Proof.
  intros (t1 & H1 & E1) (t2 & H2 & E2) Et Ep Ek.
  destruct (for_event_time_fields _ _ _ _ _ E1) as (_ & _ & _ & K1).
  destruct (for_event_time_fields _ _ _ _ _ E2) as (_ & _ & _ & K2).
  rewrite K1, K2 in Ek. apply bucket_key_text_inj in Ek as [Es Etr]; [|done..].
  assert (Value b1 = Value b2) as Ev; [|congruence].
  rewrite <- E1, <- E2, Et, Ep, Es. unfold for_event_time_with_strategy.
  rewrite Es in Etr. by rewrite (bucket_bounds_ext _ _ _ Etr), !bucket_key_Value,
    (bucket_key_text_ext _ _ _ Etr).
Qed.

(** The bucket of a bucket's end starts there. *)
Lemma next_bucket_start b b' : canonical b →
  for_event_time_with_strategy (table_id b) (partition_key b) (strategy b) (end_ b) = Value b' →
  start b' = end_ b.
Proof.
  intros (t & Ht & (a & e & Eb & ->)%for_event_time_inv). simpl.
  destruct (bucket_bounds_inv _ _ _ _ Ht Eb) as (_ & (Re & Me & Te) & _).
  intros (a' & e' & Eb' & ->)%for_event_time_inv. simpl.
  destruct (bucket_bounds_inv _ _ _ _ Re Eb') as ((Ra' & Ma' & Ta') & _ & _).
  apply midnight_ymd_inj; congruence.
Qed.
(** The bucket of the nanosecond before a bucket ends where the bucket starts. *)
Lemma previous_bucket_end b b' : canonical b → in_range (start b - 1) →
  for_event_time_with_strategy (table_id b) (partition_key b) (strategy b) (start b - 1)
    = Value b' →
  end_ b' = start b.
Proof.
  intros Hb Hr E. pose proof (for_event_time_canonical _ _ _ _ _ Hr E) as Hb'.
  destruct (for_event_time_fields _ _ _ _ _ E) as (Et & Ep & Es & _).
  destruct (canonical_bounds b Hb) as (Rs & Re & _).
  destruct (canonical_bounds b' Hb') as (Rs' & Re' & _).
  assert (start b' <= start b - 1 < end_ b') as Hin.
  { apply bucket_contains_spec, bucket_of_member; [done..|]. by rewrite Et, Ep, Es. }
  destruct (Z.le_gt_cases (end_ b') (start b)) as [?|Hgt]; [lia|exfalso].
  assert (b' = b) as ->; [|lia].
  assert (Value b' = Value b) as Ev; [|congruence].
  rewrite <- (proj1 (bucket_of_member b' (start b) Hb' Rs)) by (apply bucket_contains_spec; lia).
  rewrite Et, Ep, Es. apply bucket_of_member; [done..|]. apply bucket_contains_spec.
  pose proof (canonical_bounds b Hb). lia.
Qed.
End bucket_lemmas.

Lemma strategy_round_trip s : strategy_from_str (strategy_as_str s) = Ok s.
Proof. by destruct s. Qed.
Lemma strategy_from_str_inv v s : strategy_from_str v = Ok s → v = strategy_as_str s.
Proof. unfold strategy_from_str. intros. by repeat case_decide; simplify_eq. Qed.

Section bucket_totality.
Context `{ChronoLaws}.
Implicit Types (t u : Z) (s : BucketStrategy).

Lemma year_bounds t : in_range t → year min_utc <= year t <= year max_utc.
Proof.
  intros Ht. pose proof min_le_max_utc. unfold in_range in *.
  assert (ord_le (ymd min_utc) (ymd t)) as Hlo by (apply ymd_mono; unfold in_range; lia).
  assert (ord_le (ymd t) (ymd max_utc)) as Hhi by (apply ymd_mono; unfold in_range; lia).
  rewrite lex_le_spec in Hlo, Hhi. simpl in *. lia.
Qed.

Lemma bucket_bounds_total s t : in_range t → year t < year max_utc →
  ∃ a b, bucket_bounds s t = Value (a, b).
Proof.
  intros Ht Hy. pose proof (year_bounds t Ht) as Hb. pose proof (month_bounds t Ht) as Hm.
  unfold bucket_bounds, utc_date. destruct s; simpl.
  - destruct (with_ymd_first (year t) 1) as [a Ha]; [lia..|]. rewrite Ha. simpl.
    apply with_ymd_spec in Ha as (Ra & Ma & [= E1 E2 E3]).
    rewrite checked_add_months_first, E1, E2 by (done || lia).
    destruct (with_ymd_first (year t + (1 - 1 + 12) / 12) ((1 - 1 + 12) mod 12 + 1)) as [b ->];
      [zlia..|]. simpl. eauto.
  - destruct (with_ymd_first (year t) (month t)) as [a Ha]; [lia..|]. rewrite Ha. simpl.
    apply with_ymd_spec in Ha as (Ra & Ma & [= E1 E2 E3]).
    rewrite checked_add_months_first, E1, E2 by (done || lia).
    destruct (with_ymd_first (year t + (month t - 1 + 1) / 12) ((month t - 1 + 1) mod 12 + 1))
      as [b ->]; [zlia..|]. simpl. eauto.
  - rewrite with_ymd_own_date by done. simpl.
    rewrite checked_add_days_spec by (lia || by apply floor_day_in_range).
    rewrite bool_decide_eq_true_2; [simpl; eauto|].
    destruct (with_ymd_first (year t + 1) 1) as [n Hn]; [lia..|].
    apply with_ymd_spec in Hn as (Rn & Mn & En).
    assert (t < n) as Hlt.
    { apply midnight_lt_iff; [done..|]. rewrite En, lex_lt_spec. simpl. lia. }
    pose proof (floor_day_in_range t Ht) as Rf. unfold in_range, midnight, NANOS_PER_DAY in *. zlia.
Qed.

Lemma bucket_bounds_last_year t : in_range t → year t = year max_utc →
  bucket_bounds CalendarYearUtc t = Panicked.
Proof.
  intros Ht Hy. pose proof (year_bounds t Ht) as Hb. unfold bucket_bounds, utc_date.
  destruct (with_ymd_first (year t) 1) as [a Ha]; [lia..|]. rewrite Ha. simpl.
  apply with_ymd_spec in Ha as (Ra & Ma & [= E1 E2 E3]).
  rewrite checked_add_months_first, E1, E2 by (done || lia).
  change ((1 - 1 + 12) / 12) with 1. destruct (with_ymd _ _ _) as [e|] eqn:He; [|done].
  exfalso. apply with_ymd_spec in He as (Re & _ & [= E1' _ _]).
  pose proof (year_bounds e Re). lia.
Qed.
End bucket_totality.

(** ** What makes the bucketing correct *)
Section bucket_theorems.
Context `{ChronoLaws}.

(** C29. The buckets of a strategy partition time: the bucket derived from an event
    time contains it, and it contains exactly the event times that derive the same
    bucket (same key and same bounds). *)
Theorem buckets_partition_time tid pk s t b :
  in_range t → for_event_time_with_strategy tid pk s t = Value b →
  bucket_contains b t = true ∧
  ∀ u, in_range u →
    bucket_contains b u = true ↔ for_event_time_with_strategy tid pk s u = Value b.
Proof.
  intros Ht E. pose proof (for_event_time_canonical _ _ _ _ _ Ht E) as Hc.
  destruct (for_event_time_fields _ _ _ _ _ E) as (Et & Ep & Es & _).
  split; [|intros u Hu]; rewrite bucket_of_member, Et, Ep, Es; done.
Qed.

(** Consecutive buckets tile time without gap or overlap: the bucket of a bucket's
    exclusive end starts exactly there, and the bucket of the nanosecond before a
    bucket's start ends exactly there. *)
Theorem buckets_tile_time tid pk s t b :
  in_range t → for_event_time_with_strategy tid pk s t = Value b →
  (∀ b', for_event_time_with_strategy tid pk s (end_ b) = Value b' → start b' = end_ b) ∧
  (∀ b', in_range (start b - 1) →
     for_event_time_with_strategy tid pk s (start b - 1) = Value b' → end_ b' = start b).
Proof.
  intros Ht E. pose proof (for_event_time_canonical _ _ _ _ _ Ht E) as Hc.
  destruct (for_event_time_fields _ _ _ _ _ E) as (Et & Ep & Es & _).
  split; intros b'; rewrite <- Et, <- Ep, <- Es; [by apply next_bucket_start|].
  by apply previous_bucket_end.
Qed.

(** The canonical key identifies the bucket: two event times of one partition whose
    buckets have the same key, under whatever strategies, have the same strategy and
    the same bounds.  (The database's primary key holds the key, not the bounds.) *)
Theorem bucket_key_identifies_bucket tid pk s1 s2 t1 t2 b1 b2 :
  in_range t1 → in_range t2 →
  for_event_time_with_strategy tid pk s1 t1 = Value b1 →
  for_event_time_with_strategy tid pk s2 t2 = Value b2 →
  key b1 = key b2 → b1 = b2.
Proof.
  intros H1 H2 E1 E2 Ek. pose proof (for_event_time_fields _ _ _ _ _ E1) as (? & ? & _).
  pose proof (for_event_time_fields _ _ _ _ _ E2) as (? & ? & _).
  apply canonical_key_inj; try congruence; eauto using for_event_time_canonical.
Qed.

(** Deriving a bucket returns for every event time before the last representable
    year, and the yearly strategy panics throughout that last year, whose exclusive
    end is not representable. *)
Theorem bucket_derivation_returns tid pk s t :
  in_range t →
  (year t < year max_utc → ∃ b, for_event_time_with_strategy tid pk s t = Value b) ∧
  (year t = year max_utc → for_event_time_with_strategy tid pk CalendarYearUtc t = Panicked).
Proof.
  intros Ht. split; intros Hy.
  - destruct (bucket_bounds_total s t Ht Hy) as (a & e & E). eexists.
    apply for_event_time_inv. eauto.
  - unfold for_event_time_with_strategy. by rewrite bucket_bounds_last_year.
Qed.
End bucket_theorems.
