(* ===== verification/Schema.v ===== *)
(** * Table definitions and bucket routing ([src/src/domain/schema.rs])

    [TableDefinition] with its validation, the buckets that intersect a time range
    and the write window of recent buckets.  The range loop is given fuel from the
    length of the range (one bucket per day at most); the theorems show that this
    is enough, that the loop returns exactly the buckets intersecting the range and
    that the write window is the run of consecutive buckets ending at the clock. *)
From S2P Require Import Prelude Chrono Model.

Local Open Scope Z_scope.

Inductive SortDirection := Ascending | Descending.
#[export] Instance SortDirection_eq_dec : EqDecision SortDirection.
Proof. solve_decision. Defined.

Record ClusteringColumn := mkColumn { field : string; direction : SortDirection }.
#[export] Instance ClusteringColumn_eq_dec : EqDecision ClusteringColumn.
Proof. solve_decision. Defined.

Inductive DefinitionError :=
  | EmptyName
  | EmptyTableId
  | UnsupportedBucketTimeKey (bucket_time_key : string)
  | UnsupportedClusteringKey
  | InvalidWriteWindow.
#[export] Instance DefinitionError_eq_dec : EqDecision DefinitionError.
Proof. solve_decision. Defined.

Definition TableId_new (value : string) : Result DefinitionError string :=
  if is_blank value then Err EmptyTableId else Ok value.

(** [writable_buckets] is a [u8]. *)
Record TableDefinition := mkDefinition {
  name : string;
  def_table_id : string;
  def_partition_key : string;
  bucket_time_key : string;
  bucket_strategy : BucketStrategy;
  clustering_key : list ClusteringColumn;
  writable_buckets : Z;
}.

Definition required_clustering : list ClusteringColumn :=
  [mkColumn "event_time" Ascending; mkColumn "sort_key" Ascending].

Definition validate (d : TableDefinition) : Result DefinitionError unit :=
  if is_blank (name d) then Err EmptyName
  else if is_blank (def_table_id d) then Err EmptyTableId
  else if negb (bool_decide (bucket_time_key d = "event_time"))
    then Err (UnsupportedBucketTimeKey (bucket_time_key d))
  else if writable_buckets d =? 0 then Err InvalidWriteWindow
  else if negb (bool_decide (clustering_key d = required_clustering))
    then Err UnsupportedClusteringKey
  else Ok tt.

Definition new_with_bucket_strategy (name tid partition_key bucket_time_key : string)
    (s : BucketStrategy) (clustering : list ClusteringColumn) (writable : Z)
    : Result DefinitionError TableDefinition :=
  let definition := mkDefinition name tid partition_key bucket_time_key s clustering writable in
  _ ← validate definition;
  Ok definition.

Definition definition_new (name tid partition_key bucket_time_key : string)
    (clustering : list ClusteringColumn) (writable : Z) : Result DefinitionError TableDefinition :=
  new_with_bucket_strategy name tid partition_key bucket_time_key strategy_default clustering
    writable.

(** [.expect("built-in chat definition is valid")]. *)
Definition chat_messages (name tid : string) : Outcome TableDefinition :=
  match definition_new name tid "channel_id" "event_time" required_clustering 2 with
  | Ok d => Value d
  | Err _ => Panicked
  end.

Section routing.
Context `{Chrono}.

Definition bucket_for_event_time (d : TableDefinition) (pk : list byte) (t : Z) : Outcome BucketId :=
  for_event_time_with_strategy (def_table_id d) pk (bucket_strategy d) t.

Definition bucket_for (d : TableDefinition) (r : Record_) : Outcome BucketId :=
  bucket_for_event_time d (r_partition_key r) (event_time r).

(** The body of the [while bucket.start < range.end] loop. *)
Fixpoint range_loop (fuel : nat) (d : TableDefinition) (pk : list byte) (range_end : Z)
    (bucket : BucketId) (buckets : list BucketId) : Outcome (list BucketId) :=
  match fuel with
  | O => OutOfFuel
  | S fuel =>
      if start bucket <? range_end then
        bucket' ← bucket_for_event_time d pk (end_ bucket);
        range_loop fuel d pk range_end bucket' (buckets ++ [bucket])
      else Value buckets
  end.

Definition range_fuel (range : TimeRange) : nat :=
  Z.to_nat ((range_end range - range_start range) / NANOS_PER_DAY + 3).

Definition buckets_for_range (d : TableDefinition) (pk : list byte) (range : TimeRange)
    : Outcome (list BucketId) :=
  if range_end range <=? range_start range then Value []
  else
    bucket ← bucket_for_event_time d pk (range_start range);
    range_loop (range_fuel range) d pk (range_end range) bucket [].

(** [for _ in 1..count]. *)
Fixpoint recent_loop (n : nat) (d : TableDefinition) (pk : list byte)
    (bucket : BucketId) (buckets : list BucketId) : Outcome (list BucketId) :=
  match n with
  | O => Value buckets
  | S n =>
      previous ← expect (checked_sub_signed (start bucket) 1);
      bucket' ← bucket_for_event_time d pk previous;
      recent_loop n d pk bucket' (buckets ++ [bucket'])
  end.

Definition recent_buckets (d : TableDefinition) (pk : list byte) (t : Z) (count : nat)
    : Outcome (list BucketId) :=
  match count with
  | O => Value []
  | S n =>
      bucket ← bucket_for_event_time d pk t;
      buckets ← recent_loop n d pk bucket [bucket];
      Value (reverse buckets)
  end.

Definition writable_buckets_at (d : TableDefinition) (pk : list byte) (t : Z)
    : Outcome (list BucketId) :=
  recent_buckets d pk t (Z.to_nat (writable_buckets d)).

(** A bucket of the table's partition [pk]. *)
Definition bucket_of (d : TableDefinition) (pk : list byte) (b : BucketId) : Prop :=
  canonical b ∧ table_id b = def_table_id d ∧ partition_key b = pk ∧ strategy b = bucket_strategy d.

(** Consecutive buckets from [lo] up to at least [hi]. *)
Inductive tiles (d : TableDefinition) (pk : list byte) : Z → Z → list BucketId → Prop :=
  | tiles_nil lo hi : hi <= lo → tiles d pk lo hi []
  | tiles_cons lo hi b l :
      bucket_of d pk b → start b = lo → lo < hi → tiles d pk (end_ b) hi l →
      tiles d pk lo hi (b :: l).
End routing.

(** ** Validation *)
Lemma validate_ok_iff d :
  validate d = Ok tt ↔
  is_blank (name d) = false ∧ is_blank (def_table_id d) = false ∧
  bucket_time_key d = "event_time" ∧ writable_buckets d ≠ 0 ∧
  clustering_key d = required_clustering.
Proof.
  unfold validate. repeat case_match; zbool; naive_solver lia.
Qed.

Section routing_lemmas.
Context `{ChronoLaws}.
Implicit Types (d : TableDefinition) (pk : list byte) (b : BucketId).

Lemma bucket_for_event_time_of d pk t b : in_range t →
  bucket_for_event_time d pk t = Value b → bucket_of d pk b.
Proof.
  unfold bucket_for_event_time. intros Ht E.
  pose proof (for_event_time_fields _ _ _ _ _ E). split; [|naive_solver].
  by eapply for_event_time_canonical.
Qed.
Lemma bucket_of_contains d pk b t : bucket_of d pk b → in_range t →
  bucket_contains b t = true ↔ bucket_for_event_time d pk t = Value b.
Proof.
  intros (Hc & Et & Ep & Es) Ht. rewrite bucket_of_member by done.
  unfold bucket_for_event_time. by rewrite Et, Ep, Es.
Qed.
Lemma bucket_of_unique d pk b1 b2 t : bucket_of d pk b1 → bucket_of d pk b2 → in_range t →
  bucket_contains b1 t = true → bucket_contains b2 t = true → b1 = b2.
Proof.
  intros ? ? ? E1 E2. eapply bucket_of_contains in E1, E2; [|done..]. congruence.
Qed.
Lemma bucket_of_next d pk b b' : bucket_of d pk b →
  bucket_for_event_time d pk (end_ b) = Value b' → bucket_of d pk b' ∧ start b' = end_ b.
Proof.
  intros Hb E. destruct (canonical_bounds b (proj1 Hb)) as (_ & Re & _).
  split; [by eapply bucket_for_event_time_of|]. destruct Hb as (Hc & Et & Ep & Es).
  eapply next_bucket_start; [done|]. rewrite Et, Ep, Es. exact E.
Qed.
Lemma bucket_of_previous d pk b b' : bucket_of d pk b → in_range (start b - 1) →
  bucket_for_event_time d pk (start b - 1) = Value b' → bucket_of d pk b' ∧ end_ b' = start b.
Proof.
  intros Hb Hr E. split; [by eapply bucket_for_event_time_of|].
  destruct Hb as (Hc & Et & Ep & Es).
  eapply previous_bucket_end; [done..|]. rewrite Et, Ep, Es. exact E.
Qed.
Lemma bucket_of_day d pk b : bucket_of d pk b → start b + NANOS_PER_DAY <= end_ b.
Proof.
  intros (Hc & _). destruct (canonical_bounds b Hc) as (_ & _ & Ms & Me & Hlt).
  unfold midnight, NANOS_PER_DAY in *. zlia.
Qed.

Lemma bucket_of_start_inj d pk b1 b2 : bucket_of d pk b1 → bucket_of d pk b2 →
  start b1 = start b2 → b1 = b2.
Proof.
  intros Hb1 Hb2 E. pose proof (bucket_of_day _ _ _ Hb1). pose proof (bucket_of_day _ _ _ Hb2).
  unfold NANOS_PER_DAY in *. apply (bucket_of_unique d pk _ _ (start b1)); [done..| | |].
  - by apply canonical_bounds, Hb1.
  - apply bucket_contains_spec. lia.
  - apply bucket_contains_spec. lia.
Qed.

Lemma range_loop_tiles fuel d pk hi b acc bs : bucket_of d pk b →
  range_loop fuel d pk hi b acc = Value bs → ∃ l, bs = acc ++ l ∧ tiles d pk (start b) hi l.
Proof.
  revert b acc. induction fuel as [|fuel IH]; intros b acc Hb E; simpl in E; [done|].
  destruct (start b <? hi) eqn:Hlt; zbool; simplify_eq/=.
  - destruct (bucket_for_event_time d pk (end_ b)) as [b'| |] eqn:E'; simplify_eq/=.
    destruct (bucket_of_next _ _ _ _ Hb E') as [Hb' Hs].
    destruct (IH _ _ Hb' E) as (l & -> & Hl). exists (b :: l). split; [by rewrite <- app_assoc|].
    constructor; [done..|]. by rewrite <- Hs.
  - exists []. split; [by rewrite app_nil_r|]. by constructor.
Qed.

Lemma range_loop_fuel fuel d pk hi b acc : bucket_of d pk b →
  hi <= start b + Z.of_nat fuel * NANOS_PER_DAY →
  range_loop (S fuel) d pk hi b acc ≠ OutOfFuel.
Proof.
  revert b acc. induction fuel as [|fuel IH]; intros b acc Hb Hf; simpl.
  - destruct (start b <? hi) eqn:Hlt; zbool; [lia|done].
  - destruct (start b <? hi) eqn:Hlt; [|done].
    destruct (bucket_for_event_time d pk (end_ b)) as [b'| |] eqn:E'; simpl; [|done|].
    + destruct (bucket_of_next _ _ _ _ Hb E') as [Hb' Hs]. apply IH; [done|].
      pose proof (bucket_of_day _ _ _ Hb). unfold NANOS_PER_DAY in *. lia.
    + by apply for_event_time_not_fuel in E'.
Qed.

Lemma tiles_start_bounds d pk lo hi l b : tiles d pk lo hi l → b ∈ l → lo <= start b < hi.
Proof.
  induction 1 as [|lo hi b' l Hb' <- Hlt Hl IH]; [by intros ?%elem_of_nil|].
  intros [->|Hin]%elem_of_cons; [lia|]. specialize (IH Hin).
  pose proof (bucket_of_day _ _ _ Hb'). unfold NANOS_PER_DAY in *. lia.
Qed.
Lemma tiles_bucket_of d pk lo hi l : tiles d pk lo hi l → Forall (bucket_of d pk) l.
Proof. induction 1; by constructor. Qed.
Lemma tiles_cover d pk lo hi l t : tiles d pk lo hi l → lo <= t < hi →
  ∃ b, b ∈ l ∧ bucket_contains b t = true.
Proof.
  induction 1 as [|lo hi b l Hb <- Hlt Hl IH]; intros Ht; [lia|].
  destruct (Z.lt_ge_cases t (end_ b)).
  - exists b. split; [by left|]. apply bucket_contains_spec. lia.
  - destruct IH as (b' & ? & ?); [lia|]. exists b'. split; [by right|done].
Qed.
Lemma tiles_sorted d pk lo hi l : tiles d pk lo hi l →
  StronglySorted (λ b b', end_ b <= start b') l.
Proof.
  induction 1 as [|lo hi b l Hb <- Hlt Hl IH]; constructor; [done|].
  apply Forall_forall. intros b' Hin. apply (tiles_start_bounds _ _ _ _ _ _ Hl) in Hin. lia.
Qed.

Lemma buckets_for_range_tiles d pk range bs : in_range (range_start range) →
  range_start range < range_end range → buckets_for_range d pk range = Value bs →
  ∃ b, bucket_for_event_time d pk (range_start range) = Value b ∧
    tiles d pk (start b) (range_end range) bs.
Proof.
  intros Hr Hlt E. unfold buckets_for_range in E.
  destruct (_ <=? _) eqn:Hle; zbool; [lia|].
  destruct (bucket_for_event_time d pk (range_start range)) as [b| |] eqn:Eb; simplify_eq/=.
  exists b. split; [done|].
  eapply range_loop_tiles in E as (l & -> & Hl); [done|by eapply bucket_for_event_time_of].
Qed.

(** The bucket of any instant of the range is among the buckets of the range. *)
Lemma buckets_for_range_covers d pk range bs b t : in_range (range_start range) →
  buckets_for_range d pk range = Value bs → bucket_of d pk b → bucket_contains b t = true →
  range_start range <= t < range_end range → b ∈ bs.
Proof.
  intros Hr E Hb Hc Ht. destruct (buckets_for_range_tiles _ _ _ _ Hr ltac:(lia) E) as (b0 & E0 & Htl).
  pose proof (bucket_for_event_time_of _ _ _ _ Hr E0) as Hb0.
  assert (start b0 <= range_start range < end_ b0)
    by (apply bucket_contains_spec; by eapply bucket_of_contains).
  destruct (tiles_cover _ _ _ _ _ t Htl) as (b' & Hb' & Hc'); [lia|].
  pose proof (tiles_bucket_of _ _ _ _ _ Htl) as Hall. rewrite Forall_forall in Hall.
  assert (in_range t).
  { destruct (canonical_bounds b (proj1 Hb)) as (Rs & Re & _). apply bucket_contains_spec in Hc. unfold in_range in *. lia. }
  by rewrite (bucket_of_unique d pk b b' t Hb (Hall b' Hb')).
Qed.
Lemma buckets_for_range_fuel d pk range : in_range (range_start range) →
  buckets_for_range d pk range ≠ OutOfFuel.
Proof.
  intros Hr. unfold buckets_for_range. destruct (_ <=? _) eqn:Hle; zbool; [done|].
  destruct (bucket_for_event_time d pk (range_start range)) as [b| |] eqn:Eb;
    simpl; [|done|by apply for_event_time_not_fuel in Eb].
  pose proof (bucket_for_event_time_of _ _ _ _ Hr Eb) as Hb.
  assert (bucket_contains b (range_start range) = true) as Hin%bucket_contains_spec
    by by eapply bucket_of_contains.
  set (q := (range_end range - range_start range) / NANOS_PER_DAY).
  assert (range_fuel range = S (S (Z.to_nat (q + 1)))) as ->.
  { unfold range_fuel. fold q. assert (0 <= q) by (unfold q, NANOS_PER_DAY; zlia). lia. }
  cbn [range_loop]. destruct (start b <? range_end range); [|done].
  destruct (bucket_for_event_time d pk (end_ b)) as [b'| |] eqn:E'; simpl;
    [|done|by apply for_event_time_not_fuel in E'].
  destruct (bucket_of_next _ _ _ _ Hb E') as [Hb' Hs].
  apply (range_loop_fuel (Z.to_nat (q + 1)) d pk (range_end range) b' [b]); [done|].
  unfold q, NANOS_PER_DAY in *. zlia.
Qed.

(** One step back or forward moves at most one year. *)
Lemma year_before t : in_range t → midnight t → year min_utc < year t →
  in_range (t - 1) ∧ year t - 1 <= year (t - 1) <= year t.
Proof.
  intros Ht Hm Hy. pose proof (year_bounds t Ht). pose proof min_le_max_utc.
  destruct (with_ymd_first (year t - 1) 1) as [z Hz]; [lia..|].
  apply with_ymd_spec in Hz as (Rz & Mz & Yz).
  assert (z < t) by (apply midnight_lt_iff; [done..|]; rewrite Yz, lex_lt_spec; simpl; lia).
  assert (in_range (t - 1)) as Hr by (unfold in_range in *; lia). split; [done|].
  assert (ord_le (ymd z) (ymd (t - 1))) as Hlo by (apply ymd_mono; [done..|lia]).
  assert (ord_le (ymd (t - 1)) (ymd t)) as Hhi by (apply ymd_mono; [done..|lia]).
  rewrite lex_le_spec, Yz in Hlo. rewrite lex_le_spec in Hhi. simpl in *. lia.
Qed.

Lemma recent_loop_spec n d pk b acc bs : bucket_of d pk b → last acc = Some b →
  Forall (bucket_of d pk) acc →
  (∀ i x y, acc !! i = Some x → acc !! S i = Some y → end_ y = start x) →
  recent_loop n d pk b acc = Value bs →
  length bs = (length acc + n)%nat ∧ Forall (bucket_of d pk) bs ∧ head bs = head acc ∧
  (∀ i x y, bs !! i = Some x → bs !! S i = Some y → end_ y = start x).
Proof.
  revert b acc. induction n as [|n IH]; intros b acc Hb Hlast Hall Hch E; simpl in E.
  { simplify_eq. split_and!; [lia|done..]. }
  destruct (canonical_bounds b (proj1 Hb)) as (Rs & _).
  rewrite checked_sub_signed_spec in E by done. case_bool_decide as Hr; simplify_eq/=.
  destruct (bucket_for_event_time d pk (start b - 1)) as [b'| |] eqn:E'; simplify_eq/=.
  destruct (bucket_of_previous _ _ _ _ Hb Hr E') as [Hb' He].
  destruct (IH b' (acc ++ [b'])) as (Hlen & Hbs & Hhd & Hc); auto.
  - by rewrite last_snoc.
  - rewrite Forall_app. auto.
  - intros i x y Hx Hy. rewrite last_lookup in Hlast.
    destruct (decide (S i < length acc)%nat).
    + rewrite lookup_app_l in Hx, Hy by lia. eauto.
    + assert (S i = length acc) as Hi.
      { apply lookup_lt_Some in Hy. rewrite length_app in Hy. simpl in Hy. lia. }
      rewrite lookup_app_l in Hx by lia. rewrite lookup_app_r in Hy by lia.
      rewrite Hi, Nat.sub_diag in Hy. rewrite <- Hi in Hlast. simpl in *. congruence.
  - rewrite length_app in Hlen. simpl in Hlen. split_and!; [lia|done| |done].
    rewrite Hhd. destruct acc; [done|]. done.
Qed.

Lemma recent_loop_returns n d pk b acc : bucket_of d pk b →
  year min_utc + Z.of_nat n <= year (start b) → year (start b) < year max_utc →
  ∃ bs, recent_loop n d pk b acc = Value bs.
Proof.
  revert b acc. induction n as [|n IH]; intros b acc Hb Hlo Hhi; simpl; [eauto|].
  destruct (canonical_bounds b (proj1 Hb)) as (Rs & _ & Ms & _).
  destruct (year_before (start b)) as [Rp Hyp]; [done..|lia|].
  rewrite checked_sub_signed_spec by done. rewrite bool_decide_eq_true_2 by done. simpl.
  destruct (bucket_bounds_total (bucket_strategy d) (start b - 1)) as (a & e & E); [done|lia|].
  assert (∃ b', bucket_for_event_time d pk (start b - 1) = Value b') as [b' E'].
  { eexists. apply for_event_time_inv. eauto. }
  rewrite E'. simpl. destruct (bucket_of_previous _ _ _ _ Hb Rp E') as [Hb' He].
  assert (start b' <= start b - 1 < end_ b') as Hin
    by (apply bucket_contains_spec; by eapply bucket_of_contains).
  apply IH; [done|..].
  - apply for_event_time_inv in E' as (a' & e' & Eb & ->). simpl in *.
    destruct (bucket_bounds_inv _ _ _ _ Rp Eb) as ((_ & _ & Ya) & _).
    assert (year a' = year (start b - 1)) as ->; [|lia].
    apply (f_equal fst) in Ya. by destruct (bucket_strategy d).
  - destruct (canonical_bounds b' (proj1 Hb')) as (Rs' & _).
    assert (ord_le (ymd (start b')) (ymd (start b - 1))) as Hle by (apply ymd_mono; [done..|lia]).
    rewrite lex_le_spec in Hle. simpl in Hle. lia.
Qed.

Lemma bucket_year_end d pk b : bucket_of d pk b → year (start b) < year max_utc →
  year (end_ b) <= year (start b) + 1.
Proof.
  intros ((t & Ht & E) & _). apply for_event_time_inv in E as (a & e & Eb & Eq).
  assert (start b = a ∧ end_ b = e) as [-> ->] by (rewrite Eq; done). intros Hy.
  destruct (bucket_bounds_inv _ _ _ _ Ht Eb) as ((Ra & Ma & Ya) & (Re & Me & _) & Hiff).
  pose proof (year_bounds a Ra).
  destruct (with_ymd_first (year a + 1) 1) as [z Hz]; [lia..|].
  apply with_ymd_spec in Hz as (Rz & Mz & Yz).
  assert (a < z) by (apply midnight_lt_iff; [done..|]; rewrite Yz, lex_lt_spec; simpl; lia).
  assert (¬ (a <= z < e)) as Hout.
  { rewrite Hiff by done. rewrite Yz. intros Etr. apply (f_equal fst) in Ya, Etr.
    destruct (strategy b); simpl in *; lia. }
  assert (ord_le (ymd e) (ymd z)) as Hle by (apply ymd_mono; [done..|lia]).
  rewrite lex_le_spec, Yz in Hle. simpl in Hle. lia.
Qed.

Lemma range_loop_not_panicked fuel d pk hi b acc : bucket_of d pk b → in_range hi →
  year hi + 1 < year max_utc → range_loop fuel d pk hi b acc ≠ Panicked.
Proof.
  intros Hb Hhi Hy. revert b acc Hb. induction fuel as [|fuel IH]; intros b acc Hb; simpl; [done|].
  destruct (start b <? hi) eqn:Hlt; zbool; [|done].
  destruct (canonical_bounds b (proj1 Hb)) as (Rs & Re & _).
  assert (ord_le (ymd (start b)) (ymd hi)) as Hle by (apply ymd_mono; [done..|lia]).
  rewrite lex_le_spec in Hle. simpl in Hle.
  pose proof (bucket_year_end _ _ _ Hb) as Hye.
  destruct (bucket_bounds_total (bucket_strategy d) (end_ b)) as (a & e & E); [done|lia|].
  assert (∃ b', bucket_for_event_time d pk (end_ b) = Value b') as [b' E'].
  { eexists. apply for_event_time_inv. eauto. }
  rewrite E'. simpl. apply IH. by eapply bucket_of_next.
Qed.
(** The write window, from its construction. *)
Lemma writable_spec d pk t bs : in_range t → 0 < writable_buckets d →
  writable_buckets_at d pk t = Value bs →
  length bs = Z.to_nat (writable_buckets d) ∧ Forall (bucket_of d pk) bs ∧
  (∃ b, last bs = Some b ∧ bucket_contains b t = true) ∧
  (∀ i b b', bs !! i = Some b → bs !! S i = Some b' → end_ b = start b').
Proof.
  intros Ht Hw. unfold writable_buckets_at, recent_buckets.
  destruct (Z.to_nat (writable_buckets d)) as [|n] eqn:En; [lia|].
  intros E. destruct (bucket_for_event_time d pk t) as [b| |] eqn:Eb; simplify_eq/=.
  pose proof (bucket_for_event_time_of _ _ _ _ Ht Eb) as Hb.
  destruct (recent_loop n d pk b [b]) as [l| |] eqn:El; simplify_eq/=.
  eapply recent_loop_spec in El as (Hlen & Hall & Hhd & Hch); auto; [|by intros [|[]] ? ? [=]].
  simpl in Hlen. split_and!.
  - rewrite length_reverse. lia.
  - by rewrite Forall_reverse.
  - exists b. rewrite last_reverse. split; [done|]. by eapply bucket_of_contains.
  - intros i x y Hx Hy. pose proof (lookup_lt_Some _ _ _ Hx) as L1.
    pose proof (lookup_lt_Some _ _ _ Hy) as L2. rewrite length_reverse in L1, L2.
    rewrite reverse_lookup in Hx, Hy by done.
    apply (Hch (length l - S (S i))%nat y x); [done|].
    replace (S (length l - S (S i)))%nat with (length l - S i)%nat by lia. done.
Qed.

(** A consecutive run of buckets covers every instant between its ends. *)
Lemma chain_cover (bs : list BucketId) first final t :
  (∀ i b b', bs !! i = Some b → bs !! S i = Some b' → end_ b = start b') →
  head bs = Some first → last bs = Some final → start first <= t < end_ final →
  ∃ b, b ∈ bs ∧ start b <= t < end_ b.
Proof.
  revert first. induction bs as [|b bs IH]; intros first Hch Hf Hl Ht; [done|]. simplify_eq/=.
  destruct (decide (t < end_ first)) as [Hlt|Hge]; [exists first; split; [left|lia]|].
  destruct bs as [|b' bs]; [simpl in Hl; simplify_eq; lia|].
  destruct (IH b') as (b & Hb & Hin); [intros i; apply (Hch (S i))|done|done| |].
  - rewrite <- (Hch 0%nat first b') by done. lia.
  - exists b. split; [by right|done].
Qed.

(** A bucket starts between the oldest and the newest writable bucket exactly when it is
    one of them. *)
Lemma writable_between d pk t bs oldest newest b : in_range t → 0 < writable_buckets d →
  writable_buckets_at d pk t = Value bs → head bs = Some oldest → last bs = Some newest →
  bucket_of d pk b → (start oldest <= start b <= start newest ↔ b ∈ bs).
Proof.
  intros Ht Hw E Ho Hn Hb. destruct (writable_spec _ _ _ _ Ht Hw E) as (_ & Hall & _ & Hch).
  rewrite Forall_forall in Hall. assert (∀ b', b' ∈ bs → start b' < end_ b') as Hlt.
  { intros b' Hb'. pose proof (bucket_of_day _ _ _ (Hall _ Hb')). unfold NANOS_PER_DAY in *. lia. }
  split.
  - intros Hs. assert (newest ∈ bs) as Hnew by (by apply last_Some_elem_of).
    destruct (chain_cover bs oldest newest (start b)) as (b' & Hb' & Hin); try done.
    { specialize (Hlt _ Hnew). lia. }
    destruct (canonical_bounds b (proj1 Hb)) as (Rs & _ & _ & _ & Hse).
    assert (b = b') as ->; [|done].
    apply (bucket_of_unique d pk b b' (start b)); auto; apply bucket_contains_spec; lia.
  - intros Hin. apply list_elem_of_lookup in Hin as [i Hi].
    assert (∀ i j x y, bs !! i = Some x → bs !! (i + j)%nat = Some y → start x <= start y) as Hmono.
    { clear i Hi. intros i j. induction j as [|j IHj]; intros x y Hx Hy.
      - rewrite Nat.add_0_r in Hy. simplify_eq. lia.
      - rewrite Nat.add_succ_r in Hy. destruct (lookup_lt_is_Some_2 bs (i + j)) as [z Hz].
        { apply lookup_lt_Some in Hy. lia. }
        specialize (IHj x z Hx Hz). pose proof (Hch _ _ _ Hz Hy).
        pose proof (Hlt z (list_elem_of_lookup_2 _ _ _ Hz)). lia. }
    rewrite last_lookup in Hn. rewrite head_lookup in Ho.
    pose proof (lookup_lt_Some _ _ _ Hi) as Hlen. split.
    + by apply (Hmono 0%nat i oldest b Ho).
    + apply (Hmono i (length bs - 1 - i)%nat b newest Hi).
      replace (i + (length bs - 1 - i))%nat with (pred (length bs)) by lia. done.
Qed.
Lemma writable_returns d pk t : in_range t → 0 < writable_buckets d →
  year min_utc + writable_buckets d <= year t < year max_utc →
  ∃ bs, writable_buckets_at d pk t = Value bs.
Proof.
  intros Ht Hw.
  unfold writable_buckets_at, recent_buckets.
  destruct (Z.to_nat (writable_buckets d)) as [|n] eqn:En; [lia|].
  intros Hy. destruct (bucket_bounds_total (bucket_strategy d) t) as (a & e & Eb); [done|lia|].
  assert (∃ b, bucket_for_event_time d pk t = Value b) as [b E].
  { eexists. apply for_event_time_inv. eauto. }
    rewrite E. simpl. pose proof (bucket_for_event_time_of _ _ _ _ Ht E) as Hb.
    assert (year (start b) = year t) as Ey.
    { apply for_event_time_inv in E as (a' & e' & Eb' & ->). simpl.
      destruct (bucket_bounds_inv _ _ _ _ Ht Eb') as ((_ & _ & Ya) & _).
      apply (f_equal fst) in Ya. by destruct (bucket_strategy d). }
    destruct (recent_loop_returns n d pk b [b]) as [l ->]; [done|lia|lia|]. simpl. eauto.
Qed.
End routing_lemmas.

(** ** What makes routing correct *)
Section routing_theorems.
Context `{ChronoLaws}.

(** [buckets_for_range] returns exactly the buckets of the table's partition that
    intersect the half-open range, in chronological order and without overlap. *)
Theorem buckets_for_range_exact d pk range bs :
  in_range (range_start range) → range_start range < range_end range →
  buckets_for_range d pk range = Value bs →
  (∀ b, b ∈ bs ↔ bucket_of d pk b ∧ start b < range_end range ∧ range_start range < end_ b) ∧
  StronglySorted (λ b b', end_ b <= start b') bs.
Proof.
  intros Hr Hlt E. destruct (buckets_for_range_tiles _ _ _ _ Hr Hlt E) as (b0 & E0 & Ht).
  split; [|by eapply tiles_sorted]. intros b.
  pose proof (bucket_for_event_time_of _ _ _ _ Hr E0) as Hb0.
  assert (start b0 <= range_start range < end_ b0) as Hin
    by (apply bucket_contains_spec; by eapply bucket_of_contains). split.
  - intros Hb. pose proof (tiles_start_bounds _ _ _ _ _ _ Ht Hb).
    pose proof (tiles_bucket_of _ _ _ _ _ Ht) as Hall. rewrite Forall_forall in Hall.
    split_and!; [by apply Hall|lia|]. remember (start b0) as s0 eqn:Es0.
    destruct Ht as [|lo hi b' l Hb' Es Hlt' Hl]; [set_solver|]. subst lo.
    pose proof (bucket_of_start_inj _ _ _ _ Hb' Hb0 Es) as ->.
    apply elem_of_cons in Hb as [->|Hb]; [lia|].
    pose proof (tiles_start_bounds _ _ _ _ _ _ Hl Hb).
    pose proof (bucket_of_day d pk b). assert (bucket_of d pk b) by (apply Hall; by right).
    unfold NANOS_PER_DAY in *. intuition lia.
  - intros (Hb & Hs & He). destruct (canonical_bounds b (proj1 Hb)) as (Rs & _ & _ & _ & Hse).
    set (t := Z.max (start b) (range_start range)).
    assert (in_range t) as Rt by (unfold t, in_range in *; lia).
    destruct (tiles_cover _ _ _ _ _ t Ht) as (b' & Hb' & Hc); [unfold t; lia|].
    pose proof (tiles_bucket_of _ _ _ _ _ Ht) as Hall. rewrite Forall_forall in Hall.
    assert (b = b') as ->; [|done]. apply (bucket_of_unique d pk _ _ t); auto.
    apply bucket_contains_spec. unfold t. lia.
Qed.

(** The range loop terminates: with the fuel the model gives it (one bucket per day
    of the range) it never runs out, and it returns a list of buckets for every
    range that ends more than a year before the last representable year. *)
Theorem buckets_for_range_returns d pk range :
  in_range (range_start range) →
  buckets_for_range d pk range ≠ OutOfFuel ∧
  (in_range (range_end range) → year (range_end range) + 1 < year max_utc →
   ∃ bs, buckets_for_range d pk range = Value bs).
Proof.
  intros Hr. pose proof (buckets_for_range_fuel d pk range Hr) as Hf. split; [done|].
  intros Hre Hy. destruct (buckets_for_range d pk range) as [bs| |] eqn:E; [eauto| |done].
  exfalso. unfold buckets_for_range in E. destruct (_ <=? _) eqn:Hle; zbool; [done|].
  assert (ord_le (ymd (range_start range)) (ymd (range_end range))) as Hord
    by (apply ymd_mono; [done..|lia]).
  rewrite lex_le_spec in Hord. simpl in Hord.
  destruct (bucket_bounds_total (bucket_strategy d) (range_start range)) as (a & e & Eb);
    [done|lia|].
  assert (∃ b', bucket_for_event_time d pk (range_start range) = Value b') as [b' E'].
  { eexists. apply for_event_time_inv. eauto. }
  rewrite E' in E. simpl in E. eapply range_loop_not_panicked in E; eauto.
  apply (bucket_for_event_time_of _ _ _ _ Hr E').
Qed.

(** The write window: [writable_buckets_at] returns exactly [writable_buckets]
    buckets of the partition, oldest first, consecutive in time, the newest being
    the bucket of the given instant; and it does return whenever the window stays
    within the representable years. *)
Theorem writable_window d pk t :
  in_range t → 0 < writable_buckets d →
  (∀ bs, writable_buckets_at d pk t = Value bs →
     length bs = Z.to_nat (writable_buckets d) ∧ Forall (bucket_of d pk) bs ∧
     (∃ b, last bs = Some b ∧ bucket_contains b t = true) ∧
     (∀ i b b', bs !! i = Some b → bs !! S i = Some b' → end_ b = start b')) ∧
  (year min_utc + writable_buckets d <= year t < year max_utc →
   ∃ bs, writable_buckets_at d pk t = Value bs).
Proof.
  intros Ht Hw. split; [intros bs; by apply writable_spec|by apply writable_returns].
Qed.
End routing_theorems.

(** [validate] accepts exactly the definitions the storage adapters support, and the
    built-in chat definition panics exactly when its name or its table identifier is
    blank, whatever the [expect] message says. *)
Theorem definition_validation d tname tid :
  (validate d = Ok tt ↔
     is_blank (name d) = false ∧ is_blank (def_table_id d) = false ∧
     bucket_time_key d = "event_time" ∧ writable_buckets d ≠ 0 ∧
     clustering_key d = required_clustering) ∧
  (chat_messages tname tid = Panicked ↔ is_blank tname = true ∨ is_blank tid = true).
Proof.
  split; [apply validate_ok_iff|].
  unfold chat_messages, definition_new, new_with_bucket_strategy, validate. simpl.
  destruct (is_blank tname), (is_blank tid); simpl; naive_solver.
Qed.
