(* ===== verification/Storage.v ===== *)
(** The storage ports (src/ports/storage.rs): the data the two traits exchange, the
    traits themselves as typed calls interpreted by a type class, and the contract
    each trait's documentation promises to its callers.

    - [store_call] and [archive_call] have one constructor per trait method; the index
      is the method's return type.
    - [DurableBucketStore] and [ArchiveStore] interpret a call: an environment (clock
      readings, fresh owner token, injected faults) and a state give the returned value
      and the next state.
    - [AEntry] is what a bucket promises its clients (routing state, fence generation,
      owner, multiset of mutable records); [entry_spec] is the contract of every method
      on it, [StoreLaws] and [ArchiveLaws] the classes an adapter discharges and the
      coordinator, the table router and the system proofs consume. *)
From S2P Require Import Prelude Chrono Model.
Local Open Scope Z_scope.

(** ** Data *)
Inductive BucketState :=
  | Hot
  | Archiving
  | Archived (object_key : string) (hot_deleted : bool).

#[export] Instance BucketState_eq_dec : EqDecision BucketState.
Proof. solve_decision. Defined.

Inductive StoreError :=
  | MissingBucket (b : BucketId)
  | Other (message : string).

Inductive DurableBucketStoreError :=
  | Unavailable
  | OperationFailed
  | CommitOutcomeUnknown
  | BucketReadOnly (s : BucketState)
  | ArchiveNotAllowed (s : BucketState)
  | BucketStrategyMismatch
  | StaleArchiveSession.

#[export] Instance DurableBucketStoreError_eq_dec : EqDecision DurableBucketStoreError.
Proof. solve_decision. Defined.

Inductive DurableBucketRead :=
  | ReadHot (records : list Record_)
  | ReadArchive (object_key : string).

Record ArchiveSession := mkSession {
  session_bucket : BucketId;
  owner_token : string;
  session_generation : Z
}.

Inductive ArchiveWork :=
  | Cutover (b : BucketId)
  | Cleanup (b : BucketId).

Record ArchiveScan := mkScan { eligible_before : Z; scan_limit : Z }.

Definition work_bucket (w : ArchiveWork) : BucketId :=
  match w with Cutover b | Cleanup b => b end.

(** ** The traits as typed calls *)
Inductive store_call : Type → Type :=
  | Append (b : BucketId) (r : Record_) : store_call (Result DurableBucketStoreError unit)
  | State (b : BucketId) : store_call (Result DurableBucketStoreError BucketState)
  | DiscoverArchiveWork (scan : ArchiveScan) :
      store_call (Result DurableBucketStoreError (list ArchiveWork))
  | ClaimArchive (b : BucketId) (lease_for : Z) :
      store_call (Result DurableBucketStoreError (option ArchiveSession))
  | ClaimCleanup (b : BucketId) (lease_for : Z) :
      store_call (Result DurableBucketStoreError (option ArchiveSession))
  | RenewArchiveLease (s : ArchiveSession) (lease_for : Z) :
      store_call (Result DurableBucketStoreError unit)
  | DeferArchive (s : ArchiveSession) (retry_after : Z) :
      store_call (Result DurableBucketStoreError unit)
  | DeferCleanup (s : ArchiveSession) (retry_after : Z) :
      store_call (Result DurableBucketStoreError unit)
  | ReadRange (b : BucketId) (range : TimeRange) (after : option Cursor) (limit : Z) :
      store_call (Result DurableBucketStoreError DurableBucketRead)
  | BeginArchive (b : BucketId) : store_call (Result DurableBucketStoreError ArchiveSession)
  | Snapshot (s : ArchiveSession) : store_call (Result DurableBucketStoreError (list Record_))
  | PublishArchive (s : ArchiveSession) (object_key : string) :
      store_call (Result DurableBucketStoreError unit)
  | DeleteHotBucket (s : ArchiveSession) : store_call (Result DurableBucketStoreError unit)
  | AbortArchive (s : ArchiveSession) : store_call (Result DurableBucketStoreError unit).

Inductive archive_call : Type → Type :=
  | PutBucket (b : BucketId) (rs : list Record_) : archive_call (Result StoreError string)
  | PutBucketGeneration (b : BucketId) (generation : Z) (rs : list Record_) :
      archive_call (Result StoreError string)
  | GetBucket (b : BucketId) (object_key : string) : archive_call (Result StoreError (list Record_)).

(** An adapter runs a call in an environment [E] on a state [S]. *)
Class DurableBucketStore (E S : Type) := store_exec : ∀ X, store_call X → E → S → X * S.
Class ArchiveStore (E S : Type) := archive_exec : ∀ X, archive_call X → E → S → X * S.
Arguments store_exec {E S _ X}.
Arguments archive_exec {E S _ X}.

(** The trait's default method of [put_bucket_generation]: an adapter that does not
    override it rejects every fenced upload. *)
Definition put_bucket_generation_default : Result StoreError string :=
  Err (Other "archive store does not support generation-addressed uploads").

(** The bucket a call concerns; discovery concerns none. *)
Definition call_bucket {X} (c : store_call X) : option BucketId :=
  match c with
  | Append b _ | State b | ClaimArchive b _ | ClaimCleanup b _ | ReadRange b _ _ _
  | BeginArchive b => Some b
  | RenewArchiveLease s _ | DeferArchive s _ | DeferCleanup s _ | Snapshot s
  | PublishArchive s _ | DeleteHotBucket s | AbortArchive s => Some (session_bucket s)
  | DiscoverArchiveWork _ => None
  end.

(** ** Selecting a page of one bucket
    The filter of every read path: the half-open range and, with a cursor, the records
    strictly after it in [(event_time, sort_key)] order. *)
Definition after_cursor (after : option Cursor) (r : Record_) : bool :=
  match after with None => true | Some c => ltb (cursor_key c) (clustering r) end.
Definition in_page (range : TimeRange) (after : option Cursor) (r : Record_) : bool :=
  range_contains range (event_time r) && after_cursor after r.
Definition matching (range : TimeRange) (after : option Cursor) (l : list Record_) : list Record_ :=
  filter (λ r, Is_true (in_page range after r)) l.
Definition page (range : TimeRange) (after : option Cursor) (limit : Z) (l : list Record_) :
  list Record_ := take (Z.to_nat limit) (sort_by clustering (matching range after l)).

(** What an adapter keeps of a call's arguments: a database column may have a coarser clock
    than the caller, and a row count a smaller range than [usize]. *)
Record Fidelity := mkFidelity { f_time : Z → Z; f_limit : Z → Z }.
Definition exact : Fidelity := mkFidelity id id.
Definition stored_record (fid : Fidelity) (r : Record_) : Record_ :=
  mkRecord (r_partition_key r) (f_time fid (event_time r)) (sort_key r) (value r).
Definition stored_range (fid : Fidelity) (range : TimeRange) : TimeRange :=
  mkTimeRange (f_time fid (range_start range)) (f_time fid (range_end range)).
Definition stored_cursor (fid : Fidelity) (c : Cursor) : Cursor :=
  mkCursor (f_time fid (c_event_time c)) (c_sort_key c).

(** The arguments of a read that the adapter keeps as they are. The in-memory store keeps all of
    them. CockroachDB keeps bounds and cursors of whole microseconds and limits up to
    [i64::MAX]; finer bounds it rounds, so that a bucket that is still hot may answer with other
    records than its archive would. The theorems on pages say where they need this. *)
Definition precise (fid : Fidelity) (range : TimeRange) (after : option Cursor) (limit : Z) : Prop :=
  stored_range fid range = range ∧ stored_cursor fid <$> after = after ∧ f_limit fid limit = limit.
(** The same for a read over [n] records: a limit that the adapter clamps does no harm when it
    still exceeds the number of records. *)
Definition precise_for (fid : Fidelity) (range : TimeRange) (after : option Cursor) (limit : Z) (n : nat) : Prop :=
  stored_range fid range = range ∧ stored_cursor fid <$> after = after ∧
  (f_limit fid limit = limit ∨ Z.of_nat n <= f_limit fid limit ∧ Z.of_nat n <= limit).

(** ** The contract of a bucket *)
Record AEntry := mkAEntry {
  a_state : BucketState;
  a_generation : Z;
  a_owner : option string;
  a_records : list Record_
}.

Definition fresh_aentry : AEntry := mkAEntry Hot 0 None [].

(** Two entries are the same to every client when they hold the same records, in
    whatever order. *)
#[export] Instance aentry_equiv : Equiv AEntry := λ e e',
  a_state e = a_state e' ∧ a_generation e = a_generation e' ∧ a_owner e = a_owner e' ∧
  a_records e ≡ₚ a_records e'.

Definition owns (e : AEntry) (s : ArchiveSession) : Prop :=
  a_generation e = session_generation s ∧ a_owner e = Some (owner_token s).

(** The effects a method may commit. *)
Definition eff_append (r : Record_) (e e' : AEntry) : Prop :=
  a_state e = Hot ∧ e' ≡ mkAEntry Hot (a_generation e) (a_owner e) (r :: a_records e).
Definition eff_claim (b : BucketId) (e : AEntry) (s : ArchiveSession) (e' : AEntry) : Prop :=
  (a_state e = Hot ∨ a_state e = Archiving) ∧ session_bucket s = b ∧
  session_generation s = a_generation e + 1 ∧
  e' ≡ mkAEntry Archiving (a_generation e + 1) (Some (owner_token s)) (a_records e).
Definition eff_claim_cleanup (b : BucketId) (e : AEntry) (s : ArchiveSession) (e' : AEntry) : Prop :=
  ∃ key, a_state e = Archived key false ∧ session_bucket s = b ∧
  session_generation s = a_generation e + 1 ∧
  e' ≡ mkAEntry (Archived key false) (a_generation e + 1) (Some (owner_token s)) (a_records e).
Definition eff_release (s : ArchiveSession) (e e' : AEntry) : Prop :=
  a_state e = Archiving ∧ owns e s ∧ e' ≡ mkAEntry Hot (a_generation e) None (a_records e).
Definition eff_publish (s : ArchiveSession) (key : string) (e e' : AEntry) : Prop :=
  a_state e = Archiving ∧ owns e s ∧
  e' ≡ mkAEntry (Archived key false) (a_generation e) (a_owner e) (a_records e).
Definition eff_delete (s : ArchiveSession) (e e' : AEntry) : Prop :=
  ∃ key, a_state e = Archived key false ∧ owns e s ∧
  e' ≡ mkAEntry (Archived key true) (a_generation e) (a_owner e) [].

(** The records a bucket logically holds: its mutable records until an archive is published,
    the published object's records from then on. *)
Definition content (e : AEntry) (obj : string → option (list Record_)) : option (list Record_) :=
  match a_state e with Archived key _ => obj key | _ => Some (a_records e) end.

(** Errors after which the caller cannot know whether the effect was committed. *)
Definition ambiguous (err : DurableBucketStoreError) : bool :=
  match err with OperationFailed | CommitOutcomeUnknown => true | _ => false end.

(** A method that either commits [eff] and reports it, or fails: a definite error leaves
    the bucket as it was, an ambiguous one leaves it as it was or committed. *)
Definition commits {A} (eff : A → AEntry → Prop) (e : AEntry)
    (res : Result DurableBucketStoreError A) (e' : AEntry) : Prop :=
  match res with
  | Ok a => eff a e'
  | Err err => e' ≡ e ∨ (ambiguous err = true ∧ ∃ a, eff a e')
  end.

(** What a result tells about an unchanged bucket. *)
Definition observes {A} (obs : A → Prop) (e : AEntry)
    (res : Result DurableBucketStoreError A) (e' : AEntry) : Prop :=
  e' ≡ e ∧ match res with Ok a => obs a | Err _ => True end.

Definition routed (fid : Fidelity) (range : TimeRange) (after : option Cursor) (limit : Z) (e : AEntry)
    (read : DurableBucketRead) : Prop :=
  match a_state e with
  | Archived key _ => read = ReadArchive key
  | _ => ∃ l, l ≡ₚ a_records e ∧
      read = ReadHot (page (stored_range fid range) (stored_cursor fid <$> after) (f_limit fid limit) l)
  end.

(** A claim that finds nothing to claim leaves the bucket as it was. *)
Definition claims (eff : ArchiveSession → AEntry → Prop) (e : AEntry)
    (o : option ArchiveSession) (e' : AEntry) : Prop :=
  match o with Some s => eff s e' | None => e' ≡ e end.

(** The contract, method by method. *)
Definition entry_spec (fid : Fidelity) {X} (c : store_call X) :
    AEntry → X → AEntry → Prop :=
  match c in store_call X return AEntry → X → AEntry → Prop with
  | Append b r => λ e, commits (λ _, eff_append (stored_record fid r) e) e
  | State b => λ e, observes (λ st, st = a_state e) e
  | DiscoverArchiveWork _ => λ e _ e', e' ≡ e
  | ClaimArchive b _ => λ e, commits (claims (eff_claim b e) e) e
  | ClaimCleanup b _ => λ e, commits (claims (eff_claim_cleanup b e) e) e
  | RenewArchiveLease s _ => λ e, observes (λ _, owns e s) e
  | DeferArchive s _ => λ e, commits (λ _, eff_release s e) e
  | DeferCleanup s _ => λ e, observes (λ _, owns e s ∧ ∃ key, a_state e = Archived key false) e
  | ReadRange b range after limit => λ e, observes (routed fid range after limit e) e
  | BeginArchive b => λ e, commits (eff_claim b e) e
  | Snapshot s => λ e, observes (λ rs, a_state e = Archiving ∧ owns e s ∧ rs ≡ₚ a_records e) e
  | PublishArchive s key => λ e, commits (λ _, eff_publish s key e) e
  | DeleteHotBucket s => λ e, commits (λ _, eff_delete s e) e
  | AbortArchive s => λ e, commits (λ _, eff_release s e) e
  end.

(** ** Sequences of calls *)
(** One invocation by some client: the call and what it reads from outside. *)
Record invocation (E : Type) := Invoke { inv_type : Type; inv_call : store_call inv_type; inv_env : E }.
Arguments Invoke {E} inv_type inv_call inv_env.
Arguments inv_type {E} i.
Arguments inv_call {E} i.
Arguments inv_env {E} i.

Definition run_calls {E S} `{DurableBucketStore E S} (l : list (invocation E)) (m : S) : S :=
  foldl (λ m i, (store_exec (inv_call i) (inv_env i) m).2) m l.

(** The credential a call presents. *)
Definition presents {X} (c : store_call X) : option ArchiveSession :=
  match c with
  | RenewArchiveLease s _ | DeferArchive s _ | DeferCleanup s _ | Snapshot s
  | PublishArchive s _ | DeleteHotBucket s | AbortArchive s => Some s
  | _ => None
  end.

Definition failed {X} (c : store_call X) : X → Prop :=
  match c in store_call X return X → Prop with
  | Append _ _ | State _ | DiscoverArchiveWork _ | ClaimArchive _ _ | ClaimCleanup _ _
  | RenewArchiveLease _ _ | DeferArchive _ _ | DeferCleanup _ _ | ReadRange _ _ _ _ | BeginArchive _
  | Snapshot _ | PublishArchive _ _ | DeleteHotBucket _ | AbortArchive _ => λ r, is_ok r = false
  end.

(** The session a claim granted, if it granted one. *)
Definition granted {X} (c : store_call X) : X → option ArchiveSession :=
  match c in store_call X return X → option ArchiveSession with
  | ClaimArchive _ _ | ClaimCleanup _ _ => λ r, match r with Ok o => o | Err _ => None end
  | BeginArchive _ => λ r, match r with Ok s => Some s | Err _ => None end
  | _ => λ _, None
  end.

Section laws.
Context `{Chrono}.

(** A call is well formed when the bucket it names was derived by the library, and a record
    is appended to a bucket of its own partition. *)
Definition wf_call {X} (c : store_call X) : Prop :=
  match call_bucket c with Some b => canonical b | None => True end ∧
  match c with Append b r => r_partition_key r = partition_key b | _ => True end.

(** What a record's bucket requires of it; archive readers check it. *)
Definition in_bucket (b : BucketId) (r : Record_) : Prop :=
  r_partition_key r = partition_key b ∧ bucket_contains b (event_time r) = true.

(** An adapter implements the contract: from a state that satisfies the adapter's own
    invariant every call gives such a state, changes no bucket but the one it names, and
    relates that bucket's entries as [entry_spec] says; discovery only names buckets the
    library derived. *)
Class StoreLaws (E S : Type) `{DurableBucketStore E S} := {
  store_inv : S → Prop;
  view : S → BucketId → AEntry;
  fidelity : Fidelity;
  store_exec_inv : ∀ X (c : store_call X) env s, wf_call c → store_inv s →
    store_inv (store_exec c env s).2;
  store_exec_frame : ∀ X (c : store_call X) env s b, wf_call c → store_inv s → canonical b →
    call_bucket c ≠ Some b → view (store_exec c env s).2 b ≡ view s b;
  store_exec_entry : ∀ X (c : store_call X) env s b, wf_call c → store_inv s →
    call_bucket c = Some b →
    entry_spec fidelity c (view s b) (store_exec c env s).1 (view (store_exec c env s).2 b);
  store_discover_canonical : ∀ scan env s ws, store_inv s →
    (store_exec (DiscoverArchiveWork scan) env s).1 = Ok ws →
    Forall (λ w, canonical (work_bucket w)) ws
}.

(** The record a store keeps for an appended one. *)
Definition stored {E S} `{StoreLaws E S} (r : Record_) : Record_ := stored_record fidelity r.

(** The archive tier keeps named immutable objects. Every name belongs to at most one bucket
    and generation ([generation_name]; an adapter that derives names from content has several
    names per generation), and a fenced upload makes only names of its own readable or
    unreadable. Uploads are only ever made for a generation under whose names nothing is
    readable yet, which is the precondition the laws give the adapter. *)
Class ArchiveLaws (E S : Type) `{ArchiveStore E S} := {
  archive_inv : S → Prop;
  object : S → BucketId → string → option (list Record_);
  generation_name : BucketId → Z → string → Prop;
  generation_name_inj : ∀ b b' g g' k, canonical b → canonical b' → 0 <= g → 0 <= g' →
    generation_name b g k → generation_name b' g' k → b = b' ∧ g = g';
  put_generation : ∀ env s b g rs, archive_inv s → canonical b → 0 <= g →
    (∀ b' k, canonical b' → generation_name b g k → object s b' k = None) →
    Forall (in_bucket b) rs →
    let '(res, s') := archive_exec (PutBucketGeneration b g rs) env s in
    archive_inv s' ∧
    (∀ b' k, canonical b' → ¬ generation_name b g k → object s' b' k = object s b' k) ∧
    (∀ k, res = Ok k → generation_name b g k ∧ ∃ rs', object s' b k = Some rs' ∧ rs' ≡ₚ rs);
  get_bucket_spec : ∀ env s b k, archive_inv s → canonical b →
    let '(res, s') := archive_exec (GetBucket b k) env s in
    archive_inv s' ∧ (∀ b' k', canonical b' → object s' b' k' = object s b' k') ∧
    (∀ rs, res = Ok rs → object s b k = Some rs)
}.
End laws.

(** ** Lemmas *)
(** The check archive readers make of the records they found. *)
Lemma existsb_foreign b rs :
  existsb (λ r, negb (bool_decide (r_partition_key r = partition_key b))
                || negb (bucket_contains b (event_time r))) rs = false ↔ Forall (in_bucket b) rs.
Proof.
  unfold in_bucket. induction rs as [|r rs IH]; cbn [existsb]; [by split|].
  rewrite Forall_cons, orb_false_iff, IH, orb_false_iff.
  case_bool_decide; destruct (bucket_contains b (event_time r)); naive_solver.
Qed.

#[export] Instance aentry_equivalence : Equivalence (≡@{AEntry}).
Proof.
  split.
  - intros e. done.
  - intros e e' (? & ? & ? & ?). split_and!; done.
  - intros e1 e2 e3 (? & ? & ? & Hp) (? & ? & ? & Hp'). split_and!; try congruence. by rewrite Hp.
Qed.
#[export] Instance a_records_proper : Proper ((≡) ==> (≡ₚ)) a_records.
Proof. intros e e' (? & ? & ? & ?). done. Qed.
#[export] Instance a_state_proper : Proper ((≡) ==> (=)) a_state.
Proof. intros e e' (? & ? & ? & ?). done. Qed.
#[export] Instance a_generation_proper : Proper ((≡) ==> (=)) a_generation.
Proof. intros e e' (? & ? & ? & ?). done. Qed.
#[export] Instance owns_proper : Proper ((≡) ==> (=) ==> iff) owns.
Proof. intros e e' (? & Hg & Ho & ?) s ? <-. unfold owns. by rewrite Hg, Ho. Qed.

Lemma stored_record_exact r : stored_record exact r = r.
Proof. by destruct r. Qed.
Lemma precise_for_exact range after limit n : precise_for exact range after limit n.
Proof. unfold precise_for, stored_range, stored_cursor. destruct range, after as [[]|]; simpl; auto. Qed.
Lemma precise_for_le fid range after limit n m : (m <= n)%nat →
  precise_for fid range after limit n → precise_for fid range after limit m.
Proof. unfold precise_for. intros ? (? & ? & [?|?]); split_and!; auto. right. lia. Qed.
Lemma precise_for_page fid range after limit l : precise_for fid range after limit (length l) →
  page range after (f_limit fid limit) l = page range after limit l.
Proof.
  intros (_ & _ & [->|[? ?]]); [done|]. unfold page.
  assert (length (sort_by clustering (matching range after l)) <= length l)%nat
    by (rewrite sort_by_Permutation; apply length_filter).
  rewrite !take_ge; [done|lia..].
Qed.
Lemma precise_exact range after limit : precise exact range after limit.
Proof. split_and!; [by destruct range| |done]. destruct after as [[]|]; done. Qed.

Lemma elem_of_matching range after l r :
  r ∈ matching range after l ↔ in_page range after r = true ∧ r ∈ l.
Proof. unfold matching. rewrite list_elem_of_filter, Is_true_true. done. Qed.

Lemma matching_app range after l1 l2 :
  matching range after (l1 ++ l2) = matching range after l1 ++ matching range after l2.
Proof. apply filter_app. Qed.

Lemma matching_sort range after l :
  matching range after (sort_by clustering l) = sort_by clustering (matching range after l).
Proof. apply filter_sort_by. Qed.

Lemma page_sorted range after limit l : sorted_by clustering l →
  page range after limit l = take (Z.to_nat limit) (matching range after l).
Proof. intros Hs. unfold page. rewrite sort_by_id; [done|]. by apply sorted_by_filter. Qed.

#[export] Instance matching_Permutation range after : Proper ((≡ₚ) ==> (≡ₚ)) (matching range after).
Proof. intros l l' Hl. unfold matching. by rewrite Hl. Qed.

(** A published route is kept: no call takes an archived bucket back or renames its object. *)
Definition route_kept (e e' : AEntry) : Prop :=
  ∀ k del, a_state e = Archived k del → ∃ del', a_state e' = Archived k del'.

Lemma route_kept_equiv e e' : e' ≡ e → route_kept e e'.
Proof. intros (Es & _) k del Hk. exists del. congruence. Qed.
Lemma commits_route_kept {A} (eff : A → AEntry → Prop) e res e' :
  (∀ a e', eff a e' → route_kept e e') → commits eff e res e' → route_kept e e'.
Proof.
  intros He. unfold commits. destruct res as [a|err]; [apply He|].
  intros [Heq|(_ & a & Ha)]; [by apply route_kept_equiv|by eapply He].
Qed.
Lemma entry_spec_route_kept fid {X} (c : store_call X) e x e' : entry_spec fid c e x e' → route_kept e e'.
Proof.
  destruct c; simpl; try (intros [Heq _]; by apply route_kept_equiv); try by apply route_kept_equiv.
  all: apply commits_route_kept; intros a e''; unfold claims, eff_append, eff_claim, eff_claim_cleanup,
    eff_release, eff_publish, eff_delete; try (destruct a; try apply route_kept_equiv);
    intros He k del Hk; simpl in *;
    repeat match goal with
    | H : _ ∧ _ |- _ => destruct H
    | H : _ ∨ _ |- _ => destruct H
    | H : ∃ _, _ |- _ => destruct H
    | H : _ ≡ _ |- _ => apply a_state_proper in H
    end; simplify_eq/=; first [congruence | exists false; congruence | exists true; congruence].
Qed.

Lemma commits_observes {A} (obs : A → Prop) e res e' :
  commits (λ a e', e' ≡ e ∧ obs a) e res e' → observes obs e res e'.
Proof.
  unfold commits, observes. destruct res as [a|err]; [done|].
  intros [Heq|(_ & a & Heq & _)]; done.
Qed.

(** ** What the contract fences *)
(** Generations only grow, and only a session that owns the bucket gets through. *)
Lemma commits_generation {A} (eff : A → AEntry → Prop) e res e' :
  (∀ a e', eff a e' → a_generation e <= a_generation e') → commits eff e res e' →
  a_generation e <= a_generation e'.
Proof.
  intros He. unfold commits. destruct res as [a|err]; [apply He|].
  intros [->|(_ & a & Ha)]; [done|by eapply He].
Qed.
Lemma entry_spec_generation fid {X} (c : store_call X) e x e' : entry_spec fid c e x e' →
  a_generation e <= a_generation e'.
Proof.
  destruct c; simpl; try (intros [-> _]; done); try (intros ->; done).
  all: apply commits_generation; intros a e''; unfold claims, eff_append, eff_claim, eff_claim_cleanup,
    eff_release, eff_publish, eff_delete; try (destruct a; try (intros ->; done));
    intros He; repeat match goal with
    | H : _ ∧ _ |- _ => destruct H
    | H : ∃ _, _ |- _ => destruct H
    | H : _ ≡ _ |- _ => apply a_generation_proper in H; simpl in H
    end; lia.
Qed.
Lemma entry_spec_granted fid {X} (c : store_call X) e x e' s : entry_spec fid c e x e' →
  granted c x = Some s → call_bucket c = Some (session_bucket s) ∧ session_generation s = a_generation e'.
Proof.
  destruct c; simpl; try done; unfold commits, claims; destruct x as [v|]; try done; try destruct v;
    unfold eff_claim, eff_claim_cleanup; intros He Hg; simplify_eq;
    repeat match goal with
    | H : _ ∧ _ |- _ => destruct H
    | H : ∃ _, _ |- _ => destruct H
    | H : _ ≡ _ |- _ => apply a_generation_proper in H; simpl in H
    end; split; congruence.
Qed.
Lemma entry_spec_presents fid {X} (c : store_call X) e x e' s : entry_spec fid c e x e' →
  presents c = Some s → a_generation e ≠ session_generation s → failed c x ∧ e' ≡ e.
Proof.
  destruct c; simpl; try done; unfold commits, observes; intros He Hs Hg; simplify_eq; destruct x as [v|];
    unfold eff_release, eff_publish, eff_delete, owns in He; naive_solver.
Qed.

Section fence.
Context `{Chrono} {E S : Type} `{StoreLaws E S}.

Definition wf_calls (l : list (invocation E)) : Prop := Forall (λ i, wf_call (inv_call i)) l.

Lemma run_calls_store_inv l s : wf_calls l → store_inv s → store_inv (run_calls l s).
Proof.
  intros Hl. revert s. induction Hl as [|i l Hi _ IH]; intros s Hs; [done|]. apply IH. by apply store_exec_inv.
Qed.
Lemma store_exec_generation {X} (c : store_call X) env s b : wf_call c → store_inv s → canonical b →
  a_generation (view s b) <= a_generation (view (store_exec c env s).2 b).
Proof.
  intros Hc Hs Hb. destruct (decide (call_bucket c = Some b)) as [Hcb|Hne].
  - eapply entry_spec_generation. by apply store_exec_entry.
  - by rewrite (store_exec_frame _ c env s b Hc Hs Hb Hne).
Qed.
Lemma run_calls_store_generation l s b : wf_calls l → store_inv s → canonical b →
  a_generation (view s b) <= a_generation (view (run_calls l s) b).
Proof.
  intros Hl. revert s. induction Hl as [|i l Hi _ IH]; intros s Hs Hb; [done|]. simpl.
  etransitivity; [exact (store_exec_generation (inv_call i) (inv_env i) s b Hi Hs Hb)|].
  apply IH; [by apply store_exec_inv|done].
Qed.

(** C11. Every store that implements the contract fences: once a claim on a bucket is granted, a
    session of that bucket with a lower generation fails on every method that takes one and
    leaves the bucket as it is, whatever well-formed calls all clients make in between. *)
Theorem contract_fences_superseded_sessions {X Y} (claim : store_call X) env s ses ses' l
    (c : store_call Y) env' :
  store_inv s → wf_call claim → granted claim (store_exec claim env s).1 = Some ses' →
  session_bucket ses = session_bucket ses' → session_generation ses < session_generation ses' →
  wf_calls l → presents c = Some ses → wf_call c →
  let s' := run_calls l (store_exec claim env s).2 in
  failed c (store_exec c env' s').1 ∧
  view (store_exec c env' s').2 (session_bucket ses) ≡ view s' (session_bucket ses).
Proof.
  intros Hs Hclaim Hg Hb Hlt Hl Hp Hc s'.
  assert (call_bucket c = Some (session_bucket ses)) as Hcb by (destruct c; simplify_eq/=; done).
  assert (canonical (session_bucket ses)) as Hcan.
  { destruct Hc as [Hc _]. by rewrite Hcb in Hc. }
  assert (call_bucket claim = Some (session_bucket ses') ∧
    session_generation ses' = a_generation (view (store_exec claim env s).2 (session_bucket ses'))) as [_ Hgen].
  { destruct (call_bucket claim) as [b|] eqn:Ecb; [|by destruct claim].
    pose proof (store_exec_entry _ claim env s b Hclaim Hs Ecb) as Hspec.
    destruct (entry_spec_granted _ _ _ _ _ _ Hspec Hg) as [Eb ?]. rewrite Ecb in Eb. by simplify_eq. }
  assert (store_inv s') as Hs' by by apply run_calls_store_inv, store_exec_inv.
  pose proof (run_calls_store_generation l (store_exec claim env s).2 (session_bucket ses) Hl
    (store_exec_inv _ _ _ _ Hclaim Hs) Hcan) as Hmono. fold s' in Hmono.
  apply (entry_spec_presents fidelity c (view s' (session_bucket ses)) _ _ ses); [by apply store_exec_entry|done|].
  rewrite <- Hb in Hgen. lia.
Qed.
End fence.
