(* ===== verification/MemStore.v ===== *)
(** The in-memory coupled store (src/ports/storage.rs, [InMemoryDurableBucketStore]).

    The state is the [HashMap] behind the mutex; every method runs under one lock
    acquisition, so a method is one transition of the map. What the code reads from
    outside (three clock readings and a fresh token) is the [Env] argument. The file
    proves the store's invariant, what each method does on every branch, the fence (a
    superseded session never succeeds again), and that the store implements the
    contract of [Storage.StoreLaws]. *)
From S2P Require Import Prelude Chrono Model Storage.
Local Open Scope Z_scope.

(** ** State *)
Record DurableBucketEntry := mkEntry {
  e_state : BucketState;
  generation : Z;
  archive_owner_token : option string;
  archive_owner_expires_at : option Z;
  next_attempt_at : option Z;
  records : list Record_
}.

Definition default_entry : DurableBucketEntry := mkEntry Hot 0 None None None [].

Abbreviation MemState := (gmap BucketId DurableBucketEntry).

(** [Instant::now()] of the method body, of [lease_deadline] and of
    [validate_active_session], and the text of [Uuid::new_v4()]. *)
Record Env := mkEnv { now : Z; deadline_now : Z; validate_now : Z; uuid : string }.

(** [buckets.entry(bucket).or_default()] *)
Definition entry_or_default (m : MemState) (b : BucketId) : DurableBucketEntry :=
  default default_entry (m !! b).

(** ** Leases *)
(** [Instant] in nanoseconds; the platform keeps whole seconds in a signed 64-bit integer. *)
Definition INSTANT_MAX : Z := i64_max * 1000000000 + 999999999.
Definition instant_checked_add (t d : Z) : option Z :=
  if t + d <=? INSTANT_MAX then Some (t + d) else None.

Definition lease_deadline (t : Z) (duration : Z) : Result DurableBucketStoreError Z :=
  if duration =? 0 then Err OperationFailed
  else ok_or (instant_checked_add t duration) OperationFailed.

Definition attempt_due (e : DurableBucketEntry) (t : Z) : bool :=
  match next_attempt_at e with None => true | Some retry_at => retry_at <=? t end.

Definition lease_expired (e : DurableBucketEntry) (t : Z) : bool :=
  match archive_owner_expires_at e with None => true | Some expires_at => expires_at <=? t end.

Definition validate_active_session (e : DurableBucketEntry) (s : ArchiveSession) (t : Z) :
    Result DurableBucketStoreError unit :=
  if negb (generation e =? session_generation s)
     || negb (bool_decide (archive_owner_token e = Some (owner_token s)))
     || lease_expired e t
  then Err StaleArchiveSession else Ok tt.

Definition validate_archive_session (e : DurableBucketEntry) (s : ArchiveSession)
    (expected_state : BucketState) (t : Z) : Result DurableBucketStoreError unit :=
  if negb (bool_decide (e_state e = expected_state)) then Err StaleArchiveSession
  else validate_active_session e s t.

(** ** Methods *)
Definition append (b : BucketId) (r : Record_) (m : MemState) :
    Result DurableBucketStoreError unit * MemState :=
  let e := entry_or_default m b in
  if negb (bool_decide (e_state e = Hot)) then (Err (BucketReadOnly (e_state e)), <[b := e]> m)
  else (Ok tt, <[b := mkEntry (e_state e) (generation e) (archive_owner_token e)
    (archive_owner_expires_at e) (next_attempt_at e)
    (sort_by clustering (records e ++ [r]))]> m).

Definition state (b : BucketId) (m : MemState) : Result DurableBucketStoreError BucketState :=
  Ok (default Hot (e_state <$> m !! b)).

(** The loop of [discover_archive_work] over one entry. *)
Definition cleanup_work (t : Z) (p : BucketId * DurableBucketEntry) : bool :=
  attempt_due p.2 t &&
  match e_state p.2 with Archived _ false => lease_expired p.2 t | _ => false end.
Definition cutover_work (t cutoff : Z) (p : BucketId * DurableBucketEntry) : bool :=
  attempt_due p.2 t &&
  match e_state p.2 with
  | Hot => end_ p.1 <=? cutoff
  | Archiving => (end_ p.1 <=? cutoff) && lease_expired p.2 t
  | Archived _ _ => false
  end.

Definition discover_archive_work (scan : ArchiveScan) (env : Env) (m : MemState) :
    Result DurableBucketStoreError (list ArchiveWork) :=
  let cleanup := map (λ p, Cleanup p.1) (filter (λ p, Is_true (cleanup_work (now env) p)) (map_to_list m)) in
  let cutover := map (λ p, Cutover p.1)
    (filter (λ p, Is_true (cutover_work (now env) (eligible_before scan) p)) (map_to_list m)) in
  Ok (take (Z.to_nat (scan_limit scan)) (sort_by work_bucket cleanup ++ sort_by work_bucket cutover)).

Definition claim_archive (b : BucketId) (lease_for : Z) (env : Env) (m : MemState) :
    Result DurableBucketStoreError (option ArchiveSession) * MemState :=
  match lease_deadline (deadline_now env) lease_for with
  | Err err => (Err err, m)
  | Ok expires_at =>
    let e := entry_or_default m b in
    let claimable := attempt_due e (now env) &&
      (bool_decide (e_state e = Hot) ||
       (bool_decide (e_state e = Archiving) && lease_expired e (now env))) in
    if negb claimable then (Ok None, <[b := e]> m)
    else match u64_checked_add (generation e) 1 with
    | None => (Err OperationFailed, <[b := e]> m)
    | Some g => (Ok (Some (mkSession b (uuid env) g)),
                 <[b := mkEntry Archiving g (Some (uuid env)) (Some expires_at) None (records e)]> m)
    end
  end.

Definition claim_cleanup (b : BucketId) (lease_for : Z) (env : Env) (m : MemState) :
    Result DurableBucketStoreError (option ArchiveSession) * MemState :=
  match lease_deadline (deadline_now env) lease_for with
  | Err err => (Err err, m)
  | Ok expires_at =>
    match m !! b with
    | None => (Ok None, m)
    | Some e =>
      let claimable := match e_state e with Archived _ false => true | _ => false end &&
        attempt_due e (now env) && lease_expired e (now env) in
      if negb claimable then (Ok None, m)
      else match u64_checked_add (generation e) 1 with
      | None => (Err OperationFailed, m)
      | Some g => (Ok (Some (mkSession b (uuid env) g)),
                   <[b := mkEntry (e_state e) g (Some (uuid env)) (Some expires_at) None (records e)]> m)
      end
    end
  end.

Definition renew_archive_lease (s : ArchiveSession) (lease_for : Z) (env : Env) (m : MemState) :
    Result DurableBucketStoreError unit * MemState :=
  match lease_deadline (deadline_now env) lease_for with
  | Err err => (Err err, m)
  | Ok expires_at =>
    match m !! session_bucket s with
    | None => (Err StaleArchiveSession, m)
    | Some e => match validate_active_session e s (validate_now env) with
      | Err err => (Err err, m)
      | Ok _ => (Ok tt, <[session_bucket s := mkEntry (e_state e) (generation e)
          (archive_owner_token e) (Some expires_at) (next_attempt_at e) (records e)]> m)
      end
    end
  end.

Definition defer_archive (s : ArchiveSession) (retry_after : Z) (env : Env) (m : MemState) :
    Result DurableBucketStoreError unit * MemState :=
  match lease_deadline (deadline_now env) retry_after with
  | Err err => (Err err, m)
  | Ok retry_at =>
    match m !! session_bucket s with
    | None => (Err StaleArchiveSession, m)
    | Some e => match validate_archive_session e s Archiving (validate_now env) with
      | Err err => (Err err, m)
      | Ok _ => (Ok tt, <[session_bucket s :=
          mkEntry Hot (generation e) None None (Some retry_at) (records e)]> m)
      end
    end
  end.

Definition defer_cleanup (s : ArchiveSession) (retry_after : Z) (env : Env) (m : MemState) :
    Result DurableBucketStoreError unit * MemState :=
  match lease_deadline (deadline_now env) retry_after with
  | Err err => (Err err, m)
  | Ok retry_at =>
    match m !! session_bucket s with
    | None => (Err StaleArchiveSession, m)
    | Some e => match validate_active_session e s (validate_now env) with
      | Err err => (Err err, m)
      | Ok _ => match e_state e with
        | Archived _ false => (Ok tt, <[session_bucket s := mkEntry (e_state e) (generation e)
            (archive_owner_token e) (Some retry_at) (Some retry_at) (records e)]> m)
        | _ => (Err StaleArchiveSession, m)
        end
      end
    end
  end.

Definition read_range (b : BucketId) (range : TimeRange) (after : option Cursor) (limit : Z)
    (m : MemState) : Result DurableBucketStoreError DurableBucketRead :=
  match m !! b with
  | None => Ok (ReadHot [])
  | Some e => match e_state e with
    | Archived object_key _ => Ok (ReadArchive object_key)
    | _ => Ok (ReadHot (take (Z.to_nat limit)
        (filter (λ r, Is_true (after_cursor after r))
          (filter (λ r, Is_true (range_contains range (event_time r))) (records e)))))
    end
  end.

(** The lease deadline is computed after the entry has been fenced, so its failure leaves
    the bucket archiving with no lease. *)
Definition begin_archive (b : BucketId) (env : Env) (m : MemState) :
    Result DurableBucketStoreError ArchiveSession * MemState :=
  let e := entry_or_default m b in
  if negb (bool_decide (e_state e = Hot)) then (Err (ArchiveNotAllowed (e_state e)), <[b := e]> m)
  else match u64_checked_add (generation e) 1 with
  | None => (Err OperationFailed, <[b := e]> m)
  | Some g =>
    match lease_deadline (deadline_now env) (300 * 1000000000) with
    | Err err => (Err err, <[b := mkEntry Archiving g (Some (uuid env))
        (archive_owner_expires_at e) (next_attempt_at e) (records e)]> m)
    | Ok expires_at => (Ok (mkSession b (uuid env) g),
        <[b := mkEntry Archiving g (Some (uuid env)) (Some expires_at) None (records e)]> m)
    end
  end.

Definition snapshot (s : ArchiveSession) (env : Env) (m : MemState) :
    Result DurableBucketStoreError (list Record_) :=
  match m !! session_bucket s with
  | None => Err StaleArchiveSession
  | Some e => match validate_archive_session e s Archiving (validate_now env) with
    | Err err => Err err
    | Ok _ => Ok (records e)
    end
  end.

Definition publish_archive (s : ArchiveSession) (object_key : string) (env : Env) (m : MemState) :
    Result DurableBucketStoreError unit * MemState :=
  match m !! session_bucket s with
  | None => (Err StaleArchiveSession, m)
  | Some e => match validate_archive_session e s Archiving (validate_now env) with
    | Err err => (Err err, m)
    | Ok _ => (Ok tt, <[session_bucket s := mkEntry (Archived object_key false) (generation e)
        (archive_owner_token e) (archive_owner_expires_at e) (next_attempt_at e) (records e)]> m)
    end
  end.

Definition delete_hot_bucket (s : ArchiveSession) (env : Env) (m : MemState) :
    Result DurableBucketStoreError unit * MemState :=
  match m !! session_bucket s with
  | None => (Err StaleArchiveSession, m)
  | Some e => match e_state e with
    | Archived object_key false =>
      match validate_active_session e s (validate_now env) with
      | Err err => (Err err, m)
      | Ok _ => (Ok tt, <[session_bucket s := mkEntry (Archived object_key true) (generation e)
          (archive_owner_token e) (archive_owner_expires_at e) (next_attempt_at e) []]> m)
      end
    | _ => (Err StaleArchiveSession, m)
    end
  end.

Definition abort_archive (s : ArchiveSession) (env : Env) (m : MemState) :
    Result DurableBucketStoreError unit * MemState :=
  match m !! session_bucket s with
  | None => (Err StaleArchiveSession, m)
  | Some e => match validate_archive_session e s Archiving (validate_now env) with
    | Err err => (Err err, m)
    | Ok _ => (Ok tt, <[session_bucket s := mkEntry Hot (generation e) None None None (records e)]> m)
    end
  end.

(** The trait implementation. *)
#[export] Instance InMemoryDurableBucketStore : DurableBucketStore Env MemState := λ X c,
  match c in store_call X return Env → MemState → X * MemState with
  | Append b r => λ _ m, append b r m
  | State b => λ _ m, (state b m, m)
  | DiscoverArchiveWork scan => λ env m, (discover_archive_work scan env m, m)
  | ClaimArchive b lease_for => claim_archive b lease_for
  | ClaimCleanup b lease_for => claim_cleanup b lease_for
  | RenewArchiveLease s lease_for => renew_archive_lease s lease_for
  | DeferArchive s retry_after => defer_archive s retry_after
  | DeferCleanup s retry_after => defer_cleanup s retry_after
  | ReadRange b range after limit => λ _ m, (read_range b range after limit m, m)
  | BeginArchive b => begin_archive b
  | Snapshot s => λ env m, (snapshot s env m, m)
  | PublishArchive s object_key => publish_archive s object_key
  | DeleteHotBucket s => delete_hot_bucket s
  | AbortArchive s => abort_archive s
  end.

(** ** Invariant *)
Record entry_ok (e : DurableBucketEntry) : Prop := {
  ok_sorted : sorted_by clustering (records e);
  ok_generation : 0 <= generation e <= u64_max;
  ok_hot : e_state e = Hot → archive_owner_token e = None ∧ archive_owner_expires_at e = None;
  ok_owned : e_state e ≠ Hot → is_Some (archive_owner_token e);
  ok_deleted : ∀ k, e_state e = Archived k true → records e = []
}.
Definition mem_inv (m : MemState) : Prop := map_Forall (λ _, entry_ok) m.

Definition mem_entry (e : DurableBucketEntry) : AEntry :=
  mkAEntry (e_state e) (generation e) (archive_owner_token e) (records e).
Definition mem_view (m : MemState) (b : BucketId) : AEntry := mem_entry (entry_or_default m b).

(** ** Lemmas *)
Lemma default_entry_ok : entry_ok default_entry.
Proof. split; simpl; try done. constructor. Qed.
Lemma entry_or_default_ok m b : mem_inv m → entry_ok (entry_or_default m b).
Proof.
  intros Hm. unfold entry_or_default. destruct (m !! b) eqn:E; [by apply (Hm b)|].
  apply default_entry_ok.
Qed.
Lemma entry_or_default_lookup m b e : m !! b = Some e → entry_or_default m b = e.
Proof. unfold entry_or_default. by intros ->. Qed.
Lemma entry_or_default_insert m b e : entry_or_default (<[b := e]> m) b = e.
Proof. unfold entry_or_default. by rewrite lookup_insert_eq. Qed.
Lemma entry_or_default_insert_ne m b b' e : b ≠ b' →
  entry_or_default (<[b := e]> m) b' = entry_or_default m b'.
Proof. intros. unfold entry_or_default. by rewrite lookup_insert_ne. Qed.

Lemma validate_active_ok e s t : validate_active_session e s t = Ok tt ↔
  generation e = session_generation s ∧ archive_owner_token e = Some (owner_token s) ∧
  lease_expired e t = false.
Proof.
  unfold validate_active_session. destruct (generation e =? _) eqn:E; zbool; simpl; [|naive_solver].
  case_bool_decide; simpl; [|naive_solver]. destruct (lease_expired e t); naive_solver.
Qed.
Lemma validate_archive_ok e s st t : validate_archive_session e s st t = Ok tt ↔
  e_state e = st ∧ validate_active_session e s t = Ok tt.
Proof. unfold validate_archive_session. case_bool_decide; simpl; naive_solver. Qed.
Lemma validate_active_err e s t err : validate_active_session e s t = Err err →
  err = StaleArchiveSession.
Proof. unfold validate_active_session. case_match; naive_solver. Qed.
Lemma validate_archive_err e s st t err : validate_archive_session e s st t = Err err →
  err = StaleArchiveSession.
Proof. unfold validate_archive_session. case_match; [naive_solver|]. apply validate_active_err. Qed.
Lemma lease_deadline_ok t d x : lease_deadline t d = Ok x → d ≠ 0 ∧ x = t + d ∧ x <= INSTANT_MAX.
Proof.
  unfold lease_deadline, instant_checked_add, ok_or. intros E. case_all; zbool; simplify_eq/=; lia.
Qed.
Lemma lease_deadline_err t d err : lease_deadline t d = Err err → err = OperationFailed.
Proof. unfold lease_deadline, ok_or. intros E. case_all; simplify_eq/=; done. Qed.
Lemma checked_add_Some g x : u64_checked_add g 1 = Some x → x = g + 1 ∧ x <= u64_max.
Proof. unfold u64_checked_add. intros. case_all; zbool; simplify_eq; lia. Qed.

Lemma filter_filter_and {A} (p q : A → bool) (l : list A) :
  filter (λ x, Is_true (p x)) (filter (λ x, Is_true (q x)) l) = filter (λ x, Is_true (q x && p x)) l.
Proof.
  induction l as [|x l IH]; [done|]. rewrite !filter_cons.
  destruct (q x) eqn:Eq; simpl; [|done]. rewrite filter_cons. destruct (p x) eqn:Ep; simpl; congruence.
Qed.

Lemma read_range_page b range after limit m : mem_inv m →
  read_range b range after limit m =
  Ok match e_state (entry_or_default m b) with
     | Archived key _ => ReadArchive key
     | _ => ReadHot (page range after limit (records (entry_or_default m b)))
     end.
Proof.
  intros Hm. unfold read_range. destruct (m !! b) as [e|] eqn:E.
  - rewrite (entry_or_default_lookup _ _ _ E), filter_filter_and.
    rewrite (page_sorted _ _ _ _ (ok_sorted e (Hm _ _ E))). by destruct (e_state e).
  - unfold entry_or_default. rewrite E. unfold page. simpl. by rewrite take_nil.
Qed.

(** Every call writes at most the entry of the bucket it names, and writes a good entry. *)
Definition writes {X} (c : store_call X) (m m' : MemState) : Prop :=
  m' = m ∨ ∃ b e, call_bucket c = Some b ∧ m' = <[b := e]> m ∧ entry_ok e.

Lemma mem_view_insert m b e : mem_view (<[b := e]> m) b = mem_entry e.
Proof. unfold mem_view. by rewrite entry_or_default_insert. Qed.
Lemma mem_view_lookup m b e : m !! b = Some e → mem_view m b = mem_entry e.
Proof. intros E. unfold mem_view. by rewrite (entry_or_default_lookup _ _ _ E). Qed.

(** Use what a successful or failed guard says. *)
Ltac guards :=
  repeat match goal with
  | u : unit |- _ => destruct u
  | H : lease_deadline _ _ = Ok _ |- _ => apply lease_deadline_ok in H as (? & ? & ?)
  | H : lease_deadline _ _ = Err _ |- _ => apply lease_deadline_err in H
  | H : u64_checked_add _ 1 = Some _ |- _ => apply checked_add_Some in H as [? ?]
  | H : validate_active_session _ _ _ = Ok tt |- _ => apply validate_active_ok in H as (? & ? & ?)
  | H : validate_archive_session _ _ _ _ = Ok tt |- _ => apply validate_archive_ok in H as [? H]
  | H : validate_active_session _ _ _ = Err _ |- _ => apply validate_active_err in H
  | H : validate_archive_session _ _ _ _ = Err _ |- _ => apply validate_archive_err in H
  | H : bool_decide _ = true |- _ => apply bool_decide_eq_true_1 in H
  | H : negb _ = false |- _ => apply negb_false_iff in H
  | H : negb _ = true |- _ => apply negb_true_iff in H
  end; simplify_eq/=.

Lemma mem_exec_writes {X} (c : store_call X) env m : mem_inv m → writes c m (store_exec c env m).2.
Proof.
  intros Hm. unfold writes, store_exec, InMemoryDurableBucketStore.
  destruct c; simpl; try (by left);
    unfold append, claim_archive, claim_cleanup, renew_archive_lease, defer_archive, defer_cleanup,
      begin_archive, publish_archive, delete_hot_bucket, abort_archive;
    repeat (case_match; simpl; try (by left)); guards;
    right; do 2 eexists; (split; [done|]); (split; [reflexivity|]);
    try (by apply entry_or_default_ok).
  all: match goal with
    | Hm : mem_inv ?m, E : ?m !! _ = Some ?d |- _ => destruct (Hm _ _ E) as [Hs Hg Hh Ho Hd]
    | Hm : mem_inv ?m |- context [entry_or_default ?m ?b] =>
        destruct (entry_or_default_ok m b Hm) as [Hs Hg Hh Ho Hd]
    end;
    split; simpl; try solve [done | lia | apply sort_by_sorted | constructor | congruence | naive_solver].
Qed.

Lemma mem_exec_inv {X} (c : store_call X) env m : mem_inv m → mem_inv (store_exec c env m).2.
Proof.
  intros Hm. destruct (mem_exec_writes c env m Hm) as [->|(b & e & _ & -> & He)]; [done|].
  by apply map_Forall_insert_2.
Qed.

Lemma mem_exec_frame {X} (c : store_call X) env m b : mem_inv m → call_bucket c ≠ Some b →
  mem_view (store_exec c env m).2 b = mem_view m b.
Proof.
  intros Hm Hb. destruct (mem_exec_writes c env m Hm) as [->|(b' & e & Hc & -> & _)]; [done|].
  unfold mem_view. rewrite entry_or_default_insert_ne; congruence.
Qed.

Lemma mem_exec_entry {X} (c : store_call X) env m b : mem_inv m → call_bucket c = Some b →
  entry_spec exact c (mem_view m b) (store_exec c env m).1 (mem_view (store_exec c env m).2 b).
Proof.
  intros Hm Hb. unfold store_exec, InMemoryDurableBucketStore.
  destruct c; simpl in Hb; simplify_eq; simpl.
  all: unfold append, claim_archive, claim_cleanup, renew_archive_lease, defer_archive, defer_cleanup,
      begin_archive, publish_archive, delete_hot_bucket, abort_archive, snapshot;
    repeat (case_match; simpl); guards.
  all: rewrite ?mem_view_insert; simpl.
  all: try solve [reflexivity | by left | by split].
  all: try match goal with
    | E : _ !! _ = Some _ |- _ =>
        rewrite ?(mem_view_lookup _ _ _ E), ?(entry_or_default_lookup _ _ _ E)
    end.
  all: unfold observes, eff_append, eff_claim, eff_claim_cleanup, eff_release, eff_publish, eff_delete,
    owns, mem_view; simpl.
  all: try solve [naive_solver].
  - rewrite stored_record_exact. split; [done|]. split_and!; [done..|]. simpl. rewrite sort_by_Permutation. by rewrite Permutation_app_comm.
  - split; [done|]. unfold entry_or_default. by destruct (m !! b).
  - split_and!; [|done..]. zbool. match goal with Hor : (_ || _)%bool = true |- _ => apply orb_prop in Hor as [?|?] end; zbool; auto.
  - split; [|naive_solver]. split_and!; simpl; by try congruence.
  - split; [done|]. rewrite read_range_page by done. unfold routed. simpl.
    destruct (precise_exact range after limit) as (-> & -> & _). destruct (e_state _); naive_solver.
  - right. split; [done|]. exists (mkSession b (uuid env) (generation (entry_or_default m b) + 1)).
    split_and!; auto.
Qed.

(** ** Sequences of calls *)
Lemma run_calls_inv (l : list (invocation Env)) m : mem_inv m → mem_inv (run_calls l m).
Proof. revert m. induction l; intros m Hm; [done|]. apply IHl. by apply mem_exec_inv. Qed.

Lemma mem_exec_generation {X} (c : store_call X) env m b : mem_inv m →
  generation (entry_or_default m b) <= generation (entry_or_default (store_exec c env m).2 b).
Proof.
  intros Hm. change (a_generation (mem_view m b) <= a_generation (mem_view (store_exec c env m).2 b)).
  destruct (decide (call_bucket c = Some b)) as [Hb|Hb]; [|rewrite mem_exec_frame by done; lia].
  pose proof (mem_exec_entry c env m b Hm Hb) as Hspec.
  destruct (store_exec c env m) as [x m']. simpl in *.
  destruct c; simpl in *;
    unfold commits, observes, claims, eff_append, eff_claim, eff_claim_cleanup, eff_release,
      eff_publish, eff_delete in Hspec; case_all;
    repeat match goal with
    | H : _ ∧ _ |- _ => destruct H
    | H : _ ∨ _ |- _ => destruct H
    | H : ∃ _, _ |- _ => destruct H
    | H : _ ≡ _ |- _ => apply a_generation_proper in H
    | o : option ArchiveSession |- _ => destruct o
    end; simpl in *; try lia.
Qed.
Lemma run_calls_generation (l : list (invocation Env)) m b : mem_inv m →
  generation (entry_or_default m b) <= generation (entry_or_default (run_calls l m) b).
Proof.
  revert m. induction l as [|i l IH]; intros m Hm; simpl; [lia|].
  etransitivity; [by apply (mem_exec_generation (inv_call i) (inv_env i))|].
  apply IH. by apply mem_exec_inv.
Qed.

Lemma validate_active_stale e s t : session_generation s < generation e →
  validate_active_session e s t = Err StaleArchiveSession.
Proof.
  intros Hg. destruct (validate_active_session e s t) as [[]|err] eqn:E.
  - apply validate_active_ok in E as (? & _). lia.
  - f_equal. by eapply validate_active_err.
Qed.

Lemma stale_session_rejected {X} (c : store_call X) s env m : presents c = Some s →
  session_generation s < generation (entry_or_default m (session_bucket s)) →
  failed c (store_exec c env m).1 ∧ (store_exec c env m).2 = m.
Proof.
  intros Hc Hg. unfold store_exec, InMemoryDurableBucketStore, entry_or_default in *.
  destruct c; simplify_eq/=;
    unfold renew_archive_lease, defer_archive, defer_cleanup, snapshot, publish_archive,
      delete_hot_bucket, abort_archive, validate_archive_session;
    (destruct (m !! session_bucket s) as [e|]; simpl in Hg; [|by case_all]);
    rewrite ?(validate_active_stale _ _ _ Hg); by repeat case_match.
Qed.

Lemma granted_generation {X} (c : store_call X) env m s : mem_inv m →
  granted c (store_exec c env m).1 = Some s →
  session_generation s = generation (entry_or_default m (session_bucket s)) + 1 ∧
  session_generation s = generation (entry_or_default (store_exec c env m).2 (session_bucket s)).
Proof.
  intros Hm Hs. unfold store_exec, InMemoryDurableBucketStore in *.
  destruct c; simpl in *; try done;
    unfold claim_archive, claim_cleanup, begin_archive in *; repeat case_match; simplify_eq/=; guards;
    rewrite entry_or_default_insert; simpl;
    try match goal with E : _ !! _ = Some _ |- _ => rewrite (entry_or_default_lookup _ _ _ E) end; auto.
Qed.

(** ** Discovery *)
(** The buckets one pass selects, as the sorted list of their identifiers. *)
Definition selected (p : BucketId * DurableBucketEntry → bool) (m : MemState) : list BucketId :=
  sort_by id (map fst (filter (λ x, Is_true (p x)) (map_to_list m))).

Lemma sort_map_work (w : BucketId → ArchiveWork) (l : list BucketId) :
  (∀ b, work_bucket (w b) = b) → sort_by work_bucket (map w l) = map w (sort_by id l).
Proof.
  intros Hw. induction l as [|b l IH]; simpl; [done|]. rewrite IH. clear IH.
  induction (sort_by id l) as [|b' l' IH]; simpl; [done|]. rewrite !Hw.
  unfold id. by case_match; simpl; rewrite ?IH.
Qed.
Lemma discover_selected scan env m : discover_archive_work scan env m =
  Ok (take (Z.to_nat (scan_limit scan))
    (map Cleanup (selected (cleanup_work (now env)) m) ++
     map Cutover (selected (cutover_work (now env) (eligible_before scan)) m))).
Proof.
  unfold discover_archive_work, selected. rewrite <- !sort_map_work, !map_map by done. done.
Qed.
Lemma elem_of_selected p m b : b ∈ selected p m ↔ ∃ e, m !! b = Some e ∧ p (b, e) = true.
Proof.
  unfold selected. rewrite (sort_by_Permutation id). rewrite list_elem_of_fmap. split.
  - intros ([b' e] & -> & [Hp%Is_true_true He%elem_of_map_to_list]%list_elem_of_filter). eauto.
  - intros (e & He & Hp). exists (b, e). split; [done|].
    rewrite list_elem_of_filter, elem_of_map_to_list, Is_true_true. done.
Qed.
Lemma selected_strict p m : strictly_sorted_by id (selected p m).
Proof.
  apply sorted_by_strict; [apply sort_by_sorted|]. rewrite list_fmap_id. unfold selected.
  rewrite (sort_by_Permutation id).
  eapply sublist_NoDup; [apply (NoDup_fst_map_to_list m)|].
  apply fmap_sublist, sublist_filter.
Qed.
Lemma cleanup_work_spec t b e : cleanup_work t (b, e) = true ↔
  attempt_due e t = true ∧ lease_expired e t = true ∧ ∃ k, e_state e = Archived k false.
Proof.
  unfold cleanup_work. simpl. rewrite andb_true_iff.
  destruct (e_state e) as [| |k []]; naive_solver.
Qed.
Lemma cutover_work_spec t cutoff b e : cutover_work t cutoff (b, e) = true ↔
  attempt_due e t = true ∧ end_ b <= cutoff ∧
  (e_state e = Hot ∨ e_state e = Archiving ∧ lease_expired e t = true).
Proof.
  unfold cutover_work. simpl. rewrite andb_true_iff.
  destruct (e_state e); rewrite ?andb_true_iff, ?Z.leb_le; naive_solver.
Qed.

(** A valid lease request on a claimable bucket is granted. *)
Lemma claim_archive_granted b lease env m e : m !! b = Some e → lease ≠ 0 →
  deadline_now env + lease <= INSTANT_MAX → 0 <= generation e < u64_max →
  attempt_due e (now env) = true →
  e_state e = Hot ∨ e_state e = Archiving ∧ lease_expired e (now env) = true →
  (claim_archive b lease env m).1 = Ok (Some (mkSession b (uuid env) (generation e + 1))).
Proof.
  intros Hb Hl Hd Hg Ha Hs. unfold claim_archive, lease_deadline, instant_checked_add, u64_checked_add.
  rewrite (entry_or_default_lookup _ _ _ Hb), (proj2 (Z.eqb_neq _ _) Hl), (proj2 (Z.leb_le _ _) Hd).
  simpl. rewrite Ha. assert ((generation e + 1 <=? u64_max) = true) as -> by (apply Z.leb_le; lia).
  destruct Hs as [->|[-> ->]]; done.
Qed.
Lemma claim_cleanup_granted b lease env m e k : m !! b = Some e → lease ≠ 0 →
  deadline_now env + lease <= INSTANT_MAX → 0 <= generation e < u64_max →
  attempt_due e (now env) = true → lease_expired e (now env) = true → e_state e = Archived k false →
  (claim_cleanup b lease env m).1 = Ok (Some (mkSession b (uuid env) (generation e + 1))).
Proof.
  intros Hb Hl Hd Hg Ha He Hs. unfold claim_cleanup, lease_deadline, instant_checked_add, u64_checked_add.
  rewrite Hb, (proj2 (Z.eqb_neq _ _) Hl), (proj2 (Z.leb_le _ _) Hd).
  simpl. rewrite Ha, He, Hs. assert ((generation e + 1 <=? u64_max) = true) as -> by (apply Z.leb_le; lia).
  done.
Qed.

(** The in-memory store implements the contract; it keeps every record as given. *)
Section mem_laws.
Context `{Chrono}.

Definition mem_canonical (m : MemState) : Prop := map_Forall (λ b _, canonical b) m.

Lemma mem_exec_canonical {X} (c : store_call X) env m : wf_call c → mem_inv m → mem_canonical m →
  mem_canonical (store_exec c env m).2.
Proof.
  intros Hc Hm Hk. destruct (mem_exec_writes c env m Hm) as [->|(b & e & Hb & -> & _)]; [done|].
  destruct Hc as [Hc _]. rewrite Hb in Hc. by apply map_Forall_insert_2.
Qed.
Lemma mem_discover_canonical scan env m ws : mem_canonical m →
  discover_archive_work scan env m = Ok ws → Forall (λ w, canonical (work_bucket w)) ws.
Proof.
  intros Hk. rewrite discover_selected. intros [= <-]. apply Forall_take, Forall_app.
  split; apply Forall_fmap, Forall_forall; intros b (e & He & _)%elem_of_selected; by apply (Hk _ _ He).
Qed.

#[export] Program Instance mem_store_laws : StoreLaws Env MemState := {|
  store_inv := λ m, mem_inv m ∧ mem_canonical m;
  view := mem_view;
  fidelity := exact
|}.
Next Obligation. intros X c env m Hc [Hm Hk]. split; [by apply mem_exec_inv|by apply mem_exec_canonical]. Qed.
Next Obligation. intros X c env m b Hc [Hm Hk] Hb Hne. by rewrite mem_exec_frame. Qed.
Next Obligation. intros X c env m b Hc [Hm Hk]. by apply mem_exec_entry. Qed.
Next Obligation. intros scan env m ws [_ Hk]. by apply mem_discover_canonical. Qed.
End mem_laws.

(** ** Theorems *)

(** C10. The in-memory store implements the trait's contract: every method keeps the store's
    invariant, leaves every other bucket untouched, and relates the named bucket's state
    before, the returned value and the state after as the contract says. *)
Theorem mem_store_refines {X} (c : store_call X) env m b : mem_inv m →
  let '(x, m') := store_exec c env m in
  mem_inv m' ∧
  (call_bucket c = Some b → entry_spec exact c (mem_view m b) x (mem_view m' b)) ∧
  (call_bucket c ≠ Some b → mem_view m' b = mem_view m b).
Proof.
  intros Hm. pose proof (mem_exec_inv c env m Hm). pose proof (mem_exec_entry c env m b Hm).
  pose proof (mem_exec_frame c env m b Hm). by destruct (store_exec c env m).
Qed.

(** The fence: once any claim on a bucket is granted, a session of that bucket granted
    before it fails on every method that takes a session and changes nothing, whatever
    calls all clients make in between and whatever the clocks read. *)
Theorem superseded_session_is_fenced {X Y} (claim : store_call X) env m s s' (l : list (invocation Env))
    (c : store_call Y) env' :
  mem_inv m → granted claim (store_exec claim env m).1 = Some s' →
  session_bucket s = session_bucket s' → session_generation s < session_generation s' →
  presents c = Some s →
  let m' := run_calls l (store_exec claim env m).2 in
  failed c (store_exec c env' m').1 ∧ (store_exec c env' m').2 = m'.
Proof.
  intros Hm Hg Hb Hlt Hc m'. apply stale_session_rejected with s; [done|].
  destruct (granted_generation claim env m s' Hm Hg) as [_ Hg'].
  pose proof (run_calls_generation l (store_exec claim env m).2 (session_bucket s')
    (mem_exec_inv claim env m Hm)). unfold m'. rewrite Hb. lia.
Qed.

(** A lease is exclusive while it lasts and transferable once it expires: no method grants
    a session on a bucket whose unexpired lease another worker holds, and after expiry a
    well-formed claim on the interrupted cutover, or on the pending cleanup, is granted with
    the next generation. *)
Theorem lease_exclusive_then_transferable {X} (c : store_call X) env m b e lease :
  m !! b = Some e → call_bucket c = Some b → e_state e ≠ Hot → lease ≠ 0 →
  deadline_now env + lease <= INSTANT_MAX → 0 <= generation e < u64_max →
  (lease_expired e (now env) = false → granted c (store_exec c env m).1 = None) ∧
  (lease_expired e (now env) = true → attempt_due e (now env) = true →
     let s := mkSession b (uuid env) (generation e + 1) in
     (e_state e = Archiving → (claim_archive b lease env m).1 = Ok (Some s)) ∧
     (∀ k, e_state e = Archived k false → (claim_cleanup b lease env m).1 = Ok (Some s))).
Proof.
  intros Hb Hc Hh Hl Hd Hg. split.
  - intros He. unfold store_exec, InMemoryDurableBucketStore.
    destruct c; simplify_eq/=; try done; unfold claim_archive, claim_cleanup, begin_archive;
      rewrite ?Hb, ?(entry_or_default_lookup _ _ _ Hb), ?He, ?andb_false_r, ?orb_false_r;
      rewrite ?(bool_decide_eq_false_2 _ Hh), ?andb_false_r; simpl; by case_all.
  - intros He Ha. split; intros.
    + apply claim_archive_granted; auto.
    + eapply claim_cleanup_granted; eauto.
Qed.

(** Discovery is exact, ordered and bounded: the work list is the first [limit] of the
    pending cleanups followed by the eligible cutovers, each in strictly increasing bucket
    order, where a bucket is a cleanup exactly when it is published, not yet deleted, due
    and unowned, and a cutover exactly when it ends by the cutoff, is due, and is hot or
    abandoned; and every listed item can be claimed at that instant. *)
Theorem discovery_exact scan env m ws :
  discover_archive_work scan env m = Ok ws →
  ∃ cleanup cutover,
    ws = take (Z.to_nat (scan_limit scan)) (map Cleanup cleanup ++ map Cutover cutover) ∧
    strictly_sorted_by id cleanup ∧ strictly_sorted_by id cutover ∧
    (∀ b, b ∈ cleanup ↔ ∃ e k, m !! b = Some e ∧ e_state e = Archived k false ∧
       attempt_due e (now env) = true ∧ lease_expired e (now env) = true) ∧
    (∀ b, b ∈ cutover ↔ ∃ e, m !! b = Some e ∧ end_ b <= eligible_before scan ∧
       attempt_due e (now env) = true ∧
       (e_state e = Hot ∨ e_state e = Archiving ∧ lease_expired e (now env) = true)) ∧
    (∀ w lease, w ∈ ws → lease ≠ 0 → deadline_now env + lease <= INSTANT_MAX →
       0 <= generation (entry_or_default m (work_bucket w)) < u64_max →
       ∃ s, match w with
            | Cleanup b => (claim_cleanup b lease env m).1
            | Cutover b => (claim_archive b lease env m).1
            end = Ok (Some s)).
Proof.
  rewrite discover_selected. intros [= <-].
  exists (selected (cleanup_work (now env)) m), (selected (cutover_work (now env) (eligible_before scan)) m).
  split_and!; [done|apply selected_strict..| | |].
  - intros b. rewrite elem_of_selected. setoid_rewrite cleanup_work_spec. naive_solver.
  - intros b. rewrite elem_of_selected. setoid_rewrite cutover_work_spec. naive_solver.
  - intros w lease Hw Hl Hd Hg. apply elem_of_take in Hw as (i & Hw%list_elem_of_lookup_2 & _). apply elem_of_app in Hw.
    rewrite !list_elem_of_fmap in Hw.
    destruct Hw as [(b & -> & Hb)|(b & -> & Hb)]; apply elem_of_selected in Hb as (e & He & Hp);
      simpl in Hg; rewrite (entry_or_default_lookup _ _ _ He) in Hg.
    + apply cleanup_work_spec in Hp as (? & ? & k & ?). eexists. by eapply claim_cleanup_granted.
    + apply cutover_work_spec in Hp as (? & ? & ?). eexists. by apply claim_archive_granted.
Qed.

(** Appending: a hot bucket accepts the record and keeps its vector sorted, the record
    going after every record whose clustering key is not greater (so records with equal
    keys stay in arrival order); any other bucket rejects it, naming its state, and keeps
    its contents. *)
Theorem append_behaviour b r m : mem_inv m →
  let e := entry_or_default m b in let '(res, m') := append b r m in
  (e_state e = Hot → res = Ok tt ∧ records (entry_or_default m' b) =
     filter (λ x, Is_true (leb (clustering x) (clustering r))) (records e) ++
     r :: filter (λ x, Is_true (ltb (clustering r) (clustering x))) (records e)) ∧
  (e_state e ≠ Hot → res = Err (BucketReadOnly (e_state e)) ∧ entry_or_default m' b = e).
Proof.
  intros Hm e. unfold append. fold e.
  pose proof (ok_sorted e (entry_or_default_ok m b Hm)) as Hs.
  case_bool_decide; simpl; split; try done; intros; rewrite entry_or_default_insert; simpl; [|done].
  split; [done|]. by apply sort_by_snoc.
Qed.
