(* ===== verification/Paths.v ===== *)
(** Object names (src/ports/storage.rs, [partition_key_path_component] and the [format!]
    strings of the in-memory archive): the hexadecimal path component of a partition
    key, and the lemmas that make slash-separated names injective when the components
    after a free-form prefix contain no slash. *)
From S2P Require Import Prelude Chrono Model.
Local Open Scope Z_scope.

(** ** Definitions *)
Definition HEX : string := "0123456789abcdef".
Definition hex_digit (n : N) : ascii := default zero (String.get (N.to_nat n) HEX).

Fixpoint partition_key_path_component (partition_key : list byte) : string :=
  match partition_key with
  | [] => ""
  | byte :: rest =>
      String (hex_digit (N.shiftr (Byte.to_N byte) 4))
        (String (hex_digit (N.land (Byte.to_N byte) 15)) (partition_key_path_component rest))
  end.

(** [{}] of an unsigned integer. *)
Definition fmt_u64 (z : Z) : string := pretty (Z.to_N z).

Definition slash_free (s : string) : Prop := "/"%char ∉ String.list_ascii_of_string s.

(** ** Slash-free components *)
Lemma list_ascii_app s t : String.list_ascii_of_string (s +:+ t) =
  String.list_ascii_of_string s ++ String.list_ascii_of_string t.
Proof. induction s as [|a s IH]; simpl; [done|]. by rewrite <- IH. Qed.

Lemma slash_free_app s t : slash_free (s +:+ t) ↔ slash_free s ∧ slash_free t.
Proof. unfold slash_free. rewrite list_ascii_app, elem_of_app. naive_solver. Qed.
Lemma slash_free_cons a s : a ≠ "/"%char → slash_free s → slash_free (String a s).
Proof. unfold slash_free. simpl. rewrite elem_of_cons. naive_solver. Qed.
Lemma slash_free_nil : slash_free "".
Proof. apply not_elem_of_nil. Qed.

Lemma pretty_char_not_slash x : pretty_N_char x ≠ "/"%char.
Proof. unfold pretty_N_char. by repeat case_match. Qed.
Lemma slash_free_pretty_go (x : N) s : slash_free s → slash_free (pretty_N_go x s).
Proof.
  revert s. induction (N.lt_wf_0 x) as [x _ IH]; intros s Hs.
  assert (x = 0 ∨ 0 < x)%N as [->|Hx] by lia; [by rewrite pretty_N_go_0|].
  rewrite pretty_N_go_step by done. apply IH; [by apply N.div_lt|].
  apply slash_free_cons; [apply pretty_char_not_slash|done].
Qed.
Lemma slash_free_pretty (x : N) : slash_free (pretty x).
Proof.
  unfold pretty, pretty_N. case_decide; [by apply slash_free_cons, slash_free_nil|].
  apply slash_free_pretty_go, slash_free_nil.
Qed.
Lemma slash_free_zeros n : slash_free (zeros n).
Proof. induction n; [apply slash_free_nil|]. by apply slash_free_cons. Qed.
Lemma slash_free_zero_pad w x : slash_free (zero_pad w (pretty (x : N))).
Proof. apply slash_free_app. split; [apply slash_free_zeros|apply slash_free_pretty]. Qed.
Lemma slash_free_fmt w z : slash_free (fmt_width w z).
Proof.
  unfold fmt_width. case_match; [|apply slash_free_zero_pad].
  apply slash_free_app. split; [by apply slash_free_cons, slash_free_nil|apply slash_free_zero_pad].
Qed.
#[export] Hint Resolve slash_free_nil slash_free_pretty slash_free_fmt : pulpitum.

Lemma hex_digit_cases n : (n < 16)%N → ∃ c, hex_digit n = c ∧ c ≠ "/"%char.
Proof.
  intros Hn. unfold hex_digit. assert (N.to_nat n < 16)%nat as Hm by lia.
  exists (default zero (String.get (N.to_nat n) HEX)). split; [done|].
  revert Hm. generalize (N.to_nat n) as i. intros i Hi. do 16 (destruct i as [|i]; [done|]). lia.
Qed.
Lemma hex_digit_inj n m : (n < 16)%N → (m < 16)%N → hex_digit n = hex_digit m → n = m.
Proof.
  intros Hn Hm E. apply N2Nat.inj. unfold hex_digit in E.
  assert (N.to_nat n < 16)%nat as Hn' by lia. assert (N.to_nat m < 16)%nat as Hm' by lia.
  revert E Hn' Hm'. generalize (N.to_nat n) as i, (N.to_nat m) as j. intros i j E Hi Hj.
  do 16 (destruct i as [|i]; [do 16 (destruct j as [|j]; [done|]; try (by lia)); lia|]). lia.
Qed.

Lemma byte_nibbles b : (N.shiftr (Byte.to_N b) 4 < 16)%N ∧ (N.land (Byte.to_N b) 15 < 16)%N ∧
  Byte.to_N b = (16 * N.shiftr (Byte.to_N b) 4 + N.land (Byte.to_N b) 15)%N.
Proof. by destruct b. Qed.

Lemma slash_free_hex l : slash_free (partition_key_path_component l).
Proof.
  induction l as [|b l IH]; simpl; [apply slash_free_nil|].
  destruct (byte_nibbles b) as (Hh & Hl & _).
  destruct (hex_digit_cases _ Hh) as (? & -> & ?), (hex_digit_cases _ Hl) as (? & -> & ?).
  by repeat apply slash_free_cons.
Qed.
Lemma partition_key_path_component_inj l l' :
  partition_key_path_component l = partition_key_path_component l' → l = l'.
Proof.
  revert l'. induction l as [|b l IH]; intros [|b' l']; simpl; try done. intros [= Eh El E].
  destruct (byte_nibbles b) as (Hh & Hl & Eb), (byte_nibbles b') as (Hh' & Hl' & Eb').
  apply hex_digit_inj in Eh, El; [|done..]. f_equal; [|by apply IH].
  apply (inj Byte.to_N). rewrite Eb, Eb'. by rewrite Eh, El.
Qed.

(** ** Splitting a name at its last slash *)
Lemma split_first {A} (x : A) l1 l2 r1 r2 : x ∉ l1 → x ∉ l2 → l1 ++ x :: r1 = l2 ++ x :: r2 →
  l1 = l2 ∧ r1 = r2.
Proof.
  revert l2. induction l1 as [|y l1 IH]; intros [|z l2] H1 H2 E; simplify_eq/=; try done.
  - set_solver.
  - set_solver.
  - destruct (IH l2) as [-> ->]; set_solver.
Qed.
Lemma last_slash_inj s1 s2 t1 t2 : slash_free t1 → slash_free t2 →
  s1 +:+ "/" +:+ t1 = s2 +:+ "/" +:+ t2 → s1 = s2 ∧ t1 = t2.
Proof.
  unfold slash_free. intros H1 H2 E. apply (f_equal String.list_ascii_of_string) in E.
  rewrite !list_ascii_app in E. simpl in E. apply (f_equal (@rev ascii)) in E.
  rewrite !rev_app_distr in E. simpl in E. rewrite <- !app_assoc in E. simpl in E.
  apply split_first in E as [E1 E2]; [|by rewrite list_elem_of_In, <- in_rev, <- list_elem_of_In..].
  apply (f_equal (@rev ascii)) in E1, E2. rewrite !rev_involutive in E1, E2.
  split; by apply (inj String.list_ascii_of_string).
Qed.

Lemma fmt_u64_inj x y : 0 <= x → 0 <= y → fmt_u64 x = fmt_u64 y → x = y.
Proof.
  unfold fmt_u64. intros Hx Hy E. apply (f_equal decimal_value) in E.
  rewrite !decimal_value_pretty in E. lia.
Qed.

Lemma canonical_key_slash_free `{ChronoLaws} b : canonical b → slash_free (key b).
Proof.
  intros (t & _ & E). destruct (for_event_time_fields _ _ _ _ _ E) as (_ & _ & _ & ->).
  unfold bucket_key_text. destruct (strategy b);
    repeat (apply slash_free_app; split; auto with pulpitum);
    repeat (apply slash_free_cons; [done|]); auto with pulpitum.
Qed.
