(* ===== verification/Text.v ===== *)
(** The [str] methods of the standard library that the configuration parsers and the object
    names use: [trim], [trim_matches] of one character, [to_ascii_lowercase], [starts_with],
    [strip_prefix], [strip_suffix], [rsplit(c).next()] and [is_ascii_hexdigit], on strings as
    UTF-8 bytes, with the lemmas the components share. *)
From Stdlib Require Import ZifyBool ZifyN.
From S2P Require Import Prelude Chrono Model Paths.
Local Open Scope Z_scope.

(** ** Trimming *)
Fixpoint trim_start_fuel (fuel : nat) (s : string) : string :=
  match fuel with
  | O => s
  | S fuel => match strip_white_space s with Some s' => trim_start_fuel fuel s' | None => s end
  end.
Definition trim_start (s : string) : string := trim_start_fuel (String.length s) s.

(** The longest white-space suffix is dropped. A suffix that starts inside a character is
    never white space, because no white-space character starts with a continuation byte. *)
Fixpoint trim_end (s : string) : string :=
  if is_blank s then ""
  else match s with EmptyString => "" | String a s' => String a (trim_end s') end.
Definition trim (s : string) : string := trim_end (trim_start s).

(** [trim_matches(c)] for an ASCII character. *)
Fixpoint trim_start_char (c : ascii) (s : string) : string :=
  match s with
  | String a s' => if decide (a = c) then trim_start_char c s' else s
  | EmptyString => ""
  end.
Fixpoint all_char (c : ascii) (s : string) : bool :=
  match s with EmptyString => true | String a s' => bool_decide (a = c) && all_char c s' end.
Fixpoint trim_end_char (c : ascii) (s : string) : string :=
  if all_char c s then ""
  else match s with EmptyString => "" | String a s' => String a (trim_end_char c s') end.
Definition trim_matches (c : ascii) (s : string) : string := trim_end_char c (trim_start_char c s).

(** ** Case and affixes *)
Definition ascii_lower (a : ascii) : ascii :=
  let n := N_of_ascii a in if ((65 <=? n) && (n <=? 90))%N then ascii_of_N (n + 32) else a.
Fixpoint to_ascii_lowercase (s : string) : string :=
  match s with EmptyString => "" | String a s' => String (ascii_lower a) (to_ascii_lowercase s') end.

Fixpoint strip_prefix (p s : string) : option string :=
  match p, s with
  | EmptyString, _ => Some s
  | String a p', String b s' => if decide (a = b) then strip_prefix p' s' else None
  | String _ _, EmptyString => None
  end.
Definition starts_with (p s : string) : bool :=
  match strip_prefix p s with Some _ => true | None => false end.
Fixpoint strip_suffix (q s : string) : option string :=
  if decide (s = q) then Some ""
  else match s with EmptyString => None | String a s' => String a <$> strip_suffix q s' end.

Fixpoint has_char (c : ascii) (s : string) : bool :=
  match s with EmptyString => false | String a s' => bool_decide (a = c) || has_char c s' end.
(** [rsplit(c).next()]: what follows the last [c], or the whole string. *)
Fixpoint rsplit_next (c : ascii) (s : string) : string :=
  match s with
  | EmptyString => ""
  | String a s' => if has_char c s' then rsplit_next c s' else if decide (a = c) then s' else s
  end.

Definition is_ascii_hexdigit (a : ascii) : bool :=
  let n := N_of_ascii a in
  ((48 <=? n) && (n <=? 57) || (65 <=? n) && (n <=? 70) || (97 <=? n) && (n <=? 102))%N.
Fixpoint all_chars (p : ascii → bool) (s : string) : bool :=
  match s with EmptyString => true | String a s' => p a && all_chars p s' end.

(** ** UTF-8 *)
(** [str::from_utf8] accepts exactly the byte sequences of the Unicode standard's table of
    well-formed sequences. *)
Definition in_bytes (lo hi : N) (b : byte) : bool := ((lo <=? Byte.to_N b) && (Byte.to_N b <=? hi))%N.
Definition is_continuation (b : byte) : bool := in_bytes 128 191 b.
Definition three_byte_lead (b0 b1 : byte) : bool :=
  in_bytes 224 224 b0 && in_bytes 160 191 b1 || in_bytes 225 236 b0 && is_continuation b1
  || in_bytes 237 237 b0 && in_bytes 128 159 b1 || in_bytes 238 239 b0 && is_continuation b1.
Definition four_byte_lead (b0 b1 : byte) : bool :=
  in_bytes 240 240 b0 && in_bytes 144 191 b1 || in_bytes 241 243 b0 && is_continuation b1
  || in_bytes 244 244 b0 && in_bytes 128 143 b1.
Fixpoint valid_utf8 (l : list byte) : bool :=
  match l with
  | [] => true
  | b0 :: l =>
      if in_bytes 0 127 b0 then valid_utf8 l
      else match l with
      | [] => false
      | b1 :: l =>
          if in_bytes 194 223 b0 then is_continuation b1 && valid_utf8 l
          else match l with
          | [] => false
          | b2 :: l =>
              if three_byte_lead b0 b1 then is_continuation b2 && valid_utf8 l
              else match l with
              | [] => false
              | b3 :: l => four_byte_lead b0 b1 && is_continuation b2 && is_continuation b3 && valid_utf8 l
              end
          end
      end
  end.
Definition from_utf8 (l : list byte) : option string :=
  if valid_utf8 l then Some (String.string_of_list_byte l) else None.
(** [PartitionKey::as_utf8] and [SortKey::as_utf8]. *)
Definition as_utf8 (key : list byte) : option string := from_utf8 key.
(** What Rust guarantees of a [str]. *)
Definition is_str (s : string) : Prop := valid_utf8 (string_bytes s) = true.

Example utf8_euro : valid_utf8 [xe2; x82; xac]%byte = true.
Proof. reflexivity. Qed.
Example utf8_surrogate : valid_utf8 [xed; xa0; x80]%byte = false.
Proof. reflexivity. Qed.

(** ** Lemmas *)
Lemma from_utf8_bytes s : is_str s → from_utf8 (string_bytes s) = Some s.
Proof. unfold from_utf8, is_str. intros ->. f_equal. apply String.string_of_list_byte_of_string. Qed.
Lemma from_utf8_Some l s : from_utf8 l = Some s → l = string_bytes s ∧ is_str s.
Proof.
  unfold from_utf8, is_str. destruct (valid_utf8 l) eqn:E; [|done]. intros [= <-].
  unfold string_bytes. by rewrite String.list_byte_of_string_of_list_byte.
Qed.
Lemma strip_prefix_app p s : strip_prefix p (p +:+ s) = Some s.
Proof. induction p as [|a p IH]; simpl; [done|]. by rewrite decide_True. Qed.
Lemma strip_prefix_Some p s s' : strip_prefix p s = Some s' → s = p +:+ s'.
Proof.
  revert s. induction p as [|a p IH]; intros s E; simpl in E; [by simplify_eq|].
  destruct s as [|b s]; [done|]. destruct (decide (a = b)) as [->|]; [|done]. by rewrite (IH _ E).
Qed.
Lemma strip_suffix_app q s : strip_suffix q (s +:+ q) = Some s.
Proof.
  induction s as [|a s IH]; simpl.
  - destruct q; simpl; [done|]. by rewrite decide_True.
  - rewrite IH, decide_False; [done|]. intros E. apply (f_equal String.length) in E.
    simpl in E. rewrite string_length_app in E. lia.
Qed.

Lemma has_char_app c s t : has_char c (s +:+ t) = has_char c s || has_char c t.
Proof. induction s as [|a s IH]; simpl; [done|]. by rewrite IH, orb_assoc. Qed.
Lemma has_slash_false s : has_char "/" s = false ↔ slash_free s.
Proof.
  unfold slash_free. induction s as [|a s IH]; simpl; [set_solver|].
  rewrite orb_false_iff, IH, bool_decide_eq_false, elem_of_cons. naive_solver.
Qed.
Lemma rsplit_next_id c s : has_char c s = false → rsplit_next c s = s.
Proof.
  destruct s as [|a s]; simpl; [done|]. intros [Ha Hs]%orb_false_iff. rewrite Hs.
  apply bool_decide_eq_false in Ha. by rewrite decide_False.
Qed.
Lemma rsplit_next_app c s t : has_char c t = false → rsplit_next c (s +:+ String c t) = t.
Proof.
  intros Ht. induction s as [|a s IH]; simpl; [by rewrite Ht, decide_True|].
  rewrite has_char_app. simpl. by rewrite bool_decide_eq_true_2, orb_true_r.
Qed.

Lemma strip_white_space_length s s' : strip_white_space s = Some s' → (String.length s' < String.length s)%nat.
Proof. unfold strip_white_space. intros E. repeat case_match; simplify_eq/=; lia. Qed.
Lemma strip_white_space_app s s' t : strip_white_space s = Some s' → strip_white_space (s +:+ t) = Some (s' +:+ t).
Proof.
  unfold strip_white_space. destruct s as [|a [|b [|c s]]]; simpl; intros E; repeat case_match; simplify_eq/=; done.
Qed.

(** No white-space character has a byte of an ASCII letter. *)
Definition is_letter (a : ascii) : bool :=
  let n := N_of_ascii a in ((65 <=? n) && (n <=? 90) || (97 <=? n) && (n <=? 122))%N.

Lemma strip_white_space_split s s' : strip_white_space s = Some s' →
  ∃ w, s = w +:+ s' ∧ all_chars (λ a, negb (is_letter a)) w = true.
Proof.
  unfold strip_white_space, is_letter, byte_at.
  destruct s as [|a [|b [|c s]]]; simpl; intros E; repeat case_match; simplify_eq/=;
    first [exists (String a ""); split; [reflexivity|]
          |exists (String a (String b "")); split; [reflexivity|]
          |exists (String a (String b (String c ""))); split; [reflexivity|]]; simpl; lia.
Qed.
Lemma all_chars_app p s t : all_chars p (s +:+ t) = all_chars p s && all_chars p t.
Proof. induction s as [|a s IH]; simpl; [done|]. by rewrite IH, andb_assoc. Qed.
Lemma blank_no_letter s : is_blank s = true → all_chars (λ a, negb (is_letter a)) s = true.
Proof.
  unfold is_blank. generalize (String.length s) as n. intros n. revert s.
  induction n as [|n IH]; intros s; [by destruct s|]. destruct s as [|a s]; [done|]. cbn [blank_fuel].
  destruct (strip_white_space (String a s)) as [s'|] eqn:E; [|done]. intros Hb.
  apply strip_white_space_split in E as (w & -> & Hw). by rewrite all_chars_app, Hw, IH.
Qed.
Lemma letter_not_white a s : is_letter a = true → strip_white_space (String a s) = None.
Proof.
  unfold is_letter, strip_white_space, byte_at. intros Ha.
  repeat case_match; simplify_eq/=; try done; lia.
Qed.
Lemma trim_start_blank n w t m : blank_fuel n w = true → strip_white_space t = None →
  (String.length w <= m)%nat → trim_start_fuel m (w +:+ t) = t.
Proof.
  intros Hb Ht. revert w m Hb. induction n as [|n IH]; intros w m Hb Hm.
  { destruct w; [|done]. change (trim_start_fuel m t = t). destruct m; cbn [trim_start_fuel]; [done|]. by rewrite Ht. }
  destruct w as [|a w].
  { change (trim_start_fuel m t = t). destruct m; cbn [trim_start_fuel]; [done|]. by rewrite Ht. } cbn [blank_fuel] in Hb.
  destruct m as [|m]; [simpl in Hm; lia|]. cbn [trim_start_fuel].
  destruct (strip_white_space (String a w)) as [w'|] eqn:E; [|done].
  rewrite (strip_white_space_app _ _ _ E). apply IH; [done|].
  apply strip_white_space_length in E. lia.
Qed.
Lemma trim_end_blank s w : all_chars is_letter s = true → is_blank w = true → trim_end (s +:+ w) = s.
Proof.
  intros Hs Hw. induction s as [|a s IH].
  { change (trim_end w = ""). destruct w; [done|]. cbn [trim_end]. by rewrite Hw. }
  simpl in Hs. apply andb_prop in Hs as [Ha Hs]. change (String a s +:+ w) with (String a (s +:+ w)).
  cbn [trim_end]. destruct (is_blank (String a (s +:+ w))) eqn:Hb; [|by rewrite IH].
  apply blank_no_letter in Hb. simpl in Hb. by rewrite Ha in Hb.
Qed.
(** Letters between white space are all that [trim] keeps. *)
Lemma trim_letters w s w' : is_blank w = true → is_blank w' = true → s ≠ "" →
  all_chars is_letter s = true → trim (w +:+ s +:+ w') = s.
Proof.
  intros Hw Hw' Hs Hl. unfold trim, trim_start. rewrite (trim_start_blank (String.length w)); [by apply trim_end_blank|done| |].
  - destruct s as [|a s]; [done|]. cbn [all_chars] in Hl. apply andb_prop in Hl as [Hl _].
    apply letter_not_white. done.
  - rewrite string_length_app. lia.
Qed.

(** [trim_matches(c)] leaves no [c] at either end, and only removes. *)
Lemma trim_start_char_head c s s' : trim_start_char c s ≠ String c s'.
Proof.
  induction s as [|a s IH]; simpl; [done|]. destruct (decide (a = c)); [done|]. intros [= -> _]. done.
Qed.
Lemma trim_end_char_head c s a s' : trim_end_char c s = String a s' → ∃ s'', s = String a s''.
Proof. destruct s as [|b s]; simpl; [done|]. case_match; [done|]. intros [= -> _]. eauto. Qed.
Lemma all_char_snoc c s : all_char c (s +:+ String c "") = all_char c s.
Proof. induction s as [|a s IH]; simpl; [by rewrite bool_decide_eq_true_2|]. by rewrite IH. Qed.
Lemma trim_end_char_nil c s : trim_end_char c s = "" → all_char c s = true.
Proof. destruct s as [|a s]; [done|]. cbn [trim_end_char]. by case_match. Qed.
Lemma trim_end_char_last c s s' : trim_end_char c s ≠ s' +:+ String c "".
Proof.
  revert s'. induction s as [|a s IH]; intros s'; cbn [trim_end_char]; [by destruct s'|].
  destruct (all_char c (String a s)) eqn:Ha; [by destruct s'|]. destruct s' as [|b s'].
  - intros [= -> E%trim_end_char_nil]. cbn [all_char] in Ha. by rewrite bool_decide_eq_true_2, E in Ha.
  - intros [= _ E]. by apply (IH s').
Qed.
Lemma trim_matches_ends c s : (∀ t, trim_matches c s ≠ String c t) ∧ (∀ t, trim_matches c s ≠ t +:+ String c "").
Proof.
  split; intros t E; [|by apply trim_end_char_last in E].
  apply trim_end_char_head in E as [t' E]. by apply trim_start_char_head in E.
Qed.
