(* ===== verification/ArchiveFormat.v ===== *)
(** What an archive object holds (src/adapters/opendal_store.rs): the payload formats with
    their codecs, the record checks, the manifest that describes a payload, and the S3
    configuration of the store that keeps them.

    serde_json, the Parquet writer and reader and SHA-256 are third-party: [SerdeJson] and
    [Parquet] name the calls the code makes of them, [SerdeJsonLaws] and [ParquetLaws] what their
    documentation promises (what was written reads back). *)
From S2P Require Import Prelude Chrono Model Storage Paths Text.
Local Open Scope Z_scope.

(** ** Formats *)
Inductive ArchiveFormat := Json | Parquet_.

#[export] Instance ArchiveFormat_eq_dec : EqDecision ArchiveFormat.
Proof. solve_decision. Defined.

Definition format_default : ArchiveFormat := Json.
Definition extension (f : ArchiveFormat) : string :=
  match f with Json => "json" | Parquet_ => "parquet" end.
(** [Display]. *)
Definition format_to_string (f : ArchiveFormat) : string :=
  match f with Json => "json" | Parquet_ => "parquet" end.

Inductive ArchiveFormatParseError := UnsupportedFormat (value : string).

Definition format_from_str (value : string) : Result ArchiveFormatParseError ArchiveFormat :=
  let text := to_ascii_lowercase (trim value) in
  if decide (text = "json") then Ok Json
  else if decide (text = "parquet") then Ok Parquet_
  else Err (UnsupportedFormat value).

(** ** Manifests *)
Definition ARCHIVE_MANIFEST_VERSION : Z := 4.
Definition RECORD_SCHEMA_VERSION : Z := 2.
Definition PARQUET_ROW_GROUP_SIZE : Z := 16 * 1024.
Definition PARQUET_READ_BATCH_SIZE : Z := 1024.
Definition DEFAULT_OPERATION_TIMEOUT : Z := 30 * 1000000000.

Record ArchiveManifest := mkManifest {
  man_version : Z;
  man_format : ArchiveFormat;
  schema_version : Z;
  man_bucket : BucketId;
  man_generation : option Z;
  payload_key : string;
  record_count : Z;
  payload_bytes : Z;
  man_sha256 : string;
  clustering_key : list string
}.

#[export] Instance ArchiveManifest_eq_dec : EqDecision ArchiveManifest.
Proof. solve_decision. Defined.

(** [u64::try_from] of a length. *)
Definition u64_try_from (n : nat) (message : string) : Result StoreError Z :=
  if Z.of_nat n <=? u64_max then Ok (Z.of_nat n) else Err (Other message).

(** ** Arrow batches *)
Inductive TimeUnit := Second | Millisecond | Microsecond | Nanosecond.
Inductive DataType :=
  | Binary
  | Timestamp (unit : TimeUnit) (tz : option string)
  | OtherDataType (name : string).
Record Field := mkField {
  field_name : string;
  data_type : DataType;
  nullable : bool;
  metadata : list (string * string)
}.
#[export] Instance TimeUnit_eq_dec : EqDecision TimeUnit.
Proof. solve_decision. Defined.
#[export] Instance DataType_eq_dec : EqDecision DataType.
Proof. solve_decision. Defined.
#[export] Instance Field_eq_dec : EqDecision Field.
Proof. solve_decision. Defined.

(** An array is its cells, [None] a null. *)
Inductive Column :=
  | BinaryArray (cells : list (option (list byte)))
  | TimestampNanosecondArray (tz : option string) (cells : list (option Z))
  | OtherArray (len : nat).
(** A batch pairs every field of its schema with its column; all columns have [num_rows] rows. *)
Record RecordBatch := mkBatch { batch_columns : list (Field * Column); num_rows : nat }.

Definition archive_schema : list Field := [
  mkField "partition_key" Binary false [];
  mkField "event_time" (Timestamp Nanosecond (Some "UTC")) false [];
  mkField "sort_key" Binary false [];
  mkField "value" Binary false [] ].

(** The properties the writer is given: the compression level and the row-group size. *)
Record WriterProperties := mkProperties { zstd_level : Z; max_row_group_row_count : Z }.

(** ** The third-party codecs *)
Class SerdeJson := {
  records_to_vec : list Record_ → Result string (list byte);
  records_from_slice : list byte → Result string (list Record_);
  manifest_to_vec : ArchiveManifest → Result string (list byte);
  manifest_from_slice : list byte → Result string ArchiveManifest
}.
Class Parquet := {
  (** [RecordBatch::try_new] of a schema and its columns. *)
  batch_try_new : list Field → list Column → Result string RecordBatch;
  (** [ZstdLevel::try_new]. *)
  zstd_level_try_new : Z → Result string Z;
  (** [ArrowWriter::try_new], [write] of one batch, and [close]. *)
  arrow_write : list Field → WriterProperties → RecordBatch → Result string (list byte);
  (** The reader of a body with a batch size: the batches it yields. *)
  arrow_read : list byte → Z → Result string (list (Result string RecordBatch))
}.

(** A row range of a batch. *)
Definition slice_column (offset len : nat) (c : Column) : Column :=
  match c with
  | BinaryArray cells => BinaryArray (take len (drop offset cells))
  | TimestampNanosecondArray tz cells => TimestampNanosecondArray tz (take len (drop offset cells))
  | OtherArray _ => OtherArray len
  end.
Definition slice_batch (offset len : nat) (b : RecordBatch) : RecordBatch :=
  mkBatch (prod_map id (slice_column offset len) <$> batch_columns b) len.
(** The batch cut into consecutive row ranges of the given lengths. *)
Fixpoint chunks (offset : nat) (lens : list nat) (b : RecordBatch) : list RecordBatch :=
  match lens with
  | [] => []
  | len :: lens => slice_batch offset len b :: chunks (offset + len) lens b
  end.

Definition column_length (c : Column) : nat :=
  match c with BinaryArray cells => length cells | TimestampNanosecondArray _ cells => length cells | OtherArray n => n end.

Class SerdeJsonLaws `{SerdeJson} : Prop := {
  records_json : ∀ rs body, records_to_vec rs = Ok body → records_from_slice body = Ok rs;
  manifest_json : ∀ m body, manifest_to_vec m = Ok body → manifest_from_slice body = Ok m;
  (** No [Vec<u8>] is longer than the address space. *)
  manifest_length : ∀ m body, manifest_to_vec m = Ok body → Z.of_nat (length body) <= usize_max;
  (** An array of record objects is not a manifest. *)
  records_not_manifest : ∀ rs body, records_to_vec rs = Ok body → is_ok (manifest_from_slice body) = false
}.
Class ParquetLaws `{SerdeJson} `{Parquet} : Prop := {
  batch_try_new_ok : ∀ fields columns batch, batch_try_new fields columns = Ok batch →
    batch_columns batch = zip fields columns ∧ Forall (λ c, column_length c = num_rows batch) columns;
  (** A file reads back as the written rows, in order, cut into batches of the same schema. *)
  arrow_round_trip : ∀ fields properties batch body n, arrow_write fields properties batch = Ok body →
    (batch_columns batch).*1 = fields → 0 < n →
    ∃ lens, sum_list lens = num_rows batch ∧ arrow_read body n = Ok (Ok <$> chunks 0 lens batch);
  (** A Parquet file starts with its magic number and is not JSON. *)
  parquet_not_manifest : ∀ fields properties batch body, arrow_write fields properties batch = Ok body →
    is_ok (manifest_from_slice body) = false
}.

(** [{byte:02x}] *)
Definition fmt_02x (b : byte) : string :=
  String (hex_digit (Byte.to_N b / 16)) (String (hex_digit (Byte.to_N b mod 16)) "").
Definition encode_path_segment (value : list byte) : string := foldr String.append "" (fmt_02x <$> value).

(** ** Record checks *)
Fixpoint any_window {A} (p : A → A → bool) (l : list A) : bool :=
  match l with
  | x :: (y :: _) as l' => p x y || any_window p l'
  | _ => false
  end.
Definition validate_records (b : BucketId) (rs : list Record_) : Result StoreError unit :=
  if existsb (λ r, negb (bool_decide (r_partition_key r = partition_key b))
                   || negb (bucket_contains b (event_time r))) rs
  then Err (Other "archive records do not all belong to the requested bucket")
  else if any_window (λ x y, ltb (clustering y) (clustering x)) rs
  then Err (Other "archive records are not sorted by event time and sort key")
  else Ok tt.

Section formats.
Context `{SerdeJson} `{Parquet}.

(** ** Parquet *)
Definition parquet_error (what : string) (e : string) : StoreError := Other (what +:+ e).

Fixpoint event_times (rs : list Record_) : Result StoreError (list Z) :=
  match rs with
  | [] => Ok []
  | r :: rs =>
      t ← ok_or (timestamp_nanos_opt (event_time r))
            (Other "archive event time cannot be represented as nanoseconds");
      ts ← event_times rs; Ok (t :: ts)
  end.

Definition serialize_parquet (rs : list Record_) : Result StoreError (list byte) :=
  ts ← event_times rs;
  batch ← map_err (parquet_error "archive parquet serialization: ") (batch_try_new archive_schema [
    BinaryArray (Some <$> (r_partition_key <$> rs));
    TimestampNanosecondArray (Some "UTC") (Some <$> ts);
    BinaryArray (Some <$> (sort_key <$> rs));
    BinaryArray (Some <$> (value <$> rs)) ]);
  level ← map_err (parquet_error "archive parquet compression: ") (zstd_level_try_new 3);
  map_err (parquet_error "archive parquet serialization: ")
    (arrow_write archive_schema (mkProperties level PARQUET_ROW_GROUP_SIZE) batch).

(** The cell of a row; [RecordBatch] keeps every column as long as the batch. *)
Definition cell {A} (cells : list (option A)) (row : nat) : option A := default None (cells !! row).

Fixpoint read_rows (pks : list (option (list byte))) (ts : list (option Z)) (sks vs : list (option (list byte)))
    (row n : nat) : Result StoreError (list Record_) :=
  match n with
  | O => Ok []
  | S n =>
      match cell pks row, cell ts row, cell sks row, cell vs row with
      | Some pk, Some t, Some sk, Some v =>
          rest ← read_rows pks ts sks vs (S row) n; Ok (mkRecord pk t sk v :: rest)
      | _, _, _, _ => Err (Other "archive parquet contains null record fields")
      end
  end.

Definition as_binary (c : Column) (message : string) : Result StoreError (list (option (list byte))) :=
  match c with BinaryArray cells => Ok cells | _ => Err (Other message) end.
Definition as_timestamp (c : Column) (message : string) : Result StoreError (list (option Z)) :=
  match c with TimestampNanosecondArray _ cells => Ok cells | _ => Err (Other message) end.

Definition unsupported_schema : StoreError := Other
  "archive parquet schema is unsupported; expected partition_key Binary, event_time Timestamp(ns UTC), sort_key Binary, value Binary".

Definition records_from_batch (batch : RecordBatch) : Result StoreError (list Record_) :=
  if negb (bool_decide ((batch_columns batch).*1 = archive_schema)) then Err unsupported_schema
  else match (batch_columns batch).*2 with
  | [c0; c1; c2; c3] =>
      pks ← as_binary c0 "archive parquet partition key column is invalid";
      ts ← as_timestamp c1 "archive parquet event time column is invalid";
      sks ← as_binary c2 "archive parquet sort key column is invalid";
      vs ← as_binary c3 "archive parquet value column is invalid";
      read_rows pks ts sks vs 0 (num_rows batch)
  | _ => Err unsupported_schema
  end.

Fixpoint read_batches (batches : list (Result string RecordBatch)) : Result StoreError (list Record_) :=
  match batches with
  | [] => Ok []
  | batch :: batches =>
      batch ← map_err (parquet_error "archive parquet deserialization: ") batch;
      rs ← records_from_batch batch;
      rest ← read_batches batches; Ok (rs ++ rest)
  end.
Definition deserialize_parquet (body : list byte) : Result StoreError (list Record_) :=
  batches ← map_err (parquet_error "archive parquet deserialization: ")
              (arrow_read body PARQUET_READ_BATCH_SIZE);
  read_batches batches.

(** ** Payload codecs *)
Definition serialize (f : ArchiveFormat) (rs : list Record_) : Result StoreError (list byte) :=
  match f with
  | Json => map_err (λ e, Other ("archive serialization: " +:+ e)) (records_to_vec rs)
  | Parquet_ => serialize_parquet rs
  end.
Definition deserialize (f : ArchiveFormat) (body : list byte) : Result StoreError (list Record_) :=
  match f with
  | Json => map_err (λ e, Other ("archive deserialization: " +:+ e)) (records_from_slice body)
  | Parquet_ => deserialize_parquet body
  end.
End formats.

(** ** Manifest operations *)
Section manifest.
(** [Sha256::digest]. *)
Context (digest : list byte → list byte).

Definition sha256 (payload : list byte) : string := foldr String.append "" (fmt_02x <$> digest payload).

Definition manifest_new (b : BucketId) (generation : option Z) (f : ArchiveFormat) (pkey : string)
    (rs : list Record_) (payload : list byte) : Result StoreError ArchiveManifest :=
  count ← u64_try_from (length rs) "archive record count exceeds u64";
  bytes ← u64_try_from (length payload) "archive payload exceeds u64 bytes";
  Ok (mkManifest ARCHIVE_MANIFEST_VERSION f RECORD_SCHEMA_VERSION b generation pkey count bytes
        (sha256 payload) ["event_time"; "sort_key"]).

Definition manifest_validate (m : ArchiveManifest) : Result StoreError unit :=
  if negb (man_version m =? ARCHIVE_MANIFEST_VERSION)
  then Err (Other ("unsupported archive manifest version " +:+ fmt_u64 (man_version m)))
  else if negb (schema_version m =? RECORD_SCHEMA_VERSION)
  then Err (Other ("unsupported archive record schema version " +:+ fmt_u64 (schema_version m)))
  else if bool_decide (payload_key m = "") then Err (Other "archive manifest payload key is empty")
  else if negb (bool_decide (clustering_key m = ["event_time"; "sort_key"]))
  then Err (Other "archive manifest has an unsupported clustering key")
  else Ok tt.

Definition verify_payload (m : ArchiveManifest) (payload : list byte) : Result StoreError unit :=
  bytes ← u64_try_from (length payload) "archive payload exceeds u64 bytes";
  if negb (bytes =? payload_bytes m) then Err (Other "archive payload length does not match manifest")
  else if negb (bool_decide (sha256 payload = man_sha256 m))
  then Err (Other "archive payload checksum does not match manifest")
  else Ok tt.
End manifest.

(** ** S3 configuration *)
Inductive S3ServerSideEncryption :=
  | S3Managed
  | AwsManagedKms
  | CustomerManagedKms (key_id : string).

Record S3ArchiveConfig := mkS3Config {
  endpoint : option string;
  cfg_bucket : string;
  region : option string;
  access_key_id : option string;
  secret_access_key : option string;
  session_token : option string;
  cfg_prefix : string;
  allow_http : bool;
  server_side_encryption : option S3ServerSideEncryption
}.
Definition S3ArchiveConfig_new (bucket prefix : string) : S3ArchiveConfig :=
  mkS3Config None bucket None None None None prefix false None.

(** What the S3 builder was told. *)
Record S3Service := mkService {
  svc_bucket : string;
  svc_endpoint : option string;
  svc_region : option string;
  svc_access_key : option string;
  svc_secret_key : option string;
  svc_session_token : option string;
  svc_encryption : option S3ServerSideEncryption
}.

Record OpenDalArchiveStore (Operator : Type) := mkStore {
  operator : Operator;
  s_bucket : string;
  s_prefix : string;
  s_format : ArchiveFormat;
  operation_timeout : Z
}.
Arguments mkStore {Operator} operator s_bucket s_prefix s_format operation_timeout.
Arguments operator {Operator} _.
Arguments s_bucket {Operator} _.
Arguments s_prefix {Operator} _.
Arguments s_format {Operator} _.
Arguments operation_timeout {Operator} _.

Section config.
Context {Operator : Type}.
(** [Operator::new]; its error is displayed. *)
Context (operator_new : S3Service → Result string Operator).

Definition object_error (e : string) : StoreError := Other ("object store: " +:+ e).
Definition operation_timeout_error : StoreError := Other "object-store operation timed out".

Definition with_operator (op : Operator) (bucket prefix : string) : OpenDalArchiveStore Operator :=
  mkStore op bucket (trim_matches "/" prefix) format_default DEFAULT_OPERATION_TIMEOUT.
Definition with_format (s : OpenDalArchiveStore Operator) (f : ArchiveFormat) : OpenDalArchiveStore Operator :=
  mkStore (operator s) (s_bucket s) (s_prefix s) f (operation_timeout s).
Definition with_operation_timeout (s : OpenDalArchiveStore Operator) (timeout : Z) :
    Result StoreError (OpenDalArchiveStore Operator) :=
  if timeout =? 0 then Err (Other "object-store operation timeout must be greater than zero")
  else Ok (mkStore (operator s) (s_bucket s) (s_prefix s) (s_format s) timeout).

Definition is_some {A} (o : option A) : bool := match o with Some _ => true | None => false end.

(** The checks of [s3_config], and the builder it fills. *)
Definition s3_service (c : S3ArchiveConfig) : S3Service :=
  let keys := match access_key_id c, secret_access_key c with
    | Some a, Some s => (Some a, Some s) | _, _ => (None, None) end in
  mkService (cfg_bucket c) (endpoint c) (region c) keys.1 keys.2 (session_token c) (server_side_encryption c).
Definition s3_config (c : S3ArchiveConfig) : Result StoreError (OpenDalArchiveStore Operator) :=
  if is_blank (cfg_bucket c) then Err (Other "S3 archive bucket is required")
  else if match endpoint c with Some e => starts_with "http://" e | None => false end && negb (allow_http c)
  then Err (Other "S3 archive endpoint must use HTTPS unless allow_http is explicitly enabled for development")
  else if negb (Bool.eqb (is_some (access_key_id c)) (is_some (secret_access_key c)))
  then Err (Other "S3 access key and secret key must be configured together")
  else if is_some (session_token c) && negb (is_some (access_key_id c))
  then Err (Other "an explicit S3 session token requires explicit access and secret keys")
  else op ← map_err object_error (operator_new (s3_service c));
       Ok (with_operator op (cfg_bucket c) (cfg_prefix c)).

Definition s3 (endpoint_ bucket access_key secret_key prefix : string) :
    Result StoreError (OpenDalArchiveStore Operator) :=
  s3_config (mkS3Config (Some endpoint_) bucket (Some "us-east-1") (Some access_key) (Some secret_key)
    None prefix true None).
End config.

(** ** Lemmas *)
Lemma fmt_02x_hex l : foldr String.append "" (fmt_02x <$> l) = partition_key_path_component l.
Proof.
  induction l as [|b l IH]; [done|]. cbn [fmap list_fmap foldr partition_key_path_component]. rewrite IH.
  unfold fmt_02x. simpl. rewrite N.shiftr_div_pow2. change (2 ^ 4)%N with 16%N.
  change 15%N with (N.ones 4). rewrite N.land_ones. done.
Qed.
Lemma encode_path_segment_inj l l' : encode_path_segment l = encode_path_segment l' → l = l'.
Proof. unfold encode_path_segment. rewrite !fmt_02x_hex. apply partition_key_path_component_inj. Qed.

Lemma any_window_sorted {A K} `{OrdLaws K} (f : A → K) l :
  any_window (λ x y, ltb (f y) (f x)) l = false ↔ sorted_by f l.
Proof.
  unfold sorted_by. induction l as [|x l IH]; [split; [constructor|done]|].
  destruct l as [|y l]; [split; [repeat constructor|done]|].
  change (any_window (λ x y, ltb (f y) (f x)) (x :: y :: l)) with
    (ltb (f y) (f x) || any_window (λ x y, ltb (f y) (f x)) (y :: l)).
  rewrite orb_false_iff, IH, not_ltb. split.
  - intros [Hxy Hs]. constructor; [done|]. constructor; [done|].
    apply StronglySorted_inv in Hs as [_ Hs]. eapply Forall_impl; [exact Hs|]. intros z. simpl. eauto with ord.
  - intros Hs. apply StronglySorted_inv in Hs as [Hs Hx]. split; [|done]. by inversion Hx.
Qed.
Lemma validate_records_ok b rs :
  validate_records b rs = Ok tt ↔ Forall (in_bucket b) rs ∧ sorted_by clustering rs.
Proof.
  unfold validate_records. rewrite <- existsb_foreign, <- any_window_sorted.
  repeat case_match; naive_solver.
Qed.
Lemma u64_try_from_ok n message z : u64_try_from n message = Ok z ↔ z = Z.of_nat n ∧ Z.of_nat n <= u64_max.
Proof. unfold u64_try_from. case_match; zbool; split; intros; simplify_eq; destruct_and?; subst; try done; lia. Qed.

(** *** Parquet *)
Lemma event_times_ok `{SerdeJson} rs ts : event_times rs = Ok ts ↔
  ts = event_time <$> rs ∧ Forall (λ r, i64_min <= event_time r <= i64_max) rs.
Proof.
  revert ts. induction rs as [|r rs IH]; intros ts; simpl.
  { split; [by intros [= <-]|by intros [-> _]]. }
  rewrite Forall_cons. unfold timestamp_nanos_opt.
  destruct ((i64_min <=? event_time r) && (event_time r <=? i64_max)) eqn:Et; simpl.
  - zbool. destruct (event_times rs) as [ts'|e]; simpl; split.
    + intros [= <-]. destruct (proj1 (IH ts') eq_refl) as [-> ?]. naive_solver.
    + intros [-> [_ Hf]]. pose proof (proj2 (IH _) (conj eq_refl Hf)) as [= ->]. done.
    + done.
    + intros [-> [_ Hf]]. by pose proof (proj2 (IH _) (conj eq_refl Hf)).
  - split; [done|]. intros [_ [[Hl Hu] _]]. apply Z.leb_le in Hl, Hu. by rewrite Hl, Hu in Et.
Qed.

(** The columns [serialize_parquet] builds, and the rows they hold. *)
Definition archive_columns (rs : list Record_) : list Column := [
  BinaryArray (Some <$> (r_partition_key <$> rs));
  TimestampNanosecondArray (Some "UTC") (Some <$> (event_time <$> rs));
  BinaryArray (Some <$> (sort_key <$> rs));
  BinaryArray (Some <$> (value <$> rs)) ].

Lemma read_rows_values rs n row : n = length rs → ∀ pre, length pre = row →
  read_rows (Some <$> (r_partition_key <$> (pre ++ rs))) (Some <$> (event_time <$> (pre ++ rs)))
    (Some <$> (sort_key <$> (pre ++ rs))) (Some <$> (value <$> (pre ++ rs))) row n = Ok rs.
Proof.
  revert n row. induction rs as [|r rs IH]; intros n row -> pre Hpre; [done|]. cbn [length read_rows].
  assert (∀ A (f : Record_ → A), cell (Some <$> (f <$> (pre ++ r :: rs))) row = Some (f r)) as Hcell.
  { intros A f. unfold cell. rewrite !list_lookup_fmap, lookup_app_r, Hpre, Nat.sub_diag by lia. done. }
  rewrite !Hcell. replace (pre ++ r :: rs) with ((pre ++ [r]) ++ rs) by by rewrite <- app_assoc.
  rewrite (IH _ (S row)); [by destruct r|done|]. rewrite length_app. simpl. lia.
Qed.
Lemma records_from_archive_columns rs n : n = length rs →
  records_from_batch (mkBatch (zip archive_schema (archive_columns rs)) n) = Ok rs.
Proof.
  intros ->. unfold records_from_batch. cbn [batch_columns]. rewrite bool_decide_eq_true_2 by done.
  exact (read_rows_values rs _ 0 eq_refl [] eq_refl).
Qed.
Lemma slice_archive_columns offset len rs n :
  slice_batch offset len (mkBatch (zip archive_schema (archive_columns rs)) n) =
  mkBatch (zip archive_schema (archive_columns (take len (drop offset rs)))) len.
Proof.
  unfold slice_batch, archive_columns, slice_column. simpl. unfold prod_map. simpl.
  by rewrite <- !fmap_drop, <- !fmap_take.
Qed.
Lemma read_chunks rs lens offset n : (offset + sum_list lens)%nat = length rs →
  read_batches (Ok <$> chunks offset lens (mkBatch (zip archive_schema (archive_columns rs)) n)) =
  Ok (drop offset rs).
Proof.
  revert offset. induction lens as [|len lens IH]; intros offset Hsum;
    cbn [sum_list sum_list_with chunks fmap list_fmap read_batches map_err mbind Result_bind id] in *.
  { by rewrite drop_ge by lia. }
  rewrite slice_archive_columns, records_from_archive_columns by (rewrite length_take, length_drop; lia).
  cbn [mbind Result_bind]. rewrite IH by lia. simpl. rewrite <- drop_drop.
  by rewrite take_drop.
Qed.

Section codec_laws.
Context `{SerdeJsonLaws} `{!Parquet} `{!ParquetLaws}.

Lemma serialize_parquet_ok rs body : serialize_parquet rs = Ok body →
  Forall (λ r, i64_min <= event_time r <= i64_max) rs ∧
  ∃ batch level, batch_columns batch = zip archive_schema (archive_columns rs) ∧ num_rows batch = length rs ∧
    arrow_write archive_schema (mkProperties level PARQUET_ROW_GROUP_SIZE) batch = Ok body.
Proof.
  unfold serialize_parquet. destruct (event_times rs) as [ts|] eqn:Et; simpl; [|done].
  apply event_times_ok in Et as [-> Ht]. fold (archive_columns rs).
  destruct (batch_try_new _ _) as [batch|] eqn:Eb; simpl; [|done].
  destruct (zstd_level_try_new 3) as [level|]; simpl; [|done].
  destruct (arrow_write _ _ _) as [body'|] eqn:Ew; simpl; [|done]. intros [= <-].
  destruct (batch_try_new_ok _ _ _ Eb) as [Ec Hl]. split; [done|]. exists batch, level. split_and!; [done| |done].
  inversion Hl as [|? ? Hn _]; subst. simpl in Hn. by rewrite !length_fmap in Hn.
Qed.
Lemma parquet_round_trip rs body : serialize_parquet rs = Ok body → deserialize_parquet body = Ok rs.
Proof.
  intros (_ & batch & level & Ec & En & Ew)%serialize_parquet_ok.
  destruct (arrow_round_trip _ _ _ _ PARQUET_READ_BATCH_SIZE Ew) as (lens & Hsum & Er); [by rewrite Ec|done|].
  unfold deserialize_parquet. rewrite Er. cbn [map_err mbind Result_bind].
  destruct batch as [columns n]. cbn [batch_columns num_rows] in *. subst. by rewrite read_chunks.
Qed.
(** Reading a payload back gives the records that were written. *)
Lemma serialize_round_trip f rs body : serialize f rs = Ok body → deserialize f body = Ok rs.
Proof.
  destruct f; simpl; [|apply parquet_round_trip].
  destruct (records_to_vec rs) as [b|] eqn:E; simpl; [|done]. intros [= <-].
  by rewrite (records_json _ _ E).
Qed.
Lemma payload_not_manifest f rs body : serialize f rs = Ok body → is_ok (manifest_from_slice body) = false.
Proof.
  destruct f; simpl.
  - destruct (records_to_vec rs) as [b|] eqn:E; simpl; [|done]. intros [= <-]. by eapply records_not_manifest.
  - intros (_ & batch & level & _ & _ & Ew)%serialize_parquet_ok. by eapply parquet_not_manifest.
Qed.
End codec_laws.

(** *** Names of formats *)
Lemma lower_letters s : all_chars is_letter (to_ascii_lowercase s) = true → all_chars is_letter s = true.
Proof.
  induction s as [|a s IH]; simpl; [done|]. intros [Ha Hs]%andb_prop. rewrite IH, andb_true_r by done.
  revert Ha. clear. by destruct a as [[] [] [] [] [] [] [] []].
Qed.
Lemma format_text_letters f : all_chars is_letter (format_to_string f) = true.
Proof. by destruct f. Qed.

(** ** Theorems *)

(** A format's name is read in any ASCII case and between any white space, and what
    [Display] prints is such a name; any other text is rejected with the text as given. *)
Theorem format_names_parse w s w' f value : is_blank w = true → is_blank w' = true →
  to_ascii_lowercase s = format_to_string f →
  format_from_str (w +:+ s +:+ w') = Ok f ∧
  ((∀ f, to_ascii_lowercase (trim value) ≠ format_to_string f) →
   format_from_str value = Err (UnsupportedFormat value)).
Proof.
  intros Hw Hw' Hs. unfold format_from_str. split.
  - rewrite trim_letters; [rewrite Hs; by destruct f|done|done|by destruct s, f|].
    apply lower_letters. rewrite Hs. apply format_text_letters.
  - intros Hne. pose proof (Hne Json). pose proof (Hne Parquet_). simpl in *. by rewrite !decide_False.
Qed.

(** The S3 configuration is accepted exactly when the bucket is named, a plaintext endpoint is
    explicitly allowed, access and secret key come together, a session token comes with them, and
    the transport accepts the service; the service then carries every configured value, and the
    store a prefix that neither starts nor ends with a slash. *)
Theorem s3_config_accepts_exactly {Operator} (operator_new : S3Service → Result string Operator) c s :
  s3_config operator_new c = Ok s ↔
  is_blank (cfg_bucket c) = false ∧
  (∀ e, endpoint c = Some e → starts_with "http://" e = true → allow_http c = true) ∧
  (is_Some (access_key_id c) ↔ is_Some (secret_access_key c)) ∧
  (is_Some (session_token c) → is_Some (access_key_id c)) ∧
  operator_new (mkService (cfg_bucket c) (endpoint c) (region c) (access_key_id c) (secret_access_key c)
    (session_token c) (server_side_encryption c)) = Ok (operator s) ∧
  s = mkStore (operator s) (cfg_bucket c) (s_prefix s) Json DEFAULT_OPERATION_TIMEOUT ∧
  s_prefix s = trim_matches "/" (cfg_prefix c) ∧
  (∀ t, s_prefix s ≠ "/" +:+ t ∧ s_prefix s ≠ t +:+ "/").
Proof.
  assert (∀ {A} (o : option A), is_some o = true ↔ is_Some o) as Hsome.
  { intros A [a|]; simpl; split; [eauto|done|done|by intros []]. }
  pose proof (trim_matches_ends "/" (cfg_prefix c)) as [Hhead Htail].
  unfold s3_config, s3_service. destruct c as [ep bk rg ak sk tk pf ah sse]; simpl in *.
  destruct (is_blank bk) eqn:Eb; [split; [done|]; by intros (? & _)|].
  destruct (match ep with Some e => starts_with "http://" e | None => false end && negb ah) eqn:Eh.
  { split; [done|]. intros (_ & Hp & _). destruct ep as [e|]; [|done]. zbool. by rewrite (Hp e) in *. }
  assert (∀ e, ep = Some e → starts_with "http://" e = true → ah = true) as Hp.
  { intros e -> He. rewrite He in Eh. by destruct ah. }
  destruct (negb (Bool.eqb (is_some ak) (is_some sk))) eqn:Ek.
  { split; [done|]. intros (_ & _ & Hk & _). rewrite <- !Hsome in Hk. destruct (is_some ak), (is_some sk); naive_solver. }
  destruct (is_some tk && negb (is_some ak)) eqn:Et.
  { split; [done|]. intros (_ & _ & _ & Ht & _). rewrite <- !Hsome in Ht. destruct (is_some tk), (is_some ak); naive_solver. }
  assert (match ak, sk with Some a, Some s => (Some a, Some s) | _, _ => (None, None) end = (ak, sk)) as ->
    by (by destruct ak, sk).
  simpl. split.
  - destruct (operator_new _) as [op|]; simpl; [|done]. intros [= <-]. simpl. rewrite <- !Hsome.
    split_and!; try done; destruct (is_some ak), (is_some sk), (is_some tk); naive_solver.
  - intros (_ & _ & _ & _ & -> & Es & Epf & _). rewrite Es. simpl. unfold with_operator. by rewrite Epf.
Qed.

(** C38. Payload round trip: in either format, a payload that was written reads back as the same
    records in the same order, however the Parquet reader cuts it into batches; a Parquet payload
    is refused, with the error that says so, as soon as one event time is outside what 64-bit
    nanoseconds represent. *)
Theorem payload_round_trip `{SerdeJsonLaws} `{!Parquet} `{!ParquetLaws} f rs body :
  (serialize f rs = Ok body → deserialize f body = Ok rs) ∧
  (Exists (λ r, ¬ i64_min <= event_time r <= i64_max) rs →
   serialize Parquet_ rs = Err (Other "archive event time cannot be represented as nanoseconds")).
Proof.
  split; [apply serialize_round_trip|]. intros Hex. simpl. unfold serialize_parquet.
  assert (event_times rs = Err (Other "archive event time cannot be represented as nanoseconds")) as ->; [|done].
  induction Hex as [r rs Hr|r rs Hr IH]; simpl.
  - unfold timestamp_nanos_opt. destruct (_ && _) eqn:E; [|done]. zbool. lia.
  - unfold timestamp_nanos_opt. destruct (_ && _) eqn:E; [|done]. simpl. by rewrite IH.
Qed.
