(* ===== verification/OpenDal.v ===== *)
(** The object-store archive tier (src/adapters/opendal_store.rs, [OpenDalArchiveStore]): a payload
    object and a manifest object per upload, named by what they hold, created only if absent and
    read back before they are trusted.

    The object store is a map from keys to bodies that other clients of the same bucket may add to
    at any time; every request of a call reads from the environment what arrived before it and how
    it was answered: served, answered with an error, or not answered within the deadline, the
    object of an unacknowledged write being created or not. Nobody replaces or deletes objects.

    Proves that an acknowledged upload stays readable as the uploaded records whatever happens
    later, what exactly a read checks, that a retried upload succeeds whatever the failed attempt
    left, and that the store implements [Storage.ArchiveLaws]. *)
From S2P Require Import Prelude Chrono Model Storage Paths Text ArchiveFormat.
Local Open Scope Z_scope.

(** ** The object store *)
Abbreviation Objects := (gmap string (list byte)).

Inductive ErrorKind := ConditionNotMatch | OtherKind.
#[export] Instance ErrorKind_eq_dec : EqDecision ErrorKind.
Proof. solve_decision. Defined.

(** How one request is answered; [applied] says whether a write that was not acknowledged took
    effect. *)
Inductive reply :=
  | Served
  | Failed (kind : ErrorKind) (message : string) (applied : bool)
  | Elapsed (applied : bool).
(** One request: what other clients created before it, and its answer. *)
Record op := mkOp { arrivals : Objects; answer : reply }.

(** What [tokio::time::timeout] of a request gives. *)
Inductive timed (A : Type) :=
  | InTime (r : Result (ErrorKind * string) A)
  | Late.
Arguments InTime {A} r.
Arguments Late {A}.

(** Reduce the binds of the error monad and nothing else. *)
Tactic Notation "binds" := cbn [mbind Result_bind map_err negb fst snd].
Tactic Notation "binds" "in" "*" := cbn [mbind Result_bind map_err negb fst snd] in *.

Section store.
Context `{SerdeJson} `{Parquet} {Operator : Type}.
(** [Sha256::digest], and the text of the error for a missing object. *)
Context (digest : list byte → list byte) (not_found : string → string).
Context (self : OpenDalArchiveStore Operator).

(** A conditional write creates the object only if its key is absent. *)
Definition write_if_not_exists (key : string) (body : list byte) (o : op) (s : Objects) :
    timed unit * Objects :=
  let s := s ∪ arrivals o in
  let created (applied : bool) := if applied then s ∪ {[key := body]} else s in
  match answer o with
  | Served => match s !! key with
              | Some _ => (InTime (Err (ConditionNotMatch, "")), s)
              | None => (InTime (Ok tt), created true)
              end
  | Failed kind message applied => (InTime (Err (kind, message)), created applied)
  | Elapsed applied => (Late, created applied)
  end.
Definition operator_read (key : string) (o : op) (s : Objects) : timed (list byte) :=
  match answer o with
  | Served => match (s ∪ arrivals o) !! key with
              | Some body => InTime (Ok body)
              | None => InTime (Err (OtherKind, not_found key))
              end
  | Failed kind message _ => InTime (Err (kind, message))
  | Elapsed _ => Late
  end.

Definition read_object (key : string) (o : op) (s : Objects) : Result StoreError (list byte) * Objects :=
  (match operator_read key o s with
   | Late => Err operation_timeout_error
   | InTime (Err e) => Err (object_error e.2)
   | InTime (Ok body) => Ok body
   end, s ∪ arrivals o).

(** ** Names *)
Definition bucket_prefix (b : BucketId) : string :=
  s_prefix self +:+ "/" +:+ encode_path_segment (string_bytes (table_id b))
    +:+ "/" +:+ encode_path_segment (partition_key b)
    +:+ "/" +:+ encode_path_segment (string_bytes (key b)).
Definition object_directory (b : BucketId) (generation : option Z) : string :=
  match generation with
  | Some g => bucket_prefix b +:+ "/generation-" +:+ fmt_u64 g
  | None => bucket_prefix b
  end.
Definition content_payload_key (b : BucketId) (generation : option Z) (d : string) : string :=
  object_directory b generation +:+ "/records-" +:+ d +:+ "." +:+ extension (s_format self).
Definition content_manifest_key (b : BucketId) (generation : option Z) (d : string) : string :=
  object_directory b generation +:+ "/manifest-" +:+ d +:+ ".json".

Definition manifest_digest (object_key : string) : Result StoreError (option string) :=
  match strip_prefix "manifest-" (rsplit_next "/" object_key) ≫= strip_suffix ".json" with
  | None => Ok None
  | Some d =>
      if negb (Nat.eqb (String.length d) 64) || negb (all_chars is_ascii_hexdigit d)
      then Err (Other "archive manifest object key contains an invalid checksum")
      else Ok (Some d)
  end.

(** ** Writing *)
Definition create_object_verified (key : string) (expected : list byte) (w r : op) (s : Objects) :
    Result StoreError (list byte) * Objects :=
  let '(write, s) := write_if_not_exists key expected w s in
  let write_error := match write with
    | InTime (Ok _) => None
    | InTime (Err (kind, message)) =>
        if decide (kind = ConditionNotMatch) then None else Some (object_error message)
    | Late => Some operation_timeout_error
    end in
  let '(read, s) := read_object key r s in
  (match read with
   | Ok uploaded => if decide (uploaded = expected) then Ok uploaded
                    else Err (Other "immutable archive object already exists with different content")
   | Err e => match write_error with Some e' => Err e' | None => Err e end
   end, s).

(** The two objects of an upload: their bodies, the manifest and the manifest's key. *)
Record upload := mkUpload {
  u_payload : list byte;
  u_manifest : ArchiveManifest;
  u_manifest_body : list byte;
  u_manifest_key : string
}.

(** What [write_records] does before its first request. *)
Definition prepare_upload (b : BucketId) (generation : option Z) (rs : list Record_) :
    Result StoreError upload :=
  _ ← validate_records b rs;
  payload ← serialize (s_format self) rs;
  let pkey := content_payload_key b generation (sha256 digest payload) in
  manifest ← manifest_new digest b generation (s_format self) pkey rs payload;
  manifest_body ← map_err (λ e, Other ("archive manifest serialization: " +:+ e)) (manifest_to_vec manifest);
  Ok (mkUpload payload manifest manifest_body
        (content_manifest_key b generation (sha256 digest manifest_body))).

Definition write_records (b : BucketId) (generation : option Z) (rs : list Record_) (env : nat → op)
    (s : Objects) : Result StoreError string * Objects :=
  match prepare_upload b generation rs with
  | Err e => (Err e, s)
  | Ok (mkUpload payload manifest manifest_body manifest_key) =>
    let '(created, s) :=
      create_object_verified (payload_key manifest) payload (env 0%nat) (env 1%nat) s in
    let checked :=
      uploaded_payload ← created;
      _ ← verify_payload digest manifest uploaded_payload;
      decoded ← deserialize (s_format self) uploaded_payload;
      count ← u64_try_from (length decoded) "archive record count exceeds u64";
      if negb (count =? record_count manifest)
      then Err (Other "uploaded archive record count does not match manifest") else Ok tt in
    match checked with
    | Err e => (Err e, s)
    | Ok _ =>
      let '(created, s) := create_object_verified manifest_key manifest_body (env 2%nat) (env 3%nat) s in
      (uploaded_manifest ← created;
       verified ← map_err (λ e, Other ("archive manifest deserialization: " +:+ e))
                    (manifest_from_slice uploaded_manifest);
       _ ← manifest_validate verified;
       if negb (bool_decide (verified = manifest))
       then Err (Other "uploaded archive manifest does not match the intended manifest")
       else Ok manifest_key, s)
    end
  end.

(** ** Reading *)
Definition read_manifest_records (expected_bucket : BucketId) (manifest : ArchiveManifest) (o : op)
    (s : Objects) : Result StoreError (list Record_) * Objects :=
  match manifest_validate manifest with
  | Err e => (Err e, s)
  | Ok _ =>
    if negb (bool_decide (man_bucket manifest = expected_bucket))
    then (Err (Other "archive manifest does not match the requested bucket"), s)
    else
    let '(payload, s) := read_object (payload_key manifest) o s in
    (payload ← payload;
     _ ← verify_payload digest manifest payload;
     records ← deserialize (man_format manifest) payload;
     count ← u64_try_from (length records) "archive record count exceeds u64";
     if negb (count =? record_count manifest)
     then Err (Other "archive record count does not match manifest")
     else _ ← validate_records expected_bucket records; Ok records, s)
  end.

Definition od_get_bucket (b : BucketId) (object_key : string) (env : nat → op) (s : Objects) :
    Result StoreError (list Record_) * Objects :=
  let '(object, s) := read_object object_key (env 0%nat) s in
  let parsed :=
    object ← object;
    expected ← manifest_digest object_key;
    _ ← match expected with
        | Some d => if bool_decide (sha256 digest object = d) then Ok tt
                    else Err (Other "archive manifest checksum does not match its object key")
        | None => Ok tt
        end;
    manifest ← map_err (λ e, Other ("archive manifest deserialization: " +:+ e)) (manifest_from_slice object);
    Ok (length object, manifest) in
  match parsed with
  | Err e => (Err e, s)
  | Ok (manifest_bytes, manifest) =>
    let '(records, s) := read_manifest_records b manifest (env 1%nat) s in
    (records ← records;
     _ ← u64_try_from manifest_bytes "archive manifest exceeds u64 bytes";
     Ok records, s)
  end.

Definition od_put_bucket (b : BucketId) (rs : list Record_) (env : nat → op) (s : Objects) :
    Result StoreError string * Objects := write_records b None rs env s.
Definition od_put_bucket_generation (b : BucketId) (generation : Z) (rs : list Record_) (env : nat → op)
    (s : Objects) : Result StoreError string * Objects := write_records b (Some generation) rs env s.

(** The trait implementation for one client at a time. *)
Definition quiet_env (env : nat → reply) : nat → op := λ n, mkOp ∅ (env n).
#[local] Instance OpenDalStore : ArchiveStore (nat → reply) Objects := λ X c,
  match c in archive_call X return (nat → reply) → Objects → X * Objects with
  | PutBucket b rs => λ env s, od_put_bucket b rs (quiet_env env) s
  | PutBucketGeneration b generation rs => λ env s, od_put_bucket_generation b generation rs (quiet_env env) s
  | GetBucket b object_key => λ env s, od_get_bucket b object_key (quiet_env env) s
  end.

(** ** What a key of a store holds *)
(** Everything a read of [b] under [k] checks, and what it then returns. *)
Definition readable (s : Objects) (b : BucketId) (k : string) (rs : list Record_) : Prop :=
  ∃ body m payload,
    s !! k = Some body ∧ manifest_from_slice body = Ok m ∧ Z.of_nat (length body) <= u64_max ∧
    (manifest_digest k = Ok None ∨ manifest_digest k = Ok (Some (sha256 digest body))) ∧
    man_version m = ARCHIVE_MANIFEST_VERSION ∧ schema_version m = RECORD_SCHEMA_VERSION ∧
    payload_key m ≠ "" ∧ clustering_key m = ["event_time"; "sort_key"] ∧ man_bucket m = b ∧
    s !! payload_key m = Some payload ∧ payload_bytes m = Z.of_nat (length payload) ∧
    payload_bytes m <= u64_max ∧ man_sha256 m = sha256 digest payload ∧
    deserialize (man_format m) payload = Ok rs ∧
    record_count m = Z.of_nat (length rs) ∧ record_count m <= u64_max ∧
    Forall (in_bucket b) rs ∧ sorted_by clustering rs.

(** ** Lemmas *)
Lemma read_object_ok k o s body s' : read_object k o s = (Ok body, s') ↔
  answer o = Served ∧ (s ∪ arrivals o) !! k = Some body ∧ s' = s ∪ arrivals o.
Proof.
  unfold read_object, operator_read. destruct (answer o); [|naive_solver..].
  destruct ((s ∪ arrivals o) !! k); naive_solver.
Qed.
Lemma read_object_state k o s : (read_object k o s).2 = s ∪ arrivals o.
Proof. done. Qed.
Lemma write_extends k body o s : s ⊆ (write_if_not_exists k body o s).2.
Proof.
  unfold write_if_not_exists. repeat case_match; simpl;
    first [apply map_union_subseteq_l
          |etransitivity; [apply map_union_subseteq_l|]; apply map_union_subseteq_l].
Qed.
Lemma create_extends k body w r s : s ⊆ (create_object_verified k body w r s).2.
Proof.
  unfold create_object_verified. pose proof (write_extends k body w s) as Hw.
  destruct (write_if_not_exists k body w s) as [x s1]. simpl in *.
  etransitivity; [done|apply map_union_subseteq_l].
Qed.
Lemma write_records_extends b g rs env s : s ⊆ (write_records b g rs env s).2.
Proof.
  unfold write_records. destruct (prepare_upload b g rs) as [[payload m mbody mkey]|]; [|done].
  pose proof (create_extends (payload_key m) payload (env 0%nat) (env 1%nat) s) as H1.
  destruct (create_object_verified _ _ _ _ s) as [c1 s1]. simpl in *.
  match goal with |- context [match ?x with Ok _ => _ | Err _ => _ end] => destruct x end; [|done].
  pose proof (create_extends mkey mbody (env 2%nat) (env 3%nat) s1) as H2.
  destruct (create_object_verified _ _ _ _ s1) as [c2 s2]. simpl in *. by etransitivity.
Qed.
Lemma create_ok k body w r s up s' : create_object_verified k body w r s = (Ok up, s') →
  up = body ∧ s' !! k = Some body.
Proof.
  unfold create_object_verified. destruct (write_if_not_exists k body w s) as [x s1].
  destruct (read_object k r s1) as [[uploaded|e] s2] eqn:Er.
  - apply read_object_ok in Er as (_ & Hk & ->). case_decide; intros [= <- <-]. by subst.
  - by case_match.
Qed.

Lemma manifest_validate_ok m : manifest_validate m = Ok tt ↔
  man_version m = ARCHIVE_MANIFEST_VERSION ∧ schema_version m = RECORD_SCHEMA_VERSION ∧
  payload_key m ≠ "" ∧ clustering_key m = ["event_time"; "sort_key"].
Proof.
  unfold manifest_validate. repeat (case_match; zbool); split; intros; destruct_and?; done.
Qed.
Lemma verify_payload_ok m payload : verify_payload digest m payload = Ok tt ↔
  payload_bytes m = Z.of_nat (length payload) ∧ payload_bytes m <= u64_max ∧ man_sha256 m = sha256 digest payload.
Proof.
  unfold verify_payload. destruct (u64_try_from _ _) as [n|] eqn:En; simpl.
  - apply u64_try_from_ok in En as [-> Hn]. repeat (case_match; zbool); split; intros;
      destruct_and?; try done; try congruence. split_and!; congruence.
  - split; [done|]. intros (-> & Hn & _). by rewrite (proj2 (u64_try_from_ok _ _ _) (conj eq_refl Hn)) in En.
Qed.
Lemma readable_mono s s' b k rs : s ⊆ s' → readable s b k rs → readable s' b k rs.
Proof.
  intros Hs (body & m & payload & Hk & Hp & Hl & Hd & Hv & Hsv & Hne & Hc & Hb & Hpk & Hrest).
  exists body, m, payload. destruct_and!. split_and!; try done; by eapply lookup_weaken.
Qed.
Lemma readable_det s b k rs rs' : readable s b k rs → readable s b k rs' → rs = rs'.
Proof.
  intros (body & m & payload & ?) (body' & m' & payload' & ?). destruct_and!.
  assert (body = body') as <- by congruence. assert (m = m') as <- by congruence.
  assert (payload = payload') as <- by congruence. congruence.
Qed.

(** A read that returns records found them readable; and a served read of a readable key returns. *)
Lemma od_get_ok b k env s rs s' : od_get_bucket b k env s = (Ok rs, s') →
  s' = (s ∪ arrivals (env 0%nat)) ∪ arrivals (env 1%nat) ∧ readable s' b k rs.
Proof.
  unfold od_get_bucket. destruct (read_object k (env 0%nat) s) as [[body|] s1] eqn:E0; binds; [|done].
  apply read_object_ok in E0 as (_ & Hk & ->). set (s1 := s ∪ arrivals (env 0%nat)) in *.
  destruct (manifest_digest k) as [expected|] eqn:Ed; binds; [|done].
  destruct (match expected with Some d => _ | None => _ end) as [[]|] eqn:Ex; binds; [|done].
  destruct (manifest_from_slice body) as [m|] eqn:Em; binds; [|done].
  unfold read_manifest_records. destruct (manifest_validate m) as [[]|] eqn:Ev; binds; [|done].
  apply manifest_validate_ok in Ev as (Hv & Hsv & Hne & Hc).
  case_bool_decide as Hb; binds; [|done].
  destruct (read_object (payload_key m) (env 1%nat) s1) as [[payload|] s2] eqn:E1; binds; [|done].
  apply read_object_ok in E1 as (_ & Hpk & ->).
  destruct (verify_payload digest m payload) as [[]|] eqn:Ep; binds; [|done].
  apply verify_payload_ok in Ep as (Hpb & Hpm & Hsha).
  destruct (deserialize (man_format m) payload) as [rs'|] eqn:Er; binds; [|done].
  destruct (u64_try_from (length rs') _) as [count|] eqn:En; binds; [|done].
  apply u64_try_from_ok in En as [-> Hn]. destruct (negb (Z.of_nat (length rs') =? record_count m)) eqn:Ec; binds; [done|]. zbool.
  destruct (validate_records b rs') as [[]|] eqn:Evr; binds; [|done].
  apply validate_records_ok in Evr as [Hin Hso].
  destruct (u64_try_from (length body) _) as [n|] eqn:El; binds; [|done].
  apply u64_try_from_ok in El as [_ Hl]. intros [= <- <-]. split; [done|].
  exists body, m, payload. rewrite <- Ec. split_and!; try done.
  - eapply lookup_weaken; [done|apply map_union_subseteq_l].
  - destruct expected as [d|]; [|by left]. case_bool_decide; simplify_eq. by right.
Qed.
Lemma readable_get b k env s rs : answer (env 0%nat) = Served → answer (env 1%nat) = Served →
  readable s b k rs →
  od_get_bucket b k env s = (Ok rs, (s ∪ arrivals (env 0%nat)) ∪ arrivals (env 1%nat)).
Proof.
  intros H0' H1 (body & m & payload & Hk & Hp & Hl & Hd & Hv & Hsv & Hne & Hc & Hb & Hpk & Hpb & Hpm & Hsha
    & Hdes & Hrc & Hrm & Hin & Hso).
  unfold od_get_bucket. set (s1 := s ∪ arrivals (env 0%nat)).
  rewrite (proj2 (read_object_ok k (env 0%nat) s body s1)) by
    (split_and!; [done|by apply lookup_union_Some_l|done]). binds.
  assert ((expected ← manifest_digest k; match expected with
    | Some d => if bool_decide (sha256 digest body = d) then Ok tt
                else Err (Other "archive manifest checksum does not match its object key")
    | None => Ok tt end) = Ok tt) as Hchk.
  { destruct Hd as [->| ->]; binds; [done|]. by rewrite bool_decide_eq_true_2. }
  destruct (manifest_digest k) as [expected|]; binds in *; [|done]. rewrite Hchk, Hp. binds.
  unfold read_manifest_records. rewrite (proj2 (manifest_validate_ok m)) by done.
  rewrite bool_decide_eq_true_2 by done. binds.
  rewrite (proj2 (read_object_ok _ (env 1%nat) s1 payload (s1 ∪ arrivals (env 1%nat)))) by
    (split_and!; [done|do 2 apply lookup_union_Some_l; done|done]). binds.
  rewrite (proj2 (verify_payload_ok m payload)) by done. binds. rewrite Hdes. binds.
  rewrite (proj2 (u64_try_from_ok _ _ _) (conj eq_refl (eq_ind _ (λ z, z <= u64_max) Hrm _ Hrc))). binds.
  rewrite Hrc, Z.eqb_refl. binds. rewrite (proj2 (validate_records_ok b rs)) by done. binds.
  by rewrite (proj2 (u64_try_from_ok _ _ _) (conj eq_refl Hl)).
Qed.
End store.

(** ** Uploads *)
Section uploads.
Context `{SerdeJsonLaws} `{!Parquet} `{!ParquetLaws} {Operator : Type}.
Context (digest : list byte → list byte) (not_found : string → string).
Context (digest_length : ∀ body, length (digest body) = 32%nat).
Context (self : OpenDalArchiveStore Operator).

Abbreviation sha := (sha256 digest).
Abbreviation readable := (readable digest).
Abbreviation prepare := (prepare_upload digest self).
Abbreviation put := (write_records digest not_found self).
Abbreviation get := (od_get_bucket digest not_found).

(** *** Names *)
Lemma hex_digits l : all_chars is_ascii_hexdigit (partition_key_path_component l) = true ∧
  String.length (partition_key_path_component l) = (2 * length l)%nat.
Proof.
  assert (∀ n, (n < 16)%N → is_ascii_hexdigit (hex_digit n) = true) as Hd.
  { intros n Hn. assert (N.to_nat n < 16)%nat as Hm by lia. unfold hex_digit. revert Hm.
    generalize (N.to_nat n) as i. intros i Hi. do 16 (destruct i as [|i]; [done|]). lia. }
  induction l as [|b l [IH IH']]; [done|]. cbn [partition_key_path_component all_chars String.length length].
  destruct (byte_nibbles b) as (Hh & Hl & _). rewrite !Hd, IH, IH' by done. split; [done|lia].
Qed.
Lemma sha_digits body : all_chars is_ascii_hexdigit (sha body) = true ∧ String.length (sha body) = 64%nat.
Proof. unfold sha256. rewrite fmt_02x_hex. destruct (hex_digits (digest body)) as [? ->]. by rewrite digest_length. Qed.
Lemma slash_free_sha body : slash_free (sha body).
Proof. unfold sha256. rewrite fmt_02x_hex. apply slash_free_hex. Qed.

(** The last component of an object's name. *)
Definition manifest_name (d : string) : string := "manifest-" +:+ d +:+ ".json".
Definition payload_name (f : ArchiveFormat) (d : string) : string := "records-" +:+ d +:+ "." +:+ extension f.
Lemma manifest_key_split b g d : content_manifest_key self b g d = object_directory self b g +:+ "/" +:+ manifest_name d.
Proof. done. Qed.
Lemma payload_key_split b g d :
  content_payload_key self b g d = object_directory self b g +:+ "/" +:+ payload_name (s_format self) d.
Proof. done. Qed.
Lemma slash_free_literal s : has_char "/" s = false → slash_free s.
Proof. apply has_slash_false. Qed.
Lemma slash_free_manifest_name body : slash_free (manifest_name (sha body)).
Proof.
  unfold manifest_name. rewrite !slash_free_app. split_and!; [by apply slash_free_literal|apply slash_free_sha|].
  by apply slash_free_literal.
Qed.
Lemma slash_free_payload_name f body : slash_free (payload_name f (sha body)).
Proof.
  unfold payload_name. rewrite !slash_free_app.
  split_and!; [by apply slash_free_literal|apply slash_free_sha|by apply slash_free_literal|].
  destruct f; by apply slash_free_literal.
Qed.
Lemma manifest_digest_key b g body : manifest_digest (content_manifest_key self b g (sha body)) = Ok (Some (sha body)).
Proof.
  unfold manifest_digest. rewrite manifest_key_split.
  change ("/" +:+ manifest_name (sha body)) with (String "/" (manifest_name (sha body))).
  rewrite rsplit_next_app by apply has_slash_false, slash_free_manifest_name.
  unfold manifest_name. rewrite strip_prefix_app. cbn [mbind option_bind]. rewrite strip_suffix_app.
  destruct (sha_digits body) as [-> ->]. done.
Qed.
Lemma payload_key_not_empty b g d : content_payload_key self b g d ≠ "".
Proof.
  rewrite payload_key_split. intros E. apply (f_equal String.length) in E.
  rewrite !string_length_app in E. simpl in E. lia.
Qed.
Lemma payload_key_not_manifest_key b g body body' :
  content_payload_key self b g (sha body) ≠ content_manifest_key self b g (sha body').
Proof.
  rewrite payload_key_split, manifest_key_split. intros E.
  apply last_slash_inj in E as [_ E]; [done|apply slash_free_payload_name|apply slash_free_manifest_name].
Qed.

(** *** What an upload consists of *)
Record uploads_of (b : BucketId) (g : option Z) (rs : list Record_) (u : upload) : Prop := {
  up_records : Forall (in_bucket b) rs ∧ sorted_by clustering rs;
  up_payload : serialize (s_format self) rs = Ok (u_payload u);
  up_counts : Z.of_nat (length rs) <= u64_max ∧ Z.of_nat (length (u_payload u)) <= u64_max;
  up_manifest : u_manifest u = mkManifest ARCHIVE_MANIFEST_VERSION (s_format self) RECORD_SCHEMA_VERSION b g
    (content_payload_key self b g (sha (u_payload u))) (Z.of_nat (length rs)) (Z.of_nat (length (u_payload u)))
    (sha (u_payload u)) ["event_time"; "sort_key"];
  up_body : manifest_to_vec (u_manifest u) = Ok (u_manifest_body u);
  up_key : u_manifest_key u = content_manifest_key self b g (sha (u_manifest_body u))
}.

Lemma prepare_ok b g rs u : prepare b g rs = Ok u → uploads_of b g rs u.
Proof.
  unfold prepare_upload. destruct (validate_records b rs) as [[]|] eqn:Ev; binds; [|done].
  destruct (serialize _ rs) as [payload|] eqn:Es; binds; [|done]. unfold manifest_new.
  destruct (u64_try_from (length rs) _) as [n|] eqn:En; binds; [|done].
  destruct (u64_try_from (length payload) _) as [n'|] eqn:En'; binds; [|done].
  apply u64_try_from_ok in En as [-> Hn], En' as [-> Hn'].
  destruct (manifest_to_vec _) as [body|] eqn:Em; binds; [|done]. intros [= <-].
  split; try done. by apply validate_records_ok.
Qed.
Lemma uploaded_readable b g rs u s : uploads_of b g rs u →
  s !! payload_key (u_manifest u) = Some (u_payload u) → s !! u_manifest_key u = Some (u_manifest_body u) →
  readable s b (u_manifest_key u) rs.
Proof.
  intros [[Hin Hso] Hs [Hn Hn'] Hm Hb Hk] Hp Hmk.
  exists (u_manifest_body u), (u_manifest u), (u_payload u).
  rewrite Hm in Hp |- *. simpl in *. rewrite <- Hm. split_and!; try done.
  - by apply manifest_json.
  - by apply (manifest_length (u_manifest u)).
  - right. rewrite Hk. apply manifest_digest_key.
  - apply payload_key_not_empty.
  - by apply serialize_round_trip.
Qed.
Lemma put_ok b g rs env s k s' : put b g rs env s = (Ok k, s') → ∃ u, uploads_of b g rs u ∧
  k = u_manifest_key u ∧ s' !! payload_key (u_manifest u) = Some (u_payload u) ∧
  s' !! u_manifest_key u = Some (u_manifest_body u).
Proof.
  unfold write_records. destruct (prepare b g rs) as [u|] eqn:Eu; [|done].
  apply prepare_ok in Eu. destruct u as [payload m mbody mkey].
  destruct (create_object_verified _ _ payload _ _ s) as [[up|e] s1] eqn:E1; binds; [|done].
  apply (create_ok digest) in E1 as [-> Hpk].
  match goal with |- context [match ?x with Ok _ => _ | Err _ => _ end] => destruct x as [[]|] end; [|done].
  pose proof (create_extends not_found mkey mbody (env 2%nat) (env 3%nat) s1) as Hext.
  destruct (create_object_verified _ mkey mbody _ _ s1) as [[up|e] s2] eqn:E2; binds; [|done].
  apply (create_ok digest) in E2 as [-> Hmk].
  intros E. exists (mkUpload payload m mbody mkey). simpl in *.
  assert (k = mkey ∧ s' = s2) as [-> ->].
  { destruct (manifest_from_slice mbody); binds in *; [|done]. destruct (manifest_validate _); binds in *; [|done].
    destruct (negb _); by simplify_eq. }
  split_and!; try done. by eapply lookup_weaken.
Qed.

(** *** What an upload leaves behind *)
(** [s'] is [s], possibly with the object [k]. *)
Definition maybe_adds (k : string) (body : list byte) (s s' : Objects) : Prop :=
  ∀ k', s' !! k' = s !! k' ∨ (s !! k' = None ∧ k' = k ∧ s' !! k' = Some body).

Lemma maybe_adds_refl k body s : maybe_adds k body s s.
Proof. by left. Qed.
Lemma maybe_adds_union k body s : maybe_adds k body s (s ∪ {[k := body]}).
Proof.
  intros k'. rewrite lookup_union. destruct (s !! k') as [x|] eqn:E; [left; by destruct ({[k := body]} !! k')|].
  destruct (decide (k' = k)) as [->|Hne]; [rewrite lookup_singleton_eq; by right|].
  rewrite lookup_singleton_ne by done. by left.
Qed.
Lemma create_quiet k body w r s : arrivals w = ∅ → arrivals r = ∅ →
  maybe_adds k body s (create_object_verified not_found k body w r s).2.
Proof.
  intros Hw Hr. unfold create_object_verified, write_if_not_exists. rewrite Hw, (right_id_L ∅ (∪)).
  assert (∀ x : Objects, (read_object not_found k r x).2 = x) as Hread.
  { intros x. unfold read_object. by rewrite Hr, (right_id_L ∅ (∪)). }
  assert (∀ a : bool, maybe_adds k body s (if a then s ∪ {[k := body]} else s)) as Hadd.
  { intros []; [apply maybe_adds_union|apply maybe_adds_refl]. }
  destruct (answer w) as [|kind msg a|a]; [destruct (s !! k)|..];
    match goal with |- context [read_object not_found k r ?x] =>
      pose proof (Hread x) as E; destruct (read_object not_found k r x) as [y s']; simpl in *; subst s' end;
    first [apply maybe_adds_refl|apply (Hadd true)|apply Hadd].
Qed.

(** Every manifest's payload is there. *)
Definition linked (s : Objects) : Prop := ∀ k body m,
  s !! k = Some body → manifest_from_slice body = Ok m → is_Some (s !! payload_key m).

Lemma put_quiet b g rs env s : let s' := (put b g rs (quiet_env env) s).2 in
  s' = s ∨ ∃ u, uploads_of b g rs u ∧
    (maybe_adds (payload_key (u_manifest u)) (u_payload u) s s' ∨
     ∃ s1, maybe_adds (payload_key (u_manifest u)) (u_payload u) s s1 ∧
       s1 !! payload_key (u_manifest u) = Some (u_payload u) ∧
       maybe_adds (u_manifest_key u) (u_manifest_body u) s1 s').
Proof.
  unfold write_records. destruct (prepare b g rs) as [u|] eqn:Eu; [|by left].
  apply prepare_ok in Eu. right. exists u. split; [done|]. destruct u as [payload m mbody mkey]. simpl.
  pose proof (create_quiet (payload_key m) payload (quiet_env env 0) (quiet_env env 1) s eq_refl eq_refl) as Hq1.
  destruct (create_object_verified _ _ payload _ _ s) as [[up|e] s1] eqn:E1; binds in *; [|by left].
  apply (create_ok digest) in E1 as [-> Hpk].
  match goal with |- context [match ?x with Ok _ => _ | Err _ => _ end] => destruct x as [[]|] end; [|by left].
  pose proof (create_quiet mkey mbody (quiet_env env 2) (quiet_env env 3) s1 eq_refl eq_refl) as Hq2.
  destruct (create_object_verified _ mkey mbody _ _ s1) as [c2 s2]. binds in *. right. by exists s1.
Qed.

Lemma linked_adds k body s s' : maybe_adds k body s s' → s ⊆ s' → linked s →
  (∀ m, manifest_from_slice body = Ok m → is_Some (s' !! payload_key m)) → linked s'.
Proof.
  intros Ha Hs Hl Hb k' body' m Hk' Hm. destruct (Ha k') as [E|(_ & _ & E)].
  - rewrite E in Hk'. destruct (Hl _ _ _ Hk' Hm) as [p Hp]. exists p. by eapply lookup_weaken.
  - apply Hb. congruence.
Qed.
Lemma maybe_adds_extends k body s s' : maybe_adds k body s s' → s ⊆ s'.
Proof. intros Ha. apply map_subseteq_spec. intros i x Hi. destruct (Ha i) as [->|(? & _)]; [done|congruence]. Qed.
Lemma put_linked b g rs env s : linked s → linked (put b g rs (quiet_env env) s).2.
Proof.
  intros Hl. destruct (put_quiet b g rs env s) as [->|(u & Hu & Hcases)]; [done|].
  assert (∀ s', maybe_adds (payload_key (u_manifest u)) (u_payload u) s s' → linked s') as Hfirst.
  { intros s' Ha. eapply linked_adds; [done|by eapply maybe_adds_extends|done|].
    intros m Hm. pose proof (payload_not_manifest _ _ _ (up_payload _ _ _ _ Hu)) as Hno. by rewrite Hm in Hno. }
  destruct Hcases as [Ha|(s1 & Ha & Hpk & Ha')]; [by apply Hfirst|].
  eapply linked_adds; [exact Ha'|by eapply maybe_adds_extends|by apply Hfirst|].
  intros m Hm. rewrite (manifest_json _ _ (up_body _ _ _ _ Hu)) in Hm. simplify_eq.
  exists (u_payload u). eapply lookup_weaken; [done|]. by eapply maybe_adds_extends.
Qed.

(** *** The names of a generation *)
Definition od_generation_name (b : BucketId) (g : Z) (k : string) : Prop :=
  ∃ name, slash_free name ∧ k = object_directory self b (Some g) +:+ "/" +:+ name.

Lemma bytes_of_string_inj s s' : string_bytes s = string_bytes s' → s = s'.
Proof.
  unfold string_bytes, String.list_byte_of_string. intros E. apply (inj String.list_ascii_of_string).
  revert E. generalize (String.list_ascii_of_string s), (String.list_ascii_of_string s').
  intros l. induction l as [|a l IH]; intros [|a' l'] E; simplify_eq/=; [done|]. f_equal; [|by apply IH].
  rewrite <- (ascii_of_byte_of_ascii a), <- (ascii_of_byte_of_ascii a'). congruence.
Qed.
Lemma object_directory_inj b b' g g' : 0 <= g → 0 <= g' →
  object_directory self b (Some g) = object_directory self b' (Some g') →
  table_id b = table_id b' ∧ partition_key b = partition_key b' ∧ key b = key b' ∧ g = g'.
Proof.
  intros Hg Hg'. assert (∀ b g, object_directory self b (Some g) =
    (((s_prefix self +:+ "/" +:+ encode_path_segment (string_bytes (table_id b)))
      +:+ "/" +:+ encode_path_segment (partition_key b))
      +:+ "/" +:+ encode_path_segment (string_bytes (key b))) +:+ "/" +:+ ("generation-" +:+ fmt_u64 g)) as Hdir.
  { intros b0 g0. unfold object_directory, bucket_prefix.
    change "/generation-" with ("/" +:+ "generation-"). by rewrite !string_app_assoc. }
  assert (∀ l, slash_free (encode_path_segment l)) as Hseg.
  { intros l. unfold encode_path_segment. rewrite fmt_02x_hex. apply slash_free_hex. }
  assert (∀ n, slash_free ("generation-" +:+ fmt_u64 n)) as Hn.
  { intros n. apply slash_free_app. split; [by apply slash_free_literal|apply slash_free_pretty]. }
  rewrite !Hdir. intros E. apply last_slash_inj in E as [E Eg]; [|apply Hn..].
  apply last_slash_inj in E as [E Ek]; [|done..]. apply last_slash_inj in E as [E Ep]; [|done..].
  apply last_slash_inj in E as [_ Et]; [|done..].
  apply encode_path_segment_inj in Et, Ep, Ek. apply bytes_of_string_inj in Et, Ek.
  apply (inj (String.append _)) in Eg. by apply fmt_u64_inj in Eg.
Qed.
Lemma od_generation_name_inj `{ChronoLaws} b b' g g' k : canonical b → canonical b' → 0 <= g → 0 <= g' →
  od_generation_name b g k → od_generation_name b' g' k → b = b' ∧ g = g'.
Proof.
  intros Hb Hb' Hg Hg' (n & Hn & ->) (n' & Hn' & E). apply last_slash_inj in E as [E _]; [|done..].
  apply object_directory_inj in E as (Et & Ep & Ek & ->); [|done..]. split; [|done]. by apply canonical_key_inj.
Qed.
Lemma uploads_named b g rs u : uploads_of b (Some g) rs u →
  od_generation_name b g (payload_key (u_manifest u)) ∧ od_generation_name b g (u_manifest_key u).
Proof.
  intros [_ _ _ Hm _ Hk]. rewrite Hm, Hk. split.
  - exists (payload_name (s_format self) (sha (u_payload u))). split; [apply slash_free_payload_name|done].
  - exists (manifest_name (sha (u_manifest_body u))). split; [apply slash_free_manifest_name|done].
Qed.

(** *** Retries *)
(** The key holds [body] or nothing. *)
Definition agrees (k : string) (body : list byte) (s : Objects) : Prop := ∀ x, s !! k = Some x → x = body.

Lemma agrees_union k body s s' : agrees k body s → agrees k body s' → agrees k body (s ∪ s').
Proof. intros Hs Hs' x [Hx|[_ Hx]]%lookup_union_Some_raw; auto. Qed.
Lemma agrees_add k body k' body' s : agrees k body s → (k' = k → body' = body) → agrees k body (s ∪ {[k' := body']}).
Proof.
  intros Hs Hk. apply agrees_union; [done|]. intros x [-> <-]%lookup_singleton_Some. auto.
Qed.
Lemma create_agrees k body k' body' w r s : agrees k body s → agrees k body (arrivals w) →
  agrees k body (arrivals r) → (k' = k → body' = body) →
  agrees k body (create_object_verified not_found k' body' w r s).2.
Proof.
  intros Hs Hw Hr Hk. unfold create_object_verified.
  assert (agrees k body (write_if_not_exists k' body' w s).2) as Hws.
  { pose proof (agrees_union _ _ _ _ Hs Hw). unfold write_if_not_exists.
    repeat case_match; simpl; auto using agrees_add. }
  destruct (write_if_not_exists k' body' w s) as [x s1]. simpl in *. by apply agrees_union.
Qed.
Lemma create_served k body w r s : answer w = Served → answer r = Served →
  agrees k body s → agrees k body (arrivals w) →
  (create_object_verified not_found k body w r s).1 = Ok body.
Proof.
  intros Hw Hr Hs Haw. pose proof (agrees_union _ _ _ _ Hs Haw) as Hsw.
  assert (∃ x s1, write_if_not_exists k body w s = (x, s1) ∧ s1 !! k = Some body) as (x & s1 & Ew & Hk).
  { unfold write_if_not_exists. rewrite Hw. destruct ((s ∪ arrivals w) !! k) as [y|] eqn:E.
    - eexists _, _. split; [done|]. by rewrite (Hsw _ E) in E.
    - eexists _, _. split; [done|]. apply lookup_union_Some_raw. rewrite lookup_singleton_eq. by right. }
  unfold create_object_verified. rewrite Ew.
  rewrite (proj2 (read_object_ok digest not_found k r s1 body (s1 ∪ arrivals r))).
  - simpl. by rewrite decide_True.
  - split_and!; [done|by apply lookup_union_Some_l|done].
Qed.

(** The store and everything that arrives leave the names of an upload to it. *)
Definition undisturbed (u : upload) (s : Objects) : Prop :=
  agrees (payload_key (u_manifest u)) (u_payload u) s ∧ agrees (u_manifest_key u) (u_manifest_body u) s.

Lemma uploads_keys b g rs u : uploads_of b g rs u → payload_key (u_manifest u) ≠ u_manifest_key u.
Proof. intros [_ _ _ -> _ ->]. apply payload_key_not_manifest_key. Qed.
Lemma create_undisturbed b g rs u w r s : uploads_of b g rs u →
  undisturbed u s → undisturbed u (arrivals w) → undisturbed u (arrivals r) →
  undisturbed u (create_object_verified not_found (payload_key (u_manifest u)) (u_payload u) w r s).2 ∧
  undisturbed u (create_object_verified not_found (u_manifest_key u) (u_manifest_body u) w r s).2.
Proof.
  intros Hu%uploads_keys [] [] []. repeat split; apply create_agrees; try done; intros E; by destruct Hu.
Qed.
Lemma put_undisturbed b g rs u env s : prepare b g rs = Ok u → undisturbed u s →
  (∀ n, undisturbed u (arrivals (env n))) → undisturbed u (put b g rs env s).2.
Proof.
  intros Eu Hs Henv. unfold write_records. rewrite Eu. apply prepare_ok in Eu.
  destruct (create_undisturbed b g rs u (env 0%nat) (env 1%nat) s) as [Hs1 _]; try done.
  destruct u as [payload m mbody mkey]. simpl in *.
  destruct (create_object_verified _ (payload_key m) payload _ _ s) as [c1 s1]. binds in *.
  match goal with |- context [match ?x with Ok _ => _ | Err _ => _ end] => destruct x as [[]|] end; [|done].
  destruct (create_undisturbed b g rs (mkUpload payload m mbody mkey) (env 2%nat) (env 3%nat) s1) as [_ Hs2]; try done.
  simpl in *. by destruct (create_object_verified _ mkey mbody _ _ s1) as [c2 s2].
Qed.
Lemma put_served b g rs u env s : prepare b g rs = Ok u → undisturbed u s →
  (∀ n, answer (env n) = Served ∧ undisturbed u (arrivals (env n))) →
  (put b g rs env s).1 = Ok (u_manifest_key u).
Proof.
  intros Eu Hs Henv. unfold write_records. rewrite Eu. apply prepare_ok in Eu.
  assert (∀ n, undisturbed u (arrivals (env n))) as Harr by (intros n; apply Henv).
  destruct (create_undisturbed b g rs u (env 0%nat) (env 1%nat) s) as [Hs1 _]; try done.
  destruct u as [payload m mbody mkey]. simpl in *.
  pose proof (create_served (payload_key m) payload (env 0%nat) (env 1%nat) s (proj1 (Henv 0%nat))
    (proj1 (Henv 1%nat)) (proj1 Hs) (proj1 (Harr 0%nat))) as E1.
  destruct (create_object_verified _ (payload_key m) payload _ _ s) as [c1 s1]. binds in *. subst c1. binds.
  destruct Eu as [Hrs Hp [Hn Hn'] Hm Hb Hk]. simpl in *.
  rewrite (proj2 (verify_payload_ok digest m payload)) by (by rewrite Hm). binds.
  rewrite (serialize_round_trip _ _ _ Hp). binds.
  rewrite (proj2 (u64_try_from_ok _ _ _) (conj eq_refl Hn)). binds.
  assert (record_count m = Z.of_nat (length rs)) as -> by by rewrite Hm. rewrite Z.eqb_refl. binds.
  pose proof (create_served mkey mbody (env 2%nat) (env 3%nat) s1 (proj1 (Henv 2%nat))
    (proj1 (Henv 3%nat)) (proj2 Hs1) (proj2 (Harr 2%nat))) as E2.
  destruct (create_object_verified _ mkey mbody _ _ s1) as [c2 s2]. binds in *. subst c2. binds.
  rewrite (manifest_json _ _ Hb). binds. rewrite (proj2 (manifest_validate_ok m)).
  - binds. by rewrite bool_decide_eq_true_2.
  - rewrite Hm. split_and!; try done. apply payload_key_not_empty.
Qed.

(** *** The contract *)
Definition od_object (s : Objects) (b : BucketId) (k : string) : option (list Record_) :=
  match (get b k (quiet_env (λ _, Served)) s).1 with Ok rs => Some rs | Err _ => None end.

Lemma get_quiet_state b k env s : (get b k (quiet_env env) s).2 = s.
Proof.
  unfold od_get_bucket, read_manifest_records, read_object, quiet_env. simpl. rewrite !(right_id_L ∅ (∪)).
  by repeat (case_match; simplify_eq/=).
Qed.
Lemma od_object_readable s b k rs : od_object s b k = Some rs ↔ readable s b k rs.
Proof.
  unfold od_object. split.
  - destruct (get b k _ s) as [[rs'|] s'] eqn:E; simpl; [|done]. intros [= <-].
    pose proof (get_quiet_state b k (λ _, Served) s) as Es. rewrite E in Es. simpl in Es. subst s'.
    by apply od_get_ok in E as [_ ?].
  - intros Hr. by rewrite (readable_get digest not_found b k (quiet_env (λ _, Served)) s rs).
Qed.
Lemma put_frame b g rs env s b' k : linked s → ¬ od_generation_name b g k →
  od_object (put b (Some g) rs (quiet_env env) s).2 b' k = od_object s b' k.
Proof.
  intros Hl Hk. apply option_eq. intros rs'. rewrite !od_object_readable. split.
  - assert ((put b (Some g) rs (quiet_env env) s).2 !! k = s !! k) as Ek.
    { destruct (put_quiet b (Some g) rs env s) as [->|(u & Hu & Hcases)]; [done|].
      destruct (uploads_named _ _ _ _ Hu) as [Hp Hm].
      destruct Hcases as [Ha|(s1 & Ha & _ & Ha')]; [destruct (Ha k) as [->|(_ & -> & _)]; done|].
      destruct (Ha' k) as [->|(_ & -> & _)]; [|done]. destruct (Ha k) as [->|(_ & -> & _)]; done. }
    pose proof (write_records_extends digest not_found self b (Some g) rs (quiet_env env) s) as Hext.
    intros (body & m & payload & Hb & Hp & Hrest). rewrite Ek in Hb.
    destruct (Hl _ _ _ Hb Hp) as [payload' Hpk]. exists body, m, payload.
    pose proof (lookup_weaken _ _ _ _ Hpk Hext) as Hpk'.
    destruct_and!. split_and!; try done. congruence.
  - apply readable_mono, write_records_extends.
Qed.

Lemma put_contract b g rs env s : linked s →
  let '(res, s') := put b (Some g) rs (quiet_env env) s in
  linked s' ∧ s ⊆ s' ∧
  (∀ b' k, ¬ od_generation_name b g k → od_object s' b' k = od_object s b' k) ∧
  (∀ k, res = Ok k → od_generation_name b g k ∧ od_object s' b k = Some rs).
Proof.
  intros Hs. pose proof (put_linked b (Some g) rs env s Hs) as Hl.
  pose proof (write_records_extends digest not_found self b (Some g) rs (quiet_env env) s) as Hext.
  pose proof (λ b' k, put_frame b g rs env s b' k Hs) as Hf.
  destruct (put b (Some g) rs (quiet_env env) s) as [res s'] eqn:E. split_and!; [done|done|done|].
  intros k ->. apply put_ok in E as (u & Hu & -> & Hp & Hm). split; [by apply (uploads_named _ _ _ _ Hu)|].
  apply od_object_readable. by eapply uploaded_readable.
Qed.
Lemma get_contract b k env s :
  let '(res, s') := get b k (quiet_env env) s in s' = s ∧ (∀ rs, res = Ok rs → od_object s b k = Some rs).
Proof.
  pose proof (get_quiet_state b k env s) as Es. destruct (get b k (quiet_env env) s) as [res s'] eqn:E.
  simpl in Es. subst s'. split; [done|]. intros rs ->. apply od_object_readable.
  by apply od_get_ok in E as [_ ?].
Qed.

(** The object store implements the contract of the archive port. *)
#[local] Existing Instance OpenDalStore.
Program Definition opendal_laws `{ChronoLaws} :
    @ArchiveLaws _ (nat → reply) Objects (OpenDalStore digest not_found self) := {|
  archive_inv := linked;
  object := od_object;
  generation_name := od_generation_name
|}.
Next Obligation. intros. by eapply od_generation_name_inj. Qed.
Next Obligation.
  intros C CL env s b g rs Hs Hb Hg _ Hrs.
  change (archive_exec (PutBucketGeneration b g rs) env s) with (put b (Some g) rs (quiet_env env) s).
  pose proof (put_contract b g rs env s Hs) as Hput.
  destruct (put b (Some g) rs (quiet_env env) s) as [res s']. destruct Hput as (? & _ & Hf & Hk).
  split_and!; [done|auto|]. intros k E. destruct (Hk k E) as [? ?]. eauto.
Qed.
Next Obligation.
  intros C CL env s b k Hs Hb.
  change (archive_exec (GetBucket b k) env s) with (get b k (quiet_env env) s).
  pose proof (get_contract b k env s) as Hget.
  destruct (get b k (quiet_env env) s) as [res s']. destruct Hget as [-> Hget]. done.
Qed.

(** ** Theorems *)

(** C13. An acknowledged upload is durable: when [put_bucket] or [put_bucket_generation] returns a
    key, a later read of that key whose requests are served returns exactly the uploaded records,
    whatever other clients created in between or during either call, however the upload's own
    requests failed on the way, and for every other key that was readable before the upload still
    is. *)
Theorem acknowledged_upload_stays_readable b g rs env s k s' s'' env' :
  put b g rs env s = (Ok k, s') → s' ⊆ s'' →
  answer (env' 0%nat) = Served → answer (env' 1%nat) = Served →
  (get b k env' s'').1 = Ok rs ∧
  ∀ b' k' rs', (get b' k' (quiet_env (λ _, Served)) s).1 = Ok rs' → (get b' k' env' s'').1 = Ok rs'.
Proof.
  intros Eput Hs'' Ha0 Ha1.
  pose proof (write_records_extends digest not_found self b g rs env s) as Hext. rewrite Eput in Hext.
  assert (∀ b k rs, readable s'' b k rs → (get b k env' s'').1 = Ok rs) as Hget.
  { intros b0 k0 rs0 Hr. by rewrite (readable_get digest not_found b0 k0 env' s'' rs0). }
  split.
  - apply put_ok in Eput as (u & Hu & -> & Hp & Hm). apply Hget.
    by eapply readable_mono; [|eapply uploaded_readable].
  - intros b' k' rs' Er. apply Hget. eapply readable_mono; [etransitivity; [exact Hext|done]|].
    apply od_object_readable. unfold od_object. by rewrite Er.
Qed.

(** C21. What a read checks: a served read returns records exactly when the key holds a manifest of
    this version that hashes to the digest in the key's name, is of the requested bucket and names
    a payload of the recorded length and digest, which decodes to the recorded number of records,
    all of the bucket and in clustering order. So no corrupted, truncated, misplaced or foreign
    object is ever returned as records. *)
Theorem archive_read_is_checked b k env s rs :
  answer (env 0%nat) = Served → answer (env 1%nat) = Served →
  let s' := (s ∪ arrivals (env 0%nat)) ∪ arrivals (env 1%nat) in
  ((get b k env s).1 = Ok rs → readable s' b k rs) ∧ (readable s b k rs → (get b k env s).1 = Ok rs).
Proof.
  intros Ha0 Ha1 s'. split.
  - destruct (get b k env s) as [[rs'|] s1] eqn:E; simpl; [|done]. intros [= <-].
    by apply od_get_ok in E as [-> ?].
  - intros Hr. by rewrite (readable_get digest not_found b k env s rs).
Qed.

(** C20. A failed upload can be retried: whatever requests of the first attempt failed or timed out,
    and whether or not their writes took effect, a second attempt whose requests are served returns
    the upload's key, provided no other client occupied one of its two names. *)
Theorem upload_retry_succeeds b g rs u env env' s : prepare b g rs = Ok u → undisturbed u s →
  (∀ n, undisturbed u (arrivals (env n))) →
  (∀ n, answer (env' n) = Served ∧ undisturbed u (arrivals (env' n))) →
  (put b g rs env' (put b g rs env s).2).1 = Ok (u_manifest_key u).
Proof. intros Eu Hs Henv Henv'. apply put_served; [done|by apply put_undisturbed|done]. Qed.

(** C12. The object store refines the archive port: from a store in which every manifest's payload
    is present, a fenced upload keeps that so, changes what is readable only under the names of its
    own bucket and generation, which no other bucket or generation shares, and returns such a name
    under which the uploaded records are readable; a read changes nothing and returns what is
    readable. *)
Theorem opendal_store_refines `{ChronoLaws} b g rs k env s : linked s → canonical b → 0 <= g →
  (let '(res, s') := put b (Some g) rs (quiet_env env) s in
   linked s' ∧ s ⊆ s' ∧
   (∀ b' k', ¬ od_generation_name b g k' → od_object s' b' k' = od_object s b' k') ∧
   (∀ k', res = Ok k' → od_generation_name b g k' ∧ od_object s' b k' = Some rs)) ∧
  (∀ b' g', canonical b' → 0 <= g' → od_generation_name b g k → od_generation_name b' g' k → b' = b ∧ g' = g) ∧
  (let '(res, s') := get b k (quiet_env env) s in s' = s ∧ (∀ rs', res = Ok rs' → od_object s b k = Some rs')).
Proof.
  intros Hs Hb Hg. split_and!; [by apply put_contract| |by apply get_contract].
  intros b' g' Hb' Hg' Hk Hk'. by eapply od_generation_name_inj.
Qed.
End uploads.
