(* ===== verification/Codecs.v ===== *)
(** Codecs that satisfy the laws [ArchiveFormat] assumes of serde_json and of the Parquet library:
    values are written through their countable encoding, one byte per bit, behind a tag byte that
    tells record arrays, manifests and Parquet files apart. They make the theorems about archive
    objects executable on concrete uploads; nothing else depends on them. *)
From S2P Require Import Prelude Chrono Model Storage Paths Text ArchiveFormat.
Local Open Scope Z_scope.

(** ** Bytes of a number *)
Fixpoint pos_bytes (p : positive) : list byte :=
  match p with xH => [] | xO p => Byte.x00 :: pos_bytes p | xI p => Byte.x01 :: pos_bytes p end.
Fixpoint bytes_pos (l : list byte) : positive :=
  match l with [] => xH | b :: l => if decide (b = Byte.x00) then xO (bytes_pos l) else xI (bytes_pos l) end.
Lemma bytes_pos_bytes p : bytes_pos (pos_bytes p) = p.
Proof. induction p as [p IH|p IH|]; simpl; [by rewrite IH..|done]. Qed.

(** ** Countable data *)
#[export] Instance Record_eq_dec' : EqDecision Record_.
Proof. solve_decision. Defined.
#[export] Program Instance Record_countable : Countable Record_ :=
  inj_countable' (λ r, (r_partition_key r, (event_time r, (sort_key r, value r))))
    (λ '(p, (t, (k, v))), mkRecord p t k v) _.
Next Obligation. by intros []. Qed.
#[export] Program Instance ArchiveFormat_countable : Countable ArchiveFormat :=
  inj_countable' (λ f, match f with Json => true | Parquet_ => false end)
    (λ x : bool, if x then Json else Parquet_) _.
Next Obligation. by intros []. Qed.
#[export] Program Instance ArchiveManifest_countable : Countable ArchiveManifest :=
  inj_countable' (λ m, (man_version m, (man_format m, (schema_version m, (man_bucket m, (man_generation m,
      (payload_key m, (record_count m, (payload_bytes m, (man_sha256 m, clustering_key m))))))))))
    (λ '(v, (f, (sv, (b, (g, (k, (n, (l, (d, c))))))))), mkManifest v f sv b g k n l d c) _.
Next Obligation. by intros []. Qed.
#[export] Instance Column_eq_dec : EqDecision Column.
Proof. solve_decision. Defined.
#[export] Program Instance Column_countable : Countable Column :=
  inj_countable' (λ c, match c with
      | BinaryArray l => inl l | TimestampNanosecondArray tz l => inr (inl (tz, l)) | OtherArray n => inr (inr n) end)
    (λ c : list (option (list byte)) + (option string * list (option Z) + nat), match c with
      | inl l => BinaryArray l | inr (inl (tz, l)) => TimestampNanosecondArray tz l | inr (inr n) => OtherArray n end) _.
Next Obligation. by intros []. Qed.
#[export] Program Instance TimeUnit_countable : Countable TimeUnit :=
  inj_countable' (λ u, match u with Second => (true, true) | Millisecond => (true, false)
      | Microsecond => (false, true) | Nanosecond => (false, false) end)
    (λ x : bool * bool, match x with (true, true) => Second | (true, false) => Millisecond
      | (false, true) => Microsecond | (false, false) => Nanosecond end) _.
Next Obligation. by intros []. Qed.
#[export] Program Instance DataType_countable : Countable DataType :=
  inj_countable' (λ d, match d with Binary => inl true | Timestamp u tz => inr (inl (u, tz)) | OtherDataType s => inr (inr s) end)
    (λ d : bool + (TimeUnit * option string + string), match d with
      | inl _ => Binary | inr (inl (u, tz)) => Timestamp u tz | inr (inr s) => OtherDataType s end) _.
Next Obligation. by intros []. Qed.
#[export] Program Instance Field_countable : Countable Field :=
  inj_countable' (λ f, (field_name f, (data_type f, (nullable f, metadata f))))
    (λ '(n, (d, (b, m))), mkField n d b m) _.
Next Obligation. by intros []. Qed.
#[export] Instance RecordBatch_eq_dec : EqDecision RecordBatch.
Proof. solve_decision. Defined.
#[export] Program Instance RecordBatch_countable : Countable RecordBatch :=
  inj_countable' (λ b, (batch_columns b, num_rows b)) (λ '(c, n), mkBatch c n) _.
Next Obligation. by intros []. Qed.

(** ** Tagged bodies *)
Definition tagged {A} `{Countable A} (tag : byte) (a : A) : list byte := tag :: pos_bytes (encode a).
Definition untagged {A} `{Countable A} (tag : byte) (body : list byte) : Result string A :=
  match body with
  | t :: l => if decide (t = tag) then ok_or (decode (bytes_pos l)) "invalid value" else Err "expected value"
  | [] => Err "EOF while parsing a value"
  end.
Lemma untagged_tagged {A} `{Countable A} tag (a : A) : untagged tag (tagged tag a) = Ok a.
Proof. unfold untagged, tagged. by rewrite decide_True, bytes_pos_bytes, decode_encode. Qed.
Lemma untagged_other {A B} `{Countable A} `{Countable B} tag tag' (a : A) :
  tag' ≠ tag → is_ok (untagged (A := B) tag (tagged tag' a)) = false.
Proof. intros Ht. unfold untagged, tagged. by rewrite decide_False. Qed.

(** A body that would not fit the address space cannot be built. *)
Definition sized (body : list byte) : Result string (list byte) :=
  if Z.of_nat (length body) <=? usize_max then Ok body else Err "out of memory".
Lemma sized_ok body body' : sized body = Ok body' → body' = body ∧ Z.of_nat (length body) <= usize_max.
Proof. unfold sized. case_match; [|done]. zbool. by intros [= <-]. Qed.

#[export] Instance sample_json : SerdeJson := {|
  records_to_vec rs := sized (tagged Byte.x5b rs);
  records_from_slice := untagged Byte.x5b;
  manifest_to_vec m := sized (tagged Byte.x7b m);
  manifest_from_slice := untagged Byte.x7b
|}.
#[export] Instance sample_json_laws : SerdeJsonLaws.
Proof.
  split; simpl.
  - intros rs body [-> _]%sized_ok. apply untagged_tagged.
  - intros m body [-> _]%sized_ok. apply untagged_tagged.
  - intros m body [-> ?]%sized_ok. done.
  - intros rs body [-> _]%sized_ok. by apply untagged_other.
Qed.

(** The reader yields two batches: the first half of the rows and the rest. *)
Definition halves (b : RecordBatch) : list nat := [num_rows b / 2; num_rows b - num_rows b / 2]%nat.
#[export] Instance sample_parquet : Parquet := {|
  batch_try_new fields columns :=
    let n := from_option column_length 0%nat (head columns) in
    if forallb (λ c, Nat.eqb (column_length c) n) columns then Ok (mkBatch (zip fields columns) n)
    else Err "all columns in a record batch must have the same length";
  zstd_level_try_new n := if (1 <=? n) && (n <=? 22) then Ok n else Err "invalid compression level";
  arrow_write fields properties batch := Ok (tagged Byte.x50 batch);
  arrow_read body n := batch ← untagged Byte.x50 body; Ok (Ok <$> chunks 0 (halves batch) batch)
|}.
#[export] Instance sample_parquet_laws : ParquetLaws.
Proof.
  split; simpl.
  - intros fields columns batch. case_match eqn:E; [|done]. intros [= <-]. simpl. split; [done|].
    apply Forall_forall. intros c Hc. rewrite forallb_forall in E. apply Nat.eqb_eq, E. by apply list_elem_of_In.
  - intros fields properties batch body n [= <-] _ _. exists (halves batch). rewrite untagged_tagged. split; [|done].
    unfold halves. cbn [sum_list sum_list_with id]. pose proof (Nat.Div0.div_le_upper_bound (num_rows batch) 2 (num_rows batch)). lia.
  - intros fields properties batch body [= <-]. by apply untagged_other.
Qed.

(** A digest of the right length; the store verifies bodies, not only digests. *)
Definition sample_digest (body : list byte) : list byte :=
  take 32 (match body with [] => [] | b :: _ => [b] end ++ replicate 32 Byte.x00).
Lemma sample_digest_length body : length (sample_digest body) = 32%nat.
Proof. by destruct body. Qed.
