(* ===== verification/MemArchive.v ===== *)
(** The in-memory archive tier (src/ports/storage.rs, [InMemoryArchiveStore]): a map from
    object names to record vectors. Proves that object names identify the bucket and the
    generation, that an upload can be read back, that a read only ever returns records of
    the requested bucket, and that the store implements [Storage.ArchiveLaws]. *)
From S2P Require Import Prelude Chrono Model Storage Paths.
Local Open Scope Z_scope.

Abbreviation MemArchive := (gmap string (list Record_)).

(** ** Object names *)
Definition bucket_object_key (b : BucketId) : string :=
  "archives/" +:+ table_id b +:+ "/" +:+ partition_key_path_component (partition_key b)
    +:+ "/" +:+ key b +:+ "/data.json".
Definition bucket_generation_key (b : BucketId) (generation : Z) : string :=
  "archives/" +:+ table_id b +:+ "/" +:+ partition_key_path_component (partition_key b)
    +:+ "/" +:+ key b +:+ "/generation-" +:+ fmt_u64 generation +:+ "/data.json".

(** ** Methods *)
Definition put_bucket (b : BucketId) (rs : list Record_) (m : MemArchive) :
    Result StoreError string * MemArchive :=
  (Ok (bucket_object_key b), <[bucket_object_key b := rs]> m).

Definition put_bucket_generation (b : BucketId) (generation : Z) (rs : list Record_) (m : MemArchive) :
    Result StoreError string * MemArchive :=
  (Ok (bucket_generation_key b generation), <[bucket_generation_key b generation := rs]> m).

(** The closure of [get_bucket]: a record that is not of the requested bucket. *)
Definition foreign (b : BucketId) (r : Record_) : bool :=
  negb (bool_decide (r_partition_key r = partition_key b)) || negb (bucket_contains b (event_time r)).

Definition get_bucket (b : BucketId) (object_key : string) (m : MemArchive) :
    Result StoreError (list Record_) :=
  match m !! object_key with
  | None => Err (Other ("archive object not found: " +:+ object_key))
  | Some rs => if existsb (foreign b) rs
               then Err (Other "archive records do not match the requested bucket") else Ok rs
  end.

#[export] Instance InMemoryArchiveStore : ArchiveStore unit MemArchive := λ X c,
  match c in archive_call X return unit → MemArchive → X * MemArchive with
  | PutBucket b rs => λ _ m, put_bucket b rs m
  | PutBucketGeneration b generation rs => λ _ m, put_bucket_generation b generation rs m
  | GetBucket b object_key => λ _ m, (get_bucket b object_key m, m)
  end.

(** ** Lemmas *)
Lemma foreign_false b rs : existsb (foreign b) rs = false ↔ Forall (in_bucket b) rs.
Proof. apply existsb_foreign. Qed.

(** What a read of a stored object returns. *)
Definition mem_object (m : MemArchive) (b : BucketId) (k : string) : option (list Record_) :=
  match get_bucket b k m with Ok rs => Some rs | Err _ => None end.

Lemma get_bucket_ok b k m rs :
  get_bucket b k m = Ok rs ↔ m !! k = Some rs ∧ Forall (in_bucket b) rs.
Proof.
  unfold get_bucket. destruct (m !! k) as [rs'|]; [|naive_solver].
  destruct (existsb (foreign b) rs') eqn:E.
  - split; [done|]. intros [[= ->] Hf%foreign_false]. congruence.
  - apply foreign_false in E. naive_solver.
Qed.
Lemma mem_object_ext m m' b k : m !! k = m' !! k → mem_object m b k = mem_object m' b k.
Proof. unfold mem_object, get_bucket. by intros ->. Qed.

(** A generation name read from its end: the components after the table are slash-free. *)
Lemma generation_key_split b g : bucket_generation_key b g =
  (((("archives/" +:+ table_id b) +:+ "/" +:+ partition_key_path_component (partition_key b))
    +:+ "/" +:+ key b) +:+ "/" +:+ ("generation-" +:+ fmt_u64 g)) +:+ "/" +:+ "data.json".
Proof.
  unfold bucket_generation_key. change "/generation-" with ("/" +:+ "generation-").
  change "/data.json" with ("/" +:+ "data.json"). by rewrite !string_app_assoc.
Qed.
Lemma generation_key_fields b b' g g' : slash_free (key b) → slash_free (key b') →
  0 <= g → 0 <= g' → bucket_generation_key b g = bucket_generation_key b' g' →
  table_id b = table_id b' ∧ partition_key b = partition_key b' ∧ key b = key b' ∧ g = g'.
Proof.
  intros Hk Hk' Hg Hg' E. rewrite !generation_key_split in E.
  assert (∀ n, slash_free ("generation-" +:+ fmt_u64 n)) as Hn.
  { intros n. apply slash_free_app. split; [|apply slash_free_pretty].
    repeat (apply slash_free_cons; [done|]). apply slash_free_nil. }
  apply last_slash_inj in E as [E _]; [|by repeat (apply slash_free_cons; [done|]); apply slash_free_nil..].
  apply last_slash_inj in E as [E Eg]; [|apply Hn..].
  apply last_slash_inj in E as [E Ek]; [|done..].
  apply last_slash_inj in E as [Et Ep]; [|apply slash_free_hex..].
  apply (inj (String.append _)) in Et, Eg. apply fmt_u64_inj in Eg; [|done..].
  by apply partition_key_path_component_inj in Ep.
Qed.

Section archive_laws.
Context `{ChronoLaws}.

Lemma bucket_generation_key_inj b b' g g' : canonical b → canonical b' → 0 <= g → 0 <= g' →
  bucket_generation_key b g = bucket_generation_key b' g' → b = b' ∧ g = g'.
Proof.
  intros Hb Hb' Hg Hg' E.
  apply generation_key_fields in E as (Et & Ep & Ek & ->); [|by try apply canonical_key_slash_free..].
  split; [|done]. by apply canonical_key_inj.
Qed.

(** The in-memory archive implements the contract. *)
#[export] Program Instance mem_archive_laws : ArchiveLaws unit MemArchive := {|
  archive_inv := λ _, True;
  object := mem_object;
  generation_name := λ b g k, k = bucket_generation_key b g
|}.
Next Obligation. intros b b' g g' k Hb Hb' Hg Hg' -> E. by apply bucket_generation_key_inj. Qed.
Next Obligation.
  intros env s b g rs _ Hb Hg _ Hrs. simpl. split_and!; [done|..].
  - intros b' k _ Hk. apply mem_object_ext. by rewrite lookup_insert_ne.
  - intros k [= <-]. split; [done|]. exists rs. split; [|done].
    unfold mem_object. assert (get_bucket b (bucket_generation_key b g)
      (<[bucket_generation_key b g:=rs]> s) = Ok rs) as ->; [|done].
    apply get_bucket_ok. by rewrite lookup_insert_eq.
Qed.
Next Obligation.
  intros env s b k _ Hb. simpl. split_and!; [done..|]. intros rs E. unfold mem_object. by rewrite E.
Qed.

(** ** Theorems *)

(** Object names are unambiguous: two fenced uploads share a name only if they are of the
    same bucket and the same generation, so no upload overwrites another attempt's object;
    and the name survives table identifiers that themselves contain slashes. *)
Theorem generation_names_identify_upload b b' g g' : canonical b → canonical b' →
  0 <= g <= u64_max → 0 <= g' <= u64_max →
  (bucket_generation_key b g = bucket_generation_key b' g' ↔ b = b' ∧ g = g').
Proof.
  intros Hb Hb' Hg Hg'. split; [|by intros [-> ->]].
  apply bucket_generation_key_inj; [done..|lia|lia].
Qed.

(** Round trip: reading the name an upload returned gives back exactly the uploaded records
    when they are all of the bucket, whatever other generations and buckets are uploaded
    later, and an error when one is not. *)
Theorem archive_round_trip b g rs m later : canonical b → 0 <= g →
  Forall (λ '(b', g', _), canonical b' ∧ 0 <= g' ∧ (b', g') ≠ (b, g)) later →
  let '(res, m') := put_bucket_generation b g rs m in
  let m'' := foldl (λ m '(b', g', rs'), (put_bucket_generation b' g' rs' m).2) m' later in
  ∃ k, res = Ok k ∧
  (Forall (in_bucket b) rs → get_bucket b k m'' = Ok rs) ∧
  (¬ Forall (in_bucket b) rs →
   get_bucket b k m'' = Err (Other "archive records do not match the requested bucket")).
Proof.
  intros Hb Hg Hl. simpl. exists (bucket_generation_key b g). split; [done|].
  assert (∀ m, m !! bucket_generation_key b g = Some rs →
    foldl (λ (m : MemArchive) '(b', g', rs'), <[bucket_generation_key b' g' := rs']> m) m later
      !! bucket_generation_key b g = Some rs) as Hfold.
  { induction Hl as [|[[b' g'] rs'] later (Hb' & Hg' & Hne) Hl IH]; intros m0 Hm; simpl; [done|].
    apply IH. rewrite lookup_insert_ne; [done|]. intros E.
    apply bucket_generation_key_inj in E as [-> ->]; done. }
  specialize (Hfold _ (lookup_insert_eq m (bucket_generation_key b g) rs)).
  split; [intros; by apply get_bucket_ok|].
  intros Hf. unfold get_bucket. rewrite Hfold.
  destruct (existsb (foreign b) rs) eqn:E; [done|]. by apply foreign_false in E.
Qed.
End archive_laws.
