(* ===== verification/ArchiveCache.v ===== *)
(** The archive cache (src/adapters/immutable_archive_cache.rs, [ImmutableArchiveCache]):
    a least-recently-used cache of successful reads, bounded in estimated bytes and in
    entries, in front of any [ArchiveStore]. The inner store is a parameter with its
    [ArchiveLaws]; the cache is shown to implement the same laws, to stay within its
    bounds, to evict the least recently used entry first, and to answer as the inner
    store would. *)
From S2P Require Import Prelude Chrono Model Storage.
Local Open Scope Z_scope.

(** ** State *)
Abbreviation CacheKey := (BucketId * string)%type.
Record CacheEntry := mkCacheEntry {
  c_records : list Record_;
  estimated_bytes : Z;
  last_access : Z
}.
Record CacheState := mkCacheState { entries : gmap CacheKey CacheEntry; used_bytes : Z }.

Record Cache (S : Type) := mkCache {
  inner : S;
  cached : CacheState;
  max_bytes : Z;
  max_entries : Z;
  next_access : Z
}.
Arguments mkCache {S}.
Arguments inner {S}. Arguments cached {S}. Arguments max_bytes {S}.
Arguments max_entries {S}. Arguments next_access {S}.

Definition cache_new {S} (inner : S) (max_bytes max_entries : Z) : Cache S :=
  mkCache inner (mkCacheState ∅ 0) max_bytes max_entries 0.

Section cache.
(** [size_of::<Record>()], which the compiler chooses. *)
Context (size_of_record : Z).

(** ** Operations *)
Definition estimated_records_size (rs : list Record_) : Z :=
  foldl (λ size r, saturating_add (saturating_add (saturating_add (saturating_add size size_of_record)
    (Z.of_nat (length (r_partition_key r)))) (Z.of_nat (length (sort_key r))))
    (Z.of_nat (length (value r)))) 0 rs.

Definition remove_entry (st : CacheState) (k : CacheKey) : CacheState :=
  match entries st !! k with
  | None => st
  | Some e => mkCacheState (delete k (entries st)) (saturating_sub (used_bytes st) (estimated_bytes e))
  end.

(** [iter().min_by_key(last_access)]: the first minimum in iteration order. *)
Definition older (p q : CacheKey * CacheEntry) : CacheKey * CacheEntry :=
  if last_access q.2 <? last_access p.2 then q else p.
Definition eviction_key (st : CacheState) : option CacheKey :=
  match map_to_list (entries st) with
  | [] => None
  | p :: l => Some (foldl older p l).1
  end.

(** The [while] loop of [cache]; each turn removes one entry or breaks. *)
Definition over_limit (max_bytes max_entries est : Z) (st : CacheState) : bool :=
  (max_entries <=? Z.of_nat (size (entries st))) ||
  (max_bytes <? saturating_add (used_bytes st) est).
Fixpoint evict (fuel : nat) (max_bytes max_entries est : Z) (st : CacheState) : CacheState :=
  match fuel with
  | O => st
  | S fuel =>
    if over_limit max_bytes max_entries est st then
      match eviction_key st with
      | None => st
      | Some k => evict fuel max_bytes max_entries est (remove_entry st k)
      end
    else st
  end.

Section over_inner.
Context {E S : Type} `{ArchiveStore E S}.

Definition get_cached (b : BucketId) (object_key : string) (c : Cache S) :
    option (list Record_) * Cache S :=
  let access := next_access c in
  let next := wrapping_add_u64 access 1 in
  match entries (cached c) !! (b, object_key) with
  | None => (None, mkCache (inner c) (cached c) (max_bytes c) (max_entries c) next)
  | Some e => (Some (c_records e),
      mkCache (inner c) (mkCacheState (<[(b, object_key) :=
          mkCacheEntry (c_records e) (estimated_bytes e) access]> (entries (cached c)))
          (used_bytes (cached c))) (max_bytes c) (max_entries c) next)
  end.

Definition cache (b : BucketId) (object_key : string) (rs : list Record_) (c : Cache S) : Cache S :=
  if (max_bytes c =? 0) || (max_entries c =? 0) then c
  else let est := estimated_records_size rs in
  if max_bytes c <? est then c
  else
    let access := next_access c in
    let st := remove_entry (cached c) (b, object_key) in
    let st := evict (size (entries st)) (max_bytes c) (max_entries c) est st in
    mkCache (inner c)
      (mkCacheState (<[(b, object_key) := mkCacheEntry rs est access]> (entries st))
         (saturating_add (used_bytes st) est))
      (max_bytes c) (max_entries c) (wrapping_add_u64 access 1).

Definition invalidate (b : BucketId) (object_key : string) (c : Cache S) : Cache S :=
  mkCache (inner c) (remove_entry (cached c) (b, object_key)) (max_bytes c) (max_entries c) (next_access c).

Definition set_inner (s : S) (c : Cache S) : Cache S :=
  mkCache s (cached c) (max_bytes c) (max_entries c) (next_access c).

(** [put_bucket] and [put_bucket_generation] forward and then drop the written name. *)
Definition cache_put (put : archive_call (Result StoreError string)) (b : BucketId) (env : E)
    (c : Cache S) : Result StoreError string * Cache S :=
  let '(res, s) := archive_exec put env (inner c) in
  match res with
  | Err err => (Err err, set_inner s c)
  | Ok object_key => (Ok object_key, invalidate b object_key (set_inner s c))
  end.

Definition cache_get_bucket (b : BucketId) (object_key : string) (env : E) (c : Cache S) :
    Result StoreError (list Record_) * Cache S :=
  match get_cached b object_key c with
  | (Some rs, c) => (Ok rs, c)
  | (None, c) =>
    let '(res, s) := archive_exec (GetBucket b object_key) env (inner c) in
    match res with
    | Err err => (Err err, set_inner s c)
    | Ok rs => (Ok rs, cache b object_key rs (set_inner s c))
    end
  end.

#[export] Instance ImmutableArchiveCache : ArchiveStore E (Cache S) := λ X c,
  match c in archive_call X return E → Cache S → X * Cache S with
  | PutBucket b rs => cache_put (PutBucket b rs) b
  | PutBucketGeneration b generation rs => cache_put (PutBucketGeneration b generation rs) b
  | GetBucket b object_key => cache_get_bucket b object_key
  end.
End over_inner.

(** ** Invariants *)
(** Total of the estimates of the cached entries. *)
Definition total (m : gmap CacheKey CacheEntry) : Z := map_fold (λ _ e n, estimated_bytes e + n) 0 m.

Record state_ok (st : CacheState) : Prop := {
  st_used : used_bytes st = total (entries st);
  st_positive : ∀ k e, entries st !! k = Some e → 0 <= estimated_bytes e
}.
Record cache_ok {S} (c : Cache S) : Prop := {
  ok_state : state_ok (cached c);
  ok_limits : 0 <= max_bytes c < usize_max ∧ 0 <= max_entries c;
  ok_bytes : used_bytes (cached c) <= max_bytes c;
  ok_entries : Z.of_nat (size (entries (cached c))) <= max_entries c
}.

(** ** Lemmas *)
Lemma total_insert m k e : m !! k = None → total (<[k := e]> m) = estimated_bytes e + total m.
Proof.
  intros Hk. unfold total. rewrite map_fold_insert_L; [done| |done].
  intros. lia.
Qed.
Lemma total_delete m k e : m !! k = Some e → total m = estimated_bytes e + total (delete k m).
Proof.
  intros Hk. rewrite <- (insert_delete_id m k e) at 1 by done.
  apply total_insert. apply lookup_delete_eq.
Qed.
Lemma total_nonneg m : (∀ k e, m !! k = Some e → 0 <= estimated_bytes e) → 0 <= total m.
Proof.
  induction m as [|k e m Hk IH] using map_ind; intros Hpos; [done|].
  rewrite total_insert by done. pose proof (Hpos k e (lookup_insert_eq _ _ _)).
  assert (0 <= total m); [|lia]. apply IH. intros k' e' Hk'. apply (Hpos k').
  rewrite lookup_insert_ne; [done|]. congruence.
Qed.

Lemma remove_entry_entries st k : entries (remove_entry st k) = delete k (entries st).
Proof. unfold remove_entry. destruct (entries st !! k) eqn:E; simpl; [done|]. by rewrite delete_id. Qed.
Lemma remove_entry_ok st k : state_ok st →
  state_ok (remove_entry st k) ∧ used_bytes (remove_entry st k) <= used_bytes st.
Proof.
  intros [Hu Hp]. unfold remove_entry. destruct (entries st !! k) as [e|] eqn:E; [|split; [done|lia]].
  assert (∀ k' e', delete k (entries st) !! k' = Some e' → 0 <= estimated_bytes e') as Hp'.
  { intros k' e' [_ ?]%lookup_delete_Some. by eapply Hp. }
  pose proof (total_delete _ _ _ E) as Ht. pose proof (total_nonneg _ Hp') as Hn. pose proof (Hp _ _ E).
  assert (saturating_sub (used_bytes st) (estimated_bytes e) = total (delete k (entries st))) as Hs
    by (unfold saturating_sub; lia).
  split; [split; simpl; [done|exact Hp']|]. simpl. lia.
Qed.

Lemma older_min p l : foldl older p l ∈ p :: l ∧
  Forall (λ q, last_access (foldl older p l).2 <= last_access q.2) (p :: l).
Proof.
  revert p. induction l as [|q l IH]; intros p; simpl.
  - split; [by left|]. repeat constructor. lia.
  - destruct (IH (older p q)) as [Hin Hmin]. rewrite Forall_cons in Hmin. destruct Hmin as [Ho Hl].
    unfold older in *. destruct (last_access q.2 <? last_access p.2) eqn:E; zbool;
      (split; [set_solver|]); repeat constructor; try done; lia.
Qed.
Lemma eviction_key_Some st k : eviction_key st = Some k →
  ∃ e, entries st !! k = Some e ∧
  ∀ k' e', entries st !! k' = Some e' → last_access e <= last_access e'.
Proof.
  unfold eviction_key. destruct (map_to_list (entries st)) as [|p l] eqn:E; [done|]. intros [= <-].
  destruct (older_min p l) as [Hin Hmin]. rewrite <- E in Hin, Hmin. rewrite Forall_forall in Hmin.
  destruct (foldl older p l) as [k e] eqn:Ef. exists e. split; [by apply elem_of_map_to_list|].
  intros k' e' Hk'. apply (Hmin (k', e')). by apply elem_of_map_to_list.
Qed.
Lemma eviction_key_None st : eviction_key st = None → entries st = ∅.
Proof.
  unfold eviction_key. destruct (map_to_list (entries st)) eqn:E; [|done]. by apply map_to_list_empty_iff in E.
Qed.
Lemma remove_entry_size st k e : entries st !! k = Some e →
  size (entries st) = S (size (entries (remove_entry st k))).
Proof.
  intros E. rewrite remove_entry_entries. rewrite <- (insert_delete_id _ _ _ E) at 1.
  apply map_size_insert_None, lookup_delete_eq.
Qed.

(** The eviction loop stops with the limits respected once it has one turn per entry. *)
Lemma evict_stops fuel mb me est st : state_ok st → (size (entries st) ≤ fuel)%nat →
  0 < me → 0 <= est <= mb → mb <= usize_max →
  over_limit mb me est (evict fuel mb me est st) = false.
Proof.
  intros Hst Hf Hme Hest Hmb. revert st Hst Hf. induction fuel as [|fuel IH]; intros st Hst Hf; simpl.
  - assert (entries st = ∅) as He by (apply map_size_empty_iff; lia).
    unfold over_limit. rewrite (st_used _ Hst), He, map_size_empty. unfold total. rewrite map_fold_empty.
    unfold saturating_add. apply orb_false_iff. split; [apply Z.leb_gt|apply Z.ltb_ge]; lia.
  - destruct (over_limit mb me est st) eqn:Eo; [|done].
    destruct (eviction_key st) as [k|] eqn:Ek.
    + apply eviction_key_Some in Ek as (e & He & _). apply IH; [by apply remove_entry_ok|].
      rewrite (remove_entry_size _ _ _ He) in Hf. lia.
    + apply eviction_key_None in Ek as He. unfold over_limit.
      rewrite (st_used _ Hst), He, map_size_empty. unfold total. rewrite map_fold_empty.
      unfold saturating_add. apply orb_false_iff. split; [apply Z.leb_gt|apply Z.ltb_ge]; lia.
Qed.
Lemma evict_ok fuel mb me est st : state_ok st →
  state_ok (evict fuel mb me est st) ∧ entries (evict fuel mb me est st) ⊆ entries st ∧
  (∀ k k' e e', entries st !! k = Some e → entries (evict fuel mb me est st) !! k = None →
     entries (evict fuel mb me est st) !! k' = Some e' → last_access e <= last_access e').
Proof.
  revert st. induction fuel as [|fuel IH]; intros st Hst; simpl.
  - split_and!; [done..|]. intros; congruence.
  - destruct (over_limit mb me est st); [|split_and!; [done..|intros; congruence]].
    destruct (eviction_key st) as [k0|] eqn:Ek; [|split_and!; [done..|intros; congruence]].
    apply eviction_key_Some in Ek as (e0 & He0 & Hmin).
    destruct (IH (remove_entry st k0)) as (Hok & Hsub & Hord); [by apply remove_entry_ok|].
    rewrite remove_entry_entries in Hsub, Hord.
    split_and!; [done| |].
    + etransitivity; [done|]. apply delete_subseteq.
    + intros k k' e e' Hk Hgone Hk'. destruct (decide (k = k0)) as [->|Hne].
      * simplify_eq. apply (Hmin k'). eapply lookup_weaken; [done|]. etransitivity; [done|]. apply delete_subseteq.
      * apply (Hord k k'); [by rewrite lookup_delete_ne|done..].
Qed.

Lemma evict_subseteq fuel mb me est st : entries (evict fuel mb me est st) ⊆ entries st.
Proof.
  revert st. induction fuel as [|fuel IH]; intros st; simpl; [done|].
  repeat case_match; try done. etransitivity; [apply IH|]. rewrite remove_entry_entries.
  apply delete_subseteq.
Qed.
Lemma inner_cache {S} b k rs (c : Cache S) : inner (cache b k rs c) = inner c.
Proof. unfold cache. by repeat case_match. Qed.

Lemma saturating_add_nonneg x y : 0 <= x → 0 <= y → 0 <= saturating_add x y.
Proof. unfold saturating_add. intros. unfold usize_max. lia. Qed.
Lemma estimated_nonneg rs : 0 <= size_of_record → 0 <= estimated_records_size rs.
Proof.
  intros Hs. unfold estimated_records_size.
  match goal with |- 0 <= foldl ?f _ _ =>
    assert (∀ n, 0 <= n → 0 <= foldl f n rs) as Hf; [|by apply Hf] end.
  induction rs as [|r rs IH]; intros n Hn; simpl; [done|].
  apply IH. repeat apply saturating_add_nonneg; lia.
Qed.

Section cache_lemmas.
Context {S : Type} (Hsize : 0 <= size_of_record).

Lemma get_cached_ok b k (c : Cache S) : cache_ok c → cache_ok (get_cached b k c).2.
Proof.
  intros [[Hu Hp] Hl Hb He]. unfold get_cached. destruct (entries (cached c) !! (b, k)) as [e|] eqn:E;
    [|by split].
  assert (size (<[(b, k) := mkCacheEntry (c_records e) (estimated_bytes e) (next_access c)]>
    (entries (cached c))) = size (entries (cached c))) as Hsz by (by apply map_size_insert_Some).
  split; simpl; rewrite ?Hsz; try done. split; simpl.
  - rewrite Hu, (total_delete _ _ _ E). rewrite <- insert_delete_eq, total_insert; [done|].
    apply lookup_delete_eq.
  - intros k' e' [[<- <-]|[_ ?]]%lookup_insert_Some; simpl; by eapply Hp.
Qed.

Lemma cache_cache_ok b k rs (c : Cache S) : cache_ok c → cache_ok (cache b k rs c).
Proof.
  intros [Hst Hl Hb He]. unfold cache. destruct (_ || _) eqn:Ez; [by split|].
  apply orb_false_iff in Ez as [Ez1%Z.eqb_neq Ez2%Z.eqb_neq].
  destruct (max_bytes c <? _) eqn:Eb; [by split|]. apply Z.ltb_ge in Eb.
  set (st0 := remove_entry (cached c) (b, k)). set (est := estimated_records_size rs) in *.
  destruct (remove_entry_ok (cached c) (b, k) Hst) as [Hst0 _].
  set (st := evict (size (entries st0)) (max_bytes c) (max_entries c) est st0).
  destruct (evict_ok (size (entries st0)) (max_bytes c) (max_entries c) est st0 Hst0) as (Hok & Hsub & _).
  pose proof (estimated_nonneg rs Hsize) as Hest.
  assert (over_limit (max_bytes c) (max_entries c) est st = false) as Hov
    by (apply evict_stops; try done; unfold est; lia).
  apply orb_false_iff in Hov as [Hn%Z.leb_gt Hsb%Z.ltb_ge]. fold st in Hok, Hsub.
  assert (entries st !! (b, k) = None) as Hnone.
  { eapply lookup_weaken_None; [|exact Hsub]. unfold st0. rewrite remove_entry_entries. apply lookup_delete_eq. }
  destruct Hok as [Hu Hp]. pose proof (total_nonneg _ Hp) as Hn0.
  assert (saturating_add (used_bytes st) est = used_bytes st + est) as Hadd
    by (unfold saturating_add in *; lia).
  split; simpl; [split; simpl|done|lia|].
  - rewrite total_insert by done. simpl. fold est. lia.
  - intros k' e' [[<- <-]|[_ ?]]%lookup_insert_Some; simpl; [done|by eapply Hp].
  - rewrite map_size_insert_None by done. lia.
Qed.

Lemma set_inner_ok s (c : Cache S) : cache_ok c → cache_ok (set_inner s c).
Proof. intros []. by split. Qed.
Lemma invalidate_ok b k (c : Cache S) : cache_ok c → cache_ok (invalidate b k c).
Proof.
  intros [Hst Hl Hb He]. destruct (remove_entry_ok _ (b, k) Hst) as [Hst' Hu].
  split; simpl; [done|done|lia|]. rewrite remove_entry_entries. rewrite map_size_delete.
  destruct (entries (cached c) !! (b, k)); simpl; lia.
Qed.

Lemma cache_exec_ok {E} `{ArchiveStore E S} {X} (call : archive_call X) env (c : Cache S) :
  cache_ok c → cache_ok (archive_exec call env c).2.
Proof.
  intros Hc. unfold archive_exec at 1, ImmutableArchiveCache.
  destruct call as [b rs|b g rs|b k]; unfold cache_put, cache_get_bucket.
  1,2: destruct (archive_exec _ env (inner c)) as [[k|err] s]; simpl;
    auto using set_inner_ok, invalidate_ok.
  pose proof (get_cached_ok b k c Hc). destruct (get_cached b k c) as [[rs|] c']; simpl in *; [done|].
  destruct (archive_exec _ env (inner c')) as [[rs|err] s]; simpl;
    auto using set_inner_ok, cache_cache_ok.
Qed.

Lemma cache_exec_limits {E} `{ArchiveStore E S} {X} (call : archive_call X) env (c : Cache S) :
  max_bytes (archive_exec call env c).2 = max_bytes c ∧
  max_entries (archive_exec call env c).2 = max_entries c.
Proof.
  unfold archive_exec at 1 2, ImmutableArchiveCache.
  destruct call as [b rs|b g rs|b k]; unfold cache_put, cache_get_bucket, get_cached, cache.
  1,2: by destruct (archive_exec _ env (inner c)) as [[k|err] s].
  destruct (entries (cached c) !! (b, k)); simpl; [done|].
  destruct (archive_exec _ env (inner c)) as [[rs|err] s]; simpl; by repeat case_match.
Qed.
End cache_lemmas.

(** ** Coherence with the inner store *)
Section coherence.
Context `{Chrono} {E S : Type} `{ArchiveStore E S} `{!ArchiveLaws E S}.

(** Every cached value is what the inner store holds under that name. *)
Definition coherent (c : Cache S) : Prop := ∀ b k e,
  entries (cached c) !! (b, k) = Some e → canonical b ∧ object (inner c) b k = Some (c_records e).

Lemma coherent_get_cached b k (c : Cache S) : coherent c → coherent (get_cached b k c).2.
Proof.
  intros Hc. unfold get_cached. destruct (entries (cached c) !! (b, k)) as [e|] eqn:Ee; [|done].
  intros b' k' e'. simpl. intros [[Hk <-]|[_ ?]]%lookup_insert_Some; simpl; [|by apply Hc].
  simplify_eq. by apply Hc.
Qed.
Lemma coherent_cache b k rs (c : Cache S) : canonical b → object (inner c) b k = Some rs →
  coherent c → coherent (cache b k rs c).
Proof.
  intros Hb Ho Hc. unfold cache. repeat (case_match; [done|]).
  intros b' k' e'. simpl. intros [[Hk <-]|[_ Hl]]%lookup_insert_Some; simpl.
  - by simplify_eq.
  - apply Hc. eapply lookup_weaken in Hl; [|apply evict_subseteq].
    rewrite remove_entry_entries in Hl. by apply lookup_delete_Some in Hl as [_ ?].
Qed.

Lemma cache_put_laws env (c : Cache S) b g rs :
  archive_inv (inner c) → coherent c → canonical b → 0 <= g →
  (∀ b' k, canonical b' → generation_name b g k → object (inner c) b' k = None) → Forall (in_bucket b) rs →
  let '(res, c') := cache_put (PutBucketGeneration b g rs) b env c in
  (archive_inv (inner c') ∧ coherent c') ∧
  (∀ b' k, canonical b' → ¬ generation_name b g k → object (inner c') b' k = object (inner c) b' k) ∧
  (∀ k, res = Ok k → generation_name b g k ∧ ∃ rs', object (inner c') b k = Some rs' ∧ rs' ≡ₚ rs).
Proof.
  intros Hi Hc Hb Hg Hfresh Hrs. unfold cache_put.
  pose proof (put_generation env (inner c) b g rs Hi Hb Hg Hfresh Hrs) as Hput.
  destruct (archive_exec _ env (inner c)) as [res s']. destruct Hput as (Hi' & Hframe & Hres).
  assert (coherent (set_inner s' c)) as Hc'.
  { intros b' k' e' He'. simpl in *. destruct (Hc _ _ _ He') as [Hb' Ho].
    split; [done|]. rewrite Hframe; [done..|]. intros Hn. by rewrite Hfresh in Ho. }
  destruct res as [k|err]; simpl; split_and!; try done.
  intros b' k' e'. simpl. rewrite remove_entry_entries. intros [_ He']%lookup_delete_Some.
  by apply (Hc' b' k').
Qed.
Lemma cache_get_laws env (c : Cache S) b k : archive_inv (inner c) → coherent c → canonical b →
  let '(res, c') := cache_get_bucket b k env c in
  (archive_inv (inner c') ∧ coherent c') ∧
  (∀ b' k', canonical b' → object (inner c') b' k' = object (inner c) b' k') ∧
  (∀ rs, res = Ok rs → object (inner c) b k = Some rs).
Proof.
  intros Hi Hc Hb. unfold cache_get_bucket. pose proof (coherent_get_cached b k c Hc) as Hc1.
  unfold get_cached in *. destruct (entries (cached c) !! (b, k)) as [e|] eqn:Ee; simpl in *.
  { split_and!; try done. intros rs [= <-]. by apply Hc. }
  pose proof (get_bucket_spec env (inner c) b k Hi Hb) as Hget.
  destruct (archive_exec _ env (inner c)) as [[rs|err] s']; destruct Hget as (Hi' & Hframe & Hres);
    split_and!; try done.
  - by rewrite inner_cache.
  - apply coherent_cache; simpl; [done|rewrite Hframe by done; by apply Hres|].
    intros b' k' e' He'. destruct (Hc1 _ _ _ He'). simpl in *. by rewrite Hframe.
  - intros b' k' Hb'. rewrite inner_cache. by apply Hframe.
  - intros b' k' e' He'. destruct (Hc1 _ _ _ He'). simpl in *. by rewrite Hframe.
Qed.

(** The cache in front of a lawful archive is a lawful archive. *)
#[export] Program Instance cache_laws : ArchiveLaws E (Cache S) := {|
  archive_inv := λ c, archive_inv (inner c) ∧ coherent c;
  object := λ c, object (inner c);
  generation_name := generation_name;
  generation_name_inj := generation_name_inj
|}.
Next Obligation. intros env c b g rs [Hi Hc]. by apply cache_put_laws. Qed.
Next Obligation. intros env c b k [Hi Hc]. by apply cache_get_laws. Qed.

(** ** The states of a cache in use *)
(** A cache is created empty in front of an archive; it serves fenced uploads to generations under
    whose names nothing is readable, and reads; meanwhile other clients may change the inner
    store, where objects, once they are there, stay. *)
Inductive cache_reachable : Cache S → Prop :=
  | use_new s mb me : archive_inv s → cache_reachable (cache_new s mb me)
  | use_put c env b g rs : cache_reachable c → canonical b → 0 <= g →
      (∀ b' k, canonical b' → generation_name b g k → object (inner c) b' k = None) →
      Forall (in_bucket b) rs → cache_reachable (archive_exec (PutBucketGeneration b g rs) env c).2
  | use_get c env b k : cache_reachable c → canonical b → cache_reachable (archive_exec (GetBucket b k) env c).2
  | use_other c s : cache_reachable c → archive_inv s →
      (∀ b k l, canonical b → object (inner c) b k = Some l → object s b k = Some l) →
      cache_reachable (set_inner s c).

(** Nothing in such a cache is stale. *)
Lemma cache_reachable_coherent c : cache_reachable c → archive_inv (inner c) ∧ coherent c.
Proof.
  induction 1 as [s mb me Hs|c env b g rs _ [Hi Hc] Hb Hg Hf Hrs|c env b k _ [Hi Hc] Hb|c s _ [Hi Hc] Hs Hkeep].
  - split; [done|]. intros b k e. simpl. by rewrite lookup_empty.
  - pose proof (cache_put_laws env c b g rs Hi Hc Hb Hg Hf Hrs) as Hput.
    change (archive_exec (PutBucketGeneration b g rs) env c) with (cache_put (PutBucketGeneration b g rs) b env c).
    destruct (cache_put _ _ env c) as [res c']. apply Hput.
  - pose proof (cache_get_laws env c b k Hi Hc Hb) as Hget.
    change (archive_exec (GetBucket b k) env c) with (cache_get_bucket b k env c).
    destruct (cache_get_bucket b k env c) as [res c']. apply Hget.
  - split; [done|]. intros b k e He. destruct (Hc b k e He) as [Hb Ho]. split; [done|]. by apply Hkeep.
Qed.

(** An object that was read and fits is cached. *)
Lemma read_is_cached env c b k rs c' : cache_get_bucket b k env c = (Ok rs, c') →
  is_Some (entries (cached c) !! (b, k)) ∨
    max_bytes c ≠ 0 ∧ max_entries c ≠ 0 ∧ estimated_records_size rs <= max_bytes c →
  ∃ e, entries (cached c') !! (b, k) = Some e ∧ c_records e = rs.
Proof.
  unfold cache_get_bucket, get_cached. destruct (entries (cached c) !! (b, k)) as [e|] eqn:Ee.
  - intros [= <- <-] _. simpl. rewrite lookup_insert_eq. eauto.
  - destruct (archive_exec _ env _) as [[rs'|err] s']; [|done]. intros [= <- <-] [[]|(Hb & He & Hsz)]; [done|].
    unfold cache. simpl. rewrite (proj2 (Z.eqb_neq _ _) Hb), (proj2 (Z.eqb_neq _ _) He), (proj2 (Z.ltb_ge _ _) Hsz).
    simpl. rewrite lookup_insert_eq. eauto.
Qed.
Lemma cached_is_served env c b k e : entries (cached c) !! (b, k) = Some e →
  (cache_get_bucket b k env c).1 = Ok (c_records e) ∧ inner (cache_get_bucket b k env c).2 = inner c.
Proof. intros Ee. unfold cache_get_bucket, get_cached. by rewrite Ee. Qed.
End coherence.

(** ** Theorems *)

(** C36. Any sequence of archive calls, from an empty cache, keeps the byte counter equal to the
    sum of the cached estimates, and both limits respected. *)
Theorem cache_stays_within_bounds {E S} `{ArchiveStore E S} (s : S) (mb me : Z)
    (calls : list (E * {X & archive_call X})) :
  0 <= size_of_record → 0 <= mb < usize_max → 0 <= me →
  let c := foldl (λ c '(env, call), (archive_exec (projT2 call) env c).2) (cache_new s mb me) calls in
  used_bytes (cached c) = total (entries (cached c)) ∧
  used_bytes (cached c) <= mb ∧ Z.of_nat (size (entries (cached c))) <= me.
Proof.
  intros Hs Hmb Hme.
  assert (cache_ok (cache_new s mb me)) as Hnew.
  { split; simpl; [split; simpl; [done|]|lia|lia|by rewrite map_size_empty].
    intros k e. by rewrite lookup_empty. }
  match goal with |- let c := foldl ?f ?a ?l in _ => assert (∀ c0, cache_ok c0 →
    cache_ok (foldl f c0 l) ∧ max_bytes (foldl f c0 l) = max_bytes c0 ∧
    max_entries (foldl f c0 l) = max_entries c0) as Hall end.
  { induction calls as [|[env [X call]] calls IH]; intros c0 Hc0; simpl; [done|].
    destruct (IH (archive_exec call env c0).2) as (Hok & Hb & He); [by apply cache_exec_ok|].
    destruct (cache_exec_limits call env c0) as [Eb Ee]. split; [done|]. by rewrite Hb, He, Eb, Ee. }
  destruct (Hall _ Hnew) as ([[Hu _] _ Hb He] & Eb & Ee). simpl in *. rewrite Eb in Hb. rewrite Ee in He.
  done.
Qed.

(** C35. The cache is transparent. Created empty and after any sequence of fenced uploads, reads and
    changes of the inner store by other clients, a read that answers records answers what
    the inner store holds under that name at that moment. An entry in the cache is served without a
    call of the inner store, whatever faults that would have; without one the answer and the
    change of the inner store are the inner store's own, and a failed read leaves the entries
    as they were. And the cache does its work: once a read has answered records that fit
    into it, the next read of that name answers the same without a call of the inner store. *)
Theorem cache_is_transparent `{Chrono} {E S} `{ArchiveStore E S} `{!ArchiveLaws E S}
    env (c : Cache S) b k : cache_reachable c → canonical b →
  let '(res, c') := cache_get_bucket b k env c in
  (∀ rs, res = Ok rs → object (inner c) b k = Some rs) ∧
  match entries (cached c) !! (b, k) with
  | Some _ => is_ok res = true ∧ inner c' = inner c
  | None => res = (archive_exec (GetBucket b k) env (inner c)).1 ∧
      inner c' = (archive_exec (GetBucket b k) env (inner c)).2 ∧
      (is_ok res = false → entries (cached c') = entries (cached c))
  end ∧
  (∀ rs env', res = Ok rs →
     max_bytes c ≠ 0 → max_entries c ≠ 0 → estimated_records_size rs <= max_bytes c →
     (cache_get_bucket b k env' c').1 = Ok rs ∧ inner (cache_get_bucket b k env' c').2 = inner c').
Proof.
  intros Hu Hb. destruct (cache_reachable_coherent c Hu) as [Hi Hc].
  pose proof (cache_get_laws env c b k Hi Hc Hb) as Hget. pose proof (read_is_cached env c b k) as Hcached.
  destruct (cache_get_bucket b k env c) as [res c'] eqn:Er. destruct Hget as (_ & _ & Hres). split_and!; [done| |].
  - revert Er. unfold cache_get_bucket, get_cached.
    destruct (entries (cached c) !! (b, k)) as [e|] eqn:Ee; [by intros [= <- <-]|]. simpl.
    destruct (archive_exec _ env (inner c)) as [[rs|err] s]; intros [= <- <-]; [|done]. by rewrite inner_cache.
  - intros rs env' -> Hmb Hme Hsz. destruct (Hcached rs c' eq_refl) as (e & He & <-); [by right|].
    by apply cached_is_served.
Qed.

(** Eviction is least-recently-used and stops as soon as the new entry fits: the loop ends
    with both limits respected, removes nothing when they already are, and every entry it
    removed was used no later than every entry it kept. *)
Theorem eviction_is_lru mb me est st : state_ok st →
  0 < me → 0 <= est <= mb → mb <= usize_max →
  let st' := evict (size (entries st)) mb me est st in
  over_limit mb me est st' = false ∧ (over_limit mb me est st = false → st' = st) ∧
  entries st' ⊆ entries st ∧
  (∀ k k' e e', entries st !! k = Some e → entries st' !! k = None →
     entries st' !! k' = Some e' → last_access e <= last_access e').
Proof.
  intros Hst Hme Hest Hmb st'. split_and!.
  - by apply evict_stops.
  - intros Ho. unfold st'. destruct (size (entries st)); simpl; [done|]. by rewrite Ho.
  - apply evict_subseteq.
  - by apply evict_ok.
Qed.
End cache.
