(* ===== verification/Observability.v ===== *)
(** Telemetry (src/integrations/observability.rs): the hooks of the [Telemetry] trait as data, so that
    the programs of src/application can perform them, the no-op implementation, and the
    OpenTelemetry one, which turns each hook into measurements on its ten instruments.

    The trait's contract is that metric labels have bounded cardinality. [otel_series] lists every
    series, an instrument together with its attributes, that the implementation may report under;
    the theorems show that no hook leaves the list, whatever the bucket. *)
From Stdlib Require Import SpecFloat.
From S2P Require Import Prelude Chrono Model.
Local Open Scope Z_scope.

(** ** Hooks *)
Inductive ArchiveStage := StageSnapshot | StageUpload | StageDeleteHot.
Inductive CoordinatorPhase :=
  | PhaseQueued
  | PhaseClaimed
  | PhaseUploading
  | PhaseUploadedVerified
  | PhasePublishedCleanupPending
  | PhaseCompleted
  | PhaseRetryScheduled
  | PhaseFailedNeedsAttention.
Inductive ReadTier := TierHot | TierArchive.
#[export] Instance ArchiveStage_eq_dec : EqDecision ArchiveStage.
Proof. solve_decision. Defined.
#[export] Instance CoordinatorPhase_eq_dec : EqDecision CoordinatorPhase.
Proof. solve_decision. Defined.
#[export] Instance ReadTier_eq_dec : EqDecision ReadTier.
Proof. solve_decision. Defined.

(** A call of a method of the trait. Elapsed times are durations in nanoseconds; the callers pass
    them through [as_secs_f64]. *)
Inductive hook :=
  | archive_started (b : BucketId)
  | archive_completed (b : BucketId) (records elapsed : Z)
  | archive_failed (b : BucketId) (st : ArchiveStage)
  | read_routed (b : BucketId) (tier : ReadTier)
  | bucket_tier_counts (hot archiving archive : Z)
  | coordinator_cycle_started
  | coordinator_cycle_completed (elapsed : Z)
  | coordinator_cycle_failed (elapsed : Z)
  | coordinator_phase_entered (phase : CoordinatorPhase)
  | coordinator_phase_count (phase : CoordinatorPhase) (count : Z).
#[export] Instance hook_eq_dec : EqDecision hook.
Proof. solve_decision. Defined.

(** ** Measurements *)
(** [Duration::as_secs_f64], in binary64: the whole seconds plus the rest over a billion. *)
Definition f64_of_Z (z : Z) : spec_float := binary_normalize 53 1024 z 0 false.
Definition as_secs_f64 (nanos : Z) : spec_float :=
  SFadd 53 1024 (f64_of_Z (nanos / 1000000000))
    (SFdiv 53 1024 (f64_of_Z (nanos mod 1000000000)) (f64_of_Z 1000000000)).
#[global] Arguments as_secs_f64 : simpl never.

Inductive instrument_kind := CounterU64 | GaugeU64 | HistogramF64.
Record Instrument := mkInstrument { i_name : string; i_kind : instrument_kind; i_unit : option string }.
#[export] Instance instrument_kind_eq_dec : EqDecision instrument_kind.
Proof. solve_decision. Defined.
#[export] Instance Instrument_eq_dec : EqDecision Instrument.
Proof. solve_decision. Defined.

Inductive reading := U64 (z : Z) | F64 (x : spec_float).
(** [KeyValue]s are pairs; the order of the attributes is the order they are passed in. *)
Definition attributes : Type := list (string * string).
Record Measurement := mkMeasurement {
  m_instrument : Instrument;
  m_reading : reading;
  m_attributes : attributes
}.
(** What a metrics backend keeps apart: an instrument with its attributes. *)
Definition series_of (m : Measurement) : string * attributes :=
  (i_name (m_instrument m), m_attributes m).

Class Telemetry (T : Type) := report : T → hook → list Measurement.

(** [NoopTelemetry] takes every default method. *)
Inductive NoopTelemetry := Noop.
#[export] Instance noop_telemetry : Telemetry NoopTelemetry := λ _ _, [].

(** Building an instrument of a meter, and reporting on one. *)
Definition u64_counter (name : string) : Instrument := mkInstrument name CounterU64 None.
Definition u64_gauge (name : string) : Instrument := mkInstrument name GaugeU64 None.
Definition f64_histogram (name unit_ : string) : Instrument := mkInstrument name HistogramF64 (Some unit_).
Definition add_u64 (i : Instrument) (n : Z) (attrs : attributes) : Measurement := mkMeasurement i (U64 n) attrs.
Definition record_f64 (i : Instrument) (x : spec_float) (attrs : attributes) : Measurement :=
  mkMeasurement i (F64 x) attrs.

(** ** The pool's own metrics (src/adapters/cockroach_pool.rs, [PoolMetrics]) *)
Module pool_metrics.
Record PoolMetrics := mkPoolMetrics {
  pm_connections : Instrument;
  pm_acquires : Instrument;
  pm_acquire_duration : Instrument;
  pm_connections_created : Instrument;
  pm_connections_closed : Instrument
}.
Definition PoolMetrics_new : PoolMetrics :=
  mkPoolMetrics (u64_gauge "pulpitum.db.pool.connections")
    (u64_counter "pulpitum.db.pool.acquires")
    (f64_histogram "pulpitum.db.pool.acquire.duration" "s")
    (u64_counter "pulpitum.db.pool.connections.created")
    (u64_counter "pulpitum.db.pool.connections.closed").

Definition pool_connections (m : PoolMetrics) (idle in_use open max waiters : Z) : list Measurement :=
  map (λ '(state, count), add_u64 (pm_connections m) count [("pulpitum.db.pool.state", state)])
    [("idle", idle); ("in_use", in_use); ("open", open); ("max", max); ("waiters", waiters)].
Definition pool_acquire (m : PoolMetrics) (outcome : string) (elapsed : Z) : list Measurement :=
  let attrs := [("pulpitum.db.pool.outcome", outcome)] in
  [add_u64 (pm_acquires m) 1 attrs; record_f64 (pm_acquire_duration m) (as_secs_f64 elapsed) attrs].
Definition pool_connection_created (m : PoolMetrics) (outcome : string) : list Measurement :=
  [add_u64 (pm_connections_created m) 1 [("pulpitum.db.pool.outcome", outcome)]].
Definition pool_connection_closed (m : PoolMetrics) : list Measurement :=
  [add_u64 (pm_connections_closed m) 1 []].
End pool_metrics.

(** ** OpenTelemetry *)
Module otel.
Record OtelTelemetry := mkOtel {
  archive_runs : Instrument;
  archive_failures : Instrument;
  archive_records : Instrument;
  archive_duration : Instrument;
  routed_reads : Instrument;
  buckets : Instrument;
  coordinator_cycles : Instrument;
  coordinator_duration : Instrument;
  coordinator_phase_transitions : Instrument;
  coordinator_jobs : Instrument
}.
Definition OtelTelemetry_new : OtelTelemetry :=
  mkOtel (u64_counter "pulpitum.archive.runs")
    (u64_counter "pulpitum.archive.failures")
    (u64_counter "pulpitum.archive.records")
    (f64_histogram "pulpitum.archive.duration" "s")
    (u64_counter "pulpitum.query.routes")
    (u64_gauge "pulpitum.buckets")
    (u64_counter "pulpitum.archive.coordinator.cycles")
    (f64_histogram "pulpitum.archive.coordinator.duration" "s")
    (u64_counter "pulpitum.archive.coordinator.phase.transitions")
    (u64_gauge "pulpitum.archive.coordinator.jobs").

Definition bucket_strategy_label (b : BucketId) : string * string :=
  ("pulpitum.bucket.strategy", strategy_as_str (strategy b)).
Definition stage (s : ArchiveStage) : string * string :=
  ("pulpitum.archive.stage",
   match s with
   | StageSnapshot => "snapshot"
   | StageUpload => "upload"
   | StageDeleteHot => "delete_hot"
   end).
Definition coordinator_phase (p : CoordinatorPhase) : string * string :=
  ("pulpitum.archive.coordinator.phase",
   match p with
   | PhaseQueued => "queued"
   | PhaseClaimed => "claimed"
   | PhaseUploading => "uploading"
   | PhaseUploadedVerified => "uploaded_verified"
   | PhasePublishedCleanupPending => "published_cleanup_pending"
   | PhaseCompleted => "completed"
   | PhaseRetryScheduled => "retry_scheduled"
   | PhaseFailedNeedsAttention => "failed_needs_attention"
   end).
Definition coordinator_outcome (outcome : string) : string * string :=
  ("pulpitum.archive.coordinator.outcome", outcome).

(** [records as u64]: [usize] is as wide. *)
Definition as_u64 (z : Z) : Z := z mod 2 ^ 64.

Definition otel_archive_started (o : OtelTelemetry) (b : BucketId) : list Measurement :=
  [add_u64 (archive_runs o) 1 [bucket_strategy_label b; ("pulpitum.archive.outcome", "started")]].
Definition otel_archive_completed (o : OtelTelemetry) (b : BucketId) (records : Z) (elapsed : Z) :
    list Measurement :=
  let attrs := [bucket_strategy_label b; ("pulpitum.archive.outcome", "success")] in
  [add_u64 (archive_runs o) 1 attrs; add_u64 (archive_records o) (as_u64 records) attrs;
   record_f64 (archive_duration o) (as_secs_f64 elapsed) attrs].
Definition otel_archive_failed (o : OtelTelemetry) (b : BucketId) (failed_stage : ArchiveStage) :
    list Measurement :=
  [add_u64 (archive_failures o) 1 [bucket_strategy_label b; stage failed_stage]].
Definition otel_read_routed (o : OtelTelemetry) (b : BucketId) (tier : ReadTier) : list Measurement :=
  [add_u64 (routed_reads o) 1 [bucket_strategy_label b;
     ("pulpitum.query.tier", match tier with TierHot => "hot" | TierArchive => "archive" end)]].
Definition otel_bucket_tier_counts (o : OtelTelemetry) (hot archiving archive : Z) : list Measurement :=
  map (λ '(tier, count), add_u64 (buckets o) count [("pulpitum.bucket.tier", tier)])
    [("hot", hot); ("archiving", archiving); ("archive", archive)].
Definition otel_cycle_started (o : OtelTelemetry) : list Measurement :=
  [add_u64 (coordinator_cycles o) 1 [coordinator_outcome "started"]].
Definition otel_cycle_ended (o : OtelTelemetry) (outcome : string) (elapsed : Z) : list Measurement :=
  let attrs := [coordinator_outcome outcome] in
  [add_u64 (coordinator_cycles o) 1 attrs; record_f64 (coordinator_duration o) (as_secs_f64 elapsed) attrs].
Definition otel_phase_entered (o : OtelTelemetry) (p : CoordinatorPhase) : list Measurement :=
  [add_u64 (coordinator_phase_transitions o) 1 [coordinator_phase p]].
Definition otel_phase_count (o : OtelTelemetry) (p : CoordinatorPhase) (count : Z) : list Measurement :=
  [add_u64 (coordinator_jobs o) count [coordinator_phase p]].

#[global] Instance otel_telemetry : Telemetry OtelTelemetry := λ o h,
  match h with
  | archive_started b => otel_archive_started o b
  | archive_completed b records elapsed => otel_archive_completed o b records elapsed
  | archive_failed b st => otel_archive_failed o b st
  | read_routed b tier => otel_read_routed o b tier
  | bucket_tier_counts hot archiving archive => otel_bucket_tier_counts o hot archiving archive
  | coordinator_cycle_started => otel_cycle_started o
  | coordinator_cycle_completed elapsed => otel_cycle_ended o "success" elapsed
  | coordinator_cycle_failed elapsed => otel_cycle_ended o "failure" elapsed
  | coordinator_phase_entered p => otel_phase_entered o p
  | coordinator_phase_count p count => otel_phase_count o p count
  end.

(** ** Every series *)
Definition strategies : list BucketStrategy := [CalendarYearUtc; CalendarMonthUtc; CalendarDayUtc].
Definition stages : list ArchiveStage := [StageSnapshot; StageUpload; StageDeleteHot].
Definition phases : list CoordinatorPhase :=
  [PhaseQueued; PhaseClaimed; PhaseUploading; PhaseUploadedVerified; PhasePublishedCleanupPending;
   PhaseCompleted; PhaseRetryScheduled; PhaseFailedNeedsAttention].

Definition strategy_label (s : BucketStrategy) : string * string :=
  ("pulpitum.bucket.strategy", strategy_as_str s).
Definition otel_series : list (string * attributes) :=
  let per_strategy (name : string) (labels : list (string * string)) : list (string * attributes) :=
    s ← strategies; label ← labels; [(name, [strategy_label s; label])] in
  let per_label (name : string) (labels : list (string * string)) : list (string * attributes) :=
    map (λ label, (name, [label])) labels in
  let o := OtelTelemetry_new in
  per_strategy (i_name (archive_runs o))
    [("pulpitum.archive.outcome", "started"); ("pulpitum.archive.outcome", "success")] ++
  per_strategy (i_name (archive_failures o)) (map stage stages) ++
  per_strategy (i_name (archive_records o)) [("pulpitum.archive.outcome", "success")] ++
  per_strategy (i_name (archive_duration o)) [("pulpitum.archive.outcome", "success")] ++
  per_strategy (i_name (routed_reads o)) [("pulpitum.query.tier", "hot"); ("pulpitum.query.tier", "archive")] ++
  per_label (i_name (buckets o)) (map (pair "pulpitum.bucket.tier") ["hot"; "archiving"; "archive"]) ++
  per_label (i_name (coordinator_cycles o)) (map coordinator_outcome ["started"; "success"; "failure"]) ++
  per_label (i_name (coordinator_duration o)) (map coordinator_outcome ["success"; "failure"]) ++
  per_label (i_name (coordinator_phase_transitions o)) (map coordinator_phase phases) ++
  per_label (i_name (coordinator_jobs o)) (map coordinator_phase phases).

(** The reading has the type of its instrument. *)
Definition well_typed (m : Measurement) : bool :=
  match i_kind (m_instrument m), m_reading m with
  | (CounterU64 | GaugeU64), U64 _ => true
  | HistogramF64, F64 _ => true
  | _, _ => false
  end.

(** The same call about another bucket. *)
Definition rename (f : BucketId → BucketId) (h : hook) : hook :=
  match h with
  | archive_started b => archive_started (f b)
  | archive_completed b records elapsed => archive_completed (f b) records elapsed
  | archive_failed b st => archive_failed (f b) st
  | read_routed b tier => read_routed (f b) tier
  | h => h
  end.

(** ** Theorems *)
(** Membership in a closed list of series, decided by evaluation. *)
Ltac listed := apply (bool_decide_unpack _); vm_compute; exact I.

(** Some bucket of a strategy, and hooks that between them reach every series. *)
Definition sample_bucket (s : BucketStrategy) : BucketId := mkBucketId "t" [] s "k" 0 0.
Definition sample_hooks : list hook :=
  (s ← strategies; let b := sample_bucket s in
   [archive_started b; archive_completed b 1 1; read_routed b TierHot; read_routed b TierArchive] ++
   map (archive_failed b) stages) ++
  [bucket_tier_counts 1 1 1; coordinator_cycle_started; coordinator_cycle_completed 1; coordinator_cycle_failed 1] ++
  map coordinator_phase_entered phases ++ map (λ p, coordinator_phase_count p 1) phases.

(** The measurements of a hook, one by one. *)
Ltac each_measurement Hm :=
  cbn in Hm; repeat (apply elem_of_cons in Hm as [->|Hm]); try (by apply not_elem_of_nil in Hm).

Lemma series_is_listed h m : m ∈ report OtelTelemetry_new h → series_of m ∈ otel_series.
Proof.
  intros Hm. destruct h as [b|b n t|b st|b tier|x y z| |t|t|p|p n]; each_measurement Hm; unfold series_of; simpl;
    try unfold bucket_strategy_label; try destruct (strategy b); try destruct st; try destruct tier;
    try destruct p; listed.
Qed.
Lemma series_is_reached s : s ∈ otel_series → ∃ h m, m ∈ report OtelTelemetry_new h ∧ series_of m = s.
Proof.
  intros Hs. assert (Forall (λ s, s ∈ (h ← sample_hooks; map series_of (report OtelTelemetry_new h))) otel_series) as Hall.
  { apply (bool_decide_unpack _). by vm_compute. }
  rewrite Forall_forall in Hall. specialize (Hall s Hs).
  apply list_elem_of_bind in Hall as (h & Hh & _). change (map ?f ?l) with (f <$> l) in Hh.
  apply list_elem_of_fmap in Hh as (m & -> & Hm). eauto.
Qed.

(** C37. The metric labels have bounded cardinality: every measurement of the OpenTelemetry
    implementation belongs to one of 51 series, all distinct and all reachable, and reads a value of
    its instrument's type; and two calls that differ only in the bucket they are about report exactly
    the same whenever the two buckets have the same strategy, so no table, partition or bucket key
    ever reaches a metric. *)
Theorem telemetry_cardinality_is_bounded :
  length otel_series = 51%nat ∧ NoDup otel_series ∧
  (∀ h m, m ∈ report OtelTelemetry_new h → series_of m ∈ otel_series ∧ well_typed m = true) ∧
  (∀ s, s ∈ otel_series → ∃ h m, m ∈ report OtelTelemetry_new h ∧ series_of m = s) ∧
  (∀ f h, (∀ b, strategy (f b) = strategy b) →
     report OtelTelemetry_new (rename f h) = report OtelTelemetry_new h).
Proof.
  split_and!; [by vm_compute|apply (bool_decide_unpack _); by vm_compute| |apply series_is_reached|].
  - intros h m Hm. split; [by eapply series_is_listed|].
    destruct h; by each_measurement Hm.
  - intros f h Hf. destruct h; cbn; unfold otel_archive_started, otel_archive_completed, otel_archive_failed,
      otel_read_routed, bucket_strategy_label; by rewrite ?Hf.
Qed.
End otel.
