(* ===== verification/Pool.v ===== *)
(** The connection pool (src/adapters/cockroach_pool.rs): any number of callers acquiring and
    dropping connections, the tasks that drive the connections, and the start-up prewarm,
    interleaved one atomic operation at a time.

    - [shared] is [PoolInner] with its atomics, its mutex-protected stack and its semaphore;
      a connection's [AtomicU8] and whether its client reports itself closed are in [clients].
    - [thread] is where a caller, a driver task or the prewarm loop stands between two atomic
      operations; [advance] performs the next one, in the function the thread is in. Where the code awaits, the choice says how
      the await ended, or that the caller's future was dropped there.
    - the counters are 64-bit and wrap, as [fetch_add] and [fetch_sub] do.

    Proves that a connection has at most one user, that the open connections never exceed
    [max_connections], that a connection dropped after an uncertain outcome is never handed out
    again, what the four gauges count, and that no interleaving deadlocks. *)
From S2P Require Import Prelude Chrono Model Storage.
Local Open Scope Z_scope.

(** ** State *)
Inductive conn_state := CHECKED_OUT | IDLE | CLOSED.
#[export] Instance conn_state_eq_dec : EqDecision conn_state.
Proof. solve_decision. Defined.

(** [dead] is [client.is_closed()]. *)
Record PooledClient := mkClient { c_state : conn_state; dead : bool }.

(** [resurrected] is for the proofs only: how many connections the prewarm loop marked idle after
    their driver had closed them. *)
Record shared := mkShared {
  clients : list PooledClient;
  available : list nat;
  lock : option nat;
  permits : Z;
  idle : Z;
  in_use : Z;
  open : Z;
  waiters : Z;
  max : Z;
  resurrected : Z
}.

Inductive thread :=
  (* acquire *)
  | Acquiring
  | Waiting
  | Resolved (granted : bool)
  | Granted
  (* take_idle_connection *)
  | Locking
  | Popping
  | Claiming (c : nat)
  | Uncounting (c : nat)
  | Checking (c : nat)
  | Retiring (c : nat)
  | Retired
  (* open_connection *)
  | Opening
  | Failing (e : StoreError)
  | Refusing (e : StoreError)
  (* the checkout and its drop *)
  | Held (c : nat) (reusable : bool)
  | Releasing (c : nat) (reusable : bool)
  | Parking (c : nat)
  | Pushing (c : nat)
  | Closing
  | Returning
  | Done (res : option StoreError)
  (* a caller whose future was dropped while awaiting *)
  | CancelledWaiting
  | CancelledOpening
  (* the task spawned by register_connection *)
  | Driver (c : nat)
  | DriverClosed (was_idle : bool)
  | DriverIdle
  | DriverDone
  (* prewarm, with the number of connections still to open *)
  | Prewarming (n : nat)
  | Storing (c n : nat)
  | CountingIdle (c n : nat)
  | PushingIdle (c n : nat)
  | PrewarmFailed (e : StoreError).

Record pool := mkPool { sh : shared; threads : list thread }.

(** ** Atomic operations *)
Definition w64 (z : Z) : Z := z mod 2 ^ 64.
Definition add_idle (d : Z) (s : shared) : shared :=
  mkShared (clients s) (available s) (lock s) (permits s) (w64 (idle s + d)) (in_use s) (open s) (waiters s)
    (max s) (resurrected s).
Definition add_in_use (d : Z) (s : shared) : shared :=
  mkShared (clients s) (available s) (lock s) (permits s) (idle s) (w64 (in_use s + d)) (open s) (waiters s)
    (max s) (resurrected s).
Definition add_open (d : Z) (s : shared) : shared :=
  mkShared (clients s) (available s) (lock s) (permits s) (idle s) (in_use s) (w64 (open s + d)) (waiters s)
    (max s) (resurrected s).
Definition add_waiters (d : Z) (s : shared) : shared :=
  mkShared (clients s) (available s) (lock s) (permits s) (idle s) (in_use s) (open s) (w64 (waiters s + d))
    (max s) (resurrected s).
Definition add_permits (d : Z) (s : shared) : shared :=
  mkShared (clients s) (available s) (lock s) (permits s + d) (idle s) (in_use s) (open s) (waiters s)
    (max s) (resurrected s).
Definition set_lock (l : option nat) (s : shared) : shared :=
  mkShared (clients s) (available s) l (permits s) (idle s) (in_use s) (open s) (waiters s)
    (max s) (resurrected s).
Definition set_available (l : list nat) (s : shared) : shared :=
  mkShared (clients s) l (lock s) (permits s) (idle s) (in_use s) (open s) (waiters s)
    (max s) (resurrected s).
Definition set_clients (l : list PooledClient) (s : shared) : shared :=
  mkShared l (available s) (lock s) (permits s) (idle s) (in_use s) (open s) (waiters s)
    (max s) (resurrected s).
Definition note_resurrected (d : Z) (s : shared) : shared :=
  mkShared (clients s) (available s) (lock s) (permits s) (idle s) (in_use s) (open s) (waiters s)
    (max s) (resurrected s + d).
(** [store] on the state byte of a connection. *)
Definition set_state (c : nat) (st : conn_state) (s : shared) : shared :=
  set_clients (alter (λ x, mkClient st (dead x)) c (clients s)) s.
Definition state_of (c : nat) (s : shared) : option conn_state := c_state <$> clients s !! c.

(** ** Opening a connection *)
Inductive open_outcome :=
  | InvalidUrl
  | ConnectTimedOut
  | ConnectError (message : string)
  | Connected.
(** The error of a failed [open_connection]. *)
Definition open_error (o : open_outcome) : option StoreError :=
  match o with
  | InvalidUrl => Some (Other "CockroachDB connection URL is invalid")
  | ConnectTimedOut => Some (Other "CockroachDB connection timed out")
  | ConnectError message => Some (Other ("CockroachDB: " +:+ message))
  | Connected => None
  end.
(** [register_connection]: a new checked-out connection, counted as open; its driver is spawned. *)
Definition register_connection (s : shared) : nat * shared :=
  (length (clients s), add_open 1 (set_clients (clients s ++ [mkClient CHECKED_OUT false]) s)).

(** ** Choices *)
Inductive choice :=
  | Go
  | Grant
  | TimeOut
  | Cancel
  | Connect (o : open_outcome)
  | Mark (reusable : bool).

(** Each definition below performs the next atomic operation of a thread inside one function: the
    thread's next position, the shared state and the tasks it spawned; [None] when the operation
    cannot happen now. *)
Definition moved : Type := option (thread * shared * list thread).

(** [acquire], around [take_idle_connection] and [open_connection]. Nothing closes the semaphore, so
    its "pool is closed" error has no step. *)
Definition acquire_step (ch : choice) (t : thread) (s : shared) : moved :=
  match t, ch with
  | Acquiring, Go => Some (Waiting, add_waiters 1 s, [])
  | Waiting, Grant => if 0 <? permits s then Some (Resolved true, add_permits (-1) s, []) else None
  | Waiting, TimeOut => Some (Resolved false, s, [])
  | Waiting, Cancel => Some (CancelledWaiting, s, [])
  | Resolved true, Go => Some (Granted, add_waiters (-1) s, [])
  | Resolved false, Go =>
      Some (Done (Some (Other "CockroachDB pool acquisition timed out")), add_waiters (-1) s, [])
  | Granted, Go => Some (Locking, add_in_use 1 s, [])
  | Failing e, Go => Some (Refusing e, add_in_use (-1) s, [])
  | Refusing e, Go => Some (Done (Some e), add_permits 1 s, [])
  | _, _ => None
  end.

(** [take_idle_connection], by the thread at position [i]. *)
Definition take_idle_connection (i : nat) (ch : choice) (t : thread) (s : shared) : moved :=
  match t, ch with
  | Locking, Go => match lock s with None => Some (Popping, set_lock (Some i) s, []) | Some _ => None end
  | Popping, Go =>
      match available s with
      | [] => Some (Opening, set_lock None s, [])
      | c :: rest => Some (Claiming c, set_available rest s, [])
      end
  | Claiming c, Go =>
      if decide (state_of c s = Some IDLE) then Some (Uncounting c, set_state c CHECKED_OUT s, [])
      else Some (Popping, s, [])
  | Uncounting c, Go => Some (Checking c, add_idle (-1) s, [])
  | Checking c, Go =>
      if decide (dead <$> clients s !! c = Some true) then Some (Retiring c, s, [])
      else Some (Held c true, set_lock None s, [])
  | Retiring c, Go =>
      if decide (state_of c s = Some CLOSED) then Some (Popping, s, [])
      else Some (Retired, set_state c CLOSED s, [])
  | Retired, Go => Some (Popping, add_open (-1) s, [])
  | _, _ => None
  end.

(** [open_connection] for a caller: an error, a registered connection, or the caller is gone. *)
Definition open_connection (ch : choice) (t : thread) (s : shared) : moved :=
  match t, ch with
  | Opening, Connect o =>
      match open_error o with
      | Some e => Some (Failing e, s, [])
      | None => let '(c, s) := register_connection s in Some (Held c true, s, [Driver c])
      end
  | Opening, Cancel => Some (CancelledOpening, add_permits 1 s, [])
  | _, _ => None
  end.

(** [mark_uncertain] and [mark_reusable]. *)
Definition mark (reusable : bool) (t : thread) : option thread :=
  match t with Held c _ => Some (Held c reusable) | _ => None end.
(** [Drop for PooledConnection], then the permit it holds. *)
Definition drop_step (ch : choice) (t : thread) (s : shared) : moved :=
  match t, ch with
  | Held c r, Mark reusable => t' ← mark reusable (Held c r); Some (t', s, [])
  | Held c reusable, Go => Some (Releasing c reusable, add_in_use (-1) s, [])
  | Releasing c true, Go =>
      if decide (state_of c s = Some CHECKED_OUT) then Some (Parking c, set_state c IDLE s, [])
      else Some (Returning, s, [])
  | Releasing c false, Go =>
      if decide (state_of c s = Some CHECKED_OUT) then Some (Closing, set_state c CLOSED s, [])
      else Some (Returning, s, [])
  | Parking c, Go => Some (Pushing c, add_idle 1 s, [])
  | Pushing c, Go =>
      match lock s with None => Some (Returning, set_available (c :: available s) s, []) | Some _ => None end
  | Closing, Go => Some (Returning, add_open (-1) s, [])
  | Returning, Go => Some (Done None, add_permits 1 s, [])
  | _, _ => None
  end.

(** [close_connection], once the driven connection has ended. *)
Definition close_connection (ch : choice) (t : thread) (s : shared) : moved :=
  match t, ch with
  | Driver c, Go =>
      if decide (dead <$> clients s !! c = Some true) then
        match state_of c s with
        | Some IDLE => Some (DriverClosed true, set_state c CLOSED s, [])
        | Some CHECKED_OUT => Some (DriverClosed false, set_state c CLOSED s, [])
        | _ => Some (DriverDone, s, [])
        end
      else None
  | DriverClosed was_idle, Go => Some (if was_idle then DriverIdle else DriverDone, add_open (-1) s, [])
  | DriverIdle, Go => Some (DriverDone, add_idle (-1) s, [])
  | _, _ => None
  end.

(** [prewarm]. *)
Definition prewarm (ch : choice) (t : thread) (s : shared) : moved :=
  match t, ch with
  | Prewarming O, Go => Some (Done None, s, [])
  | Prewarming (S n), Connect o =>
      match open_error o with
      | Some e => Some (PrewarmFailed e, s, [])
      | None => let '(c, s) := register_connection s in Some (Storing c n, s, [Driver c])
      end
  | Storing c n, Go =>
      Some (CountingIdle c n,
        note_resurrected (if decide (state_of c s = Some CLOSED) then 1 else 0) (set_state c IDLE s), [])
  | CountingIdle c n, Go => Some (PushingIdle c n, add_idle 1 s, [])
  | PushingIdle c n, Go =>
      match lock s with None => Some (Prewarming n, set_available (c :: available s) s, []) | Some _ => None end
  | _, _ => None
  end.

(** The next operation of the thread at position [i], by the function it is in. *)
Definition advance (i : nat) (ch : choice) (t : thread) (s : shared) : moved :=
  match t with
  | Acquiring | Waiting | Resolved _ | Granted | Failing _ | Refusing _ => acquire_step ch t s
  | Locking | Popping | Claiming _ | Uncounting _ | Checking _ | Retiring _ | Retired => take_idle_connection i ch t s
  | Opening => open_connection ch t s
  | Held _ _ | Releasing _ _ | Parking _ | Pushing _ | Closing | Returning => drop_step ch t s
  | Driver _ | DriverClosed _ | DriverIdle => close_connection ch t s
  | Prewarming _ | Storing _ _ | CountingIdle _ _ | PushingIdle _ _ => prewarm ch t s
  | Done _ | CancelledWaiting | CancelledOpening | DriverDone | PrewarmFailed _ => None
  end.

(** The start-up loop, until it has filled the pool. *)
Definition is_prewarm (t : thread) : bool :=
  match t with
  | Prewarming _ | Storing _ _ | CountingIdle _ _ | PushingIdle _ _ | PrewarmFailed _ => true
  | _ => false
  end.

(** ** Runs *)
Inductive event :=
  | Spawn
  | Die (c : nat)
  | Run (i : nat) (ch : choice).

(** A caller may arrive once the pool was returned; a connection may die at any time; any thread may
    perform its next operation. *)
Definition exec (e : event) (p : pool) : option pool :=
  match e with
  | Spawn => if existsb is_prewarm (threads p) then None else Some (mkPool (sh p) (threads p ++ [Acquiring]))
  | Die c => Some (mkPool (set_clients (alter (λ x, mkClient (c_state x) true) c (clients (sh p))) (sh p)) (threads p))
  | Run i ch =>
      t ← threads p !! i;
      '(t', s, spawned) ← advance i ch t (sh p);
      Some (mkPool s (<[i := t']> (threads p) ++ spawned))
  end.
Fixpoint run (es : list event) (p : pool) : option pool :=
  match es with [] => Some p | e :: es => p ← exec e p; run es p end.
Definition reachable (p p' : pool) : Prop := ∃ es, run es p = Some p'.

(** [PoolState::new] and the pool before its prewarm; a pool around a caller's client. *)
Definition PoolState_new (max_connections : nat) : shared :=
  mkShared [] [] None (Z.of_nat max_connections) 0 0 0 0 (Z.of_nat max_connections) 0.
Definition connecting (max_connections : nat) : pool :=
  mkPool (PoolState_new max_connections) [Prewarming max_connections].
Definition from_client : pool :=
  mkPool (mkShared [mkClient IDLE false] [0%nat] None 1 1 0 1 0 1 0) [].

(** ** What a thread accounts for *)
Definition b2z (b : bool) : Z := if b then 1 else 0.

(** It holds a permit. *)
Definition has_permit (t : thread) : bool :=
  match t with
  | Resolved true | Granted | Locking | Popping | Claiming _ | Uncounting _ | Checking _ | Retiring _ | Retired
  | Opening | Failing _ | Refusing _ | Held _ _ | Releasing _ _ | Parking _ | Pushing _ | Closing | Returning => true
  | _ => false
  end.
(** It is counted by [waiters], or by [in_use]; a cancelled caller stays counted. *)
Definition counts_waiter (t : thread) : bool :=
  match t with Waiting | Resolved _ | CancelledWaiting => true | _ => false end.
Definition counts_in_use (t : thread) : bool :=
  match t with
  | Locking | Popping | Claiming _ | Uncounting _ | Checking _ | Retiring _ | Retired
  | Opening | Failing _ | Held _ _ | CancelledOpening => true
  | _ => false
  end.
(** What [idle] and [open] exceed the true numbers by until the thread's next counter operation. *)
Definition owed_idle (t : thread) : Z :=
  match t with
  | Uncounting _ | DriverClosed true | DriverIdle => 1
  | Parking _ | CountingIdle _ _ => -1
  | _ => 0
  end.
Definition owed_open (t : thread) : Z :=
  match t with Retired | Closing | DriverClosed _ => 1 | _ => 0 end.

(** It uses a connection no one else has; or it carries one to or from the stack. *)
Definition owner (t : thread) : option nat :=
  match t with
  | Uncounting c | Checking c | Retiring c | Held c _ | Releasing c _ | Storing c _ => Some c
  | _ => None
  end.
Definition carrier (t : thread) : option nat :=
  match t with
  | Claiming c | Parking c | Pushing c | CountingIdle c _ | PushingIdle c _ => Some c
  | _ => None
  end.
Definition ref (t : thread) : option nat := match owner t with Some c => Some c | None => carrier t end.

(** The connections a thread has or may still open, which the bound counts. *)
Definition weight (t : thread) : Z :=
  match t with
  | Opening => 1
  | Prewarming n => Z.of_nat n
  | Storing _ n | CountingIdle _ n | PushingIdle _ n => Z.of_nat n + 1
  | _ => match ref t with Some _ => 1 | None => 0 end
  end.

(** It holds the mutex. *)
Definition critical (t : thread) : bool :=
  match t with Popping | Claiming _ | Uncounting _ | Checking _ | Retiring _ | Retired => true | _ => false end.
Definition is_driver (t : thread) : bool :=
  match t with Driver _ | DriverClosed _ | DriverIdle | DriverDone => true | _ => false end.

(** Sums over lists. *)
Fixpoint sum_of {A} (f : A → Z) (l : list A) : Z := match l with [] => 0 | x :: l => f x + sum_of f l end.

Definition is_idle (c : PooledClient) : bool := bool_decide (c_state c = IDLE).
Definition is_live (c : PooledClient) : bool := negb (bool_decide (c_state c = CLOSED)).
Definition points (c : nat) (o : option nat) : Z := b2z (bool_decide (o = Some c)).
(** In how many places a connection can be reached from. *)
Definition tokens (p : pool) (c : nat) : Z :=
  sum_of (λ a, points c (Some a)) (available (sh p)) + sum_of (λ t, points c (ref t)) (threads p).

(** ** The invariant *)
Definition not_in (st : conn_state) (s : shared) (c : nat) : Prop :=
  ∃ x, clients s !! c = Some x ∧ c_state x ≠ st.

Record pool_inv (p : pool) : Prop := {
  pi_permits : permits (sh p) + sum_of (b2z ∘ has_permit) (threads p) = max (sh p) ∧ 0 <= permits (sh p);
  pi_waiters : waiters (sh p) = w64 (sum_of (b2z ∘ counts_waiter) (threads p));
  pi_in_use : in_use (sh p) = w64 (sum_of (b2z ∘ counts_in_use) (threads p));
  pi_idle : idle (sh p) = w64 (sum_of (b2z ∘ is_idle) (clients (sh p)) + sum_of owed_idle (threads p));
  pi_open : open (sh p) =
    w64 (sum_of (b2z ∘ is_live) (clients (sh p)) + sum_of owed_open (threads p) - resurrected (sh p));
  pi_tokens : ∀ c, tokens p c <= 1;
  pi_live : ∀ c x, clients (sh p) !! c = Some x → c_state x ≠ CLOSED → tokens p c = 1;
  pi_owner : ∀ i t c, threads p !! i = Some t → owner t = Some c → not_in IDLE (sh p) c;
  pi_carrier : ∀ i t c, threads p !! i = Some t → carrier t = Some c → not_in CHECKED_OUT (sh p) c;
  pi_stack : ∀ c, c ∈ available (sh p) → not_in CHECKED_OUT (sh p) c;
  pi_load : Z.of_nat (length (available (sh p))) + sum_of weight (threads p) <= max (sh p);
  pi_lock : ∀ i, lock (sh p) = Some i ↔ ∃ t, threads p !! i = Some t ∧ critical t = true;
  pi_prewarm : ∀ i j t t', i ≠ j → threads p !! i = Some t → threads p !! j = Some t' →
    is_prewarm t = true → is_driver t' = true
}.

(** ** Sums *)
Lemma sum_of_app {A} (f : A → Z) l l' : sum_of f (l ++ l') = sum_of f l + sum_of f l'.
Proof. induction l as [|x l IH]; simpl; lia. Qed.
Lemma sum_of_insert {A} (f : A → Z) l i x y : l !! i = Some x → sum_of f (<[i := y]> l) = sum_of f l - f x + f y.
Proof. revert i. induction l as [|z l IH]; intros [|i] E; simplify_eq/=; [lia|]. rewrite (IH i E). lia. Qed.
Lemma sum_of_alter {A} (f : A → Z) (g : A → A) l i x : l !! i = Some x →
  sum_of f (alter g i l) = sum_of f l - f x + f (g x).
Proof. revert i. induction l as [|z l IH]; intros [|i] E; simplify_eq/=; [lia|]. rewrite (IH i E). lia. Qed.
Lemma sum_of_alter_same {A} (f : A → Z) (g : A → A) l i : (∀ x, f (g x) = f x) → sum_of f (alter g i l) = sum_of f l.
Proof.
  intros E. revert i. induction l as [|z l IH]; intros [|i]; simpl; [done|done|by rewrite E|].
  f_equal. apply (IH i).
Qed.
Lemma sum_of_nonneg {A} (f : A → Z) l : (∀ x, 0 <= f x) → 0 <= sum_of f l.
Proof. intros Hf. induction l as [|x l IH]; simpl; [lia|]. pose proof (Hf x). lia. Qed.
Lemma sum_of_ge {A} (f : A → Z) l i x : (∀ x, 0 <= f x) → l !! i = Some x → f x <= sum_of f l.
Proof.
  intros Hf. revert i. induction l as [|y l IH]; intros [|i] E; simplify_eq/=.
  - pose proof (sum_of_nonneg f l Hf). lia.
  - pose proof (IH i E). pose proof (Hf y). lia.
Qed.
Lemma sum_of_ge2 {A} (f : A → Z) l i j x y : (∀ x, 0 <= f x) → i ≠ j → l !! i = Some x → l !! j = Some y →
  f x + f y <= sum_of f l.
Proof.
  intros Hf. revert i j. induction l as [|z l IH]; intros [|i] [|j] Hne Ei Ej; simplify_eq/=.
  - pose proof (sum_of_ge f l j y Hf Ej). lia.
  - pose proof (sum_of_ge f l i x Hf Ei). lia.
  - pose proof (Hf z). pose proof (IH i j ltac:(congruence) Ei Ej). lia.
Qed.
Lemma sum_of_le {A} (f g : A → Z) l : (∀ i x, l !! i = Some x → f x <= g x) → sum_of f l <= sum_of g l.
Proof.
  intros Hle. induction l as [|x l IH]; simpl; [lia|]. pose proof (Hle 0%nat x eq_refl).
  assert (sum_of f l <= sum_of g l); [|lia]. apply IH. intros i y E. by apply (Hle (S i)).
Qed.
Lemma sum_of_plus {A} (f g : A → Z) l : sum_of (λ x, f x + g x) l = sum_of f l + sum_of g l.
Proof. induction l as [|x l IH]; simpl; lia. Qed.
Lemma sum_of_zero {A} (f : A → Z) l : (∀ x, x ∈ l → f x = 0) → sum_of f l = 0.
Proof.
  intros Hf. induction l as [|x l IH]; simpl; [done|]. rewrite Hf, IH; [done|set_solver..].
Qed.

Lemma w64_add z d : w64 (w64 z + d) = w64 (z + d).
Proof. unfold w64. by rewrite Zplus_mod_idemp_l. Qed.
Lemma b2z_range b : 0 <= b2z b <= 1.
Proof. destruct b; simpl; lia. Qed.
Lemma points_range c o : 0 <= points c o <= 1.
Proof. apply b2z_range. Qed.
Lemma points_self c : points c (Some c) = 1.
Proof. unfold points. by rewrite bool_decide_eq_true_2. Qed.
Lemma points_other c c' : c ≠ c' → points c (Some c') = 0.
Proof. intros Hne. unfold points. rewrite bool_decide_eq_false_2; [done|]. congruence. Qed.
Lemma points_ref c t : 0 <= points c (ref t).
Proof. apply points_range. Qed.

Lemma tokens_thread p i t c : threads p !! i = Some t → ref t = Some c → 1 <= tokens p c.
Proof.
  intros Et Er. unfold tokens.
  pose proof (sum_of_ge (λ t, points c (ref t)) _ i t (points_ref c) Et) as Hge. simpl in Hge.
  rewrite Er, points_self in Hge.
  pose proof (sum_of_nonneg (λ a, points c (Some a)) (available (sh p)) (λ a, proj1 (points_range c (Some a)))). lia.
Qed.
Lemma tokens_stack p c : c ∈ available (sh p) → 1 <= tokens p c.
Proof.
  intros [j Ej]%list_elem_of_lookup. unfold tokens.
  pose proof (sum_of_ge (λ a, points c (Some a)) _ j c (λ a, proj1 (points_range c (Some a))) Ej) as Hge.
  simpl in Hge. rewrite points_self in Hge.
  pose proof (sum_of_nonneg (λ t, points c (ref t)) (threads p) (points_ref c)). lia.
Qed.
Lemma tokens_two p i j t t' c : i ≠ j → threads p !! i = Some t → threads p !! j = Some t' →
  ref t = Some c → ref t' = Some c → 2 <= tokens p c.
Proof.
  intros Hne Et Et' Er Er'. unfold tokens.
  pose proof (sum_of_ge2 (λ t, points c (ref t)) _ i j t t' (points_ref c) Hne Et Et') as Hge. simpl in Hge.
  rewrite Er, Er', points_self in Hge.
  pose proof (sum_of_nonneg (λ a, points c (Some a)) (available (sh p)) (λ a, proj1 (points_range c (Some a)))). lia.
Qed.
Lemma tokens_thread_stack p i t c : threads p !! i = Some t → ref t = Some c → c ∈ available (sh p) → 2 <= tokens p c.
Proof.
  intros Et Er [j Ej]%list_elem_of_lookup. unfold tokens.
  pose proof (sum_of_ge (λ t, points c (ref t)) _ i t (points_ref c) Et) as Hge. simpl in Hge.
  pose proof (sum_of_ge (λ a, points c (Some a)) _ j c (λ a, proj1 (points_range c (Some a))) Ej) as Hge'.
  simpl in Hge'. rewrite Er, points_self in Hge. rewrite points_self in Hge'. lia.
Qed.

(** ** What one operation changes *)
(** Split an operation into its cases. *)
Ltac cases_of_advance :=
  match goal with H : advance _ ?ch ?t _ = Some _ |- _ =>
    destruct t; destruct ch; simpl in H; try discriminate H;
    repeat match type of H with
    | context [decide ?P] => destruct (decide P); try discriminate H
    | context [match ?x with _ => _ end] => destruct x eqn:?; try discriminate H
    end; simplify_eq/=
  end.

Lemma advance_permits i ch t s t' s' sp : advance i ch t s = Some (t', s', sp) → 0 <= permits s →
  permits s' + b2z (has_permit t') = permits s + b2z (has_permit t) ∧ 0 <= permits s' ∧
  max s' = max s ∧ sum_of (b2z ∘ has_permit) sp = 0.
Proof. intros H Hp. cases_of_advance; zbool; lia. Qed.
Lemma advance_waiters i ch t s t' s' sp : advance i ch t s = Some (t', s', sp) →
  (waiters s' = waiters s ∧ counts_waiter t' = counts_waiter t ∨
   waiters s' = w64 (waiters s + (b2z (counts_waiter t') - b2z (counts_waiter t)))) ∧
  sum_of (b2z ∘ counts_waiter) sp = 0.
Proof. intros H. cases_of_advance; auto. Qed.
Lemma advance_in_use i ch t s t' s' sp : advance i ch t s = Some (t', s', sp) →
  (in_use s' = in_use s ∧ counts_in_use t' = counts_in_use t ∨
   in_use s' = w64 (in_use s + (b2z (counts_in_use t') - b2z (counts_in_use t)))) ∧
  sum_of (b2z ∘ counts_in_use) sp = 0.
Proof. intros H. cases_of_advance; auto. Qed.

(** How a client list may change: a state byte is stored, or a connection is registered. *)
Definition n_idle (s : shared) : Z := sum_of (b2z ∘ is_idle) (clients s).
Definition n_live (s : shared) : Z := sum_of (b2z ∘ is_live) (clients s).
Lemma n_idle_set c st s x : clients s !! c = Some x →
  n_idle (set_state c st s) = n_idle s - b2z (is_idle x) + b2z (bool_decide (st = IDLE)).
Proof. intros E. unfold n_idle. simpl. by rewrite (sum_of_alter _ _ _ _ _ E). Qed.
Lemma n_live_set c st s x : clients s !! c = Some x →
  n_live (set_state c st s) = n_live s - b2z (is_live x) + b2z (negb (bool_decide (st = CLOSED))).
Proof. intros E. unfold n_live. simpl. by rewrite (sum_of_alter _ _ _ _ _ E). Qed.
Lemma state_of_Some c s st : state_of c s = Some st → ∃ x, clients s !! c = Some x ∧ c_state x = st.
Proof. unfold state_of. destruct (clients s !! c) as [x|]; simpl; [|done]. intros [= <-]. eauto. Qed.

Definition counter_moves (before after d : Z) : Prop := d = 0 ∧ after = before ∨ after = w64 (before + d).

(** Evaluate the counts of a changed client list, knowing the connection the operation concerns. *)
Ltac count_clients :=
  repeat match goal with
  | H : state_of ?c ?s = Some _ |- _ => apply state_of_Some in H as (? & ? & ?)
  | H : ∀ c, Some ?c0 = Some c → _ |- _ => specialize (H c0 eq_refl) as (? & ? & ?)
  | H : state_of ?c ?s ≠ Some _, E : clients ?s !! ?c = Some _ |- _ => unfold state_of in H; rewrite E in H; simpl in H
  end; simplify_eq;
  unfold n_idle, n_live in *; simpl; rewrite ?sum_of_app;
  repeat match goal with
  | H : clients ?s !! ?c = Some ?x |- context [sum_of _ (alter _ ?c (clients ?s))] =>
      rewrite (sum_of_alter _ _ _ _ _ H)
  end;
  repeat match goal with x : PooledClient |- _ => destruct x as [[] ?]; simpl in *; try congruence end;
  unfold is_idle, is_live; simpl.
Ltac settle_counter := first [left; split; [lia|done] | right; f_equal; lia].

Lemma advance_idle i ch t s t' s' sp : advance i ch t s = Some (t', s', sp) →
  (∀ c, owner t = Some c → not_in IDLE s c) →
  counter_moves (idle s) (idle s') (n_idle s' + owed_idle t' - (n_idle s + owed_idle t)) ∧
  sum_of owed_idle sp = 0.
Proof.
  intros H Ho. unfold counter_moves. cases_of_advance; (split; [|done]); count_clients; settle_counter.
Qed.
Lemma advance_open i ch t s t' s' sp : advance i ch t s = Some (t', s', sp) →
  (∀ c, owner t = Some c → not_in IDLE s c) →
  counter_moves (open s) (open s')
    (n_live s' + owed_open t' - resurrected s' - (n_live s + owed_open t - resurrected s)) ∧
  sum_of owed_open sp = 0.
Proof.
  intros H Ho. unfold counter_moves. cases_of_advance; (split; [|done]); count_clients; settle_counter.
Qed.

(** Where a connection can be reached from: the stack and the thread itself. *)
Definition local_tokens (s : shared) (t : thread) (c : nat) : Z :=
  sum_of (λ a, points c (Some a)) (available s) + points c (ref t).

Lemma lookup_alter_state c c' st s x :
  alter (λ x, mkClient st (dead x)) c (clients s) !! c' = Some x →
  ∃ y, clients s !! c' = Some y ∧ ((c' = c ∧ c_state x = st) ∨ (c' ≠ c ∧ x = y)).
Proof.
  destruct (decide (c' = c)) as [->|Hne].
  - rewrite list_lookup_alter_eq. destruct (clients s !! c) as [y|]; simpl; [|done]. intros [= <-]. eauto 10.
  - rewrite list_lookup_alter_ne by done. eauto 10.
Qed.
Lemma lookup_snoc {A} (l : list A) y i x : (l ++ [y]) !! i = Some x → l !! i = Some x ∨ i = length l ∧ x = y.
Proof.
  intros [E|[Hge E]]%lookup_app_Some; [by left|]. right.
  destruct (i - length l)%nat as [|[|?]] eqn:Ei; simplify_eq/=. split; [lia|done].
Qed.

(** Reduce the references of the threads at hand. *)
Ltac reduce_refs k :=
  unfold local_tokens in *; cbn [ref owner carrier available set_available set_lock set_state set_clients add_idle
    add_open add_in_use add_waiters add_permits note_resurrected sum_of] in *;
  change (points k None) with 0 in *;
  try match goal with |- context [points k (Some ?c)] => pose proof (points_range k (Some c)) end.

Lemma advance_tokens i ch t s t' s' sp k : advance i ch t s = Some (t', s', sp) →
  sum_of (λ t, points k (ref t)) sp = 0 ∧
  (local_tokens s' t' k <= local_tokens s t k ∨
   k = length (clients s) ∧ local_tokens s' t' k <= local_tokens s t k + 1).
Proof.
  intros H. unfold local_tokens. cases_of_advance; (split; [done|]).
  all: repeat match goal with E : available _ = _ |- _ => rewrite E in *; simpl end.
  all: reduce_refs k; try (left; lia).
  all: (destruct (decide (k = length (clients s))) as [->|Hne];
    [right; split; [done|lia]|left; rewrite points_other by done; lia]).
Qed.

(** Decide what happened to connection [k]: its byte was stored, it was registered, or nothing. *)
Ltac cases_of_client k :=
  repeat match goal with
  | H : (alter _ ?c (clients ?s)) !! k = Some _ |- _ =>
      apply lookup_alter_state in H as (? & ? & [[-> ?]|[? ->]])
  | H : (clients ?s ++ [_]) !! k = Some _ |- _ => apply lookup_snoc in H as [?|[-> ->]]
  end.
(** Use what is known of the state byte of the connection a thread refers to. *)
Ltac know_state :=
  repeat match goal with
  | H : ∀ c, Some ?c0 = Some c → _ |- _ => specialize (H c0 eq_refl) as (? & ? & ?)
  | H : ∀ c, None = Some c → _ |- _ => clear H
  | H : state_of ?c ?s = Some _ |- _ => apply state_of_Some in H as (? & ? & ?)
  | H : state_of ?c ?s ≠ Some _, E : clients ?s !! ?c = Some _ |- _ => unfold state_of in H; rewrite E in H; simpl in H
  | H : clients ?s !! ?c = Some ?x, H' : clients ?s !! ?c = Some ?y |- _ =>
      assert (y = x) as -> by congruence; clear H'
  end;
  try match goal with x : PooledClient |- _ => destruct (c_state x) eqn:?; congruence end.

(** A connection that is live after the operation was live and is no harder to reach, or the thread
    itself has it. *)
Lemma advance_live i ch t s t' s' sp k x : advance i ch t s = Some (t', s', sp) →
  (∀ c, owner t = Some c → not_in IDLE s c) → (∀ c, carrier t = Some c → not_in CHECKED_OUT s c) →
  clients s' !! k = Some x → c_state x ≠ CLOSED →
  (∃ y, clients s !! k = Some y ∧ c_state y ≠ CLOSED ∧ local_tokens s t k <= local_tokens s' t' k) ∨
  ref t' = Some k.
Proof.
  intros H Ho Hc Hk Hx. unfold local_tokens.
  assert (∀ c : nat, c = k ∨ c ≠ k ∧ points k (Some c) = 0) as Hpt.
  { intros c. destruct (decide (c = k)); [by left|right]. split; [done|]. apply points_other. congruence. }
  cases_of_advance; cases_of_client k; try congruence; try (by right).
  all: try match goal with E : available _ = _ |- _ => rewrite E end.
  all: try (left; eexists; split; [done|]; split; [done|]; reduce_refs k; lia).
  all: match goal with c : nat |- context [Some ?c0] => destruct (Hpt c) as [->|[Hne Hz]] end;
    [exfalso; know_state|left; eexists; split; [done|]; split; [done|]; reduce_refs k; lia].
Qed.

(** No operation changes the byte of a connection the thread does not refer to, except to close it. *)
Lemma advance_not_in i ch t s t' s' sp st k : advance i ch t s = Some (t', s', sp) → st ≠ CLOSED →
  ref t ≠ Some k → not_in st s k → not_in st s' k.
Proof.
  intros H Hst Hr (x & Hk & Hx). unfold not_in.
  assert (∀ (st' : conn_state) (c : nat), c ≠ k ∨ st' ≠ st →
    ∃ y, alter (λ x, mkClient st' (dead x)) c (clients s) !! k = Some y ∧ c_state y ≠ st) as Hset.
  { intros st' c Hd. destruct (decide (c = k)) as [->|Hne].
    - rewrite list_lookup_alter_eq, Hk. simpl. eexists. split; [done|]. simpl. naive_solver.
    - rewrite list_lookup_alter_ne by done. eauto. }
  assert (∀ y, ∃ z, (clients s ++ [y]) !! k = Some z ∧ c_state z ≠ st) as Happ.
  { intros y. exists x. split; [by apply lookup_app_l_Some|done]. }
  cases_of_advance; cbn [ref owner carrier] in *; simpl; try (by eauto); apply Hset;
    first [right; congruence|left; congruence].
Qed.
Lemma advance_own i ch t s t' s' sp : advance i ch t s = Some (t', s', sp) →
  (∀ c, owner t = Some c → not_in IDLE s c) → (∀ c, carrier t = Some c → not_in CHECKED_OUT s c) →
  (∀ c, c ∈ available s → not_in CHECKED_OUT s c) →
  (∀ c, owner t' = Some c → not_in IDLE s' c) ∧ (∀ c, carrier t' = Some c → not_in CHECKED_OUT s' c).
Proof.
  intros H Ho Hc Ha.
  assert (∀ st st' c, is_Some (clients s !! c) → st' ≠ st → not_in st (set_state c st' s) c) as Hset.
  { intros st st' c [x Hx] Hne. unfold not_in. simpl. rewrite list_lookup_alter_eq, Hx. simpl. eauto. }
  assert (∀ c st, state_of c s = Some st → is_Some (clients s !! c)) as Hex.
  { intros c st Hs. apply state_of_Some in Hs as (x & Hx & _). eauto. }
  assert (∀ c, owner t = Some c → is_Some (clients s !! c)) as Hex'.
  { intros c Hc'. destruct (Ho c Hc') as (x & Hx & _). eauto. }
  assert (∀ (l : list PooledClient) y st, c_state y ≠ st → ∃ x, (l ++ [y]) !! length l = Some x ∧ c_state x ≠ st) as Hnew.
  { intros l y st Hy. exists y. split; [|done]. apply list_lookup_middle. done. }
  cases_of_advance; split; intros c' E; simplify_eq; try done.
  all: try (by apply Ho); try (by apply Hc); try (by apply Hset; [eauto|]).
  - apply Ha. left.
  - by apply Hnew.
  - by apply Hnew.
Qed.
Lemma advance_stack i ch t s t' s' sp c : advance i ch t s = Some (t', s', sp) → c ∈ available s' →
  c ∈ available s ∨ carrier t = Some c ∧ ref t' = None ∧ clients s' = clients s.
Proof.
  intros H. cases_of_advance; try (by left); rewrite ?elem_of_cons; rewrite ?Heql, ?elem_of_cons; naive_solver.
Qed.
Lemma advance_weight i ch t s t' s' sp : advance i ch t s = Some (t', s', sp) →
  sum_of weight sp = 0 ∧
  (Z.of_nat (length (available s')) + weight t' <= Z.of_nat (length (available s)) + weight t ∨
   t = Popping ∧ t' = Opening ∧ available s' = []).
Proof.
  intros H. cases_of_advance; (split; [done|]); unfold weight; cbn [ref owner carrier]; rewrite ?Heql; simpl;
    first [left; lia|by right].
Qed.
Lemma advance_lock i ch t s t' s' sp : advance i ch t s = Some (t', s', sp) →
  Forall (λ t, critical t = false) sp ∧
  (lock s' = lock s ∧ critical t' = critical t ∨
   lock s = None ∧ lock s' = Some i ∧ critical t' = true ∨
   critical t = true ∧ critical t' = false ∧ lock s' = None).
Proof. intros H. cases_of_advance; (split; [repeat constructor|]); auto 10. Qed.
Lemma advance_kinds i ch t s t' s' sp : advance i ch t s = Some (t', s', sp) →
  Forall (λ t, is_driver t = true) sp ∧ (is_prewarm t' = true → is_prewarm t = true) ∧
  (is_driver t = true → is_driver t' = true ∧ sp = []).
Proof.
  intros H. cases_of_advance; (split; [by repeat constructor|]); try (by auto).
  all: match goal with b : bool |- _ => by destruct b end.
Qed.

(** ** The invariant is kept *)
Lemma sum_of_step (f : thread → Z) ts i t t' sp : ts !! i = Some t →
  sum_of f (<[i := t']> ts ++ sp) = sum_of f ts - f t + f t' + sum_of f sp.
Proof. intros E. by rewrite sum_of_app, (sum_of_insert _ _ _ _ _ E). Qed.
Lemma lookup_step (ts : list thread) i t t' sp j u : ts !! i = Some t → (<[i := t']> ts ++ sp) !! j = Some u →
  (j = i ∧ u = t') ∨ (j ≠ i ∧ ts !! j = Some u) ∨ (u ∈ sp ∧ (length ts <= j)%nat).
Proof.
  intros Et [E|[Hge E]]%lookup_app_Some.
  - destruct (decide (j = i)) as [->|Hne].
    + rewrite list_lookup_insert_eq in E by (by eapply lookup_lt_Some). naive_solver.
    + rewrite list_lookup_insert_ne in E by done. auto.
  - rewrite length_insert in *. right. right. split; [by eapply list_elem_of_lookup_2|done].
Qed.
Lemma driver_ref t : is_driver t = true → owner t = None ∧ carrier t = None ∧ critical t = false ∧ is_prewarm t = false.
Proof. by destruct t. Qed.
Lemma weight_permit t : is_prewarm t = false → weight t <= b2z (has_permit t).
Proof. destruct t; try done; unfold weight; simpl; intros _; try lia. by destruct granted. Qed.
Lemma weight_ref t : b2z (bool_decide (is_Some (ref t))) <= weight t.
Proof. destruct t; unfold weight; cbn [ref owner carrier]; simpl; try lia; destruct n; simpl; lia. Qed.
Lemma counter_sum before after z d d' : before = w64 z → counter_moves before after d → d' = z + d → after = w64 d'.
Proof. intros -> [[-> ->]| ->] ->; [by rewrite Z.add_0_r|apply w64_add]. Qed.

Section run_inv.
Context (p : pool) (Hp : pool_inv p) (i : nat) (ch : choice) (t t' : thread) (s' : shared) (sp : list thread).
Context (Et : threads p !! i = Some t) (Ea : advance i ch t (sh p) = Some (t', s', sp)).
Let p' := mkPool s' (<[i := t']> (threads p) ++ sp).

Lemma run_owner c : owner t = Some c → not_in IDLE (sh p) c.
Proof. by apply (pi_owner _ Hp i). Qed.
Lemma run_carrier c : carrier t = Some c → not_in CHECKED_OUT (sh p) c.
Proof. by apply (pi_carrier _ Hp i). Qed.
Lemma run_spawned u : u ∈ sp → is_driver u = true.
Proof. destruct (advance_kinds _ _ _ _ _ _ _ Ea) as [Hsp _]. rewrite Forall_forall in Hsp. apply Hsp. Qed.

Lemma tokens_fresh k : clients (sh p) !! k = None → tokens p k = 0.
Proof.
  intros Hk. unfold tokens. rewrite !sum_of_zero; [done|..].
  - intros u Hu. apply list_elem_of_lookup in Hu as [j Ej]. destruct (ref u) as [c|] eqn:Er; [|done].
    apply points_other. intros ->. unfold ref in Er. destruct (owner u) as [c'|] eqn:Eo; simplify_eq.
    + destruct (pi_owner _ Hp _ _ _ Ej Eo) as (x & Hx & _). congruence.
    + destruct (pi_carrier _ Hp _ _ _ Ej Er) as (x & Hx & _). congruence.
  - intros c Hc. apply points_other. intros ->. destruct (pi_stack _ Hp _ Hc) as (x & Hx & _). congruence.
Qed.
Lemma run_tokens k : tokens p' k = tokens p k - local_tokens (sh p) t k + local_tokens s' t' k.
Proof.
  destruct (advance_tokens _ _ _ _ _ _ _ k Ea) as [Hsp _]. unfold tokens, local_tokens. simpl.
  rewrite (sum_of_step _ _ _ _ _ _ Et), Hsp. lia.
Qed.
Lemma run_tokens_bound k : tokens p' k <= 1.
Proof.
  rewrite run_tokens. pose proof (pi_tokens _ Hp k).
  destruct (advance_tokens _ _ _ _ _ _ _ k Ea) as [_ [Hle|[-> Hle]]]; [lia|].
  rewrite tokens_fresh by (by apply lookup_ge_None_2). lia.
Qed.
Lemma run_live k x : clients s' !! k = Some x → c_state x ≠ CLOSED → tokens p' k = 1.
Proof.
  intros Hk Hx. pose proof (run_tokens_bound k) as Hle.
  destruct (advance_live _ _ _ _ _ _ _ k x Ea run_owner run_carrier Hk Hx) as [(y & Hy & Hny & Hge)|Hr].
  - rewrite run_tokens in *. pose proof (pi_live _ Hp k y Hy Hny). lia.
  - assert (1 <= tokens p' k); [|lia]. apply (tokens_thread p' i t'); [|done]. simpl.
    apply lookup_app_l_Some, list_lookup_insert_eq. by eapply lookup_lt_Some.
Qed.
(** What another thread or the stack knows of a connection stays true: nobody else refers to it. *)
Lemma run_other st k : st ≠ CLOSED → ref t ≠ Some k → not_in st (sh p) k → not_in st s' k.
Proof. by apply advance_not_in with (1 := Ea). Qed.
Lemma run_threads_own j u c : threads p' !! j = Some u →
  (owner u = Some c → not_in IDLE s' c) ∧ (carrier u = Some c → not_in CHECKED_OUT s' c).
Proof.
  intros Ej. destruct (advance_own _ _ _ _ _ _ _ Ea run_owner run_carrier (pi_stack _ Hp)) as [Ho Hc].
  destruct (lookup_step _ _ _ _ _ _ _ Et Ej) as [[-> ->]|[[Hne Eu]|[Hu _]]]; [by auto|..].
  - assert (ref u = Some c → ref t ≠ Some c) as Hr.
    { intros Hu Ht. pose proof (tokens_two p j i u t c Hne Eu Et Hu Ht). pose proof (pi_tokens _ Hp c). lia. }
    unfold ref in Hr. split; intros E.
    + rewrite E in Hr. apply run_other; [done|by apply Hr|]. by apply (pi_owner _ Hp j u).
    + destruct (owner u) as [c'|] eqn:Eo; [by destruct u|]. rewrite E in Hr.
      apply run_other; [done|by apply Hr|]. by apply (pi_carrier _ Hp j u).
  - destruct (driver_ref u (run_spawned u Hu)) as (-> & -> & _). done.
Qed.
Lemma run_stack c : c ∈ available s' → not_in CHECKED_OUT s' c.
Proof.
  intros Hc. destruct (decide (c ∈ available (sh p))) as [Hin|Hnin].
  - apply run_other; [done| |by apply (pi_stack _ Hp)]. intros Hr.
    pose proof (tokens_thread_stack p i t c Et Hr Hin). pose proof (pi_tokens _ Hp c). lia.
  - destruct (advance_stack _ _ _ _ _ _ _ c Ea Hc) as [?|(Hcar & _ & Hcl)]; [done|].
    unfold not_in. rewrite Hcl. by apply run_carrier.
Qed.
Lemma run_prewarm j j' u u' : j ≠ j' → threads p' !! j = Some u → threads p' !! j' = Some u' →
  is_prewarm u = true → is_driver u' = true.
Proof.
  intros Hne Ej Ej' Hpre. destruct (advance_kinds _ _ _ _ _ _ _ Ea) as (_ & Hback & Hdr).
  destruct (lookup_step _ _ _ _ _ _ _ Et Ej') as [[-> ->]|[[Hne' Eu']|[Hu' _]]]; [..|by apply run_spawned].
  - destruct (lookup_step _ _ _ _ _ _ _ Et Ej) as [[-> ->]|[[_ Eu]|[Hu _]]]; [done|..].
    + apply Hdr. by apply (pi_prewarm _ Hp j i u t).
    + destruct (driver_ref u (run_spawned u Hu)) as (_ & _ & _ & ?). congruence.
  - destruct (lookup_step _ _ _ _ _ _ _ Et Ej) as [[-> ->]|[[_ Eu]|[Hu _]]].
    + apply (pi_prewarm _ Hp i j' t u'); auto.
    + by apply (pi_prewarm _ Hp j j' u u').
    + destruct (driver_ref u (run_spawned u Hu)) as (_ & _ & _ & ?). congruence.
Qed.
Lemma run_permits : permits s' + sum_of (b2z ∘ has_permit) (threads p') = max s' ∧ 0 <= permits s'.
Proof.
  destruct (pi_permits _ Hp) as [Hsum Hpos].
  destruct (advance_permits _ _ _ _ _ _ _ Ea Hpos) as (Hper & Hpos' & Hmax & Hsp). simpl.
  rewrite (sum_of_step _ _ _ _ _ _ Et), Hsp, Hmax. split; [|done]. unfold compose in *. lia.
Qed.
Lemma run_load : Z.of_nat (length (available s')) + sum_of weight (threads p') <= max s'.
Proof.
  destruct (advance_permits _ _ _ _ _ _ _ Ea (proj2 (pi_permits _ Hp))) as (_ & _ & Hmax & _).
  destruct (advance_weight _ _ _ _ _ _ _ Ea) as [Hsp [Hle|(Ht & Ht' & Hnil)]].
  - simpl. rewrite (sum_of_step _ _ _ _ _ _ Et), Hsp, Hmax. pose proof (pi_load _ Hp). lia.
  - rewrite Hnil. destruct run_permits as [Hsum Hpos].
    assert (sum_of weight (threads p') <= sum_of (b2z ∘ has_permit) (threads p')); [|simpl in *; lia].
    apply sum_of_le. intros j u Eu. apply weight_permit.
    destruct (lookup_step _ _ _ _ _ _ _ Et Eu) as [[_ ->]|[[Hne Eu']|[Hu _]]]; [by rewrite Ht'|..].
    + destruct (is_prewarm u) eqn:Hpre; [|done].
      pose proof (pi_prewarm _ Hp j i u t Hne Eu' Et Hpre) as Hd. by rewrite Ht in Hd.
    + by apply driver_ref, run_spawned.
Qed.
Lemma run_lock j : lock s' = Some j ↔ ∃ u, threads p' !! j = Some u ∧ critical u = true.
Proof.
  destruct (advance_lock _ _ _ _ _ _ _ Ea) as [Hsp Hcases]. rewrite Forall_forall in Hsp.
  assert (threads p' !! i = Some t') as Ei.
  { simpl. apply lookup_app_l_Some, list_lookup_insert_eq. by eapply lookup_lt_Some. }
  assert (∀ j, j ≠ i → (∃ u, threads p' !! j = Some u ∧ critical u = true) ↔
    ∃ u, threads p !! j = Some u ∧ critical u = true) as Hother.
  { intros j' Hne. split; intros (u & Eu & Hcr).
    - destruct (lookup_step _ _ _ _ _ _ _ Et Eu) as [[-> ->]|[[_ Eu']|[Hu _]]]; [done|eauto|].
      by rewrite (Hsp u Hu) in Hcr.
    - exists u. split; [|done]. simpl. apply lookup_app_l_Some. by rewrite list_lookup_insert_ne. }
  destruct (decide (j = i)) as [->|Hne]; [|rewrite Hother by done]; pose proof (pi_lock _ Hp) as Hl.
  - specialize (Hl i). rewrite Et in Hl. rewrite Ei. naive_solver congruence.
  - destruct Hcases as [[-> Ecr]|[(Hnone & -> & _)|(Hcr & _ & ->)]]; [by apply Hl|..].
    + rewrite <- Hl, Hnone. naive_solver.
    + rewrite <- Hl. assert (lock (sh p) = Some i) as -> by (apply Hl; eauto). naive_solver.
Qed.
Lemma run_inv : pool_inv p'.
Proof.
  destruct (advance_waiters _ _ _ _ _ _ _ Ea) as [Hw Hwsp], (advance_in_use _ _ _ _ _ _ _ Ea) as [Hu Husp].
  destruct (advance_idle _ _ _ _ _ _ _ Ea run_owner) as [Hi Hisp].
  destruct (advance_open _ _ _ _ _ _ _ Ea run_owner) as [Ho Hosp].
  split; simpl.
  - apply run_permits.
  - rewrite (pi_waiters _ Hp) in Hw. rewrite (sum_of_step _ _ _ _ _ _ Et), Hwsp. unfold compose in *.
    destruct Hw as [[-> ->]| ->]; [f_equal; lia|]. rewrite w64_add. f_equal. lia.
  - rewrite (pi_in_use _ Hp) in Hu. rewrite (sum_of_step _ _ _ _ _ _ Et), Husp. unfold compose in *.
    destruct Hu as [[-> ->]| ->]; [f_equal; lia|]. rewrite w64_add. f_equal. lia.
  - eapply counter_sum; [apply (pi_idle _ Hp)|done|]. rewrite (sum_of_step _ _ _ _ _ _ Et), Hisp. unfold n_idle. lia.
  - eapply counter_sum; [apply (pi_open _ Hp)|done|]. rewrite (sum_of_step _ _ _ _ _ _ Et), Hosp. unfold n_live. lia.
  - apply run_tokens_bound.
  - apply run_live.
  - intros j u c Ej. by apply run_threads_own with (1 := Ej).
  - intros j u c Ej. by apply run_threads_own with (1 := Ej).
  - apply run_stack.
  - apply run_load.
  - apply run_lock.
  - apply run_prewarm.
Qed.
End run_inv.

Lemma spawn_inv p : pool_inv p → existsb is_prewarm (threads p) = false →
  pool_inv (mkPool (sh p) (threads p ++ [Acquiring])).
Proof.
  intros Hp Hpre.
  assert (∀ i t, threads p !! i = Some t → is_prewarm t = false) as Hno.
  { intros i t Et. destruct (is_prewarm t) eqn:E; [|done]. apply not_true_iff_false in Hpre. destruct Hpre.
    apply existsb_exists. exists t. split; [|done]. by eapply list_elem_of_In, list_elem_of_lookup_2. }
  assert (∀ f, f Acquiring = 0 → sum_of f (threads p ++ [Acquiring]) = sum_of f (threads p)) as Htot.
  { intros f Hf. rewrite sum_of_app. simpl. lia. }
  assert (∀ k, tokens (mkPool (sh p) (threads p ++ [Acquiring])) k = tokens p k) as Htok.
  { intros k. unfold tokens. simpl. by rewrite Htot. }
  split; simpl; rewrite ?Htot by done; try apply Hp.
  - intros c. rewrite Htok. apply Hp.
  - intros c x. rewrite Htok. apply Hp.
  - intros i t c [Ei|[_ ->]]%lookup_snoc; [by apply (pi_owner _ Hp i)|done].
  - intros i t c [Ei|[_ ->]]%lookup_snoc; [by apply (pi_carrier _ Hp i)|done].
  - intros i. rewrite (pi_lock _ Hp). split; intros (t & Et & Hc).
    + exists t. split; [by apply lookup_app_l_Some|done].
    + apply lookup_snoc in Et as [Et|[_ ->]]; [eauto|done].
  - intros i j t t' Hne [Ei|[-> ->]]%lookup_snoc; [|done]. by rewrite (Hno _ _ Ei).
Qed.
Lemma die_inv p c : pool_inv p →
  pool_inv (mkPool (set_clients (alter (λ x, mkClient (c_state x) true) c (clients (sh p))) (sh p)) (threads p)).
Proof.
  intros Hp.
  assert (∀ k x, alter (λ x, mkClient (c_state x) true) c (clients (sh p)) !! k = Some x →
    ∃ y, clients (sh p) !! k = Some y ∧ c_state x = c_state y) as Hback.
  { intros k x. destruct (decide (k = c)) as [->|Hne].
    - rewrite list_lookup_alter_eq. destruct (clients (sh p) !! c) as [y|]; simpl; [|done]. intros [= <-]. eauto.
    - rewrite list_lookup_alter_ne by done. eauto. }
  assert (∀ st k, not_in st (sh p) k →
    not_in st (set_clients (alter (λ x, mkClient (c_state x) true) c (clients (sh p))) (sh p)) k) as Hni.
  { intros st k (x & Hx & Hst). unfold not_in. simpl. destruct (decide (k = c)) as [->|Hne].
    - rewrite list_lookup_alter_eq, Hx. simpl. eexists. split; [done|]. done.
    - rewrite list_lookup_alter_ne by done. eauto. }
  split; simpl; try apply Hp.
  - rewrite sum_of_alter_same by done. apply Hp.
  - rewrite sum_of_alter_same by done. apply Hp.
  - intros k x Hk Hst. destruct (Hback _ _ Hk) as (y & Hy & Ey). rewrite Ey in Hst. exact (pi_live _ Hp k y Hy Hst).
  - intros i t k Et Ho. apply Hni. by apply (pi_owner _ Hp i t).
  - intros i t k Et Ho. apply Hni. by apply (pi_carrier _ Hp i t).
  - intros k Hk. apply Hni. by apply (pi_stack _ Hp).
Qed.
Lemma exec_inv e p p' : pool_inv p → exec e p = Some p' → pool_inv p'.
Proof.
  intros Hp. destruct e as [|c|i ch]; simpl.
  - destruct (existsb is_prewarm (threads p)) eqn:E; [done|]. intros [= <-]. by apply spawn_inv.
  - intros [= <-]. by apply die_inv.
  - destruct (threads p !! i) as [t|] eqn:Et; simpl; [|done].
    destruct (advance i ch t (sh p)) as [[[t' s'] sp]|] eqn:Ea; simpl; [|done]. intros [= <-]. by eapply run_inv.
Qed.
Lemma reachable_ind_inv (P : pool → Prop) p p' : (∀ e p p', P p → exec e p = Some p' → P p') →
  P p → reachable p p' → P p'.
Proof.
  intros Hstep Hp [es Hes]. revert p Hp Hes. induction es as [|e es IH]; intros p Hp; simpl; [by intros [= <-]|].
  destruct (exec e p) as [p1|] eqn:E; simpl; [|done]. apply IH. by eapply Hstep.
Qed.
Lemma connecting_inv n : pool_inv (connecting n).
Proof.

  split; try (by vm_compute); simpl; try done.
  - lia.
  - intros [|i] t c Et; by simplify_eq/=.
  - intros [|i] t c Et; by simplify_eq/=.
  - set_solver.
  - unfold weight. lia.
  - intros i. split; [done|]. intros (t & Et & Hc). destruct i; by simplify_eq/=.
  - intros [|i] [|j] t t' Hne Et Et'; by simplify_eq/=.
Qed.
Lemma from_client_inv : pool_inv from_client.
Proof.
  split; try (by vm_compute); simpl; try done.
  - intros c. unfold tokens. simpl. pose proof (points_range c (Some 0%nat)). lia.
  - intros [|c] x Ex Hst; simplify_eq/=. done.
  - intros c. rewrite elem_of_cons. intros [->|Hc]; [|set_solver]. by eexists.
  - intros i. split; [done|]. by intros (t & Et & _).
Qed.

(** The pools a program can observe. *)
Definition pool_of (max_connections : nat) (p : pool) : Prop :=
  reachable (connecting max_connections) p ∨ max_connections = 1%nat ∧ reachable from_client p.
Lemma exec_max e p p' : exec e p = Some p' → pool_inv p → max (sh p') = max (sh p).
Proof.
  destruct e as [|c|i ch]; simpl.
  - by destruct (existsb is_prewarm (threads p)); intros [= <-].
  - by intros [= <-].
  - destruct (threads p !! i) as [t|] eqn:Et; simpl; [|done].
    destruct (advance i ch t (sh p)) as [[[t' s'] sp]|] eqn:Ea; simpl; [|done]. intros [= <-] Hp.
    apply (advance_permits _ _ _ _ _ _ _ Ea (proj2 (pi_permits _ Hp))).
Qed.
Lemma pool_of_inv n p : pool_of n p → pool_inv p ∧ max (sh p) = Z.of_nat n.
Proof.
  assert (∀ p0 p, pool_inv p0 → max (sh p0) = Z.of_nat n → reachable p0 p → pool_inv p ∧ max (sh p) = Z.of_nat n) as H.
  { intros p0 p1 H0 Hm. apply (reachable_ind_inv (λ p, pool_inv p ∧ max (sh p) = Z.of_nat n)); [|done].
    intros e q q' [Hq Hqm] E. split; [by eapply exec_inv|]. by rewrite (exec_max _ _ _ E Hq). }
  intros [Hr|[-> Hr]]; [apply (H (connecting n))|apply (H from_client)]; auto using connecting_inv, from_client_inv.
Qed.

(** ** Counting connections *)
Lemma sum_of_seq {A} (f : A → Z) l : sum_of f l = sum_of (λ i, from_option f 0 (l !! i)) (seq 0 (length l)).
Proof.
  assert (∀ (g : nat → Z) a n, sum_of g (seq (S a) n) = sum_of (g ∘ S) (seq a n)) as Hshift.
  { intros g a n. revert a. induction n as [|n IH]; intros a; simpl; [done|]. by rewrite IH. }
  induction l as [|x l IH]; [done|]. cbn [length seq sum_of]. by rewrite Hshift, IH.
Qed.
Lemma sum_of_points o a n : sum_of (λ c, points c o) (seq a n) <= b2z (bool_decide (is_Some o)).
Proof.
  destruct o as [k|]; [rewrite bool_decide_eq_true_2 by eauto; simpl|].
  - assert (sum_of (λ c, points c (Some k)) (seq a n) <= 1 ∧
      ((k < a)%nat → sum_of (λ c, points c (Some k)) (seq a n) = 0)) as [? _]; [|done].
    revert a. induction n as [|n IH]; intros a; simpl; [lia|]. destruct (IH (S a)) as [H1 H2].
    destruct (decide (a = k)) as [->|Hne]; [rewrite points_self, H2 by lia; lia|].
    rewrite points_other by done. split; [lia|]. intros. rewrite H2; lia.
  - rewrite sum_of_zero; [done|]. done.
Qed.
Lemma sum_of_points_all {A} (g : A → option nat) l n :
  sum_of (λ c, sum_of (λ x, points c (g x)) l) (seq 0 n) <= sum_of (λ x, b2z (bool_decide (is_Some (g x)))) l.
Proof.
  induction l as [|x l IH]; simpl; [by rewrite sum_of_zero|].
  rewrite (sum_of_plus (λ c, points c (g x))). pose proof (sum_of_points (g x) 0 n). lia.
Qed.
Lemma sum_of_stack (l : list nat) : sum_of (λ x, b2z (bool_decide (is_Some (Some x)))) l = Z.of_nat (length l).
Proof.
  induction l as [|a l IH]; cbn [sum_of length]; [done|]. rewrite IH, bool_decide_eq_true_2 by eauto. simpl. lia.
Qed.
Lemma live_bound p : pool_inv p → n_live (sh p) <= max (sh p).
Proof.
  intros Hp. pose proof (pi_load _ Hp) as Hload. unfold n_live. rewrite sum_of_seq.
  set (n := length (clients (sh p))).
  assert (sum_of (λ i, from_option (b2z ∘ is_live) 0 (clients (sh p) !! i)) (seq 0 n) <= sum_of (tokens p) (seq 0 n)) as H1.
  { apply sum_of_le. intros _ c _. assert (0 <= tokens p c) as Hnn.
    { unfold tokens. pose proof (sum_of_nonneg (λ t, points c (ref t)) (threads p) (points_ref c)).
      pose proof (sum_of_nonneg (λ a, points c (Some a)) (available (sh p)) (λ a, proj1 (points_range c (Some a)))). lia. }
    destruct (clients (sh p) !! c) as [x|] eqn:Ex; simpl; [|done].
    unfold compose, is_live. case_bool_decide as Hc; simpl; [done|]. rewrite (pi_live _ Hp c x Ex Hc). lia. }
  unfold tokens in H1. rewrite (sum_of_plus (λ c, sum_of (λ a, points c (Some a)) (available (sh p)))) in H1.
  pose proof (sum_of_points_all Some (available (sh p)) n) as H2.
  pose proof (sum_of_points_all ref (threads p) n) as H3.
  assert (sum_of (λ t, b2z (bool_decide (is_Some (ref t)))) (threads p) <= sum_of weight (threads p)) as H4.
  { apply sum_of_le. intros. apply weight_ref. }
  rewrite sum_of_stack in H2. lia.
Qed.

(** ** Retired connections *)
(** No caller will ever get the connection. *)
Definition gone (c : nat) (p : pool) : Prop :=
  state_of c (sh p) = Some CLOSED ∧ tokens p c = 0 ∧ existsb is_prewarm (threads p) = false.

Lemma existsb_step (f : thread → bool) ts i t t' sp : ts !! i = Some t → (f t' = true → f t = true) →
  Forall (λ u, f u = false) sp → existsb f ts = false → existsb f (<[i := t']> ts ++ sp) = false.
Proof.
  intros Et Hback Hsp Hts. rewrite existsb_app, orb_false_iff. split.
  - apply not_true_iff_false. intros (u & Hu & Hf)%existsb_exists. apply not_true_iff_false in Hts. apply Hts.
    apply existsb_exists. apply list_elem_of_In, list_elem_of_lookup in Hu as [j Ej].
    destruct (decide (j = i)) as [->|Hne].
    + rewrite list_lookup_insert_eq in Ej by (by eapply lookup_lt_Some). simplify_eq. exists t.
      split; [by eapply list_elem_of_In, list_elem_of_lookup_2|auto].
    + rewrite list_lookup_insert_ne in Ej by done. exists u. split; [by eapply list_elem_of_In, list_elem_of_lookup_2|done].
  - apply not_true_iff_false. intros (u & Hu & Hf)%existsb_exists. rewrite Forall_forall in Hsp.
    rewrite (Hsp u) in Hf; [done|by apply list_elem_of_In].
Qed.
Lemma run_no_prewarm i ch t s t' s' sp ts : ts !! i = Some t → advance i ch t s = Some (t', s', sp) →
  existsb is_prewarm ts = false → existsb is_prewarm (<[i := t']> ts ++ sp) = false.
Proof.
  intros Et Ea. destruct (advance_kinds _ _ _ _ _ _ _ Ea) as (Hsp & Hback & _).
  apply existsb_step with (1 := Et); [done|]. eapply Forall_impl; [exact Hsp|]. intros u Hu. by destruct (driver_ref u Hu) as (_ & _ & _ & ?).
Qed.
(** A closed connection stays closed: only the prewarm loop stores a byte it does not own. *)
Lemma advance_closed i ch t s t' s' sp k : advance i ch t s = Some (t', s', sp) → is_prewarm t = false →
  state_of k s = Some CLOSED → state_of k s' = Some CLOSED.
Proof.
  intros H Hpre (x & Hx & Hst)%state_of_Some.
  assert (∀ c st', (c = k → st' = CLOSED) →
    c_state <$> alter (λ x, mkClient st' (dead x)) c (clients s) !! k = Some CLOSED) as Hset.
  { intros c st' Hc. destruct (decide (c = k)) as [->|Hne].
    - rewrite list_lookup_alter_eq, Hx. simpl. by rewrite Hc.
    - rewrite list_lookup_alter_ne, Hx by done. simpl. congruence. }
  assert (state_of k s = Some CLOSED) as Hsame by (unfold state_of; rewrite Hx; simpl; congruence).
  assert (∀ y, c_state <$> (clients s ++ [y]) !! k = Some CLOSED) as Happ.
  { intros y. rewrite (lookup_app_l_Some _ _ _ _ Hx). simpl. congruence. }
  cases_of_advance; unfold state_of in *; simpl; try done; try apply Happ; apply Hset; intros ->; congruence.
Qed.
Lemma gone_kept c e p p' : pool_inv p → gone c p → exec e p = Some p' → gone c p'.
Proof.
  intros Hp (Hst & Htok & Hpre). destruct e as [|c'|i ch]; simpl.
  - rewrite Hpre. intros [= <-]. split_and!; [done| |].
    + unfold tokens in *. simpl. rewrite sum_of_app. simpl. change (points c (ref Acquiring)) with 0. lia.
    + simpl. by rewrite existsb_app, Hpre.
  - intros [= <-]. split_and!; [|done|done]. unfold state_of in *. simpl. destruct (decide (c = c')) as [->|Hne].
    + rewrite list_lookup_alter_eq. by destruct (clients (sh p) !! c').
    + by rewrite list_lookup_alter_ne.
  - destruct (threads p !! i) as [t|] eqn:Et; simpl; [|done].
    destruct (advance i ch t (sh p)) as [[[t' s'] sp]|] eqn:Ea; simpl; [|done]. intros [= <-].
    assert (is_prewarm t = false) as Ht.
    { destruct (is_prewarm t) eqn:E; [|done]. apply not_true_iff_false in Hpre. destruct Hpre.
      apply existsb_exists. exists t. split; [|done]. by eapply list_elem_of_In, list_elem_of_lookup_2. }
    split_and!; [by eapply advance_closed| |by eapply run_no_prewarm].
    rewrite (run_tokens p i ch t t' s' sp Et Ea).
    pose proof (sum_of_nonneg (λ t, points c (ref t)) (<[i := t']> (threads p) ++ sp) (points_ref c)).
    pose proof (sum_of_nonneg (λ a, points c (Some a)) (available s') (λ a, proj1 (points_range c (Some a)))).
    pose proof (run_tokens p i ch t t' s' sp Et Ea c) as Heq. unfold tokens at 1 in Heq. simpl in Heq.
    apply state_of_Some in Hst as (x & Hx & _).
    destruct (advance_tokens _ _ _ _ _ _ _ c Ea) as [_ [Hle|[-> _]]]; [lia|].
    apply lookup_lt_Some in Hx. lia.
Qed.

(** Nothing refers to a connection without tokens. *)
Lemma gone_unreachable c p j t : gone c p → threads p !! j = Some t → ref t ≠ Some c.
Proof. intros (_ & Htok & _) Ej Hr. pose proof (tokens_thread p j t c Ej Hr). lia. Qed.

(** The drop of an uncertain checkout: until its compare-exchange the thread stands there. *)
Lemma releasing_next i c p e p' : pool_inv p → threads p !! i = Some (Releasing c false) → exec e p = Some p' →
  threads p' !! i = Some (Releasing c false) ∨ gone c p'.
Proof.
  intros Hp Ei. destruct e as [|c'|j ch]; simpl.
  - destruct (existsb is_prewarm (threads p)); [done|]. intros [= <-]. left. by apply lookup_app_l_Some.
  - intros [= <-]. by left.
  - destruct (threads p !! j) as [t|] eqn:Et; simpl; [|done].
    destruct (advance j ch t (sh p)) as [[[t' s'] sp]|] eqn:Ea; simpl; [|done]. intros [= <-].
    destruct (decide (j = i)) as [->|Hne];
      [|left; apply lookup_app_l_Some; by rewrite list_lookup_insert_ne]. right.
    rewrite Ei in Et. injection Et as <-.
    assert (state_of c s' = Some CLOSED ∧ ref t' = None) as [Hcl Hr].
    { destruct (pi_owner _ Hp i _ c Ei eq_refl) as (x & Hx & Hst). unfold state_of in *.
      destruct ch; simpl in Ea; try done. destruct (decide _) as [E|E]; simplify_eq/=; unfold state_of in *.
      - split; [|done]. rewrite list_lookup_alter_eq, Hx. done.
      - split; [|done]. rewrite Hx in *. simpl in *. destruct (c_state x); congruence. }
    assert (is_prewarm t' = false) as Hpre' by (destruct ch; simpl in Ea; try done; destruct (decide _); by simplify_eq).
    split_and!; [done|..].
    + assert (tokens (mkPool s' (<[i := t']> (threads p) ++ sp)) c =
        tokens p c - local_tokens (sh p) (Releasing c false) c + local_tokens s' t' c) as Heq by by eapply run_tokens.
      assert (available s' = available (sh p)) as Hav by (destruct ch; simpl in Ea; try done; destruct (decide _); by simplify_eq).
      pose proof (pi_tokens _ Hp c) as Hle. unfold local_tokens in Heq. rewrite Hav, Hr in Heq.
      change (ref (Releasing c false)) with (Some c) in Heq. rewrite points_self in Heq.
      change (points c None) with 0 in Heq.
      pose proof (sum_of_nonneg (λ t, points c (ref t)) (<[i := t']> (threads p) ++ sp) (points_ref c)).
      pose proof (sum_of_nonneg (λ a, points c (Some a)) (available s') (λ a, proj1 (points_range c (Some a)))).
      unfold tokens in Heq at 1. unfold tokens at 1. simpl in *. lia.
    + apply not_true_iff_false. intros (u & Hu & Hpre)%existsb_exists.
      apply list_elem_of_In, list_elem_of_lookup in Hu as [k Ek].
      destruct (decide (k = i)) as [->|Hki].
      * simpl in Ek. rewrite (lookup_app_l_Some _ _ _ t') in Ek; [congruence|].
        apply list_lookup_insert_eq. by eapply lookup_lt_Some.
      * pose proof (run_inv p Hp i ch _ t' s' sp Ei Ea) as Hp'.
        assert (threads (mkPool s' (<[i := t']> (threads p) ++ sp)) !! i = Some t') as Ei'.
        { simpl. apply lookup_app_l_Some, list_lookup_insert_eq. by eapply lookup_lt_Some. }
        pose proof (pi_prewarm _ Hp' k i u t' Hki Ek Ei' Hpre) as Hd.
        destruct ch; simpl in Ea; try done; destruct (decide _); by simplify_eq.
Qed.

(** Where a thread stands when it is not between two operations of the pool. *)
Definition at_rest (t : thread) : bool :=
  match t with
  | Waiting | Held _ _ | Done _ | CancelledWaiting | CancelledOpening | Driver _ | DriverDone => true
  | _ => false
  end.
Definition is_held (t : thread) : bool := match t with Held _ _ => true | _ => false end.
Definition is_waiting (t : thread) : bool := match t with Waiting => true | _ => false end.
Definition is_cancelled_waiting (t : thread) : bool := match t with CancelledWaiting => true | _ => false end.
Definition is_cancelled_opening (t : thread) : bool := match t with CancelledOpening => true | _ => false end.
(** A caller that was refused, served or cancelled, and a connection task. *)
Definition finished (t : thread) : bool :=
  match t with Done _ | CancelledWaiting | CancelledOpening | Driver _ | DriverDone => true | _ => false end.
Definition count (f : thread → bool) (p : pool) : Z := sum_of (b2z ∘ f) (threads p).

Lemma count_le f p : 0 <= count f p <= Z.of_nat (length (threads p)).
Proof.
  unfold count. induction (threads p) as [|t l IH]; cbn [sum_of length]; [lia|].
  unfold compose in *. pose proof (b2z_range (f t)). lia.
Qed.
Lemma sum_of_ext_rest (f g : thread → Z) l : Forall (λ t, at_rest t = true) l →
  (∀ t, at_rest t = true → f t = g t) → sum_of f l = sum_of g l.
Proof. intros Hl Hfg. induction Hl as [|t l Ht _ IH]; simpl; [done|]. by rewrite IH, Hfg. Qed.
Lemma w64_small z : 0 <= z <= u64_max → w64 z = z.
Proof. unfold w64, u64_max. intros Hz. apply Z.mod_small. lia. Qed.

(** *** Progress *)
Definition needs_lock (t : thread) : bool :=
  match t with Locking | Pushing _ | PushingIdle _ _ => true | _ => false end.
Definition is_locked (s : shared) : bool := match lock s with Some _ => true | None => false end.
Lemma advance_enabled i t s : finished t = false → (∀ e, t ≠ PrewarmFailed e) →
  needs_lock t = false ∨ lock s = None → ∃ ch r, advance i ch t s = Some r.
Proof.
  intros Hf Hp Hl. assert (lock s = None ∨ needs_lock t = false) as Hl' by tauto.
  destruct t; try done; try (by destruct (Hp e)).
  all: try (destruct Hl' as [Hn|?]; [|done]).
  all: try match goal with n : nat |- context [Prewarming ?n] => destruct n end.
  all: first [exists Go; simpl; rewrite ?Hn; repeat case_match; by eexists
             |exists TimeOut; by eexists|exists (Connect InvalidUrl); by eexists].
Qed.

(** ** Theorems *)

(** C14. The pool respects its budget in every interleaving of callers, drops, cancellations, dying
    connections and the prewarm loop: the connections it has open never exceed [max_connections],
    nor do the checkouts in use; two checkouts never share a connection, and a connection that is
    checked out is not on the stack of idle ones. *)
Theorem pool_respects_its_budget n p : pool_of n p →
  n_live (sh p) <= Z.of_nat n ∧ count is_held p <= Z.of_nat n ∧
  (∀ i c r, threads p !! i = Some (Held c r) →
     (c ∉ available (sh p)) ∧ (∀ j r', threads p !! j = Some (Held c r') → j = i)).
Proof.
  intros Hpool. destruct (pool_of_inv _ _ Hpool) as [Hp Hmax]. rewrite <- Hmax. split_and!.
  - by apply live_bound.
  - destruct (pi_permits _ Hp) as [Hsum Hpos].
    assert (count is_held p <= sum_of (b2z ∘ has_permit) (threads p)); [|lia].
    apply sum_of_le. intros i t _. destruct t; simpl; unfold compose; simpl; try lia. by destruct granted.
  - intros i c r Ei. pose proof (pi_tokens _ Hp c) as Htok. split.
    + intros Hin. pose proof (tokens_thread_stack p i _ c Ei eq_refl Hin). lia.
    + intros j r' Ej. destruct (decide (j = i)) as [->|Hne]; [done|].
      pose proof (tokens_two p j i _ _ c Hne Ej Ei eq_refl eq_refl). lia.
Qed.

(** C15. A connection whose last operation may still be in flight is never handed out again: once
    the drop of a checkout marked uncertain has passed its compare-exchange, the connection is
    closed for good, and no caller holds it in any later state. *)
Theorem uncertain_connection_is_retired n p i c p' : pool_of n p →
  threads p !! i = Some (Releasing c false) → reachable p p' →
  threads p' !! i = Some (Releasing c false) ∨
  state_of c (sh p') = Some CLOSED ∧ (c ∉ available (sh p')) ∧ (∀ j r, threads p' !! j ≠ Some (Held c r)).
Proof.
  intros Hpool Ei Hr. destruct (pool_of_inv _ _ Hpool) as [Hp _].
  assert (pool_inv p' ∧ (threads p' !! i = Some (Releasing c false) ∨ gone c p')) as [Hp' [?|Hg]]; [|by left|].
  { revert Hr. apply (reachable_ind_inv
      (λ p, pool_inv p ∧ (threads p !! i = Some (Releasing c false) ∨ gone c p))); [|by auto].
    intros e q q' [Hq [Hi|Hg]] E; (split; [by eapply exec_inv|]).
    - by eapply releasing_next.
    - right. by eapply gone_kept. }
  right. split_and!; [apply Hg| |intros j r Ej; by apply (gone_unreachable c p' j _ Hg Ej)].
  intros Hin. pose proof (tokens_stack p' c Hin). destruct Hg as (_ & Htok & _). lia.
Qed.

(** What the gauges show when no thread is between two operations: [idle] is the number of idle
    connections; [in_use] the checkouts plus the callers cancelled while connecting, which stay
    counted; [waiters] the callers waiting for a permit plus those cancelled while waiting; and
    [open] the connections not closed, unless the prewarm loop marked a connection idle that its
    driver had already closed, each of which is missing from the count. *)
Theorem gauges_at_rest n p : pool_of n p → Forall (λ t, at_rest t = true) (threads p) →
  Z.of_nat n <= u64_max → Z.of_nat (length (threads p)) <= u64_max →
  idle (sh p) = n_idle (sh p) ∧
  in_use (sh p) = count is_held p + count is_cancelled_opening p ∧
  waiters (sh p) = count is_waiting p + count is_cancelled_waiting p ∧
  open (sh p) = w64 (n_live (sh p) - resurrected (sh p)) ∧
  (resurrected (sh p) = 0 → open (sh p) = n_live (sh p)).
Proof.
  intros Hpool Hrest Hn Hlen. destruct (pool_of_inv _ _ Hpool) as [Hp Hmax].
  assert (∀ f : thread → Z, (∀ t, at_rest t = true → f t = 0) → sum_of f (threads p) = 0) as Hzero.
  { intros f Hf. apply sum_of_zero. intros t Ht. apply Hf. rewrite Forall_forall in Hrest. by apply Hrest. }
  assert (∀ f g h, (∀ t, at_rest t = true → b2z (f t) = b2z (g t) + b2z (h t)) →
    sum_of (b2z ∘ f) (threads p) = count g p + count h p) as Hsplit.
  { intros f g h Hf. unfold count, compose. rewrite <- sum_of_plus. by apply sum_of_ext_rest. }
  pose proof (live_bound p Hp) as Hlive.
  assert (0 <= n_idle (sh p) <= n_live (sh p)) as Hidle.
  { split; [apply sum_of_nonneg; intros; apply b2z_range|]. apply sum_of_le. intros _ [[] ?] _; simpl;
      unfold compose, is_idle, is_live; simpl; lia. }
  assert (open (sh p) = w64 (n_live (sh p) - resurrected (sh p))) as Hopen.
  { rewrite (pi_open _ Hp), (Hzero owed_open) by (by intros []). f_equal. unfold n_live. lia. }
  split_and!.
  - rewrite (pi_idle _ Hp), (Hzero owed_idle), Z.add_0_r by (by intros []). apply w64_small. unfold n_idle in *. lia.
  - rewrite (pi_in_use _ Hp), (Hsplit _ is_held is_cancelled_opening) by (by intros []). apply w64_small.
    rewrite <- (Hsplit counts_in_use) by (by intros []). pose proof (count_le counts_in_use p). unfold count in *. lia.
  - rewrite (pi_waiters _ Hp), (Hsplit _ is_waiting is_cancelled_waiting) by (by intros []). apply w64_small.
    rewrite <- (Hsplit counts_waiter) by (by intros []). pose proof (count_le counts_waiter p). unfold count in *. lia.
  - done.
  - intros Hres. rewrite Hopen, Hres, Z.sub_0_r. apply w64_small. lia.
Qed.

(** C22. The pool never wedges: in every state some thread can go on unless each one is finished (a
    thread that waits for the mutex waits for one that can go on); and when every caller has
    finished, was refused or was cancelled, all [max_connections] permits are back, so the next
    caller is admitted. *)
Theorem pool_never_wedges n p : pool_of n p →
  ((∃ i t, threads p !! i = Some t ∧ finished t = false ∧ ∀ e, t ≠ PrewarmFailed e) →
   ∃ i ch t p', threads p !! i = Some t ∧ finished t = false ∧ exec (Run i ch) p = Some p') ∧
  (Forall (λ t, finished t = true) (threads p) → permits (sh p) = Z.of_nat n).
Proof.
  intros Hpool. destruct (pool_of_inv _ _ Hpool) as [Hp Hmax]. split.
  - intros (i & t & Ei & Hf & Hne).
    assert (∀ i t, threads p !! i = Some t → finished t = false → (∃ ch r, advance i ch t (sh p) = Some r) →
      ∃ i ch t p', threads p !! i = Some t ∧ finished t = false ∧ exec (Run i ch) p = Some p') as Hdone.
    { intros j u Ej Hu (ch & [[t' s'] sp] & Ea). exists j, ch, u. eexists. split_and!; [done..|].
      simpl. rewrite Ej. simpl. by rewrite Ea. }
    destruct (needs_lock t && is_locked (sh p)) eqn:Hblocked.
    + apply andb_prop in Hblocked as [_ Hl]. unfold is_locked in Hl. destruct (lock (sh p)) as [j|] eqn:El; [|done].
      apply (pi_lock _ Hp) in El as (u & Eu & Hcr). apply (Hdone j u); [done|by destruct u|].
      apply advance_enabled; [by destruct u|by destruct u|by left; destruct u].
    + apply (Hdone i t); [done..|]. apply advance_enabled; [done..|].
      apply andb_false_iff in Hblocked as [?|Hl]; [by left|right]. unfold is_locked in Hl. by destruct (lock (sh p)).
  - intros Hall. destruct (pi_permits _ Hp) as [Hsum _]. rewrite sum_of_zero in Hsum; [lia|].
    intros t Ht. rewrite Forall_forall in Hall. specialize (Hall t Ht). by destruct t.
Qed.

(** The prewarm race: a connection that dies between its registration and the loop's unconditional
    store is marked idle although its driver has closed and uncounted it; the first checkout then
    closes it a second time, and the gauge of open connections wraps around. *)
Theorem prewarm_race_wraps_open_gauge : ∃ p, reachable (connecting 1) p ∧
  Forall (λ t, at_rest t = true) (threads p) ∧ n_live (sh p) = 0 ∧ open (sh p) = u64_max.
Proof.
  pose (es := [Run 0 (Connect Connected); Die 0; Run 1 Go; Run 1 Go; Run 0 Go; Run 0 Go; Run 0 Go; Run 0 Go;
    Spawn; Run 2 Go; Run 2 Grant; Run 2 Go; Run 2 Go; Run 2 Go; Run 2 Go; Run 2 Go; Run 2 Go; Run 2 Go;
    Run 2 Go; Run 2 Go; Run 2 Go; Run 2 Cancel]).
  destruct (run es (connecting 1)) as [p|] eqn:E; [|by vm_compute in E].
  exists p. split; [by exists es|]. vm_compute in E. injection E as <-. vm_compute.
  split; [repeat constructor|done].
Qed.
