(* ===== verification/PoolConfig.v ===== *)
(** How a connection pool is configured (src/adapters/cockroach_pool.rs and
    src/adapters/cockroach_tls.rs): the pool settings, the transport a connection URL must ask for,
    the database endpoint of a URL, and the TLS configuration with its optional client identity.

    The URL parser of tokio-postgres and the certificate and key parsers of rustls are parameters:
    a URL parses to the fields the code reads, or not at all. *)
From S2P Require Import Prelude Chrono Model Storage Pool.
Local Open Scope Z_scope.

(** ** Settings *)
(** Durations are nanoseconds. *)
Record CockroachPoolConfig := mkPoolConfig {
  max_connections : nat;
  acquire_timeout : Z;
  connect_timeout : Z;
  transaction_timeout : Z;
  commit_timeout : Z;
  rollback_timeout : Z
}.
Definition from_secs (n : Z) : Z := n * 1000000000.
Definition pool_config_default : CockroachPoolConfig :=
  mkPoolConfig 16 (from_secs 5) (from_secs 10) (from_secs 30) (from_secs 10) (from_secs 5).

(** ** Connection URLs *)
Inductive SslMode := Disable | Prefer | Require_ | OtherMode.
#[export] Instance SslMode_eq_dec : EqDecision SslMode.
Proof. solve_decision. Defined.
Inductive Host := Tcp (host : string) | Unix (path : string).
(** What the code reads of a parsed [Config]. *)
Record PgConfig := mkPgConfig {
  ssl_mode : SslMode;
  hostaddrs : list string;
  hosts : list Host;
  ports : list Z
}.
Record DatabaseTarget := mkTarget { address : string; port : Z }.

(** ** TLS *)
Inductive CockroachTlsConfigError :=
  | InvalidCaBundle
  | InvalidClientCertificate
  | InvalidClientKey
  | IncompleteClientIdentity
  | InvalidClientIdentity
  | InvalidCryptoProvider.
Definition tls_error_text (e : CockroachTlsConfigError) : string :=
  match e with
  | InvalidCaBundle => "CockroachDB CA bundle is empty or invalid"
  | InvalidClientCertificate => "CockroachDB client certificate chain is empty or invalid"
  | InvalidClientKey => "CockroachDB client private key is empty or invalid"
  | IncompleteClientIdentity => "CockroachDB client certificate and private key must be configured together"
  | InvalidClientIdentity => "CockroachDB client certificate and private key do not form a valid identity"
  | InvalidCryptoProvider => "CockroachDB TLS cryptographic provider could not be configured"
  end.

Section tls.
Context {Cert Key : Type}.
(** [CertificateDer::pem_slice_iter], collected: [None] when an item is an error. *)
Context (pem_certificates : list byte → option (list Cert)).
(** [RootCertStore::add] accepts the certificate. *)
Context (root_accepts : Cert → bool).
(** [PrivateKeyDer::from_pem_slice]. *)
Context (pem_key : list byte → option Key).
(** The crypto provider supports the default protocol versions; [with_client_auth_cert] accepts the
    identity. *)
Context (provider_ok : bool) (identity_ok : list Cert → Key → bool).

Record CockroachTlsConfig := mkTls {
  roots : list Cert;
  client_certificates : option (list Cert);
  client_key : option Key
}.

Fixpoint add_roots (acc certificates : list Cert) : Result CockroachTlsConfigError (list Cert) :=
  match certificates with
  | [] => Ok acc
  | c :: rest => if root_accepts c then add_roots (acc ++ [c]) rest else Err InvalidCaBundle
  end.
Definition from_ca_pem (ca_pem : list byte) : Result CockroachTlsConfigError CockroachTlsConfig :=
  certificates ← ok_or (pem_certificates ca_pem) InvalidCaBundle;
  if bool_decide (length certificates = 0%nat) then Err InvalidCaBundle
  else roots ← add_roots [] certificates; Ok (mkTls roots None None).
Definition with_client_auth_pem (self : CockroachTlsConfig) (chain_pem key_pem : list byte) :
    Result CockroachTlsConfigError CockroachTlsConfig :=
  certificates ← ok_or (pem_certificates chain_pem) InvalidClientCertificate;
  if bool_decide (length certificates = 0%nat) then Err InvalidClientCertificate
  else key ← ok_or (pem_key key_pem) InvalidClientKey;
       Ok (mkTls (roots self) (Some certificates) (Some key)).

(** A connector trusts the roots and presents the identity, if there is one. *)
Record Connector := mkConnector { trusted : list Cert; identity : option (list Cert * Key) }.
Definition connector (self : CockroachTlsConfig) : Result CockroachTlsConfigError Connector :=
  if negb provider_ok then Err InvalidCryptoProvider
  else match client_certificates self, client_key self with
  | Some certificates, Some key =>
      if identity_ok certificates key then Ok (mkConnector (roots self) (Some (certificates, key)))
      else Err InvalidClientIdentity
  | None, None => Ok (mkConnector (roots self) None)
  | _, _ => Err IncompleteClientIdentity
  end.

(** ** Pools *)
Inductive CockroachTransport := InsecureDev | Rustls (c : Connector).

(** The parts of [PoolInner] that never change, and the pool at the start of its prewarm. *)
Record PoolInner := mkInner {
  database_url : string;
  database_target : option DatabaseTarget;
  transport : CockroachTransport;
  settings : CockroachPoolConfig;
  state : pool
}.

(** [str::parse::<Config>]. *)
Context (parse_config : string → option PgConfig).

Definition expected_mode (required : SslMode) : string :=
  match required with
  | Disable => "disable" | Prefer => "prefer" | Require_ => "require" | OtherMode => "the required value"
  end.
Definition require_ssl_mode (url : string) (required : SslMode) (transport_name : string) :
    Result StoreError unit :=
  config ← ok_or (parse_config url) (Other "CockroachDB connection URL is invalid");
  if negb (bool_decide (ssl_mode config = required))
  then Err (Other ("CockroachDB " +:+ transport_name +:+ " connections require sslmode=" +:+ expected_mode required))
  else Ok tt.

Definition from_database_url (url : string) : option DatabaseTarget :=
  config ← parse_config url;
  addr ← match head (hostaddrs config) with
         | Some a => Some a
         | None => (λ h, match h with Tcp h => h | Unix path => path end) <$> head (hosts config)
         end;
  Some (mkTarget addr (default 5432 (head (ports config)))).

Definition connect_with_transport (url : string) (config : CockroachPoolConfig) (t : CockroachTransport) :
    Result StoreError PoolInner :=
  if bool_decide (max_connections config = 0%nat)
  then Err (Other "CockroachDB pool max_connections must be greater than zero")
  else if (acquire_timeout config =? 0) || (connect_timeout config =? 0) || (transaction_timeout config =? 0)
    || (commit_timeout config =? 0) || (rollback_timeout config =? 0)
  then Err (Other "CockroachDB pool timeouts must be greater than zero")
  else Ok (mkInner url (from_database_url url) t config (connecting (max_connections config))).

Definition connect (url : string) (config : CockroachPoolConfig) : Result StoreError PoolInner :=
  connect_with_transport url config InsecureDev.
Definition connect_insecure_dev (url : string) (config : CockroachPoolConfig) : Result StoreError PoolInner :=
  _ ← require_ssl_mode url Disable "insecure development";
  connect_with_transport url config InsecureDev.
Definition connect_rustls (url : string) (config : CockroachPoolConfig) (tls : CockroachTlsConfig) :
    Result StoreError PoolInner :=
  _ ← require_ssl_mode url Require_ "verified TLS";
  c ← map_err (λ e, Other (tls_error_text e)) (connector tls);
  connect_with_transport url config (Rustls c).

(** ** Lemmas *)
(** The configurations the constructors build. *)
Inductive built : CockroachTlsConfig → Prop :=
  | built_ca ca_pem self : from_ca_pem ca_pem = Ok self → built self
  | built_client self self' chain_pem key_pem : built self →
      with_client_auth_pem self chain_pem key_pem = Ok self' → built self'.

Definition tls_wf (self : CockroachTlsConfig) : Prop :=
  roots self ≠ [] ∧ Forall (λ c, root_accepts c = true) (roots self) ∧
  (is_Some (client_certificates self) ↔ is_Some (client_key self)) ∧ client_certificates self ≠ Some [].

Lemma add_roots_ok acc l rs : Forall (λ c, root_accepts c = true) acc → add_roots acc l = Ok rs →
  rs = acc ++ l ∧ Forall (λ c, root_accepts c = true) rs.
Proof.
  revert acc. induction l as [|c l IH]; intros acc Hacc; simpl; [intros [= <-]; by rewrite app_nil_r|].
  destruct (root_accepts c) eqn:Ec; [|done]. intros E. apply IH in E as [-> Hf]; [by rewrite <- app_assoc in *|].
  apply Forall_app. by auto.
Qed.
Lemma built_wf self : built self → tls_wf self.
Proof.
  induction 1 as [ca_pem self E|self self' chain_pem key_pem _ (Hr & Hf & Hi & Hc) E].
  - unfold from_ca_pem in E. destruct (pem_certificates ca_pem) as [l|]; simpl in E; [|done].
    case_bool_decide as Hl; [done|]. destruct (add_roots [] l) as [rs|] eqn:Er; simplify_eq/=.
    apply add_roots_ok in Er as [-> Hf]; [|done]. split_and!; simpl; [|done|split; intros []; done|done].
    simpl in *. by destruct l.
  - unfold with_client_auth_pem in E. destruct (pem_certificates chain_pem) as [l|]; simpl in E; [|done].
    case_bool_decide as Hl; [done|]. destruct (pem_key key_pem) as [key|]; simplify_eq/=.
    split_and!; simpl; [done|done|split; eauto|]. intros [= ->]. done.
Qed.
Lemma require_ssl_mode_ok url required name : require_ssl_mode url required name = Ok tt ↔
  ssl_mode <$> parse_config url = Some required.
Proof.
  unfold require_ssl_mode. destruct (parse_config url) as [c|]; simpl; [|done].
  case_bool_decide; simpl; naive_solver.
Qed.
Definition valid_pool_config (config : CockroachPoolConfig) : Prop :=
  max_connections config ≠ 0%nat ∧ acquire_timeout config ≠ 0 ∧ connect_timeout config ≠ 0 ∧
  transaction_timeout config ≠ 0 ∧ commit_timeout config ≠ 0 ∧ rollback_timeout config ≠ 0.
Lemma connect_with_transport_ok url config t inner : connect_with_transport url config t = Ok inner ↔
  valid_pool_config config ∧
  inner = mkInner url (from_database_url url) t config (connecting (max_connections config)).
Proof.
  unfold connect_with_transport, valid_pool_config. case_bool_decide as Hm; [naive_solver|].
  destruct (_ || _) eqn:E; zbool; [|naive_solver]. split; [done|].
  intros [(_ & ? & ? & ? & ? & ?) _]. repeat (apply orb_prop in E as [E|E]; [|zbool; congruence]). by zbool.
Qed.

(** ** Theorems *)

(** C39. Every TLS configuration the constructors build is well formed: it trusts at least one root,
    every one accepted by the root store, and has a certificate chain, never an empty one, exactly
    when it has a private key; so its connector trusts exactly those roots, presents the identity
    exactly when one was added, and never fails for an incomplete identity. *)
Theorem tls_configuration_is_well_formed self : built self →
  tls_wf self ∧ connector self ≠ Err IncompleteClientIdentity ∧
  (∀ c, connector self = Ok c → trusted c = roots self ∧ fst <$> identity c = client_certificates self).
Proof.
  intros Hb. pose proof (built_wf self Hb) as (Hr & Hf & Hi & Hc). split; [done|].
  unfold connector. destruct provider_ok; simpl; [|done].
  destruct (client_certificates self) as [l|], (client_key self) as [key|]; simpl.
  - destruct (identity_ok l key); split; try done. by intros c [= <-].
  - by destruct (proj1 Hi ltac:(eauto)).
  - by destruct (proj2 Hi ltac:(eauto)).
  - split; [done|]. by intros c [= <-].
Qed.

(** The transport is the one the URL asks for: a TLS pool is only created for a URL with
    [sslmode=require] and a working connector, which it then uses, a plaintext pool of
    [connect_insecure_dev] only for [sslmode=disable]; both only with at least one connection and
    timeouts that are not zero, and in every other case no pool is created. *)
Theorem transport_matches_url url config tls inner :
  (connect_rustls url config tls = Ok inner ↔
   ssl_mode <$> parse_config url = Some Require_ ∧ valid_pool_config config ∧
   ∃ c, connector tls = Ok c ∧
     inner = mkInner url (from_database_url url) (Rustls c) config (connecting (max_connections config))) ∧
  (connect_insecure_dev url config = Ok inner ↔
   ssl_mode <$> parse_config url = Some Disable ∧ valid_pool_config config ∧
   inner = mkInner url (from_database_url url) InsecureDev config (connecting (max_connections config))).
Proof.
  unfold connect_rustls, connect_insecure_dev. rewrite <- !(require_ssl_mode_ok url _ "verified TLS").
  assert (∀ m n n', require_ssl_mode url m n = Ok tt ↔ require_ssl_mode url m n' = Ok tt) as Hname.
  { intros m n n'. by rewrite !require_ssl_mode_ok. }
  rewrite (Hname Disable "verified TLS" "insecure development"). split.
  - destruct (require_ssl_mode url Require_ _) as [[]|]; simpl; [|naive_solver].
    destruct (connector tls) as [c|]; simpl; [|naive_solver]. rewrite connect_with_transport_ok. naive_solver.
  - destruct (require_ssl_mode url Disable _) as [[]|]; simpl; [|naive_solver].
    rewrite connect_with_transport_ok. naive_solver.
Qed.
End tls.
