(* ===== verification/PoolReports.v ===== *)
(** What the connection pool reports (src/adapters/cockroach_pool.rs, [PoolMetrics] and the calls of
    its methods): the measurements that go with each atomic operation of [Pool], and how the
    counters of connections created and closed relate to the gauge of open connections. The gauges
    themselves are read again by [record_pool_state] after the operations; its five loads are not one
    atomic step, so only the values it may read, the counters of [Pool], are modelled. *)
From S2P Require Import Prelude Chrono Model Storage Observability Pool.
Local Open Scope Z_scope.
Import pool_metrics.

(** The outcomes [acquire] reports, and the one of [register_connection]. *)
Definition acquire_outcomes : list string := ["closed"; "timeout"; "connect_error"; "success"].

(** What the operation that takes the thread from [t] to [t'] reports; [elapsed] is how long the
    caller has waited. *)
Definition operation_reports (elapsed : Z) (t t' : thread) : list Measurement :=
  let m := PoolMetrics_new in
  match t, t' with
  | Resolved false, Done _ => pool_acquire m "timeout" elapsed
  | Failing _, Refusing _ => pool_acquire m "connect_error" elapsed
  | Checking _, Held _ _ => pool_acquire m "success" elapsed
  | Opening, Held _ _ => pool_connection_created m "success" ++ pool_acquire m "success" elapsed
  | Prewarming _, Storing _ _ => pool_connection_created m "success"
  | Retired, Popping | Closing, Returning => pool_connection_closed m
  | DriverClosed _, _ => pool_connection_closed m
  | _, _ => []
  end.
(** [record_pool_state] in a state. *)
Definition record_pool_state (s : shared) : list Measurement :=
  pool_connections PoolMetrics_new (idle s) (in_use s) (open s) (max s) (waiters s).

(** What an event reports, and a whole run. *)
Definition event_reports (elapsed : Z) (e : event) (p : pool) : list Measurement :=
  match e with
  | Run i ch =>
      match threads p !! i with
      | Some t => match advance i ch t (sh p) with Some (t', _, _) => operation_reports elapsed t t' | None => [] end
      | None => []
      end
  | _ => []
  end.
Fixpoint run_reports (elapsed : Z) (es : list event) (p : pool) : list Measurement :=
  match es with
  | [] => []
  | e :: es => match exec e p with Some p' => event_reports elapsed e p ++ run_reports elapsed es p' | None => [] end
  end.

(** A counter's total over some measurements. *)
Definition counted (i : Instrument) (ms : list Measurement) : Z :=
  foldr (λ m total, if decide (m_instrument m = i) then match m_reading m with U64 n => n + total | F64 _ => total end else total) 0 ms.
Definition created (ms : list Measurement) : Z := counted (pm_connections_created PoolMetrics_new) ms.
Definition closed (ms : list Measurement) : Z := counted (pm_connections_closed PoolMetrics_new) ms.

(** Every series. *)
Definition pool_series : list (string * attributes) :=
  map (λ s, ("pulpitum.db.pool.connections", [("pulpitum.db.pool.state", s)])) ["idle"; "in_use"; "open"; "max"; "waiters"] ++
  (n ← ["pulpitum.db.pool.acquires"; "pulpitum.db.pool.acquire.duration"];
   map (λ o, (n, [("pulpitum.db.pool.outcome", o)])) acquire_outcomes) ++
  [("pulpitum.db.pool.connections.created", [("pulpitum.db.pool.outcome", "success")]);
   ("pulpitum.db.pool.connections.closed", [])].

(** ** Lemmas *)
Lemma counted_app i ms ms' : counted i (ms ++ ms') = counted i ms + counted i ms'.
Proof. induction ms as [|m ms IH]; simpl; [lia|]. rewrite IH. repeat case_match; lia. Qed.

(** The difference an operation makes to [open] is what it reports. *)
Lemma operation_open elapsed i ch t s t' s' spawned : advance i ch t s = Some (t', s', spawned) →
  open s' = w64 (open s + created (operation_reports elapsed t t') - closed (operation_reports elapsed t t'))
  ∨ open s' = open s ∧ created (operation_reports elapsed t t') = 0 ∧ closed (operation_reports elapsed t t') = 0.
Proof.
  intros Ha. destruct t; simpl in Ha; unfold acquire_step, take_idle_connection, open_connection, drop_step,
    close_connection, prewarm in Ha; repeat case_match; simplify_eq/=; try done; auto.
  all: left; f_equal; lia.
Qed.
Lemma event_open elapsed e p p' : exec e p = Some p' → 0 <= open (sh p) < 2 ^ 64 →
  open (sh p') = w64 (open (sh p) + created (event_reports elapsed e p) - closed (event_reports elapsed e p)).
Proof.
  intros He Hp. assert (∀ x, x = open (sh p) → x = w64 (open (sh p) + 0 - 0)) as Hsame.
  { intros x ->. unfold w64. rewrite Z.mod_small; lia. }
  destruct e as [|c|i ch]; simpl in *.
  - case_match; simplify_eq/=. by apply Hsame.
  - simplify_eq/=. by apply Hsame.
  - destruct (threads p !! i) as [t|]; [|done]. simpl in He.
    destruct (advance i ch t (sh p)) as [[[t' s'] spawned]|] eqn:Ha; [|done]. simplify_eq/=.
    destruct (operation_open elapsed i ch t (sh p) t' s' spawned Ha) as [->|(-> & -> & ->)]; [done|by apply Hsame].
Qed.

(** ** Theorems *)
(** The counters of connections explain the gauge of open ones: after any run of the pool, the number
    of open connections is the number it started with, plus those counted as created, minus those
    counted as closed, modulo 2^64. *)
Theorem open_is_created_minus_closed elapsed es p p' : run es p = Some p' → 0 <= open (sh p) < 2 ^ 64 →
  open (sh p') = w64 (open (sh p) + created (run_reports elapsed es p) - closed (run_reports elapsed es p)).
Proof.
  revert p. induction es as [|e es IH]; intros p; simpl.
  { intros [= <-] Hp. unfold w64. rewrite Z.mod_small; lia. }
  destruct (exec e p) as [p1|] eqn:Ee; [|done]. simpl. intros Hrun Hp. pose proof (event_open elapsed e p p1 Ee Hp) as Ho.
  rewrite (IH p1 Hrun) by (rewrite Ho; apply Z.mod_pos_bound; lia). rewrite Ho.
  unfold created, closed in *. rewrite !counted_app. unfold w64.
  set (a := counted _ (event_reports _ _ _)). set (b := counted _ (event_reports _ _ _)).
  set (c := counted _ (run_reports _ _ _)). set (d := counted _ (run_reports _ _ _)).
  rewrite <- Z.add_sub_assoc, Zplus_mod_idemp_l. f_equal. lia.
Qed.

(** The pool's metrics have fifteen series, and none names a connection or a caller. *)
Theorem pool_series_are_bounded : length pool_series = 15%nat ∧ NoDup pool_series ∧
  ∀ elapsed e p m, m ∈ event_reports elapsed e p ++ record_pool_state (sh p) → series_of m ∈ pool_series.
Proof.
  split_and!; [done|apply (bool_decide_unpack _); by vm_compute|]. intros elapsed e p m Hm.
  unfold event_reports, operation_reports, pool_acquire, pool_connection_created, pool_connection_closed in Hm.
  repeat case_match; simpl in Hm; repeat (apply elem_of_cons in Hm as [->|Hm]); try (by apply not_elem_of_nil in Hm);
    unfold series_of; simpl; apply (bool_decide_unpack _); vm_compute; exact I.
Qed.
