(* ===== verification/Prog.v ===== *)
(** Asynchronous code as data. A [prog] is what an [async fn] of src/application does: it
    performs one event at a time and continues with the result. The events are the calls on
    the two storage ports, the operations of the lease renewer
    (src/application/durable_archive_recovery.rs, [ArchiveLeaseRenewer]), the telemetry hooks
    and the readings of the monotonic clock that two of those report. Programs are
    run in two ways: [run], an executable interpreter for one worker alone, and the
    interleaving semantics of [System]; [reports] says what a program tells its telemetry,
    whatever it is answered. Tracing spans are not events. *)
From S2P Require Import Prelude Chrono Model Storage Observability.
Local Open Scope Z_scope.

(** ** Events and programs *)
Inductive event : Type → Type :=
  | EStore {X} (c : store_call X) : event X
  | EArchive {X} (c : archive_call X) : event X
  (** [ArchiveLeaseRenewer::start]: spawns the task that renews the session's lease. *)
  | EStartRenewer (s : ArchiveSession) (lease_for interval : Z) : event unit
  (** The failure channel of the renewer, as [select!] sees it when an operation is over. *)
  | EPollFailure : event (option DurableBucketStoreError)
  (** [ArchiveLeaseRenewer::shutdown] *)
  | EShutdownRenewer : event unit
  (** A call of a [Telemetry] hook. *)
  | ETelemetry (h : hook) : event unit
  (** [started.elapsed()], in nanoseconds. *)
  | EElapsed : event Z.

Inductive prog (A : Type) : Type :=
  | Ret (a : A)
  | Vis {X : Type} (e : event X) (k : X → prog A).
Arguments Ret {A} a.
Arguments Vis {A X} e k.

#[export] Instance prog_ret : MRet prog := λ A a, Ret a.
#[export] Instance prog_bind : MBind prog := λ A B f,
  fix go (p : prog A) : prog B :=
    match p with Ret a => f a | Vis e k => Vis e (λ x, go (k x)) end.

Definition perform {X} (e : event X) : prog X := Vis e Ret.
Definition store {X} (c : store_call X) : prog X := perform (EStore c).
Definition archive {X} (c : archive_call X) : prog X := perform (EArchive c).
Definition telemetry (h : hook) : prog unit := perform (ETelemetry h).
Definition telemetry_elapsed (h : Z → hook) : prog unit := perform EElapsed ≫= λ t, telemetry (h t).

(** The [?] operator: continue on success, return the converted error otherwise. *)
Definition try_ {A B E F} (conv : E → F) (p : prog (Result E A)) (k : A → prog (Result F B)) :
    prog (Result F B) :=
  p ≫= λ r, match r with Ok a => k a | Err e => Ret (Err (conv e)) end.

(** [ArchiveLeaseRenewer::supervise]: the operation always runs to completion; if the
    renewer reported a failure, that failure is returned and the result dropped. *)
Definition supervise {T E} (operation : prog (Result E T)) :
    prog (Result DurableBucketStoreError (Result E T)) :=
  result ← operation;
  failure ← perform EPollFailure;
  Ret match failure with Some error => Err error | None => Ok result end.

(** ** Running one program alone *)
Section run.
Context {E S F T : Type} `{DurableBucketStore E S, ArchiveStore F T}.

(** What one event reads from outside. *)
Record input := mkInput {
  in_store : E;
  in_archive : F;
  in_failure : option DurableBucketStoreError;
  in_elapsed : Z }.

Definition step_event {X} (e : event X) (i : input) (st : S * T) : X * (S * T) :=
  match e in event X return X * (S * T) with
  | EStore c => let '(x, s) := store_exec c (in_store i) st.1 in (x, (s, st.2))
  | EArchive c => let '(x, t) := archive_exec c (in_archive i) st.2 in (x, (st.1, t))
  | EStartRenewer _ _ _ => (tt, st)
  | EPollFailure => (in_failure i, st)
  | EShutdownRenewer => (tt, st)
  | ETelemetry _ => (tt, st)
  | EElapsed => (in_elapsed i, st)
  end.

(** The [n]-th event of the program reads [inputs n]. *)
Fixpoint run {A} (p : prog A) (inputs : nat → input) (n : nat) (st : S * T) : A * (S * T) :=
  match p with
  | Ret a => (a, st)
  | Vis e k => let '(x, st') := step_event e (inputs n) st in run (k x) inputs (Datatypes.S n) st'
  end.
End run.
Arguments mkInput {E F}.

(** ** Lemmas *)
Lemma prog_bind_ret {A B} (a : A) (f : A → prog B) : (Ret a ≫= f) = f a.
Proof. done. Qed.
Lemma prog_bind_vis {A B X} (e : event X) (k : X → prog A) (f : A → prog B) :
  (Vis e k ≫= f) = Vis e (λ x, k x ≫= f).
Proof. done. Qed.

(** ** What a program reports *)
Definition hook_of {X} (e : event X) : list hook :=
  match e with ETelemetry h => [h] | _ => [] end.

(** [Q] holds of the hooks a program calls, in order, and of what it returns, for every sequence of
    answers; [log] are the hooks called before. *)
Fixpoint reports {A} (Q : list hook → A → Prop) (log : list hook) (p : prog A) : Prop :=
  match p with
  | Ret a => Q log a
  | Vis e k => ∀ x, reports Q (log ++ hook_of e) (k x)
  end.
Arguments reports : simpl never.

(** The hooks called in one run. *)
Fixpoint reported {E S F T : Type} `{DurableBucketStore E S, ArchiveStore F T} {A} (p : prog A)
    (inputs : nat → input (E := E) (F := F)) (n : nat) (st : S * T) : list hook :=
  match p with
  | Ret _ => []
  | Vis e k => let '(x, st') := step_event e (inputs n) st in
      hook_of e ++ reported (k x) inputs (Datatypes.S n) st'
  end.

Section reports_lemmas.
Context {A : Type}.
Implicit Types (Q : list hook → A → Prop) (log : list hook).

Lemma reports_ret Q log a : Q log a → reports Q log (Ret a).
Proof. done. Qed.
Lemma reports_mono Q Q' log (p : prog A) : (∀ log' a, Q log' a → Q' log' a) → reports Q log p → reports Q' log p.
Proof.
  intros HQ. revert log. induction p as [a|X e k IH]; intros log; cbn; [apply HQ|]. intros Hp x. apply IH, Hp.
Qed.
Lemma reports_bind {B} (Q : list hook → B → Prop) log (p : prog A) (f : A → prog B) :
  reports (λ log' a, reports Q log' (f a)) log p → reports Q log (p ≫= f).
Proof. revert log. induction p as [a|X e k IH]; intros log; cbn; [done|]. intros Hp x. apply IH, Hp. Qed.
Lemma reports_perform Q log (e : event A) : (∀ x, Q (log ++ hook_of e) x) → reports Q log (perform e).
Proof. done. Qed.
(** A program whose hooks do not depend on what was logged before. *)
Lemma reports_frame Q log log0 (p : prog A) :
  reports (λ l a, Q (log0 ++ l) a) log p → reports Q (log0 ++ log) p.
Proof.
  revert log. induction p as [a|X e k IH]; intros log; cbn; [done|]. intros Hp x. rewrite <- app_assoc. apply IH, Hp.
Qed.

(** Every single run is covered. *)
Lemma reports_run {E S F T : Type} `{DurableBucketStore E S, ArchiveStore F T} Q log (p : prog A)
    (inputs : nat → input (E := E) (F := F)) n (st : S * T) :
  reports Q log p → Q (log ++ reported p inputs n st) (run p inputs n st).1.
Proof.
  revert log n st. induction p as [a|X e k IH]; intros log n st; cbn; [by rewrite app_nil_r|].
  intros Hp. destruct (step_event e (inputs n) st) as [x st'] eqn:Ex. rewrite app_assoc. apply IH, Hp.
Qed.
End reports_lemmas.
Lemma reports_telemetry (Q : list hook → unit → Prop) log h : Q (log ++ [h]) tt → reports Q log (telemetry h).
Proof. intros HQ []. exact HQ. Qed.
Lemma reports_elapsed (Q : list hook → unit → Prop) log (h : Z → hook) :
  (∀ t, Q (log ++ [h t]) tt) → reports Q log (telemetry_elapsed h).
Proof. intros HQ. apply reports_bind, reports_perform. intros t. rewrite app_nil_r. apply reports_telemetry, HQ. Qed.
Lemma reports_supervise {T E} Q log (p : prog (Result E T)) :
  reports (λ l r, Q l (Ok r) ∧ ∀ e, Q l (Err e)) log p → reports Q log (supervise p).
Proof.
  intros Hp. apply reports_bind. eapply reports_mono; [|exact Hp]. intros l r [Hok He].
  apply reports_bind, reports_perform. intros [e|]; simpl; rewrite app_nil_r; [apply He|apply Hok].
Qed.
