(* ===== verification/Table.v ===== *)
(** The table router (src/application/durable_table.rs, [DurableTable]): appends through
    the write window, reads of one bucket from whichever tier the store routes to, the
    bounded parallel read of the buckets of a range, and the page a query returns.

    [read_bucket] and the tail of [append] are programs over the storage ports. The
    [JoinSet] of [read_buckets] is a loop over the set of running tasks: an arbitrary
    schedule says which running task completes next, and [reads] gives each task's result,
    [Panicked] being a join error. *)
From S2P Require Import Prelude Chrono Model Schema Storage Observability Prog.
Local Open Scope Z_scope.

Definition MAX_PARALLEL_BUCKET_READS : nat := 4.

Record Query := mkQuery {
  q_partition_key : list byte;
  q_range : TimeRange;
  q_after : option Cursor;
  q_limit : Z
}.
Record QueryPage := mkPage { p_records : list Record_; p_next : option Cursor }.

Inductive DurableTableError :=
  | TableBucketReadOnly (b : BucketId) (s : BucketState)
  | OutsideWriteWindow (b : BucketId) (oldest newest : string)
  | InvalidTimeRange
  | TableDefinitionError (e : DefinitionError)
  | TableDurableStore (e : DurableBucketStoreError)
  | TableStore (e : StoreError).

Section table.
Context `{Chrono} (d : TableDefinition).

(** [with_definition_and_telemetry] *)
Definition with_definition : Result DurableTableError TableDefinition :=
  match validate d with Ok _ => Ok d | Err e => Err (TableDefinitionError e) end.

(** ** Appending *)
Definition append_error (b : BucketId) (e : DurableBucketStoreError) : DurableTableError :=
  match e with BucketReadOnly s => TableBucketReadOnly b s | e => TableDurableStore e end.

Definition table_append (r : Record_) (utc_now : Z) : Outcome (prog (Result DurableTableError unit)) :=
  bucket ← bucket_for d r;
  writable ← writable_buckets_at d (partition_key bucket) utc_now;
  oldest ← expect (head writable);
  newest ← expect (last writable);
  if (start bucket <? start oldest) || (start newest <? start bucket)
  then Value (Ret (Err (OutsideWriteWindow bucket (key oldest) (key newest))))
  else Value (res ← store (Append bucket r); Ret (map_err (append_error bucket) res)).

(** ** Reading one bucket *)
Definition read_bucket (b : BucketId) (range : TimeRange) (after : option Cursor) (limit : Z) :
    prog (Result DurableTableError (list Record_)) :=
  try_ TableDurableStore (store (ReadRange b range after limit)) (λ read,
  match read with
  | ReadHot records => telemetry (read_routed b TierHot) ≫= λ _, Ret (Ok records)
  | ReadArchive object_key =>
    telemetry (read_routed b TierArchive) ≫= λ _,
    try_ TableStore (archive (GetBucket b object_key)) (λ records,
    let records := filter (λ r, Is_true (range_contains range (event_time r))) records in
    let records := filter (λ r, Is_true (after_cursor after r)) records in
    Ret (Ok (take (Z.to_nat limit) (sort_by clustering records))))
  end).

(** ** Reading the buckets of a range *)
Definition join_error : DurableTableError := TableStore (Other "parallel bucket read task failed").

(** The [while let Some(read) = reads.join_next().await] loop: [running] are the spawned
    tasks, [rest] the buckets not yet spawned. *)
Fixpoint join_loop (fuel : nat) (schedule : nat → nat)
    (reads : BucketId → Outcome (Result DurableTableError (list Record_)))
    (running rest : list BucketId) (result : list Record_) :
    Outcome (Result DurableTableError (list Record_)) :=
  match fuel with
  | O => OutOfFuel
  | S fuel =>
    let i := (schedule fuel mod length running)%nat in
    match running !! i with
    | None => Value (Ok result)
    | Some b =>
      match reads b with
      | OutOfFuel => OutOfFuel
      | Panicked => Value (Err join_error)
      | Value (Err e) => Value (Err e)
      | Value (Ok records) =>
        join_loop fuel schedule reads (delete i running ++ take 1 rest) (drop 1 rest) (result ++ records)
      end
    end
  end.

Definition read_buckets (schedule : nat → nat)
    (reads : BucketId → Outcome (Result DurableTableError (list Record_))) (buckets : list BucketId) :
    Outcome (Result DurableTableError (list Record_)) :=
  match buckets with
  | [] => Value (Ok [])
  | [first] => reads first
  | first :: second :: rest =>
    join_loop (S (length buckets)) schedule reads
      (first :: second :: take (MAX_PARALLEL_BUCKET_READS - 2) rest)
      (drop (MAX_PARALLEL_BUCKET_READS - 2) rest) []
  end.

(** ** Queries *)
Definition page_capacity (limit : Z) : Z := saturating_add limit 1.

Definition query_page (schedule : nat → nat)
    (reads : BucketId → Outcome (Result DurableTableError (list Record_))) (q : Query) :
    Outcome (Result DurableTableError QueryPage) :=
  if range_end (q_range q) <=? range_start (q_range q) then Value (Err InvalidTimeRange)
  else if q_limit q =? 0 then Value (Ok (mkPage [] (q_after q)))
  else
    buckets ← buckets_for_range d (q_partition_key q) (q_range q);
    res ← read_buckets schedule reads buckets;
    match res with
    | Err e => Value (Err e)
    | Ok result =>
      let result := sort_by clustering result in
      let has_more := q_limit q <? Z.of_nat (length result) in
      let result := take (Z.to_nat (q_limit q)) result in
      next ← (if has_more then (λ r, Some (cursor_from r)) <$> expect (last result) else Value None);
      Value (Ok (mkPage result next))
    end.

(** [query]: everything in the range, as one page of unbounded size. *)
Definition query (schedule : nat → nat)
    (reads : BucketId → Outcome (Result DurableTableError (list Record_)))
    (pk : list byte) (range : TimeRange) : Outcome (Result DurableTableError (list Record_)) :=
  query_page schedule reads (mkQuery pk range None usize_max) ≫=
  λ res : Result DurableTableError QueryPage, Value (p_records <$> res).
End table.

(** ** Specification *)
(** A cursor a client may hold: none yet, or one taken from a record it was shown. *)
Definition cursor_of (l : list Record_) (after : option Cursor) : Prop :=
  match after with None => True | Some c => ∃ r, r ∈ l ∧ c = cursor_from r end.

(** The page of a logical table that holds the records [l]. *)
Definition logical_page (range : TimeRange) (after : option Cursor) (limit : Z) (l : list Record_) :
    QueryPage :=
  let all := sort_by clustering (matching range after l) in
  let shown := take (Z.to_nat limit) all in
  mkPage shown (if limit <? Z.of_nat (length all) then cursor_from <$> last shown else None).

(** A client that asks for page after page with the cursor it was given. *)
Fixpoint paginate {E} (fuel : nat) (fetch : option Cursor → Outcome (Result E QueryPage))
    (after : option Cursor) : Outcome (Result E (list Record_)) :=
  match fuel with
  | O => OutOfFuel
  | S fuel =>
    res ← fetch after;
    match res with
    | Err e => Value (Err e)
    | Ok p =>
      match p_next p with
      | None => Value (Ok (p_records p))
      | Some c => paginate fuel fetch (Some c) ≫=
          λ rest : Result E (list Record_), Value (app (p_records p) <$> rest)
      end
    end
  end.

(** ** Lemmas *)
(** Concatenating per-bucket lists in any order, when at most one bucket contributes. *)
Lemma concat_map_none {A B} (g : A → list B) l : (∀ a, a ∈ l → g a = []) → concat (map g l) = [].
Proof. induction l as [|a l IH]; intros Hg; simpl; [done|]. rewrite Hg, IH by set_solver. done. Qed.
Lemma concat_map_one {A B} (g : A → list B) l a0 : NoDup l → a0 ∈ l →
  (∀ a, a ∈ l → a ≠ a0 → g a = []) → concat (map g l) = g a0.
Proof.
  induction 1 as [|a l Ha Hnd IH]; intros Hin Hg; [set_solver|]. simpl.
  apply elem_of_cons in Hin as [->|Hin].
  - rewrite concat_map_none; [by rewrite app_nil_r|]. set_solver.
  - rewrite Hg, IH; [done|done|..]; set_solver.
Qed.
Lemma filter_concat_map {A B} (P : B → Prop) `{∀ x, Decision (P x)} (f : A → list B) l :
  filter P (concat (map f l)) = concat (map (λ a, filter P (f a)) l).
Proof. induction l as [|a l IH]; simpl; [done|]. by rewrite filter_app, IH. Qed.

(** The sorted union does not depend on the order in which the buckets arrive. *)
Lemma sort_concat_perm {A} (f : A → list Record_) l l' : NoDup l → l' ≡ₚ l →
  (∀ a a' r r', a ∈ l → a' ∈ l → r ∈ f a → r' ∈ f a' → clustering r = clustering r' → a = a') →
  sort_by clustering (concat (map f l')) = sort_by clustering (concat (map f l)).
Proof.
  intros Hnd Hp Hdis. apply sort_by_ext. intros k. rewrite !filter_concat_map.
  set (g := λ a, filter (λ x, cmp (clustering x) k = Eq) (f a)).
  assert (NoDup l') as Hnd' by (by rewrite Hp).
  destruct (decide (Exists (λ a, g a ≠ []) l)) as [(a0 & Ha0 & Hg)%Exists_exists|Hno].
  - destruct (g a0) as [|r0 gs] eqn:E0; [done|].
    assert (r0 ∈ g a0) as Hr0 by (rewrite E0; left).
    apply list_elem_of_filter in Hr0 as [Hk0 Hr0].
    assert (∀ a, a ∈ l → a ≠ a0 → g a = []) as Hrest.
    { intros a Ha Hne. destruct (g a) as [|r gs'] eqn:E; [done|].
      assert (r ∈ g a) as Hr by (rewrite E; left). apply list_elem_of_filter in Hr as [Hk Hr].
      apply cmp_eq in Hk, Hk0. exfalso. apply Hne. by eapply Hdis; try done; congruence. }
    rewrite (concat_map_one g l a0), (concat_map_one g l' a0); try done; [by rewrite Hp|].
    intros a. rewrite Hp. apply Hrest.
  - assert (∀ a, a ∈ l → g a = []) as Hall.
    { intros a Ha. destruct (g a) as [|r gs] eqn:E; [done|]. exfalso. apply Hno, Exists_exists.
      exists a. by rewrite E. }
    rewrite !concat_map_none; [done|..]; intros a; [|rewrite Hp]; apply Hall.
Qed.

Lemma take_concat_more {A} (n m : nat) (ls : list (list A)) : (n < m)%nat →
  (n < length (concat (map (take m) ls)))%nat ↔ (n < length (concat ls))%nat.
Proof.
  intros Hm. induction ls as [|l ls IH] in n, Hm |- *; simpl; [done|].
  rewrite !length_app, length_take.
  destruct (decide (length l <= m)%nat) as [Hl|Hl].
  - rewrite Nat.min_r by lia.
    destruct (decide (length l <= n)%nat) as [Hn|Hn]; [|lia].
    specialize (IH (n - length l)%nat ltac:(lia)). lia.
  - rewrite Nat.min_l by lia. lia.
Qed.

(** The join loop returns every bucket's records, in some completion order. *)
Lemma join_loop_ok fuel schedule reads (f : BucketId → list Record_) running rest result :
  (length running + length rest < fuel)%nat →
  (∀ b, b ∈ running ++ rest → reads b = Value (Ok (f b))) →
  (running = [] → rest = []) →
  ∃ order, order ≡ₚ running ++ rest ∧
    join_loop fuel schedule reads running rest result = Value (Ok (result ++ concat (map f order))).
Proof.
  revert running rest result.
  induction fuel as [|fuel IH]; intros running rest result Hf Hr Hne; [lia|]. simpl.
  destruct running as [|b0 running0] eqn:Erun.
  - rewrite Hne by done. exists []. simpl. by rewrite app_nil_r.
  - rewrite <- Erun in *. set (i := (schedule fuel mod length running)%nat).
    assert (i < length running)%nat as Hi by (apply Nat.mod_upper_bound; by rewrite Erun).
    destruct (lookup_lt_is_Some_2 _ _ Hi) as [b Hb]. rewrite Hb.
    rewrite (Hr b) by (apply elem_of_app; left; by eapply list_elem_of_lookup_2).
    pose proof (delete_Permutation _ _ _ Hb) as Hperm.
    assert (length running = S (length (delete i running))) as Hlen by (by rewrite Hperm at 1).
    destruct (IH (delete i running ++ take 1 rest) (drop 1 rest) (result ++ f b)) as (order & Ho & ->).
    + rewrite length_app, length_take, length_drop. lia.
    + intros b' Hb'. apply Hr. rewrite <- app_assoc, take_drop in Hb'. rewrite Hperm. set_solver.
    + intros E. apply app_nil in E as [_ E]. by destruct rest.
    + exists (b :: order). split; [|simpl; by rewrite <- app_assoc].
      rewrite Ho, <- app_assoc, take_drop. rewrite Hperm at 2. done.
Qed.
Lemma read_buckets_ok schedule reads (f : BucketId → list Record_) buckets :
  (∀ b, b ∈ buckets → reads b = Value (Ok (f b))) →
  ∃ order, order ≡ₚ buckets ∧
    read_buckets schedule reads buckets = Value (Ok (concat (map f order))).
Proof.
  intros Hr. destruct buckets as [|first [|second rest]]; unfold read_buckets.
  - by exists [].
  - exists [first]. simpl. rewrite app_nil_r. split; [done|]. apply Hr. set_solver.
  - set (running := first :: second :: take _ rest). set (rest' := drop _ rest).
    assert (running ++ rest' = first :: second :: rest) as Happ
      by (unfold running, rest'; simpl; by rewrite take_drop).
    destruct (join_loop_ok (S (length (first :: second :: rest))) schedule reads f running rest' [])
      as (order & Ho & ->); [| |done|].
    + rewrite <- length_app, Happ. simpl. lia.
    + by rewrite Happ.
    + exists order. by rewrite <- Happ.
Qed.

(** Pages of permuted contents, when clustering keys are unique. *)
Lemma sort_by_perm_unique (l l' : list Record_) : l ≡ₚ l' → NoDup (clustering <$> l) →
  sort_by clustering l = sort_by clustering l'.
Proof.
  intros Hp Hnd. apply sort_by_ext. intros k.
  assert (∀ l0 : list Record_, NoDup (clustering <$> l0) →
    length (filter (λ x, cmp (clustering x) k = Eq) l0) ≤ 1)%nat as Hone.
  { induction l0 as [|x l0 IH]; intros Hnd0; [simpl; lia|]. rewrite fmap_cons, NoDup_cons in Hnd0.
    destruct Hnd0 as [Hx Hnd0]. rewrite filter_cons. case_decide as Hk; [|by apply IH].
    rewrite filter_none; [simpl; lia|]. apply Forall_forall. intros y Hy Hk'.
    apply cmp_eq in Hk, Hk'. apply Hx. rewrite Hk, <- Hk'. by apply list_elem_of_fmap_2. }
  assert (filter (λ x, cmp (clustering x) k = Eq) l ≡ₚ filter (λ x, cmp (clustering x) k = Eq) l') as Hf
    by (by rewrite Hp).
  specialize (Hone l Hnd). destruct (filter _ l) as [|x [|y f]]; simpl in Hone; [| |lia].
  - by apply Permutation_nil_l in Hf.
  - by apply Permutation_singleton_l in Hf.
Qed.
Lemma matching_unique range after l : NoDup (clustering <$> l) →
  NoDup (clustering <$> matching range after l).
Proof.
  intros Hnd. eapply sublist_NoDup; [exact Hnd|]. apply fmap_sublist, sublist_filter.
Qed.
Lemma logical_page_perm range after limit l l' : l ≡ₚ l' → NoDup (clustering <$> l) →
  logical_page range after limit l = logical_page range after limit l'.
Proof.
  intros Hp Hnd. unfold logical_page.
  assert (sort_by clustering (matching range after l) = sort_by clustering (matching range after l')) as ->;
    [|done].
  apply sort_by_perm_unique; [by rewrite Hp|by apply matching_unique].
Qed.

Lemma choose_function {A B} `{EqDecision A} `{Inhabited B} (P : A → B → Prop) (l : list A) :
  (∀ a, a ∈ l → ∃ b, P a b) → ∃ f, ∀ a, a ∈ l → P a (f a).
Proof.
  induction l as [|a l IH]; intros Hl; [exists (λ _, inhabitant); set_solver|].
  destruct (Hl a) as [b Hb]; [left|]. destruct IH as [f Hf]; [intros; apply Hl; by right|].
  exists (λ x, if decide (x = a) then b else f x). intros x Hx.
  case_decide; [by subst|]. apply Hf. set_solver.
Qed.

(** The extra record each bucket may return is what tells whether there is a next page. *)
Lemma more_than_limit (limit : Z) (ls : list (list Record_)) : 0 < limit <= usize_max →
  Z.of_nat (length (concat ls)) <= usize_max →
  (limit <? Z.of_nat (length (concat (map (λ x,
     take (Z.to_nat (page_capacity limit)) (sort_by clustering x)) ls)))) =
  (limit <? Z.of_nat (length (concat ls))).
Proof.
  intros Hl Hlen.
  assert (length (concat (map (λ x, take (Z.to_nat (page_capacity limit)) (sort_by clustering x)) ls)) =
    length (concat (map (take (Z.to_nat (page_capacity limit))) ls))) as ->.
  { clear. induction ls as [|x ls IH]; simpl; [done|].
    by rewrite !length_app, IH, !length_take, (Permutation_length (sort_by_Permutation clustering x)). }
  destruct (decide (limit = usize_max)) as [->|Hne].
  - rewrite (proj2 (Z.ltb_ge _ _) Hlen). apply Z.ltb_ge. etransitivity; [|exact Hlen]. apply inj_le.
    clear. induction ls as [|x ls IH]; simpl; [lia|]. rewrite !length_app, length_take. lia.
  - assert (page_capacity limit = limit + 1) as -> by (unfold page_capacity, saturating_add; lia).
    pose proof (take_concat_more (Z.to_nat limit) (Z.to_nat (limit + 1)) ls ltac:(lia)) as Hiff.
    destruct (limit <? Z.of_nat (length (concat ls))) eqn:E; zbool;
      [apply Z.ltb_lt|apply Z.ltb_ge]; lia.
Qed.

Section query_lemmas.
Context `{ChronoLaws} (d : TableDefinition).

Lemma buckets_nodup pk range bs : in_range (range_start range) → range_start range < range_end range →
  buckets_for_range d pk range = Value bs → NoDup bs ∧ Forall (bucket_of d pk) bs.
Proof.
  intros Hr Hlt E. destruct (buckets_for_range_tiles _ _ _ _ Hr Hlt E) as (b0 & _ & Ht).
  pose proof (tiles_bucket_of _ _ _ _ _ Ht) as Hall. split; [|done].
  pose proof (tiles_sorted _ _ _ _ _ Ht) as Hs. clear Ht E.
  induction Hs as [|b bs Hs IH Hb]; [constructor|]. apply Forall_cons in Hall as [Hb0 Hall].
  constructor; [|by apply IH]. intros Hin. rewrite Forall_forall in Hb. specialize (Hb _ Hin).
  pose proof (bucket_of_day _ _ _ Hb0). unfold NANOS_PER_DAY in *. lia.
Qed.

Lemma in_bucket_unique pk b b' r r' : bucket_of d pk b → bucket_of d pk b' →
  in_bucket b r → in_bucket b' r' → clustering r = clustering r' → b = b'.
Proof.
  intros Hb Hb' [_ Hr] [_ Hr'] [= Et _]. rewrite <- Et in Hr'.
  apply (bucket_of_unique d pk b b' (event_time r)); try done.
  destruct (canonical_bounds b (proj1 Hb)) as (Rs & Re & _).
  apply bucket_contains_spec in Hr. unfold in_range in *. lia.
Qed.

(** The page of a range read bucket by bucket is the page of the whole. *)
Lemma query_page_logical schedule reads q (l : BucketId → list Record_) bs :
  in_range (range_start (q_range q)) → range_start (q_range q) < range_end (q_range q) →
  0 < q_limit q <= usize_max →
  buckets_for_range d (q_partition_key q) (q_range q) = Value bs →
  (∀ b, b ∈ bs → Forall (in_bucket b) (l b) ∧
     reads b = Value (Ok (page (q_range q) (q_after q) (page_capacity (q_limit q)) (l b)))) →
  Z.of_nat (length (concat (map l bs))) <= usize_max →
  query_page d schedule reads q =
    Value (Ok (logical_page (q_range q) (q_after q) (q_limit q) (concat (map l bs)))).
Proof.
  destruct q as [pk range after limit]. simpl. intros Hr Hlt Hlim Hbs Hreads Hlen. unfold query_page. simpl.
  rewrite (proj2 (Z.leb_gt _ _) Hlt), (proj2 (Z.eqb_neq limit 0)) by lia. rewrite Hbs. simpl.
  destruct (buckets_nodup _ _ _ Hr Hlt Hbs) as [Hnd Hof]. rewrite Forall_forall in Hof.
  set (f b := page range after (page_capacity limit) (l b)).
  destruct (read_buckets_ok schedule reads f bs) as (order & Ho & ->); [intros; by apply Hreads|]. simpl.
  assert (sort_by clustering (concat (map f order)) = sort_by clustering (concat (map f bs))) as ->.
  { apply sort_concat_perm; [done..|]. intros b b' r r' Hb Hb' Hrb Hrb' E.
    assert (∀ b r, b ∈ bs → r ∈ f b → in_bucket b r) as Hin.
    { intros b1 r1 Hb1 Hr1. destruct (Hreads b1 Hb1) as [Hf _]. rewrite Forall_forall in Hf. apply Hf.
      unfold f, page in Hr1. apply elem_of_take in Hr1 as (i & Hi%list_elem_of_lookup_2 & _).
      rewrite sort_by_Permutation in Hi. by apply elem_of_matching in Hi as [_ ?]. }
    by apply (in_bucket_unique pk b b' r r'); auto. }
  assert (∀ ls : list BucketId, map f ls = map (λ x, take (Z.to_nat (page_capacity limit)) (sort_by clustering x))
    (map (λ b, matching range after (l b)) ls)) as Hmap by (intros; rewrite map_map; done).
  assert (concat (map (λ b, matching range after (l b)) bs) = matching range after (concat (map l bs))) as Hcat.
  { unfold matching. by rewrite filter_concat_map. }
  assert (Z.to_nat limit <= Z.to_nat (page_capacity limit))%nat as Hcap
    by (unfold page_capacity, saturating_add; lia).
  assert (take (Z.to_nat limit) (sort_by clustering (concat (map f bs))) =
    take (Z.to_nat limit) (sort_by clustering (matching range after (concat (map l bs))))) as ->.
  { by rewrite Hmap, take_sort_concat, Hcat. }
  assert ((limit <? Z.of_nat (length (sort_by clustering (concat (map f bs))))) =
    (limit <? Z.of_nat (length (sort_by clustering (matching range after (concat (map l bs))))))) as ->.
  { rewrite !(Permutation_length (sort_by_Permutation clustering _)), <- Hcat.
    rewrite Hmap. apply more_than_limit; [lia|]. rewrite Hcat.
    eapply Z.le_trans; [|exact Hlen]. unfold matching. apply inj_le, length_filter. }
  unfold logical_page. destruct (limit <? _) eqn:Emore; [|done]. apply Z.ltb_lt in Emore.
  destruct (last (take _ _)) eqn:El; [done|]. exfalso. apply last_None in El.
  apply (f_equal length) in El. rewrite length_take in El. simpl in El. lia.
Qed.
End query_lemmas.

(** ** Reading through the ports *)
Lemma matching_filters range after l :
  filter (λ r, Is_true (after_cursor after r)) (filter (λ r, Is_true (range_contains range (event_time r))) l)
  = matching range after l.
Proof.
  unfold matching, in_page. induction l as [|r l IH]; [done|].
  rewrite !filter_cons. destruct (range_contains range (event_time r)); simpl; [|done].
  rewrite filter_cons. by destruct (after_cursor after r); simpl; rewrite IH.
Qed.

Section ports.
Context `{ChronoLaws} {E S F T : Type} `{DurableBucketStore E S} `{!StoreLaws E S}.
Context `{ArchiveStore F T} `{!ArchiveLaws F T}.

(** The records bucket [b] logically holds in a state of the two tiers. *)
Definition logical (st : S * T) (b : BucketId) : option (list Record_) :=
  content (view st.1 b) (object st.2 b).

(** Whichever tier the store routes to, a successful read is a page of the content. *)
Lemma read_bucket_page inputs n st b range after limit rs st' l :
  store_inv st.1 → archive_inv st.2 → canonical b → precise_for fidelity range after limit (length l) →
  logical st b = Some l → run (read_bucket b range after limit) inputs n st = (Ok rs, st') →
  ∃ l', l' ≡ₚ l ∧ rs = page range after limit l'.
Proof.
  intros Hs Ht Hb Hpre Hl. pose proof Hpre as (Hpr & Hpa & _). unfold read_bucket. simpl.
  pose proof (store_exec_entry _ (ReadRange b range after limit) (in_store (inputs n)) st.1 b
    (conj Hb I) Hs eq_refl)
    as Hread.
  destruct (store_exec _ _ st.1) as [[read|err] s']; simpl in *; [|done].
  destruct Hread as [_ Hread]. unfold routed in Hread. rewrite Hpr, Hpa in Hread.
  unfold logical, content in Hl.
  destruct (a_state (view st.1 b)) as [| |key del].
  1,2: destruct Hread as (l' & Hl' & ->); simplify_eq; simpl; intros [= <- _];
    exists l'; split; [done|]; apply precise_for_page; by rewrite Hl'.
  subst read. simpl.
  pose proof (get_bucket_spec (in_archive (inputs (Datatypes.S (Datatypes.S n)))) st.2 b key Ht Hb) as Hget.
  destruct (archive_exec _ _ st.2) as [[objs|err] t']; simpl in *; [|done].
  intros [= <- _]. destruct Hget as (_ & _ & Hobj). rewrite (Hobj objs eq_refl) in Hl. simplify_eq.
  exists l. split; [done|]. by rewrite matching_filters.
Qed.

(** The result of the task spawned for bucket [b] of a query. *)
Definition task (st : S * T) (inputs : BucketId → nat → input) (q : Query) (b : BucketId) :
    Outcome (Result DurableTableError (list Record_)) :=
  Value (run (read_bucket b (q_range q) (q_after q) (page_capacity (q_limit q))) (inputs b) 0 st).1.

Lemma elem_of_concat_map {A B} (l : A → list B) bs x : x ∈ concat (map l bs) → ∃ b, b ∈ bs ∧ x ∈ l b.
Proof.
  induction bs as [|b bs IH]; simpl; [by intros ?%not_elem_of_nil|].
  intros [?|(b' & ? & ?)%IH]%elem_of_app; [exists b|exists b']; split; try done; set_solver.
Qed.
Lemma length_concat_elem {A} (l : BucketId → list A) bs b : b ∈ bs → (length (l b) <= length (concat (map l bs)))%nat.
Proof.
  induction bs as [|b' bs IH]; simpl; [by intros ?%not_elem_of_nil|].
  rewrite length_app. intros [->|Hin%IH]%elem_of_cons; lia.
Qed.
Lemma query_page_of_content d schedule (st : S * T) inputs q bs (l : BucketId → list Record_) :
  in_range (range_start (q_range q)) → range_start (q_range q) < range_end (q_range q) →
  0 < q_limit q <= usize_max →
  buckets_for_range d (q_partition_key q) (q_range q) = Value bs →
  store_inv st.1 → archive_inv st.2 →
  precise_for fidelity (q_range q) (q_after q) (page_capacity (q_limit q)) (length (concat (map l bs))) →
  (∀ b, b ∈ bs → logical st b = Some (l b) ∧ Forall (in_bucket b) (l b) ∧
     ∃ rs, task st inputs q b = Value (Ok rs)) →
  Z.of_nat (length (concat (map l bs))) <= usize_max →
  ∃ l', l' ≡ₚ concat (map l bs) ∧
    query_page d schedule (task st inputs q) q =
    Value (Ok (logical_page (q_range q) (q_after q) (q_limit q) l')).
Proof.
  intros Hr Hlt Hlim Hbs Hs Ht Hpre Hb Hlen.
  destruct (buckets_nodup d _ _ _ Hr Hlt Hbs) as [_ Hof]. rewrite Forall_forall in Hof.
  destruct (choose_function (λ b l', l' ≡ₚ l b ∧ task st inputs q b =
    Value (Ok (page (q_range q) (q_after q) (page_capacity (q_limit q)) l'))) bs) as [f Hf].
  { intros b Hin. destruct (Hb b Hin) as (Hl & _ & rs & Hrs). unfold task in *.
    pose proof (surjective_pairing (run (read_bucket b (q_range q) (q_after q)
      (page_capacity (q_limit q))) (inputs b) 0 st)) as Erun.
    set (out := run _ _ _ _) in *. assert (out.1 = Ok rs) as Eout by congruence. rewrite Eout in Erun |- *.
    eapply read_bucket_page in Erun as (l' & Hl' & ->); [eauto|done..|apply (Hof b Hin)| |done].
    eapply precise_for_le; [|exact Hpre]. by apply length_concat_elem. }
  assert (concat (map f bs) ≡ₚ concat (map l bs)) as Hperm.
  { clear - Hf. induction bs as [|b bs IH]; simpl; [done|]. rewrite IH by (intros; apply Hf; by right).
    apply Permutation_app_tail, Hf. left. }
  exists (concat (map f bs)). split; [done|].
  apply query_page_logical with (bs := bs); try done; [|by rewrite Hperm].
  intros b Hin. destruct (Hf b Hin) as [Hp Hrd]. split; [|done]. rewrite Hp. by apply Hb.
Qed.
End ports.

(** ** Cursors *)
Lemma matching_after range after x l : after_cursor after x = true →
  matching range (Some (cursor_from x)) l =
  filter (λ r, Is_true (ltb (clustering x) (clustering r))) (matching range after l).
Proof.
  intros Hx. assert (∀ r, ltb (clustering x) (clustering r) = true → after_cursor after r = true) as Htr.
  { intros r Hr. destruct after as [c|]; [|done]. simpl in *. by eapply ord_lt_trans. }
  unfold matching, in_page. induction l as [|r l IH]; [done|]. rewrite !filter_cons. simpl.
  change (cursor_key (cursor_from x)) with (clustering x).
  destruct (range_contains range (event_time r)); simpl; [|done].
  destruct (ltb (clustering x) (clustering r)) eqn:Elt; simpl.
  - rewrite (Htr r Elt). simpl. rewrite filter_cons, Elt. simpl. by rewrite <- IH.
  - destruct (after_cursor after r); simpl; [|done]. rewrite filter_cons, Elt. simpl. done.
Qed.
Lemma filter_above (l1 l2 : list Record_) x : strictly_sorted_by clustering (l1 ++ x :: l2) →
  filter (λ r, Is_true (ltb (clustering x) (clustering r))) (l1 ++ x :: l2) = l2.
Proof.
  intros Hs. rewrite filter_app, filter_cons.
  rewrite decide_False by (rewrite Is_true_true; apply ord_lt_irrefl).
  assert (filter (λ r, Is_true (ltb (clustering x) (clustering r))) l1 = []) as ->.
  { apply filter_none, Forall_forall. intros y Hy. rewrite Is_true_true. intros Hlt.
    eapply StronglySorted_app_1_elem_of in Hs; [|exact Hy|left].
    apply (ord_lt_irrefl (clustering x)). by eapply ord_lt_trans. }
  apply StronglySorted_app_1_r in Hs. apply StronglySorted_inv in Hs as [_ Hs]. simpl.
  apply filter_all. eapply Forall_impl; [exact Hs|]. intros y. by rewrite Is_true_true.
Qed.

(** Following the cursors of exact pages visits the sorted records from any point on. *)
Lemma paginate_suffix {E} range limit (l : list Record_) (fetch : option Cursor → Outcome (Result E QueryPage)) :
  0 < limit → NoDup (clustering <$> l) →
  (∀ after, cursor_of l after → fetch after = Value (Ok (logical_page range after limit l))) →
  ∀ fuel after, cursor_of l after → (length (matching range after l) < fuel)%nat →
  paginate fuel fetch after = Value (Ok (sort_by clustering (matching range after l))).
Proof.
  intros Hlim Hnd Hfetch. induction fuel as [|fuel IH]; intros after Hcur Hf; [lia|]. simpl.
  rewrite Hfetch by done. simpl.
  set (all := sort_by clustering (matching range after l)).
  assert (length all = length (matching range after l)) as Hlen
    by apply Permutation_length, sort_by_Permutation.
  destruct (limit <? Z.of_nat (length all)) eqn:Em; zbool.
  2: { by rewrite take_ge by lia. }
  destruct (last (take (Z.to_nat limit) all)) as [x|] eqn:El.
  2: { apply last_None, (f_equal length) in El. rewrite length_take in El. simpl in El. lia. }
  simpl. apply last_Some in El as [l1 El].
  assert (all = l1 ++ x :: drop (Z.to_nat limit) all) as Hall.
  { rewrite <- (take_drop (Z.to_nat limit) all) at 1. rewrite El, <- app_assoc. done. }
  assert (strictly_sorted_by clustering all) as Hstrict.
  { apply sorted_by_strict; [apply sort_by_sorted|]. unfold all. rewrite sort_by_Permutation.
    by apply matching_unique. }
  assert (x ∈ all) as Hx by (rewrite Hall; set_solver).
  assert (sort_by clustering (matching range (Some (cursor_from x)) l) = drop (Z.to_nat limit) all) as Hnext.
  { unfold all in Hx. rewrite sort_by_Permutation in Hx. apply elem_of_matching in Hx as [Hx _].
    apply andb_prop in Hx as [_ Hx]. rewrite (matching_after range after x l Hx), <- filter_sort_by. fold all.
    rewrite Hall at 1. apply filter_above. by rewrite <- Hall. }
  rewrite IH.
  - simpl. rewrite Hnext, take_drop. done.
  - exists x. split; [|done]. unfold all in Hx. rewrite sort_by_Permutation in Hx. by apply elem_of_matching in Hx as [_ ?].
  - pose proof (f_equal length Hnext) as Hl. rewrite (Permutation_length (sort_by_Permutation _ _)), length_drop in Hl.
    lia.
Qed.

(** A join loop that succeeds has joined a successful task for every bucket. *)
Lemma join_loop_all fuel schedule reads running rest result rs :
  join_loop fuel schedule reads running rest result = Value (Ok rs) → (running = [] → rest = []) →
  ∀ b, b ∈ running ++ rest → ∃ l, reads b = Value (Ok l).
Proof.
  revert running rest result. induction fuel as [|fuel IH]; intros running rest result E Hne b Hb; [done|].
  simpl in E. destruct (running !! _) as [b0|] eqn:Eb.
  - destruct (reads b0) as [[l|e]| |] eqn:Er; try done.
    pose proof (delete_Permutation _ _ _ Eb) as Hp.
    destruct (decide (b = b0)) as [->|Hbne]; [eauto|]. eapply IH; [exact E| |].
    + intros E'. apply app_nil in E' as [_ E']. by destruct rest.
    + rewrite <- app_assoc, take_drop. rewrite Hp in Hb. set_solver.
  - destruct running as [|b1 running]; [rewrite Hne in Hb by done; set_solver|].
    exfalso. apply lookup_ge_None in Eb.
    pose proof (Nat.mod_upper_bound (schedule fuel) (length (b1 :: running))) as Hm. simpl in *. lia.
Qed.

(** ** Theorems *)
Section table_theorems.
Context `{ChronoLaws}.

(** The router decides whenever the record and the clock are before the last representable year. *)
Lemma table_append_returns d r utc_now :
  in_range (event_time r) → in_range utc_now → 0 < writable_buckets d →
  year (event_time r) < year max_utc →
  year min_utc + writable_buckets d <= year utc_now < year max_utc →
  ∃ p, table_append d r utc_now = Value p.
Proof.
  intros Hr Hn Hw Hy Hyn. destruct (bucket_bounds_total (bucket_strategy d) (event_time r)) as (a & e & Ebb); [done..|].
  assert (∃ b, bucket_for d r = Value b) as [b Eb].
  { eexists. apply for_event_time_inv. eauto. }
  assert (partition_key b = r_partition_key r) as Hpk by (by destruct (for_event_time_fields _ _ _ _ _ Eb) as (_ & ? & _)).
  destruct (writable_returns d (r_partition_key r) utc_now) as [window Ew]; [done..|].
  destruct (writable_spec _ _ _ _ Hn Hw Ew) as (Hlen & _ & (newest & El & _) & _).
  destruct window as [|oldest window]; [done|].
  unfold table_append. rewrite Eb. simpl. rewrite Hpk, Ew. cbn [mbind Outcome_bind head expect].
  rewrite El. simpl. case_match; eauto.
Qed.
(** In a table with yearly buckets, a record of that year has none. *)
Lemma bucket_for_last_year d r : in_range (event_time r) → year (event_time r) = year max_utc →
  bucket_strategy d = CalendarYearUtc → bucket_for d r = Panicked.
Proof.
  intros Hr Hy Hs. unfold bucket_for, bucket_for_event_time, for_event_time_with_strategy.
  by rewrite Hs, bucket_bounds_last_year.
Qed.
(** Deciding takes no fuel. *)
Lemma recent_loop_fuel n d pk b l : recent_loop n d pk b l ≠ OutOfFuel.
Proof.
  revert b l. induction n as [|n IH]; intros b l; cbn [recent_loop]; [done|].
  destruct (checked_sub_signed _ _) as [t|]; cbn [expect mbind Outcome_bind]; [|done].
  destruct (bucket_for_event_time d pk t) as [b'| |] eqn:Eb; [apply IH|done|by apply for_event_time_not_fuel in Eb].
Qed.
Lemma table_append_fuel d r utc_now : table_append d r utc_now ≠ OutOfFuel.
Proof.
  unfold table_append, writable_buckets_at, recent_buckets.
  destruct (bucket_for d r) as [b| |] eqn:Eb; cbn [mbind Outcome_bind]; [|done|by apply for_event_time_not_fuel in Eb].
  destruct (Z.to_nat (writable_buckets d)) as [|n]; [done|].
  destruct (bucket_for_event_time d (partition_key b) utc_now) as [b'| |] eqn:Eb'; cbn [mbind Outcome_bind];
    [|done|by apply for_event_time_not_fuel in Eb'].
  pose proof (recent_loop_fuel n d (partition_key b) b' [b']) as Hf.
  destruct (recent_loop n d (partition_key b) b' [b']) as [l| |]; cbn [mbind Outcome_bind]; [|done|done].
  destruct (head (reverse l)); cbn [expect mbind Outcome_bind]; [|done].
  destruct (last (reverse l)); cbn [expect mbind Outcome_bind]; [|done]. by case_match.
Qed.

(** C30. Appending writes exactly the bucket the record belongs to, and only while that bucket
    is in the write window: the router performs one [Append] to the bucket of the record's
    partition that contains its event time when that bucket is one of the writable ones,
    and otherwise no storage call at all but the error naming the window; it decides for
    every clock reading and record in the representable years. *)
Theorem append_admits_exactly_the_window d r utc_now :
  in_range (event_time r) → in_range utc_now → 0 < writable_buckets d →
  (∀ p, table_append d r utc_now = Value p →
   ∃ b window, bucket_for d r = Value b ∧ in_bucket b r ∧
     writable_buckets_at d (r_partition_key r) utc_now = Value window ∧
     ((b ∈ window ∧ p = Vis (EStore (Append b r)) (λ res, Ret (map_err (append_error b) res))) ∨
      ((b ∉ window) ∧ ∃ oldest newest, head window = Some oldest ∧ last window = Some newest ∧
         p = Ret (Err (OutsideWriteWindow b (key oldest) (key newest)))))) ∧
  (year (event_time r) < year max_utc →
   year min_utc + writable_buckets d <= year utc_now < year max_utc →
   ∃ p, table_append d r utc_now = Value p).
Proof.
  intros Hr Hn Hw. assert (∀ b, bucket_for d r = Value b →
    bucket_of d (r_partition_key r) b ∧ partition_key b = r_partition_key r) as Hof.
  { intros b Eb. split; [exact (bucket_for_event_time_of _ _ _ _ Hr Eb)|].
    by destruct (for_event_time_fields _ _ _ _ _ Eb) as (_ & ? & _). }
  split.
  - intros p E. unfold table_append in E.
    destruct (bucket_for d r) as [b| |] eqn:Eb; simplify_eq/=. destruct (Hof b) as [Hb Hpk]; [done|].
    rewrite Hpk in E.
    destruct (writable_buckets_at d (r_partition_key r) utc_now) as [window| |] eqn:Ew; simplify_eq/=.
    destruct (head window) as [oldest|] eqn:Eo; simplify_eq/=.
    destruct (last window) as [newest|] eqn:El; simplify_eq/=.
    exists b, window. split_and!; [done|split; [done|]|done|]; [apply (bucket_of_contains d (r_partition_key r)); [done..|apply Eb]|].
    pose proof (writable_between _ _ _ _ _ _ b Hn Hw Ew Eo El Hb) as Hiff.
    destruct (_ || _) eqn:Ec; simplify_eq/=.
    + right. split; [|eauto]. rewrite <- Hiff. apply orb_prop in Ec as [?|?]; zbool; lia.
    + left. split; [|done]. apply Hiff. zbool. lia.
  - intros Hy Hyn. by apply table_append_returns.
Qed.

(** A query returns no partial pages: it reports an inverted range, returns the caller's own
    cursor for a zero limit, and otherwise succeeds only if the read of every bucket of the
    range succeeded, whatever the completion order. *)
Theorem no_partial_pages d schedule reads q :
  (range_end (q_range q) <= range_start (q_range q) →
     query_page d schedule reads q = Value (Err InvalidTimeRange)) ∧
  (range_start (q_range q) < range_end (q_range q) → q_limit q = 0 →
     query_page d schedule reads q = Value (Ok (mkPage [] (q_after q)))) ∧
  (∀ p, range_start (q_range q) < range_end (q_range q) → q_limit q ≠ 0 →
     query_page d schedule reads q = Value (Ok p) →
     ∃ bs, buckets_for_range d (q_partition_key q) (q_range q) = Value bs ∧
       (∀ b, b ∈ bs → ∃ rs, reads b = Value (Ok rs)) ∧ (length (p_records p) ≤ Z.to_nat (q_limit q))%nat).
Proof.
  unfold query_page. split_and!.
  - intros Hr. by rewrite (proj2 (Z.leb_le _ _) Hr).
  - intros Hr ->. by rewrite (proj2 (Z.leb_gt _ _) Hr).
  - intros p Hr Hl. rewrite (proj2 (Z.leb_gt _ _) Hr), (proj2 (Z.eqb_neq _ _) Hl).
    destruct (buckets_for_range d (q_partition_key q) (q_range q)) as [bs| |]; [|done..]. simpl.
    destruct (read_buckets schedule reads bs) as [[rs|e]| |] eqn:E; [|done..]. simpl. intros Ep. exists bs.
    split_and!; [done| |].
    + destruct bs as [|b0 [|b1 rest]]; unfold read_buckets in E; [set_solver|intros b ->%list_elem_of_singleton; eauto|].
      intros b Hb. eapply join_loop_all; [exact E|done|]. cbn [app]. by rewrite take_drop.
    + destruct (if (_ <? _) then _ else _); simplify_eq/=. rewrite length_take. lia.
Qed.

Section over_ports.
Context {E S F T : Type} `{DurableBucketStore E S} `{!StoreLaws E S} `{ArchiveStore F T} `{!ArchiveLaws F T}.

(** A query page is the page of the logical table: over any lawful store and archive that do
    not change during the query, if every bucket read succeeds, the page holds the first
    [limit] records, in clustering order and strictly after the cursor, of the union of the
    contents of the buckets of the range, and its cursor is the last record's exactly when
    more records follow; the tier each bucket is served from and the completion order of the
    parallel reads do not matter. *)
Theorem query_page_is_logical_page d schedule (st : S * T) inputs q bs (l : BucketId → list Record_) :
  in_range (range_start (q_range q)) → range_start (q_range q) < range_end (q_range q) →
  0 < q_limit q <= usize_max →
  buckets_for_range d (q_partition_key q) (q_range q) = Value bs →
  store_inv st.1 → archive_inv st.2 →
  precise_for fidelity (q_range q) (q_after q) (page_capacity (q_limit q)) (length (concat (map l bs))) →
  (∀ b, b ∈ bs → logical st b = Some (l b) ∧ Forall (in_bucket b) (l b) ∧
     ∃ rs, task st inputs q b = Value (Ok rs)) →
  Z.of_nat (length (concat (map l bs))) <= usize_max →
  (∃ l', l' ≡ₚ concat (map l bs) ∧
    query_page d schedule (task st inputs q) q =
    Value (Ok (logical_page (q_range q) (q_after q) (q_limit q) l'))) ∧
  (NoDup (clustering <$> concat (map l bs)) →
    query_page d schedule (task st inputs q) q =
    Value (Ok (logical_page (q_range q) (q_after q) (q_limit q) (concat (map l bs))))).
Proof.
  intros. edestruct (query_page_of_content d schedule st inputs q bs l) as (l' & Hp & Eq); try done.
  split; [eauto|]. intros Hnd. rewrite Eq. do 2 f_equal. apply logical_page_perm; [done|]. by rewrite Hp.
Qed.

(** Following cursors enumerates the range exactly: when clustering keys are unique, a client
    that asks for page after page, each with its own schedule and task inputs, gets every
    matching record of the range exactly once, in clustering order, and terminates after at
    most one page more than there are records. *)
Theorem pagination_is_complete d (st : S * T) schedule inputs pk range limit bs (l : BucketId → list Record_) :
  in_range (range_start range) → range_start range < range_end range → 0 < limit <= usize_max →
  buckets_for_range d pk range = Value bs → store_inv st.1 → archive_inv st.2 →
  (∀ after, cursor_of (concat (map l bs)) after → precise_for fidelity range after (page_capacity limit) (length (concat (map l bs)))) →
  (∀ after b, cursor_of (concat (map l bs)) after → b ∈ bs → logical st b = Some (l b) ∧ Forall (in_bucket b) (l b) ∧
     ∃ rs, task st (inputs after) (mkQuery pk range after limit) b = Value (Ok rs)) →
  Z.of_nat (length (concat (map l bs))) <= usize_max → NoDup (clustering <$> concat (map l bs)) →
  paginate (Datatypes.S (length (concat (map l bs))))
    (λ after, let q := mkQuery pk range after limit in
       query_page d (schedule after) (task st (inputs after) q) q) None =
  Value (Ok (sort_by clustering (matching range None (concat (map l bs))))).
Proof.
  intros Hr Hlt Hlim Hbs Hs Ht Hpre Hb Hlen Hnd. apply paginate_suffix with (limit := limit); [lia|done| |done|].
  - intros after Hcur. edestruct (query_page_of_content d (schedule after) st (inputs after)
      (mkQuery pk range after limit) bs l) as (l' & Hp & Eq); simpl; try done; [by apply Hpre|intros; by apply Hb|].
    simpl in Eq. rewrite Eq. do 2 f_equal. apply logical_page_perm; [done|]. by rewrite Hp.
  - apply Nat.lt_succ_r, length_filter.
Qed.
End over_ports.
End table_theorems.
