(* ===== verification/Spans.v ===== *)
(** What the storage layers show in their spans (the [tracing::instrument] attributes and the
    [info_span!]s of src/adapters/cockroach_durable.rs, src/adapters/opendal_store.rs,
    src/application/durable_table.rs, durable_archive.rs, durable_archive_recovery.rs and
    src/integrations/datafusion.rs).

    An instrumented function records every argument that its attribute does not skip, besides the
    fields the attribute lists; a field declared empty is not there until it is filled. The file
    gives each span the values it is opened with and proves which of them can hold data of the
    application: partition keys, sort keys, values, object keys and cursors. *)
From S2P Require Import Prelude Chrono Model Schema Storage ArchiveFormat Observability PoolConfig Prog Table.
Local Open Scope Z_scope.

(** ** Spans *)
(** What a field holds: fixed or configured text, numbers, or an argument in its [Debug] form. *)
Inductive span_value :=
  | VText (s : string)
  | VNumber (n : Z)
  | VGeneration (g : option Z)
  | VSelf
  | VClient
  | VBucket (b : BucketId)
  | VRecord (r : Record_)
  | VRecords (rs : list Record_)
  | VSession (s : ArchiveSession)
  | VScan (scan : ArchiveScan)
  | VRange (range : TimeRange)
  | VCursor (after : option Cursor)
  | VObjectKey (key : string)
  | VQuery (partition : list byte) (range : TimeRange) (after : option Cursor) (limit : Z).
Record Span := mkSpan { span_name : string; span_fields : list (string * span_value) }.

(** [#[tracing::instrument(name, skip(..), fields(..))]] on a function with these arguments. *)
Definition instrument (name : string) (args : list (string * span_value)) (skip : list string)
    (fields : list (string * span_value)) : Span :=
  mkSpan name (fields ++ filter (λ p, p.1 ∉ skip) args).

(** Data of the application, or of the process itself. *)
Definition private (v : span_value) : bool :=
  match v with VText _ | VNumber _ | VGeneration _ | VScan _ => false | _ => true end.
Definition public_span (s : Span) : Prop := Forall (λ p, private p.2 = false) (span_fields s).

Definition METADATA : string := "pulpitum_v4_bucket_metadata".
Definition db_fields (operation summary : string) : list (string * span_value) :=
  [("otel.kind", VText "client"); ("db.system.name", VText "cockroachdb"); ("db.namespace", VText "defaultdb");
   ("db.operation.name", VText operation); ("db.query.summary", VText summary)].
Definition db_fields_of (collection operation summary : string) : list (string * span_value) :=
  ("db.collection.name", VText collection) :: db_fields operation summary.

(** ** The durable store *)
Definition append_span (b : BucketId) (r : Record_) : Span :=
  instrument "APPEND durable bucket" [("self", VSelf); ("bucket", VBucket b); ("record", VRecord r)]
    ["self"; "bucket"; "record"] (db_fields "APPEND" "APPEND durable bucket").
Definition state_span (b : BucketId) : Span :=
  instrument "SELECT pulpitum_v4_bucket_metadata" [("self", VSelf); ("bucket", VBucket b)]
    ["self"; "bucket"] (db_fields_of METADATA "SELECT" "SELECT pulpitum_v4_bucket_metadata").
Definition discover_span (scan : ArchiveScan) : Span :=
  instrument "SELECT pulpitum_v4_bucket_metadata" [("self", VSelf); ("scan", VScan scan)]
    ["self"; "scan"] (db_fields_of METADATA "SELECT" "SELECT pulpitum_v4_bucket_metadata").
Definition claim_archive_span (b : BucketId) (lease_for : Z) : Span :=
  instrument "UPDATE pulpitum_v4_bucket_metadata" [("self", VSelf); ("bucket", VBucket b); ("lease_for", VNumber lease_for)]
    ["self"; "bucket"; "lease_for"] (db_fields_of METADATA "UPDATE" "UPDATE pulpitum_v4_bucket_metadata").
Definition claim_cleanup_span (b : BucketId) (lease_for : Z) : Span :=
  instrument "UPDATE pulpitum_v4_bucket_metadata" [("self", VSelf); ("bucket", VBucket b); ("lease_for", VNumber lease_for)]
    ["self"; "bucket"; "lease_for"] (db_fields_of METADATA "UPDATE" "UPDATE pulpitum_v4_bucket_metadata").
Definition renew_span (s : ArchiveSession) (lease_for : Z) : Span :=
  instrument "UPDATE pulpitum_v4_bucket_metadata" [("self", VSelf); ("session", VSession s); ("lease_for", VNumber lease_for)]
    ["self"; "session"; "lease_for"] (db_fields_of METADATA "UPDATE" "UPDATE pulpitum_v4_bucket_metadata").
Definition defer_archive_span (s : ArchiveSession) (retry_after : Z) : Span :=
  instrument "UPDATE pulpitum_v4_bucket_metadata" [("self", VSelf); ("session", VSession s); ("retry_after", VNumber retry_after)]
    ["self"; "session"; "retry_after"] (db_fields_of METADATA "UPDATE" "UPDATE pulpitum_v4_bucket_metadata").
Definition defer_cleanup_span (s : ArchiveSession) (retry_after : Z) : Span :=
  instrument "UPDATE pulpitum_v4_bucket_metadata" [("self", VSelf); ("session", VSession s); ("retry_after", VNumber retry_after)]
    ["self"; "session"; "retry_after"] (db_fields_of METADATA "UPDATE" "UPDATE pulpitum_v4_bucket_metadata").
(** The limit is recorded twice, as a field of the attribute and as an argument that is not skipped. *)
Definition read_range_span (b : BucketId) (range : TimeRange) (after : option Cursor) (limit : Z) : Span :=
  instrument "READ durable bucket range"
    [("self", VSelf); ("bucket", VBucket b); ("range", VRange range); ("after", VCursor after); ("limit", VNumber limit)]
    ["self"; "bucket"; "range"; "after"]
    (db_fields "READ" "READ durable bucket range" ++ [("pulpitum.query.limit", VNumber limit)]).
Definition begin_archive_span (b : BucketId) : Span :=
  instrument "BEGIN durable archive" [("self", VSelf); ("bucket", VBucket b)]
    ["self"; "bucket"] (db_fields_of METADATA "BEGIN ARCHIVE" "BEGIN durable archive").
Definition snapshot_span (s : ArchiveSession) : Span :=
  instrument "SNAPSHOT durable bucket" [("self", VSelf); ("session", VSession s)]
    ["self"; "session"] (db_fields "SNAPSHOT" "SNAPSHOT durable bucket").
Definition publish_span (s : ArchiveSession) (object_key : string) : Span :=
  instrument "UPDATE pulpitum_v4_bucket_metadata" [("self", VSelf); ("session", VSession s); ("object_key", VObjectKey object_key)]
    ["self"; "session"; "object_key"] (db_fields_of METADATA "UPDATE" "UPDATE pulpitum_v4_bucket_metadata").
Definition delete_span (s : ArchiveSession) : Span :=
  instrument "DELETE pulpitum_v4_records" [("self", VSelf); ("session", VSession s)]
    ["self"; "session"] (db_fields_of "pulpitum_v4_records" "DELETE" "DELETE pulpitum_v4_records").
Definition abort_span (s : ArchiveSession) : Span :=
  instrument "UPDATE pulpitum_v4_bucket_metadata" [("self", VSelf); ("session", VSession s)]
    ["self"; "session"] (db_fields_of METADATA "UPDATE" "UPDATE pulpitum_v4_bucket_metadata").
Definition store_span {X} (c : store_call X) : Span :=
  match c with
  | Append b r => append_span b r
  | State b => state_span b
  | DiscoverArchiveWork scan => discover_span scan
  | ClaimArchive b lease_for => claim_archive_span b lease_for
  | ClaimCleanup b lease_for => claim_cleanup_span b lease_for
  | RenewArchiveLease s lease_for => renew_span s lease_for
  | DeferArchive s retry_after => defer_archive_span s retry_after
  | DeferCleanup s retry_after => defer_cleanup_span s retry_after
  | ReadRange b range after limit => read_range_span b range after limit
  | BeginArchive b => begin_archive_span b
  | Snapshot s => snapshot_span s
  | PublishArchive s object_key => publish_span s object_key
  | DeleteHotBucket s => delete_span s
  | AbortArchive s => abort_span s
  end.
(** [state_from_metadata], and the two ends of a transaction. *)
Definition metadata_span (b : BucketId) : Span :=
  instrument "SELECT pulpitum_v4_bucket_metadata" [("client", VClient); ("bucket", VBucket b)] ["client"; "bucket"]
    (db_fields_of METADATA "SELECT" "SELECT pulpitum_v4_bucket_metadata" ++ [("db.query.text", VText
      "SELECT state, archive_owner_token, archive_owner_expires_at, archive_object_key, hot_deleted FROM pulpitum_v4_bucket_metadata WHERE table_id = $1 AND partition_key = $2 AND bucket_key = $3")]).
Definition begin_span : Span :=
  mkSpan "BEGIN" (db_fields "BEGIN" "BEGIN" ++ [("db.query.text", VText "BEGIN ISOLATION LEVEL SERIALIZABLE")]).
Definition commit_span : Span := mkSpan "COMMIT" (db_fields "COMMIT" "COMMIT" ++ [("db.query.text", VText "COMMIT")]).

(** Opening a connection, and the endpoint that is filled in where it is known. *)
Definition connect_span : Span :=
  instrument "CONNECT defaultdb" [("self", VSelf)] ["self"]
    [("otel.kind", VText "client"); ("db.system.name", VText "cockroachdb"); ("db.namespace", VText "defaultdb");
     ("db.operation.name", VText "CONNECT")].
Definition record_database_endpoint (target : option DatabaseTarget) (s : Span) : Span :=
  match target with
  | None => s
  | Some target => mkSpan (span_name s)
      (span_fields s ++ [("server.address", VText (address target)); ("server.port", VNumber (port target))])
  end.

(** ** The archive *)
Section archive.
Context {Operator : Type} (self : OpenDalArchiveStore Operator).
Definition s3_fields : list (string * span_value) :=
  [("otel.kind", VText "client"); ("rpc.system.name", VText "aws-api"); ("cloud.region", VText "us-east-1");
   ("aws.s3.bucket", VText (s_bucket self))].
Definition write_span (b : BucketId) (generation : option Z) (rs : list Record_) : Span :=
  instrument "pulpitum.archive.write"
    [("self", VSelf); ("bucket", VBucket b); ("generation", VGeneration generation); ("records", VRecords rs)]
    ["self"; "bucket"; "records"]
    (s3_fields ++ [("pulpitum.archive.records", VNumber (Z.of_nat (length rs)));
                   ("pulpitum.archive.format", VText (format_to_string (s_format self)))]).
(** The bucket is not among the arguments that are skipped. *)
Definition read_span (b : BucketId) (object_key : string) : Span :=
  instrument "pulpitum.archive.read" [("self", VSelf); ("bucket", VBucket b); ("object_key", VObjectKey object_key)]
    ["self"; "object_key"] s3_fields.
Definition archive_span {X} (c : archive_call X) : Span :=
  match c with
  | PutBucket b rs => write_span b None rs
  | PutBucketGeneration b generation rs => write_span b (Some generation) rs
  | GetBucket b object_key => read_span b object_key
  end.
End archive.

(** ** The table and the coordinators *)
Definition table_append_span (d : TableDefinition) (r : Record_) : Span :=
  instrument "pulpitum.durable_table.append" [("self", VSelf); ("record", VRecord r)] ["self"; "record"]
    [("pulpitum.table", VText (name d)); ("pulpitum.operation", VText "append")].
Definition table_query_span (d : TableDefinition) (partition : list byte) (range : TimeRange) (after : option Cursor)
    (limit : Z) : Span :=
  instrument "pulpitum.durable_table.query" [("self", VSelf); ("query", VQuery partition range after limit)]
    ["self"; "query"] [("pulpitum.table", VText (name d)); ("pulpitum.operation", VText "query")].
Definition bucket_read_span (b : BucketId) (limit : Z) : Span :=
  mkSpan "pulpitum.durable_table.bucket_read"
    [("pulpitum.bucket_key", VText (key b)); ("pulpitum.bucket_strategy", VText (strategy_as_str (strategy b)));
     ("pulpitum.query.limit", VNumber limit)].
Definition cutover_span (b : BucketId) : Span :=
  instrument "pulpitum.durable_archive.cutover" [("self", VSelf); ("bucket", VBucket b)] ["self"; "bucket"]
    [("pulpitum.archive.operation", VText "cutover")].
Definition cycle_span : Span :=
  instrument "pulpitum.archive.coordinator.cycle" [("self", VSelf)] ["self"]
    [("pulpitum.archive.operation", VText "recovery_cycle")].
Definition ROUTED_SQL_TEMPLATE : string :=
  "SELECT channel_id, timestamp, id, value FROM messages WHERE channel_id = $1 AND timestamp >= $2 AND timestamp < $3 ORDER BY timestamp ASC, id ASC LIMIT $4".
Definition routed_span : Span :=
  mkSpan "SELECT messages"
    [("otel.kind", VText "internal"); ("db.system.name", VText "datafusion"); ("db.collection.name", VText "messages");
     ("db.operation.name", VText "SELECT"); ("db.query.summary", VText "SELECT messages");
     ("db.query.text", VText ROUTED_SQL_TEMPLATE); ("pulpitum.sql.mode", VText "routed")].

(** ** Debug and Display *)
(** [Debug] of a session leaves its token out. *)
Definition session_debug (s : ArchiveSession) : list (string * span_value) :=
  [("bucket", VBucket (session_bucket s)); ("generation", VNumber (session_generation s))].
(** The values that [Display] puts into the text of an error, which [err] records when it is returned. *)
Definition state_values (s : BucketState) : list span_value :=
  match s with Archived object_key _ => [VObjectKey object_key] | _ => [] end.
Definition durable_error_values (e : DurableBucketStoreError) : list span_value :=
  match e with BucketReadOnly s | ArchiveNotAllowed s => state_values s | _ => [] end.
Definition store_error_values (e : StoreError) : list span_value :=
  match e with MissingBucket b => [VBucket b] | Other message => [VText message] end.
Definition table_error_values (e : DurableTableError) : list span_value :=
  match e with
  | TableBucketReadOnly b s => VBucket b :: state_values s
  | OutsideWriteWindow b oldest newest => [VText oldest; VText newest; VBucket b]
  | InvalidTimeRange | TableDefinitionError _ => []
  | TableDurableStore e => durable_error_values e
  | TableStore e => store_error_values e
  end.

(** ** Theorems *)
Lemma instrument_public name args skip fields : Forall (λ p, private p.2 = false) fields →
  Forall (λ p, p.1 ∈ skip ∨ private p.2 = false) args → public_span (instrument name args skip fields).
Proof.
  intros Hf Ha. apply Forall_app. split; [done|]. apply Forall_forall. intros p [Hp Hin]%list_elem_of_filter.
  rewrite Forall_forall in Ha. destruct (Ha p Hin); [done|done].
Qed.
Create HintDb spans.
Ltac fields := repeat constructor.
Ltac skipped := repeat (apply Forall_cons; split; [first [by right|left; apply (bool_decide_unpack _); by vm_compute]|]); constructor.
#[export] Hint Extern 1 (public_span _) => (apply instrument_public; [fields|skipped]) || fields : spans.

(** Spans carry no data of the application: whatever the call, every span of the durable store, of an
    archive write, of the table, of the coordinators and of a routed query holds only fixed text, the
    configured names, counts, generations and the scan's own bounds. *)
Theorem spans_carry_no_private_values {Operator} (self : OpenDalArchiveStore Operator) d :
  (∀ X (c : store_call X), public_span (store_span c)) ∧ (∀ b, public_span (metadata_span b)) ∧
  (∀ b generation rs, public_span (write_span self b generation rs)) ∧
  (∀ r, public_span (table_append_span d r)) ∧
  (∀ partition range after limit, public_span (table_query_span d partition range after limit)) ∧
  (∀ b limit, public_span (bucket_read_span b limit)) ∧ (∀ b, public_span (cutover_span b)) ∧
  Forall public_span [begin_span; commit_span; cycle_span; routed_span; connect_span] ∧
  (∀ target s, public_span s → public_span (record_database_endpoint target s)).
Proof.
  split_and!; [intros X []; simpl|intros..| |intros [target|] s Hs; [apply Forall_app; split; [done|]|done]]; auto with spans.
  repeat (apply Forall_cons; split; [auto with spans|]). constructor.
Qed.
(** One span does: an archive read is recorded with the bucket it is for, and so with its partition
    key; reads of different buckets leave different spans although their other fields agree. *)
Theorem archive_read_span_reveals_bucket {Operator} (self : OpenDalArchiveStore Operator) b b' object_key :
  ("bucket", VBucket b) ∈ span_fields (archive_span self (GetBucket b object_key)) ∧
  (archive_span self (GetBucket b object_key) = archive_span self (GetBucket b' object_key) ↔ b = b').
Proof. split; [vm_compute; set_solver|]. split; [|by intros ->]. by intros [= ->]. Qed.
(** What a write that is refused leaves behind: the error of an append names its bucket, and of an
    archived bucket the object key too. A session that is printed never shows its token. *)
Theorem refused_appends_name_their_bucket b oldest newest object_key deleted token token' g :
  VBucket b ∈ table_error_values (OutsideWriteWindow b oldest newest) ∧
  table_error_values (append_error b (BucketReadOnly (Archived object_key deleted))) = [VBucket b; VObjectKey object_key] ∧
  session_debug (mkSession b token g) = session_debug (mkSession b token' g).
Proof. split_and!; [set_solver|done|done]. Qed.
