(* ===== verification/DataFusion.v ===== *)
(** * The DataFusion table provider ([src/src/integrations/datafusion.rs])

    [PulpitumTableProvider] exposes one durable table to SQL. Planning takes the filters apart
    ([validate_predicate_shape], [collect_predicate]) into one partition and one half-open
    time range, and reports them as applied exactly; execution reads one routed page and
    turns it into Arrow batches. DataFusion's expressions are the data type [Expr]; the value
    of an expression on a row, which the engine would compute had the filter not been
    pushed down, is the class [SqlEngine] with its laws; Arrow's batch operations are the
    class [Arrow]. The theorems show which filters are accepted, that an accepted filter
    means on every record what the routed query means, and that a scan returns the rows that
    pass the filters. *)
From S2P Require Import Prelude Chrono Model Schema Storage Text Prog Table.
Local Open Scope Z_scope.

(** ** Arrow and DataFusion data *)
Inductive TimeUnit := Second | Millisecond | Microsecond | Nanosecond.
(** [OtherType] is any other variant of [DataType]. *)
Inductive DataType :=
  | TypeUtf8
  | TypeLargeUtf8
  | TypeBinary
  | TypeLargeBinary
  | TypeTimestamp (unit : TimeUnit) (tz : option string)
  | TypeBoolean
  | TypeInt8 | TypeInt16 | TypeInt32 | TypeInt64
  | TypeUInt8 | TypeUInt16 | TypeUInt32 | TypeUInt64
  | TypeFloat16 | TypeFloat32 | TypeFloat64
  | OtherType (tag : string).
Record Field := mkField { field_name : string; data_type : DataType; nullable : bool }.

Inductive ArrayRef :=
  | StringArray (cells : list string)
  | TimestampNanosecondArray (tz : option string) (cells : list Z)
  | BinaryArray (cells : list (list byte)).
Record RecordBatch := mkBatch { batch_schema : list Field; columns : list ArrayRef; num_rows : nat }.

Inductive ScalarValue :=
  | Utf8 (value : option string)
  | Utf8View (value : option string)
  | LargeUtf8 (value : option string)
  | TimestampSecond (value : option Z) (tz : option string)
  | TimestampMillisecond (value : option Z) (tz : option string)
  | TimestampMicrosecond (value : option Z) (tz : option string)
  | TimestampNanosecond (value : option Z) (tz : option string)
  | Int64 (value : option Z)
  | OtherScalar (tag : string).
Inductive Operator := And | Eq_ | GtEq | Lt_ | OtherOperator (tag : string).
Inductive Expr :=
  | Column (relation : option string) (name : string)
  | Literal (value : ScalarValue)
  | Cast (expr : Expr) (data_type : DataType)
  | TryCast (expr : Expr) (data_type : DataType)
  | BinaryExpr (left : Expr) (op : Operator) (right : Expr)
  | OtherExpr (tag : string).

#[export] Instance TimeUnit_eq_dec : EqDecision TimeUnit.
Proof. solve_decision. Defined.
#[export] Instance DataType_eq_dec : EqDecision DataType.
Proof. solve_decision. Defined.
#[export] Instance Field_eq_dec : EqDecision Field.
Proof. solve_decision. Defined.
#[export] Instance ScalarValue_eq_dec : EqDecision ScalarValue.
Proof. solve_decision. Defined.
#[export] Instance Operator_eq_dec : EqDecision Operator.
Proof. solve_decision. Defined.
#[export] Instance Expr_eq_dec : EqDecision Expr.
Proof. solve_decision. Defined.

Inductive PulpitumTableProviderError :=
  | MissingShardEquality
  | MissingTimestampStart
  | MissingTimestampEnd
  | InvalidTimestampRange
  | UnsupportedPredicate
  | ConflictingShardEquality
  | ConflictingTimestampBounds.
#[export] Instance PulpitumTableProviderError_eq_dec : EqDecision PulpitumTableProviderError.
Proof. solve_decision. Defined.
Definition provider_error_text (e : PulpitumTableProviderError) : string :=
  match e with
  | MissingShardEquality => "DataFusion scan requires equality on the configured shard key"
  | MissingTimestampStart => "DataFusion scan requires an inclusive timestamp lower bound"
  | MissingTimestampEnd => "DataFusion scan requires an exclusive timestamp upper bound"
  | InvalidTimestampRange => "DataFusion scan timestamp range must have start before end"
  | UnsupportedPredicate => "DataFusion scan contains an unsupported predicate"
  | ConflictingShardEquality => "DataFusion scan has conflicting shard equality predicates"
  | ConflictingTimestampBounds => "DataFusion scan contains conflicting timestamp bounds"
  end.

Inductive DataFusionError :=
  | Plan (message : string)
  | Internal (message : string)
  | Execution (message : string).
Inductive TableProviderFilterPushDown := Unsupported | Inexact | Exact.

Definition planning_error (e : PulpitumTableProviderError) : DataFusionError := Plan (provider_error_text e).

(** ** Reading expressions *)
Definition column_name (e : Expr) : option string :=
  match e with Column _ name => Some name | _ => None end.
Fixpoint literal (e : Expr) : option ScalarValue :=
  match e with
  | Literal value => Some value
  | Cast e _ => literal e
  | TryCast e _ => literal e
  | _ => None
  end.
Definition string_literal (v : option ScalarValue) : option string :=
  match v with
  | Some (Utf8 (Some s)) | Some (Utf8View (Some s)) | Some (LargeUtf8 (Some s)) => Some s
  | _ => None
  end.

Definition i64_checked_mul (x y : Z) : option Z :=
  if (i64_min <=? x * y) && (x * y <=? i64_max) then Some (x * y) else None.
Definition timestamp_literal (v : option ScalarValue) : option Z :=
  from_timestamp_nanos <$>
  match v with
  | Some (TimestampNanosecond (Some value) _) => Some value
  | Some (TimestampMicrosecond (Some value) _) => i64_checked_mul value 1000
  | Some (TimestampMillisecond (Some value) _) => i64_checked_mul value 1000000
  | Some (TimestampSecond (Some value) _) => i64_checked_mul value 1000000000
  | _ => None
  end.

(** ** Predicates *)
Record RoutedQuery := mkRouted {
  rq_partition_key : option (list byte);
  rq_start : option Z;
  rq_end : option Z
}.
Definition RoutedQuery_default : RoutedQuery := mkRouted None None None.
Definition finish (q : RoutedQuery) : Result PulpitumTableProviderError RoutedQuery :=
  start ← ok_or (rq_start q) MissingTimestampStart;
  end_ ← ok_or (rq_end q) MissingTimestampEnd;
  if end_ <=? start then Err InvalidTimestampRange
  else match rq_partition_key q with None => Err MissingShardEquality | Some _ => Ok q end.

Definition names (e : Expr) (column : string) : bool := bool_decide (column_name e = Some column).
Definition is_some {A} (o : option A) : bool := match o with Some _ => true | None => false end.

Definition supported (left right : Expr) (op : Operator) (partition_column : string) : bool :=
  match op with
  | Eq_ =>
      names left partition_column && is_some (string_literal (literal right))
      || names right partition_column && is_some (string_literal (literal left))
  | GtEq | Lt_ =>
      names left "timestamp" && is_some (timestamp_literal (literal right))
      || names right "timestamp" && is_some (timestamp_literal (literal left))
  | _ => false
  end.
Fixpoint validate_predicate_shape (e : Expr) (partition_column : string) :
    Result PulpitumTableProviderError unit :=
  match e with
  | BinaryExpr lhs And rhs =>
      _ ← validate_predicate_shape lhs partition_column;
      validate_predicate_shape rhs partition_column
  | BinaryExpr lhs op rhs =>
      if supported lhs rhs op partition_column then Ok tt else Err UnsupportedPredicate
  | _ => Err UnsupportedPredicate
  end.

(** The bound of a comparison, and whether it is the start of the range. *)
Definition timestamp_bound (left : Expr) (op : Operator) (right : Expr) :
    Result PulpitumTableProviderError (option Z * bool) :=
  let left_timestamp := timestamp_literal (literal left) in
  let right_timestamp := timestamp_literal (literal right) in
  match op with
  | GtEq =>
      if names left "timestamp" then Ok (right_timestamp, true)
      else if names right "timestamp" then Ok (left_timestamp, false) else Err UnsupportedPredicate
  | Lt_ =>
      if names left "timestamp" then Ok (right_timestamp, false)
      else if names right "timestamp" then Ok (left_timestamp, true) else Err UnsupportedPredicate
  | _ => Err UnsupportedPredicate
  end.
Definition collect_timestamp_bound (left : Expr) (op : Operator) (right : Expr) (q : RoutedQuery) :
    Result PulpitumTableProviderError RoutedQuery :=
  '(bound, is_start) ← timestamp_bound left op right;
  bound ← ok_or bound UnsupportedPredicate;
  let slot := if is_start : bool then rq_start q else rq_end q in
  if is_some slot then Err ConflictingTimestampBounds
  else Ok (if is_start : bool then mkRouted (rq_partition_key q) (Some bound) (rq_end q)
           else mkRouted (rq_partition_key q) (rq_start q) (Some bound)).

Definition collect_partition (left right : Expr) (partition_column : string) (q : RoutedQuery) :
    Result PulpitumTableProviderError RoutedQuery :=
  partition ← ok_or
    (if names left partition_column then string_literal (literal right)
     else if names right partition_column then string_literal (literal left) else None)
    UnsupportedPredicate;
  let partition_key := key_from_string partition in
  match rq_partition_key q with
  | Some existing => if decide (existing = partition_key) then Ok q else Err ConflictingShardEquality
  | None => Ok (mkRouted (Some partition_key) (rq_start q) (rq_end q))
  end.
Fixpoint collect_predicate (e : Expr) (partition_column : string) (q : RoutedQuery) :
    Result PulpitumTableProviderError RoutedQuery :=
  match e with
  | BinaryExpr lhs And rhs =>
      q ← collect_predicate lhs partition_column q;
      collect_predicate rhs partition_column q
  | BinaryExpr lhs Eq_ rhs => collect_partition lhs rhs partition_column q
  | BinaryExpr lhs op rhs => collect_timestamp_bound lhs op rhs q
  | _ => Err UnsupportedPredicate
  end.
Fixpoint collect_filters (filters : list Expr) (partition_column : string) (q : RoutedQuery) :
    Result PulpitumTableProviderError RoutedQuery :=
  match filters with
  | [] => Ok q
  | filter :: filters =>
      q ← collect_predicate filter partition_column q;
      collect_filters filters partition_column q
  end.
Definition extract_query (d : TableDefinition) (filters : list Expr) :
    Result PulpitumTableProviderError RoutedQuery :=
  q ← collect_filters filters (def_partition_key d) RoutedQuery_default;
  finish q.

Fixpoint supports_filters_pushdown (d : TableDefinition) (filters : list Expr) :
    Result DataFusionError (list TableProviderFilterPushDown) :=
  match filters with
  | [] => Ok []
  | filter :: filters =>
      _ ← map_err planning_error (validate_predicate_shape filter (def_partition_key d));
      rest ← supports_filters_pushdown d filters;
      Ok (Exact :: rest)
  end.

(** ** Planning a scan *)
(** [Schema::project], [RecordBatch::try_new] and [RecordBatch::project]. *)
Class Arrow := {
  schema_project : list Field → list nat → option (list Field);
  batch_try_new : list Field → list ArrayRef → option RecordBatch;
  batch_project : RecordBatch → list nat → option RecordBatch
}.

(** [PulpitumTableProvider::new]. *)
Definition provider_schema (d : TableDefinition) : list Field := [
  mkField (def_partition_key d) TypeUtf8 false;
  mkField "timestamp" (TypeTimestamp Nanosecond (Some "UTC")) false;
  mkField "id" TypeUtf8 false;
  mkField "value" TypeBinary false ].

Record RoutedScanExec := mkScan {
  source_schema : list Field;
  output_schema : list Field;
  projection : list nat;
  scan_query : RoutedQuery;
  scan_limit : option Z
}.

Section provider.
Context `{Chrono} `{Arrow} (d : TableDefinition).

Definition scan (projection : option (list nat)) (filters : list Expr) (limit : option Z) :
    Result DataFusionError RoutedScanExec :=
  query ← map_err planning_error (extract_query d filters);
  let projection := default (seq 0 (length (provider_schema d))) projection in
  output ← ok_or (schema_project (provider_schema d) projection)
             (Plan "DataFusion scan has an invalid projection");
  Ok (mkScan (provider_schema d) output projection query limit).

(** [with_new_children]. *)
Definition with_new_children (self : RoutedScanExec) (children : list RoutedScanExec) :
    Result DataFusionError RoutedScanExec :=
  match children with
  | [] => Ok self
  | _ => Err (Internal "Pulpitum routed scans do not accept children")
  end.

(** ** Executing a scan *)
Definition BATCH_SIZE : nat := 1024.
(** [slice::chunks]. *)
Fixpoint chunks_fuel {A} (fuel size : nat) (l : list A) : list (list A) :=
  match fuel, l with
  | O, _ | _, [] => []
  | S fuel, _ => take size l :: chunks_fuel fuel size (drop size l)
  end.
Definition chunks {A} (size : nat) (l : list A) : list (list A) := chunks_fuel (length l) size l.

(** [iter().map(f).collect::<Option<Vec<_>>>()] and [collect::<Result<Vec<_>, _>>()]. *)
Fixpoint collect_option {A B} (f : A → option B) (l : list A) : option (list B) :=
  match l with
  | [] => Some []
  | x :: l => y ← f x; ys ← collect_option f l; Some (y :: ys)
  end.
Fixpoint collect_result {E A B} (f : A → Result E B) (l : list A) : Result E (list B) :=
  match l with
  | [] => Ok []
  | x :: l => y ← f x; ys ← collect_result f l; Ok (y :: ys)
  end.

Definition record_batch (source : list Field) (projection : list nat) (rs : list Record_) :
    Result DataFusionError RecordBatch :=
  partition_keys ← ok_or (collect_option (λ r, as_utf8 (r_partition_key r)) rs)
    (Execution "Pulpitum partition key is not valid UTF-8 for the SQL adapter");
  timestamps ← ok_or (collect_option (λ r, timestamp_nanos_opt (event_time r)) rs)
    (Execution "Pulpitum timestamp is outside Arrow nanosecond range");
  sort_keys ← ok_or (collect_option (λ r, as_utf8 (sort_key r)) rs)
    (Execution "Pulpitum sort key is not valid UTF-8 for the SQL adapter");
  ok_or (batch_try_new source [
           StringArray partition_keys;
           TimestampNanosecondArray (Some "UTC") timestamps;
           StringArray sort_keys;
           BinaryArray (value <$> rs) ] ≫= λ batch, batch_project batch projection)
    (Execution "Pulpitum could not build an Arrow batch").
Definition record_batches (rs : list Record_) (source : list Field) (projection : list nat) :
    Result DataFusionError (list RecordBatch) :=
  collect_result (record_batch source projection) (chunks BATCH_SIZE rs).

(** The stream [execute] returns: one future whose batches are flattened. *)
Definition scan_stream (schedule : nat → nat)
    (reads : Query → BucketId → Outcome (Result DurableTableError (list Record_)))
    (self : RoutedScanExec) (q : Query) : Outcome (list (Result DataFusionError RecordBatch)) :=
  res ← query_page d schedule (reads q) q;
  Value (match map_err (λ _, Execution "Pulpitum routed read failed") res ≫= λ page,
                 record_batches (p_records page) (source_schema self) (projection self) with
         | Ok batches => Ok <$> batches
         | Err e => [Err e]
         end).
Definition not_validated : DataFusionError := Internal "Pulpitum routed scan was not validated".
Definition execute (schedule : nat → nat)
    (reads : Query → BucketId → Outcome (Result DurableTableError (list Record_)))
    (self : RoutedScanExec) (partition : Z) :
    Result DataFusionError (Outcome (list (Result DataFusionError RecordBatch))) :=
  if negb (partition =? 0) then Err (Execution "Pulpitum routed scan partition is unavailable")
  else
    partition_key ← ok_or (rq_partition_key (scan_query self)) not_validated;
    start ← ok_or (rq_start (scan_query self)) not_validated;
    end_ ← ok_or (rq_end (scan_query self)) not_validated;
    let limit := default usize_max (scan_limit self) in
    Ok (scan_stream schedule reads self (mkQuery partition_key (mkTimeRange start end_) None limit)).
End provider.

(** ** What a filter means *)
Inductive sql_value :=
  | VNull
  | VBool (b : bool)
  | VText (s : string)
  | VInstant (nanos : Z)
  | VBinary (bytes : list byte)
  | VOther (tag : string).
#[export] Instance sql_value_eq_dec : EqDecision sql_value.
Proof. solve_decision. Defined.

(** How the engine evaluates literals, casts and operators ([None] is a runtime error). *)
Class SqlEngine := {
  scalar_value : ScalarValue → sql_value;
  cast_value : DataType → sql_value → option sql_value;
  try_cast_value : DataType → sql_value → option sql_value;
  operator_value : Operator → sql_value → sql_value → option sql_value;
  other_value : string → option sql_value
}.
Class SqlEngineLaws `{SqlEngine} : Prop := {
  utf8_value s : scalar_value (Utf8 (Some s)) = VText s;
  utf8_view_value s : scalar_value (Utf8View (Some s)) = VText s;
  large_utf8_value s : scalar_value (LargeUtf8 (Some s)) = VText s;
  second_value v tz : scalar_value (TimestampSecond (Some v) tz) = VInstant (v * 1000000000);
  millisecond_value v tz : scalar_value (TimestampMillisecond (Some v) tz) = VInstant (v * 1000000);
  microsecond_value v tz : scalar_value (TimestampMicrosecond (Some v) tz) = VInstant (v * 1000);
  nanosecond_value v tz : scalar_value (TimestampNanosecond (Some v) tz) = VInstant v;
  and_true v w : operator_value And v w = Some (VBool true) ↔ v = VBool true ∧ w = VBool true;
  text_eq s t : operator_value Eq_ (VText s) (VText t) = Some (VBool (bool_decide (s = t)));
  instant_ge t u : operator_value GtEq (VInstant t) (VInstant u) = Some (VBool (u <=? t));
  instant_lt t u : operator_value Lt_ (VInstant t) (VInstant u) = Some (VBool (t <? u))
}.

Section meaning.
Context `{SqlEngine} (d : TableDefinition).

Definition column_value (r : Record_) (name : string) : option sql_value :=
  if decide (name = def_partition_key d) then Some (VText (String.string_of_list_byte (r_partition_key r)))
  else if decide (name = "timestamp") then Some (VInstant (event_time r))
  else if decide (name = "id") then Some (VText (String.string_of_list_byte (sort_key r)))
  else if decide (name = "value") then Some (VBinary (value r))
  else None.
Fixpoint eval (r : Record_) (e : Expr) : option sql_value :=
  match e with
  | Column _ name => column_value r name
  | Literal v => Some (scalar_value v)
  | Cast e t => eval r e ≫= cast_value t
  | TryCast e t => eval r e ≫= try_cast_value t
  | BinaryExpr lhs op rhs => v ← eval r lhs; w ← eval r rhs; operator_value op v w
  | OtherExpr tag => other_value tag
  end.
(** A row passes a filter whose value is true, and a query whose filters it all passes. *)
Definition passes (r : Record_) (e : Expr) : Prop := eval r e = Some (VBool true).
Definition passes_all (filters : list Expr) (r : Record_) : Prop := Forall (passes r) filters.
#[export] Instance passes_dec r e : Decision (passes r e).
Proof. unfold passes. apply _. Defined.
#[export] Instance passes_all_dec filters r : Decision (passes_all filters r).
Proof. unfold passes_all. apply _. Defined.

(** Casts around literals give back the literal's value. *)
Fixpoint casts_faithful (e : Expr) : Prop :=
  match e with
  | Cast e t => casts_faithful e ∧ ∀ v, literal e = Some v → cast_value t (scalar_value v) = Some (scalar_value v)
  | TryCast e t => casts_faithful e ∧ ∀ v, literal e = Some v → try_cast_value t (scalar_value v) = Some (scalar_value v)
  | BinaryExpr lhs _ rhs => casts_faithful lhs ∧ casts_faithful rhs
  | _ => True
  end.
(** No comparison has the timestamp column on its right. *)
Fixpoint column_first (e : Expr) : Prop :=
  match e with
  | BinaryExpr lhs And rhs => column_first lhs ∧ column_first rhs
  | BinaryExpr _ (GtEq | Lt_) rhs => column_name rhs ≠ Some "timestamp"
  | _ => True
  end.
End meaning.

(** The records a routed query asks for. *)
Definition admits (q : RoutedQuery) (r : Record_) : Prop :=
  (∀ pk, rq_partition_key q = Some pk → r_partition_key r = pk) ∧
  (∀ s, rq_start q = Some s → s <= event_time r) ∧ (∀ e, rq_end q = Some e → event_time r < e).

(** ** Conjuncts *)
(** What one comparison is taken to ask for. *)
Inductive Bound := OnPartition (s : string) | From (t : Z) | Before (t : Z).
Inductive restricts (pc : string) : Expr → list Bound → Prop :=
  | restricts_and e1 e2 bs1 bs2 : restricts pc e1 bs1 → restricts pc e2 bs2 →
      restricts pc (BinaryExpr e1 And e2) (bs1 ++ bs2)
  | restricts_partition rel e s : string_literal (literal e) = Some s →
      restricts pc (BinaryExpr (Column rel pc) Eq_ e) [OnPartition s]
  | restricts_partition_rev rel e s : string_literal (literal e) = Some s →
      restricts pc (BinaryExpr e Eq_ (Column rel pc)) [OnPartition s]
  | restricts_from rel e t : timestamp_literal (literal e) = Some t →
      restricts pc (BinaryExpr (Column rel "timestamp") GtEq e) [From t]
  | restricts_before rel e t : timestamp_literal (literal e) = Some t →
      restricts pc (BinaryExpr (Column rel "timestamp") Lt_ e) [Before t]
  | restricts_from_rev rel e t : timestamp_literal (literal e) = Some t →
      restricts pc (BinaryExpr e Lt_ (Column rel "timestamp")) [From t]
  | restricts_before_rev rel e t : timestamp_literal (literal e) = Some t →
      restricts pc (BinaryExpr e GtEq (Column rel "timestamp")) [Before t].
Definition partitions (bs : list Bound) : list string := omap (λ b, match b with OnPartition s => Some s | _ => None end) bs.
Definition starts (bs : list Bound) : list Z := omap (λ b, match b with From t => Some t | _ => None end) bs.
Definition ends (bs : list Bound) : list Z := omap (λ b, match b with Before t => Some t | _ => None end) bs.

(** Adding one bound to a query. *)
Definition add_bound (b : Bound) (q : RoutedQuery) : option RoutedQuery :=
  match b with
  | OnPartition s =>
      match rq_partition_key q with
      | Some pk => if decide (pk = key_from_string s) then Some q else None
      | None => Some (mkRouted (Some (key_from_string s)) (rq_start q) (rq_end q))
      end
  | From t => match rq_start q with Some _ => None | None => Some (mkRouted (rq_partition_key q) (Some t) (rq_end q)) end
  | Before t => match rq_end q with Some _ => None | None => Some (mkRouted (rq_partition_key q) (rq_start q) (Some t)) end
  end.
Fixpoint add_bounds (bs : list Bound) (q : RoutedQuery) : option RoutedQuery :=
  match bs with [] => Some q | b :: bs => q ← add_bound b q; add_bounds bs q end.

Lemma add_bounds_app bs1 bs2 q : add_bounds (bs1 ++ bs2) q = add_bounds bs1 q ≫= add_bounds bs2.
Proof. revert q. induction bs1 as [|b bs1 IH]; intros q; [done|]. simpl. destruct (add_bound b q); [apply IH|done]. Qed.

Lemma names_spec e c : names e c = true ↔ ∃ rel, e = Column rel c.
Proof. unfold names. rewrite bool_decide_eq_true. destruct e; simpl; naive_solver. Qed.
Lemma literal_not_named e c : names e c = true → literal e = None.
Proof. by intros [rel ->]%names_spec. Qed.

Lemma string_literal_None : string_literal None = None.
Proof. done. Qed.
Lemma timestamp_literal_None : timestamp_literal None = None.
Proof. done. Qed.

(** One comparison, as the bound it is taken for. *)
Lemma collect_partition_bound lhs rhs pc q q' : collect_partition lhs rhs pc q = Ok q' ↔
  ∃ bs, restricts pc (BinaryExpr lhs Eq_ rhs) bs ∧ add_bounds bs q = Some q'.
Proof.
  assert (∀ s, (if names lhs pc then string_literal (literal rhs)
      else if names rhs pc then string_literal (literal lhs) else None) = Some s ↔
      restricts pc (BinaryExpr lhs Eq_ rhs) [OnPartition s]) as Hs.
  { intros s. split.
    - destruct (names lhs pc) eqn:E; [apply names_spec in E as [rel ->]; by constructor|].
      destruct (names rhs pc) eqn:E'; [apply names_spec in E' as [rel ->]; by constructor|done].
    - inversion 1 as [|rel e s' E|rel e s' E| | | |]; subst.
      + by rewrite (proj2 (names_spec _ _) (ex_intro _ rel eq_refl)).
      + destruct (names lhs pc) eqn:El; [by rewrite (literal_not_named _ _ El) in E|].
        by rewrite (proj2 (names_spec _ _) (ex_intro _ rel eq_refl)). }
  unfold collect_partition. destruct (if names lhs pc then _ else _) as [s|] eqn:E; cbn [ok_or mbind Result_bind].
  - assert (Hr := proj1 (Hs s) eq_refl). split.
    + intros Eq. exists [OnPartition s]. split; [done|]. simpl. destruct (rq_partition_key q); [case_decide|]; by simplify_eq/=.
    + intros (bs & Hbs & Eq). assert (bs = [OnPartition s]) as ->.
      { inversion Hbs as [|rel e s' E'|rel e s' E'| | | |]; subst; apply Hs in Hbs; congruence. }
      simpl in Eq. destruct (rq_partition_key q); [case_decide|]; by simplify_eq/=.
  - split; [done|]. intros (bs & Hbs & _). exfalso.
    inversion Hbs as [|rel e s' E'|rel e s' E'| | | |]; subst; by apply Hs in Hbs.
Qed.
(** Which bound a timestamp comparison is taken for. *)
Definition bound_of (is_start : bool) (t : Z) : Bound := if is_start then From t else Before t.
Lemma timestamp_bound_spec lhs op rhs pc t (is_start : bool) :
  (op = GtEq ∨ op = Lt_) →
  timestamp_bound lhs op rhs = Ok (Some t, is_start) ↔ restricts pc (BinaryExpr lhs op rhs) [bound_of is_start t].
Proof.
  intros Hop. unfold timestamp_bound, bound_of. split.
  - destruct Hop as [->| ->]; (destruct (names lhs "timestamp") eqn:El; [apply names_spec in El as [rel ->]
      |destruct (names rhs "timestamp") eqn:Er; [apply names_spec in Er as [rel ->]|done]]);
      intros E; injection E as E <-; by constructor.
  - destruct is_start; inversion 1; subst; try (destruct Hop; discriminate);
      match goal with E : timestamp_literal _ = Some _ |- _ =>
        first [by rewrite (proj2 (names_spec (Column rel _) _) (ex_intro _ rel eq_refl)), E
              |destruct (names lhs "timestamp") eqn:El; [by rewrite (literal_not_named _ _ El) in E|];
               by rewrite (proj2 (names_spec (Column rel _) _) (ex_intro _ rel eq_refl)), E] end.
Qed.
Lemma restricts_comparison pc lhs op rhs bs : (op = GtEq ∨ op = Lt_) → restricts pc (BinaryExpr lhs op rhs) bs →
  ∃ is_start t, bs = [bound_of is_start t].
Proof.
  intros Hop. inversion 1; subst; try (destruct Hop; discriminate); [exists true|exists false|exists true|exists false]; eauto.
Qed.
Lemma collect_timestamp_bounds lhs op rhs pc q q' : (op = GtEq ∨ op = Lt_) →
  collect_timestamp_bound lhs op rhs q = Ok q' ↔
  ∃ bs, restricts pc (BinaryExpr lhs op rhs) bs ∧ add_bounds bs q = Some q'.
Proof.
  intros Hop. pose proof (timestamp_bound_spec lhs op rhs pc) as Hs. unfold collect_timestamp_bound. split.
  - destruct (timestamp_bound lhs op rhs) as [[[t|] is_start]|] eqn:E; [|done..]. cbn [mbind Result_bind ok_or].
    intros Eq. exists [bound_of is_start t]. split; [by apply Hs|]. unfold bound_of.
    destruct is_start; simpl; repeat case_match; by simplify_eq/=.
  - intros (bs & Hbs & Eq). destruct (restricts_comparison _ _ _ _ _ Hop Hbs) as (is_start & t & ->).
    apply Hs in Hbs; [|done]. rewrite Hbs. cbn [mbind Result_bind ok_or]. unfold bound_of in Eq.
    destruct is_start; simpl in *; repeat case_match; by simplify_eq/=.
Qed.

(** [collect_predicate] adds the bounds a filter is taken to ask for. *)
Lemma collect_predicate_bounds e pc q q' :
  collect_predicate e pc q = Ok q' ↔ ∃ bs, restricts pc e bs ∧ add_bounds bs q = Some q'.
Proof.
  revert q q'. induction e as [| | | |lhs IHl op rhs IHr|]; intros q q';
    try (split; [done|]; by intros (bs & Hbs & _); inversion Hbs).
  destruct op; cbn [collect_predicate].
  - split.
    + destruct (collect_predicate lhs pc q) as [q1|] eqn:E; [|done]. cbn [mbind Result_bind].
      apply IHl in E as (bs1 & Hb1 & E1). intros (bs2 & Hb2 & E2)%IHr. exists (bs1 ++ bs2).
      split; [by constructor|]. by rewrite add_bounds_app, E1.
    + intros (bs & Hbs & E). inversion Hbs as [e1 e2 bs1 bs2 H1 H2| | | | | |]; subst. rewrite add_bounds_app in E.
      destruct (add_bounds bs1 q) as [q1|] eqn:E1; [|done]. rewrite (proj2 (IHl q q1)) by eauto.
      cbn [mbind Result_bind]. apply IHr. eauto.
  - apply collect_partition_bound.
  - apply collect_timestamp_bounds. auto.
  - apply collect_timestamp_bounds. auto.
  - split; [done|]. intros (bs & Hbs & _). inversion Hbs.
Qed.
Lemma collect_filters_bounds filters pc q q' : collect_filters filters pc q = Ok q' ↔
  ∃ bss, Forall2 (restricts pc) filters bss ∧ add_bounds (concat bss) q = Some q'.
Proof.
  revert q. induction filters as [|e filters IH]; intros q; simpl.
  - split; [intros [= ->]; by exists []|]. intros (bss & Hb & E). inversion Hb; by simplify_eq/=.
  - split.
    + destruct (collect_predicate e pc q) as [q1|] eqn:E; [|done]. cbn [mbind Result_bind].
      apply collect_predicate_bounds in E as (bs & Hb & E). intros (bss & Hbs & E')%IH. exists (bs :: bss).
      split; [by constructor|]. simpl. by rewrite add_bounds_app, E.
    + intros (bss & Hb & E). inversion Hb as [|? bs ? bss' H1 H2]; subst. simpl in E. rewrite add_bounds_app in E.
      destruct (add_bounds bs q) as [q1|] eqn:E1; [|done].
      rewrite (proj2 (collect_predicate_bounds e pc q q1)) by eauto. apply IH. eauto.
Qed.

(** When the bounds of all filters fit one query. *)
Definition fits (bs : list Bound) (q q' : RoutedQuery) : Prop :=
  option_list (rq_start q) ++ starts bs = option_list (rq_start q') ∧
  option_list (rq_end q) ++ ends bs = option_list (rq_end q') ∧
  match rq_partition_key q' with
  | Some pk => Forall (eq pk) (option_list (rq_partition_key q) ++ (key_from_string <$> partitions bs)) ∧
               (rq_partition_key q = None → partitions bs ≠ [])
  | None => rq_partition_key q = None ∧ partitions bs = []
  end.
Lemma option_list_inj {A} (o o' : option A) : option_list o = option_list o' → o = o'.
Proof. destruct o, o'; simpl; congruence. Qed.
Lemma fits_nil q q' : fits [] q q' ↔ q = q'.
Proof.
  unfold fits. destruct q as [pk s e], q' as [pk' s' e']. simpl. rewrite !app_nil_r. split.
  - intros (->%option_list_inj & ->%option_list_inj & Hp). f_equal.
    destruct pk' as [pk'|]; [|naive_solver]. destruct pk as [pk|]; [|naive_solver].
    destruct Hp as [Hp _]. simpl in Hp. by inversion Hp; subst.
  - intros [= -> -> ->]. split_and!; [done..|]. destruct pk'; [|done]. split; [by repeat constructor|done].
Qed.
Lemma add_bounds_spec bs q q' : add_bounds bs q = Some q' ↔ fits bs q q'.
Proof.
  revert q. induction bs as [|b bs IH]; intros q.
  { rewrite fits_nil. simpl. naive_solver. }
  cbn [add_bounds]. destruct b as [s|t|t]; cbn [add_bound].
  - destruct (rq_partition_key q) as [pk|] eqn:Epk; [case_decide as Hpk|].
    + cbn [mbind option_bind]. rewrite IH. unfold fits. rewrite Epk. subst pk. simpl.
      destruct (rq_partition_key q'); [|naive_solver]. rewrite !Forall_cons. naive_solver.
    + split; [done|]. unfold fits. rewrite Epk. simpl. intros (_ & _ & Hp).
      destruct (rq_partition_key q'); [|naive_solver]. rewrite !Forall_cons in Hp. naive_solver.
    + cbn [mbind option_bind]. rewrite IH. unfold fits. rewrite Epk. simpl.
      destruct (rq_partition_key q'); [|naive_solver]. rewrite !Forall_cons. naive_solver.
  - destruct (rq_start q) as [s|] eqn:Es.
    + split; [done|]. unfold fits. rewrite Es. simpl. intros (E & _). by destruct (rq_start q').
    + cbn [mbind option_bind]. rewrite IH. unfold fits. rewrite Es. done.
  - destruct (rq_end q) as [s|] eqn:Es.
    + split; [done|]. unfold fits. rewrite Es. simpl. intros (_ & E & _). by destruct (rq_end q').
    + cbn [mbind option_bind]. rewrite IH. unfold fits. rewrite Es. done.
Qed.

Lemma finish_ok q q' : finish q = Ok q' ↔
  q = q' ∧ ∃ pk s e, q = mkRouted (Some pk) (Some s) (Some e) ∧ s < e.
Proof.
  split.
  - destruct q as [pk [s|] [e|]]; try done. unfold finish. simpl. destruct (e <=? s) eqn:E; [done|]. zbool.
    destruct pk; [|done]. intros [= <-]. eauto 10.
  - intros [-> (pk & s & e & -> & Hlt)]. unfold finish. simpl. by rewrite (proj2 (Z.leb_gt _ _) Hlt).
Qed.

(** ** Accepted filters *)
(** A scan is planned exactly for filters whose conjuncts ask for one partition (repeated or
    not), exactly one lower and exactly one upper time bound, in order, and the routed query is
    that partition and that range. *)
Theorem extract_query_accepts_exactly d filters q :
  extract_query d filters = Ok q ↔
  ∃ bss pk s e, Forall2 (restricts (def_partition_key d)) filters bss ∧
    starts (concat bss) = [s] ∧ ends (concat bss) = [e] ∧ s < e ∧
    partitions (concat bss) ≠ [] ∧ Forall (λ p, key_from_string p = pk) (partitions (concat bss)) ∧
    q = mkRouted (Some pk) (Some s) (Some e).
Proof.
  unfold extract_query. split.
  - destruct (collect_filters _ _ _) as [q0|] eqn:E; [|done]. cbn [mbind Result_bind].
    intros [-> (pk & s & e & -> & Hlt)]%finish_ok. apply collect_filters_bounds in E as (bss & Hb & E).
    apply add_bounds_spec in E as (Es & Ee & Hp & Hne). simpl in *. exists bss, pk, s, e.
    split_and!; try done; [by apply Hne|]. rewrite Forall_fmap in Hp. eapply Forall_impl; [exact Hp|]. done.
  - intros (bss & pk & s & e & Hb & Es & Ee & Hlt & Hne & Hp & ->).
    rewrite (proj2 (collect_filters_bounds filters _ _ (mkRouted (Some pk) (Some s) (Some e)))).
    + cbn [mbind Result_bind]. apply finish_ok. eauto 10.
    + exists bss. split; [done|]. apply add_bounds_spec. unfold fits. simpl. rewrite Es, Ee. split_and!; try done.
      apply Forall_fmap. eapply Forall_impl; [exact Hp|]. done.
Qed.

(** ** Pushdown reports *)
Lemma is_some_iff {A} (o : option A) : is_some o = true ↔ ∃ x, o = Some x.
Proof. destruct o; naive_solver. Qed.
Lemma supported_iff lhs op rhs pc : op ≠ And → supported lhs rhs op pc = true ↔ ∃ bs, restricts pc (BinaryExpr lhs op rhs) bs.
Proof.
  intros Hop. split.
  - destruct op; simpl; try done; rewrite orb_true_iff, !andb_true_iff, !names_spec, !is_some_iff;
      intros [[[rel ->] [x E]]|[[rel ->] [x E]]]; eexists; by constructor.
  - intros (bs & Hbs). destruct op; simpl; inversion Hbs; subst; try done;
      rewrite orb_true_iff, !andb_true_iff, !names_spec, !is_some_iff; eauto 10.
Qed.
Lemma validate_iff e pc : validate_predicate_shape e pc = Ok tt ↔ ∃ bs, restricts pc e bs.
Proof.
  induction e as [| | | |lhs IHl op rhs IHr|]; try (split; [done|intros (bs & Hbs); inversion Hbs]).
  destruct op; cbn [validate_predicate_shape].
  - split.
    + destruct (validate_predicate_shape lhs pc) as [[]|] eqn:E; [|done]. cbn [mbind Result_bind].
      destruct (proj1 IHl eq_refl) as [bs1 H1]. intros [bs2 H2]%IHr. eexists. by constructor.
    + intros (bs & Hbs). inversion Hbs; subst. rewrite (proj2 IHl), (proj2 IHr) by eauto. done.
  - rewrite <- supported_iff by done. destruct (supported lhs rhs Eq_ pc); done.
  - rewrite <- supported_iff by done. destruct (supported lhs rhs GtEq pc); done.
  - rewrite <- supported_iff by done. destruct (supported lhs rhs Lt_ pc); done.
  - split; [done|]. intros (bs & Hbs). inversion Hbs.
Qed.
Lemma supports_iff d filters l : supports_filters_pushdown d filters = Ok l ↔
  l = replicate (length filters) Exact ∧ Forall (λ e, ∃ bs, restricts (def_partition_key d) e bs) filters.
Proof.
  revert l. induction filters as [|e filters IH]; intros l; simpl.
  { rewrite Forall_nil. naive_solver. }
  rewrite Forall_cons, <- validate_iff. destruct (validate_predicate_shape e _) as [[]|]; [|naive_solver].
  cbn [map_err mbind Result_bind]. destruct (supports_filters_pushdown d filters) as [rest|] eqn:E.
  - destruct (proj1 (IH rest) eq_refl) as [-> HF]. cbn [mbind Result_bind]. naive_solver.
  - cbn [mbind Result_bind]. split; [done|]. intros (-> & _ & HF). by pose proof (proj2 (IH (replicate (length filters) Exact)) (conj eq_refl HF)).
Qed.

Definition conflict (e : PulpitumTableProviderError) : Prop :=
  e = ConflictingShardEquality ∨ e = ConflictingTimestampBounds.
Lemma collect_predicate_error e pc bs q err : restricts pc e bs →
  collect_predicate e pc q = Err err → conflict err.
Proof.
  intros Hbs. revert q. induction Hbs as [e1 e2 bs1 bs2 _ IH1 _ IH2| | | | | |]; intros q; cbn [collect_predicate].
  1: destruct (collect_predicate e1 pc q) eqn:E; cbn [mbind Result_bind]; [apply IH2|intros [= ->]; by eapply IH1].
  1,2: unfold collect_partition.
  3-6: unfold collect_timestamp_bound, timestamp_bound, conflict.
  all: try rewrite (proj2 (names_spec (Column rel _) _) (ex_intro _ rel eq_refl)).
  all: try match goal with
    | |- context [names ?e ?c] => destruct (names e c) eqn:El; [apply literal_not_named in El; by rewrite El in *|] end.
  all: try match goal with H : _ = Some _ |- _ => rewrite H end; cbn [mbind Result_bind ok_or].
  all: repeat case_match; intros ?; simplify_eq; auto. all: by (left + right).
Qed.
Lemma collect_filters_error d filters q err :
  Forall (λ e, ∃ bs, restricts (def_partition_key d) e bs) filters →
  collect_filters filters (def_partition_key d) q = Err err → conflict err.
Proof.
  intros HF. revert q. induction HF as [|e filters [bs Hbs] _ IH]; intros q; [done|]. cbn [collect_filters].
  destruct (collect_predicate e _ q) eqn:E; cbn [mbind Result_bind]; [apply IH|].
  intros [= ->]. by eapply collect_predicate_error.
Qed.
Lemma extract_query_restricts d filters q : extract_query d filters = Ok q →
  Forall (λ e, ∃ bs, restricts (def_partition_key d) e bs) filters.
Proof.
  unfold extract_query. destruct (collect_filters _ _ _) as [q0|] eqn:E; [|done]. intros _.
  apply collect_filters_bounds in E as (bss & Hb & _). induction Hb; constructor; eauto.
Qed.

(** The report of which filters are applied and the planning of the scan agree: filters a scan
    is planned for are all reported as applied exactly, and filters reported as applied are
    never unsupported when the scan is planned. *)
Theorem pushdown_report_agrees_with_planning d filters :
  (∀ q, extract_query d filters = Ok q →
     supports_filters_pushdown d filters = Ok (replicate (length filters) Exact)) ∧
  (∀ l, supports_filters_pushdown d filters = Ok l → extract_query d filters ≠ Err UnsupportedPredicate) ∧
  (∀ e, supports_filters_pushdown d filters = Err e → is_ok (extract_query d filters) = false).
Proof.
  split_and!.
  - intros q E%extract_query_restricts. by apply supports_iff.
  - intros l [_ HF]%supports_iff. unfold extract_query.
    destruct (collect_filters _ _ _) as [q0|err] eqn:E; cbn [mbind Result_bind].
    + unfold finish. destruct (rq_start q0), (rq_end q0); simpl; try done. repeat case_match; done.
    + intros [= ->]. by destruct (collect_filters_error _ _ _ _ HF E).
  - intros e He. destruct (extract_query d filters) as [q|] eqn:E; [|done].
    apply extract_query_restricts in E. by rewrite (proj2 (supports_iff d filters _) (conj eq_refl E)) in He.
Qed.

(** ** Meaning of accepted filters *)
(** What a bound asks of a record. *)
Definition meets (r : Record_) (b : Bound) : Prop :=
  match b with
  | OnPartition s => r_partition_key r = key_from_string s
  | From t => t <= event_time r
  | Before t => event_time r < t
  end.
Lemma admits_meets q bs r : add_bounds bs RoutedQuery_default = Some q → admits q r ↔ Forall (meets r) bs.
Proof.
  intros (Es & Ee & Hp)%add_bounds_spec. unfold admits. rewrite Forall_forall. simpl in *.
  assert (∀ t, From t ∈ bs ↔ rq_start q = Some t) as Hs.
  { intros t. transitivity (t ∈ starts bs).
    - unfold starts. rewrite list_elem_of_omap. split; [by exists (From t)|]. intros (b & Hb & E). by destruct b; simplify_eq.
    - rewrite Es. destruct (rq_start q); simpl; set_solver. }
  assert (∀ t, Before t ∈ bs ↔ rq_end q = Some t) as He.
  { intros t. transitivity (t ∈ ends bs).
    - unfold ends. rewrite list_elem_of_omap. split; [by exists (Before t)|]. intros (b & Hb & E). by destruct b; simplify_eq.
    - rewrite Ee. destruct (rq_end q); simpl; set_solver. }
  assert (∀ s, OnPartition s ∈ bs → rq_partition_key q = Some (key_from_string s)) as Hpk.
  { intros s Hin. assert (s ∈ partitions bs) as Hs'.
    { unfold partitions. rewrite list_elem_of_omap. by exists (OnPartition s). }
    destruct (rq_partition_key q) as [pk|]; [|destruct Hp as [_ Hp]; rewrite Hp in Hs'; set_solver].
    destruct Hp as [Hp _]. rewrite Forall_fmap, Forall_forall in Hp. by rewrite (Hp s Hs'). }
  split.
  - intros (Hk & Hst & Hen) [s|t|t] Hin; simpl; [apply Hk; by apply Hpk|apply Hst; by apply Hs|apply Hen; by apply He].
  - intros Hall. split_and!.
    + intros pk Epk. rewrite Epk in Hp. destruct Hp as [Hp Hne].
      destruct (partitions bs) as [|s ps] eqn:Eps; [by destruct Hne|].
      assert (OnPartition s ∈ bs) as Hin.
      { assert (s ∈ partitions bs) as Hin by (rewrite Eps; left). unfold partitions in Hin.
        rewrite list_elem_of_omap in Hin. destruct Hin as ([] & ? & ?); by simplify_eq. }
      rewrite (Hpk s Hin) in Epk. injection Epk as <-. apply (Hall _ Hin).
    + intros s Est. apply (Hall (From s)). by apply Hs.
    + intros e Een. apply (Hall (Before e)). by apply He.
Qed.

Section meaning_lemmas.
Context `{SqlEngineLaws} (d : TableDefinition) (Hnd : NoDup (field_name <$> provider_schema d)).

Lemma partition_not_timestamp : "timestamp" ≠ def_partition_key d.
Proof. intros E. simpl in Hnd. rewrite E in Hnd. by apply NoDup_cons in Hnd as [[]%not_elem_of_cons _]. Qed.

Lemma eval_literal r e v : casts_faithful e → literal e = Some v → eval d r e = Some (scalar_value v).
Proof.
  induction e as [| |e IH t|e IH t| |]; simpl; try done; [by intros _ [= ->]|..];
    intros [Hc Hv] E; rewrite (IH Hc E); simpl; by apply Hv.
Qed.
Lemma eval_string r e s : casts_faithful e → string_literal (literal e) = Some s → eval d r e = Some (VText s).
Proof.
  intros Hc. destruct (literal e) as [v|] eqn:E; [|done]. rewrite (eval_literal _ _ _ Hc E).
  destruct v as [[]|[]|[]| | | | | |]; simpl; intros ?; simplify_eq; f_equal;
    auto using utf8_value, utf8_view_value, large_utf8_value.
Qed.
Lemma eval_timestamp r e t : casts_faithful e → timestamp_literal (literal e) = Some t → eval d r e = Some (VInstant t).
Proof.
  intros Hc. destruct (literal e) as [v|] eqn:E; [|done]. rewrite (eval_literal _ _ _ Hc E).
  unfold timestamp_literal, from_timestamp_nanos, i64_checked_mul.
  destruct v as [| | |[]|[]|[]|[]| |]; simpl; try done; try (case_match; [|done]); intros [= <-]; f_equal;
    auto using second_value, millisecond_value, microsecond_value, nanosecond_value.
Qed.
Lemma eval_partition r rel : eval d r (Column rel (def_partition_key d)) = Some (VText (String.string_of_list_byte (r_partition_key r))).
Proof. simpl. unfold column_value. by rewrite decide_True. Qed.
Lemma eval_event_time r rel : eval d r (Column rel "timestamp") = Some (VInstant (event_time r)).
Proof. simpl. unfold column_value. rewrite decide_False by apply partition_not_timestamp. done. Qed.

Lemma eval_binary r lhs op rhs :
  eval d r (BinaryExpr lhs op rhs) = (v ← eval d r lhs; w ← eval d r rhs; operator_value op v w).
Proof. done. Qed.
Lemma partition_text r s : String.string_of_list_byte (r_partition_key r) = s ↔ r_partition_key r = key_from_string s.
Proof.
  unfold key_from_string, string_bytes. split; [intros <-|intros ->].
  - by rewrite String.list_byte_of_string_of_list_byte.
  - apply String.string_of_list_byte_of_string.
Qed.

Lemma restricts_meaning r e bs : restricts (def_partition_key d) e bs → casts_faithful e → column_first e →
  passes d r e ↔ Forall (meets r) bs.
Proof.
  unfold passes. induction 1; intros Hc Hf.
  - destruct Hc, Hf. rewrite Forall_app, <- IHrestricts1, <- IHrestricts2 by done. simpl.
    destruct (eval d r e1) as [v|]; [|naive_solver]. destruct (eval d r e2) as [w|]; [|naive_solver].
    simpl. rewrite and_true. naive_solver.
  - destruct Hc as [_ Hc]. rewrite eval_binary, eval_partition, (eval_string _ _ _ Hc) by done.
    cbn [mbind option_bind]. rewrite text_eq, Forall_singleton. simpl. rewrite <- partition_text.
    case_bool_decide; naive_solver.
  - destruct Hc as [Hc _]. rewrite eval_binary, eval_partition, (eval_string _ _ _ Hc) by done.
    cbn [mbind option_bind]. rewrite text_eq, Forall_singleton. simpl. rewrite <- partition_text.
    case_bool_decide; naive_solver.
  - destruct Hc as [_ Hc]. rewrite eval_binary, eval_event_time, (eval_timestamp _ _ _ Hc) by done.
    cbn [mbind option_bind]. rewrite instant_ge, Forall_singleton. simpl. destruct (_ <=? _) eqn:E; zbool; naive_solver lia.
  - destruct Hc as [_ Hc]. rewrite eval_binary, eval_event_time, (eval_timestamp _ _ _ Hc) by done.
    cbn [mbind option_bind]. rewrite instant_lt, Forall_singleton. simpl. destruct (_ <? _) eqn:E; zbool; naive_solver lia.
  - done.
  - done.
Qed.
End meaning_lemmas.

Lemma extract_query_bounds d filters q : extract_query d filters = Ok q →
  ∃ bss pk s e, Forall2 (restricts (def_partition_key d)) filters bss ∧
    add_bounds (concat bss) RoutedQuery_default = Some q ∧ q = mkRouted (Some pk) (Some s) (Some e) ∧ s < e.
Proof.
  unfold extract_query. destruct (collect_filters _ _ _) as [q0|] eqn:E; [|done]. cbn [mbind Result_bind].
  intros [<- (pk & s & e & -> & Hlt)]%finish_ok. apply collect_filters_bounds in E as (bss & Hb & E). naive_solver.
Qed.
Lemma pushdown_meaning `{SqlEngineLaws} d filters q r : NoDup (field_name <$> provider_schema d) →
  extract_query d filters = Ok q → Forall casts_faithful filters → Forall column_first filters →
  passes_all d filters r ↔ admits q r.
Proof.
  intros Hnd (bss & _ & _ & _ & Hb & E & _)%extract_query_bounds Hc Hf. rewrite (admits_meets _ _ _ E). clear E.
  unfold passes_all. induction Hb as [|e bs filters bss He Hb IH]; [simpl; by rewrite !Forall_nil|].
  apply Forall_cons in Hc as [Hc Hcs]. apply Forall_cons in Hf as [Hf Hfs]. simpl.
  rewrite Forall_cons, Forall_app, (restricts_meaning d Hnd r e bs), IH by done. done.
Qed.

Section engine.
Context `{SqlEngineLaws}.

(** C17. Filters reported as applied exactly are: when a scan is planned for filters that compare
    the timestamp column with literals on its right, and casts of literals keep their
    values, the routed query asks for exactly the records that pass every filter. *)
Theorem pushdown_is_exact d filters q r : NoDup (field_name <$> provider_schema d) →
  extract_query d filters = Ok q → Forall casts_faithful filters → Forall column_first filters →
  passes_all d filters r ↔ admits q r.
Proof. apply pushdown_meaning. Qed.

(** The filters with the timestamp column on the right of both comparisons. *)
Definition reversed_filters (pc p : string) (s e : Z) : list Expr := [
  BinaryExpr (Column None pc) Eq_ (Literal (Utf8 (Some p)));
  BinaryExpr (Literal (TimestampNanosecond (Some s) (Some "UTC"))) Lt_ (Column None "timestamp");
  BinaryExpr (Literal (TimestampNanosecond (Some e) (Some "UTC"))) GtEq (Column None "timestamp") ].

(** C28. Comparisons with the timestamp column on the right are taken for the opposite kind of
    bound: [s < timestamp] includes the records at [s], which do not pass it, and
    [e >= timestamp] leaves out the records at [e], which do, although both are reported as
    applied exactly; at every other instant the routed query is right. *)
Theorem reversed_comparisons_move_the_bounds d p s e r : NoDup (field_name <$> provider_schema d) →
  s < e → r_partition_key r = key_from_string p →
  let filters := reversed_filters (def_partition_key d) p s e in
  ∃ q, extract_query d filters = Ok q ∧ supports_filters_pushdown d filters = Ok [Exact; Exact; Exact] ∧
    (event_time r = s → admits q r ∧ ¬ passes_all d filters r) ∧
    (event_time r = e → ¬ admits q r ∧ passes_all d filters r) ∧
    (event_time r ≠ s → event_time r ≠ e → admits q r ↔ passes_all d filters r).
Proof.
  intros Hnd Hlt Hpk filters. exists (mkRouted (Some (key_from_string p)) (Some s) (Some e)).
  assert (passes_all d filters r ↔ s < event_time r <= e) as Hp.
  { unfold passes_all, filters, reversed_filters, passes. rewrite !Forall_cons, Forall_nil, !eval_binary.
    rewrite eval_partition, (eval_event_time d Hnd). cbn [eval mbind option_bind].
    rewrite utf8_value, !nanosecond_value, text_eq, instant_lt, instant_ge, bool_decide_eq_true_2 by by apply partition_text.
    destruct (s <? event_time r) eqn:?, (event_time r <=? e) eqn:?; zbool; naive_solver lia. }
  assert (admits (mkRouted (Some (key_from_string p)) (Some s) (Some e)) r ↔ s <= event_time r < e) as Ha.
  { unfold admits. simpl. naive_solver. }
  assert (names (Column None (def_partition_key d)) (def_partition_key d) = true) as Hn by (apply names_spec; eauto).
  split_and!.
  - unfold extract_query, filters, reversed_filters. simpl. unfold collect_partition. rewrite Hn. simpl.
    unfold finish, from_timestamp_nanos. simpl. by rewrite (proj2 (Z.leb_gt _ _) Hlt).
  - unfold filters, reversed_filters. simpl. by rewrite Hn.
  - rewrite Ha, Hp. lia.
  - rewrite Ha, Hp. lia.
  - rewrite Ha, Hp. lia.
Qed.
End engine.

(** ** Batches *)
Inductive cell := CText (s : string) | CInstant (nanos : Z) | CBinary (bytes : list byte).
Definition array_type (c : ArrayRef) : DataType :=
  match c with
  | StringArray _ => TypeUtf8
  | TimestampNanosecondArray tz _ => TypeTimestamp Nanosecond tz
  | BinaryArray _ => TypeBinary
  end.
Definition array_length (c : ArrayRef) : nat :=
  match c with StringArray l => length l | TimestampNanosecondArray _ l => length l | BinaryArray l => length l end.
Definition array_cell (row : nat) (c : ArrayRef) : option cell :=
  match c with
  | StringArray l => CText <$> l !! row
  | TimestampNanosecondArray _ l => CInstant <$> l !! row
  | BinaryArray l => CBinary <$> l !! row
  end.
(** The rows of a batch, column by column. *)
Definition batch_rows (b : RecordBatch) : list (list (option cell)) :=
  (λ row, array_cell row <$> columns b) <$> seq 0 (num_rows b).

Class ArrowLaws `{Arrow} : Prop := {
  schema_project_spec fields indices : schema_project fields indices = collect_option (fields !!.) indices;
  (** Columns of the schema's types and of one length make a batch. *)
  batch_try_new_ok fields cols n : fields ≠ [] →
    Forall2 (λ f c, data_type f = array_type c ∧ array_length c = n) fields cols →
    batch_try_new fields cols = Some (mkBatch fields cols n);
  batch_project_spec b indices : batch_project b indices =
    fields ← collect_option (batch_schema b !!.) indices;
    cols ← collect_option (columns b !!.) indices;
    Some (mkBatch fields cols (num_rows b))
}.

(** The row of a record and its projection. *)
Definition record_row (r : Record_) : list cell := [
  CText (String.string_of_list_byte (r_partition_key r)); CInstant (event_time r);
  CText (String.string_of_list_byte (sort_key r)); CBinary (value r) ].
Definition projected_row (projection : list nat) (r : Record_) : list (option cell) :=
  (λ i, record_row r !! i) <$> projection.
Definition representable (r : Record_) : Prop :=
  valid_utf8 (r_partition_key r) = true ∧ i64_min <= event_time r <= i64_max ∧ valid_utf8 (sort_key r) = true.

#[export] Instance representable_dec r : Decision (representable r).
Proof. unfold representable. apply _. Defined.

Lemma chunks_fuel_concat {A} fuel size (l : list A) : (0 < size)%nat → (length l <= fuel)%nat →
  concat (chunks_fuel fuel size l) = l ∧ Forall (λ c, 0 < length c <= size)%nat (chunks_fuel fuel size l).
Proof.
  intros Hs. revert l. induction fuel as [|fuel IH]; intros l Hl; [by destruct l; [|simpl in Hl; lia]|].
  destruct l as [|x l]; [done|]. cbn [chunks_fuel concat].
  destruct (IH (drop size (x :: l))) as [E HF]; [rewrite length_drop; simpl in *; lia|].
  split; [by rewrite E, take_drop|]. constructor; [|done]. rewrite length_take. simpl. lia.
Qed.
Lemma chunks_spec {A} size (l : list A) : (0 < size)%nat →
  concat (chunks size l) = l ∧ Forall (λ c, 0 < length c <= size)%nat (chunks size l).
Proof. intros. by apply chunks_fuel_concat. Qed.

Lemma collect_option_Some {A B} (f : A → option B) (g : A → B) l :
  Forall (λ x, f x = Some (g x)) l → collect_option f l = Some (g <$> l).
Proof. induction 1 as [|x l E _ IH]; [done|]. simpl. by rewrite E, IH. Qed.
Lemma collect_option_None {A B} (f : A → option B) l x : x ∈ l → f x = None → collect_option f l = None.
Proof.
  induction l as [|y l IH]; [by intros ?%not_elem_of_nil|]. intros [->|Hx]%elem_of_cons E; simpl; [by rewrite E|].
  destruct (f y); [|done]. simpl. by rewrite IH.
Qed.
Lemma collect_option_lookup {A} (l : list A) indices : Forall (λ i, i < length l)%nat indices →
  ∃ xs, collect_option (l !!.) indices = Some xs ∧ Some <$> xs = (λ i, l !! i) <$> indices.
Proof.
  induction 1 as [|i indices Hi _ (xs & E & Exs)]; [by exists []|].
  destruct (lookup_lt_is_Some_2 l i Hi) as [x Ex]. exists (x :: xs). cbn [collect_option fmap list_fmap].
  by rewrite Ex, E, <- Exs.
Qed.

Lemma fmap_seq_lookup {A B} (F : nat → B) (g : A → B) (l : list A) k :
  (∀ i x, l !! i = Some x → F (k + i)%nat = g x) → F <$> seq k (length l) = g <$> l.
Proof.
  revert k. induction l as [|x l IH]; intros k Hl; [done|]. simpl. f_equal.
  - rewrite <- (Hl 0%nat x eq_refl). f_equal. lia.
  - apply IH. intros i y Hy. rewrite <- (Hl (S i) y Hy). f_equal. lia.
Qed.

Section batches.
Context `{ArrowLaws}.

(** The columns of a chunk before projection. *)
Definition record_columns (rs : list Record_) : list ArrayRef := [
  StringArray ((λ r, String.string_of_list_byte (r_partition_key r)) <$> rs);
  TimestampNanosecondArray (Some "UTC") (event_time <$> rs);
  StringArray ((λ r, String.string_of_list_byte (sort_key r)) <$> rs);
  BinaryArray (value <$> rs) ].
Lemma record_columns_cell rs row r i c : rs !! row = Some r → record_columns rs !! i = Some c →
  array_cell row c = record_row r !! i.
Proof.
  intros Hr. destruct i as [|[|[|[|i]]]]; simpl; intros [= <-]; simpl; rewrite list_lookup_fmap, Hr; done.
Qed.
Lemma projected_cells projection cols rs row r : rs !! row = Some r →
  Some <$> cols = (λ i, record_columns rs !! i) <$> projection → array_cell row <$> cols = projected_row projection r.
Proof.
  intros Hr. unfold projected_row. revert cols. induction projection as [|i projection IH]; intros [|c cols]; try done.
  rewrite !fmap_cons. intros [= Ec Ecols]. f_equal; [|by apply IH].
  by apply (record_columns_cell rs).
Qed.

Lemma record_batch_ok d projection rs :
  Forall (λ i, i < 4)%nat projection → Forall representable rs →
  ∃ batch, record_batch (provider_schema d) projection rs = Ok batch ∧ num_rows batch = length rs ∧
    batch_rows batch = projected_row projection <$> rs.
Proof.
  intros Hi Hrs. unfold record_batch.
  rewrite (collect_option_Some (λ r, as_utf8 (r_partition_key r)) (λ r, String.string_of_list_byte (r_partition_key r))) by
    (eapply Forall_impl; [exact Hrs|]; intros r (E & _); cbv beta delta [as_utf8 from_utf8]; by rewrite E).
  rewrite (collect_option_Some (λ r, timestamp_nanos_opt (event_time r)) event_time) by
    (eapply Forall_impl; [exact Hrs|]; intros r (_ & [E1 E2] & _); cbv beta delta [timestamp_nanos_opt];
     by rewrite (proj2 (Z.leb_le _ _) E1), (proj2 (Z.leb_le _ _) E2)).
  rewrite (collect_option_Some (λ r, as_utf8 (sort_key r)) (λ r, String.string_of_list_byte (sort_key r))) by
    (eapply Forall_impl; [exact Hrs|]; intros r (_ & _ & E); cbv beta delta [as_utf8 from_utf8]; by rewrite E).
  cbn [ok_or mbind Result_bind]. change [_; _; _; _] with (record_columns rs).
  rewrite (batch_try_new_ok _ _ (length rs)); [|done|repeat constructor; simpl; by rewrite length_fmap].
  cbn [mbind option_bind]. rewrite batch_project_spec.
  destruct (collect_option_lookup (provider_schema d) projection Hi) as (fields & Ef & _).
  destruct (collect_option_lookup (record_columns rs) projection Hi) as (cols & Ec & Hcols).
  cbn [batch_schema columns num_rows]. rewrite Ef. cbn [mbind option_bind]. rewrite Ec. eexists.
  split_and!; [done..|]. unfold batch_rows. simpl. apply fmap_seq_lookup. intros row r Hr. simpl.
  by apply (projected_cells _ _ rs).
Qed.
Lemma record_batch_err source projection rs r : r ∈ rs → ¬ representable r →
  ∃ e, record_batch source projection rs = Err (Execution e).
Proof.
  intros Hin Hr. unfold record_batch. destruct (valid_utf8 (r_partition_key r)) eqn:E1.
  2: { erewrite (collect_option_None (λ r, as_utf8 (r_partition_key r)) _ r Hin); [eexists; done|]. unfold as_utf8, from_utf8. by rewrite E1. }
  destruct (collect_option (λ r, as_utf8 (r_partition_key r)) rs) as [pks|]; [|eexists; done].
  destruct (timestamp_nanos_opt (event_time r)) as [t|] eqn:E2.
  2: { erewrite (collect_option_None (λ r, timestamp_nanos_opt (event_time r)) _ r Hin E2). eexists; done. }
  destruct (collect_option (λ r, timestamp_nanos_opt (event_time r)) rs) as [ts|]; [|eexists; done].
  destruct (valid_utf8 (sort_key r)) eqn:E3.
  - exfalso. apply Hr. split; [done|split; [|done]]. unfold timestamp_nanos_opt in E2. case_match eqn:Eb; [|done]. zbool. lia.
  - erewrite (collect_option_None (λ r, as_utf8 (sort_key r)) _ r Hin); [eexists; done|]. unfold as_utf8, from_utf8. by rewrite E3.
Qed.

(** Every chunk becomes one batch. *)
Lemma collect_batches d projection css : Forall (λ i, i < 4)%nat projection →
  Forall (Forall representable) css → Forall (λ c, 0 < length c <= BATCH_SIZE)%nat css →
  ∃ batches, collect_result (record_batch (provider_schema d) projection) css = Ok batches ∧
    concat (batch_rows <$> batches) = projected_row projection <$> concat css ∧
    Forall (λ b, 0 < num_rows b <= BATCH_SIZE)%nat batches.
Proof.
  intros Hi. induction css as [|c css IH]; intros Hr Hl; [by exists []|].
  apply Forall_cons in Hr as [Hc Hr]. apply Forall_cons in Hl as [Hlc Hl].
  destruct (record_batch_ok d projection c Hi Hc) as (b & Eb & Hn & Hrows).
  destruct (IH Hr Hl) as (bs & Ebs & Hrest & HF). exists (b :: bs).
  cbn [collect_result]. rewrite Eb. cbn [mbind Result_bind]. rewrite Ebs. split_and!; [done| |].
  - cbn [fmap list_fmap concat]. rewrite fmap_app, <- Hrest, Hrows. done.
  - constructor; [by rewrite Hn|done].
Qed.
Lemma collect_batches_err d projection css : Forall (λ i, i < 4)%nat projection → ¬ Forall (Forall representable) css →
  ∃ e, collect_result (record_batch (provider_schema d) projection) css = Err (Execution e).
Proof.
  intros Hi. induction css as [|c css IH]; intros Hr; [by destruct Hr|]. cbn [collect_result].
  destruct (decide (Forall representable c)) as [Hc|Hc].
  - destruct (record_batch_ok d projection c Hi Hc) as (b & -> & _). cbn [mbind Result_bind].
    destruct IH as [e ->]; [|by eexists]. intros HF. apply Hr. by constructor.
  - apply not_Forall_Exists, Exists_exists in Hc as (r & Hin & Hnr); [|apply _].
    destruct (record_batch_err (provider_schema d) projection c r Hin Hnr) as [e ->]. by eexists.
Qed.
Lemma record_batches_ok d projection rs : Forall (λ i, i < 4)%nat projection → Forall representable rs →
  ∃ batches, record_batches rs (provider_schema d) projection = Ok batches ∧
    concat (batch_rows <$> batches) = projected_row projection <$> rs ∧
    Forall (λ b, 0 < num_rows b <= BATCH_SIZE)%nat batches.
Proof.
  intros Hi Hr. unfold record_batches. destruct (chunks_spec BATCH_SIZE rs) as [Ec Hl]; [unfold BATCH_SIZE; lia|].
  rewrite <- Ec in Hr. apply Forall_concat in Hr.
  destruct (collect_batches d projection _ Hi Hr Hl) as (bs & E & Hrows & HF). rewrite Ec in Hrows. eauto.
Qed.

(** The Arrow batches of a page carry its records: when every key is UTF-8 and every time fits
    64-bit nanoseconds, the rows of the batches, in order, are the projected records, in
    batches of 1 to 1024 rows; otherwise the page is reported as an execution error. *)
Theorem batches_carry_the_records d projection rs : Forall (λ i, i < 4)%nat projection →
  (Forall representable rs →
   ∃ batches, record_batches rs (provider_schema d) projection = Ok batches ∧
     concat (batch_rows <$> batches) = projected_row projection <$> rs ∧
     Forall (λ b, 0 < num_rows b <= BATCH_SIZE)%nat batches) ∧
  (¬ Forall representable rs →
   ∃ e, record_batches rs (provider_schema d) projection = Err (Execution e)).
Proof.
  intros Hi. split; [by apply record_batches_ok|]. intros Hr. unfold record_batches.
  apply collect_batches_err; [done|]. intros HF%Forall_concat. apply Hr.
  by destruct (chunks_spec BATCH_SIZE rs) as [<- _]; [unfold BATCH_SIZE; lia|].
Qed.
End batches.

(** ** Scans *)
Lemma collect_option_inv {A B} (f : A → option B) l ys x : collect_option f l = Some ys → x ∈ l → is_Some (f x).
Proof.
  intros E Hx. destruct (f x) as [y|] eqn:Ef; [eauto|]. by rewrite (collect_option_None f l x) in E.
Qed.
Lemma scan_ok `{ArrowLaws} d proj filters limit plan : scan d proj filters limit = Ok plan →
  ∃ q, extract_query d filters = Ok q ∧ scan_query plan = q ∧ scan_limit plan = limit ∧
    source_schema plan = provider_schema d ∧ Forall (λ i, i < 4)%nat (projection plan) ∧
    projection plan = default [0; 1; 2; 3]%nat proj.
Proof.
  unfold scan. destruct (extract_query d filters) as [q|]; [|done]. cbn [map_err mbind Result_bind].
  rewrite schema_project_spec. destruct (collect_option _ _) as [out|] eqn:E; [|done]. intros [= <-]. simpl.
  eexists. split_and!; try done. apply Forall_forall. intros i Hi.
  apply (collect_option_inv _ _ _ i E) in Hi. apply lookup_lt_is_Some in Hi. done.
Qed.

Lemma filter_ext_elem {A} (P Q : A → Prop) `{∀ x, Decision (P x)} `{∀ x, Decision (Q x)} (l : list A) :
  (∀ x, x ∈ l → P x ↔ Q x) → filter P l = filter Q l.
Proof.
  induction l as [|x l IH]; intros Hl; [done|]. rewrite !filter_cons, IH by (intros; apply Hl; by right).
  assert (P x ↔ Q x) by (apply Hl; left). repeat case_decide; naive_solver.
Qed.

Lemma elem_of_shown (P : Record_ → Prop) `{∀ r, Decision (P r)} n l r :
  r ∈ take n (sort_by clustering (filter P l)) → P r ∧ r ∈ l.
Proof. intros Hr. assert (r ∈ sort_by clustering (filter P l)) as Hr' by (rewrite <- (take_drop n (sort_by _ _)); set_solver).
  clear Hr. rename Hr' into Hr. rewrite sort_by_Permutation in Hr. by apply list_elem_of_filter in Hr. Qed.

Section scans.
Context `{ChronoLaws} `{SqlEngineLaws} `{ArrowLaws}.
Context {E S F T : Type} `{DurableBucketStore E S} `{!StoreLaws E S} `{ArchiveStore F T} `{!ArchiveLaws F T}.

(** Running the stream over one routed page. *)
Lemma execute_page d schedule reads plan pk s e page :
  scan_query plan = mkRouted (Some pk) (Some s) (Some e) → source_schema plan = provider_schema d →
  Forall (λ i, i < 4)%nat (projection plan) → Forall representable (p_records page) →
  let q := mkQuery pk (mkTimeRange s e) None (default usize_max (scan_limit plan)) in
  query_page d schedule (reads q) q = Value (Ok page) →
  ∃ batches, execute d schedule reads plan 0 = Ok (Value (Ok <$> batches)) ∧
    concat (batch_rows <$> batches) = projected_row (projection plan) <$> p_records page.
Proof.
  intros Eq Es Hi Hr q Hp. destruct (record_batches_ok d (projection plan) (p_records page) Hi Hr) as (batches & Eb & Hrows & _).
  exists batches. split; [|done]. unfold execute. rewrite Eq. cbn [rq_partition_key rq_start rq_end ok_or mbind Result_bind Z.eqb negb].
  unfold scan_stream. fold q. rewrite Hp. cbn [mbind Outcome_bind map_err Result_bind]. by rewrite Es, Eb.
Qed.

Lemma logical_page_filter d filters pk s e limit (l : list Record_) : NoDup (field_name <$> provider_schema d) →
  extract_query d filters = Ok (mkRouted (Some pk) (Some s) (Some e)) →
  Forall casts_faithful filters → Forall column_first filters → (∀ r, r ∈ l → r_partition_key r = pk) →
  p_records (logical_page (mkTimeRange s e) None limit l) =
    take (Z.to_nat limit) (sort_by clustering (filter (passes_all d filters) l)).
Proof.
  intros Hnd Eq Hc Hf Hpk. unfold logical_page, matching. simpl. do 2 f_equal. apply filter_ext_elem. intros r Hr.
  rewrite (pushdown_meaning d filters _ r Hnd Eq Hc Hf), Is_true_true. unfold admits, in_page, range_contains. simpl.
  rewrite andb_true_r, andb_true_iff, Z.leb_le, Z.ltb_lt. specialize (Hpk r Hr). naive_solver.
Qed.

(** C16. A scan returns the rows its filters ask for, when the filters are of the kinds the
    provider translates faithfully: every comparison has its column on the left
    ([column_first]; the provider moves the bounds of reversed ones) and every cast leaves its literal
    as it is ([casts_faithful]; the provider ignores casts). Then, for a table whose column names
    differ and over any lawful store and archive that do not change during the scan, if the reads of the buckets of its range succeed,
    keys are unique, the keys shown are UTF-8, the range and the count fit their machine types and
    the adapter keeps the bounds of the range as they are ([precise_for]: always in memory, on
    CockroachDB for whole microseconds), the rows streamed are the projections of the first
    [limit] records, in clustering order, of those that pass every filter; the range always has its
    list of buckets, and no record of another bucket of the table passes the filters. *)
Theorem scan_returns_the_matching_rows d schedule (st : S * T) inputs proj filters limit plan pk s e
    (l : BucketId → list Record_) :
  NoDup (field_name <$> provider_schema d) → scan d proj filters limit = Ok plan →
  Forall casts_faithful filters → Forall column_first filters →
  scan_query plan = mkRouted (Some pk) (Some s) (Some e) →
  i64_min <= s → e <= i64_max → 0 <= default usize_max limit <= usize_max → valid_utf8 pk = true →
  store_inv st.1 → archive_inv st.2 →
  let q := mkQuery pk (mkTimeRange s e) None (default usize_max limit) in
  ∃ bs, buckets_for_range d pk (q_range q) = Value bs ∧
    (∀ b r, bucket_of d (partition_key b) b → in_bucket b r → passes_all d filters r → b ∈ bs) ∧
    ((∀ b, b ∈ bs → logical st b = Some (l b) ∧ Forall (in_bucket b) (l b) ∧
        ∃ rs, task st inputs q b = Value (Ok rs)) →
     precise_for fidelity (q_range q) None (page_capacity (q_limit q)) (length (concat (map l bs))) →
     Z.of_nat (length (concat (map l bs))) <= usize_max → NoDup (clustering <$> concat (map l bs)) →
     Forall (λ r, valid_utf8 (sort_key r) = true) (concat (map l bs)) →
     ∃ batches, execute d schedule (task st inputs) plan 0 = Ok (Value (Ok <$> batches)) ∧
       concat (batch_rows <$> batches) = projected_row (projection plan) <$>
         take (Z.to_nat (q_limit q)) (sort_by clustering (filter (passes_all d filters) (concat (map l bs))))).
Proof.
  intros Hnd Hscan Hc Hf Eq Hs He Hlim Hpk Hst Har q.
  destruct (scan_ok _ _ _ _ _ Hscan) as (q0 & Ex & Eq0 & El & Esrc & Hi & _). rewrite Eq in Eq0. subst q0.
  destruct (extract_query_bounds _ _ _ Ex) as (_ & ? & ? & ? & _ & _ & [= <- <- <-] & Hlt).
  assert (in_range s ∧ in_range e) as [Rs Re] by (split; apply nanos_in_range; lia).
  destruct (buckets_for_range_returns d pk (q_range q) Rs) as [_ [bs Ebs]]; [done|apply nanos_year; simpl; lia|].
  destruct (buckets_nodup d pk (q_range q) bs Rs Hlt Ebs) as [_ Hof]. rewrite Forall_forall in Hof.
  exists bs. split_and!; [done| |].
  - intros b r Hb [Hrp Hrc] Hp. apply (pushdown_meaning d filters _ r Hnd Ex Hc Hf) in Hp as (Hp1 & Hp2 & Hp3).
    simpl in *. assert (partition_key b = pk) as Eb by (rewrite <- Hrp; auto). rewrite Eb in Hb.
    apply (buckets_for_range_covers d pk (q_range q) bs b (event_time r)); try done. simpl. auto.
  - intros Hread Hpre Hlen Hnd' Hsk.
    assert (∀ r, r ∈ concat (map l bs) → r_partition_key r = pk) as Hrpk.
    { intros r (b & Hb & Hin)%elem_of_concat_map. destruct (Hread b Hb) as (_ & HF & _). rewrite Forall_forall in HF.
      destruct (HF r Hin) as [-> _]. apply (Hof b Hb). }
    assert (query_page d schedule (task st inputs q) q = Value (Ok (logical_page (q_range q) None (q_limit q)
      (concat (map l bs))))) as Hpage.
    { destruct (decide (q_limit q = 0)) as [E0|E0].
      - unfold query_page, logical_page. simpl in *. rewrite (proj2 (Z.leb_gt _ _) Hlt), E0. simpl. by destruct (0 <? _).
      - edestruct (query_page_of_content d schedule st inputs q bs l) as (l' & Hp & ->); try done; [simpl in *; lia|].
        do 2 f_equal. apply logical_page_perm; [done|]. by rewrite Hp. }
    rewrite <- (logical_page_filter d filters pk s e) by done.
    eapply execute_page; [done..| |by rewrite El].
    rewrite (logical_page_filter d filters pk s e) by done. apply Forall_forall.
    intros r (Hr & Hin)%elem_of_shown. apply (pushdown_meaning d filters _ r Hnd Ex Hc Hf) in Hr as (_ & Hr2 & Hr3).
    rewrite Forall_forall in Hsk. split_and!; [by rewrite Hrpk|..|by apply Hsk]; simpl in *;
      [specialize (Hr2 _ eq_refl)|specialize (Hr3 _ eq_refl)]; lia.
Qed.
End scans.
