(* ===== verification/Placeholders.v ===== *)
(** * Positional parameters of the SQL sidecar ([src/src/bin/pulpitum-sql-sidecar.rs])

    [placeholder_indices] scans a statement for [$n] outside string literals;
    [placeholder_index] reads one placeholder of a parsed expression;
    [parameter_types_from_indices] gives the types of a read's parameters. The theorems show
    that the scanner always returns, that on the text of a statement made of plain text,
    quoted strings and placeholders it finds exactly the placeholders, and which sets of
    indices are accepted. *)
From Stdlib Require Import ZifyBool ZifyN.
From S2P Require Import Prelude Chrono Model Paths Text.
Local Open Scope Z_scope.

(** ** Errors and types of the wire protocol *)
(** [OtherWireError] is an error of the protocol library itself. *)
Inductive PgWireError :=
  | UserError (severity code message : string)
  | OtherWireError (what : string).
#[export] Instance PgWireError_eq_dec : EqDecision PgWireError.
Proof. solve_decision. Defined.
Definition query_error (message : string) : PgWireError := UserError "ERROR" "0A000" message.

Inductive Type_ := TEXT | TIMESTAMPTZ | INT8 | BYTEA | BOOL | INT2 | INT4 | NUMERIC | FLOAT4 | FLOAT8.
#[export] Instance Type_eq_dec : EqDecision Type_.
Proof. solve_decision. Defined.

(** ** Numbers *)
Definition is_ascii_digit (a : ascii) : bool := let n := N_of_ascii a in ((48 <=? n) && (n <=? 57))%N.
Definition digit_value (a : ascii) : Z := Z.of_N (N_of_ascii a) - 48.
Definition digits_value (acc : Z) (l : list ascii) : Z := foldl (λ acc a, acc * 10 + digit_value a) acc l.
(** [str::parse::<usize>]: an optional plus sign and at least one digit, in range. *)
Definition parse_usize (l : list ascii) : option Z :=
  let digits := match l with "+"%char :: (_ :: _) as rest => rest | _ => l end in
  if bool_decide (digits = []) || negb (forallb is_ascii_digit digits) then None
  else if digits_value 0 digits <=? usize_max then Some (digits_value 0 digits) else None.
Definition positive (index : Z) : bool := 0 <? index.
Definition filter_option {A} (p : A → bool) (o : option A) : option A :=
  match o with Some x => if p x then Some x else None | None => None end.

Example parse_plus : parse_usize (String.list_ascii_of_string "+42") = Some 42.
Proof. reflexivity. Qed.

(** ** The scanner *)
Definition quote : ascii := "'"%char.
Definition dollar : ascii := "$"%char.
Definition starts_with_quote (l : list ascii) : bool :=
  match l with b :: _ => bool_decide (b = quote) | [] => false end.
(** The digits at the front, and what follows them. *)
Fixpoint span_digits (l : list ascii) : list ascii * list ascii :=
  match l with
  | b :: rest => if is_ascii_digit b then let '(ds, rest) := span_digits rest in (b :: ds, rest) else ([], l)
  | [] => ([], [])
  end.

(** The [while offset < bytes.len()] loop; [bytes] are the bytes from [offset] on. *)
Fixpoint scan (fuel : nat) (bytes : list ascii) (in_string : bool) (indices : list Z) :
    Outcome (Result PgWireError (list Z)) :=
  match fuel with
  | O => OutOfFuel
  | S fuel =>
    match bytes with
    | [] => Value (Ok indices)
    | b :: rest =>
      if decide (b = quote) then
        if in_string && starts_with_quote rest then scan fuel (drop 1 rest) in_string indices
        else scan fuel rest (negb in_string) indices
      else if bool_decide (b = dollar) && negb in_string then
        let '(digits, rest) := span_digits rest in
        if bool_decide (digits = [])
        then Value (Err (query_error "SQL parameters must use positional $n placeholders"))
        else match filter_option positive (parse_usize digits) with
        | None => Value (Err (query_error "SQL parameter indexes must start at $1"))
        | Some index => scan fuel rest in_string (indices ++ [index])
        end
      else scan fuel rest in_string indices
    end
  end.
Definition placeholder_indices (statement : string) : Outcome (Result PgWireError (list Z)) :=
  let bytes := String.list_ascii_of_string statement in scan (S (length bytes)) bytes false [].

(** The text of a placeholder of a parsed statement. *)
Definition placeholder_number (text : string) : Result PgWireError Z :=
  ok_or (filter_option positive
    (rest ← strip_prefix "$" text; parse_usize (String.list_ascii_of_string rest)))
    (query_error "SQL parameters must use positional $n placeholders").

(** ** Types of a read *)
Definition highest_index (indices : list Z) : Z := foldr Z.max 0 indices.
(** [for index in 1..=highest]. *)
Fixpoint check_consecutive (n : nat) (index : Z) (indices : list Z) : Result PgWireError unit :=
  match n with
  | O => Ok tt
  | S n =>
      if bool_decide (index ∈ indices) then check_consecutive n (index + 1) indices
      else Err (query_error "SQL parameters must be consecutively numbered")
  end.
Definition parameter_types_from_indices (indices : list Z) (supported : list Type_) :
    Result PgWireError (list Type_) :=
  let highest := highest_index indices in
  if Z.of_nat (length supported) <? highest
  then Err (query_error "SQL statement contains an unsupported parameter")
  else
    _ ← check_consecutive (Z.to_nat highest) 1 indices;
    Ok (take (Z.to_nat highest) supported).
Definition read_supported : list Type_ := [TEXT; TIMESTAMPTZ; TIMESTAMPTZ; INT8].
Definition read_parameter_types (statement : string) : Outcome (Result PgWireError (list Type_)) :=
  res ← placeholder_indices statement;
  Value (indices ← res; parameter_types_from_indices indices read_supported).

(** ** Statements as tokens *)
Inductive token :=
  | Plain (s : list ascii)
  | Quoted (s : list ascii)
  | Param (n : N).
Definition escape (s : list ascii) : list ascii := s ≫= λ a, if decide (a = quote) then [quote; quote] else [a].
Definition number (n : N) : list ascii := String.list_ascii_of_string (pretty n).
Definition render_token (t : token) : list ascii :=
  match t with
  | Plain s => s
  | Quoted s => quote :: escape s ++ [quote]
  | Param n => dollar :: number n
  end.
Definition render (ts : list token) : list ascii := ts ≫= render_token.
Definition next_byte (p : ascii → bool) (l : list ascii) : Prop := match l with b :: _ => p b = true | [] => True end.
(** No token runs into the next one. *)
Fixpoint separated (ts : list token) : Prop :=
  match ts with
  | [] => True
  | t :: ts =>
      (match t with
      | Plain s => (quote ∉ s) ∧ (dollar ∉ s)
      | Quoted _ => next_byte (λ b, negb (bool_decide (b = quote))) (render ts)
      | Param n => (0 < n)%N ∧ Z.of_N n <= usize_max ∧ next_byte (λ b, negb (is_ascii_digit b)) (render ts)
      end) ∧ separated ts
  end.
Definition params (ts : list token) : list Z := omap (λ t, match t with Param n => Some (Z.of_N n) | _ => None end) ts.

(** ** Lemmas *)
Lemma scan_cons fuel b rest in_string indices : scan (S fuel) (b :: rest) in_string indices =
  if decide (b = quote) then
    if in_string && starts_with_quote rest then scan fuel (drop 1 rest) in_string indices
    else scan fuel rest (negb in_string) indices
  else if bool_decide (b = dollar) && negb in_string then
    let '(digits, rest) := span_digits rest in
    if bool_decide (digits = [])
    then Value (Err (query_error "SQL parameters must use positional $n placeholders"))
    else match filter_option positive (parse_usize digits) with
    | None => Value (Err (query_error "SQL parameter indexes must start at $1"))
    | Some index => scan fuel rest in_string (indices ++ [index])
    end
  else scan fuel rest in_string indices.
Proof. done. Qed.
Lemma span_digits_length l ds rest : span_digits l = (ds, rest) → (length rest <= length l)%nat.
Proof.
  revert ds rest. induction l as [|b l IH]; intros ds rest; simpl; [by intros [= <- <-]|].
  destruct (is_ascii_digit b); [|intros [= <- <-]; simpl; lia].
  destruct (span_digits l) as [ds' rest'] eqn:E. intros [= <- <-]. specialize (IH _ _ eq_refl). lia.
Qed.
(** Enough fuel: every iteration consumes a byte. *)
Lemma scan_fuel fuel bytes in_string indices : (length bytes < fuel)%nat → scan fuel bytes in_string indices ≠ OutOfFuel.
Proof.
  revert bytes in_string indices. induction fuel as [|fuel IH]; intros bytes in_string indices Hl; [lia|].
  destruct bytes as [|b rest]; [done|]. simpl in Hl. cbn [scan].
  destruct (decide (b = quote)).
  { destruct (_ && _); apply IH; [rewrite length_drop|]; lia. }
  destruct (_ && _); [|apply IH; lia].
  destruct (span_digits rest) as [ds rest'] eqn:E. apply span_digits_length in E.
  case_bool_decide; [done|]. destruct (filter_option _ _); [|done]. apply IH. lia.
Qed.
Lemma scan_no_panic fuel bytes in_string indices : scan fuel bytes in_string indices ≠ Panicked.
Proof.
  revert bytes in_string indices. induction fuel as [|fuel IH]; intros bytes in_string indices; [done|].
  destruct bytes as [|b rest]; [done|]. cbn [scan]. destruct (decide (b = quote)); [destruct (_ && _); apply IH|].
  destruct (_ && _); [|apply IH]. destruct (span_digits rest) as [ds rest']. case_bool_decide; [done|].
  destruct (filter_option _ _); [apply IH|done].
Qed.
(** Running it on more fuel changes nothing. *)
Lemma scan_more fuel fuel' bytes in_string indices : (length bytes < fuel)%nat → (length bytes < fuel')%nat →
  scan fuel bytes in_string indices = scan fuel' bytes in_string indices.
Proof.
  revert fuel' bytes in_string indices. induction fuel as [|fuel IH]; intros fuel' bytes in_string indices Hl Hl'; [lia|].
  destruct fuel' as [|fuel']; [lia|]. destruct bytes as [|b rest]; [done|]. simpl in Hl, Hl'. cbn [scan].
  destruct (decide (b = quote)).
  { destruct (_ && _); apply IH; rewrite ?length_drop; lia. }
  destruct (_ && _); [|apply IH; lia].
  destruct (span_digits rest) as [ds rest'] eqn:E. apply span_digits_length in E.
  case_bool_decide; [done|]. destruct (filter_option _ _); [|done]. apply IH; lia.
Qed.

(** ** Numbers print and parse *)
Lemma pretty_char_digit n : (n < 10)%N → is_ascii_digit (pretty_N_char n) = true ∧ digit_value (pretty_N_char n) = Z.of_N n.
Proof.
  intros Hn. assert (n = 0 ∨ n = 1 ∨ n = 2 ∨ n = 3 ∨ n = 4 ∨ n = 5 ∨ n = 6 ∨ n = 7 ∨ n = 8 ∨ n = 9)%N as Hc by lia.
  by destruct_or! Hc; subst n.
Qed.
Lemma pretty_go_digits (x : N) s : forallb is_ascii_digit (String.list_ascii_of_string s) = true →
  forallb is_ascii_digit (String.list_ascii_of_string (pretty_N_go x s)) = true ∧
  digits_value 0 (String.list_ascii_of_string (pretty_N_go x s)) =
    digits_value (Z.of_N x) (String.list_ascii_of_string s).
Proof.
  revert s. induction (N.lt_wf_0 x) as [x _ IH]; intros s Hs.
  assert (x = 0 ∨ 0 < x)%N as [->|Hx] by lia; [by rewrite pretty_N_go_0|].
  rewrite pretty_N_go_step by done. destruct (pretty_char_digit (x mod 10)) as [Hd Hv]; [by apply N.mod_lt|].
  destruct (IH (x / 10)%N ltac:(by apply N.div_lt) (String (pretty_N_char (x mod 10)) s)) as [IH1 IH2].
  { simpl. by rewrite Hd. }
  split; [done|]. rewrite IH2. simpl. unfold digits_value. simpl. rewrite Hv. f_equal.
  pose proof (N.div_mod x 10). lia.
Qed.
Lemma number_digits n : forallb is_ascii_digit (number n) = true ∧ digits_value 0 (number n) = Z.of_N n ∧ number n ≠ [].
Proof.
  unfold number, pretty, pretty_N. case_decide as Hn; [by subst|].
  destruct (pretty_go_digits n "" eq_refl) as [Hd Hv]. split_and!; [done|by rewrite Hv|].
  intros E. rewrite E in Hv. unfold digits_value in Hv. simpl in Hv. lia.
Qed.
Lemma parse_usize_digits l : l ≠ [] → forallb is_ascii_digit l = true → digits_value 0 l <= usize_max →
  parse_usize l = Some (digits_value 0 l).
Proof.
  intros Hne Hd Hv. unfold parse_usize. assert (match l with "+"%char :: (_ :: _) as rest => rest | _ => l end = l) as ->.
  { destruct l as [|b [|c l]]; [done|by repeat case_match|]. destruct (decide (b = "+"%char)) as [->|Hb]; [done|].
    repeat case_match; simplify_eq; done. }
  rewrite bool_decide_eq_false_2, Hd by done. simpl. by rewrite (proj2 (Z.leb_le _ _) Hv).
Qed.
Lemma parse_number n : Z.of_N n <= usize_max → parse_usize (number n) = Some (Z.of_N n).
Proof.
  intros Hn. destruct (number_digits n) as (Hd & Hv & Hne). rewrite parse_usize_digits, Hv; [done|done|done|lia].
Qed.
Lemma span_digits_app ds rest : forallb is_ascii_digit ds = true → next_byte (λ b, negb (is_ascii_digit b)) rest →
  span_digits (ds ++ rest) = (ds, rest).
Proof.
  intros Hd Hr. induction ds as [|b ds IH]; simpl.
  - destruct rest as [|b rest]; [done|]. simpl in *. by rewrite (proj1 (negb_true_iff _) Hr).
  - simpl in Hd. apply andb_prop in Hd as [Hb Hd]. by rewrite Hb, (IH Hd).
Qed.

(** ** Tokens are scanned one by one *)
Lemma render_cons t ts : render (t :: ts) = render_token t ++ render ts.
Proof. done. Qed.
Lemma scan_plain s rest indices fuel : quote ∉ s → dollar ∉ s → (length (s ++ rest) < fuel)%nat →
  scan fuel (s ++ rest) false indices = scan fuel rest false indices.
Proof.
  intros Hq Hd. revert fuel. induction s as [|b s IH]; intros fuel Hl; [done|].
  apply not_elem_of_cons in Hq as [Hq1 Hq]. apply not_elem_of_cons in Hd as [Hd1 Hd].
  destruct fuel as [|fuel]; [simpl in Hl; lia|]. cbn [app]. rewrite scan_cons, decide_False by done.
  rewrite bool_decide_eq_false_2 by done. simpl in Hl. cbn [andb].
  rewrite IH by (done || lia). apply scan_more; rewrite length_app in Hl; lia.
Qed.
Lemma scan_quoted s rest indices fuel : next_byte (λ b, negb (bool_decide (b = quote))) rest →
  (length (escape s ++ quote :: rest) < fuel)%nat →
  scan fuel (escape s ++ quote :: rest) true indices = scan fuel rest false indices.
Proof.
  intros Hr. revert fuel. induction s as [|b s IH]; intros fuel Hl.
  - destruct fuel as [|fuel]; [simpl in Hl; lia|]. cbn [escape mbind list_bind app]. rewrite scan_cons, decide_True by done.
    assert (starts_with_quote rest = false) as ->.
    { destruct rest as [|b rest]; [done|]. simpl in *. by apply negb_true_iff. }
    cbn [andb negb]. simpl in Hl. apply scan_more; lia.
  - change (escape (b :: s)) with ((if decide (b = quote) then [quote; quote] else [b]) ++ escape s) in *.
    destruct (decide (b = quote)) as [->|Hb]; (destruct fuel as [|fuel]; [simpl in Hl; lia|]); cbn [app] in *; rewrite scan_cons.
    + rewrite decide_True by done. cbn [starts_with_quote andb drop]. rewrite bool_decide_eq_true_2 by done.
      simpl in Hl. rewrite drop_0, IH by lia. apply scan_more; rewrite length_app in Hl; simpl in Hl; lia.
    + rewrite decide_False by done. rewrite andb_false_r. simpl in Hl. rewrite IH by lia.
      apply scan_more; rewrite length_app in Hl; simpl in Hl; lia.
Qed.
Lemma scan_tokens ts indices fuel : separated ts → (length (render ts) < fuel)%nat →
  scan fuel (render ts) false indices = Value (Ok (indices ++ params ts)).
Proof.
  revert indices fuel. induction ts as [|t ts IH]; intros indices fuel Hs Hl.
  { destruct fuel; [simpl in Hl; lia|]. simpl. by rewrite app_nil_r. }
  rewrite render_cons in *. destruct Hs as [Ht Hs]. rewrite length_app in Hl.
  destruct t as [s|s|n]; simpl render_token in *.
  - destruct Ht as [Hq Hd]. rewrite scan_plain, IH; try done; [lia|rewrite length_app; lia].
  - destruct fuel as [|fuel]; [simpl in Hl; lia|]. simpl in Hl. rewrite length_app in Hl. simpl in Hl.
    cbn [app]. rewrite scan_cons, decide_True by done. cbn [andb negb]. rewrite <- app_assoc. cbn [app].
    rewrite scan_quoted, IH; try done; [lia|]. rewrite length_app. simpl. lia.
  - destruct Ht as (Hn & Hm & Hr). destruct (number_digits n) as (Hd & Hv & Hne).
    destruct fuel as [|fuel]; [simpl in Hl; lia|]. simpl in Hl. cbn [app].
    rewrite scan_cons, decide_False by done. rewrite bool_decide_eq_true_2 by done. cbn [andb negb].
    rewrite span_digits_app, bool_decide_eq_false_2, parse_number by done.
    cbn [filter_option]. unfold positive. rewrite (proj2 (Z.ltb_lt 0 (Z.of_N n))) by lia.
    rewrite IH by (done || lia). by rewrite <- app_assoc.
Qed.

(** ** Theorems *)
(** C26. The placeholder scanner finds the placeholders: on every statement it returns, and on the
    text of a sequence of plain text, string literals (with their quotes doubled) and
    placeholders, no token running into the next, it returns the placeholders' numbers in
    order, whatever the string literals contain. *)
Theorem scanner_finds_the_placeholders :
  (∀ statement, placeholder_indices statement ≠ OutOfFuel ∧ placeholder_indices statement ≠ Panicked) ∧
  (∀ ts, separated ts → placeholder_indices (String.string_of_list_ascii (render ts)) = Value (Ok (params ts))).
Proof.
  split.
  - intros statement. unfold placeholder_indices. split; [apply scan_fuel; lia|]. apply scan_no_panic.
  - intros ts Hs. unfold placeholder_indices. rewrite String.list_ascii_of_string_of_list_ascii.
    apply (scan_tokens ts []); [done|lia].
Qed.

Lemma highest_index_spec indices : Forall (λ i, 1 <= i) indices →
  (∀ i, i ∈ indices → i <= highest_index indices) ∧ (0 < highest_index indices → highest_index indices ∈ indices) ∧
  0 <= highest_index indices.
Proof.
  induction 1 as [|i l Hi _ (IH1 & IH2 & IH3)]; [simpl; set_solver by lia|].
  change (highest_index (i :: l)) with (Z.max i (highest_index l)). split_and!; [|intros _|lia].
  - intros j [->|Hj%IH1]%elem_of_cons; lia.
  - destruct (Z.max_spec i (highest_index l)) as [[? ->]|[? ->]]; [right; apply IH2; lia|left].
Qed.
Lemma check_consecutive_ok n index indices :
  check_consecutive n index indices = Ok tt ↔ ∀ i, index <= i < index + Z.of_nat n → i ∈ indices.
Proof.
  revert index. induction n as [|n IH]; intros index; cbn [check_consecutive]; [split; [intros; lia|done]|].
  case_bool_decide as Hin.
  - rewrite IH. split; intros Hall i Hi; [|apply Hall; lia].
    destruct (decide (i = index)) as [->|]; [done|]. apply Hall. lia.
  - split; [done|]. intros Hall. destruct Hin. apply Hall. lia.
Qed.

(** Positional parameters are accepted exactly when the numbers used are 1 up to some number
    of the supported types, and their types are the first ones. *)
Theorem read_parameters_accepted_exactly indices supported ts : Forall (λ i, 1 <= i) indices →
  parameter_types_from_indices indices supported = Ok ts ↔
  ∃ n : nat, (n <= length supported)%nat ∧ (∀ i, i ∈ indices ↔ 1 <= i <= Z.of_nat n) ∧ ts = take n supported.
Proof.
  intros Hpos. destruct (highest_index_spec indices Hpos) as (Hmax & Hin & H0). unfold parameter_types_from_indices.
  set (h := highest_index indices) in *. rewrite Forall_forall in Hpos. split.
  - destruct (_ <? _) eqn:Hl; [done|]. zbool. destruct (check_consecutive _ _ _) as [[]|] eqn:Ec; [|done].
    intros [= <-]. exists (Z.to_nat h). rewrite check_consecutive_ok in Ec.
    split_and!; [lia| |done]. intros i. split; [intros Hi; split; [by apply Hpos|]; specialize (Hmax i Hi); lia|].
    intros Hi. apply Ec. lia.
  - intros (n & Hn & Hall & ->). assert (h = Z.of_nat n) as ->.
    { destruct (decide (0 < h)) as [Hh|Hh].
      - apply Hin, Hall in Hh. destruct (decide (n = 0%nat)); [lia|]. specialize (Hmax (Z.of_nat n)). rewrite Hall in Hmax. lia.
      - destruct (decide (n = 0%nat)); [lia|]. specialize (Hmax (Z.of_nat n)). rewrite Hall in Hmax. lia. }
    rewrite (proj2 (Z.ltb_ge _ _)) by lia. rewrite Nat2Z.id.
    rewrite (proj2 (check_consecutive_ok n 1 indices)); [done|]. intros i Hi. apply Hall. lia.
Qed.

(** The scanner's numbers start at one. *)
Lemma scan_positive fuel bytes in_string indices res : scan fuel bytes in_string indices = Value (Ok res) →
  Forall (λ i, 1 <= i) indices → Forall (λ i, 1 <= i) res.
Proof.
  revert bytes in_string indices. induction fuel as [|fuel IH]; intros bytes in_string indices; [done|].
  destruct bytes as [|b rest]; [by intros [= <-]|]. rewrite scan_cons.
  destruct (decide (b = quote)); [destruct (_ && _); apply IH|]. destruct (_ && _); [|apply IH].
  destruct (span_digits rest) as [ds rest']. case_bool_decide; [done|].
  destruct (parse_usize ds) as [i|]; [|done]. cbn [filter_option]. unfold positive. destruct (0 <? i) eqn:Hi; [|done].
  intros Hs Hf. apply (IH _ _ _ Hs). apply Forall_app. split; [done|]. apply Forall_singleton. zbool. lia.
Qed.
Lemma placeholder_indices_positive statement indices : placeholder_indices statement = Value (Ok indices) →
  Forall (λ i, 1 <= i) indices.
Proof. intros E. by eapply scan_positive. Qed.
