(* ===== verification/Gateway.v ===== *)
(** * The SQL sidecar ([src/src/bin/pulpitum-sql-sidecar.rs])

    The sidecar answers PostgreSQL clients: a statement is parsed, an INSERT of one row is
    turned into a record and appended, a query goes to DataFusion, and everything else is
    refused. The SQL parser, the session of DataFusion, the decoding of bound parameters and
    the encoding of result fields are third-party code: the parser and RFC 3339 are the class
    [SqlFrontend], the others are arguments. The theorems show which statements get through
    and to what effect, that an INSERT appends the record it spells whether its values are
    literals or bound, and that handling a statement, its append included, panics only for one
    kind of hexadecimal literal and for records of the last representable year. *)
From Stdlib Require Import ZifyBool ZifyN.
From S2P Require Import Prelude Chrono Model Schema Storage Paths Text Prog Table DataFusion Placeholders.
Local Open Scope Z_scope.

(** ** Results that may panic *)
Definition and_then {E A B} (m : Outcome (Result E A)) (k : A → Outcome (Result E B)) : Outcome (Result E B) :=
  match m with
  | Value (Ok a) => k a
  | Value (Err e) => Value (Err e)
  | Panicked => Panicked
  | OutOfFuel => OutOfFuel
  end.
Notation "x <~ m ; k" := (and_then m (λ x, k))
  (at level 20, m at level 100, k at level 200, only parsing) : rust_scope.
Local Open Scope rust_scope.

(** ** Parsed statements *)
(** The parts the sidecar only tests for presence are the text they were written as. *)
Inductive SqlValue :=
  | SingleQuotedString (s : string)
  | Placeholder (s : string)
  | OtherValue (tag : string).
Inductive TimezoneInfo := NoTimezone | WithTimeZone | WithoutTimeZone | Tz.
Inductive SqlDataType := SqlTimestamp (precision : option Z) (tz : TimezoneInfo) | OtherSqlType (tag : string).
Inductive SqlExpr :=
  | ValueExpr (value : SqlValue)
  | TypedString (data_type : SqlDataType) (value : SqlValue)
  | OtherSqlExpr (tag : string).
Inductive SetExpr := Values (rows : list (list SqlExpr)) | OtherSetExpr (tag : string).
Record SqlQuery := mkSqlQuery {
  sq_with : option string;
  sq_body : SetExpr;
  sq_order_by : option string;
  sq_limit_clause : option string;
  sq_fetch : option string;
  sq_locks : list string;
  sq_for_clause : option string;
  sq_settings : option string;
  sq_format_clause : option string;
  sq_pipe_operators : list string
}.
Inductive TableObject := TableName (name : string) | OtherTable (tag : string).
Record SqlInsert := mkSqlInsert {
  ins_table : TableObject;
  ins_table_alias : option string;
  ins_columns : list string;
  ins_overwrite : bool;
  ins_source : option SqlQuery;
  ins_assignments : list string;
  ins_partitioned : option string;
  ins_after_columns : list string;
  ins_has_table_keyword : bool;
  ins_on : option string;
  ins_returning : option string;
  ins_replace_into : bool;
  ins_priority : option string;
  ins_insert_alias : option string;
  ins_settings : option string;
  ins_format_clause : option string;
  ins_multi_table_insert_type : option string;
  ins_multi_table_into_clauses : list string;
  ins_multi_table_when_clauses : list string;
  ins_multi_table_else_clause : option string
}.
Inductive Statement := Insert (insert : SqlInsert) | Query_ (query : SqlQuery) | OtherStatement (tag : string).

Class SqlFrontend := {
  (** [Parser::parse_sql] with the PostgreSQL dialect. *)
  parse_sql : string → option (list Statement);
  (** [Value::into_string] *)
  into_string : SqlValue → option string;
  (** [DateTime::parse_from_rfc3339], converted to UTC *)
  parse_from_rfc3339 : string → option Z
}.
Class SqlFrontendLaws `{SqlFrontend} : Prop := {
  quoted_into_string s : into_string (SingleQuotedString s) = Some s;
  placeholder_into_string s : into_string (Placeholder s) = None
}.

Inductive GatewayStatementKind := KindInsert | KindRead.
#[export] Instance GatewayStatementKind_eq_dec : EqDecision GatewayStatementKind.
Proof. solve_decision. Defined.

Definition is_nil {A} (l : list A) : bool := match l with [] => true | _ => false end.

(** ** INSERT statements *)
Section frontend.
Context `{SqlFrontend}.

Definition gateway_statement_kind (statement : string) : Result PgWireError GatewayStatementKind :=
  statements ← ok_or (parse_sql statement) (query_error "unsupported SQL statement");
  match statements with
  | [Insert _] => Ok KindInsert
  | [Query_ _] => Ok KindRead
  | [_] => Err (query_error "only read-only queries and supported INSERT statements are allowed")
  | _ => Err (query_error "exactly one SQL statement is required")
  end.

(** The clauses an INSERT must not have. *)
Definition insert_has_extras (i : SqlInsert) : bool :=
  is_some (ins_table_alias i) || ins_overwrite i || is_some (ins_returning i)
  || negb (is_nil (ins_assignments i)) || is_some (ins_on i) || is_some (ins_partitioned i)
  || negb (is_nil (ins_after_columns i)) || ins_has_table_keyword i || ins_replace_into i
  || is_some (ins_priority i) || is_some (ins_insert_alias i) || is_some (ins_settings i)
  || is_some (ins_format_clause i) || is_some (ins_multi_table_insert_type i)
  || negb (is_nil (ins_multi_table_into_clauses i)) || negb (is_nil (ins_multi_table_when_clauses i))
  || is_some (ins_multi_table_else_clause i).
Definition source_has_extras (q : SqlQuery) : bool :=
  is_some (sq_with q) || is_some (sq_order_by q) || is_some (sq_limit_clause q) || is_some (sq_fetch q)
  || negb (is_nil (sq_locks q)) || is_some (sq_for_clause q) || is_some (sq_settings q)
  || is_some (sq_format_clause q) || negb (is_nil (sq_pipe_operators q)).
Definition eq_ignore_ascii_case (s t : string) : bool :=
  bool_decide (to_ascii_lowercase s = to_ascii_lowercase t).

Definition message_columns : list string := ["channel_id"; "timestamp"; "id"; "value"].
(** [for (column, expression) in insert.columns.into_iter().zip(expressions)]. *)
Fixpoint insert_columns (columns : list (string * SqlExpr)) (values : gmap string SqlExpr) :
    Result PgWireError (gmap string SqlExpr) :=
  match columns with
  | [] => Ok values
  | (column, expression) :: columns =>
      let column := to_ascii_lowercase column in
      match values !! column with
      | Some _ => Err (query_error "INSERT contains duplicate columns")
      | None => insert_columns columns (<[column := expression]> values)
      end
  end.
Definition single_row (source : option SqlQuery) : Result PgWireError (list SqlExpr) :=
  source ← ok_or source (query_error "INSERT must use a single VALUES row");
  if source_has_extras source then Err (query_error "INSERT must use a single VALUES row")
  else match sq_body source with
  | Values [row] => Ok row
  | Values _ => Err (query_error "INSERT must contain exactly one row")
  | OtherSetExpr _ => Err (query_error "INSERT must use a single VALUES row")
  end.
Definition insert_values (insert : SqlInsert) (expected_table : string) :
    Result PgWireError (gmap string SqlExpr) :=
  if insert_has_extras insert then Err (query_error "unsupported INSERT statement")
  else match ins_table insert with
  | OtherTable _ => Err (query_error "INSERT target must be the messages table")
  | TableName table_name =>
    if negb (eq_ignore_ascii_case table_name expected_table)
    then Err (query_error "INSERT target must be the messages table")
    else if negb (bool_decide (length (ins_columns insert) = 4%nat))
    then Err (query_error "INSERT must provide every messages column")
    else
      expressions ← single_row (ins_source insert);
      if negb (bool_decide (length expressions = length (ins_columns insert)))
      then Err (query_error "INSERT column and value counts must match")
      else
        values ← insert_columns (zip (ins_columns insert) expressions) ∅;
        if negb (forallb (λ column, is_some (values !! column)) message_columns)
        then Err (query_error "INSERT must provide every messages column")
        else if negb (bool_decide (size values = 4%nat))
        then Err (query_error "INSERT must provide only messages columns")
        else Ok values
  end.
Definition parse_insert_values (statement expected_table : string) :
    Result PgWireError (gmap string SqlExpr) :=
  statements ← ok_or (parse_sql statement) (query_error "unsupported INSERT statement");
  match statements with
  | [Insert insert] => insert_values insert expected_table
  | [_] => Err (query_error "unsupported INSERT statement")
  | _ => Err (query_error "exactly one INSERT statement is required")
  end.

(** ** Literals *)
Definition string_literal (e : SqlExpr) : Result PgWireError string :=
  match e with
  | ValueExpr value => ok_or (into_string value) (query_error "INSERT values must be string literals")
  | _ => Err (query_error "INSERT values must be string literals")
  end.
Definition timestamp_literal (e : SqlExpr) : Result PgWireError Z :=
  match e with
  | TypedString (SqlTimestamp _ (Tz | WithTimeZone)) value =>
      value ← ok_or (into_string value) (query_error "INSERT timestamp must be a TIMESTAMPTZ literal");
      ok_or (parse_from_rfc3339 value) (query_error "INSERT timestamp must be an RFC 3339 value")
  | _ => Err (query_error "INSERT timestamp must be a TIMESTAMPTZ literal")
  end.

(** [char::to_digit(16)] *)
Definition hex_value (a : ascii) : option N :=
  let n := N_of_ascii a in
  if ((48 <=? n) && (n <=? 57))%N then Some (n - 48)%N
  else if ((65 <=? n) && (n <=? 70))%N then Some (n - 55)%N
  else if ((97 <=? n) && (n <=? 102))%N then Some (n - 87)%N
  else None.
(** [u8::from_str_radix] of two characters: a leading plus sign is accepted. *)
Definition u8_from_hex (a b : ascii) : option byte :=
  hi ← (if decide (a = "+"%char) then Some 0%N else hex_value a);
  lo ← hex_value b;
  Byte.of_N (hi * 16 + lo).
(** [str::is_char_boundary] before the given bytes. *)
Definition is_char_boundary (rest : list ascii) : bool :=
  match rest with [] => true | b :: _ => let n := N_of_ascii b in negb ((128 <=? n) && (n <=? 191))%N end.
Definition invalid_hex : PgWireError := query_error "INSERT bytea hexadecimal value is invalid".
(** The digits two by two; slicing a string inside a character panics. *)
Fixpoint hex_pairs (l : list ascii) : Outcome (Result PgWireError (list byte)) :=
  match l with
  | [] => Value (Ok [])
  | [_] => Panicked
  | a :: b :: rest =>
      if negb (is_char_boundary rest) then Panicked
      else match u8_from_hex a b with
      | None => Value (Err invalid_hex)
      | Some x => xs <~ hex_pairs rest; Value (Ok (x :: xs))
      end
  end.
Definition bytea_literal (e : SqlExpr) : Outcome (Result PgWireError (list byte)) :=
  value <~ Value (string_literal e);
  match strip_prefix "\x" value with
  | Some digits =>
      if Nat.odd (String.length digits) then Value (Err invalid_hex)
      else hex_pairs (String.list_ascii_of_string digits)
  | None => Value (Ok (string_bytes value))
  end.

(** [values.remove(column).expect("columns were validated")]. *)
Definition column_expr (values : gmap string SqlExpr) (column : string) : Outcome (Result PgWireError SqlExpr) :=
  e ← expect (values !! column); Value (Ok e).
Definition parse_insert (statement expected_table : string) : Outcome (Result PgWireError Record_) :=
  values <~ Value (parse_insert_values statement expected_table);
  channel <~ column_expr values "channel_id";
  pk <~ Value (string_literal channel);
  timestamp <~ column_expr values "timestamp";
  t <~ Value (timestamp_literal timestamp);
  id <~ column_expr values "id";
  sk <~ Value (string_literal id);
  value <~ column_expr values "value";
  v <~ bytea_literal value;
  Value (Ok (mkRecord (key_from_string pk) t (key_from_string sk) v)).
End frontend.

(** ** Bound parameters *)
(** What the protocol library decodes of a bound statement: the number of parameters, and each
    one as the requested type ([None] is NULL). Indices start at zero. *)
Record Portal := mkPortal {
  parameter_len : Z;
  parameter_text : Z → Result PgWireError (option string);
  parameter_timestamptz : Z → Result PgWireError (option Z);
  parameter_bytea : Z → Result PgWireError (option (list byte));
  parameter_int8 : Z → Result PgWireError (option Z)
}.

Definition validate_parameter_count (portal : Portal) (expected : nat) : Result PgWireError unit :=
  if parameter_len portal =? Z.of_nat expected then Ok tt
  else Err (query_error "SQL bind parameter count does not match the statement").
Definition required_parameter {A} (value : option A) : Result PgWireError A :=
  ok_or value (query_error "SQL bind parameters cannot be NULL").

Definition placeholder_index (e : SqlExpr) : Result PgWireError (option Z) :=
  match e with
  | ValueExpr (Placeholder text) => Some <$> placeholder_number text
  | _ => Ok None
  end.

Definition column_types : list (string * Type_) :=
  [("channel_id", TEXT); ("timestamp", TIMESTAMPTZ); ("id", TEXT); ("value", BYTEA)].
Fixpoint collect_parameter_types (columns : list (string * Type_)) (values : gmap string SqlExpr)
    (types : gmap Z Type_) : Outcome (Result PgWireError (gmap Z Type_)) :=
  match columns with
  | [] => Value (Ok types)
  | (column, parameter_type) :: columns =>
      expression <~ column_expr values column;
      index <~ Value (placeholder_index expression);
      match index with
      | None => collect_parameter_types columns values types
      | Some index =>
          if (match types !! index with Some existing => negb (bool_decide (existing = parameter_type)) | None => false end)
          then Value (Err (query_error "a parameter cannot be used for different column types"))
          else collect_parameter_types columns values (<[index := parameter_type]> types)
      end
  end.
(** [(1..=highest).map(|index| types.remove(&index).ok_or(..)).collect()]: the iteration stops
    at the first missing index, so one unit of fuel per type and one more is enough. *)
Fixpoint consecutive_types (fuel : nat) (index highest : Z) (types : gmap Z Type_) :
    Outcome (Result PgWireError (list Type_)) :=
  match fuel with
  | O => OutOfFuel
  | S fuel =>
      if highest <? index then Value (Ok [])
      else match types !! index with
      | None => Value (Err (query_error "SQL parameters must be consecutively numbered"))
      | Some t => rest <~ consecutive_types fuel (index + 1) highest (delete index types); Value (Ok (t :: rest))
      end
  end.
Definition highest_key (types : gmap Z Type_) : Z := highest_index (map_to_list types).*1.
Definition insert_parameter_types (values : gmap string SqlExpr) : Outcome (Result PgWireError (list Type_)) :=
  types <~ collect_parameter_types column_types values ∅;
  consecutive_types (S (size types)) 1 (highest_key types) types.

Definition read_parameter (portal : Portal) (index : Z) (parameter_type : Type_) : Result PgWireError ScalarValue :=
  match parameter_type with
  | TEXT =>
      value ← parameter_text portal index;
      value ← required_parameter value;
      Ok (Utf8 (Some value))
  | TIMESTAMPTZ =>
      value ← parameter_timestamptz portal index;
      value ← required_parameter value;
      nanos ← ok_or (timestamp_nanos_opt value)
                (query_error "timestamp parameter is outside Arrow nanosecond range");
      Ok (TimestampNanosecond (Some nanos) (Some "UTC"))
  | INT8 =>
      value ← parameter_int8 portal index;
      value ← required_parameter value;
      Ok (Int64 (Some value))
  | _ => Err (query_error "SQL statement contains an unsupported parameter")
  end.
Fixpoint read_parameters (portal : Portal) (index : Z) (types : list Type_) : Result PgWireError (list ScalarValue) :=
  match types with
  | [] => Ok []
  | t :: types =>
      value ← read_parameter portal index t;
      rest ← read_parameters portal (index + 1) types;
      Ok (value :: rest)
  end.
Definition read_parameter_values (portal : Portal) (statement : string) :
    Outcome (Result PgWireError (list ScalarValue)) :=
  parameter_types <~ read_parameter_types statement;
  _ <~ Value (validate_parameter_count portal (length parameter_types));
  Value (read_parameters portal 0 parameter_types).

(** ** The gateway *)
(** What a statement asks the sidecar to do, once it was accepted. *)
Inductive action :=
  | AppendRecord (r : Record_)
  | RunQuery (statement : string) (parameters : option (list ScalarValue)).

Section gateway.
Context `{SqlFrontend} (table_name : string).

Definition string_value (e : SqlExpr) (portal : Portal) : Result PgWireError string :=
  index ← placeholder_index e;
  match index with
  | None => string_literal e
  | Some index => value ← parameter_text portal (index - 1); required_parameter value
  end.
Definition timestamp_value (e : SqlExpr) (portal : Portal) : Result PgWireError Z :=
  index ← placeholder_index e;
  match index with
  | None => timestamp_literal e
  | Some index => value ← parameter_timestamptz portal (index - 1); required_parameter value
  end.
Definition bytea_value (e : SqlExpr) (portal : Portal) : Outcome (Result PgWireError (list byte)) :=
  index <~ Value (placeholder_index e);
  match index with
  | None => bytea_literal e
  | Some index => Value (value ← parameter_bytea portal (index - 1); required_parameter value)
  end.
Definition parse_bound_insert (statement : string) (portal : Portal) : Outcome (Result PgWireError Record_) :=
  values <~ Value (parse_insert_values statement table_name);
  parameter_types <~ insert_parameter_types values;
  _ <~ Value (validate_parameter_count portal (length parameter_types));
  channel <~ column_expr values "channel_id";
  pk <~ Value (string_value channel portal);
  timestamp <~ column_expr values "timestamp";
  t <~ Value (timestamp_value timestamp portal);
  id <~ column_expr values "id";
  sk <~ Value (string_value id portal);
  value <~ column_expr values "value";
  v <~ bytea_value value portal;
  Value (Ok (mkRecord (key_from_string pk) t (key_from_string sk) v)).

Definition parameter_types_for_statement (statement : string) : Outcome (Result PgWireError (list Type_)) :=
  kind <~ Value (gateway_statement_kind statement);
  match kind with
  | KindInsert => values <~ Value (parse_insert_values statement table_name); insert_parameter_types values
  | KindRead => read_parameter_types statement
  end.

(** [execute_with_parameters] up to its first effect. *)
Definition gateway_action (statement : string) (portal : option Portal) : Outcome (Result PgWireError action) :=
  kind <~ Value (gateway_statement_kind statement);
  match kind with
  | KindInsert =>
      record <~ match portal with
                | Some portal => parse_bound_insert statement portal
                | None => parse_insert statement table_name
                end;
      Value (Ok (AppendRecord record))
  | KindRead =>
      match portal with
      | Some portal =>
          parameters <~ read_parameter_values portal statement;
          Value (Ok (RunQuery statement (Some parameters)))
      | None => Value (Ok (RunQuery statement None))
      end
  end.
End gateway.

(** ** Results *)
Inductive FieldFormat := FormatText | FormatBinary.
#[export] Instance FieldFormat_eq_dec : EqDecision FieldFormat.
Proof. solve_decision. Defined.
Record FieldInfo := mkFieldInfo { fi_name : string; fi_type : Type_; fi_format : FieldFormat }.

Definition pg_type (t : DataType) : Result PgWireError Type_ :=
  match t with
  | TypeUtf8 | TypeLargeUtf8 => Ok TEXT
  | TypeBinary | TypeLargeBinary => Ok BYTEA
  | TypeTimestamp _ _ => Ok TIMESTAMPTZ
  | TypeBoolean => Ok BOOL
  | TypeInt8 | TypeInt16 => Ok INT2
  | TypeInt32 => Ok INT4
  | TypeInt64 => Ok INT8
  | TypeUInt8 | TypeUInt16 | TypeUInt32 => Ok INT8
  | TypeUInt64 => Ok NUMERIC
  | TypeFloat16 | TypeFloat32 => Ok FLOAT4
  | TypeFloat64 => Ok FLOAT8
  | OtherType _ => Err (query_error "query result contains an unsupported data type")
  end.
(** [format_for] is [Format::format_for]. *)
Fixpoint fields_from (index : nat) (fields : list Field) (format_for : nat → FieldFormat) :
    Result PgWireError (list FieldInfo) :=
  match fields with
  | [] => Ok []
  | f :: fields =>
      t ← pg_type (data_type f);
      rest ← fields_from (S index) fields format_for;
      Ok (mkFieldInfo (field_name f) t (format_for index) :: rest)
  end.
Definition fields_from_schema (fields : list Field) (format_for : nat → FieldFormat) :
    Result PgWireError (list FieldInfo) := fields_from 0 fields format_for.

(** The arrays of a query result, by the concrete type a downcast finds. *)
Inductive ArrayCells :=
  | StringCells (cells : list (option string))
  | LargeStringCells (cells : list (option string))
  | BinaryCells (cells : list (option (list byte)))
  | LargeBinaryCells (cells : list (option (list byte)))
  | TimestampNanosecondCells (cells : list (option Z))
  | OtherCells (nulls : list bool) (tag : string).
Record ResultColumn := mkResultColumn { rc_type : DataType; rc_cells : ArrayCells }.
Record ResultBatch := mkResultBatch { rb_columns : list ResultColumn; rb_num_rows : nat }.
Definition cell_null {A} (cells : list (option A)) (row : nat) : bool :=
  match cells !! row with Some (Some _) => false | _ => true end.
Definition is_null (c : ResultColumn) (row : nat) : bool :=
  match rc_cells c with
  | StringCells cells | LargeStringCells cells => cell_null cells row
  | BinaryCells cells | LargeBinaryCells cells => cell_null cells row
  | TimestampNanosecondCells cells => cell_null cells row
  | OtherCells nulls _ => default true (nulls !! row)
  end.

(** A value handed to the row encoder. *)
Inductive FieldValue :=
  | FieldNull
  | FieldText (s : string)
  | FieldBytes (b : list byte)
  | FieldTimestamp (t : Z).
Definition not_encoded : PgWireError := query_error "query result could not be encoded".
Definition text_cell (cells : list (option string)) (row : nat) : Result PgWireError FieldValue :=
  match cells !! row with Some (Some s) => Ok (FieldText s) | _ => Err not_encoded end.
Definition bytes_cell (cells : list (option (list byte))) (row : nat) : Result PgWireError FieldValue :=
  match cells !! row with Some (Some b) => Ok (FieldBytes b) | _ => Err not_encoded end.

Section results.
(** [array_value_to_string] and [DataRowEncoder::encode_field]. *)
Context (array_value_to_string : ResultColumn → nat → option string).
Context (encode_field : FieldInfo → FieldValue → Result PgWireError (option (list byte))).

Definition field_value (field : FieldInfo) (c : ResultColumn) (row : nat) : Result PgWireError FieldValue :=
  if is_null c row then Ok FieldNull
  else match rc_type c, rc_cells c with
  | TypeUtf8, StringCells cells => text_cell cells row
  | TypeLargeUtf8, LargeStringCells cells => text_cell cells row
  | TypeBinary, BinaryCells cells => bytes_cell cells row
  | TypeLargeBinary, LargeBinaryCells cells => bytes_cell cells row
  | TypeTimestamp Nanosecond _, TimestampNanosecondCells cells =>
      match cells !! row with
      | Some (Some t) => Ok (FieldTimestamp (from_timestamp_nanos t))
      | _ => Err not_encoded
      end
  | (TypeUtf8 | TypeLargeUtf8 | TypeBinary | TypeLargeBinary | TypeTimestamp Nanosecond _), _ => Err not_encoded
  | _, _ =>
      if decide (fi_format field = FormatText)
      then ok_or (FieldText <$> array_value_to_string c row) not_encoded
      else Err not_encoded
  end.
(** One row; [fields] are indexed by column, which panics when there are too few. *)
Fixpoint encode_row (fields : list FieldInfo) (cols : list ResultColumn) (row : nat) :
    Outcome (Result PgWireError (list (option (list byte)))) :=
  match cols, fields with
  | [], _ => Value (Ok [])
  | _ :: _, [] => Panicked
  | c :: cols, field :: fields =>
      value <~ Value (field_value field c row);
      cell <~ Value (encode_field field value);
      rest <~ encode_row fields cols row;
      Value (Ok (cell :: rest))
  end.
Fixpoint encode_batch (fields : list FieldInfo) (b : ResultBatch) (rows : list nat) :
    Outcome (Result PgWireError (list (list (option (list byte))))) :=
  match rows with
  | [] => Value (Ok [])
  | row :: rows =>
      first <~ encode_row fields (rb_columns b) row;
      rest <~ encode_batch fields b rows;
      Value (Ok (first :: rest))
  end.
Fixpoint encode_rows (batches : list ResultBatch) (fields : list FieldInfo) :
    Outcome (Result PgWireError (list (list (option (list byte))))) :=
  match batches with
  | [] => Value (Ok [])
  | b :: batches =>
      first <~ encode_batch fields b (seq 0 (rb_num_rows b));
      rest <~ encode_rows batches fields;
      Value (Ok (first ++ rest))
  end.

(** ** Handlers *)
Inductive Response :=
  | Execution_ (tag : string) (rows : Z)
  | QueryResponse (fields : list FieldInfo) (rows : list (list (option (list byte)))).

Context `{SqlFrontend} (table_name : string).
(** The DataFusion session and the table. *)
Context {DataFrame : Type} (session_sql : string → option DataFrame).
Context (with_param_values : DataFrame → list ScalarValue → option DataFrame).
Context (dataframe_schema : DataFrame → list Field) (dataframe_collect : DataFrame → option (list ResultBatch)).
Context (append : Record_ → Outcome (Result DurableTableError unit)).

Definition dataframe (statement : string) : Result PgWireError DataFrame :=
  ok_or (session_sql statement) (query_error "query could not be planned").
Definition dataframe_with_parameters (statement : string) (parameters : list ScalarValue) :
    Result PgWireError DataFrame :=
  df ← dataframe statement;
  ok_or (with_param_values df parameters) (query_error "query parameters could not be bound").

Definition perform_action (format_for : nat → FieldFormat) (a : action) : Outcome (Result PgWireError Response) :=
  match a with
  | AppendRecord record =>
      _ <~ (res ← append record; Value (map_err (λ _, query_error "record could not be appended") res));
      Value (Ok (Execution_ "INSERT 0" 1))
  | RunQuery statement parameters =>
      df <~ Value (match parameters with
                   | Some parameters => dataframe_with_parameters statement parameters
                   | None => dataframe statement
                   end);
      fields <~ Value (fields_from_schema (dataframe_schema df) format_for);
      batches <~ Value (ok_or (dataframe_collect df) (query_error "query could not be executed"));
      rows <~ encode_rows batches fields;
      Value (Ok (QueryResponse fields rows))
  end.
Definition execute_with_parameters (statement : string) (format_for : nat → FieldFormat) (portal : option Portal) :
    Outcome (Result PgWireError Response) :=
  a <~ gateway_action table_name statement portal;
  perform_action format_for a.

(** [ExtendedQueryHandler::do_query] *)
Definition extended_do_query (statement : string) (format_for : nat → FieldFormat) (portal : Portal) :
    Outcome (Result PgWireError Response) :=
  parameter_types <~ parameter_types_for_statement table_name statement;
  _ <~ Value (validate_parameter_count portal (length parameter_types));
  execute_with_parameters statement format_for (Some portal).
(** [SimpleQueryHandler::do_query] *)
Definition simple_do_query (query : string) : Outcome (Result PgWireError (list Response)) :=
  if is_blank query then Value (Ok [])
  else response <~ execute_with_parameters query (λ _, FormatText) None; Value (Ok [response]).

Definition do_describe_statement (statement : string) :
    Outcome (Result PgWireError (list Type_ * list FieldInfo)) :=
  kind <~ Value (gateway_statement_kind statement);
  fields <~ Value (match kind with
    | KindInsert => _ ← parse_insert_values statement table_name; Ok []
    | KindRead => df ← dataframe statement; fields_from_schema (dataframe_schema df) (λ _, FormatText)
    end);
  parameter_types <~ parameter_types_for_statement table_name statement;
  Value (Ok (parameter_types, fields)).
Definition do_describe_portal (statement : string) (format_for : nat → FieldFormat) :
    Outcome (Result PgWireError (list FieldInfo)) :=
  kind <~ Value (gateway_statement_kind statement);
  Value (match kind with
    | KindInsert => _ ← parse_insert_values statement table_name; Ok []
    | KindRead => df ← dataframe statement; fields_from_schema (dataframe_schema df) format_for
    end).
End results.

(** ** Query shapes for telemetry *)
Inductive GatewayQueryShape := ShapeInsert | ShapeSelect | ShapeCount | ShapeOther.
Definition is_ascii_alphabetic (a : ascii) : bool := is_letter a.
(** The leading letters, and what follows them. *)
Fixpoint leading_word (s : string) : string * string :=
  match s with
  | String a s' => if is_ascii_alphabetic a then let '(w, rest) := leading_word s' in (String a w, rest) else ("", s)
  | EmptyString => ("", "")
  end.
Definition from_statement (statement : string) : GatewayQueryShape :=
  let '(operation, rest) := leading_word (trim_start statement) in
  if eq_ignore_ascii_case operation "INSERT" then ShapeInsert
  else if negb (eq_ignore_ascii_case operation "SELECT") then ShapeOther
  else if eq_ignore_ascii_case (leading_word (trim_start rest)).1 "COUNT" then ShapeCount else ShapeSelect.
Definition operation_name (shape : GatewayQueryShape) : string :=
  match shape with ShapeInsert => "INSERT" | ShapeSelect | ShapeCount => "SELECT" | ShapeOther => "OTHER" end.
Definition shape_summary (shape : GatewayQueryShape) (table_name : string) : string :=
  match shape with
  | ShapeInsert => "INSERT " +:+ table_name
  | ShapeSelect => "SELECT " +:+ table_name
  | ShapeCount => "SELECT COUNT " +:+ table_name
  | ShapeOther => "OTHER " +:+ table_name
  end.
Definition shape_template (shape : GatewayQueryShape) (table_name : string) : string :=
  match shape with
  | ShapeInsert => "INSERT INTO " +:+ table_name +:+ " (channel_id, timestamp, id, value) VALUES ($1, $2, $3, $4)"
  | ShapeSelect => "SELECT timestamp, id, value FROM " +:+ table_name +:+
      " WHERE channel_id = $1 AND timestamp >= $2 AND timestamp < $3 ORDER BY timestamp ASC, id ASC LIMIT $4"
  | ShapeCount => "SELECT COUNT(*) AS message_count FROM " +:+ table_name +:+
      " WHERE channel_id = $1 AND timestamp >= $2 AND timestamp < $3"
  | ShapeOther => "OTHER SQL statement against " +:+ table_name
  end.
Definition telemetry_query_template (statement table_name : string) (capture_query_text : bool) : string :=
  if capture_query_text then trim statement else shape_template (from_statement statement) table_name.

Example shape_of_count : from_statement "  select Count(*) FROM messages" = ShapeCount.
Proof. reflexivity. Qed.

(** ** Lemmas *)
Lemma and_then_ok {E A B} (m : Outcome (Result E A)) (k : A → Outcome (Result E B)) b :
  and_then m k = Value (Ok b) ↔ ∃ a, m = Value (Ok a) ∧ k a = Value (Ok b).
Proof. destruct m as [[a|e]| |]; simpl; naive_solver. Qed.
Lemma and_then_panicked {E A B} (m : Outcome (Result E A)) (k : A → Outcome (Result E B)) :
  and_then m k = Panicked ↔ m = Panicked ∨ ∃ a, m = Value (Ok a) ∧ k a = Panicked.
Proof. destruct m as [[a|e]| |]; simpl; naive_solver. Qed.
Lemma and_then_fuel {E A B} (m : Outcome (Result E A)) (k : A → Outcome (Result E B)) :
  m ≠ OutOfFuel → (∀ a, m = Value (Ok a) → k a ≠ OutOfFuel) → and_then m k ≠ OutOfFuel.
Proof. destruct m as [[a|e]| |]; simpl; naive_solver. Qed.
Create HintDb gateway.
#[export] Hint Resolve and_then_fuel : gateway.

(** The columns of an INSERT, in lower case, with their expressions. *)
Definition lower_columns (cols : list (string * SqlExpr)) : list (string * SqlExpr) :=
  prod_map to_ascii_lowercase id <$> cols.
Lemma insert_columns_ok cols m m' : insert_columns cols m = Ok m' ↔
  NoDup (lower_columns cols).*1 ∧ (∀ c, c ∈ (lower_columns cols).*1 → m !! c = None) ∧
  m' = list_to_map (lower_columns cols) ∪ m.
Proof.
  revert m. induction cols as [|[c e] cols IH]; intros m; cbn [insert_columns].
  - simpl. rewrite (left_id_L ∅ (∪)). split; [intros [= <-]; split_and!; [constructor|set_solver|done]|naive_solver].
  - cbn [lower_columns fmap list_fmap prod_map fst snd]. set (c' := to_ascii_lowercase c).
    destruct (m !! c') as [e'|] eqn:Em.
    + split; [done|]. intros (_ & Hn & _). rewrite (Hn c') in Em; [done|left].
    + rewrite IH, NoDup_cons. simpl. unfold lower_columns in *. split.
      * intros (Hnd & Hn & ->). split_and!; [|done|..].
        -- intros Hc. apply Hn in Hc. by rewrite lookup_insert_eq in Hc.
        -- intros c0 [->|Hc]%elem_of_cons; [done|]. apply Hn in Hc. by apply lookup_insert_None in Hc as [? _].
        -- rewrite <- insert_union_r; [by rewrite insert_union_l|].
           apply not_elem_of_list_to_map_1. intros Hc. apply Hn in Hc. by rewrite lookup_insert_eq in Hc.
      * intros ((Hc & Hnd) & Hn & ->). split_and!; [done| |].
        -- intros c0 Hc0. rewrite lookup_insert_ne by (intros ->; done). apply Hn. by right.
        -- rewrite <- insert_union_r; [by rewrite insert_union_l|]. by apply not_elem_of_list_to_map_1.
Qed.
Lemma lower_columns_zip cols row : length row = length cols →
  lower_columns (zip cols row) = zip (to_ascii_lowercase <$> cols) row.
Proof.
  revert row. induction cols as [|c cols IH]; intros [|e row] Hl; try done. simpl in *. f_equal. apply IH. lia.
Qed.
Lemma four_columns cols : NoDup cols → length cols = 4%nat → (∀ c, c ∈ message_columns → c ∈ cols) → cols ≡ₚ message_columns.
Proof.
  intros Hnd Hl Hin. symmetry. apply submseteq_length_Permutation; [|by rewrite Hl].
  apply NoDup_submseteq; [|done]. apply (bool_decide_unpack _). by vm_compute.
Qed.
Lemma is_some_lookup {A} (m : gmap string A) c : is_some (m !! c) = true ↔ c ∈ dom m.
Proof. rewrite elem_of_dom. destruct (m !! c); simpl; split; naive_solver. Qed.

Definition source_row (source : option SqlQuery) (row : list SqlExpr) : Prop :=
  ∃ q, source = Some q ∧ source_has_extras q = false ∧ sq_body q = Values [row].
Lemma single_row_ok source row : single_row source = Ok row ↔ source_row source row.
Proof.
  unfold single_row, source_row. split.
  - destruct source as [q|]; [|done]. cbn [ok_or mbind Result_bind]. destruct (source_has_extras q) eqn:E; [done|].
    destruct (sq_body q) as [[|r [|]]|] eqn:Eb; try done. intros [= <-]. eauto.
  - intros (q & -> & E & Eb). cbn [ok_or mbind Result_bind]. by rewrite E, Eb.
Qed.

(** What an INSERT must look like. *)
Definition plain_insert (i : SqlInsert) (expected_table : string) (row : list SqlExpr) : Prop :=
  insert_has_extras i = false ∧
  (∃ name, ins_table i = TableName name ∧ to_ascii_lowercase name = to_ascii_lowercase expected_table) ∧
  (to_ascii_lowercase <$> ins_columns i) ≡ₚ message_columns ∧ source_row (ins_source i) row ∧ length row = 4%nat.
Lemma insert_values_ok i tbl m : insert_values i tbl = Ok m ↔
  ∃ row, plain_insert i tbl row ∧ m = list_to_map (zip (to_ascii_lowercase <$> ins_columns i) row).
Proof.
  unfold insert_values, plain_insert, eq_ignore_ascii_case. split.
  - destruct (insert_has_extras i); [done|]. destruct (ins_table i) as [name|]; [|done].
    case_bool_decide as Hname; [|done]. case_bool_decide as Hlen; [|done]. cbn [negb].
    destruct (single_row (ins_source i)) as [row|] eqn:Erow; [|done]. cbn [mbind Result_bind].
    case_bool_decide as Hrow; [|done]. cbn [negb].
    destruct (insert_columns _ _) as [m0|] eqn:Em; [|done]. cbn [mbind Result_bind].
    destruct (forallb _ message_columns) eqn:Hall; [|done]. cbn [negb]. case_bool_decide; [|done]. intros [= <-].
    apply insert_columns_ok in Em as (Hnd & _ & ->). rewrite lower_columns_zip in * by done.
    rewrite (right_id_L ∅ (∪)) in *. exists row. rewrite fst_zip in Hnd by (rewrite length_fmap; lia).
    split_and!; [done|eauto| |by apply single_row_ok|lia|done].
    apply four_columns; [done|by rewrite length_fmap|]. intros c Hc.
    rewrite forallb_forall in Hall. apply list_elem_of_In, Hall, is_some_lookup in Hc.
    rewrite dom_list_to_map_L, elem_of_list_to_set, fst_zip in Hc by (rewrite length_fmap; lia). done.
  - intros (row & (-> & (name & -> & Hname) & Hperm & Hrow & Hlen) & ->).
    assert (length (ins_columns i) = 4%nat) as Hl by (rewrite <- (length_fmap to_ascii_lowercase), Hperm; done).
    rewrite !bool_decide_eq_true_2 by done. cbn [negb]. rewrite (proj2 (single_row_ok _ _) Hrow). cbn [mbind Result_bind].
    rewrite bool_decide_eq_true_2 by lia. cbn [negb].
    assert ((zip (to_ascii_lowercase <$> ins_columns i) row).*1 = to_ascii_lowercase <$> ins_columns i) as Hfst
      by (apply fst_zip; rewrite length_fmap; lia).
    assert (NoDup message_columns) as Hnd by (apply (bool_decide_unpack _); by vm_compute).
    rewrite (proj2 (insert_columns_ok _ _ (list_to_map (zip (to_ascii_lowercase <$> ins_columns i) row)))).
    2: { rewrite lower_columns_zip, Hfst by lia. split_and!; [by rewrite Hperm|intros; apply lookup_empty|].
         by rewrite (right_id_L ∅ (∪)). }
    cbn [mbind Result_bind].
    assert (dom (list_to_map (zip (to_ascii_lowercase <$> ins_columns i) row) : gmap string SqlExpr)
      = list_to_set message_columns) as Hdom by (rewrite dom_list_to_map_L, Hfst; by rewrite Hperm).
    assert (forallb (λ column, is_some ((list_to_map (zip (to_ascii_lowercase <$> ins_columns i) row) : gmap string SqlExpr)
      !! column)) message_columns = true) as ->.
    { apply forallb_forall. intros c Hc%list_elem_of_In. apply is_some_lookup. rewrite Hdom. by apply elem_of_list_to_set. }
    cbn [negb]. rewrite bool_decide_eq_true_2; [done|]. rewrite <- size_dom, Hdom. by vm_compute.
Qed.
Lemma parse_insert_values_ok `{SqlFrontend} statement tbl m : parse_insert_values statement tbl = Ok m ↔
  ∃ i, parse_sql statement = Some [Insert i] ∧ insert_values i tbl = Ok m.
Proof.
  unfold parse_insert_values. split.
  - destruct (parse_sql statement) as [[|[i|q|] [|]]|]; try done. simpl. eauto.
  - intros (i & -> & E). done.
Qed.

(** The expression of each column of an accepted INSERT. *)
Lemma insert_values_lookup i tbl row (m : gmap string SqlExpr) c : plain_insert i tbl row →
  m = list_to_map (zip (to_ascii_lowercase <$> ins_columns i) row) → c ∈ message_columns → is_Some (m !! c).
Proof.
  intros (_ & _ & Hperm & _ & Hlen) -> Hc. apply elem_of_dom. rewrite dom_list_to_map_L, elem_of_list_to_set, fst_zip.
  - by rewrite Hperm.
  - rewrite Hperm. by rewrite Hlen.
Qed.
Lemma column_expr_ok (values : gmap string SqlExpr) c e : values !! c = Some e → column_expr values c = Value (Ok e).
Proof. unfold column_expr. by intros ->. Qed.
(** A row written in the order of the columns. *)
Lemma insert_row_lookup (f : string → SqlExpr) cols c : NoDup cols → c ∈ cols →
  (list_to_map (zip cols (f <$> cols)) : gmap string SqlExpr) !! c = Some (f c).
Proof.
  intros Hnd Hc. apply elem_of_list_to_map_1.
  - by rewrite fst_zip by (by rewrite length_fmap).
  - clear Hnd. induction cols as [|c' cols IH]; [by apply not_elem_of_nil in Hc|]. simpl.
    apply elem_of_cons in Hc as [->|Hc]; [left|right; auto].
Qed.

(** ** Hexadecimal values *)
Lemma hex_value_digit n : (n < 16)%N → hex_value (hex_digit n) = Some n ∧ hex_digit n ≠ "+"%char ∧ (N_of_ascii (hex_digit n) < 128)%N.
Proof.
  intros Hn. assert (n = 0 ∨ n = 1 ∨ n = 2 ∨ n = 3 ∨ n = 4 ∨ n = 5 ∨ n = 6 ∨ n = 7 ∨ n = 8 ∨ n = 9 ∨ n = 10 ∨
    n = 11 ∨ n = 12 ∨ n = 13 ∨ n = 14 ∨ n = 15)%N as Hc by lia.
  by destruct_or! Hc; subst n.
Qed.
Lemma value_nibbles (b : byte) : (N.shiftr (Byte.to_N b) 4 < 16)%N ∧ (N.land (Byte.to_N b) 15 < 16)%N ∧
  (N.shiftr (Byte.to_N b) 4 * 16 + N.land (Byte.to_N b) 15 = Byte.to_N b)%N.
Proof. by destruct b; vm_compute. Qed.
Lemma ascii_boundary b rest : (N_of_ascii b < 128)%N → is_char_boundary (b :: rest) = true.
Proof. simpl. intros. lia. Qed.
Lemma hex_pairs_round_trip v : hex_pairs (String.list_ascii_of_string (partition_key_path_component v)) = Value (Ok v).
Proof.
  induction v as [|b v IH]; [done|]. destruct (value_nibbles b) as (H1 & H2 & Hb).
  destruct (hex_value_digit _ H1) as (E1 & P1 & _), (hex_value_digit _ H2) as (E2 & _ & _).
  cbn [partition_key_path_component String.list_ascii_of_string hex_pairs].
  assert (is_char_boundary (String.list_ascii_of_string (partition_key_path_component v)) = true) as ->.
  { destruct v as [|b' v]; [done|]. apply ascii_boundary, hex_value_digit, value_nibbles. }
  cbn [negb]. unfold u8_from_hex. rewrite decide_False, E1, E2 by done. cbn [mbind option_bind].
  by rewrite Hb, Byte.of_to_N, IH.
Qed.
Lemma hex_length v : String.length (partition_key_path_component v) = (2 * length v)%nat.
Proof. induction v as [|b v IH]; [done|]. simpl. rewrite IH. lia. Qed.
Lemma list_ascii_length s : length (String.list_ascii_of_string s) = String.length s.
Proof. induction s as [|a s IH]; simpl; congruence. Qed.
(** ASCII digits are never cut. *)
Lemma hex_pairs_ascii l : Nat.Even (length l) → Forall (λ a, (N_of_ascii a < 128)%N) l → hex_pairs l ≠ Panicked.
Proof.
  intros [n Hn]. revert l Hn. induction n as [|n IH]; intros l Hn HF; [by destruct l|].
  destruct l as [|a [|b l]]; [done|simpl in Hn; lia|]. simpl in Hn. cbn [hex_pairs].
  apply Forall_cons in HF as [_ HF]. apply Forall_cons in HF as [_ HF].
  assert (is_char_boundary l = true) as ->.
  { destruct l as [|c l]; [done|]. apply Forall_cons in HF as [Hc _]. by apply ascii_boundary. }
  cbn [negb]. destruct (u8_from_hex a b); [|done]. rewrite and_then_panicked. intros [E|(? & _ & E)]; [|done].
  by apply IH in E; [|lia|].
Qed.
Lemma hex_pairs_fuel l : hex_pairs l ≠ OutOfFuel.
Proof.
  assert (∀ n l, (length l <= n)%nat → hex_pairs l ≠ OutOfFuel) as Hf; [|by apply (Hf (length l))].
  clear l. induction n as [|n IH]; intros l Hl; [by destruct l; [|simpl in Hl; lia]|].
  destruct l as [|a [|b l]]; [done..|]. simpl in Hl. cbn [hex_pairs]. destruct (negb _); [done|].
  destruct (u8_from_hex a b); [|done]. apply and_then_fuel; [apply IH; lia|done].
Qed.

Section literals.
Context `{SqlFrontendLaws}.

Lemma bytea_hex v :
  bytea_literal (ValueExpr (SingleQuotedString ("\x" +:+ partition_key_path_component v))) = Value (Ok v).
Proof.
  unfold bytea_literal, string_literal. rewrite quoted_into_string. cbn [ok_or and_then].
  rewrite strip_prefix_app, hex_length. rewrite <- Nat.negb_even, Nat.even_mul. simpl. apply hex_pairs_round_trip.
Qed.
Lemma bytea_literal_fuel e : bytea_literal e ≠ OutOfFuel.
Proof.
  unfold bytea_literal. apply and_then_fuel; [done|]. intros value _. destruct (strip_prefix _ _); [|done].
  destruct (Nat.odd _); [done|apply hex_pairs_fuel].
Qed.
Lemma bytea_literal_panics e : bytea_literal e = Panicked →
  ∃ text, string_literal e = Ok ("\x" +:+ text) ∧ ∃ a, a ∈ String.list_ascii_of_string text ∧ (128 <= N_of_ascii a)%N.
Proof.
  unfold bytea_literal. rewrite and_then_panicked. intros [?|(value & [= Ev] & E)]; [done|].
  destruct (strip_prefix "\x" value) as [text|] eqn:Ep; [|done]. apply strip_prefix_Some in Ep as ->.
  destruct (Nat.odd (String.length text)) eqn:Eo; [done|]. exists text. split; [done|].
  destruct (decide (Forall (λ a, (N_of_ascii a < 128)%N) (String.list_ascii_of_string text))) as [HF|HF].
  - exfalso. revert E. apply hex_pairs_ascii; [|done]. rewrite list_ascii_length. apply Nat.even_spec. by rewrite <- Nat.negb_odd, Eo.
  - apply not_Forall_Exists, Exists_exists in HF as (a & Ha & Hge); [|apply _]. exists a. split; [done|]. simpl in Hge. lia.
Qed.
End literals.

(** ** Parameter numbers of an INSERT *)
Lemma placeholder_number_ok n : (0 < n)%N → Z.of_N n <= usize_max → placeholder_number ("$" +:+ pretty n) = Ok (Z.of_N n).
Proof.
  intros Hn Hm. unfold placeholder_number. rewrite strip_prefix_app. cbn [mbind option_bind].
  fold (number n). rewrite parse_number by done. cbn [filter_option]. unfold positive.
  by rewrite (proj2 (Z.ltb_lt 0 (Z.of_N n))) by lia.
Qed.
Lemma consecutive_types_fuel fuel index highest types : (size types < fuel)%nat →
  consecutive_types fuel index highest types ≠ OutOfFuel.
Proof.
  revert index types. induction fuel as [|fuel IH]; intros index types Hs; [lia|]. cbn [consecutive_types].
  destruct (_ <? _); [done|]. destruct (types !! index) as [t|] eqn:Et; [|done]. apply and_then_fuel; [|done].
  assert (size types ≠ 0%nat) by (intros E0%map_size_empty_inv; by rewrite E0, lookup_empty in Et).
  apply IH. rewrite map_size_delete_Some by done. lia.
Qed.
Lemma consecutive_types_no_panic fuel index highest types : consecutive_types fuel index highest types ≠ Panicked.
Proof.
  revert index types. induction fuel as [|fuel IH]; intros index types; [done|]. cbn [consecutive_types].
  destruct (_ <? _); [done|]. destruct (types !! index) as [t|]; [|done].
  rewrite and_then_panicked. intros [E|(? & _ & E)]; [by apply IH in E|done].
Qed.
Lemma consecutive_types_ok fuel index highest types : (Z.to_nat (highest - index + 1) < fuel)%nat →
  (∀ i, index <= i <= highest → is_Some (types !! i)) →
  ∃ ts, consecutive_types fuel index highest types = Value (Ok ts) ∧ length ts = Z.to_nat (highest - index + 1).
Proof.
  revert index types. induction fuel as [|fuel IH]; intros index types Hf Hin; [lia|]. cbn [consecutive_types].
  destruct (highest <? index) eqn:Hl; zbool; [exists []; split; [done|simpl; lia]|].
  destruct (Hin index) as [t Et]; [lia|]. rewrite Et.
  destruct (IH (index + 1) (delete index types)) as (ts & -> & Hts); [lia| |].
  { intros i Hi. rewrite lookup_delete_ne by lia. apply Hin. lia. }
  exists (t :: ts). split; [done|]. simpl. rewrite Hts. lia.
Qed.
Lemma elem_of_keys (types : gmap Z Type_) i : i ∈ (map_to_list types).*1 ↔ is_Some (types !! i).
Proof.
  rewrite list_elem_of_fmap. split.
  - intros ([j t] & -> & Hj%elem_of_map_to_list). eauto.
  - intros [t Et]. exists (i, t). split; [done|]. by apply elem_of_map_to_list.
Qed.
Lemma consecutive_types_all types n : (∀ i, is_Some (types !! i) ↔ 1 <= i <= Z.of_nat n) →
  ∃ ts, consecutive_types (S (size types)) 1 (highest_key types) types = Value (Ok ts) ∧ length ts = n.
Proof.
  intros Hin. assert (highest_key types = Z.of_nat n) as ->.
  { unfold highest_key. destruct (highest_index_spec (map_to_list types).*1) as (Hmax & Hel & H0).
    { apply Forall_forall. intros i Hi%elem_of_keys%Hin. lia. }
    set (h := highest_index _) in *. destruct (decide (0 < h)) as [Hh|Hh].
    - apply Hel, elem_of_keys, Hin in Hh. specialize (Hmax (Z.of_nat n)). rewrite elem_of_keys, Hin in Hmax. lia.
    - destruct (decide (n = 0%nat)); [lia|]. specialize (Hmax (Z.of_nat n)). rewrite elem_of_keys, Hin in Hmax. lia. }
  assert (n <= size types)%nat as Hn.
  { rewrite <- size_dom. transitivity (size (list_to_set (seqZ 1 (Z.of_nat n)) : gset Z)).
    - rewrite size_list_to_set by apply NoDup_seqZ. rewrite length_seqZ. lia.
    - apply subseteq_size. intros i [Hi ?]%elem_of_list_to_set%elem_of_seqZ. apply elem_of_dom, Hin. lia. }
  destruct (consecutive_types_ok (S (size types)) 1 (Z.of_nat n) types) as (ts & E & Hts); [lia|intros; by apply Hin|].
  exists ts. split; [done|lia].
Qed.

(** Values with one placeholder for each column, numbered 1 to 4 in some order. *)
Definition bound_expr (num : string → N) (c : string) : SqlExpr := ValueExpr (Placeholder ("$" +:+ pretty (num c))).
Lemma bound_parameter_types num values : (num <$> message_columns) ≡ₚ [1; 2; 3; 4]%N →
  (∀ c, c ∈ message_columns → values !! c = Some (bound_expr num c)) →
  ∃ ts, insert_parameter_types values = Value (Ok ts) ∧ length ts = 4%nat.
Proof.
  intros Hperm Hv. assert (∀ c, c ∈ message_columns → (1 <= num c <= 4)%N) as Hr.
  { intros c Hc. assert (num c ∈ num <$> message_columns) as Hin by (by apply list_elem_of_fmap_2).
    rewrite Hperm in Hin. set_solver by lia. }
  assert (NoDup (num <$> message_columns)) as Hnd by (rewrite Hperm; apply (bool_decide_unpack _); by vm_compute).
  assert (∀ c, c ∈ message_columns → placeholder_index (bound_expr num c) = Ok (Some (Z.of_N (num c)))) as Hp.
  { intros c Hc. cbn [placeholder_index bound_expr]. specialize (Hr c Hc).
    rewrite placeholder_number_ok; [done|lia|unfold usize_max; lia]. }
  assert (∀ c, c ∈ message_columns → column_expr values c = Value (Ok (bound_expr num c))) as Hcol
    by (intros c Hc; by apply column_expr_ok, Hv).
  unfold insert_parameter_types, column_types, message_columns in *. cbn [fmap list_fmap] in Hnd.
  cbn [collect_parameter_types]. rewrite !NoDup_cons, !not_elem_of_cons in Hnd.
  rewrite !Hcol by set_solver. cbn [and_then]. rewrite !Hp by set_solver. cbn [and_then].
  rewrite lookup_empty. rewrite (lookup_insert_ne _ (Z.of_N (num "channel_id")) (Z.of_N (num "timestamp"))) by lia.
  rewrite lookup_empty.
  rewrite !(lookup_insert_ne _ _ (Z.of_N (num "id"))), lookup_empty by lia.
  rewrite !(lookup_insert_ne _ _ (Z.of_N (num "value"))), lookup_empty by lia.
  cbn [and_then]. apply (consecutive_types_all _ 4). intros i.
  assert (i ∈ (Z.of_N <$> (num <$> ["channel_id"; "timestamp"; "id"; "value"])) ↔ 1 <= i <= 4) as <-.
  { rewrite Hperm. simpl. set_solver by lia. }
  rewrite <- elem_of_dom, !dom_insert_L, dom_empty_L. cbn [fmap list_fmap].
  rewrite !elem_of_union, !elem_of_singleton, !elem_of_cons, elem_of_empty, elem_of_nil. clear. tauto.
Qed.

(** ** Panics and fuel *)
(** A computation that returns, unless it panics for the stated reason. *)
Definition returns_unless {A} (P : Prop) (m : Outcome A) : Prop := m ≠ OutOfFuel ∧ (m = Panicked → P).
Lemma returns_value {A} P (a : A) : returns_unless P (Value a).
Proof. done. Qed.
Lemma returns_and_then {E A B} P (m : Outcome (Result E A)) (k : A → Outcome (Result E B)) :
  returns_unless P m → (∀ a, m = Value (Ok a) → returns_unless P (k a)) → returns_unless P (and_then m k).
Proof. unfold returns_unless. destruct m as [[a|e]| |]; simpl; naive_solver. Qed.
Lemma returns_column P (values : gmap string SqlExpr) c : is_Some (values !! c) → returns_unless P (column_expr values c).
Proof. unfold column_expr. by intros [e ->]. Qed.
#[export] Hint Resolve returns_value returns_and_then returns_column : gateway.

Lemma collect_types_returns P columns (values : gmap string SqlExpr) types :
  Forall (λ ct, is_Some (values !! ct.1)) columns → returns_unless P (collect_parameter_types columns values types).
Proof.
  intros HF. revert types. induction HF as [|[c t] columns Hc _ IH]; intros types; [done|].
  cbn [collect_parameter_types]. apply returns_and_then; [by apply returns_column|]. intros e _.
  apply returns_and_then; [done|]. intros [index|] _; [|done]. case_match; done.
Qed.
Lemma insert_types_returns P values : (∀ c, c ∈ message_columns → is_Some (values !! c)) →
  returns_unless P (insert_parameter_types values).
Proof.
  intros Hv. unfold insert_parameter_types. apply returns_and_then.
  - apply collect_types_returns. unfold column_types. repeat constructor; apply Hv; set_solver.
  - intros types _. split; [apply consecutive_types_fuel; lia|]. by intros ?%consecutive_types_no_panic.
Qed.
Lemma read_types_returns P statement : returns_unless P (read_parameter_types statement).
Proof.
  unfold read_parameter_types, placeholder_indices. set (bytes := String.list_ascii_of_string statement).
  pose proof (scan_fuel (S (length bytes)) bytes false [] ltac:(lia)) as Hf.
  pose proof (scan_no_panic (S (length bytes)) bytes false []) as Hn. split; destruct (scan _ _ _ _); done.
Qed.

(** ** What the gateway lets through *)
Section theorems.
Context `{SqlFrontendLaws} (table_name : string).

(** INSERT statements are accepted exactly when the text parses to one INSERT into the table
    (up to ASCII case) without any optional clause, whose columns are the four message
    columns in some order and case, with one VALUES row of four expressions; each column gets
    the expression written in its place. *)
Theorem insert_accepted_exactly statement m :
  parse_insert_values statement table_name = Ok m ↔
  ∃ i row, parse_sql statement = Some [Insert i] ∧ plain_insert i table_name row ∧
    m = list_to_map (zip (to_ascii_lowercase <$> ins_columns i) row).
Proof. rewrite parse_insert_values_ok. setoid_rewrite insert_values_ok. naive_solver. Qed.

(** The literals of a record. *)
Definition spelled (p t_text k : string) (v : list byte) (c : string) : SqlExpr :=
  if decide (c = "channel_id") then ValueExpr (SingleQuotedString p)
  else if decide (c = "timestamp") then TypedString (SqlTimestamp None Tz) (SingleQuotedString t_text)
  else if decide (c = "id") then ValueExpr (SingleQuotedString k)
  else ValueExpr (SingleQuotedString ("\x" +:+ partition_key_path_component v)).
(** A portal that binds the record's fields at the given numbers. *)
Definition binds (portal : Portal) (num : string → N) (p : string) (t : Z) (k : string) (v : list byte) : Prop :=
  parameter_len portal = 4 ∧
  parameter_text portal (Z.of_N (num "channel_id") - 1) = Ok (Some p) ∧
  parameter_timestamptz portal (Z.of_N (num "timestamp") - 1) = Ok (Some t) ∧
  parameter_text portal (Z.of_N (num "id") - 1) = Ok (Some k) ∧
  parameter_bytea portal (Z.of_N (num "value") - 1) = Ok (Some v).

Lemma message_columns_nodup : NoDup message_columns.
Proof. apply (bool_decide_unpack _). by vm_compute. Qed.
Lemma parsed_row statement i f : parse_sql statement = Some [Insert i] →
  plain_insert i table_name (f <$> (to_ascii_lowercase <$> ins_columns i)) →
  ∃ m, parse_insert_values statement table_name = Ok m ∧ ∀ c, c ∈ message_columns → m !! c = Some (f c).
Proof.
  intros Hp Hi. pose proof Hi as (_ & _ & Hperm & _).
  exists (list_to_map (zip (to_ascii_lowercase <$> ins_columns i) (f <$> (to_ascii_lowercase <$> ins_columns i)))).
  split; [apply parse_insert_values_ok; exists i; split; [done|]; apply insert_values_ok; eauto|].
  intros c Hc. apply insert_row_lookup; rewrite Hperm; [apply message_columns_nodup|done].
Qed.
Lemma kind_insert statement i : parse_sql statement = Some [Insert i] → gateway_statement_kind statement = Ok KindInsert.
Proof. unfold gateway_statement_kind. by intros ->. Qed.

Lemma bound_string num e portal s : (1 <= num <= 4)%N → e = ValueExpr (Placeholder ("$" +:+ pretty num)) →
  parameter_text portal (Z.of_N num - 1) = Ok (Some s) → string_value e portal = Ok s.
Proof.
  intros Hn -> Hs. unfold string_value. cbn [placeholder_index].
  rewrite placeholder_number_ok by (unfold usize_max; lia). cbn [fmap Result_fmap mbind Result_bind]. by rewrite Hs.
Qed.
Lemma bound_timestamp num e portal t : (1 <= num <= 4)%N → e = ValueExpr (Placeholder ("$" +:+ pretty num)) →
  parameter_timestamptz portal (Z.of_N num - 1) = Ok (Some t) → timestamp_value e portal = Ok t.
Proof.
  intros Hn -> Hs. unfold timestamp_value. cbn [placeholder_index].
  rewrite placeholder_number_ok by (unfold usize_max; lia). cbn [fmap Result_fmap mbind Result_bind]. by rewrite Hs.
Qed.
Lemma bound_bytea num e portal v : (1 <= num <= 4)%N → e = ValueExpr (Placeholder ("$" +:+ pretty num)) →
  parameter_bytea portal (Z.of_N num - 1) = Ok (Some v) → bytea_value e portal = Value (Ok v).
Proof.
  intros Hn -> Hs. unfold bytea_value. cbn [placeholder_index].
  rewrite placeholder_number_ok by (unfold usize_max; lia). cbn [fmap Result_fmap and_then]. by rewrite Hs.
Qed.

(** C24. An INSERT appends the record it spells: a statement that writes a record's fields as literals
    (the value as hexadecimal digits), in any order of the columns, and a statement with one
    placeholder per column, numbered in any order, whose bound parameters are the fields, both
    ask for the append of exactly that record. *)
Theorem insert_appends_what_it_spells statement i p t_text t k v num portal :
  parse_sql statement = Some [Insert i] → parse_from_rfc3339 t_text = Some t →
  (num <$> message_columns) ≡ₚ [1; 2; 3; 4]%N → binds portal num p t k v →
  let record := mkRecord (key_from_string p) t (key_from_string k) v in
  (plain_insert i table_name (spelled p t_text k v <$> (to_ascii_lowercase <$> ins_columns i)) →
   gateway_action table_name statement None = Value (Ok (AppendRecord record))) ∧
  (plain_insert i table_name (bound_expr num <$> (to_ascii_lowercase <$> ins_columns i)) →
   gateway_action table_name statement (Some portal) = Value (Ok (AppendRecord record))).
Proof.
  intros Hp Ht Hnum Hb record. unfold gateway_action. rewrite (kind_insert _ _ Hp). cbn [and_then]. split.
  - intros (m & Em & Hm)%(parsed_row _ _ _ Hp). unfold parse_insert. rewrite Em. cbn [and_then].
    rewrite (column_expr_ok m "channel_id" _ (Hm "channel_id" ltac:(set_solver))).
    rewrite (column_expr_ok m "timestamp" _ (Hm "timestamp" ltac:(set_solver))).
    rewrite (column_expr_ok m "id" _ (Hm "id" ltac:(set_solver))).
    rewrite (column_expr_ok m "value" _ (Hm "value" ltac:(set_solver))).
    change (spelled p t_text k v "channel_id") with (ValueExpr (SingleQuotedString p)).
    change (spelled p t_text k v "timestamp") with (TypedString (SqlTimestamp None Tz) (SingleQuotedString t_text)).
    change (spelled p t_text k v "id") with (ValueExpr (SingleQuotedString k)).
    change (spelled p t_text k v "value") with (ValueExpr (SingleQuotedString ("\x" +:+ partition_key_path_component v))).
    cbn [and_then string_literal timestamp_literal]. rewrite !quoted_into_string.
    cbn [ok_or and_then mbind Result_bind]. rewrite Ht. cbn [ok_or and_then].
    by rewrite bytea_hex.
  - intros (m & Em & Hm)%(parsed_row _ _ _ Hp). unfold parse_bound_insert. rewrite Em. cbn [and_then].
    destruct (bound_parameter_types num m Hnum Hm) as (ts & -> & Hts). cbn [and_then].
    assert (∀ c, c ∈ message_columns → (1 <= num c <= 4)%N) as Hr.
    { intros c Hc. assert (num c ∈ num <$> message_columns) as Hin by (by apply list_elem_of_fmap_2).
      rewrite Hnum in Hin. set_solver by lia. }
    destruct Hb as (Hlen & Hb1 & Hb2 & Hb3 & Hb4). unfold validate_parameter_count. rewrite Hlen, Hts. cbn [and_then Z.eqb].
    change (4 =? Z.of_nat 4) with true. cbn [and_then].
    rewrite (column_expr_ok m "channel_id" _ (Hm "channel_id" ltac:(set_solver))).
    rewrite (column_expr_ok m "timestamp" _ (Hm "timestamp" ltac:(set_solver))).
    rewrite (column_expr_ok m "id" _ (Hm "id" ltac:(set_solver))).
    rewrite (column_expr_ok m "value" _ (Hm "value" ltac:(set_solver))). cbn [and_then].
    rewrite (bound_string (num "channel_id") _ portal p) by (done || apply Hr; set_solver). cbn [and_then].
    rewrite (bound_timestamp (num "timestamp") _ portal t) by (done || apply Hr; set_solver). cbn [and_then].
    rewrite (bound_string (num "id") _ portal k) by (done || apply Hr; set_solver). cbn [and_then].
    by rewrite (bound_bytea (num "value") _ portal v) by (done || apply Hr; set_solver).
Qed.

(** The value of an accepted INSERT is a hexadecimal literal with a character outside ASCII. *)
Definition non_ascii_hex (statement : string) : Prop :=
  ∃ m e text a, parse_insert_values statement table_name = Ok m ∧ m !! "value" = Some e ∧
    string_literal e = Ok ("\x" +:+ text) ∧ a ∈ String.list_ascii_of_string text ∧ (128 <= N_of_ascii a)%N.

Lemma insert_columns_present statement m c : parse_insert_values statement table_name = Ok m →
  c ∈ message_columns → is_Some (m !! c).
Proof.
  intros (i & _ & (row & Hi & Em)%insert_values_ok)%parse_insert_values_ok Hc. by eapply insert_values_lookup.
Qed.
Lemma bytea_returns statement m e : parse_insert_values statement table_name = Ok m → m !! "value" = Some e →
  returns_unless (non_ascii_hex statement) (bytea_literal e).
Proof.
  intros Em Ee. split; [apply bytea_literal_fuel|]. intros (text & Et & a & Ha & Hge)%bytea_literal_panics.
  exists m, e, text, a. done.
Qed.

Lemma gateway_action_returns statement portal :
  returns_unless (non_ascii_hex statement) (gateway_action table_name statement portal).
Proof.
  unfold gateway_action. apply returns_and_then; [done|]. intros [] _.
  - apply returns_and_then; [|done]. destruct portal as [portal|].
    + unfold parse_bound_insert. apply returns_and_then; [done|]. intros m [= Em].
      assert (∀ c, c ∈ message_columns → is_Some (m !! c)) as Hm by (intros; by eapply insert_columns_present).
      apply returns_and_then; [by apply insert_types_returns|]. intros ts _.
      apply returns_and_then; [done|]. intros _ _.
      do 3 (apply returns_and_then; [apply returns_column, Hm; set_solver|]; intros ? _;
            apply returns_and_then; [done|]; intros ? _).
      apply returns_and_then; [apply returns_column, Hm; set_solver|]. intros e He.
      apply returns_and_then; [|done]. unfold bytea_value. apply returns_and_then; [done|].
      intros [index|] _; [done|]. apply (bytea_returns _ m); [done|].
      unfold column_expr in He. destruct (m !! "value"); by simplify_eq/=.
    + unfold parse_insert. apply returns_and_then; [done|]. intros m [= Em].
      assert (∀ c, c ∈ message_columns → is_Some (m !! c)) as Hm by (intros; by eapply insert_columns_present).
      do 3 (apply returns_and_then; [apply returns_column, Hm; set_solver|]; intros ? _;
            apply returns_and_then; [done|]; intros ? _).
      apply returns_and_then; [apply returns_column, Hm; set_solver|]. intros e He.
      apply returns_and_then; [|done]. apply (bytea_returns _ m); [done|].
      unfold column_expr in He. destruct (m !! "value"); by simplify_eq/=.
  - destruct portal as [portal|]; [|done]. apply returns_and_then; [|done].
    unfold read_parameter_values. apply returns_and_then; [apply read_types_returns|intros ts _; by apply returns_and_then].
Qed.
Lemma parameter_types_returns P statement : returns_unless P (parameter_types_for_statement table_name statement).
Proof.
  unfold parameter_types_for_statement. apply returns_and_then; [done|]. intros [] _; [|apply read_types_returns].
  apply returns_and_then; [done|]. intros m [= Em]. apply insert_types_returns. intros. by eapply insert_columns_present.
Qed.

(** C23. The gateway is no general SQL endpoint: a record is appended only for a statement that
    parses to one accepted INSERT, a query reaches DataFusion only for a statement that parses
    to one query, and anything else (several statements, DDL, updates, text that does not
    parse) is refused whatever the session and the table would have done. *)
Theorem gateway_boundary statement portal :
  (∀ a, gateway_action table_name statement portal = Value (Ok a) →
     match a with
     | AppendRecord _ => ∃ i row, parse_sql statement = Some [Insert i] ∧ plain_insert i table_name row
     | RunQuery text _ => text = statement ∧ ∃ q, parse_sql statement = Some [Query_ q]
     end) ∧
  ((∀ i, parse_sql statement ≠ Some [Insert i]) → (∀ q, parse_sql statement ≠ Some [Query_ q]) →
   ∃ e, ∀ (DF : Type) session with_params schema collect append to_string encode format_for,
     execute_with_parameters to_string encode table_name (DataFrame := DF) session with_params schema collect append
       statement format_for portal = Value (Err e)).
Proof.
  split.
  - intros a. unfold gateway_action. rewrite and_then_ok. intros (kind & [= Ek] & Ha). unfold gateway_statement_kind in Ek.
    destruct (parse_sql statement) as [[|[i|q|] [|]]|] eqn:Ep; try done; injection Ek as <-.
    + apply and_then_ok in Ha as (r & Hr & [= <-]).
      assert (∃ m, parse_insert_values statement table_name = Ok m) as [m Em].
      { destruct portal; [unfold parse_bound_insert in Hr|unfold parse_insert in Hr];
          apply and_then_ok in Hr as (m & [= Em] & _); eauto. }
      apply parse_insert_values_ok in Em as (i' & Ei & (row & Hi & _)%insert_values_ok). rewrite Ep in Ei.
      injection Ei as <-. eauto.
    + destruct portal; [apply and_then_ok in Ha as (ps & _ & [= <-])|injection Ha as <-]; eauto.
  - intros Hi Hq. unfold execute_with_parameters, gateway_action, gateway_statement_kind.
    destruct (parse_sql statement) as [[|[i|q|] [|]]|]; cbn [ok_or mbind Result_bind and_then];
      try (by destruct (Hi i)); try (by destruct (Hq q)); eexists; done.
Qed.
End theorems.

(** ** Handling a statement, to the end *)
Section handling.
Context `{SqlFrontendLaws} `{ChronoLaws} (table_name : string).
(** The encoders, and the DataFusion session. *)
Context (array_value_to_string : ResultColumn → nat → option string).
Context (encode_field : FieldInfo → FieldValue → Result PgWireError (option (list byte))).
Context {DataFrame : Type} (session_sql : string → option DataFrame).
Context (with_param_values : DataFrame → list ScalarValue → option DataFrame).
Context (dataframe_schema : DataFrame → list Field) (dataframe_collect : DataFrame → option (list ResultBatch)).
(** The batches a query yields have the columns its schema names. *)
Context (Hbatches : ∀ df bs b, dataframe_collect df = Some bs → b ∈ bs →
  length (rb_columns b) = length (dataframe_schema df)).
(** The table the sidecar serves, over a store and an archive in some state. *)
Context {E S F T : Type} `{DurableBucketStore E S, ArchiveStore F T}.
Context (d : TableDefinition) (utc_now : Z) (inputs : nat → input (E := E) (F := F)) (st : S * T).

(** [DurableTable::append]: the router decides, then its program runs. *)
Definition append_through (r : Record_) : Outcome (Result DurableTableError unit) :=
  p ← table_append d r utc_now; Value (run p inputs 0 st).1.

Abbreviation extended_query := (extended_do_query array_value_to_string encode_field table_name session_sql
  with_param_values dataframe_schema dataframe_collect append_through).
Abbreviation simple_query := (simple_do_query array_value_to_string encode_field table_name session_sql
  with_param_values dataframe_schema dataframe_collect append_through).

(** The statement inserts a record whose time is not before the last representable year. *)
Definition beyond_calendar (statement : string) (portal : option Portal) : Prop := ∃ r,
  gateway_action table_name statement portal = Value (Ok (AppendRecord r)) ∧
  ¬ (in_range (event_time r) ∧ year (event_time r) < year max_utc).

Lemma encode_row_returns P fields cols row : (length cols <= length fields)%nat →
  returns_unless P (encode_row array_value_to_string encode_field fields cols row).
Proof.
  revert fields. induction cols as [|c cols IH]; intros [|f fields] Hl; try done; [simpl in Hl; lia|].
  cbn [encode_row]. apply returns_and_then; [done|]. intros v _. apply returns_and_then; [done|]. intros cell _.
  apply returns_and_then; [apply IH; simpl in Hl; lia|done].
Qed.
Lemma encode_rows_returns P fields batches : (∀ b, b ∈ batches → (length (rb_columns b) <= length fields)%nat) →
  returns_unless P (encode_rows array_value_to_string encode_field batches fields).
Proof.
  induction batches as [|b batches IH]; intros Hl; [done|]. cbn [encode_rows]. apply returns_and_then.
  - generalize (seq 0 (rb_num_rows b)). intros rows. induction rows as [|row rows IHr]; [done|]. cbn [encode_batch].
    apply returns_and_then; [apply encode_row_returns, Hl; by left|]. intros r _. by apply returns_and_then.
  - intros rs _. apply returns_and_then; [|done]. apply IH. intros b' Hb'. apply Hl. by right.
Qed.
Lemma fields_from_length index fields format_for infos :
  fields_from index fields format_for = Ok infos → length infos = length fields.
Proof.
  revert index infos. induction fields as [|f fields IH]; intros index infos; cbn [fields_from]; [by intros [= <-]|].
  destruct (pg_type (data_type f)); cbn [mbind Result_bind]; [|done].
  destruct (fields_from (Datatypes.S index) fields format_for) as [rest|] eqn:Er; cbn [mbind Result_bind]; [|done].
  intros [= <-]. simpl. f_equal. by eapply IH.
Qed.

Section clock.
Context (Hnow : in_range utc_now) (Hw : 0 < writable_buckets d).
Context (Hyear : year min_utc + writable_buckets d <= year utc_now < year max_utc).

Lemma append_returns r :
  returns_unless (¬ (in_range (event_time r) ∧ year (event_time r) < year max_utc)) (append_through r).
Proof.
  unfold append_through. split.
  - destruct (table_append d r utc_now) as [p| |] eqn:Ep; try done. exfalso. revert Ep. apply table_append_fuel.
  - intros Hp [Hr Hy]. destruct (table_append_returns d r utc_now Hr Hnow Hw Hy Hyear) as [p Ep].
    by rewrite Ep in Hp.
Qed.
Lemma execute_returns statement format_for portal :
  returns_unless (non_ascii_hex table_name statement ∨ beyond_calendar statement portal)
    (execute_with_parameters array_value_to_string encode_field table_name session_sql with_param_values
      dataframe_schema dataframe_collect append_through statement format_for portal).
Proof.
  unfold execute_with_parameters. apply returns_and_then.
  - destruct (gateway_action_returns table_name statement portal) as [Hf Hp]. split; [done|]. auto.
  - intros [r|text params] Ha; cbn [perform_action].
    + apply returns_and_then; [|done]. destruct (append_returns r) as [Hf Hp].
      destruct (append_through r); cbn [mbind Outcome_bind]; [done| |done].
      split; [done|]. intros _. right. exists r. auto.
    + apply returns_and_then; [done|]. intros df _. apply returns_and_then; [done|]. intros fields [= Hfs].
      apply returns_and_then; [done|]. intros bs Hbs. apply returns_and_then; [|done].
      apply encode_rows_returns. intros b Hb. rewrite (fields_from_length _ _ _ _ Hfs), (Hbatches df bs b); [done| |done].
      by destruct (dataframe_collect df); simplify_eq/=.
Qed.

(** C27. The sidecar always answers. Handling a statement to the end, the append or the query and
    the encoding of its rows included, terminates, and it panics in two cases only: the statement is
    an INSERT whose value is a hexadecimal literal with a character outside ASCII, which
    slicing the digits two bytes at a time cuts in half; or it is an INSERT of a record whose
    time lies in the last representable year (or outside the representable times), which has no
    bucket. Describing a statement or a portal never panics. Both cases are real: such a literal
    panics, and so does the append of a record of that year to a table with yearly buckets. The
    conditions are that the clock stands in neither the first years, as many as there are
    writable buckets, nor the last one, that there is a writable bucket, and that query
    results have the columns of their schema; the parser, the session, the encoders and the store are
    taken to return. *)
Theorem gateway_panics_only_where_known statement :
  (∀ format_for portal, returns_unless (non_ascii_hex table_name statement ∨ beyond_calendar statement (Some portal))
     (extended_query statement format_for portal)) ∧
  returns_unless (non_ascii_hex table_name statement ∨ beyond_calendar statement None) (simple_query statement) ∧
  returns_unless False (do_describe_statement table_name session_sql dataframe_schema statement) ∧
  (∀ format_for, returns_unless False
     (do_describe_portal table_name session_sql dataframe_schema statement format_for)) ∧
  bytea_literal (ValueExpr (SingleQuotedString "\xaé1")) = Panicked ∧
  (∀ r, in_range (event_time r) → year (event_time r) = year max_utc → bucket_strategy d = CalendarYearUtc →
     append_through r = Panicked).
Proof.
  split_and!.
  - intros format_for portal. unfold extended_do_query. apply returns_and_then; [apply parameter_types_returns|].
    intros ts _. apply returns_and_then; [done|]. intros _ _. apply execute_returns.
  - unfold simple_do_query. destruct (is_blank statement); [done|]. apply returns_and_then; [apply execute_returns|done].
  - unfold do_describe_statement. apply returns_and_then; [done|]. intros kind _. apply returns_and_then; [done|].
    intros fields _. apply returns_and_then; [apply parameter_types_returns|done].
  - intros format_for. unfold do_describe_portal. by apply returns_and_then.
  - unfold bytea_literal, string_literal. by rewrite quoted_into_string.
  - intros r Hr Hy Hs. unfold append_through, table_append. by rewrite bucket_for_last_year.
Qed.
End clock.
End handling.
