(* ===== verification/Results.v ===== *)
(** From the router's records to the rows a SQL client receives: the Arrow batches of a scan
    ([DataFusion], src/integrations/datafusion.rs) handed to the row encoder of the sidecar
    ([Gateway], src/bin/pulpitum-sql-sidecar.rs, [encode_rows]), when the query returns the
    provider's batches as they are. *)
From S2P Require Import Prelude Chrono Model Schema Storage Text Observability Prog Table DataFusion Placeholders Gateway.
Local Open Scope Z_scope.

(** ** The provider's arrays as the encoder sees them *)
Definition result_column (c : ArrayRef) : ResultColumn :=
  mkResultColumn (array_type c)
    match c with
    | StringArray l => StringCells (Some <$> l)
    | TimestampNanosecondArray _ l => TimestampNanosecondCells (Some <$> l)
    | BinaryArray l => BinaryCells (Some <$> l)
    end.
Definition result_batch (b : RecordBatch) : ResultBatch :=
  mkResultBatch (result_column <$> columns b) (num_rows b).

Definition cell_value (c : option cell) : FieldValue :=
  match c with
  | None => FieldNull
  | Some (CText s) => FieldText s
  | Some (CInstant t) => FieldTimestamp t
  | Some (CBinary b) => FieldBytes b
  end.

(** The type of each column of the provider's schema. *)
Definition column_type (i : nat) : Type_ := match i with 1%nat => TIMESTAMPTZ | 3%nat => BYTEA | _ => TEXT end.

Section encoding.
Context (array_value_to_string : ResultColumn → nat → option string).
Context (encode_field : FieldInfo → FieldValue → Result PgWireError (option (list byte))).

(** ** Specification: the cells of a row, encoded one by one *)
Definition encode_cells (fields : list FieldInfo) (cells : list (option cell)) :
    Result PgWireError (list (option (list byte))) :=
  collect_result (λ '(f, c), encode_field f (cell_value c)) (zip fields cells).

(** ** Lemmas *)
Lemma field_value_cell field c row :
  field_value array_value_to_string field (result_column c) row = Ok (cell_value (array_cell row c)).
Proof.
  unfold field_value, is_null, cell_null, text_cell, bytes_cell.
  destruct c as [l|tz l|l]; simpl; rewrite list_lookup_fmap; by destruct (l !! row).
Qed.
Lemma encode_row_cells fields cols row : (length cols ≤ length fields)%nat →
  encode_row array_value_to_string encode_field fields (result_column <$> cols) row =
  Value (encode_cells fields (array_cell row <$> cols)).
Proof.
  revert fields. induction cols as [|c cols IH]; intros fields Hl; [by destruct fields|].
  destruct fields as [|f fields]; [simpl in Hl; lia|]. cbn [fmap list_fmap encode_row]. rewrite field_value_cell.
  unfold encode_cells. cbn [and_then zip zip_with collect_result mbind Result_bind].
  destruct (encode_field f _) as [x|e]; [|done]. cbn [and_then]. fold (array_cell row <$> cols). rewrite IH by (simpl in Hl; lia).
  cbn [and_then]. unfold encode_cells. by destruct (collect_result _ _).
Qed.
Lemma encode_batch_cells fields b rows : (length (columns b) ≤ length fields)%nat →
  encode_batch array_value_to_string encode_field fields (result_batch b) rows =
  Value (collect_result (encode_cells fields) ((λ row, array_cell row <$> columns b) <$> rows)).
Proof.
  intros Hl. induction rows as [|row rows IH]; [done|]. cbn [encode_batch rb_columns result_batch].
  rewrite encode_row_cells by done. cbn [and_then fmap list_fmap collect_result mbind Result_bind].
  destruct (encode_cells fields _) as [x|e]; [|done]. cbn [and_then]. rewrite IH. cbn [and_then].
  fold ((λ row, array_cell row <$> columns b) <$> rows). by destruct (collect_result _ _).
Qed.
Lemma collect_result_app {E A B} (f : A → Result E B) l l' :
  collect_result f (l ++ l') = (ys ← collect_result f l; zs ← collect_result f l'; Ok (ys ++ zs)).
Proof.
  induction l as [|x l IH]; cbn [app collect_result mbind Result_bind]; [by destruct (collect_result f l')|].
  destruct (f x); [|done]. cbn [mbind Result_bind]. rewrite IH. destruct (collect_result f l); [|done].
  cbn [mbind Result_bind]. by destruct (collect_result f l').
Qed.
Lemma encode_rows_cells fields batches : Forall (λ b, length (columns b) ≤ length fields)%nat batches →
  encode_rows array_value_to_string encode_field (result_batch <$> batches) fields =
  Value (collect_result (encode_cells fields) (concat (batch_rows <$> batches))).
Proof.
  induction 1 as [|b batches Hb _ IH]; [done|]. cbn [fmap list_fmap encode_rows concat].
  fold (batch_rows <$> batches). fold (result_batch <$> batches).
  rewrite encode_batch_cells by done. change (rb_num_rows (result_batch b)) with (num_rows b).
  change ((λ row, array_cell row <$> columns b) <$> seq 0 (num_rows b)) with (batch_rows b).
  cbn [and_then]. rewrite collect_result_app. destruct (collect_result _ (batch_rows b)); [|done]. cbn [and_then mbind Result_bind]. rewrite IH. cbn [and_then].
  by destruct (collect_result _ _).
Qed.
End encoding.

(** The fields of a projection of the provider's schema. *)
Lemma provider_field d i f : provider_schema d !! i = Some f → pg_type (data_type f) = Ok (column_type i).
Proof. destruct i as [|[|[|[|i]]]]; simpl; intros [= <-]; done. Qed.
Lemma fields_of_projection d projection output index format_for :
  collect_option (provider_schema d !!.) projection = Some output →
  ∃ fields, fields_from index output format_for = Ok fields ∧ fi_type <$> fields = column_type <$> projection.
Proof.
  revert output index. induction projection as [|i projection IH]; intros output index; cbn [collect_option].
  { intros [= <-]. by exists []. }
  destruct (provider_schema d !! i) as [f|] eqn:Ef; [|done]. cbn [mbind option_bind].
  destruct (collect_option _ projection) as [rest|]; [|done]. intros [= <-].
  destruct (IH rest (S index) eq_refl) as (fields & E & Ht). cbn [fields_from]. rewrite (provider_field d i f Ef).
  cbn [mbind Result_bind]. rewrite E. eexists. split; [done|]. rewrite !fmap_cons, Ht. done.
Qed.
Lemma batch_width `{ArrowLaws} d projection rs b : record_batch (provider_schema d) projection rs = Ok b →
  Forall representable rs → Forall (λ i, i < 4)%nat projection → length (columns b) = length projection.
Proof.
  intros E Hr Hi. destruct (record_batch_ok d projection rs Hi Hr) as (b' & E' & Hn & Hrows). assert (b' = b) as -> by congruence.
  destruct (decide (rs = [])) as [->|Hne].
  - unfold record_batch in E. cbn [collect_option ok_or mbind Result_bind fmap list_fmap] in E.
    rewrite (batch_try_new_ok _ _ 0) in E by first [done|repeat constructor]. cbn [mbind option_bind] in E.
    rewrite batch_project_spec in E. cbn [batch_schema columns num_rows] in E.
    destruct (collect_option_lookup (provider_schema d) projection Hi) as (fields & Ef & _). rewrite Ef in E.
    cbn [mbind option_bind] in E. destruct (collect_option_lookup (record_columns []) projection Hi) as (cols & Ec & Hcols).
    change [_; _; _; _] with (record_columns []) in E. rewrite Ec in E. cbn [mbind option_bind ok_or] in E. simplify_eq.
    apply (f_equal length) in Hcols. rewrite !length_fmap in Hcols. done.
  - destruct rs as [|r rs]; [done|]. unfold batch_rows in Hrows. rewrite Hn in Hrows.
    assert (array_cell 0 <$> columns b = projected_row projection r) as Hrow.
    { apply (f_equal head) in Hrows. cbn in Hrows. by injection Hrows. }
    apply (f_equal length) in Hrow. unfold projected_row in Hrow. rewrite !length_fmap in Hrow. exact Hrow.
Qed.

(** ** Theorems *)
(** C18. A SQL client receives the records the router returned: for every projection of the table's
    columns, the sidecar announces one field per projected column, of the type text, timestamp with
    time zone or bytes that the column has, and encodes the batches the provider made of any list of
    representable records into one row per record, in order, each the projected columns of its
    record; the only way to fail is that the encoder refuses a value. *)
Theorem sql_rows_are_the_records `{ArrowLaws} array_value_to_string encode_field d projection rs output format_for :
  Forall (λ i, i < 4)%nat projection → Forall representable rs →
  schema_project (provider_schema d) projection = Some output →
  ∃ batches fields,
    record_batches rs (provider_schema d) projection = Ok batches ∧
    fields_from_schema output format_for = Ok fields ∧
    fi_type <$> fields = column_type <$> projection ∧
    encode_rows array_value_to_string encode_field (result_batch <$> batches) fields =
    Value (collect_result (λ r, encode_cells encode_field fields (projected_row projection r)) rs).
Proof.
  intros Hi Hr Ho. rewrite schema_project_spec in Ho.
  destruct (record_batches_ok d projection rs Hi Hr) as (batches & Eb & Hrows & _).
  destruct (fields_of_projection d projection output 0 format_for Ho) as (fields & Ef & Ht).
  exists batches, fields. split_and!; [done..|].
  assert (length fields = length projection) as Hlen by (apply (f_equal length) in Ht; by rewrite !length_fmap in Ht).
  rewrite encode_rows_cells, Hrows.
  - f_equal. clear. induction rs as [|r rs IH]; [done|]. cbn [fmap list_fmap collect_result]. by rewrite <- IH.
  - unfold record_batches in Eb. destruct (chunks_spec BATCH_SIZE rs) as [Ec _]; [unfold BATCH_SIZE; lia|].
    rewrite <- Ec in Hr. apply Forall_concat in Hr. clear -Eb Hr Hi Hlen H0.
    revert batches Eb. induction Hr as [|c css Hc _ IH]; intros batches Eb; [injection Eb as <-; constructor|].
    cbn [collect_result] in Eb. destruct (record_batch _ _ c) as [b|] eqn:E; [|done]. cbn [mbind Result_bind] in Eb.
    destruct (collect_result _ css) as [bs|]; [|done]. injection Eb as <-. constructor; [|by apply IH].
    rewrite (batch_width d projection c b E Hc Hi). lia.
Qed.
