(* ===== verification/SidecarSecurity.v ===== *)
(** * Security and startup of the SQL sidecar ([src/src/bin/sql_sidecar_security.rs], and the
    settings of [src/src/bin/pulpitum-sql-sidecar.rs])

    A sidecar is either insecure or has a TLS identity and one SCRAM credential; an insecure
    one may only listen on loopback, a secure one refuses a startup message on a plaintext
    connection. The file system, the PEM and certificate parsers of rustls, the SCRAM
    functions of the protocol library and fresh UUIDs are parameters. *)
From S2P Require Import Prelude Chrono Model Paths Text Storage Pool PoolConfig Placeholders.
Local Open Scope Z_scope.

Definition DEFAULT_USER : string := "pulpitum".
Definition DEFAULT_DATABASE : string := "pulpitum".
Definition CERT_PATH_ENV : string := "PULPITUM_SQL_TLS_CERT_PATH".
Definition KEY_PATH_ENV : string := "PULPITUM_SQL_TLS_KEY_PATH".
Definition PASSWORD_FILE_ENV : string := "PULPITUM_SQL_PASSWORD_FILE".
Definition USER_ENV : string := "PULPITUM_SQL_USER".
Definition DATABASE_ENV : string := "PULPITUM_SQL_DATABASE".
Definition SCRAM_ITERATIONS : Z := 4096.

Inductive SecurityConfigError :=
  | IncompleteSecureConfiguration
  | InvalidName (variable : string)
  | ReadCertificate
  | ReadPrivateKey
  | ReadPassword
  | InvalidCertificate
  | InvalidPrivateKey
  | InvalidTlsIdentity
  | InvalidChannelBindingCertificate
  | InvalidCryptoProvider_
  | InvalidPasswordFile.

(** An [OsString] is its bytes. *)
Definition configured_name (value : option (list byte)) (default_ variable : string) :
    Result SecurityConfigError string :=
  value ← match value with
          | Some value => ok_or (from_utf8 value) (InvalidName variable)
          | None => Ok default_
          end;
  if bool_decide (value = "") then Err (InvalidName variable) else Ok value.

Definition newline : byte := x0a.
Definition carriage_return : byte := x0d.
(** [Vec::pop] of a list that ends in the given byte. *)
Definition strip_last (b : byte) (l : list byte) : option (list byte) :=
  if decide (last l = Some b) then Some (take (length l - 1) l) else None.
Definition parse_password_file (bytes : list byte) : Result SecurityConfigError string :=
  let bytes :=
    match strip_last newline bytes with
    | Some bytes => default bytes (strip_last carriage_return bytes)
    | None => bytes
    end in
  if bool_decide (bytes = []) || bool_decide (newline ∈ bytes) || bool_decide (carriage_return ∈ bytes)
     || bool_decide (x00 ∈ bytes)
  then Err InvalidPasswordFile
  else ok_or (from_utf8 bytes) InvalidPasswordFile.

(** ** Credentials *)
Record CredentialSource := mkCredentials {
  user : string;
  database : string;
  salt : list byte;
  salted_password : list byte;
  decoy_salt : list byte;
  decoy_salted_password : list byte
}.
(** The UUIDs drawn when the credentials are created. *)
Record Uuids := mkUuids { uuid_salt : list byte; uuid_decoy_salt : list byte; uuid_decoy_password : string }.
Record LoginInfo := mkLogin { login_user : option string; login_database : option string }.
Record Password := mkPassword { password_salt : option (list byte); password_hash : list byte }.

Definition get_password (self : CredentialSource) (login : LoginInfo) : Password :=
  if decide (login_user login = Some (user self) ∧ login_database login = Some (database self))
  then mkPassword (Some (salt self)) (salted_password self)
  else mkPassword (Some (decoy_salt self)) (decoy_salted_password self).

Record TlsAcceptor (Cert Key : Type) := mkAcceptor {
  acceptor_certificates : list Cert;
  acceptor_key : Key;
  alpn_protocols : list string
}.
Arguments mkAcceptor {Cert Key}.
Arguments acceptor_certificates {Cert Key}.
Record SecureSecurity (Cert Key : Type) := mkSecure {
  tls_acceptor_ : TlsAcceptor Cert Key;
  certificate_pem : list byte;
  credentials : CredentialSource
}.
Arguments mkSecure {Cert Key}.
Arguments tls_acceptor_ {Cert Key}.
Arguments certificate_pem {Cert Key}.
Arguments credentials {Cert Key}.
Inductive SidecarSecurity_ (Cert Key : Type) := Insecure | Secure (s : SecureSecurity Cert Key).
Arguments Insecure {Cert Key}.
Arguments Secure {Cert Key} s.

(** A SCRAM mechanism as the startup handler configures it. *)
Record Scram := mkScram { scram_credentials : CredentialSource; scram_iterations : Z; scram_certificate : list byte }.
Inductive SecurityStartupHandler := InsecureHandler | SecureHandler (scram : Scram).
Inductive FrontendMessage := Startup | OtherMessage (tag : string).
Definition tls_required_error : PgWireError := UserError "FATAL" "28000" "TLS is required".

Section security.
Context {Cert Key : Type}.
(** [fs::read]; PEM parsing; the identity check of [with_single_cert]; the crypto provider. *)
Context (read_file : list byte → option (list byte)).
Context (pem_certificates : list byte → option (list Cert)) (pem_key : list byte → option Key).
Context (provider_ok : bool) (single_cert_ok : list Cert → Key → bool).
(** [ScramAuth::configure_certificate] and [gen_salted_password]. *)
Context (configure_certificate : list byte → bool).
Context (gen_salted_password : string → list byte → Z → list byte).

Definition CredentialSource_new (user database password : string) (uuids : Uuids) : CredentialSource :=
  mkCredentials user database (uuid_salt uuids)
    (gen_salted_password password (uuid_salt uuids) SCRAM_ITERATIONS)
    (uuid_decoy_salt uuids)
    (gen_salted_password (uuid_decoy_password uuids) (uuid_decoy_salt uuids) SCRAM_ITERATIONS).

Definition secure_from_bytes (user database : string) (certificate_pem key_pem password_bytes : list byte)
    (uuids : Uuids) : Result SecurityConfigError (SidecarSecurity_ Cert Key) :=
  password ← parse_password_file password_bytes;
  certificates ← ok_or (pem_certificates certificate_pem) InvalidCertificate;
  if bool_decide (length certificates = 0%nat) then Err InvalidCertificate
  else
    private_key ← ok_or (pem_key key_pem) InvalidPrivateKey;
    if negb provider_ok then Err InvalidCryptoProvider_
    else if negb (single_cert_ok certificates private_key) then Err InvalidTlsIdentity
    else
      let credentials := CredentialSource_new user database password uuids in
      if negb (configure_certificate certificate_pem) then Err InvalidChannelBindingCertificate
      else Ok (Secure (mkSecure (mkAcceptor certificates private_key ["postgresql"]) certificate_pem credentials)).

Definition from_options (certificate_path key_path password_path user database : option (list byte)) (uuids : Uuids) :
    Result SecurityConfigError (SidecarSecurity_ Cert Key) :=
  match certificate_path, key_path, password_path with
  | None, None, None => Ok Insecure
  | Some certificate_path, Some key_path, Some password_path =>
      user ← configured_name user DEFAULT_USER USER_ENV;
      database ← configured_name database DEFAULT_DATABASE DATABASE_ENV;
      certificate_pem ← ok_or (read_file certificate_path) ReadCertificate;
      key_pem ← ok_or (read_file key_path) ReadPrivateKey;
      password_bytes ← ok_or (read_file password_path) ReadPassword;
      secure_from_bytes user database certificate_pem key_pem password_bytes uuids
  | _, _, _ => Err IncompleteSecureConfiguration
  end.

(** [env_os] is [env::var_os]. *)
Definition from_environment (env_os : string → option (list byte)) (uuids : Uuids) :
    Result SecurityConfigError (SidecarSecurity_ Cert Key) :=
  from_options (env_os CERT_PATH_ENV) (env_os KEY_PATH_ENV) (env_os PASSWORD_FILE_ENV) (env_os USER_ENV)
    (env_os DATABASE_ENV) uuids.

Definition is_secure (self : SidecarSecurity_ Cert Key) : bool :=
  match self with Secure _ => true | Insecure => false end.
Definition tls_acceptor (self : SidecarSecurity_ Cert Key) : option (TlsAcceptor Cert Key) :=
  match self with Insecure => None | Secure security => Some (tls_acceptor_ security) end.

(** [configure_certificate(..).expect("the certificate was validated ..")]. *)
Definition startup_handler (self : SidecarSecurity_ Cert Key) : Outcome SecurityStartupHandler :=
  match self with
  | Insecure => Value InsecureHandler
  | Secure security =>
      if configure_certificate (certificate_pem security)
      then Value (SecureHandler (mkScram (credentials security) SCRAM_ITERATIONS (certificate_pem security)))
      else Panicked
  end.

(** [StartupHandler::on_startup]; [noop] and [sasl] are the handlers of the protocol library. *)
Definition on_startup (noop : FrontendMessage → Result PgWireError unit)
    (sasl : Scram → FrontendMessage → Result PgWireError unit)
    (self : SecurityStartupHandler) (client_is_secure : bool) (message : FrontendMessage) : Result PgWireError unit :=
  match self with
  | InsecureHandler => noop message
  | SecureHandler scram =>
      match message with
      | Startup => if negb client_is_secure then Err tls_required_error else sasl scram message
      | _ => sasl scram message
      end
  end.
End security.

(** ** Settings of the sidecar *)
(** [env::var]: absent, or present and not Unicode, is an error. *)
Definition Env_ := string → option string.
Inductive SettingError := ParseFailed (name : string) | PermissionDenied (message : string) | InvalidInput (message : string).
Definition setting (env : Env_) (name default_ : string) : string := default default_ (env name).

Inductive IpAddr := V4 (a b c d : Z) | V6 (segments : list Z).
Record SocketAddr := mkSocketAddr { ip : IpAddr; sock_port : Z }.
Definition is_loopback (a : IpAddr) : bool :=
  match a with
  | V4 a _ _ _ => a =? 127
  | V6 segments => bool_decide (segments = [0; 0; 0; 0; 0; 0; 0; 1])
  end.
Definition validate_listen_address (address : SocketAddr) (secure : bool) : Result SettingError SocketAddr :=
  if negb secure && negb (is_loopback (ip address))
  then Err (PermissionDenied "insecure SQL sidecar mode is restricted to loopback; configure TLS and SCRAM to listen on a non-loopback address")
  else Ok address.

Definition parse_usize_setting (name text : string) : Result SettingError Z :=
  ok_or (parse_usize (String.list_ascii_of_string text)) (ParseFailed name).
(** [bool::from_str] *)
Definition parse_bool (name text : string) : Result SettingError bool :=
  if decide (text = "true") then Ok true else if decide (text = "false") then Ok false else Err (ParseFailed name).

Section settings.
Context (env : Env_) (parse_socket_addr : string → option SocketAddr).

Definition listen_address {Cert Key} (security : SidecarSecurity_ Cert Key) : Result SettingError SocketAddr :=
  address ← ok_or (parse_socket_addr (setting env "PULPITUM_SQL_LISTEN_ADDR" "127.0.0.1:5433"))
              (ParseFailed "PULPITUM_SQL_LISTEN_ADDR");
  validate_listen_address address (is_secure security).
Definition archive_cache_config : Result SettingError (Z * Z) :=
  bytes ← parse_usize_setting "PULPITUM_SQL_ARCHIVE_CACHE_MAX_BYTES"
            (setting env "PULPITUM_SQL_ARCHIVE_CACHE_MAX_BYTES" "268435456");
  entries ← parse_usize_setting "PULPITUM_SQL_ARCHIVE_CACHE_MAX_ENTRIES"
              (setting env "PULPITUM_SQL_ARCHIVE_CACHE_MAX_ENTRIES" "512");
  Ok (bytes, entries).
Definition capture_query_text : Result SettingError bool :=
  parse_bool "PULPITUM_SQL_CAPTURE_QUERY_TEXT" (setting env "PULPITUM_SQL_CAPTURE_QUERY_TEXT" "false").
Definition pool_config : Result SettingError CockroachPoolConfig :=
  config ← match env "COCKROACH_POOL_MAX_CONNECTIONS" with
           | Some value =>
               n ← parse_usize_setting "COCKROACH_POOL_MAX_CONNECTIONS" value;
               Ok (mkPoolConfig (Z.to_nat n) (acquire_timeout pool_config_default) (connect_timeout pool_config_default)
                     (transaction_timeout pool_config_default) (commit_timeout pool_config_default)
                     (rollback_timeout pool_config_default))
           | None => Ok pool_config_default
           end;
  if bool_decide (max_connections config = 0%nat)
  then Err (InvalidInput "COCKROACH_POOL_MAX_CONNECTIONS must be greater than zero")
  else Ok config.
End settings.

(** ** Lemmas *)
Lemma strip_last_Some b l l' : strip_last b l = Some l' ↔ l = l' ++ [b].
Proof.
  unfold strip_last. split.
  - case_decide as E; [|done]. intros [= <-]. apply last_Some in E as [l0 ->].
    rewrite length_app. simpl. by rewrite Nat.add_sub, take_app_length.
  - intros ->. rewrite decide_True by apply last_snoc. f_equal. rewrite length_app. simpl.
    by rewrite Nat.add_sub, take_app_length.
Qed.
Lemma strip_last_None b l : strip_last b l = None ↔ ∀ l', l ≠ l' ++ [b].
Proof.
  destruct (strip_last b l) as [l'|] eqn:E.
  - apply strip_last_Some in E. naive_solver.
  - split; [|done]. intros _ l' Hl. apply strip_last_Some in Hl. congruence.
Qed.

(** What a password may contain. *)
Definition one_line (l : list byte) : Prop := l ≠ [] ∧ (newline ∉ l) ∧ (carriage_return ∉ l) ∧ (x00 ∉ l).
#[export] Instance one_line_dec l : Decision (one_line l).
Proof. unfold one_line. apply _. Defined.
Lemma password_check (l : list byte) :
  (bool_decide (l = []) || bool_decide (newline ∈ l) || bool_decide (carriage_return ∈ l) || bool_decide (x00 ∈ l)) =
  bool_decide (¬ one_line l).
Proof. unfold one_line. repeat case_bool_decide; naive_solver. Qed.
Lemma one_line_end l l' b : one_line l → b = newline ∨ b = carriage_return → l ≠ l' ++ [b].
Proof. intros (_ & H1 & H2 & _) Hb ->. destruct Hb as [->| ->]; set_solver. Qed.

(** The line of a password file, without its terminator. *)
Definition terminators : list (list byte) := [[]; [newline]; [carriage_return; newline]].
Definition password_line (bytes : list byte) : list byte :=
  match strip_last newline bytes with
  | Some bytes => default bytes (strip_last carriage_return bytes)
  | None => bytes
  end.
Lemma password_line_spec bytes l : one_line l →
  password_line bytes = l ↔ ∃ t, t ∈ terminators ∧ bytes = l ++ t.
Proof.
  intros Hl. unfold password_line, terminators. split.
  - destruct (strip_last newline bytes) as [b1|] eqn:E1.
    + apply strip_last_Some in E1 as ->. destruct (strip_last carriage_return b1) as [b2|] eqn:E2; simpl.
      * apply strip_last_Some in E2 as ->. intros ->. exists [carriage_return; newline]. split; [set_solver|].
        by rewrite <- app_assoc.
      * intros ->. exists [newline]. split; [set_solver|done].
    + intros ->. exists []. split; [set_solver|by rewrite app_nil_r].
  - intros (t & Ht & ->). apply elem_of_cons in Ht as [->|Ht]; [|apply elem_of_cons in Ht as [->|Ht]].
    + rewrite app_nil_r. rewrite (proj2 (strip_last_None newline l)); [done|]. intros l'. apply one_line_end; auto.
    + rewrite (proj2 (strip_last_Some newline (l ++ [newline]) l)) by done.
      rewrite (proj2 (strip_last_None carriage_return l)); [done|]. intros l'. apply one_line_end; auto.
    + apply list_elem_of_singleton in Ht as ->. change [carriage_return; newline] with ([carriage_return] ++ [newline]).
      rewrite app_assoc. rewrite (proj2 (strip_last_Some newline _ (l ++ [carriage_return]))) by done.
      by rewrite (proj2 (strip_last_Some carriage_return _ l)).
Qed.

(** ** Theorems *)
(** A password file is accepted exactly when it is one nonempty line of UTF-8 without NUL, with
    or without a final LF or CR LF, and the password is that line. *)
Theorem password_file_accepted_exactly bytes password :
  parse_password_file bytes = Ok password ↔
  is_str password ∧ one_line (string_bytes password) ∧
  ∃ t, t ∈ terminators ∧ bytes = string_bytes password ++ t.
Proof.
  unfold parse_password_file. fold (password_line bytes). cbv zeta. rewrite password_check. split.
  - case_bool_decide as Hl; [done|].
    destruct (from_utf8 (password_line bytes)) as [s|] eqn:Es; [|done]. intros [= <-].
    apply from_utf8_Some in Es as [Es Hs]. rewrite Es in Hl. split_and!; [done..|]. by apply password_line_spec.
  - intros (Hs & Hl & Ht). apply (password_line_spec _ _ Hl) in Ht as ->.
    rewrite bool_decide_eq_false_2 by naive_solver. by rewrite (from_utf8_bytes _ Hs).
Qed.

Section startup.
Context {Cert Key : Type} (read_file : list byte → option (list byte)).
Context (pem_certificates : list byte → option (list Cert)) (pem_key : list byte → option Key).
Context (provider_ok : bool) (single_cert_ok : list Cert → Key → bool).
Context (configure_certificate : list byte → bool) (gen_salted_password : string → list byte → Z → list byte).
Abbreviation from_options_ :=
  (from_options read_file pem_certificates pem_key provider_ok single_cert_ok configure_certificate gen_salted_password).

Lemma secure_from_bytes_ok user database cert key pw uuids security :
  secure_from_bytes pem_certificates pem_key provider_ok single_cert_ok configure_certificate gen_salted_password
    user database cert key pw uuids = Ok security →
  ∃ password certificates k, parse_password_file pw = Ok password ∧ pem_certificates cert = Some certificates ∧
    certificates ≠ [] ∧ pem_key key = Some k ∧ single_cert_ok certificates k = true ∧ configure_certificate cert = true ∧
    security = Secure (mkSecure (mkAcceptor certificates k ["postgresql"]) cert
                 (CredentialSource_new gen_salted_password user database password uuids)).
Proof.
  unfold secure_from_bytes. destruct (parse_password_file pw) as [password|]; [|done]. cbn [mbind Result_bind].
  destruct (pem_certificates cert) as [certificates|]; [|done]. cbn [ok_or mbind Result_bind].
  case_bool_decide as Hc; [done|]. destruct (pem_key key) as [k|]; [|done]. cbn [ok_or mbind Result_bind].
  destruct provider_ok; [|done]. cbn [negb]. destruct (single_cert_ok certificates k) eqn:Es; [|done]. cbn [negb].
  destruct (configure_certificate cert) eqn:Ec; [|done]. intros [= <-]. exists password, certificates, k.
  split_and!; try done. by intros ->.
Qed.
Lemma from_options_ok certificate_path key_path password_path user database uuids security :
  from_options_ certificate_path key_path password_path user database uuids = Ok security →
  (security = Insecure ∧ certificate_path = None ∧ key_path = None ∧ password_path = None) ∨
  (∃ c k p s, certificate_path = Some c ∧ key_path = Some k ∧ password_path = Some p ∧ security = Secure s ∧
     read_file c = Some (certificate_pem s) ∧ configure_certificate (certificate_pem s) = true ∧
     acceptor_certificates (tls_acceptor_ s) ≠ [] ∧
     SidecarSecurity.user (credentials s) ≠ "" ∧ SidecarSecurity.database (credentials s) ≠ "").
Proof.
  unfold from_options. destruct certificate_path as [c|], key_path as [k|], password_path as [p|]; try done.
  2: { intros [= <-]. by left. }
  destruct (configured_name user _ _) as [u|] eqn:Eu; [|done]. cbn [mbind Result_bind].
  destruct (configured_name database _ _) as [d|] eqn:Ed; [|done]. cbn [mbind Result_bind].
  destruct (read_file c) as [cert|] eqn:Ec; [|done]. cbn [ok_or mbind Result_bind].
  destruct (read_file k) as [key|]; [|done]. cbn [ok_or mbind Result_bind].
  destruct (read_file p) as [pw|]; [|done]. cbn [ok_or mbind Result_bind].
  intros (password & certificates & key' & _ & _ & Hne & _ & _ & Hcfg & ->)%secure_from_bytes_ok. right.
  assert (∀ v def var n, configured_name v def var = Ok n → n ≠ "") as Hn.
  { intros v def var n. unfold configured_name. destruct (match v with Some _ => _ | None => _ end); [|done].
    cbn [mbind Result_bind]. case_bool_decide; [done|]. by intros [= <-]. }
  exists c, k, p. eexists. split_and!; try done; simpl; by eapply Hn.
Qed.

Lemma insecure_listens_locally env parse_addr (security : SidecarSecurity_ Cert Key) address :
  listen_address env parse_addr security = Ok address → is_secure security = false → is_loopback (ip address) = true.
Proof.
  intros Ha Hins. unfold listen_address in Ha. destruct (parse_addr _) as [a|]; [|done]. cbn [ok_or mbind Result_bind] in Ha.
  unfold validate_listen_address in Ha. rewrite Hins in Ha. cbn [negb andb] in Ha.
  destruct (is_loopback (ip a)) eqn:E; by simplify_eq/=.
Qed.
(** A configuration that was accepted starts every connection: the acceptor is there exactly when it is
    secure, and then plain text is refused. *)
Lemma accepted_security_starts certificate_path key_path password_path user database uuids security noop sasl :
  from_options_ certificate_path key_path password_path user database uuids = Ok security →
  is_secure security = bool_decide (is_Some (tls_acceptor security)) ∧
  ∃ handler, startup_handler configure_certificate security = Value handler ∧
    (is_secure security = true → on_startup noop sasl handler false Startup = Err tls_required_error).
Proof.
  intros [(-> & -> & -> & ->)|(c & k & p & s & -> & -> & -> & -> & _ & Hcfg & _)]%from_options_ok.
  - split; [done|]. exists InsecureHandler. done.
  - split; [done|]. simpl. rewrite Hcfg. by eexists.
Qed.

(** A sidecar reachable from other hosts requires TLS and credentials: a security
    configuration is insecure exactly when none of the three files is named, a mixture is
    an error, a secure configuration never panics when a connection starts, and a sidecar that
    may listen on a non-loopback address refuses every startup message that arrives in plain
    text, whatever the SCRAM handler would have answered. *)
Theorem public_sidecar_requires_tls env parse_addr certificate_path key_path password_path user database uuids
    security address noop sasl :
  from_options_ certificate_path key_path password_path user database uuids = Ok security →
  listen_address env parse_addr security = Ok address →
  (is_secure security = false ↔ certificate_path = None ∧ key_path = None ∧ password_path = None) ∧
  (is_secure security = bool_decide (is_Some (tls_acceptor security))) ∧
  (∃ handler, startup_handler configure_certificate security = Value handler ∧
     (is_loopback (ip address) = false → on_startup noop sasl handler false Startup = Err tls_required_error)).
Proof.
  intros Hs Ha. pose proof (insecure_listens_locally env parse_addr security address Ha) as Hl.
  destruct (accepted_security_starts _ _ _ _ _ _ _ noop sasl Hs) as (Hacc & handler & Hh & Hplain). split_and!; [|done|].
  - by apply from_options_ok in Hs as [(-> & -> & -> & ->)|(c & k & p & s & -> & -> & -> & -> & _)]; naive_solver.
  - exists handler. split; [done|]. intros E. apply Hplain. destruct (is_secure security); [done|]. by rewrite Hl in E.
Qed.
End startup.

(** Authentication does not reveal which users exist: the stored credential is used only for the
    configured user and database, every other login gets one and the same decoy, of the
    same form, and each is derived from its own salt. *)
Theorem logins_are_indistinguishable gen user database password uuids login login' :
  let self := CredentialSource_new gen user database password uuids in
  (get_password self login = mkPassword (Some (uuid_salt uuids)) (gen password (uuid_salt uuids) SCRAM_ITERATIONS) ∨
   get_password self login = mkPassword (Some (uuid_decoy_salt uuids))
     (gen (uuid_decoy_password uuids) (uuid_decoy_salt uuids) SCRAM_ITERATIONS)) ∧
  (login = mkLogin (Some user) (Some database) →
   get_password self login = mkPassword (Some (uuid_salt uuids)) (gen password (uuid_salt uuids) SCRAM_ITERATIONS)) ∧
  (login ≠ mkLogin (Some user) (Some database) → login' ≠ mkLogin (Some user) (Some database) →
   get_password self login = get_password self login').
Proof.
  unfold get_password. simpl. split_and!.
  - case_decide; auto.
  - intros ->. by rewrite decide_True.
  - intros H1 H2. rewrite !decide_False; [done|..]; intros [Hu Hd];
      [apply H2; destruct login'|apply H1; destruct login]; simpl in *; congruence.
Qed.
