(* ===== verification/GatewaySpans.v ===== *)
(** The server span of a gateway request (src/bin/pulpitum-sql-sidecar.rs, the [tracing::instrument]
    attribute of [execute]): its fields, which requests open one, and what it gives away about the
    statement. What a request answers is modelled in [Gateway]. *)
From S2P Require Import Prelude Model Storage Text Prog Table DataFusion Placeholders Gateway SidecarSecurity.
Local Open Scope Z_scope.
Local Open Scope rust_scope.

Definition gateway_query_shape (statement : string) : GatewayQueryShape := from_statement statement.
Definition all_shapes : list GatewayQueryShape := [ShapeInsert; ShapeSelect; ShapeCount; ShapeOther].

(** The fields of [PulpitumPgWireServer] that a span shows. *)
Record PulpitumPgWireServer := mkServer {
  srv_table_name : string;
  srv_capture_query_text : bool;
  srv_listen_address : SocketAddr
}.
Record GatewaySpan := mkSpan {
  otel_kind : string;
  server_address : SocketAddr;
  client_address : SocketAddr;
  network_transport : string;
  network_protocol_name : string;
  sql_origin : string;
  db_system_name : string;
  db_collection_name : string;
  db_operation_name : string;
  db_query_summary : string;
  db_query_text : string;
  sql_template : string
}.
Definition request_span (self : PulpitumPgWireServer) (statement : string) (client : SocketAddr) : GatewaySpan :=
  mkSpan "server" (srv_listen_address self) client "tcp" "postgresql" "gateway" "postgresql" (srv_table_name self)
    (operation_name (gateway_query_shape statement))
    (shape_summary (gateway_query_shape statement) (srv_table_name self))
    (shape_template (gateway_query_shape statement) (srv_table_name self))
    (telemetry_query_template statement (srv_table_name self) (srv_capture_query_text self)).

Section handlers.
Context (array_value_to_string : ResultColumn → nat → option string).
Context (encode_field : FieldInfo → FieldValue → Result PgWireError (option (list byte))).
Context `{SqlFrontend} {DataFrame : Type} (session_sql : string → option DataFrame).
Context (with_param_values : DataFrame → list ScalarValue → option DataFrame).
Context (dataframe_schema : DataFrame → list Field) (dataframe_collect : DataFrame → option (list ResultBatch)).
Context (append : Record_ → Outcome (Result DurableTableError unit)) (self : PulpitumPgWireServer).

Let execute_with_parameters_ := execute_with_parameters array_value_to_string encode_field (srv_table_name self)
  session_sql with_param_values dataframe_schema dataframe_collect append.

(** A handler with the spans it opens. *)
Definition execute_request (statement : string) (format_for : nat → FieldFormat) (client : SocketAddr) :
    list GatewaySpan * Outcome (Result PgWireError Response) :=
  ([request_span self statement client], execute_with_parameters_ statement format_for None).
Definition simple_request (query : string) (client : SocketAddr) :
    list GatewaySpan * Outcome (Result PgWireError (list Response)) :=
  if is_blank query then ([], Value (Ok []))
  else let '(spans, res) := execute_request query (λ _, FormatText) client in
       (spans, response <~ res; Value (Ok [response])).
(** The extended protocol calls [execute_with_parameters] itself, which opens no span. *)
Definition extended_request (statement : string) (format_for : nat → FieldFormat) (portal : Portal) :
    list GatewaySpan * Outcome (Result PgWireError Response) :=
  ([], parameter_types <~ parameter_types_for_statement (srv_table_name self) statement;
       _ <~ Value (validate_parameter_count portal (length parameter_types));
       execute_with_parameters_ statement format_for (Some portal)).
End handlers.

(** ** Theorems *)
Section redaction.
Context (array_value_to_string : ResultColumn → nat → option string).
Context (encode_field : FieldInfo → FieldValue → Result PgWireError (option (list byte))).
Context `{SqlFrontend} {DataFrame : Type} (session_sql : string → option DataFrame).
Context (with_param_values : DataFrame → list ScalarValue → option DataFrame).
Context (dataframe_schema : DataFrame → list Field) (dataframe_collect : DataFrame → option (list ResultBatch)).
Context (append : Record_ → Outcome (Result DurableTableError unit)) (self : PulpitumPgWireServer).
Let simple := simple_request array_value_to_string encode_field session_sql with_param_values dataframe_schema
  dataframe_collect append self.
Let extended := extended_request array_value_to_string encode_field session_sql with_param_values dataframe_schema
  dataframe_collect append self.

(** Spans do not leak statements. A simple request that is not blank opens one span, whatever it
    answers; its statement-dependent fields are functions of the statement's shape, so that they take
    at most four values, and its literal text appears in one field and only if its capture was
    configured: without it, statements of one shape leave the same trace. *)
Theorem spans_are_redacted statement statement' client :
  (is_blank statement = false → (simple statement client).1 = [request_span self statement client]) ∧
  (∃ shape, shape ∈ all_shapes ∧
    db_operation_name (request_span self statement client) = operation_name shape ∧
    db_query_summary (request_span self statement client) = shape_summary shape (srv_table_name self) ∧
    db_query_text (request_span self statement client) = shape_template shape (srv_table_name self)) ∧
  sql_template (request_span self statement client) =
    (if srv_capture_query_text self then trim statement else db_query_text (request_span self statement client)) ∧
  (srv_capture_query_text self = false → gateway_query_shape statement = gateway_query_shape statement' →
   is_blank statement = is_blank statement' → (simple statement client).1 = (simple statement' client).1).
Proof.
  unfold simple, simple_request, execute_request. split_and!.
  - by intros ->.
  - exists (gateway_query_shape statement). split; [|done]. destruct (gateway_query_shape statement); set_solver.
  - unfold request_span, telemetry_query_template. by destruct (srv_capture_query_text self).
  - intros Hc Hs ->. destruct (is_blank statement'); [done|]. unfold request_span, telemetry_query_template.
    cbn [fst]. rewrite Hc, Hs. unfold gateway_query_shape in Hs. by rewrite Hs.
Qed.
(** Requests of the extended protocol, which is what drivers use for bound parameters, are not
    visible at the gateway: they answer as they should but open no span. *)
Theorem extended_requests_are_invisible statement format_for portal :
  (extended statement format_for portal).1 = [] ∧
  (extended statement format_for portal).2 = extended_do_query array_value_to_string encode_field (srv_table_name self)
    session_sql with_param_values dataframe_schema dataframe_collect append statement format_for portal.
Proof. done. Qed.
(** The handlers with spans answer as those without. *)
Theorem spans_change_no_answer query client :
  (simple query client).2 = simple_do_query array_value_to_string encode_field (srv_table_name self) session_sql
    with_param_values dataframe_schema dataframe_collect append query.
Proof. unfold simple, simple_request, simple_do_query. by destruct (is_blank query). Qed.
End redaction.

(** The statement's own literals do not reach the fields that are always there. *)
Example redacted_count : request_span (mkServer "messages" false (mkSocketAddr (V4 127 0 0 1) 5433))
    "SELECT COUNT(*) AS message_count FROM messages WHERE channel_id = 'private'" (mkSocketAddr (V4 10 0 0 7) 40000) =
  mkSpan "server" (mkSocketAddr (V4 127 0 0 1) 5433) (mkSocketAddr (V4 10 0 0 7) 40000) "tcp" "postgresql" "gateway"
    "postgresql" "messages" "SELECT" "SELECT COUNT messages"
    "SELECT COUNT(*) AS message_count FROM messages WHERE channel_id = $1 AND timestamp >= $2 AND timestamp < $3"
    "SELECT COUNT(*) AS message_count FROM messages WHERE channel_id = $1 AND timestamp >= $2 AND timestamp < $3".
Proof. by vm_compute. Qed.
