(* ===== verification/Coordinator.v ===== *)
(** The archive coordinators as programs: the direct cutover of
    src/application/durable_archive.rs ([DurableArchiveCoordinator]) and the recovery runner
    of src/application/durable_archive_recovery.rs ([DurableArchiveRecoveryRunner]).

    The order in which both take a session through a cutover is the predicate [follows]: in
    which stage of the session's life each call may be made, publication before deletion. Both
    programs are proved to follow it, for every answer their environment may give. It implies
    the weaker fencing discipline [keeps], under which [System] shows that workers, however
    many and however interleaved, lose no record. *)
From S2P Require Import Prelude Chrono Model Storage Observability Prog.
Local Open Scope Z_scope.

(** ** Data *)
Record ArchiveOutcome := mkOutcome {
  out_bucket : BucketId;
  out_object_key : string;
  records_archived : nat
}.

Inductive DurableArchiveError :=
  | ArchiveDurableStore (e : DurableBucketStoreError)
  | ArchiveStoreError (e : StoreError).

Definition DIRECT_ARCHIVE_LEASE : Z := 5 * 60 * 1000000000.
Definition DIRECT_ARCHIVE_LEASE_RENEWAL_INTERVAL : Z := 60 * 1000000000.

Record ArchiveRecoveryConfig := mkConfig {
  cfg_eligible_before : Z;
  cfg_scan_limit : Z;
  cfg_lease_for : Z;
  cfg_lease_renewal_interval : Z;
  cfg_retry_backoff : Z
}.

Inductive ArchiveRecoveryError :=
  | InvalidConfig
  | RecoveryDurableStore (e : DurableBucketStoreError)
  | RecoveryArchive (e : DurableArchiveError).

Definition config_validate (c : ArchiveRecoveryConfig) : Result ArchiveRecoveryError unit :=
  if (cfg_scan_limit c =? 0) || (cfg_lease_for c =? 0) || (cfg_lease_renewal_interval c =? 0)
     || (cfg_lease_for c <=? cfg_lease_renewal_interval c) || (cfg_retry_backoff c =? 0)
  then Err InvalidConfig else Ok tt.

Record ArchiveRecoveryOutcome := mkRecovery {
  discovered : Z;
  claimed : Z;
  completed : Z;
  deferred : Z
}.

(** [x += 1] and [as u32] on the counters. The counters are [u32]; they stay below the number of
    items discovered ([cycle_outcome_accounts]), so the additions cannot overflow and are written
    without a bound. *)
Definition as_u32 (z : Z) : Z := z mod 2 ^ 32.
Definition count_claimed (o : ArchiveRecoveryOutcome) :=
  mkRecovery (discovered o) (claimed o + 1) (completed o) (deferred o).
Definition count_completed (o : ArchiveRecoveryOutcome) :=
  mkRecovery (discovered o) (claimed o) (completed o + 1) (deferred o).
Definition count_deferred (o : ArchiveRecoveryOutcome) :=
  mkRecovery (discovered o) (claimed o) (completed o) (deferred o + 1).

(** ** The direct coordinator *)
Definition archive_claimed_bucket (b : BucketId) (s : ArchiveSession) :
    prog (Result DurableArchiveError ArchiveOutcome) :=
  let abort {E} (st : ArchiveStage) (err : E) (conv : E → DurableArchiveError) :
      prog (Result DurableArchiveError ArchiveOutcome) :=
    telemetry (archive_failed b st) ≫= λ _,
    try_ ArchiveDurableStore (supervise (store (AbortArchive s))) (λ aborted,
    Ret match aborted with Err e => Err (ArchiveDurableStore e) | Ok _ => Err (conv err) end) in
  try_ ArchiveDurableStore (supervise (store (Snapshot s))) (λ snapshot,
  match snapshot with
  | Err error => abort StageSnapshot error ArchiveDurableStore
  | Ok records =>
    try_ ArchiveDurableStore
      (supervise (archive (PutBucketGeneration b (session_generation s) records))) (λ upload,
    match upload with
    | Err error => abort StageUpload error ArchiveStoreError
    | Ok object_key =>
      try_ ArchiveDurableStore (supervise (store (PublishArchive s object_key))) (λ published,
      match published with
      | Err error => Ret (Err (ArchiveDurableStore error))
      | Ok _ =>
        try_ ArchiveDurableStore (supervise (store (DeleteHotBucket s))) (λ deleted,
        match deleted with
        | Err error =>
          telemetry (archive_failed b StageDeleteHot) ≫= λ _, Ret (Err (ArchiveDurableStore error))
        | Ok _ =>
          telemetry_elapsed (archive_completed b (Z.of_nat (length records))) ≫= λ _,
          Ret (Ok (mkOutcome b object_key (length records)))
        end)
      end)
    end)
  end).

Definition archive_bucket (b : BucketId) : prog (Result DurableArchiveError ArchiveOutcome) :=
  telemetry (archive_started b) ≫= λ _,
  try_ ArchiveDurableStore (store (BeginArchive b)) (λ s,
  perform (EStartRenewer s DIRECT_ARCHIVE_LEASE DIRECT_ARCHIVE_LEASE_RENEWAL_INTERVAL) ≫= λ _,
  archive_claimed_bucket b s ≫= λ result,
  perform EShutdownRenewer ≫= λ _, Ret result).

(** ** The recovery runner *)
Section recovery.
Context (cfg : ArchiveRecoveryConfig).

(** Recovery steps thread the mutable outcome, also through errors. *)
Abbreviation recovery := (prog (Result ArchiveRecoveryError unit * ArchiveRecoveryOutcome)).

(** [renewer.supervise(operation).await?] *)
Definition supervised {T E} (operation : prog (Result E T)) (o : ArchiveRecoveryOutcome)
    (k : Result E T → recovery) : recovery :=
  supervise operation ≫= λ r,
  match r with Ok x => k x | Err e => Ret (Err (RecoveryDurableStore e), o) end.

Definition defer_cutover (s : ArchiveSession) (o : ArchiveRecoveryOutcome)
    (error : DurableBucketStoreError) : recovery :=
  supervised (store (DeferArchive s (cfg_retry_backoff cfg))) o (λ r,
  match r with
  | Err e => Ret (Err (RecoveryDurableStore e), o)
  | Ok _ =>
    telemetry (coordinator_phase_entered PhaseRetryScheduled) ≫= λ _,
    Ret (Err (RecoveryDurableStore error), count_deferred o)
  end).

Definition finish_cleanup (s : ArchiveSession) (o : ArchiveRecoveryOutcome) : recovery :=
  supervised (store (DeleteHotBucket s)) o (λ r,
  match r with
  | Ok _ =>
    telemetry (coordinator_phase_entered PhaseCompleted) ≫= λ _, Ret (Ok tt, count_completed o)
  | Err error =>
    supervised (store (DeferCleanup s (cfg_retry_backoff cfg))) o (λ r,
    match r with
    | Err e => Ret (Err (RecoveryDurableStore e), o)
    | Ok _ =>
      telemetry (coordinator_phase_entered PhaseRetryScheduled) ≫= λ _,
      Ret (Err (RecoveryDurableStore error), count_deferred o)
    end)
  end).

Definition recover_claimed_cutover (b : BucketId) (s : ArchiveSession) (o : ArchiveRecoveryOutcome) :
    recovery :=
  supervised (store (Snapshot s)) o (λ snapshot,
  match snapshot with
  | Err error => defer_cutover s o error
  | Ok records =>
    telemetry (coordinator_phase_entered PhaseUploading) ≫= λ _,
    supervised (archive (PutBucketGeneration b (session_generation s) records)) o (λ upload,
    match upload with
    | Err error =>
      defer_cutover s o OperationFailed ≫= λ '(r, o),
      Ret (match r with
           | Err e => Err e
           | Ok _ => Err (RecoveryArchive (ArchiveStoreError error))
           end, o)
    | Ok object_key =>
      telemetry (coordinator_phase_entered PhaseUploadedVerified) ≫= λ _,
      supervised (store (PublishArchive s object_key)) o (λ publish,
      match publish with
      | Err error =>
        supervised (store (State b)) o (λ state,
        match state with
        | Err e => Ret (Err (RecoveryDurableStore e), o)
        | Ok (Archived _ false) => finish_cleanup s o
        | Ok Archiving => defer_cutover s o error
        | Ok _ => Ret (Err (RecoveryDurableStore error), o)
        end)
      | Ok _ =>
        telemetry (coordinator_phase_entered PhasePublishedCleanupPending) ≫= λ _,
        finish_cleanup s o
      end)
    end)
  end).

(** [let Some(session) = claim.await? else { return Ok(()) }; ...; renewer.shutdown().await] *)
Definition with_claim (claim : store_call (Result DurableBucketStoreError (option ArchiveSession)))
    (o : ArchiveRecoveryOutcome) (work : ArchiveSession → ArchiveRecoveryOutcome → recovery) : recovery :=
  store claim ≫= λ r,
  match r with
  | Err e => Ret (Err (RecoveryDurableStore e), o)
  | Ok None => Ret (Ok tt, o)
  | Ok (Some s) =>
    telemetry (coordinator_phase_entered PhaseClaimed) ≫= λ _,
    perform (EStartRenewer s (cfg_lease_for cfg) (cfg_lease_renewal_interval cfg)) ≫= λ _,
    work s (count_claimed o) ≫= λ result,
    perform EShutdownRenewer ≫= λ _, Ret result
  end.

Definition recover_cutover (b : BucketId) (o : ArchiveRecoveryOutcome) : recovery :=
  with_claim (ClaimArchive b (cfg_lease_for cfg)) o (recover_claimed_cutover b).

Definition recover_cleanup (b : BucketId) (o : ArchiveRecoveryOutcome) : recovery :=
  with_claim (ClaimCleanup b (cfg_lease_for cfg)) o finish_cleanup.

(** The [for item in work] loop, which stops at the first error, and the end of the cycle. *)
Fixpoint recover_all (work : list ArchiveWork) (o : ArchiveRecoveryOutcome) :
    prog (Result ArchiveRecoveryError ArchiveRecoveryOutcome) :=
  match work with
  | [] => telemetry_elapsed coordinator_cycle_completed ≫= λ _, Ret (Ok o)
  | item :: work =>
    match item with Cleanup b => recover_cleanup b o | Cutover b => recover_cutover b o end ≫= λ '(r, o),
    match r with
    | Err e => telemetry_elapsed coordinator_cycle_failed ≫= λ _, Ret (Err e)
    | Ok _ => recover_all work o
    end
  end.

Definition run_once : prog (Result ArchiveRecoveryError ArchiveRecoveryOutcome) :=
  telemetry coordinator_cycle_started ≫= λ _,
  store (DiscoverArchiveWork (mkScan (cfg_eligible_before cfg) (cfg_scan_limit cfg))) ≫= λ r,
  match r with
  | Err e => telemetry_elapsed coordinator_cycle_failed ≫= λ _, Ret (Err (RecoveryDurableStore e))
  | Ok work =>
    let discovered := as_u32 (Z.of_nat (length work)) in
    telemetry (coordinator_phase_count PhaseQueued discovered) ≫= λ _,
    recover_all work (mkRecovery discovered 0 0 0)
  end.
End recovery.

(** ** The fencing discipline *)
(** What a worker's current session has done: nothing is claimed; a cutover is claimed;
    the bucket was snapshotted; the snapshot was uploaded under the name [key]; the session
    may only release or clean up. *)
Inductive phase :=
  | Idle
  | Claimed (s : ArchiveSession)
  | Snapped (s : ArchiveSession) (rs : list Record_)
  | Uploaded (s : ArchiveSession) (key : string)
  | Closing (s : ArchiveSession).

Definition phase_session (ph : phase) : option ArchiveSession :=
  match ph with
  | Idle => None
  | Claimed s | Snapped s _ | Uploaded s _ | Closing s => Some s
  end.

Section discipline.
Context `{Chrono}.

(** The calls allowed in a phase. *)
Definition allowed_store {X} (ph : phase) (c : store_call X) : Prop :=
  wf_call c ∧
  match c with
  | State _ | DiscoverArchiveWork _ | ReadRange _ _ _ _ => True
  | ClaimArchive _ _ | ClaimCleanup _ _ | BeginArchive _ => ph = Idle
  | Append _ _ => False
  | RenewArchiveLease s _ | DeferArchive s _ | DeferCleanup s _ | AbortArchive s
  | DeleteHotBucket s => phase_session ph = Some s
  | Snapshot s => ph = Claimed s
  | PublishArchive s key => ph = Uploaded s key
  end.
Definition allowed {X} (ph : phase) (e : event X) : Prop :=
  match e with
  | EStore c => allowed_store ph c
  | EArchive (PutBucketGeneration b g rs) =>
      ∃ s, ph = Snapped s rs ∧ b = session_bucket s ∧ g = session_generation s
  | EArchive (PutBucket _ _) => False
  | EArchive (GetBucket b _) => canonical b
  | EStartRenewer s _ _ => phase_session ph = Some s
  | EPollFailure | EShutdownRenewer | ETelemetry _ | EElapsed => True
  end.

(** The phase after a call has answered. *)
Definition advance_store {X} (ph : phase) (c : store_call X) : X → phase :=
  match c in store_call X return X → phase with
  | ClaimArchive _ _ => λ r, match r with Ok (Some s) => Claimed s | _ => ph end
  | BeginArchive _ => λ r, match r with Ok s => Claimed s | _ => ph end
  | ClaimCleanup _ _ => λ r, match r with Ok (Some s) => Closing s | _ => ph end
  | Snapshot s => λ r, match r with Ok rs => Snapped s rs | _ => ph end
  | _ => λ _, ph
  end.
Definition advance {X} (ph : phase) (e : event X) : X → phase :=
  match e in event X return X → phase with
  | EStore c => advance_store ph c
  | EArchive c => match c in archive_call X return X → phase with
    | PutBucketGeneration b g rs => λ r,
        match ph, r with
        | Snapped s _, Ok key => Uploaded s key
        | Snapped s _, Err _ => Closing s
        | _, _ => ph
        end
    | _ => λ _, ph
    end
  | EShutdownRenewer => λ _, Idle
  | _ => λ _, ph
  end.

(** What the ports guarantee about an answer. *)
Definition plausible {X} (e : event X) : X → Prop :=
  match e in event X return X → Prop with
  | EStore c => match c in store_call X return X → Prop with
    | DiscoverArchiveWork scan => λ r,
        match r with Ok ws => Forall (λ w, canonical (work_bucket w)) ws | Err _ => True end
    | ClaimArchive b _ | ClaimCleanup b _ => λ r,
        match r with Ok (Some s) => session_bucket s = b | _ => True end
    | BeginArchive b => λ r, match r with Ok s => session_bucket s = b | _ => True end
    | _ => λ _, True
    end
  | _ => λ _, True
  end.

(** A program keeps the discipline from a phase on, and [Q] holds of the phase it ends in. *)
Fixpoint keeps {A} (Q : phase → A → Prop) (ph : phase) (p : prog A) : Prop :=
  match p with
  | Ret a => Q ph a
  | Vis e k => allowed ph e ∧ ∀ x, plausible e x → keeps Q (advance ph e x) (k x)
  end.
Definition disciplined {A} (p : prog A) : Prop := keeps (λ _ _, True) Idle p.
End discipline.
Arguments keeps : simpl never.

(** ** Lemmas on the discipline *)
Section discipline_lemmas.
Context `{Chrono}.

Lemma keeps_mono {A} (Q Q' : phase → A → Prop) ph (p : prog A) :
  (∀ ph a, Q ph a → Q' ph a) → keeps Q ph p → keeps Q' ph p.
Proof.
  intros HQ. revert ph. induction p as [a|X e k IH]; intros ph; cbn; [apply HQ|].
  intros [Ha Hk]. split; [done|]. intros x Hx. by apply IH, Hk.
Qed.
Lemma keeps_bind {A B} (Q : phase → B → Prop) ph (p : prog A) (f : A → prog B) :
  keeps (λ ph a, keeps Q ph (f a)) ph p → keeps Q ph (p ≫= f).
Proof.
  revert ph. induction p as [a|X e k IH]; intros ph; cbn; [done|].
  intros [Ha Hk]. split; [done|]. intros x Hx. by apply IH, Hk.
Qed.
End discipline_lemmas.

(** ** The lifecycle of a session *)
(** The fencing discipline leaves out what the store refuses anyway. The coordinators do more:
    they take a session through the steps of a cutover in one order. Where a session is in
    that order: it was granted, for a cutover or for a cleanup; the lease of a cutover is being
    renewed; the bucket was snapshotted; the snapshot was uploaded under the name [key]; the
    publication answered an error, so it is not known whether it took effect; the bucket is
    archived and its mutable rows are still there; those rows could not be deleted; nothing was
    published, so the bucket may be given back; nothing is left to do. *)
Inductive stage :=
  | NoSession
  | Granted (s : ArchiveSession) (cleanup : bool)
  | Opened (s : ArchiveSession)
  | Captured (s : ArchiveSession) (rs : list Record_)
  | Stored (s : ArchiveSession) (key : string)
  | Doubtful (s : ArchiveSession)
  | Public (s : ArchiveSession)
  | Lingering (s : ArchiveSession)
  | Retreating (s : ArchiveSession)
  | Finished (s : ArchiveSession).

(** The session whose lease is being renewed. *)
Definition renewing (st : stage) : option ArchiveSession :=
  match st with
  | NoSession | Granted _ _ => None
  | Opened s | Captured s _ | Stored s _ | Doubtful s | Public s | Lingering s | Retreating s
  | Finished s => Some s
  end.

Section lifecycle.
Context `{Chrono}.

(** The one stage in which a call may be made. The mutable rows are deleted only when the archive
    is public; a cutover is aborted or deferred only when nothing was published; a cleanup is
    deferred only after the deletion failed; the state is read only to settle a publication. *)
Definition permitted_store {X} (st : stage) (c : store_call X) : Prop :=
  wf_call c ∧
  match c with
  | DiscoverArchiveWork _ | ClaimArchive _ _ | ClaimCleanup _ _ | BeginArchive _ => st = NoSession
  | Snapshot s => st = Opened s
  | PublishArchive s key => st = Stored s key
  | State b => ∃ s, st = Doubtful s ∧ b = session_bucket s
  | DeleteHotBucket s => st = Public s
  | DeferCleanup s _ => st = Lingering s
  | DeferArchive s _ | AbortArchive s => st = Retreating s
  | Append _ _ | ReadRange _ _ _ _ | RenewArchiveLease _ _ => False
  end.
Definition permitted {X} (st : stage) (e : event X) : Prop :=
  match e with
  | EStore c => permitted_store st c
  | EArchive (PutBucketGeneration b g rs) =>
      ∃ s, st = Captured s rs ∧ b = session_bucket s ∧ g = session_generation s
  | EArchive _ => False
  | EStartRenewer s _ _ => ∃ cleanup, st = Granted s cleanup
  | EPollFailure | EShutdownRenewer => is_Some (renewing st)
  | ETelemetry _ | EElapsed => True
  end.

(** The stage after a call has answered. *)
Definition progress_store {X} (st : stage) (c : store_call X) : X → stage :=
  match c in store_call X return X → stage with
  | ClaimArchive _ _ => λ r, match r with Ok (Some s) => Granted s false | _ => st end
  | BeginArchive _ => λ r, match r with Ok s => Granted s false | _ => st end
  | ClaimCleanup _ _ => λ r, match r with Ok (Some s) => Granted s true | _ => st end
  | Snapshot s => λ r, match r with Ok rs => Captured s rs | Err _ => Retreating s end
  | PublishArchive s _ => λ r, match r with Ok _ => Public s | Err _ => Doubtful s end
  | State _ => λ r,
      match st, r with
      | Doubtful s, Ok (Archived _ false) => Public s
      | Doubtful s, Ok Archiving => Retreating s
      | Doubtful s, _ => Finished s
      | _, _ => st
      end
  | DeleteHotBucket s => λ r, match r with Ok _ => Finished s | Err _ => Lingering s end
  | DeferArchive s _ | DeferCleanup s _ | AbortArchive s => λ _, Finished s
  | _ => λ _, st
  end.
Definition progress {X} (st : stage) (e : event X) : X → stage :=
  match e in event X return X → stage with
  | EStore c => progress_store st c
  | EArchive c => match c in archive_call X return X → stage with
    | PutBucketGeneration _ _ _ => λ r,
        match st, r with
        | Captured s _, Ok key => Stored s key
        | Captured s _, Err _ => Retreating s
        | _, _ => st
        end
    | _ => λ _, st
    end
  | EStartRenewer s _ _ => λ _,
      match st with
      | Granted _ true => Public s
      | Granted _ false => Opened s
      | _ => st
      end
  | EPollFailure => λ failure,
      match failure, renewing st with Some _, Some s => Finished s | _, _ => st end
  | EShutdownRenewer => λ _, NoSession
  | _ => λ _, st
  end.

(** A program follows the lifecycle from a stage on, and [Q] holds of the stage it ends in. *)
Fixpoint follows {A} (Q : stage → A → Prop) (st : stage) (p : prog A) : Prop :=
  match p with
  | Ret a => Q st a
  | Vis e k => permitted st e ∧ ∀ x, plausible e x → follows Q (progress st e x) (k x)
  end.
End lifecycle.
Arguments follows : simpl never.

(** The phase of the discipline a stage stands for. *)
Definition stage_phase (st : stage) (ph : phase) : Prop :=
  match st with
  | NoSession => ph = Idle
  | Granted s false | Opened s => ph = Claimed s
  | Captured s rs => ph = Snapped s rs
  | Stored s key => ph = Uploaded s key
  | Granted s true | Doubtful s | Public s | Lingering s | Retreating s | Finished s =>
      phase_session ph = Some s
  end.

Section lifecycle_lemmas.
Context `{Chrono}.

Lemma stage_phase_session st ph s : stage_phase st ph → renewing st = Some s → phase_session ph = Some s.
Proof. destruct st; simpl; intros; by simplify_eq. Qed.
Lemma permitted_allowed {X} (e : event X) st ph : stage_phase st ph → permitted st e → allowed ph e.
Proof.
  intros Hst. destruct e as [X c|X c|s lease interval| | |h|]; simpl; try done.
  - intros [Hc Hp]. split; [done|]. destruct c; naive_solver.
  - destruct c; naive_solver.
  - intros [[] ->]; simpl in Hst; by subst.
Qed.
Lemma stage_phase_progress {X} (e : event X) st ph x : stage_phase st ph → permitted st e →
  stage_phase (progress st e x) (advance ph e x).
Proof.
  intros Hst. destruct e as [X c|X c|s lease interval| | |h|]; simpl; try done.
  - intros [_ Hp]. destruct c; simpl; try done; try (destruct Hp as (s & -> & ->)); try (subst st);
      repeat case_match; simplify_eq/=; try done; congruence.
  - destruct c as [|b g rs|]; try done. intros (s & -> & -> & ->). simpl in *. subst ph. by destruct x.
  - intros [[] ->]; simpl in *; by subst.
  - destruct x as [f|], (renewing st) eqn:Hr; try done. intros _. by eapply stage_phase_session.
Qed.

(** Whatever follows the lifecycle keeps the discipline. *)
Lemma follows_keeps {A} (Q : stage → A → Prop) (Q' : phase → A → Prop) st ph (p : prog A) :
  (∀ st ph a, stage_phase st ph → Q st a → Q' ph a) → stage_phase st ph → follows Q st p → keeps Q' ph p.
Proof.
  intros HQ. revert st ph. induction p as [a|X e k IH]; intros st ph Hst; cbn; [by apply HQ|].
  intros [Hp Hk]. split; [by eapply permitted_allowed|]. intros x Hx.
  eapply IH; [by apply stage_phase_progress|by apply Hk].
Qed.

Lemma follows_mono {A} (Q Q' : stage → A → Prop) st (p : prog A) :
  (∀ st a, Q st a → Q' st a) → follows Q st p → follows Q' st p.
Proof.
  intros HQ. revert st. induction p as [a|X e k IH]; intros st; cbn; [apply HQ|].
  intros [Ha Hk]. split; [done|]. intros x Hx. by apply IH, Hk.
Qed.
Lemma follows_bind {A B} (Q : stage → B → Prop) st (p : prog A) (f : A → prog B) :
  follows (λ st a, follows Q st (f a)) st p → follows Q st (p ≫= f).
Proof.
  revert st. induction p as [a|X e k IH]; intros st; cbn; [done|].
  intros [Ha Hk]. split; [done|]. intros x Hx. by apply IH, Hk.
Qed.
Lemma follows_perform {X} (Q : stage → X → Prop) st (e : event X) :
  permitted st e → (∀ x, plausible e x → Q (progress st e x) x) → follows Q st (perform e).
Proof. by split. Qed.
(** Telemetry is always permitted and changes nothing. *)
Lemma follows_telemetry {A} Q st h (p : prog A) : follows Q st p → follows Q st (telemetry h ≫= λ _, p).
Proof. intros Hp. by apply follows_bind, follows_perform. Qed.
Lemma follows_elapsed {A} Q st h (p : prog A) : follows Q st p → follows Q st (telemetry_elapsed h ≫= λ _, p).
Proof. intros Hp. apply follows_bind, follows_bind, follows_perform; [done|]. intros t _. by apply follows_perform. Qed.

(** A supervised call: permitted now, the lease is still being renewed after it, and after a failure
    of the renewer nothing is left to do. *)
Lemma follows_supervise {T E} (Q : stage → Result DurableBucketStoreError (Result E T) → Prop) st s
    (e : event (Result E T)) :
  permitted st e → (∀ x, renewing (progress st e x) = Some s) →
  (∀ x, Q (progress st e x) (Ok x)) → (∀ err, Q (Finished s) (Err err)) → follows Q st (supervise (perform e)).
Proof.
  intros Hp Hr Hok Herr. apply follows_bind, follows_perform; [done|]. intros x _.
  specialize (Hr x). specialize (Hok x). generalize dependent (progress st e x). intros st' Hr Hok.
  apply follows_bind, follows_perform; [by exists s|]. intros [err|] _; simpl; [rewrite Hr; apply Herr|apply Hok].
Qed.
Lemma follows_supervised {T E} Q st s (e : event (Result E T)) o k :
  permitted st e → (∀ x, renewing (progress st e x) = Some s) →
  (∀ x, follows Q (progress st e x) (k x)) → (∀ err, Q (Finished s) (Err (RecoveryDurableStore err), o)) →
  follows Q st (supervised (perform e) o k).
Proof. intros Hp Hr Hk He. apply follows_bind. by apply follows_supervise with s. Qed.
Lemma follows_try {A B E F} (Q : stage → Result F B → Prop) st s (conv : DurableBucketStoreError → F)
    (e : event (Result E A)) k :
  permitted st e → (∀ x, renewing (progress st e x) = Some s) →
  (∀ x, follows Q (progress st e x) (k x)) → (∀ err, Q (Finished s) (Err (conv err))) →
  follows Q st (try_ conv (supervise (perform e)) k).
Proof. intros Hp Hr Hk He. apply follows_bind. by apply follows_supervise with s. Qed.
End lifecycle_lemmas.

Section programs.
Context `{Chrono}.

Section session.
Context (s : ArchiveSession) (Hs : canonical (session_bucket s)).

(** The worker still renews the lease of the session it started with. *)
Definition holds {A} : stage → A → Prop := λ st _, renewing st = Some s.

Lemma defer_cutover_follows cfg o err : follows holds (Retreating s) (defer_cutover cfg s o err).
Proof. apply follows_supervised with s; try done. by intros [u|e]; [apply follows_telemetry|]. Qed.
Lemma finish_cleanup_follows cfg o : follows holds (Public s) (finish_cleanup cfg s o).
Proof.
  apply follows_supervised with s; [done|by intros [u|e]| |done].
  intros [u|e]; [by apply follows_telemetry|]. apply follows_supervised with s; try done.
  by intros [u|e']; [apply follows_telemetry|].
Qed.
Lemma recover_claimed_cutover_follows cfg o :
  follows holds (Opened s) (recover_claimed_cutover cfg (session_bucket s) s o).
Proof.
  apply follows_supervised with s; [done|by intros [rs|e]| |done]. intros [rs|err]; [|apply defer_cutover_follows].
  apply follows_telemetry, follows_supervised with s; [by exists s|by intros [key|e]| |done].
  intros [key|err]; [|apply follows_bind; eapply follows_mono; [|apply defer_cutover_follows]; by intros st [r o']].
  apply follows_telemetry, follows_supervised with s; [done|by intros [u|e]| |done].
  intros [u|err]; [apply follows_telemetry, finish_cleanup_follows|].
  apply follows_supervised with s; [by split; [|exists s]|by intros [[| |k []]|e]| |done].
  intros [[| |k []]|e]; try done; [apply defer_cutover_follows|apply finish_cleanup_follows].
Qed.
Lemma archive_claimed_bucket_follows :
  follows holds (Opened s) (archive_claimed_bucket (session_bucket s) s).
Proof.
  assert (∀ E st (err : E) conv,
    follows holds (Retreating s) (telemetry (archive_failed (session_bucket s) st) ≫= λ _, try_ ArchiveDurableStore (supervise (store (AbortArchive s))) (λ aborted,
      Ret match aborted with Err e => Err (ArchiveDurableStore e) | Ok _ =>
        (Err (conv err) : Result DurableArchiveError ArchiveOutcome) end))) as Habort.
  { intros E st err conv. by apply follows_telemetry, follows_try with s. }
  apply follows_try with s; [done|by intros [rs|e]| |done]. intros [rs|err]; [|apply Habort].
  apply follows_try with s; [by exists s|by intros [key|e]| |done]. intros [key|err]; [|apply Habort].
  apply follows_try with s; [done|by intros [u|e]| |done]. intros [u|err]; [|done].
  apply follows_try with s; [done|by intros [u'|e]| |done].
  by intros [u'|err]; [apply follows_elapsed|apply follows_telemetry].
Qed.
End session.

(** No session is under way any more. *)
Definition closed {A} : stage → A → Prop := λ st _, st = NoSession.

(** The renewer of a session is shut down whatever the work returned. *)
Lemma follows_shutdown {A} s (p : prog A) st : follows (holds s) st p →
  follows closed st (p ≫= λ result, perform EShutdownRenewer ≫= λ _, Ret result).
Proof.
  intros Hp. apply follows_bind. eapply follows_mono; [|exact Hp]. intros st' r Hr.
  apply follows_bind, follows_perform; [by exists s|done].
Qed.

Lemma archive_bucket_follows b : canonical b → follows closed NoSession (archive_bucket b).
Proof.
  intros Hb. apply follows_telemetry, follows_bind, follows_perform; [by split|].
  intros [s|err] Hx; [|done]. simpl in Hx. subst b.
  apply follows_bind, follows_perform; [by exists false|]. intros [] _.
  by apply follows_shutdown with s, archive_claimed_bucket_follows.
Qed.

Section recovery_programs.
Context (cfg : ArchiveRecoveryConfig).

Lemma recover_cutover_follows b o : canonical b → follows closed NoSession (recover_cutover cfg b o).
Proof.
  intros Hb. apply follows_bind, follows_perform; [by split|]. intros [[s|]|err] Hx; [|done..]. simpl in Hx. subst b.
  apply follows_telemetry, follows_bind, follows_perform; [by exists false|]. intros [] _.
  by apply follows_shutdown with s, recover_claimed_cutover_follows.
Qed.
Lemma recover_cleanup_follows b o : canonical b → follows closed NoSession (recover_cleanup cfg b o).
Proof.
  intros Hb. apply follows_bind, follows_perform; [by split|]. intros [[s|]|err] Hx; [|done..]. simpl in Hx. subst b.
  apply follows_telemetry, follows_bind, follows_perform; [by exists true|]. intros [] _.
  by apply follows_shutdown with s, finish_cleanup_follows.
Qed.
Lemma recover_all_follows work o : Forall (λ w, canonical (work_bucket w)) work →
  follows closed NoSession (recover_all cfg work o).
Proof.
  intros Hw. revert o. induction Hw as [|w work Hw Hws IH]; intros o; [by apply follows_elapsed|]. apply follows_bind.
  apply follows_mono with closed.
  - intros st [[u|err] o'] ->; [apply IH|by apply follows_elapsed].
  - destruct w; [by apply recover_cutover_follows|by apply recover_cleanup_follows].
Qed.
Lemma run_once_follows : follows closed NoSession (run_once cfg).
Proof.
  apply follows_telemetry, follows_bind, follows_perform; [by split|].
  intros [work|err] Hx; [|by apply follows_elapsed]. by apply follows_telemetry, recover_all_follows.
Qed.
End recovery_programs.

(** A worker is idle again. *)
Definition idle {A} : phase → A → Prop := λ ph _, ph = Idle.

Lemma closed_idle {A} (p : prog A) : follows closed NoSession p → keeps idle Idle p.
Proof. apply follows_keeps; [|done]. by intros st ph a Hst ->. Qed.
Lemma archive_bucket_keeps b : canonical b → keeps idle Idle (archive_bucket b).
Proof. intros Hb. by apply closed_idle, archive_bucket_follows. Qed.
Lemma run_once_keeps cfg : keeps idle Idle (run_once cfg).
Proof. apply closed_idle, run_once_follows. Qed.

(** ** Theorems *)

(** C7. Both coordinators take every session through the steps of a cutover in order, on every
    path, whatever the ports answer, injected failures and renewal failures included. A
    session is claimed only when none is under way, and its renewer is started at once; the
    bucket is snapshotted before anything is uploaded; it is uploaded at most once, under its own
    bucket and generation and with exactly the snapshotted records; it is published only
    under the name that upload returned; the mutable rows are deleted only after the
    publication succeeded or was found to have taken effect, or under a session that was claimed to
    clean up an archived bucket; a cutover is aborted or deferred only when its snapshot or its upload failed or the
    bucket was found still archiving, a cleanup is deferred only when the deletion failed; after a
    failure of the renewer no storage call is made; and at the end every renewer is shut
    down. In particular both keep the fencing discipline under which no record is lost. *)
Theorem coordinators_are_disciplined cfg b : canonical b →
  follows closed NoSession (archive_bucket b) ∧ follows closed NoSession (run_once cfg) ∧
  keeps idle Idle (archive_bucket b) ∧ keeps idle Idle (run_once cfg).
Proof.
  intros Hb. split_and!;
    [by apply archive_bucket_follows|apply run_once_follows|by apply archive_bucket_keeps|apply run_once_keeps].
Qed.
End programs.

(** [validate] accepts exactly the configurations in which every duration and the limit are
    set and the lease outlives the renewal interval. *)
Lemma config_validate_ok c : config_validate c = Ok tt ↔
  cfg_scan_limit c ≠ 0 ∧ cfg_lease_for c ≠ 0 ∧ cfg_lease_renewal_interval c ≠ 0 ∧
  cfg_lease_renewal_interval c < cfg_lease_for c ∧ cfg_retry_backoff c ≠ 0.
Proof.
  unfold config_validate. destruct (_ || _) eqn:E.
  - split; [done|]. intros (?&?&?&?&?). rewrite !orb_true_iff in E. zbool.
    destruct E as [[[[E|E]|E]|E]|E]; zbool; lia.
  - split; [|done]. intros _. zbool. lia.
Qed.

(** ** Results of a cycle *)
(** [Q] holds of whatever the program returns, for every sequence of answers. *)
Fixpoint ends {A} (Q : A → Prop) (p : prog A) : Prop :=
  match p with Ret a => Q a | Vis e k => ∀ x, ends Q (k x) end.
Arguments ends : simpl never.

Lemma ends_ret {A} (Q : A → Prop) a : Q a → ends Q (Ret a).
Proof. done. Qed.
Lemma ends_mono {A} (Q Q' : A → Prop) (p : prog A) : (∀ a, Q a → Q' a) → ends Q p → ends Q' p.
Proof.
  intros HQ. induction p as [a|X e k IH]; cbn; [apply HQ|]. intros Hp x. apply IH, Hp.
Qed.
Lemma ends_bind {A B} (Q : B → Prop) (p : prog A) (f : A → prog B) :
  ends (λ a, ends Q (f a)) p → ends Q (p ≫= f).
Proof. induction p as [a|X e k IH]; cbn; [done|]. intros Hp x. apply IH, Hp. Qed.
Lemma ends_perform {X} (Q : X → Prop) (e : event X) : (∀ x, Q x) → ends Q (perform e).
Proof. done. Qed.
Lemma ends_supervised {T E} Q (c : event (Result E T)) o k :
  (∀ r, ends Q (k r)) → (∀ e, Q (Err (RecoveryDurableStore e), o)) → ends Q (supervised (perform c) o k).
Proof.
  intros Hk He. apply ends_bind, ends_bind, ends_perform. intros r. apply ends_bind, ends_perform.
  intros [e|]; [apply He|apply Hk].
Qed.

Lemma ends_telemetry {A} (Q : A → Prop) h (p : prog A) : ends Q p → ends Q (telemetry h ≫= λ _, p).
Proof. intros Hp. by apply ends_bind, ends_perform. Qed.
Lemma ends_elapsed {A} (Q : A → Prop) h (p : prog A) : ends Q p → ends Q (telemetry_elapsed h ≫= λ _, p).
Proof. intros Hp. apply ends_bind, ends_bind, ends_perform. intros t. by apply ends_perform. Qed.

(** A step that succeeds has completed all it claimed and deferred nothing. *)
Definition accounted (n : Z) (o : ArchiveRecoveryOutcome)
    (ro : Result ArchiveRecoveryError unit * ArchiveRecoveryOutcome) : Prop :=
  match ro.1 with
  | Err _ => True
  | Ok _ => discovered ro.2 = discovered o ∧ deferred ro.2 = deferred o ∧
      completed ro.2 - completed o = claimed ro.2 - claimed o + n ∧
      claimed o <= claimed ro.2 <= claimed o + 1 - n
  end.

Lemma defer_cutover_ends cfg s o err : ends (accounted 1 o) (defer_cutover cfg s o err).
Proof. apply ends_supervised; [|done]. intros [u|e]; [by apply ends_telemetry|done]. Qed.
Lemma finish_cleanup_ends cfg s o : ends (accounted 1 o) (finish_cleanup cfg s o).
Proof.
  apply ends_supervised; [|done]. intros [u|e]; [apply ends_telemetry, ends_ret; unfold accounted; simpl; lia|].
  apply ends_supervised; [|done]. intros [u|e']; [by apply ends_telemetry|done].
Qed.
Lemma recover_claimed_cutover_ends cfg b s o : ends (accounted 1 o) (recover_claimed_cutover cfg b s o).
Proof.
  apply ends_supervised; [|done]. intros [rs|err]; [|apply defer_cutover_ends].
  apply ends_telemetry, ends_supervised; [|done]. intros [key|err].
  2: { apply ends_bind. eapply ends_mono; [|apply defer_cutover_ends]. by intros [[u|e] o'] _. }
  apply ends_telemetry, ends_supervised; [|done]. intros [u|err]; [apply ends_telemetry, finish_cleanup_ends|].
  apply ends_supervised; [|done]. intros [[| |k []]|e]; try done.
  - apply defer_cutover_ends.
  - apply finish_cleanup_ends.
Qed.
Lemma with_claim_ends cfg claim o work :
  (∀ s o', ends (accounted 1 o') (work s o')) → ends (accounted 0 o) (with_claim cfg claim o work).
Proof.
  intros Hw. apply ends_bind, ends_perform. intros [[s|]|e]; [|apply ends_ret; unfold accounted; simpl; lia|done].
  apply ends_telemetry, ends_bind, ends_perform. intros []. apply ends_bind. eapply ends_mono; [|apply Hw].
  intros [[u|e] o'] Ho; apply ends_bind, ends_perform; intros []; [|done].
  apply ends_ret. unfold accounted in *. simpl in *. lia.
Qed.
Lemma recover_all_ends cfg work o :
  ends (λ r, match r with Err _ => True | Ok o' =>
      discovered o' = discovered o ∧ deferred o' = deferred o ∧
      completed o' - completed o = claimed o' - claimed o ∧
      claimed o <= claimed o' <= claimed o + Z.of_nat (length work) end) (recover_all cfg work o).
Proof.
  revert o. induction work as [|w work IH]; intros o; [apply ends_elapsed, ends_ret; simpl; lia|]. apply ends_bind.
  apply ends_mono with (accounted 0 o).
  - intros [[u|e] o'] Ho; [|by apply ends_elapsed]. eapply ends_mono; [|apply IH].
    intros [o''|e]; [|done]. unfold accounted in Ho. simpl in *. lia.
  - destruct w; apply with_claim_ends; intros.
    + apply recover_claimed_cutover_ends.
    + apply finish_cleanup_ends.
Qed.

(** The outcome of a recovery cycle that returns one: every item it claimed it also completed,
    it claimed no more than it discovered, no counter can overflow its 32 bits, and the
    deferred count is zero, because a deferral makes the cycle return an error instead. *)
Theorem cycle_outcome_accounts cfg work : 0 <= cfg_scan_limit cfg < 2 ^ 32 →
  (length work ≤ Z.to_nat (cfg_scan_limit cfg))%nat →
  ends (λ r, match r with Err _ => True | Ok o =>
      discovered o = Z.of_nat (length work) ∧ completed o = claimed o ∧ deferred o = 0 ∧
      0 <= claimed o <= discovered o ∧ discovered o < 2 ^ 32 end)
    (recover_all cfg work (mkRecovery (as_u32 (Z.of_nat (length work))) 0 0 0)).
Proof.
  intros Hl Hw. eapply ends_mono; [|apply recover_all_ends]. intros [o|e]; [|done]. simpl.
  assert (as_u32 (Z.of_nat (length work)) = Z.of_nat (length work)) as ->
    by (unfold as_u32; apply Z.mod_small; lia). lia.
Qed.

(** A recovery step never returns an archive error. *)
Definition masks_archive_errors (ro : Result ArchiveRecoveryError unit * ArchiveRecoveryOutcome) : Prop :=
  ∀ e, ro.1 ≠ Err (RecoveryArchive e).

Lemma defer_cutover_masks cfg s o err :
  ends (λ ro, masks_archive_errors ro ∧ is_ok ro.1 = false) (defer_cutover cfg s o err).
Proof. apply ends_supervised; [|done]. intros [u|e]; [by apply ends_telemetry|done]. Qed.
Lemma finish_cleanup_masks cfg s o : ends masks_archive_errors (finish_cleanup cfg s o).
Proof.
  apply ends_supervised; [|done]. intros [u|e]; [by apply ends_telemetry|].
  apply ends_supervised; [|done]. intros [u|e']; [by apply ends_telemetry|done].
Qed.
Lemma recover_claimed_cutover_masks cfg b s o : ends masks_archive_errors (recover_claimed_cutover cfg b s o).
Proof.
  assert (∀ o err, ends masks_archive_errors (defer_cutover cfg s o err)) as Hdefer.
  { intros o' err. eapply ends_mono; [|apply defer_cutover_masks]. by intros ro [? _]. }
  apply ends_supervised; [|done]. intros [rs|err]; [|apply Hdefer].
  apply ends_telemetry, ends_supervised; [|done]. intros [key|err].
  2: { apply ends_bind. eapply ends_mono; [|apply defer_cutover_masks].
    intros [[u|e] o'] [Hm Hf]; [done|]. apply ends_ret. exact Hm. }
  apply ends_telemetry, ends_supervised; [|done]. intros [u|err]; [apply ends_telemetry, finish_cleanup_masks|].
  apply ends_supervised; [|done]. intros [[| |k []]|e]; by first [apply finish_cleanup_masks|apply Hdefer|done].
Qed.
Lemma with_claim_masks cfg claim o work : (∀ s o', ends masks_archive_errors (work s o')) →
  ends masks_archive_errors (with_claim cfg claim o work).
Proof.
  intros Hw. apply ends_bind, ends_perform. intros [[s|]|e]; [|done..].
  apply ends_telemetry, ends_bind, ends_perform. intros []. apply ends_bind. eapply ends_mono; [|apply Hw].
  intros ro Hro. apply ends_bind, ends_perform. by intros [].
Qed.

(** The recovery runner never reports why an upload failed: the archive's error is replaced,
    on every path, by the store error with which the item was deferred, so no cycle returns
    the [Archive] variant of its error type. *)
Theorem cycle_masks_upload_errors cfg : ends (λ r, ∀ e, r ≠ Err (RecoveryArchive e)) (run_once cfg).
Proof.
  apply ends_telemetry, ends_bind, ends_perform. intros [work|e]; [|by apply ends_elapsed]. apply ends_telemetry.
  generalize (mkRecovery (as_u32 (Z.of_nat (length work))) 0 0 0).
  induction work as [|w work IH]; intros o; [by apply ends_elapsed|].
  apply ends_bind. apply ends_mono with masks_archive_errors.
  - intros [[u|e] o'] Hm; [apply IH|]. apply ends_elapsed, ends_ret. intros e' [= ->]. by apply (Hm e').
  - destruct w; apply with_claim_masks; intros; [apply recover_claimed_cutover_masks|apply finish_cleanup_masks].
Qed.
