(* ===== verification/Reports.v ===== *)
(** What the archive coordinators and the router tell their telemetry: which hooks a recovery cycle,
    a direct cutover and a bucket read call, in which order, on every path the storage ports may
    drive them along; and, through the OpenTelemetry implementation, what the counters show after a
    cycle. *)
From S2P Require Import Prelude Chrono Model Storage Observability Prog Table Coordinator.
Local Open Scope Z_scope.

(** ** Reading a log of hooks *)
(** The phases entered, in order. *)
Definition entered_phase (h : hook) : option CoordinatorPhase :=
  match h with coordinator_phase_entered p => Some p | _ => None end.
Definition entered (log : list hook) : list CoordinatorPhase := omap entered_phase log.
Definition times (p : CoordinatorPhase) (log : list hook) : Z :=
  Z.of_nat (length (filter (p =.) (entered log))).

(** The hooks about the cycle as a whole. *)
Definition cycle_hook (h : hook) : bool :=
  match h with
  | coordinator_cycle_started | coordinator_cycle_completed _ | coordinator_cycle_failed _ => true
  | _ => false
  end.
Definition cycle_hooks (log : list hook) : list hook := filter (λ h, Is_true (cycle_hook h)) log.

(** Which phase may follow which: an item is claimed when no other is under way; a cutover uploads,
    verifies and publishes before it completes, except that a publication found to have committed
    goes straight to cleanup; an item may be scheduled for a retry from every phase but the last,
    which ends the cycle. *)
Definition follows (prev : option CoordinatorPhase) (next : CoordinatorPhase) : bool :=
  match prev, next with
  | (None | Some PhaseCompleted), PhaseClaimed => true
  | Some PhaseClaimed, (PhaseUploading | PhaseCompleted | PhaseRetryScheduled) => true
  | Some PhaseUploading, (PhaseUploadedVerified | PhaseRetryScheduled) => true
  | Some PhaseUploadedVerified, (PhasePublishedCleanupPending | PhaseCompleted | PhaseRetryScheduled) => true
  | Some PhasePublishedCleanupPending, (PhaseCompleted | PhaseRetryScheduled) => true
  | _, _ => false
  end.
Fixpoint lifecycle (prev : option CoordinatorPhase) (ps : list CoordinatorPhase) : bool :=
  match ps with [] => true | p :: ps => follows prev p && lifecycle (Some p) ps end.

(** ** Reading the counters *)
(** What a counter of a series has grown by. *)
Definition counter_total (name : string) (attrs : attributes) (ms : list Measurement) : Z :=
  foldr (λ m total, if bool_decide (series_of m = (name, attrs))
                    then match m_reading m with U64 n => n + total | F64 _ => total end else total) 0 ms.
Definition measured (log : list hook) : list Measurement :=
  log ≫= report otel.OtelTelemetry_new.

(** ** Lemmas *)
Lemma entered_app log log' : entered (log ++ log') = entered log ++ entered log'.
Proof. unfold entered. induction log as [|h log IH]; csimpl; [done|]. by destruct (entered_phase h); rewrite IH. Qed.
Lemma times_app p log log' : times p (log ++ log') = times p log + times p log'.
Proof. unfold times. rewrite entered_app, filter_app, length_app. lia. Qed.
Lemma cycle_hooks_app log log' : cycle_hooks (log ++ log') = cycle_hooks log ++ cycle_hooks log'.
Proof. apply filter_app. Qed.
Lemma lifecycle_snoc prev ps p :
  lifecycle prev (ps ++ [p]) = lifecycle prev ps && follows (match last ps with None => prev | q => q end) p.
Proof.
  revert prev. induction ps as [|q ps IH]; intros prev; simpl; [by rewrite andb_true_r|].
  rewrite IH, andb_assoc. destruct ps as [|q' ps]; [done|].
  change (last (q :: q' :: ps)) with (last (q' :: ps)).
  by destruct (last (q' :: ps)) eqn:E; [|apply last_None in E].
Qed.

(** The log agrees with the counts so far, and [prev] is the phase of the item under way. *)
Record tracked (prev : option CoordinatorPhase) (log : list hook) (o : ArchiveRecoveryOutcome) : Prop := {
  tr_claimed : times PhaseClaimed log = claimed o;
  tr_completed : times PhaseCompleted log = completed o;
  tr_deferred : times PhaseRetryScheduled log = deferred o;
  tr_lifecycle : lifecycle None (entered log) = true;
  tr_last : last (entered log) = prev;
  tr_cycle : cycle_hooks log = [coordinator_cycle_started]
}.
Definition note (p : CoordinatorPhase) (o : ArchiveRecoveryOutcome) : ArchiveRecoveryOutcome :=
  match p with
  | PhaseClaimed => count_claimed o
  | PhaseCompleted => count_completed o
  | PhaseRetryScheduled => count_deferred o
  | _ => o
  end.
Lemma tracked_enter prev p log o : tracked prev log o → follows prev p = true →
  tracked (Some p) (log ++ [coordinator_phase_entered p]) (note p o).
Proof.
  intros [] Hp. split; rewrite ?times_app, ?entered_app, ?cycle_hooks_app; simpl.
  1-3: rewrite ?tr_claimed0, ?tr_completed0, ?tr_deferred0; destruct p; simpl; unfold times; simpl; lia.
  - rewrite lifecycle_snoc, tr_lifecycle0, tr_last0. by destruct prev.
  - by rewrite last_snoc.
  - by rewrite tr_cycle0.
Qed.

Section recovery_reports.
Context (cfg : ArchiveRecoveryConfig).

(** After a step: still tracked, and no item is left under way if it succeeded. *)
Definition settled (prev : option CoordinatorPhase) : Prop := prev = None ∨ prev = Some PhaseCompleted.
Definition step_reported (log : list hook) (ro : Result ArchiveRecoveryError unit * ArchiveRecoveryOutcome) : Prop :=
  ∃ prev, tracked prev log ro.2 ∧ (is_ok ro.1 = true → settled prev).

Lemma supervised_reports {T E} Q log (e : event (Result E T)) o k : hook_of e = [] →
  (∀ r, reports Q log (k r)) → (∀ err, Q log (Err (RecoveryDurableStore err), o)) →
  reports Q log (supervised (perform e) o k).
Proof.
  intros Hh Hk He. apply reports_bind, reports_supervise, reports_perform. intros x. rewrite Hh, app_nil_r.
  split; [apply Hk|]. intros err. apply He.
Qed.
Lemma telemetry_reports {A} Q log h (p : prog A) :
  reports Q (log ++ [h]) p → reports Q log (telemetry h ≫= λ _, p).
Proof. intros Hp. by apply reports_bind, reports_telemetry. Qed.
Lemma failed_reported prev log o e : tracked prev log o → step_reported log (Err e, o).
Proof. intros Ht. by exists prev. Qed.

Lemma enter_reports {A} Q prev p log o (k : prog A) : tracked prev log o → follows prev p = true →
  (∀ log', tracked (Some p) log' (note p o) → reports Q log' k) →
  reports Q log (telemetry (coordinator_phase_entered p) ≫= λ _, k).
Proof. intros Ht Hp Hk. apply telemetry_reports, Hk. by eapply tracked_enter. Qed.

Lemma defer_cutover_reports s o err prev log : tracked prev log o → follows prev PhaseRetryScheduled = true →
  reports (λ l ro, step_reported l ro ∧ is_ok ro.1 = false) log (defer_cutover cfg s o err).
Proof.
  intros Ht Hp. apply supervised_reports; [done| |intros e; split; [by eapply failed_reported|done]].
  intros [u|e]; [|split; [by eapply failed_reported|done]]. eapply enter_reports; [done..|]. intros log' Ht'.
  split; [by eapply failed_reported|done].
Qed.
Lemma finish_cleanup_reports s o prev log : tracked prev log o → follows prev PhaseCompleted = true →
  follows prev PhaseRetryScheduled = true → reports step_reported log (finish_cleanup cfg s o).
Proof.
  intros Ht Hc Hr. apply supervised_reports; [done| |intros e; by eapply failed_reported]. intros [u|e].
  - eapply enter_reports; [done..|]. intros log' Ht'. exists (Some PhaseCompleted). split; [done|by right].
  - apply supervised_reports; [done| |intros e'; by eapply failed_reported].
    intros [u|e']; [|by eapply failed_reported]. eapply enter_reports; [done..|]. intros log' Ht'. by eapply failed_reported.
Qed.
Lemma recover_claimed_cutover_reports b s o log : tracked (Some PhaseClaimed) log o →
  reports step_reported log (recover_claimed_cutover cfg b s o).
Proof.
  assert (∀ o err prev log, tracked prev log o → follows prev PhaseRetryScheduled = true →
    reports step_reported log (defer_cutover cfg s o err)) as Hdefer.
  { intros o' err prev log' Ht Hp. eapply reports_mono; [|by eapply defer_cutover_reports]. by intros l ro [? _]. }
  intros Ht. apply supervised_reports; [done| |intros e; by eapply failed_reported].
  intros [rs|err]; [|by eapply Hdefer]. eapply enter_reports; [done..|]. clear dependent log. intros log Ht.
  apply supervised_reports; [done| |intros e; by eapply failed_reported]. intros [key|err].
  2: { apply reports_bind. eapply reports_mono; [|by eapply defer_cutover_reports].
    intros l [[u|e] o'] [(prev & Hl & _) Hf]; [done|]. apply reports_ret. by eapply failed_reported. }
  eapply enter_reports; [done..|]. clear dependent log. intros log Ht.
  apply supervised_reports; [done| |intros e; by eapply failed_reported]. intros [u|err].
  - eapply enter_reports; [done..|]. intros log' Ht'. by eapply finish_cleanup_reports.
  - apply supervised_reports; [done| |intros e; by eapply failed_reported].
    intros [[| |k []]|e]; try (by eapply failed_reported); [by eapply Hdefer|by eapply finish_cleanup_reports].
Qed.
Lemma with_claim_reports claim o work prev log : tracked prev log o → settled prev →
  (∀ s log', tracked (Some PhaseClaimed) log' (count_claimed o) → reports step_reported log' (work s (count_claimed o))) →
  reports step_reported log (with_claim cfg claim o work).
Proof.
  intros Ht Hs Hw. apply reports_bind, reports_perform. rewrite app_nil_r.
  intros [[s|]|e]; [|by exists prev|by eapply failed_reported].
  eapply enter_reports; [done|by destruct Hs as [->| ->]|]. intros log' Ht'.
  apply reports_bind, reports_perform. intros []. apply reports_bind. rewrite app_nil_r.
  eapply reports_mono; [|by apply Hw]. intros l ro Hro. apply reports_bind, reports_perform. intros [].
  by rewrite app_nil_r.
Qed.

(** What a whole cycle reports: [o] is the outcome it returns, when it returns one. *)
Definition cycle_reported (log : list hook) (r : Result ArchiveRecoveryError ArchiveRecoveryOutcome) : Prop :=
  lifecycle None (entered log) = true ∧
  match r with
  | Ok o => ∃ t, cycle_hooks log = [coordinator_cycle_started; coordinator_cycle_completed t] ∧
      times PhaseClaimed log = claimed o ∧ times PhaseCompleted log = completed o ∧
      times PhaseRetryScheduled log = deferred o ∧ settled (last (entered log))
  | Err _ => ∃ t, cycle_hooks log = [coordinator_cycle_started; coordinator_cycle_failed t]
  end.

(** The end of a cycle adds one hook and enters no phase. *)
Lemma end_reports {A} Q log (h : Z → hook) (p : prog A) : (∀ t, reports Q (log ++ [h t]) p) →
  reports Q log (telemetry_elapsed h ≫= λ _, p).
Proof. intros Hp. by apply reports_bind, reports_elapsed. Qed.
Lemma recover_all_reports work o prev log : tracked prev log o → settled prev →
  reports cycle_reported log (recover_all cfg work o).
Proof.
  assert (∀ log o prev e, tracked prev log o →
    reports cycle_reported log (telemetry_elapsed coordinator_cycle_failed ≫= λ _, Ret (Err e))) as Hfail.
  { intros log' o' prev' e []. apply end_reports. intros t. apply reports_ret. unfold cycle_reported.
    rewrite entered_app, cycle_hooks_app, tr_cycle0. simpl. rewrite app_nil_r. eauto. }
  revert o prev log. induction work as [|w work IH]; intros o prev log Ht Hs.
  - destruct Ht. apply end_reports. intros t. apply reports_ret. unfold cycle_reported.
    rewrite !times_app, entered_app, cycle_hooks_app, tr_cycle0. simpl. rewrite app_nil_r. split; [done|].
    exists t. unfold times at 2 4 6. simpl. subst prev. split_and!; [done|lia..|done].
  - apply reports_bind. apply reports_mono with step_reported.
    + intros l [[u|e] o'] (prev' & Ht' & Hs'); [by eapply IH; [|apply Hs']|by eapply Hfail].
    + destruct w; (eapply with_claim_reports; [done..|]); intros s log' Ht';
        [by apply recover_claimed_cutover_reports|by eapply finish_cleanup_reports].
Qed.
Lemma run_once_reports : reports cycle_reported [] (run_once cfg).
Proof.
  apply telemetry_reports, reports_bind, reports_perform. intros [work|e]; simpl.
  - apply telemetry_reports. eapply recover_all_reports; [|by left]. by split.
  - apply end_reports. intros t. apply reports_ret. split; [done|]. by exists t.
Qed.
End recovery_reports.

(** ** The counters *)
Lemma counter_total_app name attrs ms ms' :
  counter_total name attrs (ms ++ ms') = counter_total name attrs ms + counter_total name attrs ms'.
Proof. induction ms as [|m ms IH]; simpl; [lia|]. rewrite IH. repeat case_match; lia. Qed.

(** Only entering a phase moves its counter of transitions. *)
Definition transitions (p : CoordinatorPhase) (ms : list Measurement) : Z :=
  counter_total (i_name (otel.coordinator_phase_transitions otel.OtelTelemetry_new)) [otel.coordinator_phase p] ms.
Definition cycles (outcome : string) (ms : list Measurement) : Z :=
  counter_total (i_name (otel.coordinator_cycles otel.OtelTelemetry_new)) [otel.coordinator_outcome outcome] ms.

Ltac one_series :=
  repeat (first [rewrite bool_decide_eq_true_2 by done | rewrite bool_decide_eq_false_2 by (intros [=])]); try done.
Lemma transitions_hook p h : transitions p (report otel.OtelTelemetry_new h) = times p [h].
Proof.
  unfold transitions. destruct h as [b|b n t|b st|b tier|x y z| |t|t|q|q n]; cbn; one_series.
  destruct p, q; cbn; one_series.
Qed.
Lemma transitions_measured p log : transitions p (measured log) = times p log.
Proof.
  induction log as [|h log IH]; [done|]. change (h :: log) with ([h] ++ log). rewrite times_app, <- transitions_hook, <- IH.
  unfold measured, transitions. rewrite bind_app, counter_total_app. simpl. by rewrite app_nil_r.
Qed.
Lemma cycles_measured outcome log :
  cycles outcome (measured log) = cycles outcome (measured (cycle_hooks log)).
Proof.
  induction log as [|h log IH]; [done|]. change (h :: log) with ([h] ++ log). rewrite cycle_hooks_app.
  unfold measured, cycles in *. rewrite !bind_app, !counter_total_app, IH. f_equal.
  destruct h as [b|b n t|b st|b tier|x y z| |t|t|q|q n]; cbn; one_series.
Qed.

(** ** Theorems *)

(** C8. The coordinator's metrics agree with what its cycle did, whatever the storage ports answer: a
    cycle counts one start and exactly one outcome, a success when it returns one and a failure when
    it returns an error; the phases it enters follow the lifecycle of an archival job; and when it
    succeeds, the transitions counted as claimed, completed and scheduled for a retry are the numbers
    of the returned outcome, with no item left under way. *)
Theorem cycle_metrics_agree cfg :
  reports (λ log r,
    lifecycle None (entered log) = true ∧
    cycles "started" (measured log) = 1 ∧
    cycles "success" (measured log) = (if is_ok r then 1 else 0) ∧
    cycles "failure" (measured log) = (if is_ok r then 0 else 1) ∧
    match r with
    | Err _ => True
    | Ok o => transitions PhaseClaimed (measured log) = claimed o ∧
        transitions PhaseCompleted (measured log) = completed o ∧
        transitions PhaseRetryScheduled (measured log) = deferred o ∧
        settled (last (entered log))
    end) [] (run_once cfg).
Proof.
  eapply reports_mono; [|apply run_once_reports]. intros log r [Hl Hr].
  rewrite (cycles_measured "started"), (cycles_measured "success"), (cycles_measured "failure").
  destruct r as [o|e]; [destruct Hr as (t & -> & Ha & Hb & Hc & Hd)|destruct Hr as (t & ->)].
  - rewrite !transitions_measured. by split_and!.
  - by split_and!.
Qed.

(** A direct cutover is counted as started, and as completed, with the number of records it moved,
    exactly when it succeeds; one that fails counts at most one failed stage. *)
Theorem cutover_is_reported b :
  reports (λ log r, ∃ rest, log = archive_started b :: rest ∧
    match r with
    | Ok out => out_bucket out = b ∧ ∃ t, rest = [archive_completed b (Z.of_nat (records_archived out)) t]
    | Err _ => rest = [] ∨ ∃ st, rest = [archive_failed b st]
    end) [] (archive_bucket b).
Proof.
  apply telemetry_reports, reports_bind, reports_perform. intros [s|e]; [|by exists []; auto].
  apply reports_bind, reports_perform. intros []. apply reports_bind.
  set (Q log r := ∃ rest, log = archive_started b :: rest ∧ match r with Ok out => _ | Err _ => _ end).
  eapply (reports_mono Q); [intros log r HQ; apply reports_bind, reports_perform; intros []; by rewrite app_nil_r|].
  assert (∀ e, Q [archive_started b] (Err e)) as Herr by (intros e; exists []; auto).
  assert (∀ {T E} (c : event (Result E T)) k, hook_of c = [] → (∀ x, reports Q [archive_started b] (k x)) →
    reports Q [archive_started b] (try_ ArchiveDurableStore (supervise (perform c)) k)) as Htry.
  { intros T E c k Hc Hk. apply reports_bind, reports_supervise, reports_perform. intros x. rewrite Hc, app_nil_r.
    split; [apply Hk|]. intros e. apply reports_ret, Herr. }
  assert (∀ st e, Q ([archive_started b] ++ [archive_failed b st]) (Err e)) as Hstage.
  { intros st e. exists [archive_failed b st]. eauto. }
  assert (∀ E st (err : E) conv, reports Q [archive_started b] (telemetry (archive_failed b st) ≫= λ _,
    try_ ArchiveDurableStore (supervise (store (AbortArchive s))) (λ aborted,
      Ret match aborted with Err e => Err (ArchiveDurableStore e) | Ok _ => Err (conv err) end))) as Habort.
  { intros E st err conv. apply telemetry_reports, reports_bind, reports_supervise, reports_perform. intros x.
    rewrite app_nil_r. split; [|intros e]; apply reports_ret; [destruct x|]; apply Hstage. }
  simpl. apply Htry; [done|]. intros [rs|e]; [|apply Habort].
  apply Htry; [done|]. intros [key|e]; [|apply Habort].
  apply Htry; [done|]. intros [u|e]; [|apply reports_ret, Herr].
  apply Htry; [done|]. intros [u'|e]; [|apply telemetry_reports, reports_ret, Hstage].
  apply end_reports. intros t. apply reports_ret. exists [archive_completed b (Z.of_nat (length rs)) t]. eauto.
Qed.

(** A bucket read is counted once, by the tier the store routed it to, as soon as the route is known:
    also when the archive then fails, and not at all when the store does. *)
Theorem read_is_reported `{Chrono} {E S F T : Type} `{DurableBucketStore E S} `{!StoreLaws E S}
    `{ArchiveStore F T} inputs n (st : S * T) b range after limit :
  store_inv st.1 → canonical b →
  let tier := match a_state (view st.1 b) with Archived _ _ => TierArchive | _ => TierHot end in
  let log := reported (read_bucket b range after limit) inputs n st in
  match (run (read_bucket b range after limit) inputs n st).1 with
  | Ok _ => log = [read_routed b tier]
  | Err (TableStore _) => log = [read_routed b tier] ∧ tier = TierArchive
  | Err _ => log = []
  end.
Proof.
  intros Hs Hb tier log. pose proof (store_exec_entry _ (ReadRange b range after limit) (in_store (inputs n)) st.1 b
    (conj Hb I) Hs eq_refl) as [_ Hread]. subst log. cbn.
  destruct (store_exec _ _ st.1) as [[read|err] s']; cbn in *; [|done]. unfold routed in Hread. subst tier.
  destruct (a_state (view st.1 b)) as [| |key del].
  1,2: by destruct Hread as (l & _ & ->).
  subst read. cbn. by destruct (archive_exec _ _ st.2) as [[objs|err] t'].
Qed.
