(* ===== verification/Programs.v ===== *)
(** * The command line programs ([src/src/bin/archive_connection.rs],
    [src/src/bin/cockroach_connection.rs], [src/src/bin/pulpitum-archiver.rs],
    [src/src/bin/pulpitum-migrate.rs])

    How the programs read their environment and what they connect to: the S3 configuration with
    its development defaults, the database transport, the archiver's recovery configuration,
    and the migration program, which grants the runtime role its rights only after the schema
    was migrated and validated. The environment, the file system, the clock and the connectors
    are parameters; exporters and log output are not modelled. *)
From S2P Require Import Prelude Chrono Model Schema Storage Paths Text ArchiveFormat Pool PoolConfig Prog Coordinator Placeholders.
Local Open Scope Z_scope.

(** ** The environment *)
(** [env::var] *)
Inductive Var := Present (value : string) | NotPresent | NotUnicode.
Definition var_ok (v : Var) : option string := match v with Present value => Some value | _ => None end.

Inductive ProgramError :=
  | ParseFailed (name : string)
  | PermissionDenied (message : string)
  | InvalidInput (message : string)
  | ReadFailed (path : string)
  | ProgramStore (e : StoreError)
  | ProgramTls (e : CockroachTlsConfigError)
  | ProgramRecovery (e : ArchiveRecoveryError)
  | ProgramDurable (e : DurableBucketStoreError).

Section environment.
Context (env : string → Var).

Definition setting (name default_ : string) : string := default default_ (var_ok (env name)).
Definition optional_setting (name : string) : option string :=
  match var_ok (env name) with
  | Some value => if is_blank value then None else Some value
  | None => None
  end.
Definition parse_bool (name text : string) : Result ProgramError bool :=
  if decide (text = "true") then Ok true else if decide (text = "false") then Ok false else Err (ParseFailed name).
Definition parse_unsigned (name text : string) : Result ProgramError Z :=
  ok_or (parse_usize (String.list_ascii_of_string text)) (ParseFailed name).

(** ** The archive connection *)
Definition is_local (endpoint : string) : bool :=
  starts_with "http://127.0.0.1:" endpoint || starts_with "http://localhost:" endpoint.
Definition encryption : Result ProgramError (option S3ServerSideEncryption) :=
  match optional_setting "S3_SERVER_SIDE_ENCRYPTION" with
  | None => Ok None
  | Some mode =>
      if decide (mode = "none") then Ok None
      else if decide (mode = "s3") then Ok (Some S3Managed)
      else if decide (mode = "AES256") then Ok (Some S3Managed)
      else if bool_decide (mode = "kms") || bool_decide (mode = "aws:kms") then
        Ok (Some (match optional_setting "S3_KMS_KEY_ID" with
                  | Some key_id => CustomerManagedKms key_id
                  | None => AwsManagedKms
                  end))
      else Err (InvalidInput "S3_SERVER_SIDE_ENCRYPTION must be one of none, s3, or kms")
  end.
Definition http_allowed (endpoint : string) : Result ProgramError bool :=
  match optional_setting "S3_ALLOW_HTTP" with
  | Some value => parse_bool "S3_ALLOW_HTTP" value
  | None => Ok (is_local endpoint)
  end.
(** The configuration [archive_connection::connect] builds. *)
Definition archive_config (prefix_setting default_prefix : string) : Result ProgramError S3ArchiveConfig :=
  let endpoint := default "http://127.0.0.1:9000" (optional_setting "S3_ENDPOINT") in
  let bucket := default "pulpitum" (optional_setting "S3_BUCKET") in
  let prefix := default default_prefix (optional_setting prefix_setting) in
  allow_http ← http_allowed endpoint;
  let access_key := optional_setting "S3_ACCESS_KEY" in
  let secret_key := optional_setting "S3_SECRET_KEY" in
  let '(access_key, secret_key) :=
    match access_key, secret_key with
    | None, None => if is_local endpoint then (Some "minioadmin", Some "minioadmin") else (None, None)
    | _, _ => (access_key, secret_key)
    end in
  '(access_key, secret_key, session_token) ←
    match access_key, secret_key with
    | Some access_key, Some secret_key => Ok (Some access_key, Some secret_key, optional_setting "S3_SESSION_TOKEN")
    | None, None => Ok (None, None, None)
    | _, _ => Err (InvalidInput "S3_ACCESS_KEY and S3_SECRET_KEY must be configured together")
    end;
  sse ← encryption;
  Ok (mkS3Config (Some endpoint) bucket (optional_setting "S3_REGION") access_key secret_key session_token prefix
        allow_http sse).
Definition archive_connect {Operator} (operator_new : S3Service → Result string Operator)
    (prefix_setting default_prefix : string) : Result ProgramError (OpenDalArchiveStore Operator) :=
  config ← archive_config prefix_setting default_prefix;
  map_err ProgramStore (s3_config operator_new config).

(** ** The database connection *)
Section cockroach.
Context {Cert Key : Type} (read_file : string → option (list byte)).
Context (pem_certificates : list byte → option (list Cert)) (root_accepts : Cert → bool).
Context (pem_key : list byte → option Key) (provider_ok : bool) (identity_ok : list Cert → Key → bool).
Context (parse_config : string → option PgConfig).

Definition read_pem (path : string) : Result ProgramError (list byte) := ok_or (read_file path) (ReadFailed path).
Definition client_tls (tls : @CockroachTlsConfig Cert Key) : Result ProgramError (@CockroachTlsConfig Cert Key) :=
  match var_ok (env "COCKROACH_CLIENT_CERT_PATH"), var_ok (env "COCKROACH_CLIENT_KEY_PATH") with
  | Some certificate_path, Some key_path =>
      certificate ← read_pem certificate_path;
      key ← read_pem key_path;
      map_err ProgramTls (with_client_auth_pem pem_certificates pem_key tls certificate key)
  | None, None => Ok tls
  | _, _ => Err (InvalidInput
      "COCKROACH_CLIENT_CERT_PATH and COCKROACH_CLIENT_KEY_PATH must be configured together")
  end.
(** [CockroachDurableBucketStore::connect_insecure_dev_with_pool_config] and its like: a store is the
    pool it was given and an empty route cache; why the pool could not be opened is not told. *)
Definition pool_error (_ : StoreError) : DurableBucketStoreError := Unavailable.
Definition connect_with_pool_config (url : string) (config : CockroachPoolConfig) :
    Result DurableBucketStoreError (@PoolInner Cert Key) := map_err pool_error (connect parse_config url config).
Definition connect_insecure_dev_with_pool_config (url : string) (config : CockroachPoolConfig) :
    Result DurableBucketStoreError (@PoolInner Cert Key) := map_err pool_error (connect_insecure_dev parse_config url config).
Definition connect_rustls_with_pool_config (url : string) (config : CockroachPoolConfig)
    (tls : @CockroachTlsConfig Cert Key) : Result DurableBucketStoreError (@PoolInner Cert Key) :=
  map_err pool_error (connect_rustls provider_ok identity_ok parse_config url config tls).

(** [connect], [connect_insecure_dev] and [connect_rustls]: the same with the default settings. *)
Definition store_connect (url : string) : Result DurableBucketStoreError (@PoolInner Cert Key) :=
  connect_with_pool_config url pool_config_default.
Definition store_connect_insecure_dev (url : string) : Result DurableBucketStoreError (@PoolInner Cert Key) :=
  connect_insecure_dev_with_pool_config url pool_config_default.
Definition store_connect_rustls (url : string) (tls : @CockroachTlsConfig Cert Key) :
    Result DurableBucketStoreError (@PoolInner Cert Key) :=
  connect_rustls_with_pool_config url pool_config_default tls.

Definition cockroach_connect (url : string) (config : CockroachPoolConfig) : Result ProgramError PoolInner :=
  parsed ← ok_or (parse_config url) (InvalidInput
    "CockroachDB URL is invalid; use sslmode=require for verified TLS or sslmode=disable only for local development");
  match ssl_mode parsed with
  | Disable => map_err ProgramDurable (connect_insecure_dev_with_pool_config url config)
  | Require_ =>
      ca_path ← ok_or (var_ok (env "COCKROACH_CA_CERT_PATH")) (InvalidInput
        "COCKROACH_CA_CERT_PATH is required when COCKROACH_URL uses sslmode=require");
      ca_pem ← read_pem ca_path;
      tls ← map_err ProgramTls (from_ca_pem pem_certificates root_accepts ca_pem);
      tls ← client_tls tls;
      map_err ProgramDurable (connect_rustls_with_pool_config url config tls)
  | _ => Err (InvalidInput
      "CockroachDB connections must explicitly use sslmode=require or sslmode=disable; sslmode=prefer can downgrade to plaintext")
  end.
End cockroach.

(** ** The archiver *)
Definition archival_enabled : Result ProgramError unit :=
  enabled ← parse_bool "PULPITUM_ARCHIVAL_ENABLED" (setting "PULPITUM_ARCHIVAL_ENABLED" "false");
  if enabled : bool then Ok tt
  else Err (PermissionDenied "archival is disabled by default because it irreversibly deletes hot data; set PULPITUM_ARCHIVAL_ENABLED=true only after completing the archival fault-test acceptance criteria").
Definition with_max_connections (n : Z) : CockroachPoolConfig :=
  mkPoolConfig (Z.to_nat n) (acquire_timeout pool_config_default) (connect_timeout pool_config_default)
    (transaction_timeout pool_config_default) (commit_timeout pool_config_default) (rollback_timeout pool_config_default).
Definition pool_settings (least : nat) (message : string) : Result ProgramError CockroachPoolConfig :=
  config ← match var_ok (env "COCKROACH_POOL_MAX_CONNECTIONS") with
           | Some value => n ← parse_unsigned "COCKROACH_POOL_MAX_CONNECTIONS" value; Ok (with_max_connections n)
           | None => Ok pool_config_default
           end;
  if bool_decide (max_connections config < least)%nat then Err (InvalidInput message) else Ok config.
Definition archiver_pool_config : Result ProgramError CockroachPoolConfig := pool_settings 2
  "COCKROACH_POOL_MAX_CONNECTIONS must be at least 2 so lease renewal cannot be blocked by archival work".
Definition migrate_pool_config : Result ProgramError CockroachPoolConfig := pool_settings 1
  "COCKROACH_POOL_MAX_CONNECTIONS must be greater than zero".

(** [u64] seconds. *)
Definition seconds (name : string) (default_ : Z) : Result ProgramError Z :=
  value ← match env name with
          | Present value => parse_unsigned name value
          | NotPresent => Ok default_
          | NotUnicode => Err (ParseFailed name)
          end;
  if value =? 0 then Err (InvalidInput (name +:+ " must be greater than zero")) else Ok value.
Definition SECOND : Z := 1000000000.

Section archiver.
Context `{Chrono} (parse_from_rfc3339 : string → option Z).
(** [now] is [Utc::now()]. *)
Definition eligible_before (now : Z) : Outcome (Result ProgramError Z) :=
  match var_ok (env "ARCHIVER_ELIGIBLE_BEFORE") with
  | Some value => Value (ok_or (parse_from_rfc3339 value) (ParseFailed "ARCHIVER_ELIGIBLE_BEFORE"))
  | None => t ← expect (with_ymd (year now - 1) 1 1); Value (Ok t)
  end.

(** The interval of the loop and the configuration the runner validates. *)
Definition archiver_config (now : Z) : Outcome (Result ProgramError (Z * ArchiveRecoveryConfig)) :=
  let prefix :=
    interval ← seconds "ARCHIVER_INTERVAL_SECONDS" 15;
    lease ← seconds "ARCHIVER_LEASE_SECONDS" 60;
    renewal ← seconds "ARCHIVER_LEASE_RENEWAL_SECONDS" (Z.max (lease / 3) 1);
    Ok (interval, lease, renewal) in
  match prefix with
  | Err e => Value (Err e)
  | Ok (interval, lease, renewal) =>
      res ← eligible_before now;
      Value (
        eligible ← res;
        retry ← seconds "ARCHIVER_RETRY_SECONDS" 15;
        let config := mkConfig eligible 64 (lease * SECOND) (renewal * SECOND) (retry * SECOND) in
        _ ← map_err ProgramRecovery (config_validate config);
        Ok (interval * SECOND, config))
  end.
(** The endless loop of [main], for [n] turns: a cycle that fails is logged and the next one runs. *)
Fixpoint archiver_cycles (cfg : ArchiveRecoveryConfig) (n : nat) :
    prog (list (Result ArchiveRecoveryError ArchiveRecoveryOutcome)) :=
  match n with
  | O => Ret []
  | S n => run_once cfg ≫= λ outcome, archiver_cycles cfg n ≫= λ outcomes, Ret (outcome :: outcomes)
  end.
End archiver.

(** ** The migration program *)
Definition double_quote : ascii := ascii_of_N 34.
Definition identifier_start (a : ascii) : bool := bool_decide (a = "_"%char) || is_letter a.
Definition identifier_char (a : ascii) : bool := identifier_start a || is_ascii_digit a.
Definition valid_role (role : string) : bool :=
  match role with String a rest => identifier_start a && all_chars identifier_char rest | EmptyString => true end.
Definition quoted_role (role : string) : Result ProgramError string :=
  if negb (valid_role role) || bool_decide (role = "")
  then Err (InvalidInput "PULPITUM_RUNTIME_ROLE must be a SQL identifier")
  else Ok (String double_quote role +:+ String double_quote "").

Definition RUNTIME_TABLES : list string := ["pulpitum_v4_bucket_metadata"; "pulpitum_v4_records"].
(** The statements of the grant, one after the other. *)
Definition grant_statements (runtime_role : string) : list string := [
  "CREATE USER IF NOT EXISTS " +:+ runtime_role;
  "REVOKE CREATE ON DATABASE defaultdb FROM public";
  "REVOKE CREATE ON SCHEMA public FROM public";
  "REVOKE CREATE ON DATABASE defaultdb FROM " +:+ runtime_role;
  "REVOKE CREATE ON SCHEMA public FROM " +:+ runtime_role;
  "GRANT CONNECT ON DATABASE defaultdb TO " +:+ runtime_role;
  "GRANT USAGE ON SCHEMA public TO " +:+ runtime_role;
  "GRANT SELECT, INSERT, UPDATE, DELETE ON TABLE " +:+ String.concat ", " RUNTIME_TABLES +:+ " TO " +:+ runtime_role ].

Section migrate.
(** The database, and what the library calls do to it. *)
Context {DB : Type}.
Context (open_ : CockroachPoolConfig → Result ProgramError unit).
Context (migrate validate_schema : DB → Result DurableBucketStoreError unit * DB).
Context (batch_execute : list string → DB → Result ProgramError unit * DB).

Definition migrate_main (db : DB) : Result ProgramError unit * DB :=
  match quoted_role (setting "PULPITUM_RUNTIME_ROLE" "pulpitum_runtime") with
  | Err e => (Err e, db)
  | Ok runtime_role =>
    match migrate_pool_config ≫= open_ with
    | Err e => (Err e, db)
    | Ok _ =>
      match migrate db with
      | (Err e, db) => (Err (ProgramDurable e), db)
      | (Ok _, db) =>
        match validate_schema db with
        | (Err e, db) => (Err (ProgramDurable e), db)
        | (Ok _, db) => batch_execute (grant_statements runtime_role) db
        end
      end
    end
  end.
End migrate.
End environment.

(** ** Theorems *)
(** Development credentials stay at home: the built-in keys are used only for a local endpoint
    without configured keys, plain HTTP is allowed only for a local endpoint or on request, and
    of the checks of [s3_config] only the one for plain HTTP can refuse what the programs build. *)
Theorem archive_connection_defaults_are_local {Operator} env (operator_new : S3Service → Result string Operator)
    prefix_setting default_prefix c :
  archive_config env prefix_setting default_prefix = Ok c →
  ∃ e, endpoint c = Some e ∧
    (optional_setting env "S3_ACCESS_KEY" = None →
       access_key_id c = (if is_local e then Some "minioadmin" else None) ∧ optional_setting env "S3_SECRET_KEY" = None) ∧
    (allow_http c = true → is_local e = true ∨ optional_setting env "S3_ALLOW_HTTP" = Some "true") ∧
    (session_token c ≠ None → access_key_id c ≠ None) ∧
    archive_connect env operator_new prefix_setting default_prefix =
      if starts_with "http://" e && negb (allow_http c)
      then Err (ProgramStore (Other "S3 archive endpoint must use HTTPS unless allow_http is explicitly enabled for development"))
      else map_err (λ err, ProgramStore (object_error err)) (operator_new (s3_service c)) ≫= λ op,
             Ok (with_operator op (cfg_bucket c) (cfg_prefix c)).
Proof.
  intros Hc. unfold archive_connect. rewrite Hc. cbn [mbind Result_bind]. unfold archive_config in Hc. cbv zeta in Hc.
  set (e := default _ (optional_setting env "S3_ENDPOINT")) in *.
  destruct (http_allowed env e) as [http|] eqn:Eh; [|done].
  cbn [mbind Result_bind] in Hc.
  assert (http = true → is_local e = true ∨ optional_setting env "S3_ALLOW_HTTP" = Some "true") as Hhttp.
  { intros ->. unfold http_allowed in Eh. destruct (optional_setting env "S3_ALLOW_HTTP") as [v|]; [|injection Eh; auto].
    unfold parse_bool in Eh. destruct (decide (v = "true")) as [->|]; [auto|]. by destruct (decide (v = "false")). }
  assert (is_blank (default "pulpitum" (optional_setting env "S3_BUCKET")) = false) as Hb.
  { unfold optional_setting. destruct (var_ok (env "S3_BUCKET")) as [v|]; [|done]. by destruct (is_blank v) eqn:Ev. }
  exists e. destruct (optional_setting env "S3_ACCESS_KEY") as [ak|] eqn:Ea, (optional_setting env "S3_SECRET_KEY") as [sk|] eqn:Es;
    try destruct (is_local e) eqn:El; try done; cbn [mbind Result_bind] in Hc;
    (destruct (encryption env) as [sse|]; [|done]); cbn [mbind Result_bind] in Hc; injection Hc as <-;
    (split_and!; [done|done|exact Hhttp|done|]);
    unfold s3_config; cbn [cfg_bucket endpoint allow_http access_key_id secret_access_key session_token is_some Bool.eqb negb];
    rewrite Hb; destruct (starts_with "http://" e && negb http); try done;
    rewrite ?andb_false_r; cbn [andb]; destruct (operator_new _); done.
Qed.

(** A database connection never downgrades: the transport is plain text exactly for
    sslmode=disable, TLS exactly for sslmode=require with a CA bundle, and nothing else
    connects. *)
Theorem database_connection_never_downgrades {Cert Key : Type} env read_file
    (pem_certificates : list byte → option (list Cert)) root_accepts (pem_key : list byte → option Key) provider_ok
    identity_ok parse_config url config inner :
  cockroach_connect env read_file pem_certificates root_accepts pem_key provider_ok identity_ok parse_config url config
    = Ok inner →
  ∃ parsed, parse_config url = Some parsed ∧
    match transport inner with
    | InsecureDev => ssl_mode parsed = Disable
    | Rustls c => ssl_mode parsed = Require_ ∧ ∃ path pem tls, env "COCKROACH_CA_CERT_PATH" = Present path ∧
        read_file path = Some pem ∧ from_ca_pem (Key := Key) pem_certificates root_accepts pem = Ok tls
    end.
Proof.
  unfold cockroach_connect. destruct (parse_config url) as [parsed|] eqn:Ep; [|done]. cbn [ok_or mbind Result_bind].
  intros Hc. exists parsed. split; [done|]. destruct (ssl_mode parsed) eqn:Em; try done.
  - unfold connect_insecure_dev_with_pool_config, connect_insecure_dev, connect_with_transport in Hc. destruct (require_ssl_mode _ _ _ _); [|done].
    cbn [mbind Result_bind] in Hc. repeat (case_match; try done). by injection Hc as <-.
  - destruct (env "COCKROACH_CA_CERT_PATH") as [path| |] eqn:Ee; try done. cbn [var_ok ok_or mbind Result_bind] in Hc.
    unfold read_pem in Hc. destruct (read_file path) as [pem|] eqn:Er; [|done]. cbn [ok_or mbind Result_bind] in Hc.
    destruct (from_ca_pem (Key := Key) pem_certificates root_accepts pem) as [tls|] eqn:Et; [|done]. cbn [map_err mbind Result_bind] in Hc.
    destruct (client_tls _ _ _ _ _) as [tls'|]; [|done]. cbn [mbind Result_bind] in Hc.
    unfold connect_rustls_with_pool_config, connect_rustls, connect_with_transport in Hc. destruct (require_ssl_mode _ _ _ _); [|done].
    cbn [mbind Result_bind] in Hc. destruct (connector _ _ tls') as [c|]; [|done]. cbn [map_err mbind Result_bind] in Hc.
    destruct (bool_decide _); [done|]. destruct (_ || _); [done|]. injection Hc as <-. simpl. eauto 10.
Qed.

(** The role in a grant is an identifier between quotes, so no setting can smuggle in SQL. *)
Theorem runtime_role_is_an_identifier role q :
  quoted_role role = Ok q ↔
  q = String double_quote role +:+ String double_quote "" ∧
  ∃ a rest, role = String a rest ∧ identifier_start a = true ∧ all_chars identifier_char rest = true.
Proof.
  unfold quoted_role. destruct role as [|a rest]; [split; [done|naive_solver]|]. cbn [valid_role].
  rewrite bool_decide_eq_false_2 by done. rewrite orb_false_r.
  destruct (identifier_start a) eqn:Ea, (all_chars identifier_char rest) eqn:Er; cbn [andb negb]; split; try done;
    try (by intros [= <-]; eauto 10); try (intros (-> & a' & rest' & [= <- <-] & ? & ?); congruence).
Qed.

(** Grants follow a validated schema: unless the migration and the validation of the schema
    succeed, no grant is executed, whatever executing one would do. *)
Theorem grants_follow_validation {DB} env open_ (migrate validate_schema : DB → _) batch_execute db :
  match migrate db with
  | (Ok _, db') => is_ok (validate_schema db').1 = false
  | (Err _, _) => True
  end →
  ∃ e, ∀ execute, (migrate_main env open_ migrate validate_schema execute db).1 = Err e ∧
    migrate_main env open_ migrate validate_schema execute db = migrate_main env open_ migrate validate_schema batch_execute db.
Proof.
  intros Hf. unfold migrate_main. destruct (quoted_role _) as [role|e]; [|by exists e].
  destruct (_ ≫= open_) as [[]|e]; [|by exists e]. destruct (migrate db) as [[[]|e] db']; [|by eexists].
  destruct (validate_schema db') as [[[]|e] db'']; [done|]. by eexists.
Qed.

Section archiver_theorems.
Context `{ChronoLaws}.
(** Without a renewal setting the archiver starts exactly with leases of at least two seconds: a
    third of the lease, but at least a second, renews it. *)
Theorem default_renewal_needs_two_seconds env parse_rfc3339 now interval lease retry :
  env "ARCHIVER_LEASE_RENEWAL_SECONDS" = NotPresent → env "ARCHIVER_ELIGIBLE_BEFORE" = NotPresent →
  seconds env "ARCHIVER_INTERVAL_SECONDS" 15 = Ok interval → seconds env "ARCHIVER_LEASE_SECONDS" 60 = Ok lease →
  seconds env "ARCHIVER_RETRY_SECONDS" 15 = Ok retry → 0 < lease → 0 < retry →
  year min_utc < year now <= year max_utc →
  ∃ res, archiver_config env parse_rfc3339 now = Value res ∧ is_ok res = (2 <=? lease).
Proof.
  intros Hr He Hi Hl Ht Hpos Hret Hnow. unfold archiver_config. rewrite Hi, Hl. cbn [mbind Result_bind].
  unfold seconds at 1. rewrite Hr. cbn [mbind Result_bind]. rewrite (proj2 (Z.eqb_neq (Z.max (lease / 3) 1) 0)) by lia.
  unfold eligible_before. rewrite He. cbn [var_ok].
  destruct (with_ymd_first (year now - 1) 1) as [t Et]; [lia..|]. rewrite Et. cbn [expect mbind Outcome_bind].
  eexists. split; [done|]. cbn [mbind Result_bind]. rewrite Ht. cbn [mbind Result_bind]. unfold config_validate, SECOND.
  cbn [cfg_scan_limit cfg_lease_for cfg_lease_renewal_interval cfg_retry_backoff].
  rewrite (proj2 (Z.eqb_neq (lease * 1000000000) 0)), (proj2 (Z.eqb_neq (Z.max (lease / 3) 1 * 1000000000) 0)),
    (proj2 (Z.eqb_neq (retry * 1000000000) 0)), orb_false_r by lia. cbn [Z.eqb orb].
  assert (lease / 3 < lease) by (apply Z.div_lt; lia).
  destruct (2 <=? lease) eqn:E2; zbool.
  - rewrite (proj2 (Z.leb_gt _ _)) by lia. done.
  - rewrite (proj2 (Z.leb_le _ _)) by lia. done.
Qed.
End archiver_theorems.

(** However many cycles the archiver runs and however they end, it follows the fencing discipline and is
    idle between cycles, and every cycle runs: a failed one does not stop the loop. *)
Theorem archiver_loop_is_disciplined `{Chrono} cfg n :
  keeps idle Idle (archiver_cycles cfg n) ∧ ends (λ outcomes, length outcomes = n) (archiver_cycles cfg n).
Proof.
  split.
  - induction n as [|n IH]; [done|]. apply keeps_bind. eapply keeps_mono; [|apply run_once_keeps]. intros ph r ->.
    apply keeps_bind. eapply keeps_mono; [|exact IH]. by intros ph rs ->.
  - induction n as [|n IH]; [done|]. apply ends_bind. clear -IH. induction (run_once cfg) as [r|X e k IHk].
    + apply ends_ret, ends_bind. eapply ends_mono; [|exact IH]. intros rs Hrs. apply ends_ret. simpl. by rewrite Hrs.
    + intros x. apply IHk.
Qed.

(** A store opened with the default settings: the settings are valid, so that only the URL and the TLS
    material decide. The deprecated [connect] never fails and never encrypts, whatever the URL asks
    for; [connect_insecure_dev] opens exactly URLs with sslmode=disable, [connect_rustls] those with
    sslmode=require whose connector can be built. *)
Theorem default_stores_open {Cert Key : Type} provider_ok identity_ok parse_config url (tls : @CockroachTlsConfig Cert Key) :
  (∃ inner : @PoolInner Cert Key, store_connect parse_config url = Ok inner ∧ transport inner = InsecureDev) ∧
  (is_ok (store_connect_insecure_dev (Cert := Cert) (Key := Key) parse_config url) = true ↔
     ssl_mode <$> parse_config url = Some Disable) ∧
  (is_ok (store_connect_rustls provider_ok identity_ok parse_config url tls) = true ↔
     ssl_mode <$> parse_config url = Some Require_ ∧ ∃ c, connector provider_ok identity_ok tls = Ok c).
Proof.
  assert (∀ t : @CockroachTransport Cert Key, is_ok (connect_with_transport parse_config url pool_config_default t) = true)
    as Hok by done.
  split_and!; [by eexists| |].
  - rewrite <- (require_ssl_mode_ok parse_config url Disable "insecure development").
    unfold store_connect_insecure_dev, connect_insecure_dev_with_pool_config, connect_insecure_dev.
    destruct (require_ssl_mode _ _ _ _) as [[]|]; cbn [mbind Result_bind]; [|done]. split; [done|]. intros _.
    specialize (Hok InsecureDev). by destruct (connect_with_transport _ _ _ _).
  - rewrite <- (require_ssl_mode_ok parse_config url Require_ "verified TLS").
    unfold store_connect_rustls, connect_rustls_with_pool_config, connect_rustls.
    destruct (require_ssl_mode _ _ _ _) as [[]|]; cbn [mbind Result_bind]; [|naive_solver].
    destruct (connector _ _ _) as [c|]; cbn [map_err mbind Result_bind]; [|split; [done|naive_solver]].
    split; [by eauto|]. intros _. specialize (Hok (Rustls c)). by destruct (connect_with_transport _ _ _ _).
Qed.
