(* ===== verification/Startup.v ===== *)
(** * How the programs start (the [main] of [src/src/bin/pulpitum-sql-sidecar.rs] and of
    [src/src/bin/pulpitum-archiver.rs])

    The settings are read and checked in the order of the code, and the first that fails ends the
    program; what is running afterwards is the value built here. The environment, the file system,
    the clock, the connectors and the listener are parameters, and installing the exporters is not
    modelled. *)
From S2P Require Import Prelude Chrono Model Schema Storage Text ArchiveFormat Observability Pool PoolConfig Prog Table Placeholders Gateway SidecarSecurity Coordinator Programs.
Local Open Scope Z_scope.

(** [env::var] in terms of [env::var_os]. *)
Definition var (env_os : string → option (list byte)) (name : string) : Var :=
  match env_os name with
  | None => NotPresent
  | Some bytes => match from_utf8 bytes with Some value => Present value | None => NotUnicode end
  end.
Definition DATABASE_URL : string := "postgresql://pulpitum_runtime@127.0.0.1:26257/defaultdb?sslmode=disable".

Inductive StartupError :=
  | StartSecurity (e : SecurityConfigError)
  | StartSetting (e : SettingError)
  | StartProgram (e : ProgramError)
  | StartDefinition (e : DefinitionError)
  | StartFormat (e : ArchiveFormatParseError)
  | StartTable (e : DurableTableError)
  | StartRegister
  | StartIo.

(** The [?] operator on a step that cannot panic. *)
Notation "x <?~ r ; k" := (and_then (Value r) (λ x, k)) (at level 20, r at level 100, k at level 200, right associativity).

Section startup.
Context (env_os : string → option (list byte)).
Context {Operator : Type} (operator_new : S3Service → Result string Operator).
(** The identities of the sidecar and those of the database connection. *)
Context {SCert SKey Cert Key : Type}.
Context (read_file : list byte → option (list byte)).
Context (sidecar_certificates : list byte → option (list SCert)) (sidecar_key : list byte → option SKey).
Context (sidecar_provider_ok : bool) (single_cert_ok : list SCert → SKey → bool).
Context (configure_certificate : list byte → bool) (gen_salted_password : string → list byte → Z → list byte).
Context (pem_certificates : list byte → option (list Cert)) (root_accepts : Cert → bool).
Context (pem_key : list byte → option Key) (provider_ok : bool) (identity_ok : list Cert → Key → bool).
Context (parse_config : string → option PgConfig) (parse_socket_addr : string → option SocketAddr).

Let env : string → Var := var env_os.
Let env_ok : Env_ := λ name, var_ok (env name).
Definition database_connect (pool : CockroachPoolConfig) : Result ProgramError (@PoolInner Cert Key) :=
  cockroach_connect env (λ path, read_file (string_bytes path)) pem_certificates root_accepts pem_key provider_ok
    identity_ok parse_config (Programs.setting env "COCKROACH_URL" DATABASE_URL) pool.

(** ** The sidecar *)
(** What its [main] has built when it starts to accept connections. *)
Record Sidecar := mkSidecarProgram {
  sp_security : SidecarSecurity_ SCert SKey;
  sp_pool : @PoolInner Cert Key;
  sp_table_name : string;
  sp_definition : TableDefinition;
  sp_archive : OpenDalArchiveStore Operator;
  sp_cache_max_bytes : Z;
  sp_cache_max_entries : Z;
  sp_capture_query_text : bool;
  sp_address : SocketAddr
}.
(** [register] is [SessionContext::register_table], [bind] the listener's. *)
Definition sidecar_main (uuids : Uuids) (register : string → bool) (bind : SocketAddr → option SocketAddr) :
    Outcome (Result StartupError Sidecar) :=
  security <?~ map_err StartSecurity (from_environment read_file sidecar_certificates sidecar_key sidecar_provider_ok
    single_cert_ok configure_certificate gen_salted_password env_os uuids);
  config <?~ map_err StartSetting (SidecarSecurity.pool_config env_ok);
  durable <?~ map_err StartProgram (database_connect config);
  let table_name := SidecarSecurity.setting env_ok "PULPITUM_SQL_TABLE" "messages" in
  table_id <?~ map_err StartDefinition (TableId_new (SidecarSecurity.setting env_ok "PULPITUM_SQL_TABLE_ID" "pulpitum.sql.messages"));
  format <?~ map_err StartFormat (format_from_str (SidecarSecurity.setting env_ok "ARCHIVE_FORMAT" "json"));
  limits <?~ map_err StartSetting (archive_cache_config env_ok);
  capture <?~ map_err StartSetting (capture_query_text env_ok);
  archive <?~ map_err StartProgram (archive_connect env operator_new "PULPITUM_SQL_ARCHIVE_PREFIX" "pulpitum");
  definition ← chat_messages table_name table_id;
  table <?~ map_err StartTable (with_definition definition);
  _ <?~ (if register table_name then Ok tt else Err StartRegister);
  address <?~ map_err StartSetting (listen_address env_ok parse_socket_addr security);
  address <?~ ok_or (bind address) StartIo;
  Value (Ok (mkSidecarProgram security durable table_name table (with_format archive format) limits.1 limits.2 capture address)).

(** The accept loop: every connection gets a task of its own with the acceptor and a startup handler;
    a failed accept ends the program, a failed connection does not. *)
Record Connection := mkConnection { cn_acceptor : option (TlsAcceptor SCert SKey); cn_startup : Outcome SecurityStartupHandler }.
Definition connection (s : Sidecar) : Connection :=
  mkConnection (tls_acceptor (sp_security s)) (startup_handler configure_certificate (sp_security s)).
Fixpoint accept_loop (s : Sidecar) (accepts : list bool) : list Connection * Result StartupError unit :=
  match accepts with
  | [] => ([], Ok tt)
  | false :: _ => ([], Err StartIo)
  | true :: accepts => let '(connections, res) := accept_loop s accepts in (connection s :: connections, res)
  end.

(** ** The archiver *)
Record Archiver := mkArchiver {
  ar_pool : @PoolInner Cert Key;
  ar_archive : OpenDalArchiveStore Operator;
  ar_interval : Z;
  ar_config : ArchiveRecoveryConfig
}.
Definition archiver_main `{Chrono} (parse_rfc3339 : string → option Z) (now : Z) : Outcome (Result StartupError Archiver) :=
  _ <?~ map_err StartProgram (archival_enabled env);
  pool <?~ map_err StartProgram (archiver_pool_config env);
  durable <?~ map_err StartProgram (database_connect pool);
  format <?~ map_err StartFormat (format_from_str (Programs.setting env "ARCHIVE_FORMAT" "json"));
  archive <?~ map_err StartProgram (archive_connect env operator_new "ARCHIVER_PREFIX" "showcase");
  res ← archiver_config env parse_rfc3339 now;
  config <?~ map_err StartProgram res;
  Value (Ok (mkArchiver durable (with_format archive format) config.1 config.2)).
End startup.

(** ** Lemmas *)
Section lemmas.
Context {Cert Key : Type}.
Lemma cockroach_connect_settings env read_file (pem_certificates : list byte → option (list Cert)) root_accepts
    (pem_key : list byte → option Key) provider_ok identity_ok parse_config url config inner :
  cockroach_connect env read_file pem_certificates root_accepts pem_key provider_ok identity_ok parse_config url config
    = Ok inner → settings inner = config ∧ (0 < max_connections config)%nat.
Proof.
  assert (∀ t (inner' : @PoolInner Cert Key), connect_with_transport parse_config url config t = Ok inner' →
    settings inner' = config ∧ (0 < max_connections config)%nat) as Ht.
  { intros t inner' [Hv ->]%connect_with_transport_ok. split; [done|]. destruct Hv. lia. }
  unfold cockroach_connect. destruct (parse_config url) as [parsed|]; [|done]. cbn [ok_or mbind Result_bind].
  destruct (ssl_mode parsed); try done.
  - unfold connect_insecure_dev_with_pool_config, connect_insecure_dev. destruct (require_ssl_mode _ _ _ _); [|done].
    cbn [mbind Result_bind]. destruct (connect_with_transport _ _ _ _) as [i|] eqn:E; [|done]. intros [= <-]. by eapply Ht.
  - destruct (var_ok _) as [path|]; [|done]. cbn [ok_or mbind Result_bind].
    destruct (read_pem _ _) as [pem|]; [|done]. cbn [mbind Result_bind].
    destruct (from_ca_pem _ _ _) as [tls|]; [|done]. cbn [map_err mbind Result_bind].
    destruct (client_tls _ _ _ _ _) as [tls'|]; [|done]. cbn [mbind Result_bind].
    unfold connect_rustls_with_pool_config, connect_rustls. destruct (require_ssl_mode _ _ _ _); [|done].
    cbn [mbind Result_bind]. destruct (connector _ _ _); [|done]. cbn [map_err mbind Result_bind].
    destruct (connect_with_transport _ _ _ _) as [i|] eqn:E; [|done]. intros [= <-]. by eapply Ht.
Qed.
End lemmas.
Lemma map_err_ok {E E' A} (f : E → E') (r : Result E A) a : map_err f r = Ok a → r = Ok a.
Proof. by destruct r; intros [= <-]. Qed.
Lemma step_ok {E A B} (r : Result E A) (k : A → Outcome (Result E B)) b :
  and_then (Value r) k = Value (Ok b) → ∃ a, r = Ok a ∧ k a = Value (Ok b).
Proof. intros (a & [= Ha] & Hk)%and_then_ok. eauto. Qed.
Lemma step_panics {E A B} (r : Result E A) (k : A → Outcome (Result E B)) :
  and_then (Value r) k = Panicked → ∃ a, r = Ok a ∧ k a = Panicked.
Proof. intros [?|(a & [= Ha] & Hk)]%and_then_panicked; [done|eauto]. Qed.
Lemma accepted_alike {Operator SCert SKey Cert Key : Type} configure_certificate (s : @Sidecar Operator SCert SKey Cert Key)
    accepts c : c ∈ (accept_loop configure_certificate s accepts).1 → c = connection configure_certificate s.
Proof.
  induction accepts as [|[] accepts IH]; simpl; [by intros ?%elem_of_nil| |by intros ?%elem_of_nil].
  destruct (accept_loop _ s accepts) as [cs res]. simpl in *. intros [->|Hc]%elem_of_cons; auto.
Qed.
Lemma digits_value_nonneg acc l : 0 <= acc → forallb is_ascii_digit l = true → 0 <= digits_value acc l.
Proof.
  revert acc. induction l as [|a l IH]; intros acc Ha; [done|]. cbn [forallb]. intros [Hd Hl]%andb_prop.
  change (0 <= digits_value (acc * 10 + digit_value a) l). apply IH; [|done].
  unfold is_ascii_digit in Hd. apply andb_prop in Hd as [Hd _]. apply N.leb_le in Hd. unfold digit_value. lia.
Qed.
Lemma parse_usize_nonneg l z : parse_usize l = Some z → 0 <= z.
Proof.
  unfold parse_usize. set (digits := match l with "+"%char :: (_ :: _) as rest => rest | _ => l end).
  destruct (bool_decide _); [done|]. destruct (forallb is_ascii_digit digits) eqn:E; [|done]. cbn [orb negb].
  destruct (_ <=? usize_max); [|done]. intros [= <-]. by apply digits_value_nonneg.
Qed.
Lemma seconds_positive env name d v : 0 <= d → seconds env name d = Ok v → 0 < v.
Proof.
  intros Hd. unfold seconds. destruct (match env name with Present _ => _ | NotPresent => _ | NotUnicode => _ end) as [z|] eqn:E;
    [|done]. cbn [mbind Result_bind]. destruct (Z.eqb_spec z 0); [done|]. intros [= <-].
  assert (0 <= z); [|lia]. destruct (env name) as [value| |]; simplify_eq; [|done].
  unfold parse_unsigned in E. destruct (parse_usize _) eqn:Ep; simplify_eq/=. by eapply parse_usize_nonneg.
Qed.

Lemma chat_messages_named tname tid d : chat_messages tname tid = Value d → name d = tname.
Proof.
  unfold chat_messages, definition_new, new_with_bucket_strategy. destruct (validate _) as [[]|]; [|done]. by intros [= <-].
Qed.
Lemma chat_messages_panics tname tid : chat_messages tname tid = Panicked → is_blank tname = true ∨ is_blank tid = true.
Proof.
  unfold chat_messages, definition_new, new_with_bucket_strategy, validate. simpl. destruct (is_blank tname), (is_blank tid); simpl; naive_solver.
Qed.

Lemma archiver_config_positive `{Chrono} env parse_rfc3339 now (c : Z * ArchiveRecoveryConfig) :
  archiver_config env parse_rfc3339 now = Value (Ok c) →
  0 < c.1 ∧ 0 < cfg_lease_renewal_interval c.2 < cfg_lease_for c.2 ∧ 0 < cfg_retry_backoff c.2 ∧ cfg_scan_limit c.2 = 64.
Proof.
  unfold archiver_config. destruct (seconds env "ARCHIVER_INTERVAL_SECONDS" 15) as [interval|] eqn:Ei; [|done]. cbn [mbind Result_bind].
  destruct (seconds env "ARCHIVER_LEASE_SECONDS" 60) as [lease|] eqn:El; [|done]. cbn [mbind Result_bind].
  destruct (seconds env "ARCHIVER_LEASE_RENEWAL_SECONDS" _) as [renewal|] eqn:Er; [|done]. cbn [mbind Result_bind].
  destruct (eligible_before _ _ _) as [[eligible|]| |]; [|done..]. cbn [mbind Outcome_bind Result_bind].
  destruct (seconds env "ARCHIVER_RETRY_SECONDS" 15) as [retry|] eqn:Et; [|done]. cbn [mbind Result_bind].
  destruct (config_validate _) as [[]|] eqn:Ev; [|done]. apply config_validate_ok in Ev as (_ & _ & _ & Hlt & _).
  intros [= <-]. cbn [fst snd cfg_lease_renewal_interval cfg_lease_for cfg_retry_backoff cfg_scan_limit] in *.
  apply seconds_positive in Ei, El, Er, Et; [|lia..]. unfold SECOND in *. split_and!; [lia..|done].
Qed.

(** ** Theorems *)
Section theorems.
Context (env_os : string → option (list byte)).
Context {Operator : Type} (operator_new : S3Service → Result string Operator).
Context {SCert SKey Cert Key : Type} (read_file : list byte → option (list byte)).
Context (sidecar_certificates : list byte → option (list SCert)) (sidecar_key : list byte → option SKey).
Context (sidecar_provider_ok : bool) (single_cert_ok : list SCert → SKey → bool).
Context (configure_certificate : list byte → bool) (gen_salted_password : string → list byte → Z → list byte).
Context (pem_certificates : list byte → option (list Cert)) (root_accepts : Cert → bool).
Context (pem_key : list byte → option Key) (provider_ok : bool) (identity_ok : list Cert → Key → bool).
Context (parse_config : string → option PgConfig) (parse_socket_addr : string → option SocketAddr).
Abbreviation sidecar_main_ := (sidecar_main env_os operator_new read_file sidecar_certificates sidecar_key
  sidecar_provider_ok single_cert_ok configure_certificate gen_salted_password pem_certificates root_accepts pem_key
  provider_ok identity_ok parse_config parse_socket_addr).
Abbreviation archiver_main_ := (archiver_main env_os operator_new read_file pem_certificates root_accepts pem_key
  provider_ok identity_ok parse_config).

Ltac next_step H := let a := fresh "a" in let Ha := fresh "Ha" in
  first [apply step_ok in H as (a & Ha%map_err_ok & H)|apply step_ok in H as (a & Ha & H)].

(** C25. A sidecar that starts is safe to reach: its table definition is valid and carries the configured
    name; the database is reached in plain text only for sslmode=disable, with at least one connection;
    it listens on loopback or is secure; and every connection it ever accepts gets an acceptor exactly
    when it is secure and a startup handler that never panics and that, when the sidecar listens on
    another address, refuses a startup in plain text. *)
Theorem sidecar_starts_safely uuids register bind s noop sasl :
  (∀ a a', bind a = Some a' → ip a' = ip a) →
  sidecar_main_ uuids register bind = Value (Ok s) →
  validate (sp_definition s) = Ok tt ∧ name (sp_definition s) = sp_table_name s ∧
  (0 < max_connections (settings (sp_pool s)))%nat ∧
  (transport (sp_pool s) = InsecureDev → ∃ parsed, ssl_mode parsed = Disable ∧
     parse_config (Programs.setting (var env_os) "COCKROACH_URL" DATABASE_URL) = Some parsed) ∧
  (is_secure (sp_security s) = true ∨ is_loopback (ip (sp_address s)) = true) ∧
  ∀ accepts c, c ∈ (accept_loop configure_certificate s accepts).1 →
    bool_decide (is_Some (cn_acceptor c)) = is_secure (sp_security s) ∧
    ∃ handler, cn_startup c = Value handler ∧
      (is_loopback (ip (sp_address s)) = false → on_startup noop sasl handler false Startup = Err tls_required_error).
Proof.
  intros Hbind Hm. unfold sidecar_main in Hm. repeat next_step Hm.
  destruct (chat_messages _ _) as [d| |] eqn:Ed; [|done..]. cbn [mbind Outcome_bind] in Hm. repeat next_step Hm.
  injection Hm as <-. simpl. rename a into security, a1 into pool, a9 into address, a10 into bound.
  assert (a7 = d ∧ validate d = Ok tt) as [-> Hv].
  { unfold with_definition in Ha7. destruct (validate d) as [[]|]; [|done]. by injection Ha7 as <-. }
  assert (is_secure security = true ∨ is_loopback (ip bound) = true) as Hsafe.
  { destruct (bind address) as [a'|] eqn:Eb; [|done]. injection Ha10 as ->. rewrite (Hbind _ _ Eb).
    destruct (is_secure security) eqn:Es; [by left|right]. by eapply insecure_listens_locally. }
  destruct (accepted_security_starts _ _ _ _ _ _ _ _ _ _ _ _ _ _ noop sasl Ha) as (Hacc & handler & Hh & Hplain).
  split_and!; [done|by apply (chat_messages_named _ _ _ Ed)| | |done|].
  - apply cockroach_connect_settings in Ha1 as [-> ?]. done.
  - intros Ht. apply database_connection_never_downgrades in Ha1 as (parsed & Hp & Hm). rewrite Ht in Hm. by exists parsed.
  - intros accepts c ->%accepted_alike. simpl. split; [done|]. exists handler. split; [done|]. intros Hl.
    apply Hplain. destruct Hsafe as [|Hsafe]; [done|]. by rewrite Hl in Hsafe.
Qed.

(** The only panic of a starting sidecar is a blank table name, which [chat_messages] takes for
    impossible. *)
Theorem blank_table_name_panics uuids register bind :
  (sidecar_main_ uuids register bind = Panicked →
     is_blank (SidecarSecurity.setting (λ n, var_ok (var env_os n)) "PULPITUM_SQL_TABLE" "messages") = true) ∧
  sidecar_main_ uuids register bind ≠ OutOfFuel.
Proof.
  unfold sidecar_main. split.
  - intros Hm. do 8 (apply step_panics in Hm as (? & ?%map_err_ok & Hm)).
    destruct (chat_messages _ _) as [d| |] eqn:Ed; cbn [mbind Outcome_bind] in Hm; [| |done].
    + repeat (apply step_panics in Hm as (? & ? & Hm)). done.
    + apply chat_messages_panics in Ed as [Hb|Hb]; [done|]. match goal with H : TableId_new _ = Ok _ |- _ => unfold TableId_new in H end.
      case_match; congruence.
  - do 8 (apply and_then_fuel; [done|intros ? _]).
    unfold chat_messages. destruct (definition_new _ _ _ _ _ _); [|done]. cbn [mbind Outcome_bind].
    do 4 (apply and_then_fuel; [done|intros ? _]). done.
Qed.

(** An archiver that starts was enabled explicitly, and can keep its leases: its pool has a second
    connection for the renewals, the renewal interval is shorter than the lease, and all its times are
    positive; it reaches the database in plain text only for sslmode=disable. *)
Theorem archiver_starts_safely `{Chrono} parse_rfc3339 now a :
  archiver_main_ parse_rfc3339 now = Value (Ok a) →
  var env_os "PULPITUM_ARCHIVAL_ENABLED" = Present "true" ∧
  (2 ≤ max_connections (settings (ar_pool a)))%nat ∧
  0 < ar_interval a ∧ 0 < cfg_lease_renewal_interval (ar_config a) < cfg_lease_for (ar_config a) ∧
  0 < cfg_retry_backoff (ar_config a) ∧ cfg_scan_limit (ar_config a) = 64 ∧
  (transport (ar_pool a) = InsecureDev → ∃ parsed, ssl_mode parsed = Disable ∧
     parse_config (Programs.setting (var env_os) "COCKROACH_URL" DATABASE_URL) = Some parsed).
Proof.
  intros Hm. unfold archiver_main in Hm. do 5 next_step Hm.
  destruct (archiver_config _ _ _) as [res| |] eqn:Ec; [|done..]. cbn [mbind Outcome_bind] in Hm. next_step Hm. subst res.
  injection Hm as <-. simpl. destruct (archiver_config_positive _ _ _ _ Ec) as (Hi & Hr & Hb & Hl).
  split; [|split; [|split; [exact Hi|split; [exact Hr|split; [exact Hb|split; [exact Hl|]]]]]].
  - unfold archival_enabled, Programs.setting, Programs.parse_bool in Ha.
    destruct (var env_os "PULPITUM_ARCHIVAL_ENABLED") as [v| |]; simpl in Ha; [|done..].
    destruct (decide (v = "true")) as [->|]; [done|]. by destruct (decide (v = "false")).
  - unfold database_connect in Ha1. apply cockroach_connect_settings in Ha1 as [-> _].
    unfold archiver_pool_config, pool_settings in Ha0. destruct (match var_ok _ with Some _ => _ | None => _ end); [|done].
    cbn [mbind Result_bind] in Ha0. case_bool_decide; [done|]. injection Ha0 as <-. lia.
  - intros Ht. apply database_connection_never_downgrades in Ha1 as (parsed & Hp & Hm). rewrite Ht in Hm. by exists parsed.
Qed.
End theorems.
