(* ===== verification/System.v ===== *)
(** The whole system: any number of writers, readers, lease renewers and archive workers
    over one store and one archive, interleaved one storage call at a time, with workers
    that may be spawned and may crash at any point, and adapters that may fail any call.

    The abstract specification is an append-only table: per bucket, a multiset of records
    to which acknowledged appends are added and from which nothing is ever removed. The
    file proves that every reachable state implements it, whatever tier serves a bucket,
    and that a read through the router is a page of that table at some instant during the
    read. It is proved against [Storage.StoreLaws] and [Storage.ArchiveLaws], so it holds
    for every adapter that discharges them. *)
From S2P Require Import Prelude Chrono Model Storage Observability Prog Table Coordinator.
Local Open Scope Z_scope.

Section system.
Context `{Chrono} {E S F T : Type} `{DurableBucketStore E S} `{!StoreLaws E S}.
Context `{ArchiveStore F T} `{!ArchiveLaws F T}.

(** ** States and steps *)
(** A worker: the rest of its program and, for the proofs only, its phase. *)
Record worker := mkWorker { w_phase : phase; w_prog : prog unit }.

(** [acked] are the records whose append was acknowledged, [unsure] those whose append
    ended in an error that does not tell. *)
Record sys := mkSys {
  tiers : S * T;
  workers : gmap nat worker;
  acked : BucketId → list Record_;
  unsure : BucketId → list Record_
}.

(** Forget what a program returns. *)
Definition forget {A} (p : prog A) : prog unit := p ≫= λ _, Ret tt.

Definition record_if (cond : bool) (b : BucketId) (r : Record_) (log : BucketId → list Record_) :
    BucketId → list Record_ :=
  if cond then λ b', if decide (b' = b) then r :: log b' else log b' else log.

Definition is_unsure {A} (res : Result DurableBucketStoreError A) : bool :=
  match res with Ok _ => false | Err err => ambiguous err end.

(** Calls that clients and renewal tasks make outside of any worker. *)
Definition client_event {X} (e : event X) : Prop :=
  match e with
  | EStore c => wf_call c ∧
      match c with State _ | ReadRange _ _ _ _ | RenewArchiveLease _ _ => True | _ => False end
  | EArchive (GetBucket b _) => canonical b
  | ETelemetry _ => True
  | _ => False
  end.

(** The programs a worker runs: the two coordinators, and any other program that follows the
    same discipline. *)
Inductive spawnable : ∀ {A}, prog A → Prop :=
  | spawn_archive b : canonical b → spawnable (archive_bucket b)
  | spawn_recovery cfg : spawnable (run_once cfg)
  | spawn_disciplined {A} (p : prog A) : disciplined p → spawnable p.

(** The append of [r] to [b] by a client: what it answers, and the state after it. *)
Definition append_result (σ : sys) (b : BucketId) (r : Record_) (i : input (E := E) (F := F)) :
    Result DurableBucketStoreError unit :=
  (step_event (EStore (Append b r)) i (tiers σ)).1.
Definition after_append (σ : sys) (b : BucketId) (r : Record_) (i : input (E := E) (F := F)) : sys :=
  let res := append_result σ b r i in
  mkSys (step_event (EStore (Append b r)) i (tiers σ)).2 (workers σ)
    (record_if (is_ok res) b (stored r) (acked σ))
    (record_if (is_unsure res) b (stored r) (unsure σ)).

(** The steps that append nothing: a call of a reader or of a renewal task, and a worker that is
    spawned, makes its next call or crashes. *)
Inductive internal_step : sys → sys → Prop :=
  | step_client σ {X} (e : event X) (i : input (E := E) (F := F)) :
      client_event e →
      internal_step σ (mkSys (step_event e i (tiers σ)).2 (workers σ) (acked σ) (unsure σ))
  | step_spawn σ id {A} (p : prog A) :
      workers σ !! id = None → spawnable p →
      internal_step σ
        (mkSys (tiers σ) (<[id := mkWorker Idle (forget p)]> (workers σ)) (acked σ) (unsure σ))
  | step_work σ id ph {X} (e : event X) k (i : input (E := E) (F := F)) :
      workers σ !! id = Some (mkWorker ph (Vis e k)) →
      let x := (step_event e i (tiers σ)).1 in
      internal_step σ
        (mkSys (step_event e i (tiers σ)).2 (<[id := mkWorker (advance ph e x) (k x)]> (workers σ))
          (acked σ) (unsure σ))
  | step_crash σ id :
      internal_step σ (mkSys (tiers σ) (delete id (workers σ)) (acked σ) (unsure σ)).

Inductive step : sys → sys → Prop :=
  | step_append σ b r (i : input (E := E) (F := F)) :
      canonical b → in_bucket b (stored r) → step σ (after_append σ b r i)
  | step_internal σ σ' : internal_step σ σ' → step σ σ'.

Definition steps : sys → sys → Prop := rtc step.

(** A system starts with empty buckets, no objects and no workers. *)
Definition initial (σ : sys) : Prop :=
  store_inv (tiers σ).1 ∧ archive_inv (tiers σ).2 ∧
  (∀ b, canonical b → view (tiers σ).1 b ≡ fresh_aentry) ∧
  (∀ b k, canonical b → object (tiers σ).2 b k = None) ∧
  workers σ = ∅ ∧ (∀ b, acked σ b = []) ∧ (∀ b, unsure σ b = []).

(** ** The append-only table a system implements *)
Definition implements (σ : sys) (b : BucketId) : Prop := ∃ l,
  logical (tiers σ) b = Some l ∧ Forall (in_bucket b) l ∧
  acked σ b ⊆+ l ∧ l ⊆+ acked σ b ++ unsure σ b.

(** ** The invariant *)
Section invariant.
Context (st : S * T).

(** Nothing is readable under the session's names yet. *)
Definition unwritten (b : BucketId) (g : Z) : Prop :=
  ∀ b' k, canonical b' → generation_name b g k → object st.2 b' k = None.

(** The session owns a bucket that is being archived. *)
Definition fenced (s : ArchiveSession) : Prop :=
  a_state (view st.1 (session_bucket s)) = Archiving ∧ owns (view st.1 (session_bucket s)) s.

Definition session_ok (s : ArchiveSession) : Prop :=
  canonical (session_bucket s) ∧
  0 <= session_generation s <= a_generation (view st.1 (session_bucket s)).

Definition phase_ok (ph : phase) : Prop :=
  match ph with
  | Idle => True
  | Claimed s => session_ok s ∧ unwritten (session_bucket s) (session_generation s)
  | Snapped s rs => session_ok s ∧ unwritten (session_bucket s) (session_generation s) ∧
      Forall (in_bucket (session_bucket s)) rs ∧
      (fenced s → rs ≡ₚ a_records (view st.1 (session_bucket s)))
  | Uploaded s key => session_ok s ∧
      (fenced s → ∃ rs, object st.2 (session_bucket s) key = Some rs ∧
         rs ≡ₚ a_records (view st.1 (session_bucket s)))
  | Closing s => session_ok s
  end.

(** Generations not yet granted have no object. *)
Definition future_ok (b : BucketId) : Prop :=
  0 <= a_generation (view st.1 b) ∧ ∀ g, a_generation (view st.1 b) < g → unwritten b g.
End invariant.

(** The name a worker may still upload to. *)
Definition pending (ph : phase) : option (BucketId * Z) :=
  match ph with
  | Claimed s | Snapped s _ => Some (session_bucket s, session_generation s)
  | _ => None
  end.

Record sys_inv (σ : sys) : Prop := {
  inv_store : store_inv (tiers σ).1;
  inv_archive : archive_inv (tiers σ).2;
  inv_future : ∀ b, canonical b → future_ok (tiers σ) b;
  inv_content : ∀ b, canonical b → implements σ b;
  inv_worker : ∀ id w, workers σ !! id = Some w →
    phase_ok (tiers σ) (w_phase w) ∧ keeps (λ _ _, True) (w_phase w) (w_prog w);
  inv_distinct : ∀ id id' w w' n, workers σ !! id = Some w → workers σ !! id' = Some w' →
    pending (w_phase w) = Some n → pending (w_phase w') = Some n → id = id'
}.

(** ** How one bucket evolves *)
(** [e'] follows [e]: generations grow, and a session granted earlier that owns the archiving
    bucket after the step already did before it, with the same records. *)
Definition evolves (e e' : AEntry) : Prop :=
  a_generation e <= a_generation e' ∧
  ∀ s, session_generation s <= a_generation e → a_state e' = Archiving → owns e' s →
    a_state e = Archiving ∧ owns e s ∧ a_records e' ≡ₚ a_records e.

(** The content stays the same multiset. *)
Definition same_content (obj : string → option (list Record_)) (e e' : AEntry) : Prop :=
  ∀ l, content e obj = Some l → ∃ l', content e' obj = Some l' ∧ l' ≡ₚ l.

Lemma evolves_equiv e e' : e' ≡ e → evolves e e'.
Proof.
  intros (Es & Eg & Eo & Er). split; [lia|]. intros s _ Hst Ho. unfold owns in *.
  rewrite <- Es, <- Eg, <- Eo. done.
Qed.
Lemma same_content_equiv obj e e' : e' ≡ e → same_content obj e e'.
Proof.
  intros (Es & _ & _ & Er) l. unfold content. rewrite Es.
  destruct (a_state e); intros Hl; simplify_eq; eauto.
Qed.

Lemma eff_append_evolves r e e' : eff_append r e e' → evolves e e'.
Proof. intros [Hh He]. destruct He as (Es & Eg & Eo & Er). simpl in *. split; [lia|]. congruence. Qed.
Lemma eff_claim_evolves b e s e' : eff_claim b e s e' → evolves e e'.
Proof.
  intros (Hst & _ & Hg & (Es & Eg & Eo & Er)). simpl in *. split; [lia|]. intros s' Hs' _ [Ho _]. lia.
Qed.
Lemma eff_claim_cleanup_evolves b e s e' : eff_claim_cleanup b e s e' → evolves e e'.
Proof.
  intros (k & Hst & _ & Hg & (Es & Eg & Eo & Er)). simpl in *. split; [lia|]. intros s' Hs' _ [Ho _]. lia.
Qed.
Lemma eff_release_evolves s e e' : eff_release s e e' → evolves e e'.
Proof. intros (Hst & _ & (Es & Eg & Eo & Er)). simpl in *. split; [lia|]. congruence. Qed.
Lemma eff_publish_evolves s k e e' : eff_publish s k e e' → evolves e e'.
Proof. intros (Hst & _ & (Es & Eg & Eo & Er)). simpl in *. split; [lia|]. congruence. Qed.
Lemma eff_delete_evolves s e e' : eff_delete s e e' → evolves e e'.
Proof. intros (k & Hst & _ & (Es & Eg & Eo & Er)). simpl in *. split; [lia|]. congruence. Qed.

Lemma commits_evolves {A} (eff : A → AEntry → Prop) e res e' :
  (∀ a e', eff a e' → evolves e e') → commits eff e res e' → evolves e e'.
Proof.
  intros He. unfold commits. destruct res as [a|err]; [apply He|].
  intros [Heq|(_ & a & Ha)]; [by apply evolves_equiv|by eapply He].
Qed.
Lemma entry_spec_evolves {X} (c : store_call X) e x e' : entry_spec fidelity c e x e' → evolves e e'.
Proof.
  destruct c; simpl; try (intros [Heq _]; by apply evolves_equiv); try by apply evolves_equiv.
  all: apply commits_evolves; intros a e''.
  - apply eff_append_evolves.
  - unfold claims. destruct a; [apply eff_claim_evolves|apply evolves_equiv].
  - unfold claims. destruct a; [apply eff_claim_cleanup_evolves|apply evolves_equiv].
  - apply eff_release_evolves.
  - apply eff_claim_evolves.
  - apply eff_publish_evolves.
  - apply eff_delete_evolves.
  - apply eff_release_evolves.
Qed.

(** Every call but an append and a publication leaves the content alone. *)
Lemma commits_content {A} obj (eff : A → AEntry → Prop) e res e' :
  (∀ a e', eff a e' → same_content obj e e') → commits eff e res e' → same_content obj e e'.
Proof.
  intros He. unfold commits. destruct res as [a|err]; [apply He|].
  intros [Heq|(_ & a & Ha)]; [by apply same_content_equiv|by eapply He].
Qed.
Lemma content_by_state obj e e' st' st : a_state e = st → a_state e' = st' →
  match st, st' with
  | Archived k _, Archived k' _ => k = k'
  | Archived _ _, _ | _, Archived _ _ => False
  | _, _ => a_records e' ≡ₚ a_records e
  end → same_content obj e e'.
Proof.
  intros Es Es' Hm l. unfold content. rewrite Es, Es'.
  destruct st as [| |k d], st' as [| |k' d']; try done; intros; simplify_eq; eauto.
Qed.
Lemma eff_claim_content obj b e s e' : eff_claim b e s e' → same_content obj e e'.
Proof.
  intros (Hst & _ & _ & (Es & _ & _ & Er)). simpl in *.
  destruct Hst as [Hst|Hst]; eapply content_by_state; eauto.
Qed.
Lemma eff_claim_cleanup_content obj b e s e' : eff_claim_cleanup b e s e' → same_content obj e e'.
Proof. intros (k & Hst & _ & _ & (Es & _ & _ & _)). by eapply content_by_state; eauto. Qed.
Lemma eff_release_content obj s e e' : eff_release s e e' → same_content obj e e'.
Proof. intros (Hst & _ & (Es & _ & _ & Er)). by eapply content_by_state; eauto. Qed.
Lemma eff_delete_content obj s e e' : eff_delete s e e' → same_content obj e e'.
Proof. intros (k & Hst & _ & (Es & _ & _ & _)). by eapply content_by_state; eauto. Qed.
Lemma eff_publish_content (obj : string → option (list Record_)) s k e e' :
  (a_state e = Archiving → owns e s → ∃ rs, obj k = Some rs ∧ rs ≡ₚ a_records e) →
  eff_publish s k e e' → same_content obj e e'.
Proof.
  intros Hobj (Hst & Ho & (Es & _ & _ & _)) l. unfold content. simpl in *. rewrite Hst, Es.
  destruct (Hobj Hst Ho) as (rs & -> & Hrs). intros [= <-]. eauto.
Qed.
Lemma entry_spec_content {X} (c : store_call X) obj e x e' :
  match c with
  | Append _ _ => False
  | PublishArchive s k =>
      a_state e = Archiving → owns e s → ∃ rs, obj k = Some rs ∧ rs ≡ₚ a_records e
  | _ => True
  end → entry_spec fidelity c e x e' → same_content obj e e'.
Proof.
  destruct c; intros Hc; simpl; try done;
    try (intros [Heq _]; by apply same_content_equiv); try by apply same_content_equiv.
  all: apply commits_content; intros a e''.
  - unfold claims. destruct a; [apply eff_claim_content|apply same_content_equiv].
  - unfold claims. destruct a; [apply eff_claim_cleanup_content|apply same_content_equiv].
  - apply eff_release_content.
  - apply eff_claim_content.
  - by apply eff_publish_content.
  - apply eff_delete_content.
  - apply eff_release_content.
Qed.

(** ** How the two tiers evolve *)
(** One event takes the tiers from [st] to [st'], writing at most the object named [w]:
    buckets evolve, objects never change once they exist, and no other name is written. *)
Record tiers_step (w : option (BucketId * Z)) (st st' : S * T) : Prop := {
  ts_store : store_inv st'.1;
  ts_archive : archive_inv st'.2;
  ts_evolves : ∀ b, canonical b → evolves (view st.1 b) (view st'.1 b);
  ts_objects : ∀ b k l, canonical b → object st.2 b k = Some l → object st'.2 b k = Some l;
  ts_unwritten : ∀ b g, canonical b → 0 <= g → w ≠ Some (b, g) → unwritten st b g → unwritten st' b g;
  ts_granted : ∀ b g, w = Some (b, g) → g <= a_generation (view st.1 b)
}.

Lemma store_tiers_step {X} (c : store_call X) i st : wf_call c → store_inv st.1 → archive_inv st.2 →
  tiers_step None st (step_event (EStore c) i st).2.
Proof.
  intros Hc Hs Ht. simpl. pose proof (store_exec_inv _ c (in_store i) st.1 Hc Hs) as Hinv.
  pose proof (store_exec_frame _ c (in_store i) st.1) as Hframe.
  pose proof (store_exec_entry _ c (in_store i) st.1) as Hentry.
  destruct (store_exec c (in_store i) st.1) as [x s'].
  split; simpl in *; try done.
  intros b Hb. destruct (decide (call_bucket c = Some b)) as [Hcb|Hne].
  - eapply entry_spec_evolves, Hentry; eauto.
  - apply evolves_equiv. by apply Hframe.
Qed.
Lemma get_tiers_step b k i st : canonical b → store_inv st.1 → archive_inv st.2 →
  tiers_step None st (step_event (EArchive (GetBucket b k)) i st).2.
Proof.
  intros Hb Hs Ht. simpl. pose proof (get_bucket_spec (in_archive i) st.2 b k Ht Hb) as Hget.
  destruct (archive_exec _ _ st.2) as [x t']. destruct Hget as (Ht' & Hobj & _).
  split; simpl; [done|done|intros; by apply evolves_equiv|..|done].
  - intros b' k' l Hb'. by rewrite Hobj.
  - intros b' g Hb' _ _ Hu b'' k' Hb'' Hn. simpl. rewrite Hobj by done. by apply Hu.
Qed.
Lemma put_tiers_step b g rs i st : canonical b → 0 <= g <= a_generation (view st.1 b) →
  store_inv st.1 → archive_inv st.2 → unwritten st b g → Forall (in_bucket b) rs →
  tiers_step (Some (b, g)) st (step_event (EArchive (PutBucketGeneration b g rs)) i st).2.
Proof.
  intros Hb Hg Hs Ht Hu Hrs. simpl.
  pose proof (put_generation (in_archive i) st.2 b g rs Ht Hb (proj1 Hg) Hu Hrs) as Hput.
  destruct (archive_exec _ _ st.2) as [x t']. destruct Hput as (Ht' & Hobj & _).
  split; simpl; [done|done|intros; by apply evolves_equiv|..].
  - intros b' k l Hb' Hk. rewrite Hobj; [done..|]. intros Hn. by rewrite Hu in Hk.
  - intros b' g' Hb' Hg' Hw Hu' b'' k Hb'' Hn'. simpl. rewrite Hobj; [by apply Hu'|done|].
    intros Hn. destruct (generation_name_inj b b' g g' k) as [-> ->]; naive_solver lia.
  - intros b' g' [= <- <-]. lia.
Qed.

Lemma session_ok_mono w st st' s : tiers_step w st st' → session_ok st s → session_ok st' s.
Proof.
  intros Hts [Hb Hg]. split; [done|]. destruct (ts_evolves _ _ _ Hts _ Hb) as [? _]. lia.
Qed.
Lemma fenced_back w st st' s : tiers_step w st st' → session_ok st s → fenced st' s →
  fenced st s ∧ a_records (view st'.1 (session_bucket s)) ≡ₚ a_records (view st.1 (session_bucket s)).
Proof.
  intros Hts [Hb Hg] [Hst Ho]. destruct (ts_evolves _ _ _ Hts _ Hb) as [_ Hev].
  destruct (Hev s) as (? & ? & ?); [lia|done|done|]. by split.
Qed.
Lemma phase_ok_mono w st st' ph : tiers_step w st st' → (∀ n, pending ph = Some n → w ≠ Some n) →
  phase_ok st ph → phase_ok st' ph.
Proof.
  intros Hts Hw. assert (∀ s, session_ok st s → w ≠ Some (session_bucket s, session_generation s) →
    unwritten st (session_bucket s) (session_generation s) →
    unwritten st' (session_bucket s) (session_generation s)) as Hun.
  { intros s [Hb Hg] Hne Hu. eapply ts_unwritten; eauto. lia. }
  destruct ph as [|s|s rs|s key|s]; simpl in *; [done|..].
  - intros [Hs Hu]. split; [by eapply session_ok_mono|]. apply Hun; auto.
  - intros (Hs & Hu & Hin & Hf). split_and!; [by eapply session_ok_mono|apply Hun; auto|done|].
    intros Hf'. destruct (fenced_back _ _ _ _ Hts Hs Hf') as [Hf0 ->]. auto.
  - intros (Hs & Hf). split; [by eapply session_ok_mono|].
    intros Hf'. destruct (fenced_back _ _ _ _ Hts Hs Hf') as [Hf0 Hp].
    destruct (Hf Hf0) as (rs & Ho & Hrs). exists rs. rewrite Hp. split; [|done].
    eapply ts_objects; eauto. apply Hs.
  - intros Hs. by eapply session_ok_mono.
Qed.
Lemma future_ok_mono w st st' b : tiers_step w st st' → canonical b → future_ok st b → future_ok st' b.
Proof.
  intros Hts Hb [Hg Hf]. destruct (ts_evolves _ _ _ Hts b Hb) as [Hle _]. split; [lia|].
  intros g Hlt. eapply ts_unwritten; eauto; [lia| |apply Hf; lia].
  intros ->. pose proof (ts_granted _ _ _ Hts b g eq_refl). lia.
Qed.

(** The logical content of a bucket is the same multiset in both states. *)
Definition logical_same (st st' : S * T) (b : BucketId) : Prop :=
  ∀ l, logical st b = Some l → ∃ l', logical st' b = Some l' ∧ l' ≡ₚ l.

Lemma store_logical_same {X} (c : store_call X) i st b : wf_call c → store_inv st.1 → canonical b →
  match c with
  | Append _ _ => False
  | PublishArchive s k => fenced st s → ∃ rs, object st.2 (session_bucket s) k = Some rs ∧
      rs ≡ₚ a_records (view st.1 (session_bucket s))
  | _ => True
  end → logical_same st (step_event (EStore c) i st).2 b.
Proof.
  intros Hc Hs Hb Hpub. pose proof (store_exec_frame _ c (in_store i) st.1 b Hc Hs Hb) as Hframe.
  pose proof (store_exec_entry _ c (in_store i) st.1 b Hc Hs) as Hentry.
  simpl. destruct (store_exec c (in_store i) st.1) as [x s']. unfold logical_same, logical. simpl in *.
  destruct (decide (call_bucket c = Some b)) as [Hcb|Hne].
  - apply (entry_spec_content c (object st.2 b) _ x); [|by apply Hentry].
    destruct c; try done. simplify_eq/=. intros Hst Ho. by apply Hpub.
  - apply same_content_equiv. by apply Hframe.
Qed.
Lemma objects_logical_same (st st' : S * T) b :
  (∀ k l, object st.2 b k = Some l → object st'.2 b k = Some l) → view st'.1 b = view st.1 b →
  logical_same st st' b.
Proof.
  intros Ho Hv l. unfold logical, content. rewrite Hv.
  destruct (a_state (view st.1 b)); intros; simplify_eq; eauto.
Qed.

(** ** Preservation *)
Lemma implements_same σ st' ws b : logical_same (tiers σ) st' b → implements σ b →
  implements (mkSys st' ws (acked σ) (unsure σ)) b.
Proof.
  intros Hsame (l & Hl & Hin & Ha & Hu). destruct (Hsame l Hl) as (l' & Hl' & Hp).
  exists l'. simpl. split_and!; [done|by rewrite Hp..].
Qed.

(** A granted claim: the session is the bucket's newest, and its name is free. *)
Lemma granted_ok st st' b s : tiers_step None st st' → canonical b → future_ok st b →
  session_bucket s = b → session_generation s = a_generation (view st.1 b) + 1 →
  a_generation (view st'.1 b) = a_generation (view st.1 b) + 1 →
  session_ok st' s ∧ unwritten st' (session_bucket s) (session_generation s).
Proof.
  intros Hts Hb [Hg Hf] <- Hs Hg'. split; [split; [done|lia]|].
  eapply ts_unwritten; eauto; [lia|]. apply Hf. lia.
Qed.

Section worker_event.
Context (σ : sys) (Hσ : sys_inv σ) (ph : phase) (Hph : phase_ok (tiers σ) ph).

Lemma store_call_plausible {X} (c : store_call X) i : allowed_store ph c →
  plausible (EStore c) (step_event (EStore c) i (tiers σ)).1.
Proof.
  intros [Hc _]. pose proof (store_exec_entry _ c (in_store i) (tiers σ).1) as Hentry.
  pose proof (inv_store _ Hσ) as Hs. simpl.
  destruct c; simpl; try done;
    try (specialize (Hentry b Hc Hs eq_refl); destruct (store_exec _ _ _) as [x s']; simpl in *).
  - pose proof (store_discover_canonical scan (in_store i) (tiers σ).1) as Hd.
    destruct (store_exec _ _ _) as [[ws|err] s']; simpl; [|done]. by apply Hd.
  - destruct x as [[s|]|]; [|done..]. by destruct Hentry as (_ & ? & _).
  - destruct x as [[s|]|]; [|done..]. by destruct Hentry as (? & _ & ? & _).
  - destruct x as [s|]; [|done]. by destruct Hentry as (_ & ? & _).
Qed.

(** What a worker's store call does to its own phase. *)
Lemma store_call_phase {X} (c : store_call X) i : allowed_store ph c →
  phase_ok (step_event (EStore c) i (tiers σ)).2
    (advance_store ph c (step_event (EStore c) i (tiers σ)).1).
Proof.
  intros [Hc Hal]. pose proof (inv_store _ Hσ) as Hs.
  pose proof (store_tiers_step c i (tiers σ) Hc Hs (inv_archive _ Hσ)) as Hts.
  assert (phase_ok (step_event (EStore c) i (tiers σ)).2 ph) as Hph'
    by (eapply phase_ok_mono; [exact Hts|done|done]).
  pose proof (store_exec_entry _ c (in_store i) (tiers σ).1) as Hentry. simpl in *.
  destruct (store_exec c (in_store i) (tiers σ).1) as [x s'] eqn:Ex. simpl in *.
  destruct c; simpl in *; try done.
  - destruct x as [[s|]|]; [|done..]. destruct (Hentry b Hc Hs eq_refl) as (_ & Hb & Hg & He). subst b.
    apply (granted_ok (tiers σ) _ (session_bucket s)); simpl;
      [done|apply Hc|apply (inv_future _ Hσ), Hc|done|done|by rewrite He].
  - destruct x as [[s|]|]; [|done..]. destruct (Hentry b Hc Hs eq_refl) as (k & _ & Hb & Hg & He). subst b.
    apply (granted_ok (tiers σ) _ (session_bucket s)); simpl;
      [done|apply Hc|apply (inv_future _ Hσ), Hc|done|done|by rewrite He].
  - destruct x as [s|]; [|done]. destruct (Hentry b Hc Hs eq_refl) as (_ & Hb & Hg & He). subst b.
    apply (granted_ok (tiers σ) _ (session_bucket s)); simpl;
      [done|apply Hc|apply (inv_future _ Hσ), Hc|done|done|by rewrite He].
  - destruct x as [rs|]; [|done]. subst ph. destruct (Hentry _ Hc Hs eq_refl) as (He & Hst & Ho & Hrs).
    destruct Hph' as [Hs' Hu']. simpl. split_and!; [done|done| |].
    + destruct (inv_content _ Hσ _ (proj1 Hc)) as (l & Hl & Hin & _). unfold logical, content in Hl.
      rewrite Hst in Hl. simplify_eq. by rewrite Hrs.
    + intros _. simpl. by rewrite He.
Qed.

Lemma store_call_logical {X} (c : store_call X) i b : allowed_store ph c → canonical b →
  logical_same (tiers σ) (step_event (EStore c) i (tiers σ)).2 b.
Proof.
  intros [Hc Hal] Hb. apply store_logical_same; [done|apply (inv_store _ Hσ)|done|].
  destruct c; try done. subst ph. by destruct Hph as [_ ?].
Qed.

(** The name a worker may upload to afterwards is one it had, or was just granted. *)
Lemma store_call_pending {X} (c : store_call X) i n : allowed_store ph c →
  pending (advance_store ph c (step_event (EStore c) i (tiers σ)).1) = Some n →
  pending ph = Some n ∨ a_generation (view (tiers σ).1 n.1) < n.2.
Proof.
  intros [Hc Hal]. pose proof (store_exec_entry _ c (in_store i) (tiers σ).1) as Hentry.
  pose proof (inv_store _ Hσ) as Hs. simpl.
  destruct c; simpl; auto; destruct (store_exec _ _ _) as [x s']; simpl in *.
  - destruct x as [[s|]|]; auto. destruct (Hentry b Hc Hs eq_refl) as (_ & Hb & Hg & _). subst b.
    intros [= <-]. right. simpl. lia.
  - destruct x as [[s|]|]; auto. done.
  - destruct x as [s|]; auto. destruct (Hentry b Hc Hs eq_refl) as (_ & Hb & Hg & _). subst b.
    intros [= <-]. right. simpl. lia.
  - destruct x as [rs|]; auto. subst ph. auto.
Qed.

Lemma idle_tiers : tiers_step None (tiers σ) (tiers σ).
Proof. split; [apply Hσ|apply Hσ|intros; by apply evolves_equiv|done..]. Qed.
Lemma logical_same_refl st b : logical_same st st b.
Proof. intros l Hl. eauto. Qed.

(** Everything one event of a worker does. *)
Lemma worker_event {X} (e : event X) i : allowed ph e →
  let x := (step_event e i (tiers σ)).1 in let st' := (step_event e i (tiers σ)).2 in
  (∃ w, tiers_step w (tiers σ) st' ∧ (w = None ∨ w = pending ph) ∧
     (w = None ∨ pending (advance ph e x) = None)) ∧
  (∀ b, canonical b → logical_same (tiers σ) st' b) ∧ plausible e x ∧ phase_ok st' (advance ph e x) ∧
  (∀ n, pending (advance ph e x) = Some n →
     pending ph = Some n ∨ a_generation (view (tiers σ).1 n.1) < n.2).
Proof.
  intros Hal. destruct e as [X c|X c|s lease interval| | |h|]; cbv zeta.
  3-7: simpl; split; [exists None; split; [apply idle_tiers|by auto]|];
    (split; [intros; apply logical_same_refl|]); (split; [done|]); (split; [done|]); by auto.
  - split; [exists None; split; [apply store_tiers_step; [apply Hal|apply Hσ..]|by auto]|].
    split; [intros; by apply store_call_logical|].
    split; [by apply store_call_plausible|].
    split; [by apply store_call_phase|]. intros n. by apply store_call_pending.
  - destruct c as [b rs|b g rs|b k]; [done| |].
    + destruct Hal as (s & -> & -> & ->). destruct Hph as (Hs & Hu & Hin & Hf).
      pose proof (put_tiers_step _ _ rs i (tiers σ) (proj1 Hs) (proj2 Hs) (inv_store _ Hσ) (inv_archive _ Hσ)
        Hu Hin) as Hts.
      pose proof (put_generation (in_archive i) (tiers σ).2 _ _ rs (inv_archive _ Hσ) (proj1 Hs)
        (proj1 (proj2 Hs)) Hu Hin) as Hput.
      simpl in *. destruct (archive_exec _ _ _) as [x t']. destruct Hput as (_ & Hobj & Hok). simpl in *.
      split; [exists (Some (session_bucket s, session_generation s)); split; [done|]; split; [by right|];
        right; by destruct x|].
      split; [intros b Hb; apply objects_logical_same; [|done]; intros; by eapply (ts_objects _ _ _ Hts)|].
      split; [done|]. destruct x as [key|err]; simpl; [|split; [by eapply session_ok_mono|done]].
      split; [|done]. split; [by eapply session_ok_mono|]. intros Hf'.
      destruct (Hok key eq_refl) as (_ & rs' & Hrs' & Hp). exists rs'. split; [done|]. rewrite Hp.
      by apply Hf.
    + pose proof (get_tiers_step b k i (tiers σ) Hal (inv_store _ Hσ) (inv_archive _ Hσ)) as Hts.
      split; [exists None; by auto|]. simpl in *. destruct (archive_exec _ _ _) as [x t']. simpl in *.
      split; [intros b' Hb'; apply objects_logical_same; [|done]; intros; by eapply (ts_objects _ _ _ Hts)|].
      split; [done|]. split; [|auto]. by eapply phase_ok_mono; [exact Hts|..].
Qed.
End worker_event.

Lemma sys_inv_build w σ st' ws ak un : sys_inv σ → tiers_step w (tiers σ) st' →
  (∀ b, canonical b → implements (mkSys st' ws ak un) b) →
  (∀ id wk, ws !! id = Some wk →
     phase_ok st' (w_phase wk) ∧ keeps (λ _ _, True) (w_phase wk) (w_prog wk)) →
  (∀ id id' wk wk' n, ws !! id = Some wk → ws !! id' = Some wk' →
     pending (w_phase wk) = Some n → pending (w_phase wk') = Some n → id = id') →
  sys_inv (mkSys st' ws ak un).
Proof.
  intros Hσ Hts Himp Hw Hd. split; simpl; try done; [apply Hts..|].
  intros b Hb. eapply future_ok_mono; eauto. by apply Hσ.
Qed.

(** A step that changes no worker and writes no object. *)
Lemma sys_inv_client σ st' ak un : sys_inv σ → tiers_step None (tiers σ) st' →
  (∀ b, canonical b → implements (mkSys st' (workers σ) ak un) b) →
  sys_inv (mkSys st' (workers σ) ak un).
Proof.
  intros Hσ Hts Himp. eapply sys_inv_build; eauto; [|apply Hσ].
  intros id wk Hwk. destruct (inv_worker _ Hσ _ _ Hwk) as [Hph Hk]. split; [|done].
  by eapply phase_ok_mono.
Qed.

Lemma append_implements σ b r i : sys_inv σ → canonical b →
  r_partition_key r = partition_key b → in_bucket b (stored r) →
  let res := (step_event (F := F) (EStore (Append b r)) i (tiers σ)).1 in
  let st' := (step_event (F := F) (EStore (Append b r)) i (tiers σ)).2 in
  implements (mkSys st' (workers σ) (record_if (is_ok res) b (stored r) (acked σ))
    (record_if (is_unsure res) b (stored r) (unsure σ))) b.
Proof.
  intros Hσ Hb Hpk Hin. pose proof (store_exec_entry _ (Append b r) (in_store i) (tiers σ).1 b (conj Hb Hpk)
    (inv_store _ Hσ) eq_refl) as Hentry.
  simpl. destruct (store_exec (Append b r) (in_store i) (tiers σ).1) as [res s']. simpl in *.
  destruct (inv_content _ Hσ b Hb) as (l & Hl & Hinl & Ha & Hu).
  assert (eff_append (stored r) (view (tiers σ).1 b) (view s' b) → ∃ l', content (view s' b)
    (object (tiers σ).2 b) = Some l' ∧ l' ≡ₚ stored r :: l) as Heff.
  { intros [Hh (Es & _ & _ & Er)]. unfold logical, content in Hl. rewrite Hh in Hl. simplify_eq.
    simpl in *. unfold content. rewrite Es. eauto. }
  unfold implements, logical in *. simpl. unfold record_if.
  destruct res as [[]|err]; simpl in Hentry |- *.
  - destruct (Heff Hentry) as (l' & Hl' & Hp). exists l'. rewrite decide_True by done.
    split_and!; [done|rewrite Hp; by constructor|rewrite Hp; by constructor|rewrite Hp; simpl; by constructor].
  - destruct Hentry as [Heq|[Hamb [[] Hc]]].
    + destruct (same_content_equiv (object (tiers σ).2 b) _ _ Heq l Hl) as (l' & Hl' & Hp).
      exists l'. split_and!; [done|by rewrite Hp|by rewrite Hp|]. rewrite Hp.
      destruct (ambiguous err); [|done]. rewrite decide_True by done. rewrite Hu.
      apply submseteq_skips_l. by constructor.
    + rewrite Hamb, decide_True by done. destruct (Heff Hc) as (l' & Hl' & Hp). exists l'.
      split_and!; [done|rewrite Hp; by constructor|rewrite Hp; by constructor|].
      rewrite Hp, <- Permutation_middle. by constructor.
Qed.

Lemma append_frame σ b b' r i : sys_inv σ → canonical b →
  r_partition_key r = partition_key b → canonical b' → b' ≠ b →
  logical_same (tiers σ) (step_event (F := F) (EStore (Append b r)) i (tiers σ)).2 b'.
Proof.
  intros Hσ Hb Hpk Hb' Hne.
  pose proof (store_exec_frame _ (Append b r) (in_store i) (tiers σ).1 b' (conj Hb Hpk) (inv_store _ Hσ) Hb') as Hframe.
  simpl. destruct (store_exec _ _ _) as [res s']. simpl in *. unfold logical_same, logical. simpl.
  apply same_content_equiv, Hframe. congruence.
Qed.
Lemma implements_frame σ st' ws ak un b : logical_same (tiers σ) st' b → implements σ b →
  ak b = acked σ b → un b = unsure σ b → implements (mkSys st' ws ak un) b.
Proof.
  intros Hs Hi Ea Eu. destruct (implements_same σ st' ws b Hs Hi) as (l & Hl & Hin & Ha & Hu).
  exists l. simpl in *. by rewrite Ea, Eu.
Qed.
Lemma record_if_ne c b b' r log : b' ≠ b → record_if c b r log b' = log b'.
Proof. intros Hne. unfold record_if. destruct c; [|done]. by rewrite decide_False. Qed.

Lemma client_logical σ {X} (e : event X) (i : input (E := E) (F := F)) : sys_inv σ → client_event e →
  tiers_step None (tiers σ) (step_event e i (tiers σ)).2 ∧
  ∀ b, canonical b → logical_same (tiers σ) (step_event e i (tiers σ)).2 b.
Proof.
  intros Hσ Hc. destruct e as [X c|X c| | | |h|]; try done.
  - destruct Hc as [Hwf Hc]. split; [apply store_tiers_step; [done|apply Hσ..]|].
    intros b Hb. apply store_logical_same; [done|apply Hσ|done|]. by destruct c.
  - destruct c as [| |b k]; try done.
    pose proof (get_tiers_step b k i (tiers σ) Hc (inv_store _ Hσ) (inv_archive _ Hσ)) as Hts.
    split; [done|]. intros b' Hb'. apply objects_logical_same.
    + intros k' l. by apply (ts_objects _ _ _ Hts).
    + simpl. by destruct (archive_exec _ _ _).
  - split; [by apply idle_tiers|]. intros b Hb. apply logical_same_refl.
Qed.

Lemma spawnable_keeps {A} (p : prog A) : spawnable p → keeps (λ _ _, True) Idle p.
Proof.
  intros [b Hb|cfg|A' p' Hp]; [| |done]; (eapply keeps_mono; [|by first [apply archive_bucket_keeps|apply run_once_keeps]]); done.
Qed.
Lemma forget_keeps {A} (p : prog A) ph : keeps (λ _ _, True) ph p → keeps (λ _ _, True) ph (forget p).
Proof. intros Hp. apply keeps_bind. eapply keeps_mono; [|exact Hp]. done. Qed.

(** The worker that moved gets its new phase; the others keep theirs. *)
Lemma work_inv σ id ph {X} (e : event X) k (i : input (E := E) (F := F)) : sys_inv σ →
  workers σ !! id = Some (mkWorker ph (Vis e k)) →
  let x := (step_event e i (tiers σ)).1 in
  sys_inv (mkSys (step_event e i (tiers σ)).2 (<[id := mkWorker (advance ph e x) (k x)]> (workers σ))
    (acked σ) (unsure σ)).
Proof.
  intros Hσ Hid x. destruct (inv_worker _ Hσ _ _ Hid) as [Hph [Hal Hk]]. simpl in *.
  destruct (worker_event σ Hσ ph Hph e i Hal) as ((w & Hts & Hw & Hw') & Hlog & Hpl & Hph' & Hpend).
  fold x in Hw', Hpl, Hph', Hpend.
  assert (∀ id' wk, id' ≠ id → workers σ !! id' = Some wk → ∀ n, pending (w_phase wk) = Some n →
    w ≠ Some n ∧ pending (advance ph e x) ≠ Some n) as Hother.
  { intros id' wk Hne Hwk n Hn. destruct (inv_worker _ Hσ _ _ Hwk) as [Hphk _]. split.
    - intros ->. destruct Hw as [|Hw]; [done|]. apply Hne.
      by eapply (inv_distinct _ Hσ id' id wk _ n).
    - intros Hadv. destruct (Hpend n Hadv) as [Hold|Hnew].
      + apply Hne. by eapply (inv_distinct _ Hσ id' id wk _ n).
      + destruct (w_phase wk) as [|s|s rs|s key|s]; simplify_eq/=; destruct Hphk as [[_ Hg] _]; lia. }
  apply sys_inv_build with w σ; [done|done| | |].
  - intros b Hb. apply implements_same; [by apply Hlog|by apply Hσ].
  - intros id' wk [[<- <-]|[Hne Hwk]]%lookup_insert_Some; simpl; [split; [done|by apply Hk]|].
    destruct (inv_worker _ Hσ _ _ Hwk) as [Hphk Hkk]. split; [|done].
    eapply phase_ok_mono; [exact Hts| |done]. intros n Hn. by eapply Hother.
  - intros id1 id2 w1 w2 n [[<- <-]|[Hne1 Hwk1]]%lookup_insert_Some
      [[<- <-]|[Hne2 Hwk2]]%lookup_insert_Some; simpl; intros Hn1 Hn2; try done.
    + destruct (Hother id2 w2 (not_eq_sym Hne2) Hwk2 n Hn2). done.
    + destruct (Hother id1 w1 (not_eq_sym Hne1) Hwk1 n Hn1). done.
    + by eapply (inv_distinct _ Hσ id1 id2 w1 w2 n).
Qed.

Lemma step_inv σ σ' : sys_inv σ → step σ σ' → sys_inv σ'.
Proof.
  intros Hσ Hstep. destruct Hstep as [σ b r i Hb Hin|? ? [σ X e i Hc|σ id A p Hid Hp
    |σ id ph X e k i Hid x|σ id]].
  - apply sys_inv_client; [done|apply store_tiers_step; [split; [done|apply Hin]|apply Hσ..]|].
    intros b' Hb'. destruct (decide (b' = b)) as [->|Hne]; [exact (append_implements σ b r i Hσ Hb (proj1 Hin) Hin)|].
    apply implements_frame with σ; [exact (append_frame σ b b' r i Hσ Hb (proj1 Hin) Hb' Hne)|by apply Hσ|by apply record_if_ne..].
  - destruct (client_logical σ e i Hσ Hc) as [Hts Hlog]. apply sys_inv_client; [done|done|].
    intros b Hb. apply implements_same; [by apply Hlog|by apply Hσ].
  - apply sys_inv_build with None σ; [done|by apply idle_tiers| | |].
    + intros b Hb. apply implements_same; [apply logical_same_refl|by apply Hσ].
    + intros id' wk [[<- <-]|[_ Hwk]]%lookup_insert_Some; [|by eapply (inv_worker _ Hσ)].
      split; [done|]. by apply forget_keeps, spawnable_keeps.
    + intros id1 id2 w1 w2 n [[<- <-]|[_ Hwk1]]%lookup_insert_Some
        [[<- <-]|[_ Hwk2]]%lookup_insert_Some; simpl; try done.
      by apply (inv_distinct _ Hσ).
  - by apply work_inv.
  - apply sys_inv_build with None σ; [done|by apply idle_tiers| | |].
    + intros b Hb. apply implements_same; [apply logical_same_refl|by apply Hσ].
    + intros id' wk [_ Hwk]%lookup_delete_Some. by eapply (inv_worker _ Hσ).
    + intros id1 id2 w1 w2 n [_ Hwk1]%lookup_delete_Some [_ Hwk2]%lookup_delete_Some.
      by apply (inv_distinct _ Hσ).
Qed.
Lemma initial_inv σ : initial σ → sys_inv σ.
Proof.
  intros (Hs & Ht & Hv & Ho & Hw & Ha & Hu). split; try done.
  - intros b Hb. split; [by rewrite Hv by done|]. intros g _ b' k Hb' _. by apply Ho.
  - intros b Hb. exists []. unfold logical, content. destruct (Hv b Hb) as (-> & _ & _ & Er). simpl in *.
    rewrite Ha, Hu. apply Permutation_nil_r in Er. rewrite Er. done.
  - intros id w. by rewrite Hw, lookup_empty.
  - intros id id' w w' n. by rewrite Hw, lookup_empty.
Qed.
Lemma steps_inv σ σ' : sys_inv σ → steps σ σ' → sys_inv σ'.
Proof. intros Hσ. induction 1; [done|]. eauto using step_inv. Qed.

Lemma step_tiers σ σ' : sys_inv σ → step σ σ' → ∃ w, tiers_step w (tiers σ) (tiers σ').
Proof.
  intros Hσ Hstep. destruct Hstep as [σ b r i Hb Hin|? ? [σ X e i Hc|σ id A p Hid Hp
    |σ id ph X e k i Hid x|σ id]]; simpl.
  - exists None. apply store_tiers_step; [split; [done|apply Hin]|apply Hσ..].
  - exists None. by apply client_logical.
  - exists None. by apply idle_tiers.
  - destruct (inv_worker _ Hσ _ _ Hid) as [Hph [Hal _]].
    destruct (worker_event σ Hσ ph Hph e i Hal) as ((w & Hts & _) & _). eauto.
  - exists None. by apply idle_tiers.
Qed.

(** Published objects never change. *)
Lemma steps_objects σ σ' b k l : sys_inv σ → steps σ σ' → canonical b →
  object (tiers σ).2 b k = Some l → object (tiers σ').2 b k = Some l.
Proof.
  intros Hσ Hsteps Hb. induction Hsteps as [|σ σ1 σ2 Hstep _ IH]; [done|]. intros Ho.
  destruct (step_tiers _ _ Hσ Hstep) as [w Hts]. apply IH; [by eapply step_inv|].
  by eapply ts_objects.
Qed.
Lemma steps_acked σ σ' b : steps σ σ' → acked σ b ⊆+ acked σ' b.
Proof.
  induction 1 as [|σ σ1 σ2 Hstep _ IH]; [done|]. etransitivity; [|exact IH].
  destruct Hstep as [σ b' r i Hb Hin|? ? Hi]; [|by destruct Hi]. simpl. unfold record_if.
  repeat case_match; try done. by constructor.
Qed.

(** What an append of [r] that answered [res] makes of the content [l] of its bucket and of the
    records acknowledged and unsure before it. *)
Definition appended_to (r : Record_) (res : Result DurableBucketStoreError unit)
    (l l' ak ak' un un' : list Record_) : Prop :=
  match res with
  | Ok _ => l' ≡ₚ r :: l ∧ ak' = r :: ak ∧ un' = un
  | Err err =>
      ak' = ak ∧
      if ambiguous err then (l' ≡ₚ l ∨ l' ≡ₚ r :: l) ∧ un' = r :: un else l' ≡ₚ l ∧ un' = un
  end.

Lemma append_logical σ b r (i : input (E := E) (F := F)) l : sys_inv σ → canonical b →
  r_partition_key r = partition_key b → logical (tiers σ) b = Some l →
  ∃ l', logical (tiers (after_append σ b r i)) b = Some l' ∧
    appended_to (stored r) (append_result σ b r i) l l' (acked σ b) (acked (after_append σ b r i) b)
      (unsure σ b) (unsure (after_append σ b r i) b).
Proof.
  intros Hσ Hb Hpk Hl. pose proof (store_exec_entry _ (Append b r) (in_store i) (tiers σ).1 b (conj Hb Hpk)
    (inv_store _ Hσ) eq_refl) as Hentry.
  unfold after_append, append_result, record_if. simpl.
  destruct (store_exec (Append b r) (in_store i) (tiers σ).1) as [res s']. simpl in *.
  assert (eff_append (stored r) (view (tiers σ).1 b) (view s' b) → ∃ l', content (view s' b)
    (object (tiers σ).2 b) = Some l' ∧ l' ≡ₚ stored r :: l) as Heff.
  { intros [Hh (Es & _ & _ & Er)]. unfold logical, content in Hl. rewrite Hh in Hl. simplify_eq.
    simpl in *. unfold content. rewrite Es. eauto. }
  unfold logical in *. simpl. destruct res as [[]|err]; simpl in Hentry |- *.
  - rewrite decide_True by done. destruct (Heff Hentry) as (l' & ? & ?). exists l'. by split_and!.
  - destruct Hentry as [Heq|[Ha [[] Hc]]].
    + destruct (same_content_equiv (object (tiers σ).2 b) _ _ Heq l Hl) as (l' & ? & ?). exists l'.
      unfold appended_to. destruct (ambiguous err); [rewrite decide_True by done|]; auto 6.
    + unfold appended_to. rewrite Ha, decide_True by done. destruct (Heff Hc) as (l' & ? & ?). exists l'. auto 6.
Qed.

(** Every other step leaves every bucket's content the same multiset. *)
Lemma internal_logical σ σ' b l : sys_inv σ → internal_step σ σ' → canonical b →
  logical (tiers σ) b = Some l →
  acked σ' b = acked σ b ∧ unsure σ' b = unsure σ b ∧ ∃ l', logical (tiers σ') b = Some l' ∧ l' ≡ₚ l.
Proof.
  intros Hσ Hstep Hb Hl. destruct Hstep as [σ X e i Hc|σ id A p Hid Hp|σ id ph X e k i Hid x|σ id]; simpl;
    (split; [done|]); (split; [done|]); eauto.
  - by apply (client_logical σ e i Hσ Hc).
  - destruct (inv_worker _ Hσ _ _ Hid) as [Hph [Hal _]].
    by apply (worker_event σ Hσ ph Hph e i Hal).
Qed.

(** ** Programs interleaved with the rest of the system *)
(** The client [p] runs from [σ] to [σ'] and returns [a]; before each of its events and after
    the last one any number of steps of the system may happen. *)
Fixpoint interleaved {A} (p : prog A) (σ : sys) (a : A) (σ' : sys) : Prop :=
  match p with
  | Ret a' => a' = a ∧ steps σ σ'
  | Vis e k => ∃ (i : input (E := E) (F := F)) σ1, steps σ σ1 ∧
      interleaved (k (step_event e i (tiers σ1)).1)
        (mkSys (step_event e i (tiers σ1)).2 (workers σ1) (acked σ1) (unsure σ1)) a σ'
  end.

(** A telemetry call of a client changes nothing. *)
Lemma interleaved_telemetry {A} h (p : prog A) σ a σ' :
  interleaved (telemetry h ≫= λ _, p) σ a σ' → ∃ σ1, steps σ σ1 ∧ interleaved p σ1 a σ'.
Proof. intros (i & σ1 & Hto & Hp). exists σ1. split; [done|]. by destruct σ1. Qed.

(** One event of a client is a step of the system. *)
Lemma interleaved_client {A X} (e : event X) (k : X → prog A) σ a σ' : client_event e →
  interleaved (Vis e k) σ a σ' → ∃ (i : input (E := E) (F := F)) σ1,
    let σ2 := mkSys (step_event e i (tiers σ1)).2 (workers σ1) (acked σ1) (unsure σ1) in
    steps σ σ1 ∧ steps σ1 σ2 ∧ interleaved (k (step_event e i (tiers σ1)).1) σ2 a σ'.
Proof.
  intros Hc (i & σ1 & Hto & Hk). exists i, σ1. split_and!; [done| |done]. by apply rtc_once, step_internal, step_client.
Qed.
Lemma interleaved_ret {A} (a a' : A) σ σ' : interleaved (Ret a') σ a σ' → a' = a ∧ steps σ σ'.
Proof. done. Qed.

(** The page a bucket in the given state serves: the archive is filtered by the caller's own
    bounds, cursor and limit; the database by what its columns and its row count keep of them. *)
Definition served_page (state : BucketState) (range : TimeRange) (after : option Cursor) (limit : Z)
    (l : list Record_) : list Record_ :=
  match state with
  | Archived _ _ => page range after limit l
  | _ => page (stored_range fidelity range) (stored_cursor fidelity <$> after) (f_limit fidelity limit) l
  end.

(** Interleaved with anything, a successful [read_bucket] saw the bucket's content at one instant;
    an archived bucket's object is fetched later, but it does not change. *)
Lemma read_linearizes σ σ' b range after limit rs : sys_inv σ → canonical b →
  interleaved (read_bucket b range after limit) σ (Ok rs) σ' →
  ∃ σm l lm, steps σ σm ∧ steps σm σ' ∧ logical (tiers σm) b = Some lm ∧ l ≡ₚ lm ∧
    rs = served_page (a_state (view (tiers σm).1 b)) range after limit l ∧
    (precise_for fidelity range after limit (length l) → rs = page range after limit l).
Proof.
  intros Hσ Hb Hrun. apply interleaved_client in Hrun as (i & σ1 & Hto1 & Hs1 & Hrest); [|by split].
  pose proof (steps_inv _ _ Hσ Hto1) as Hσ1.
  pose proof (store_exec_entry _ (ReadRange b range after limit) (in_store i) (tiers σ1).1 b (conj Hb I)
    (inv_store _ Hσ1) eq_refl) as [_ Hread].
  destruct (inv_content _ Hσ1 b Hb) as (lm & Hlm & _). cbn [step_event fst snd] in *.
  destruct (store_exec (ReadRange b range after limit) (in_store i) (tiers σ1).1) as [[read|err] s1];
    cbn [fst snd tiers] in *; [|by destruct Hrest].
  unfold routed in Hread. exists σ1. unfold logical, content in Hlm |- *.
  destruct (a_state (view (tiers σ1).1 b)) as [| |key del] eqn:Est.
  1,2: destruct Hread as (l & Hl & ->); apply interleaved_telemetry in Hrest as (σ2 & Hto2 & [[= <-] Hto3]);
    simplify_eq; exists l, (a_records (view (tiers σ1).1 b));
    (split_and!; [done|by do 2 (etransitivity; [eassumption|])|done|done|done|]);
    intros Hpre; pose proof Hpre as (-> & -> & _); by apply precise_for_page.
  subst read. apply interleaved_telemetry in Hrest as (σ2 & Hto2 & Hrest).
  apply interleaved_client in Hrest as (i2 & σ3 & Hto3 & Hs3 & Hrest); [|done].
  assert (steps σ1 σ3) as H13 by (do 2 (etransitivity; [eassumption|]); done).
  pose proof (get_bucket_spec (in_archive i2) (tiers σ3).2 b key (inv_archive _ (steps_inv _ _ Hσ1 H13)) Hb) as Hget.
  cbn [step_event fst snd] in *.
  destruct (archive_exec _ _ _) as [[objs|err] t2]; cbn [fst snd] in *; [|by destruct Hrest].
  destruct Hrest as [[= <-] Hrest]. destruct Hget as (_ & _ & Hobj). specialize (Hobj objs eq_refl).
  rewrite (steps_objects σ1 σ3 b key lm) in Hobj by done. simplify_eq.
  exists objs, objs. split_and!; [done| |done|done| |].
  - etransitivity; [exact H13|]. by etransitivity.
  - unfold page. by rewrite matching_filters.
  - intros _. unfold page. by rewrite matching_filters.
Qed.
Lemma precise_precise_for range after limit n : precise fidelity range after limit →
  precise_for fidelity range after limit n.
Proof. intros (? & ? & ?). split_and!; auto. Qed.

(** ** Theorems *)

(** C1. No acknowledged record is ever lost, and none is invented: in every reachable state, for
    every bucket, the records the bucket logically holds (hot or archived) include every
    acknowledged append with its multiplicity, are included in the acknowledged ones together
    with those whose outcome was reported as unknown, and all belong to the bucket; for any
    number of workers running the coordinators or other disciplined programs, any interleaving, crashes, expired
    leases and adapter failures. *)
Theorem no_acknowledged_record_is_lost σ0 σ b : initial σ0 → steps σ0 σ → canonical b →
  ∃ l, logical (tiers σ) b = Some l ∧ acked σ b ⊆+ l ∧ l ⊆+ acked σ b ++ unsure σ b ∧
    Forall (in_bucket b) l.
Proof.
  intros Hinit Hsteps Hb. pose proof (steps_inv _ _ (initial_inv _ Hinit) Hsteps) as Hσ.
  destruct (inv_content _ Hσ b Hb) as (l & ? & ? & ? & ?). eauto.
Qed.

(** C2. The system refines an append-only table. In every reachable state, a step that is not an
    append by a client, whatever a worker, a reader or a renewal task does in it, leaves the content
    of every bucket the same multiset and acknowledges nothing. An append of a record [r] to
    a bucket changes the content of that bucket only: answered [Ok], exactly [r] (as the
    adapter stores it) is added and acknowledged; answered with an error that rules out a commit,
    the content stays the same; answered with an ambiguous error, [r] was added once or not at
    all, and is noted as unsure. *)
Theorem system_refines_append_only_table σ0 σ b l : initial σ0 → steps σ0 σ →
  canonical b → logical (tiers σ) b = Some l →
  (∀ σ', internal_step σ σ' →
     acked σ' b = acked σ b ∧ unsure σ' b = unsure σ b ∧
     ∃ l', logical (tiers σ') b = Some l' ∧ l' ≡ₚ l) ∧
  (∀ b' r i, canonical b' → in_bucket b' (stored r) →
     let σ' := after_append σ b' r i in
     ∃ l', logical (tiers σ') b = Some l' ∧
       if decide (b = b')
       then appended_to (stored r) (append_result σ b' r i) l l' (acked σ b) (acked σ' b) (unsure σ b) (unsure σ' b)
       else l' ≡ₚ l ∧ acked σ' b = acked σ b ∧ unsure σ' b = unsure σ b).
Proof.
  intros Hinit Hsteps Hb Hl. pose proof (steps_inv _ _ (initial_inv _ Hinit) Hsteps) as Hσ.
  split; [intros σ' Hstep; by apply internal_logical|]. intros b' r i Hb' Hin. cbv zeta.
  destruct (decide (b = b')) as [->|Hne]; [by apply append_logical; [..|apply Hin|]|].
  destruct (append_frame σ b' b r i Hσ Hb' (proj1 Hin) Hb Hne l Hl) as (l' & Hl' & Hp).
  exists l'. split; [done|]. split_and!; [done|by apply record_if_ne..].
Qed.

(** C4. A routed read is linearizable: interleaved with anything the system does, cutovers and
    cleanups of the same bucket included, a successful [read_bucket] returns a page of the
    bucket's content at one instant between its start and its end, and that content
    includes every record acknowledged before it started. Which page depends on the tier that
    served it at that instant. If the bucket was archived, it is the page of the bounds, cursor and
    limit asked for. If it was not, it is the page of what the adapter keeps of them: CockroachDB
    rounds bounds and cursor to whole microseconds and clamps the limit to an [i64], the
    in-memory store keeps everything. Hence, under the hypothesis [precise] that the adapter keeps
    these arguments as they are (true of the in-memory store always, of CockroachDB for
    whole microseconds and limits of an [i64]), the page is the one asked for. *)
Theorem routed_read_is_linearizable σ0 σ σ' b range after limit rs :
  initial σ0 → steps σ0 σ → canonical b →
  interleaved (read_bucket b range after limit) σ (Ok rs) σ' →
  ∃ σm l, steps σ σm ∧ steps σm σ' ∧ (∃ lm, logical (tiers σm) b = Some lm ∧ l ≡ₚ lm) ∧
    acked σ b ⊆+ l ∧
    rs = served_page (a_state (view (tiers σm).1 b)) range after limit l ∧
    (precise fidelity range after limit → rs = page range after limit l).
Proof.
  intros Hinit Hsteps Hb Hrun. pose proof (steps_inv _ _ (initial_inv _ Hinit) Hsteps) as Hσ.
  destruct (read_linearizes _ _ _ _ _ _ _ Hσ Hb Hrun) as (σm & l & lm & Hto & Hfrom & Hlm & Hl & Hserved & Hrs).
  exists σm, l. split_and!; [done|done|eauto| |done|intros; by apply Hrs, precise_precise_for].
  destruct (inv_content _ (steps_inv _ _ Hσ Hto) b Hb) as (lm' & Hlm' & _ & Ha & _). simplify_eq.
  by rewrite Hl, <- Ha, <- (steps_acked _ _ b Hto).
Qed.
End system.
