(* ===== verification/Renewer.v ===== *)
(** The lease renewer (src/application/durable_archive_recovery.rs, [ArchiveLeaseRenewer]): the task
    that [start] spawns, the two oneshot channels between it and its owner, [supervise], [shutdown]
    and [Drop], interleaved with everything else. In [Prog] a supervised operation ends by asking
    whether the renewer failed, and in [System] the renewals are calls that anybody may make; this
    file runs the coordinators with their real renewers and proves that this is all the renewers can
    do, that no channel is polled after it has delivered, and that a renewer that was told to stop
    does. *)
From S2P Require Import Prelude Chrono Model Storage Observability Prog Table Coordinator System.
Local Open Scope Z_scope.

(** ** The renewer *)
(** A [tokio::sync::oneshot] channel as its receiver sees it; polling it after it has delivered
    panics. *)
Inductive oneshot (A : Type) := Open | Sent (a : A) | SenderDropped | Delivered.
Arguments Open {A}.
Arguments Sent {A} a.
Arguments SenderDropped {A}.
Arguments Delivered {A}.
(** Whether awaiting it would return. *)
Definition ready {A} (c : oneshot A) : bool := match c with Sent _ | SenderDropped => true | _ => false end.

(** Where the task is in its loop: in [select!], with the sleep over or not; waiting for the store;
    answered by it; over. *)
Inductive task :=
  | Sleeping (elapsed : bool)
  | Renewing
  | Answered (r : Result DurableBucketStoreError unit)
  | Ended.

Record ArchiveLeaseRenewer := mkRenewer {
  stop : oneshot unit;
  failure : oneshot DurableBucketStoreError;
  task_state : task;
  session : ArchiveSession;
  lease_for : Z
}.
Definition with_task (t : task) (r : ArchiveLeaseRenewer) : ArchiveLeaseRenewer :=
  mkRenewer (stop r) (failure r) t (session r) (lease_for r).

Definition ArchiveLeaseRenewer_start (s : ArchiveSession) (lease_for : Z) : ArchiveLeaseRenewer :=
  mkRenewer Open Open (Sleeping false) s lease_for.

(** The task returns or panics, and drops the sender of the failure if it has not used it. *)
Definition end_task (r : ArchiveLeaseRenewer) : ArchiveLeaseRenewer :=
  mkRenewer (stop r) (match failure r with Open => SenderDropped | c => c end) Ended (session r) (lease_for r).
(** Entering [select!] with a fresh sleep, which is not over: a stop that is there is seen_error. *)
Definition enter_select (r : ArchiveLeaseRenewer) : ArchiveLeaseRenewer :=
  if ready (stop r) then end_task r else with_task (Sleeping false) r.

(** What happens to the task, besides the store's answer: time passes, [select!] chooses between
    the branches that are ready, the answer is handled, the store call panics. *)
Inductive task_event := Elapse | Select (prefer_stop : bool) | Resume | TaskPanics.
Definition task_step (ev : task_event) (r : ArchiveLeaseRenewer) : option ArchiveLeaseRenewer :=
  match ev, task_state r with
  | Elapse, Sleeping false => Some (with_task (Sleeping true) r)
  | Select prefer_stop, Sleeping elapsed =>
      if ready (stop r) && (prefer_stop || negb elapsed) then Some (end_task r)
      else if elapsed then Some (with_task Renewing r) else None
  | Resume, Answered (Ok _) => Some (enter_select r)
  | Resume, Answered (Err error) =>
      Some (mkRenewer (stop r) (match failure r with Open => Sent error | c => c end) Ended (session r) (lease_for r))
  | TaskPanics, Renewing => Some (end_task r)
  | _, _ => None
  end.
(** The store answers the renewal. *)
Definition answer (res : Result DurableBucketStoreError unit) (r : ArchiveLeaseRenewer) : option ArchiveLeaseRenewer :=
  match task_state r with Renewing => Some (with_task (Answered res) r) | _ => None end.

(** One poll of [&mut self.failure] in [supervise], with its [unwrap_or]. *)
Definition poll_failure (r : ArchiveLeaseRenewer) : Outcome (option DurableBucketStoreError * ArchiveLeaseRenewer) :=
  let taken := mkRenewer (stop r) Delivered (task_state r) (session r) (lease_for r) in
  match failure r with
  | Open => Value (None, r)
  | Sent error => Value (Some error, taken)
  | SenderDropped => Value (Some OperationFailed, taken)
  | Delivered => Panicked
  end.

(** [shutdown] sends on the stop channel, [drop] drops its sender. *)
Definition set_stop (c : oneshot unit) (r : ArchiveLeaseRenewer) : ArchiveLeaseRenewer :=
  match stop r with
  | Open => mkRenewer c (failure r) (task_state r) (session r) (lease_for r)
  | _ => r
  end.
Definition request_stop : ArchiveLeaseRenewer → ArchiveLeaseRenewer := set_stop (Sent tt).
Definition drop_renewer : ArchiveLeaseRenewer → ArchiveLeaseRenewer := set_stop SenderDropped.

(** ** Processes *)
(** A coordinator and its renewer. [seen_error] is the error that the running [supervise] has already
    taken from the channel while its operation goes on; [owner] is gone once the coordinator's
    future was dropped or has panicked. *)
Record process := mkProcess {
  owner : option (prog unit);
  seen_error : option DurableBucketStoreError;
  renewer : option ArchiveLeaseRenewer;
  panicked : bool
}.

(** Storage calls, and events that are over at once. *)
Definition port_event {X} (e : event X) : bool := match e with EStore _ | EArchive _ => true | _ => false end.
Definition own_event {X} (e : event X) : bool :=
  match e with EStartRenewer _ _ _ | EPollFailure | EShutdownRenewer => false | _ => true end.

Section processes.
Context `{Chrono} {E S F T : Type} `{DurableBucketStore E S} `{!StoreLaws E S}.
Context `{ArchiveStore F T} `{!ArchiveLaws F T}.

Record csys := mkC {
  c_tiers : S * T;
  c_procs : gmap nat process;
  c_acked : BucketId → list Record_;
  c_unsure : BucketId → list Record_
}.
Definition set_proc (id : nat) (π : process) (c : csys) : csys :=
  mkC (c_tiers c) (<[id := π]> (c_procs c)) (c_acked c) (c_unsure c).
Definition set_tiers (st : S * T) (c : csys) : csys := mkC st (c_procs c) (c_acked c) (c_unsure c).

(** Calls of readers. *)
Definition reader_event {X} (e : event X) : Prop :=
  client_event e ∧ match e with EStore (RenewArchiveLease _ _) => False | _ => True end.
Inductive coordinator : prog unit → Prop :=
  | runs_archive b : canonical b → coordinator (forget (archive_bucket b))
  | runs_recovery cfg : coordinator (forget (run_once cfg)).

(** What the owner does with its renewer. *)
Inductive owner_step : process → process → Prop :=
  (** [ArchiveLeaseRenewer::start] *)
  | own_start s lease interval k seen_error :
      owner_step (mkProcess (Some (Vis (EStartRenewer s lease interval) k)) seen_error None false)
        (mkProcess (Some (k tt)) None (Some (ArchiveLeaseRenewer_start s lease)) false)
  (** [supervise] polls the failure channel while the operation is not over. *)
  | own_watch {X} (e : event X) k r error r' :
      port_event e = true → poll_failure r = Value (error, r') →
      owner_step (mkProcess (Some (Vis e k)) None (Some r) false) (mkProcess (Some (Vis e k)) error (Some r') false)
  | own_watch_panics {X} (e : event X) k r :
      port_event e = true → poll_failure r = Panicked →
      owner_step (mkProcess (Some (Vis e k)) None (Some r) false) (mkProcess None None (Some (drop_renewer r)) true)
  (** The operation is over: [supervise] returns the error it has taken, or polls once more. *)
  | own_seen k error r :
      owner_step (mkProcess (Some (Vis EPollFailure k)) (Some error) r false) (mkProcess (Some (k (Some error))) None r false)
  | own_poll k r error r' :
      poll_failure r = Value (error, r') →
      owner_step (mkProcess (Some (Vis EPollFailure k)) None (Some r) false) (mkProcess (Some (k error)) None (Some r') false)
  | own_poll_panics k r :
      poll_failure r = Panicked →
      owner_step (mkProcess (Some (Vis EPollFailure k)) None (Some r) false) (mkProcess None None (Some (drop_renewer r)) true)
  (** [shutdown]: the stop is sent, and the task awaited. *)
  | own_stop k seen_error r :
      stop r = Open →
      owner_step (mkProcess (Some (Vis EShutdownRenewer k)) seen_error (Some r) false)
        (mkProcess (Some (Vis EShutdownRenewer k)) seen_error (Some (request_stop r)) false)
  | own_join k seen_error r :
      ready (stop r) = true → task_state r = Ended →
      owner_step (mkProcess (Some (Vis EShutdownRenewer k)) seen_error (Some r) false) (mkProcess (Some (k tt)) None None false).

Inductive cstep : csys → csys → Prop :=
  | c_append c b r (i : input (E := E) (F := F)) :
      canonical b → in_bucket b (stored r) →
      let res := (step_event (EStore (Append b r)) i (c_tiers c)).1 in
      cstep c (mkC (step_event (EStore (Append b r)) i (c_tiers c)).2 (c_procs c)
        (record_if (is_ok res) b (stored r) (c_acked c)) (record_if (is_unsure res) b (stored r) (c_unsure c)))
  | c_read c {X} (e : event X) (i : input (E := E) (F := F)) :
      reader_event e → cstep c (set_tiers (step_event e i (c_tiers c)).2 c)
  | c_spawn c id p : c_procs c !! id = None → coordinator p →
      cstep c (set_proc id (mkProcess (Some p) None None false) c)
  | c_work c id {X} (e : event X) k seen_error r (i : input (E := E) (F := F)) :
      c_procs c !! id = Some (mkProcess (Some (Vis e k)) seen_error r false) → own_event e = true →
      cstep c (set_proc id (mkProcess (Some (k (step_event e i (c_tiers c)).1)) seen_error r false)
        (set_tiers (step_event e i (c_tiers c)).2 c))
  | c_own c id π π' : c_procs c !! id = Some π → owner_step π π' → cstep c (set_proc id π' c)
  | c_task c id p seen_error r r' b ev :
      c_procs c !! id = Some (mkProcess p seen_error (Some r) b) → task_step ev r = Some r' →
      cstep c (set_proc id (mkProcess p seen_error (Some r') b) c)
  (** The renewal itself, a storage call of the task. *)
  | c_renew c id p seen_error r r' b (i : input (E := E) (F := F)) :
      let call := EStore (RenewArchiveLease (session r) (lease_for r)) in
      c_procs c !! id = Some (mkProcess p seen_error (Some r) b) → answer (step_event call i (c_tiers c)).1 r = Some r' →
      cstep c (set_proc id (mkProcess p seen_error (Some r') b) (set_tiers (step_event call i (c_tiers c)).2 c))
  (** The coordinator's future is dropped; the whole process dies. *)
  | c_cancel c id p seen_error r b :
      c_procs c !! id = Some (mkProcess p seen_error r b) →
      cstep c (set_proc id (mkProcess None None (drop_renewer <$> r) b) c)
  | c_kill c id : cstep c (mkC (c_tiers c) (delete id (c_procs c)) (c_acked c) (c_unsure c)).
Definition csteps : csys → csys → Prop := rtc cstep.

(** A system without processes. *)
Definition without_processes (c : csys) : sys := mkSys (c_tiers c) ∅ (c_acked c) (c_unsure c).
Definition c_initial (c : csys) : Prop := initial (without_processes c) ∧ c_procs c = ∅.

(** ** Simulation: the same tiers and records, and the owners as workers *)
Definition simulates (c : csys) (σ : sys) : Prop :=
  tiers σ = c_tiers c ∧ acked σ = c_acked c ∧ unsure σ = c_unsure c ∧
  ∀ id, w_prog <$> workers σ !! id = c_procs c !! id ≫= owner.
End processes.

(** ** The protocol between a coordinator and its renewer *)
(** There is none; it runs and the channel has delivered nothing; an operation is over and
    [supervise] is about to return; [supervise] has returned the renewer's failure. *)
Inductive watch := NoRenewer | Active | Polling | Failed.
(** The state after an event, which must be allowed in the one before. *)
Definition follow {X} (w : watch) (e : event X) : option (X → watch) :=
  match w, e in event X return option (X → watch) with
  | NoRenewer, (EStore _ | EArchive _ | ETelemetry _ | EElapsed) => Some (λ _, NoRenewer)
  | NoRenewer, EStartRenewer _ _ _ => Some (λ _, Active)
  | Active, (EStore _ | EArchive _) => Some (λ _, Polling)
  | Active, (ETelemetry _ | EElapsed) => Some (λ _, Active)
  | Failed, (ETelemetry _ | EElapsed) => Some (λ _, Failed)
  | Polling, EPollFailure => Some (λ x, match x with Some _ => Failed | None => Active end)
  | (Active | Failed), EShutdownRenewer => Some (λ _, NoRenewer)
  | _, _ => None
  end.
Fixpoint protocol {A} (Q : watch → A → Prop) (w : watch) (p : prog A) : Prop :=
  match p with
  | Ret a => Q w a
  | Vis e k => match follow w e with Some f => ∀ x, protocol Q (f x) (k x) | None => False end
  end.
Arguments protocol : simpl never.

Section protocol_lemmas.
Lemma protocol_vis {A X} (Q : watch → A → Prop) w (e : event X) k :
  protocol Q w (Vis e k) = match follow w e with Some f => ∀ x, protocol Q (f x) (k x) | None => False end.
Proof. done. Qed.
Lemma protocol_mono {A} (Q Q' : watch → A → Prop) w (p : prog A) :
  (∀ w a, Q w a → Q' w a) → protocol Q w p → protocol Q' w p.
Proof.
  intros HQ. revert w. induction p as [a|X e k IH]; intros w; [apply HQ|].
  rewrite !protocol_vis. destruct (follow w e); [|done]. intros Hp x. apply IH, Hp.
Qed.
Lemma protocol_bind {A B} (Q : watch → B → Prop) w (p : prog A) (f : A → prog B) :
  protocol (λ w a, protocol Q w (f a)) w p → protocol Q w (p ≫= f).
Proof.
  revert w. induction p as [a|X e k IH]; intros w; [done|].
  rewrite prog_bind_vis, !protocol_vis. destruct (follow w e); [|done]. intros Hp x. apply IH, Hp.
Qed.
Lemma protocol_telemetry {A} Q w h (p : prog A) : w ≠ Polling → protocol Q w p → protocol Q w (telemetry h ≫= λ _, p).
Proof. intros Hw Hp. destruct w; [| |by destruct Hw|]; intros x; exact Hp. Qed.
Lemma protocol_elapsed {A} Q w h (p : prog A) : w ≠ Polling → protocol Q w p → protocol Q w (telemetry_elapsed h ≫= λ _, p).
Proof. intros Hw Hp. destruct w; [| |by destruct Hw|]; intros x y; exact Hp. Qed.
Lemma follow_port {X} (e : event X) : port_event e = true → follow Active e = Some (λ _, Polling).
Proof. by destruct e. Qed.
(** A supervised call leaves the channel untouched or ends the supervision. *)
Lemma protocol_supervise {R E} (Q : watch → Result DurableBucketStoreError (Result E R) → Prop) (e : event (Result E R)) :
  port_event e = true → (∀ r, Q Active (Ok r)) → (∀ err, Q Failed (Err err)) → protocol Q Active (supervise (perform e)).
Proof.
  intros He Hok Herr. unfold supervise, perform. rewrite prog_bind_vis, protocol_vis, follow_port by done.
  intros x [err|]; [apply Herr|apply Hok].
Qed.
Lemma protocol_supervised {R E} Q (e : event (Result E R)) o k :
  port_event e = true → (∀ r, protocol Q Active (k r)) → (∀ err, Q Failed (Err (RecoveryDurableStore err), o)) →
  protocol Q Active (supervised (perform e) o k).
Proof. intros He Hk Herr. by apply protocol_bind, protocol_supervise. Qed.
Lemma protocol_try {A B E F} (Q : watch → Result F B → Prop) w (conv : E → F) (p : prog (Result E A)) k :
  protocol (λ w r, match r with Ok a => protocol Q w (k a) | Err e => Q w (Err (conv e)) end) w p →
  protocol Q w (try_ conv p k).
Proof. intros Hp. apply protocol_bind. eapply protocol_mono; [|exact Hp]. by intros ? [a|e]. Qed.

(** Supervised work ends with a renewer that may be shut down. *)
Definition closable {A} : watch → A → Prop := λ w _, w = Active ∨ w = Failed.
Definition unwatched {A} : watch → A → Prop := λ w _, w = NoRenewer.
End protocol_lemmas.
Create HintDb renewer.
#[export] Hint Extern 1 (closable _ _) => (by left) || (by right) : renewer.

Section coordinators.
Context (cfg : ArchiveRecoveryConfig).
Lemma defer_cutover_protocol s o err : protocol closable Active (defer_cutover cfg s o err).
Proof.
  apply protocol_supervised; [done| |auto with renewer]. intros [u|e]; [apply protocol_telemetry; [done|]|]; by left.
Qed.
Lemma finish_cleanup_protocol s o : protocol closable Active (finish_cleanup cfg s o).
Proof.
  apply protocol_supervised; [done| |auto with renewer]. intros [u|e]; [apply protocol_telemetry; [done|]; by left|].
  apply protocol_supervised; [done| |auto with renewer]. intros [u|e']; [apply protocol_telemetry; [done|]|]; by left.
Qed.
Lemma recover_claimed_cutover_protocol b s o : protocol closable Active (recover_claimed_cutover cfg b s o).
Proof.
  apply protocol_supervised; [done| |auto with renewer]. intros [rs|e]; [|apply defer_cutover_protocol].
  apply protocol_telemetry, protocol_supervised; [done..| |auto with renewer]. intros [key|e].
  2: { apply protocol_bind. eapply protocol_mono; [|apply defer_cutover_protocol]. by intros w [r o']. }
  apply protocol_telemetry, protocol_supervised; [done..| |auto with renewer]. intros [u|e].
  { apply protocol_telemetry, finish_cleanup_protocol. done. }
  apply protocol_supervised; [done| |auto with renewer]. intros [[| |k []]|e']; try by left.
  - apply defer_cutover_protocol.
  - apply finish_cleanup_protocol.
Qed.
Lemma with_claim_protocol claim o work : (∀ s o', protocol closable Active (work s o')) →
  protocol unwatched NoRenewer (with_claim cfg claim o work).
Proof.
  intros Hw [[s|]|e]; [|done..]. apply protocol_telemetry; [done|]. intros [].
  change (protocol unwatched Active (work s (count_claimed o) ≫= λ result, perform EShutdownRenewer ≫= λ _, Ret result)).
  apply protocol_bind.
  eapply protocol_mono; [|apply Hw]. by intros w r [-> | ->] [].
Qed.
Lemma recover_all_protocol work o : protocol unwatched NoRenewer (recover_all cfg work o).
Proof.
  revert o. induction work as [|w work IH]; intros o; [by apply protocol_elapsed|]. apply protocol_bind.
  apply protocol_mono with unwatched.
  - intros w' [[u|err] o'] ->; [apply IH|by apply protocol_elapsed].
  - destruct w; apply with_claim_protocol; intros; [apply recover_claimed_cutover_protocol|apply finish_cleanup_protocol].
Qed.
Lemma run_once_protocol : protocol unwatched NoRenewer (run_once cfg).
Proof.
  apply protocol_telemetry; [done|]. intros [work|err]; [|by apply protocol_elapsed].
  apply protocol_telemetry, recover_all_protocol. done.
Qed.
Lemma archive_bucket_protocol b : protocol unwatched NoRenewer (archive_bucket b).
Proof.
  assert (∀ E st s (err : E) conv, protocol closable Active
    (telemetry (archive_failed b st) ≫= λ _, try_ ArchiveDurableStore (supervise (store (AbortArchive s))) (λ aborted,
      Ret match aborted with Err e => Err (ArchiveDurableStore e) | Ok _ =>
        (Err (conv err) : Result DurableArchiveError ArchiveOutcome) end))) as Habort.
  { intros. apply protocol_telemetry, protocol_try, protocol_supervise; [done|done|intros; by left|intros; by right]. }
  apply protocol_telemetry; [done|]. intros [s|e]; [|done]. intros [].
  change (protocol unwatched Active (archive_claimed_bucket b s ≫= λ result, perform EShutdownRenewer ≫= λ _, Ret result)).
  apply protocol_bind.
  apply protocol_mono with closable; [by intros w r [-> | ->] []|].
  apply protocol_try, protocol_supervise; [done| |auto with renewer]. intros [rs|e]; [|apply Habort].
  apply protocol_try, protocol_supervise; [done| |auto with renewer]. intros [key|e]; [|apply Habort].
  apply protocol_try, protocol_supervise; [done| |auto with renewer]. intros [u|e]; [|by left].
  apply protocol_try, protocol_supervise; [done| |auto with renewer].
  intros [u'|e]; [apply protocol_elapsed|apply protocol_telemetry]; first [done|by left].
Qed.
End coordinators.

(** ** The processes keep the protocol *)
Section invariant.
Context `{Chrono}.

Definition port_head (p : prog unit) : Prop := match p with Vis e _ => port_event e = true | Ret _ => False end.
(** Whether [supervise] may still poll the channel. *)
Definition untaken (π : process) (r : ArchiveLeaseRenewer) : Prop := seen_error π = None ∧ failure r ≠ Delivered.
Definition linked (w : watch) (p : prog unit) (π : process) : Prop :=
  match w with
  | NoRenewer => seen_error π = None ∧ renewer π = None
  | Active => ∃ r, renewer π = Some r ∧ (untaken π r ∨ is_Some (seen_error π) ∧ port_head p)
  | Polling => ∃ r, renewer π = Some r ∧ (untaken π r ∨ is_Some (seen_error π))
  | Failed => seen_error π = None ∧ is_Some (renewer π)
  end.
Record proc_ok (π : process) : Prop := {
  ok_calm : panicked π = false;
  ok_session r : renewer π = Some r → canonical (session_bucket (session r));
  ok_owner p : owner π = Some p → ∃ w, protocol unwatched w p ∧ linked w p π
}.

Lemma coordinator_protocol p : coordinator p → protocol unwatched NoRenewer p.
Proof.
  intros [b Hb|cfg]; apply protocol_bind;
    (eapply protocol_mono; [|first [apply archive_bucket_protocol|apply run_once_protocol]]); by intros w a ->.
Qed.
Lemma poll_failure_spec r error r' : poll_failure r = Value (error, r') →
  session r' = session r ∧ failure r ≠ Delivered ∧
  (error = None ∧ r' = r ∨ is_Some error ∧ failure r' = Delivered).
Proof. unfold poll_failure. destruct (failure r) eqn:Ef; intros [= <- <-]; rewrite ?Ef; eauto 8. Qed.
Lemma poll_failure_calm r : failure r ≠ Delivered → poll_failure r ≠ Panicked.
Proof. unfold poll_failure. by destruct (failure r). Qed.
Lemma task_step_keeps ev r r' : task_step ev r = Some r' →
  session r' = session r ∧ stop r' = stop r ∧ (failure r' = Delivered ↔ failure r = Delivered).
Proof.
  unfold task_step, enter_select, end_task, with_task.
  destruct ev, (task_state r) as [[]| |[]|]; simpl; try done; repeat case_match; intros; simplify_eq/=; split_and!; try done.
  all: by destruct (failure r).
Qed.
Lemma set_stop_keeps c r : session (set_stop c r) = session r ∧ failure (set_stop c r) = failure r.
Proof. unfold set_stop. by destruct (stop r). Qed.

(** The same owner with a renewer whose channel is as it was. *)
Lemma proc_ok_renewer p e r r' b : proc_ok (mkProcess p e (Some r) b) →
  session r' = session r → (failure r' = Delivered ↔ failure r = Delivered) → proc_ok (mkProcess p e (Some r') b).
Proof.
  intros [Hc Hs Ho] Es Ef. split; [done| |]; simpl in *.
  - intros r0 [= <-]. rewrite Es. by apply Hs.
  - intros p' Hp. destruct (Ho p' Hp) as (w & Hw & Hl). exists w. split; [done|].
    destruct w; simpl in *; [by destruct Hl| | |by destruct Hl];
      (destruct Hl as (r0 & [= <-] & Hl); exists r'; split; [done|]; unfold untaken in *; simpl in *; tauto).
Qed.
Lemma work_proc_ok {X} (e : event X) k err r x : own_event e = true →
  proc_ok (mkProcess (Some (Vis e k)) err r false) → proc_ok (mkProcess (Some (k x)) err r false).
Proof.
  intros He [_ Hs Ho]. split; [done|done|]. intros p [= <-]. destruct (Ho _ eq_refl) as (w & Hw & Hl). simpl in *.
  rewrite protocol_vis in Hw. unfold follow in Hw.
  destruct w, e; simpl in *; try done; (eexists; split; [apply Hw|]; simpl; try done);
    destruct Hl as (r0 & ? & [?|[? ?]]); try done; exists r0; eauto.
Qed.
Lemma owner_proc_ok π π' : (∀ s l i k, owner π = Some (Vis (EStartRenewer s l i) k) → canonical (session_bucket s)) →
  owner_step π π' → proc_ok π → proc_ok π'.
Proof.
  intros Hcan Hstep [Hc Hs Ho]. destruct Hstep as [s lease interval k err|X e k r err r' He Hp|X e k r He Hp|k err r
    |k r err r' Hp|k r Hp|k err r Hst|k err r Hst Ht]; destruct (Ho _ eq_refl) as (w & Hw & Hl);
    rewrite protocol_vis in Hw; simpl in *.
  - split; [done| |].
    + intros r [= <-]. by eapply Hcan.
    + intros p [= <-]. destruct w; try done. exists Active. split; [apply Hw|]. eexists. split; [done|]. by left.
  - destruct (poll_failure_spec r err r' Hp) as (Es & Ef & Hcase). split; [done| |].
    + intros r0 [= <-]. rewrite Es. by apply Hs.
    + intros p [= <-]. exists w. rewrite protocol_vis. split; [done|]. destruct w; simpl in *.
      * by destruct Hl.
      * exists r'. split; [done|]. destruct Hcase as [[-> ->]|[Hsome Hd]]; [by left|by right].
      * by destruct e.
      * by destruct e.
  - exfalso. destruct w; [by destruct Hl| |by destruct e..]. destruct Hl as (r0 & [= <-] & [[_ Hd]|[[? ?] _]]); [|done].
    by eapply poll_failure_calm.
  - split; [done|done|]. intros p [= <-]. destruct w; try done. exists Failed. split; [exact (Hw (Some err))|].
    destruct Hl as (r0 & Hr & _). simpl in Hr. subst r. by split.
  - destruct (poll_failure_spec r err r' Hp) as (Es & Ef & Hcase). split; [done| |].
    + intros r0 [= <-]. rewrite Es. by apply Hs.
    + intros p [= <-]. destruct w; try done. specialize (Hw err). eexists. split; [exact Hw|].
      destruct Hcase as [[-> ->]|[[err' ->] Hd]]; simpl; [|by split]. exists r. split; [done|]. by left.
  - exfalso. destruct w; try done. destruct Hl as (r0 & [= <-] & [[_ Hd]|[? ?]]); [|done]. by eapply poll_failure_calm.
  - destruct (set_stop_keeps (Sent tt) r) as [Es Ef].
    apply proc_ok_renewer with r; [split; [done|done|]|done|unfold request_stop; by rewrite Ef].
    intros p [= <-]. exists w. by rewrite protocol_vis.
  - split; [done..|]. intros p [= <-]. exists NoRenewer. split; [|done]. destruct w; try done; exact (Hw tt).
Qed.
Lemma cancel_proc_ok p err r b : proc_ok (mkProcess p err r b) → proc_ok (mkProcess None None (drop_renewer <$> r) b).
Proof.
  intros [Hc Hs _]. split; [done| |done]. intros r' Hr. simpl in *. destruct r as [r|]; simplify_eq/=.
  unfold drop_renewer. rewrite (proj1 (set_stop_keeps _ _)). by apply Hs.
Qed.
End invariant.

(** ** The simulation *)
Section simulation.
Context `{Chrono} {E S F T : Type} `{DurableBucketStore E S} `{!StoreLaws E S}.
Context `{ArchiveStore F T} `{!ArchiveLaws F T} `{!Inhabited E, !Inhabited F}.
Implicit Types (c : csys (S := S) (T := T)) (σ : sys (S := S) (T := T)).

(** What answers a poll of the channel with [error]. *)
Definition failure_input (error : option DurableBucketStoreError) : input (E := E) (F := F) :=
  mkInput inhabitant inhabitant error 0.

Lemma simulates_owner c σ id π : simulates c σ → c_procs c !! id = Some π →
  w_prog <$> workers σ !! id = owner π.
Proof. intros (_ & _ & _ & Hw) Hid. by rewrite Hw, Hid. Qed.
(** A renewer is started for a session the worker holds. *)
Lemma session_started c σ id π : sys_inv σ → simulates c σ → c_procs c !! id = Some π →
  ∀ s l i k, owner π = Some (Vis (EStartRenewer s l i) k) → canonical (session_bucket s).
Proof.
  intros Hσ Hs Hid s l i k Ho. pose proof (simulates_owner _ _ _ _ Hs Hid) as Hw. rewrite Ho in Hw.
  destruct (workers σ !! id) as [[ph p]|] eqn:Hwk; [|done]. simpl in Hw. injection Hw as ->.
  destruct (inv_worker _ Hσ _ _ Hwk) as [Hph [Hal _]]. simpl in *.
  destruct ph; simplify_eq/=; first [by destruct Hph as [[? ?] ?]|by destruct Hph].
Qed.
(** The owner is where it was. *)
Lemma simulates_same c σ id π π' : simulates c σ → c_procs c !! id = Some π → owner π' = owner π →
  simulates (set_proc id π' c) σ.
Proof.
  intros (Ht & Ha & Hu & Hw) Hid Ho. split_and!; [done..|]. intros id'. rewrite Hw. simpl.
  destruct (decide (id' = id)) as [->|Hne]; [by rewrite Hid, lookup_insert_eq; simpl|by rewrite lookup_insert_ne].
Qed.
(** The owner has moved, and so has its worker. *)
Lemma simulates_moved c σ id π p ph st : simulates c σ → owner π = Some p →
  simulates (set_proc id π (set_tiers st c)) (mkSys st (<[id := mkWorker ph p]> (workers σ)) (acked σ) (unsure σ)).
Proof.
  intros (Ht & Ha & Hu & Hw) Ho. split_and!; [done..|]. intros id'. simpl.
  destruct (decide (id' = id)) as [->|Hne]; [by rewrite !lookup_insert_eq; simpl|by rewrite !lookup_insert_ne].
Qed.
(** The owner is gone. *)
Lemma simulates_gone c σ id (ps : gmap nat process) : simulates c σ → (∀ id', id' ≠ id → ps !! id' = c_procs c !! id') →
  ps !! id ≫= owner = None →
  simulates (mkC (c_tiers c) ps (c_acked c) (c_unsure c)) (mkSys (tiers σ) (delete id (workers σ)) (acked σ) (unsure σ)).
Proof.
  intros (Ht & Ha & Hu & Hw) Hps Hid. split_and!; [done..|]. intros id'. simpl.
  destruct (decide (id' = id)) as [->|Hne]; [by rewrite lookup_delete_eq|by rewrite lookup_delete_ne, Hw, Hps].
Qed.

(** An event of the owner is an event of its worker. *)
Lemma simulates_work c σ id π {X} (e : event X) k (i : input (E := E) (F := F)) π' : simulates c σ →
  c_procs c !! id = Some π → owner π = Some (Vis e k) → owner π' = Some (k (step_event e i (c_tiers c)).1) →
  ∃ σ', step (E := E) (F := F) σ σ' ∧ simulates (set_proc id π' (set_tiers (step_event e i (c_tiers c)).2 c)) σ'.
Proof.
  intros Hs Hid Ho Ho'. pose proof (simulates_owner _ _ _ _ Hs Hid) as Hw. rewrite Ho in Hw.
  destruct (workers σ !! id) as [[ph p]|] eqn:Hwk; [|done]. simpl in Hw. injection Hw as ->.
  pose proof (step_internal _ _ (step_work σ id ph e k i Hwk)) as Hstep. simpl in Hstep.
  destruct Hs as (Ht & Hs). rewrite Ht in Hstep. eexists. split; [exact Hstep|].
  apply simulates_moved; [by split|done].
Qed.
Lemma owner_simulated c σ id π π' : sys_inv σ → simulates c σ → c_procs c !! id = Some π → proc_ok π → owner_step π π' →
  ∃ σ', steps (E := E) (F := F) σ σ' ∧ simulates (set_proc id π' c) σ'.
Proof.
  intros Hσ Hs Hid Hok Hstep.
  assert (∀ X (e : event X) k error, owner π = Some (Vis e k) →
    (step_event e (failure_input error) (c_tiers c)).2 = c_tiers c →
    owner π' = Some (k (step_event e (failure_input error) (c_tiers c)).1) →
    ∃ σ', steps (E := E) (F := F) σ σ' ∧ simulates (set_proc id π' c) σ') as Hmove.
  { intros X e k error Ho Ht Ho'.
    destruct (simulates_work c σ id π e k (failure_input error) π' Hs Hid Ho Ho') as (σ' & Hσ' & Hs').
    exists σ'. split; [by apply rtc_once|]. rewrite Ht in Hs'. by destruct c. }
  assert (proc_ok π') as [Hcalm _ _].
  { eapply owner_proc_ok; [|done|done]. by eapply session_started. }
  destruct Hstep as [s lease interval k err|X e k r err r' He Hp|X e k r He Hp|k err r
    |k r err r' Hp|k r Hp|k err r Hst|k err r Hst Ht]; try done.
  - by apply (Hmove _ (EStartRenewer s lease interval) k None).
  - exists σ. split; [done|]. by eapply simulates_same.
  - by apply (Hmove _ EPollFailure k (Some err)).
  - by apply (Hmove _ EPollFailure k err).
  - exists σ. split; [done|]. by eapply simulates_same.
  - by apply (Hmove _ EShutdownRenewer k None).
Qed.

Definition procs_ok c : Prop := map_Forall (λ _, proc_ok) (c_procs c).
Lemma cstep_procs_ok c c' σ : sys_inv σ → simulates c σ → procs_ok c → cstep (E := E) (F := F) c c' → procs_ok c'.
Proof.
  intros Hσ Hs Hok Hstep. destruct Hstep as [c b r i Hb Hin res|c X e i He|c id p Hid Hp|c id X e k err r i Hid He
    |c id π π' Hid Hstep|c id p err r r' b ev Hid Ht|c id p err r r' b i call Hid Ht|c id p err r b Hid|c id]; try done.
  - apply map_Forall_insert_2; [|done]. split; [done|done|]. intros p' [= <-]. exists NoRenewer.
    split; [by apply coordinator_protocol|done].
  - apply map_Forall_insert_2; [|done]. eapply work_proc_ok; [done|]. by apply (Hok _ _ Hid).
  - apply map_Forall_insert_2; [|done]. eapply owner_proc_ok; [|done|by apply (Hok _ _ Hid)]. by eapply session_started.
  - apply map_Forall_insert_2; [|done]. destruct (task_step_keeps _ _ _ Ht) as (Es & _ & Ef).
    apply proc_ok_renewer with r; [by apply (Hok _ _ Hid)|done|done].
  - apply map_Forall_insert_2; [|done]. unfold answer in Ht. destruct (task_state r); simplify_eq.
    apply proc_ok_renewer with r; [by apply (Hok _ _ Hid)|done|done].
  - apply map_Forall_insert_2; [|done]. eapply cancel_proc_ok. by apply (Hok _ _ Hid).
  - by apply map_Forall_delete.
Qed.

Lemma cstep_simulated c c' σ : sys_inv σ → simulates c σ → procs_ok c → cstep (E := E) (F := F) c c' →
  ∃ σ', steps (E := E) (F := F) σ σ' ∧ simulates c' σ'.
Proof.
  intros Hσ Hs Hok Hstep. destruct Hstep as [c b r i Hb Hin res|c X e i He|c id p Hid Hp|c id X e k err r i Hid He
    |c id π π' Hid Hstep|c id p err r r' b ev Hid Ht|c id p err r r' b i call Hid Ht|c id p err r b Hid|c id].
  - pose proof (step_append σ b r i Hb Hin) as Hstep. unfold after_append, append_result in Hstep. simpl in Hstep. destruct Hs as (Ht & Ha & Hu & Hw).
    rewrite Ht, Ha, Hu in Hstep. eexists. split; [by apply rtc_once, Hstep|]. by split_and!.
  - pose proof (step_internal _ _ (step_client σ e i (proj1 He))) as Hstep. destruct Hs as (Ht & Ha & Hu & Hw). rewrite Ht in Hstep.
    eexists. split; [by apply rtc_once, Hstep|]. by split_and!.
  - pose proof Hs as (Ht & Ha & Hu & Hw). specialize (Hw id). rewrite Hid in Hw.
    destruct (workers σ !! id) eqn:Hwk; [done|]. destruct Hp as [b Hb|cfg]; (eexists; split;
      [apply rtc_once, step_internal; eapply step_spawn; [exact Hwk|by constructor]|]); rewrite Ht;
      by apply (simulates_moved c σ id _ _ Idle (c_tiers c)).
  - destruct (simulates_work c σ id _ e k i (mkProcess (Some (k (step_event e i (c_tiers c)).1)) err r false) Hs Hid
      eq_refl eq_refl) as (σ' & Hσ' & Hs'). exists σ'. split; [by apply rtc_once|done].
  - by eapply owner_simulated; [..|apply (Hok _ _ Hid)|].
  - exists σ. split; [done|]. by eapply simulates_same.
  - pose proof (ok_session _ (Hok _ _ Hid) r eq_refl) as Hcan.
    assert (client_event call) as Hcall by (split; [by split_and?|done]).
    pose proof (step_internal _ _ (step_client σ call i Hcall)) as Hstep. destruct Hs as (Hti & Ha & Hu & Hw). rewrite Hti in Hstep.
    eexists. split; [by apply rtc_once, Hstep|]. eapply (simulates_same (set_tiers _ c)); [|exact Hid|done]. by split_and!.
  - exists (mkSys (tiers σ) (delete id (workers σ)) (acked σ) (unsure σ)). split; [by apply rtc_once, step_internal, step_crash|].
    eapply simulates_gone; [done| |by rewrite lookup_insert_eq]. intros id' Hne. by rewrite lookup_insert_ne.
  - exists (mkSys (tiers σ) (delete id (workers σ)) (acked σ) (unsure σ)). split; [by apply rtc_once, step_internal, step_crash|].
    eapply simulates_gone; [done| |by rewrite lookup_delete_eq]. intros id' Hne. by rewrite lookup_delete_ne.
Qed.
Lemma csteps_simulated c0 c : c_initial c0 → csteps (E := E) (F := F) c0 c →
  ∃ σ, steps (E := E) (F := F) (without_processes c0) σ ∧ simulates c σ ∧ procs_ok c.
Proof.
  intros [Hinit Hempty]. pose proof (initial_inv _ Hinit) as Hinv.
  revert c. refine (rtc_ind_r _ _ _ _); [|intros c c' _ Hstep IH].
  - exists (without_processes c0). split_and!; [done| |unfold procs_ok; rewrite Hempty; apply map_Forall_empty].
    split_and!; [done..|]. intros id. by rewrite Hempty, !lookup_empty.
  - destruct IH as (σ & Hσ & Hs & Hok). pose proof (steps_inv _ _ Hinv Hσ) as Hσi.
    destruct (cstep_simulated c c' σ Hσi Hs Hok Hstep) as (σ' & Hσ' & Hs'). exists σ'.
    split_and!; [by etransitivity|done|by eapply cstep_procs_ok].
Qed.
End simulation.

(** ** A renewer alone *)
(** What can happen to it: its task moves, or the store answers. *)
Definition renewer_step (ev : task_event + Result DurableBucketStoreError unit) (r : ArchiveLeaseRenewer) :
    option ArchiveLeaseRenewer :=
  match ev with inl ev => task_step ev r | inr res => answer res r end.
Fixpoint renewer_run (evs : list (task_event + Result DurableBucketStoreError unit)) (r : ArchiveLeaseRenewer) :
    option ArchiveLeaseRenewer :=
  match evs with [] => Some r | ev :: evs => renewer_step ev r ≫= renewer_run evs end.
Fixpoint answers_in (evs : list (task_event + Result DurableBucketStoreError unit)) : nat :=
  match evs with [] => 0 | inr _ :: evs => Datatypes.S (answers_in evs) | inl _ :: evs => answers_in evs end.
(** Steps and store calls that a stopped renewer has left. *)
Definition steps_left (t : task) : nat :=
  match t with Sleeping false => 4 | Sleeping true => 3 | Renewing => 2 | Answered _ => 1 | Ended => 0 end.
Definition calls_left (t : task) : nat := match t with Sleeping _ | Renewing => 1 | _ => 0 end.

Lemma stopped_step ev r r' : ready (stop r) = true → renewer_step ev r = Some r' →
  ready (stop r') = true ∧ (steps_left (task_state r') < steps_left (task_state r))%nat ∧
  (calls_left (task_state r') + (if ev is inr _ then 1 else 0) ≤ calls_left (task_state r))%nat.
Proof.
  intros Hst. unfold renewer_step, task_step, answer, enter_select, end_task, with_task.
  destruct ev as [[|p| |]|res], (task_state r) as [[]| |[]|] eqn:Et; try done; rewrite ?Hst; simpl;
    repeat case_match; intros; simplify_eq/=; split_and!; try done; lia.
Qed.

(** ** Theorems *)
(** A renewer that was told to stop, by [shutdown] or because its owner was dropped, ends: whatever
    happens, at most four more steps of its task do, among them at most one renewal; until it has
    ended, it can go on without waiting for its sleep; and then nothing more happens. *)
Theorem stopped_renewer_ends r : ready (stop r) = true →
  (∀ evs r', renewer_run evs r = Some r' → (length evs ≤ 4)%nat ∧ (answers_in evs ≤ 1)%nat) ∧
  (task_state r ≠ Ended ↔ ∃ ev, ev ≠ inl Elapse ∧ is_Some (renewer_step ev r)).
Proof.
  intros Hst. split.
  - intros evs r' Hrun. assert (length evs ≤ steps_left (task_state r) ∧ answers_in evs ≤ calls_left (task_state r))%nat.
    { revert r Hst Hrun. induction evs as [|ev evs IH]; intros r Hst; simpl; [lia|].
      destruct (renewer_step ev r) as [r1|] eqn:E; [|done]. simpl. intros Hrun.
      destruct (stopped_step ev r r1 Hst E) as (Hst1 & Hs & Hc). destruct (IH r1 Hst1 Hrun) as [IHs IHc].
      destruct ev; simpl in *; lia. }
    destruct (task_state r) as [[]| |[]|]; simpl in *; lia.
  - unfold renewer_step, task_step, answer. split.
    + destruct (task_state r) as [el| |[]|] eqn:Et; intros Hne; [exists (inl (Select true))|exists (inr (Ok tt))
        |exists (inl Resume)..|done]; rewrite ?Et, ?Hst; by eauto.
    + intros (ev & Hev & Hs) Et. rewrite Et in Hs. destruct ev as [[]|]; by destruct Hs.
Qed.

Section theorems.
Context `{Chrono} {E S F T : Type} `{DurableBucketStore E S} `{!StoreLaws E S}.
Context `{ArchiveStore F T} `{!ArchiveLaws F T} `{!Inhabited E, !Inhabited F}.

(** C3. The coordinators with their real lease renewers do nothing but what the system allows: in
    every interleaving of appends, reads, coordinators, renewal tasks, dropped futures and killed
    processes, the tiers and the acknowledged records are those of a run of [System] whose workers
    are the coordinators; no [supervise] ever polls the failure channel after it has delivered, so
    none panics; and so no acknowledged record is lost. *)
Theorem renewers_refine_the_system (c0 c : csys (S := S) (T := T)) : c_initial c0 → csteps (E := E) (F := F) c0 c →
  (∃ σ, steps (E := E) (F := F) (without_processes c0) σ ∧ simulates c σ) ∧
  (∀ id π, c_procs c !! id = Some π → panicked π = false) ∧
  (∀ b, canonical b → ∃ l, logical (c_tiers c) b = Some l ∧ c_acked c b ⊆+ l ∧ l ⊆+ c_acked c b ++ c_unsure c b).
Proof.
  intros Hinit Hsteps. destruct (csteps_simulated c0 c Hinit Hsteps) as (σ & Hσ & Hs & Hok). split_and!.
  - by exists σ.
  - intros id π Hid. by apply (Hok _ _ Hid).
  - intros b Hb. pose proof (steps_inv _ _ (initial_inv _ (proj1 Hinit)) Hσ) as Hinv.
    destruct (inv_content _ Hinv b Hb) as (l & Hl & _ & Ha & Hu). destruct Hs as (<- & <- & <- & _). by exists l.
Qed.
End theorems.
