(* ===== verification/Leases.v ===== *)
(** Leases as time passes: the renewal task of [Renewer] (src/application/durable_archive_recovery.rs)
    over a store, with a clock. The task wakes when its interval is over and the store answers within
    a latency; between its steps time passes and anybody may call the store. What the argument needs
    of a store is the class [LeaseLaws]; the file proves that a renewer that is served in time keeps
    its lease, and [LeaseStores] that the in-memory store and the CockroachDB store have the laws. *)
From S2P Require Import Prelude Chrono Model Storage Observability Prog Table Coordinator System Renewer.
Local Open Scope Z_scope.

(** ** What a store promises about leases *)
(** The calls with which the holder gives the bucket back or is done with it, and the renewal, which
    is the task's. *)
Definition gives_up {X} (s : ArchiveSession) (c : store_call X) : Prop :=
  match c with
  | DeferArchive s' _ | DeferCleanup s' _ | AbortArchive s' | DeleteHotBucket s' | RenewArchiveLease s' _ => s' = s
  | _ => False
  end.
(** The lease of a granted claim. *)
Definition call_lease {X} (c : store_call X) : option Z :=
  match c with
  | ClaimArchive _ lease_for | ClaimCleanup _ lease_for => Some lease_for
  | BeginArchive _ => Some (300 * 1000000000)
  | _ => None
  end.

(** [lease_held s x st]: the session owns its bucket, with a lease that ends at [x]. [call_within from
    to env]: the clocks that the call reads say what they may between these instants. [serves lease
    env]: the store is there and the deadline can be represented. *)
Class LeaseStore (E S : Type) := {
  lease_held : ArchiveSession → Z → S → Prop;
  call_within : Z → Z → E → Prop;
  serves : Z → E → Prop;
  (** How much earlier than the length of the lease after a call began a lease may end. *)
  lead : Z;
  (** Deadlines up to here can be represented. *)
  horizon : Z
}.
Class LeaseLaws (E S : Type) `{Chrono, DurableBucketStore E S, LeaseStore E S} : Prop := {
  held_kept {X} (c : store_call X) env st s x from to : wf_call c → ¬ gives_up s c →
    lease_held s x st → call_within from to env → to < x → lease_held s x (store_exec c env st).2;
  held_not_granted {X} (c : store_call X) env st s x from to : wf_call c → call_bucket c = Some (session_bucket s) →
    lease_held s x st → call_within from to env → to < x → granted c (store_exec c env st).1 = None;
  held_renewed env st s x lease from to : lease_held s x st → call_within from to env → serves lease env → to < x →
    (store_exec (RenewArchiveLease s lease) env st).1 = Ok tt ∧
    ∃ x', from + lease - lead <= x' ∧ lease_held s x' (store_exec (RenewArchiveLease s lease) env st).2;
  granted_held {X} (c : store_call X) env st s lease from to : wf_call c → call_within from to env →
    granted c (store_exec c env st).1 = Some s → call_lease c = Some lease →
    ∃ x, from + lease - lead <= x ∧ lease_held s x (store_exec c env st).2;
  lead_nonneg : 0 <= lead;
  service_possible t lease : 0 <= t → 0 < lease → t + lease <= horizon → ∃ env, call_within t t env ∧ serves lease env
}.

(** ** The task, the store and the clock *)
(** [since] is when the task came to where it is. *)
Record timed (S : Type) := mkTimed { clock : Z; contents : S; the_renewer : ArchiveLeaseRenewer; since : Z }.
Arguments mkTimed {S}.
Arguments clock {S}.
Arguments contents {S}.
Arguments the_renewer {S}.
Arguments since {S}.

Section timed_steps.
Context `{Chrono} {E S : Type} `{DurableBucketStore E S, !LeaseStore E S}.
(** The renewal interval, how late the executor may poll the task, and how late the store may
    answer. *)
Context (interval jitter latency : Z).

(** Until when the task may be where it is. *)
Definition in_time (t : timed S) (u : Z) : Prop :=
  match task_state (the_renewer t) with
  | Sleeping false => u <= since t + interval + jitter
  | Sleeping true | Answered _ => u <= since t + jitter
  | Renewing => u <= since t + latency
  | Ended => True
  end.
(** A sleep is over when the interval is. *)
Definition event_due (ev : task_event) (t : timed S) : Prop :=
  match ev with Elapse => since t + interval <= clock t | _ => True end.

Inductive tstep : timed S → timed S → Prop :=
  | t_wait t u : clock t <= u → in_time t u →
      tstep t (mkTimed u (contents t) (the_renewer t) (since t))
  | t_task t ev r : ev ≠ TaskPanics → event_due ev t → task_step ev (the_renewer t) = Some r →
      tstep t (mkTimed (clock t) (contents t) r (clock t))
  | t_renew t env u r : clock t <= u → in_time t u → call_within (clock t) u env → serves (lease_for (the_renewer t)) env →
      let call := store_exec (RenewArchiveLease (session (the_renewer t)) (lease_for (the_renewer t))) env (contents t) in
      answer call.1 (the_renewer t) = Some r →
      tstep t (mkTimed u call.2 r u)
  | t_call t {X} (c : store_call X) env u : clock t <= u → in_time t u → call_within (clock t) u env →
      wf_call c → ¬ gives_up (session (the_renewer t)) c →
      tstep t (mkTimed u (store_exec c env (contents t)).2 (the_renewer t) (since t)).
Definition tsteps : timed S → timed S → Prop := rtc tstep.

(** The claim has returned at [u], and the renewer of its session is started. *)
Definition after_grant {X} (c : store_call X) (env : E) (st : S) (s : ArchiveSession) (lease u : Z) : timed S :=
  mkTimed u (store_exec c env st).2 (ArchiveLeaseRenewer_start s lease) u.

(** ** The invariant *)
Context `{!LeaseLaws E S} (s : ArchiveSession) (lease : Z).
Hypotheses (Hinterval : 0 <= interval) (Hjitter : 0 <= jitter) (Hlatency : 0 <= latency).
Hypotheses (Hfits : interval + 3 * jitter + 2 * latency + lead < lease).

(** How old the lease may be when the task comes to a place. *)
Definition age (st : task) : option Z :=
  match st with
  | Answered (Ok _) => Some latency
  | Sleeping false => Some (latency + jitter)
  | Sleeping true => Some (latency + interval + 2 * jitter)
  | Renewing => Some (latency + interval + 3 * jitter)
  | Answered (Err _) | Ended => None
  end.
Record kept (x : Z) (t : timed S) : Prop := {
  kept_lease : lease_held s x (contents t);
  kept_stop : stop (the_renewer t) = Open;
  kept_failure : failure (the_renewer t) = Open;
  kept_session : session (the_renewer t) = s;
  kept_lease_for : lease_for (the_renewer t) = lease;
  kept_since : since t <= clock t;
  kept_in_time : in_time t (clock t);
  kept_age : ∃ a, age (task_state (the_renewer t)) = Some a ∧ since t + lease <= x + lead + a
}.

Lemma granted_kept {X} (c : store_call X) env st from u : wf_call c → call_within from u env →
  granted c (store_exec c env st).1 = Some s → call_lease c = Some lease → u <= from + latency →
  ∃ x, kept x (after_grant c env st s lease u).
Proof.
  intros Hwf Hw Hg Hc Hu. destruct (granted_held c env st s lease from u Hwf Hw Hg Hc) as (x & Hx & Hh).
  exists x. split; simpl; try done; unfold in_time; simpl; [lia|]. eexists. split; [done|]. lia.
Qed.
(** While the task is in time, the lease runs. *)
Lemma kept_unexpired x t u : kept x t → in_time t u → u < x.
Proof.
  intros [_ _ _ _ _ _ _ (a & Ha & Hs)] Hu. unfold in_time in Hu.
  destruct (task_state (the_renewer t)) as [[]| |[]|]; simplify_eq/=; lia.
Qed.

Lemma task_kept x t ev r : kept x t → ev ≠ TaskPanics → task_step ev (the_renewer t) = Some r →
  kept x (mkTimed (clock t) (contents t) r (clock t)).
Proof.
  intros [Hh Hs Hf He Hl Hc Ht (a & Ha & Hage)] Hev. unfold task_step, in_time in *.
  destruct ev, (task_state (the_renewer t)) as [[]| |[[]|]|]; simplify_eq/=; try done.
  all: rewrite ?Hs; simpl; intros; simplify_eq/=.
  all: try unfold enter_select; rewrite ?Hs; simpl.
  all: split; simpl; try done; unfold in_time; simpl; try lia.
  all: eexists; split; [done|]; lia.
Qed.
Lemma tstep_kept x t t' : kept x t → tstep t t' → ∃ x', kept x' t'.
Proof.
  intros Hk Hstep. destruct Hstep as [t u Hu Hin|t ev r Hev _ Hr|t env u r Hu Hin Hw Hsv call Hr
    |t X c env u Hu Hin Hw Hwf Hg]; simpl in *.
  - exists x. destruct Hk. split; simpl; try done. lia.
  - exists x. by eapply task_kept.
  - pose proof (kept_unexpired _ _ _ Hk Hin) as Hlt. destruct Hk as [Hh Hs Hf He Hl Hc Ht (a & Ha & Hage)].
    destruct (held_renewed env (contents t) s x lease (clock t) u) as (Hok & x' & Hx' & Hh'); [done|done|by rewrite <-Hl|done|].
    exists x'. subst call. rewrite He, Hl, Hok in *. unfold answer, in_time in *.
    destruct (task_state (the_renewer t)); simplify_eq/=. split; simpl; try done; unfold in_time; simpl; [lia|].
    eexists. split; [done|]. lia.
  - exists x. pose proof (kept_unexpired _ _ _ Hk Hin) as Hlt. destruct Hk as [Hh Hs Hf He Hl Hc Ht Ha].
    split; simpl; try done; [|lia]. eapply held_kept; [done|by rewrite <-He|done..].
Qed.
Lemma tsteps_kept x t t' : kept x t → tsteps t t' → ∃ x', kept x' t'.
Proof.
  intros Hk. revert t'. refine (rtc_ind_r _ _ _ _); [eauto|]. intros t1 t2 _ Hstep [x1 Hk1]. by eapply tstep_kept.
Qed.
(** The rules do not stop the clock: it can advance, or the task can. *)
Lemma tstep_progress x t : kept x t → 0 <= clock t → clock t + lease <= horizon →
  ∃ t', tstep t t' ∧ (clock t < clock t' ∨ the_renewer t' ≠ the_renewer t).
Proof.
  intros [Hh Hs Hf He Hl Hc Ht (a & Ha & _)] Hpos Hhor.
  assert (∀ ev r, ev ≠ TaskPanics → event_due ev t → task_step ev (the_renewer t) = Some r → r ≠ the_renewer t →
    ∃ t', tstep t t' ∧ (clock t < clock t' ∨ the_renewer t' ≠ the_renewer t)) as Htask.
  { intros ev r ? ? ? ?. eexists. split; [by eapply t_task|]. by right. }
  destruct (the_renewer t) as [st f k s0 l0] eqn:Er. simpl in *. destruct k as [[]| |[u|]|]; simpl in *; try done.
  - by eapply (Htask (Select false)); [..|simpl; by rewrite Hs|].
  - destruct (decide (since t + interval <= clock t)); [by eapply (Htask Elapse)|].
    eexists. split; [apply (t_wait _ (since t + interval)); [lia|]|left; simpl; lia].
    unfold in_time. rewrite Er. simpl. lia.
  - destruct (service_possible (clock t) l0) as (env & Hw & Hsv); [done|pose proof lead_nonneg; lia|by rewrite Hl|]. eexists. split.
    + apply (t_renew _ env (clock t)); [lia|done|done|by rewrite Er|]. rewrite Er. unfold answer. simpl. reflexivity.
    + right. simpl. done.
  - apply (Htask Resume (mkRenewer st f (Sleeping false) s0 l0)); [done|done| |done]. simpl. unfold enter_select. simpl. by rewrite Hs.
Qed.
End timed_steps.

(** ** Theorems *)
Section theorems.
Context `{Chrono} {E S : Type} `{DurableBucketStore E S, !LeaseStore E S, !LeaseLaws E S}.

Lemma grant_kept interval jitter latency {X} (c : store_call X) env st s lease from u t :
  0 <= interval → 0 <= jitter → 0 <= latency → interval + 3 * jitter + 2 * latency + lead < lease →
  wf_call c → call_within from u env → u <= from + latency →
  granted c (store_exec c env st).1 = Some s → call_lease c = Some lease →
  tsteps interval jitter latency (after_grant c env st s lease u) t → ∃ x, kept interval jitter latency s lease x t.
Proof.
  intros Hi Hj Hl Hfits Hwf Hw Hu Hg Hc Hsteps.
  assert (∃ x, kept interval jitter latency s lease x (after_grant c env st s lease u)) as [x Hk]
    by (by eapply granted_kept).
  eapply tsteps_kept; [..|exact Hk|exact Hsteps]; done.
Qed.

(** C31. A renewer that is served in time keeps its lease, over every store with the lease laws. Start
    from any granted claim, and let the executor run the task at most [jitter] late and the store
    answer its renewals within [latency], in whatever interleaving with calls of everybody else: if
    the interval, three delays, two answers and the store's own lead fit into the lease, then at
    every later moment the task runs and has reported nothing, the session is held until after
    anything that is still in time, no claim on the bucket is granted, and either time or the task
    can go on. *)
Theorem renewed_lease_is_kept interval jitter latency {X} (c : store_call X) env st s lease from u t :
  0 <= interval → 0 <= jitter → 0 <= latency → interval + 3 * jitter + 2 * latency + lead < lease →
  wf_call c → call_within from u env → u <= from + latency →
  granted c (store_exec c env st).1 = Some s → call_lease c = Some lease →
  tsteps interval jitter latency (after_grant c env st s lease u) t →
  failure (the_renewer t) = Open ∧ task_state (the_renewer t) ≠ Ended ∧
  (∃ x, lease_held s x (contents t) ∧ clock t < x ∧ ∀ u', in_time interval jitter latency t u' → u' < x) ∧
  (∀ Y (c' : store_call Y) env' u', in_time interval jitter latency t u' → call_within (clock t) u' env' → wf_call c' →
    call_bucket c' = Some (session_bucket s) → granted c' (store_exec c' env' (contents t)).1 = None) ∧
  (0 <= clock t → clock t + lease <= horizon →
    ∃ t', tstep interval jitter latency t t' ∧ (clock t < clock t' ∨ the_renewer t' ≠ the_renewer t)).
Proof.
  intros Hi Hj Hl Hfits Hwf Hw Hu Hg Hc Hsteps.
  destruct (grant_kept interval jitter latency c env st s lease from u t) as [x Hk]; [done..|].
  assert (∀ u', in_time interval jitter latency t u' → u' < x) as Hlt
    by (intros u' Hu'; eapply kept_unexpired; [..|exact Hk|exact Hu']; done).
  pose proof Hk as [Hheld _ Hf _ _ _ Hin (a & Ha & _)]. split_and!; [done|by intros Hend; rewrite Hend in Ha|..].
  - exists x. split_and!; [done|by apply Hlt|done].
  - intros Y c' env' u' Hu' Hw' Hwf' Hb. by eapply held_not_granted; [..|apply Hlt].
  - intros Hpos Hhor. by apply (tstep_progress _ _ _ s lease) with x.
Qed.

(** A fifth of what the interval and the store leave of the lease. *)
Definition slack (cfg : ArchiveRecoveryConfig) : Z := (cfg_lease_for cfg - cfg_lease_renewal_interval cfg - lead - 1) / 5.
(** Settings that the recovery runner accepts leave room for delays, if the store's lead is shorter
    than what the interval leaves of the lease: a renewer that is polled and answered at most [slack]
    late holds its lease at every later moment. *)
Theorem validated_settings_keep_leases cfg {X} (c : store_call X) env st s from u t :
  config_validate cfg = Ok tt → 0 <= cfg_lease_renewal_interval cfg →
  lead < cfg_lease_for cfg - cfg_lease_renewal_interval cfg →
  wf_call c → call_within from u env → u <= from + slack cfg →
  granted c (store_exec c env st).1 = Some s → call_lease c = Some (cfg_lease_for cfg) →
  tsteps (cfg_lease_renewal_interval cfg) (slack cfg) (slack cfg) (after_grant c env st s (cfg_lease_for cfg) u) t →
  0 <= slack cfg ∧ failure (the_renewer t) = Open ∧ ∃ x, lease_held s x (contents t) ∧ clock t < x.
Proof.
  intros (_ & _ & _ & Hlt & _)%config_validate_ok Hi Hlead Hwf Hw Hu Hg Hc Hsteps.
  set (room := cfg_lease_for cfg - cfg_lease_renewal_interval cfg - lead - 1) in *.
  assert (0 <= slack cfg) as Hs by (unfold slack; apply Z.div_pos; lia).
  assert (5 * slack cfg <= room) by (unfold slack; fold room; apply Z.mul_div_le; lia).
  assert (cfg_lease_renewal_interval cfg + 3 * slack cfg + 2 * slack cfg + lead < cfg_lease_for cfg) as Hfits by lia.
  destruct (grant_kept (cfg_lease_renewal_interval cfg) (slack cfg) (slack cfg) c env st s (cfg_lease_for cfg) from u t)
    as [x Hk]; [done..|]. destruct (Hk) as [? ? ? _ _ _ Hin _]. split_and!; [done..|]. exists x. split; [done|].
  eapply kept_unexpired; [..|exact Hk|exact Hin]; done.
Qed.
End theorems.
