(* ===== verification/Queries.v ===== *)
(** Queries while the system moves: the pages a client gets from the router when appends, cutovers,
    cleanups and crashes happen between any two storage calls of its bucket reads, and a client that
    follows the cursors from page to page meanwhile. *)
From S2P Require Import Prelude Chrono Model Schema Storage Observability Prog Table Coordinator System.
Local Open Scope Z_scope.

Section queries.
Context `{ChronoLaws} {E S F T : Type} `{DurableBucketStore E S} `{!StoreLaws E S}.
Context `{ArchiveStore F T} `{!ArchiveLaws F T}.
Abbreviation sys := (sys (S := S) (T := T)).
Context (d : TableDefinition).

(** ** Queries and clients *)
(** The tasks of a query run between two states of the system: every result that [reads] gives was
    computed by a [read_bucket] interleaved with what happened in between. The reads of the other
    buckets are among the steps each of them is interleaved with. *)
Definition executes (σ σ' : sys) (q : Query)
    (reads : BucketId → Outcome (Result DurableTableError (list Record_))) : Prop :=
  ∀ b r, reads b = Value r → ∃ σ1 σ2, steps σ σ1 ∧
    interleaved (read_bucket b (q_range q) (q_after q) (page_capacity (q_limit q))) σ1 r σ2 ∧ steps σ2 σ'.

(** One page, asked for in [σ] and received in [σ']. *)
Definition answers (σ σ' : sys) (q : Query) (p : QueryPage) : Prop :=
  ∃ schedule reads, steps σ σ' ∧ executes σ σ' q reads ∧ query_page d schedule reads q = Value (Ok p).

(** A client that asks for page after page of a range until there is none: [n] pages, [rs] their
    records one after the other. *)
Inductive browses (pk : list byte) (range : TimeRange) (limit : Z) :
    nat → sys → option Cursor → list Record_ → sys → Prop :=
  | browse_last σ after p σ' :
      answers σ σ' (mkQuery pk range after limit) p → p_next p = None →
      browses pk range limit 1 σ after (p_records p) σ'
  | browse_more n σ after p c σ1 rs σ' :
      answers σ σ1 (mkQuery pk range after limit) p → p_next p = Some c →
      browses pk range limit n σ1 (Some c) rs σ' →
      browses pk range limit (Datatypes.S n) σ after (p_records p ++ rs) σ'.

(** Everything that was ever acknowledged or may have been written, in a set of buckets. *)
Definition written (σ : sys) (bs : list BucketId) : list Record_ :=
  concat (map (λ b, acked σ b ++ unsure σ b) bs).
Definition acknowledged (σ : sys) (bs : list BucketId) : list Record_ := concat (map (acked σ) bs).

(** ** Lemmas *)
Lemma steps_unsure (σ σ' : sys) b : steps σ σ' → unsure σ b ⊆+ unsure σ' b.
Proof.
  induction 1 as [|σ σ1 σ2 Hstep _ IH]; [done|]. etransitivity; [|exact IH].
  destruct Hstep as [σ b' r i Hb Hin|? ? Hi]; [|by destruct Hi]. simpl. unfold record_if.
  repeat case_match; try done. by constructor.
Qed.
Lemma concat_submseteq {A B} (f g : A → list B) (l : list A) : (∀ a, a ∈ l → f a ⊆+ g a) →
  concat (map f l) ⊆+ concat (map g l).
Proof.
  induction l as [|a l IH]; intros Hl; simpl; [done|]. apply submseteq_app; [apply Hl; left|].
  apply IH. intros; apply Hl. by right.
Qed.
Lemma acknowledged_mono (σ σ' : sys) bs : steps σ σ' → acknowledged σ bs ⊆+ acknowledged σ' bs.
Proof. intros Hs. apply concat_submseteq. intros b _. by apply steps_acked. Qed.
Lemma written_mono (σ σ' : sys) bs : steps σ σ' → written σ bs ⊆+ written σ' bs.
Proof. intros Hs. apply concat_submseteq. intros b _. apply submseteq_app; [by apply steps_acked|by apply steps_unsure]. Qed.

(** The content of a bucket at an instant during the query, within what was and what will be written. *)
Definition seen (σ σ' : sys) (b : BucketId) (l : list Record_) : Prop :=
  (∃ σm lm, steps σ σm ∧ steps σm σ' ∧ logical (tiers σm) b = Some lm ∧ l ≡ₚ lm) ∧
  acked σ b ⊆+ l ∧ l ⊆+ acked σ' b ++ unsure σ' b ∧ Forall (in_bucket b) l.

Lemma read_seen σ σ' q reads b rs : sys_inv σ → canonical b → executes σ σ' q reads →
  reads b = Value (Ok rs) → ∃ l, seen σ σ' b l ∧
    (precise_for fidelity (q_range q) (q_after q) (page_capacity (q_limit q)) (length l) →
     rs = page (q_range q) (q_after q) (page_capacity (q_limit q)) l).
Proof.
  intros Hσ Hb Hex Hrs. destruct (Hex b _ Hrs) as (σ1 & σ2 & Hto & Hrun & Hfrom).
  destruct (read_linearizes _ _ _ _ _ _ _ (steps_inv _ _ Hσ Hto) Hb Hrun) as (σm & l & lm & Hto1 & Hto2 & Hlm & Hl & _ & Hpage).
  assert (steps σ σm) as Hm by (by etransitivity). assert (steps σm σ') as Hm' by (by etransitivity).
  exists l. split; [|done]. split; [by exists σm, lm|].
  destruct (inv_content _ (steps_inv _ _ Hσ Hm) b Hb) as (lm' & Hlm' & Hin & Ha & Hu). simplify_eq.
  rewrite !Hl. split_and!; [by rewrite (steps_acked _ _ b Hm)| |done].
  rewrite Hu. apply submseteq_app; [by apply steps_acked|by apply steps_unsure].
Qed.

Section one_query.
Context (σ σ' : sys) (q : Query) (bs : list BucketId) (p : QueryPage).
Context (Hσ : sys_inv σ) (Hr : in_range (range_start (q_range q)))
  (Hlt : range_start (q_range q) < range_end (q_range q)) (Hlim : 0 < q_limit q <= usize_max)
  (Hbs : buckets_for_range d (q_partition_key q) (q_range q) = Value bs)
  (Hpre : precise_for fidelity (q_range q) (q_after q) (page_capacity (q_limit q)) (length (written σ' bs)))
  (Hlen : Z.of_nat (length (written σ' bs)) <= usize_max).

Lemma page_consistent : answers σ σ' q p →
  ∃ l, (∀ b, b ∈ bs → seen σ σ' b (l b)) ∧
    p = logical_page (q_range q) (q_after q) (q_limit q) (concat (map l bs)).
Proof.
  intros (schedule & reads & Hto & Hex & Hq).
  destruct (buckets_nodup d _ _ _ Hr Hlt Hbs) as [_ Hof]. rewrite Forall_forall in Hof.
  pose proof (proj2 (proj2 (no_partial_pages d schedule reads q)) p Hlt ltac:(lia) Hq) as (bs' & Hbs' & Hall & _).
  assert (bs' = bs) as -> by congruence.
  destruct (choose_function (λ b l, seen σ σ' b l ∧
    reads b = Value (Ok (page (q_range q) (q_after q) (page_capacity (q_limit q)) l))) bs) as [l Hl].
  { intros b Hin. destruct (Hall b Hin) as [rs Hrs].
    destruct (read_seen σ σ' q reads b rs Hσ (proj1 (Hof b Hin)) Hex Hrs) as (l & Hseen & Hpage).
    exists l. split; [done|]. rewrite Hrs. do 2 f_equal. apply Hpage. eapply precise_for_le; [|exact Hpre].
    etransitivity; [by apply submseteq_length, Hseen|].
    apply (length_concat_elem (λ b, acked σ' b ++ unsure σ' b)), Hin. }
  exists l. split; [intros b Hb; by apply Hl|].
  rewrite (query_page_logical d schedule reads q l bs) in Hq; try done; [congruence|..].
  - intros b Hb. destruct (Hl b Hb) as [Hs Hrd]. split; [apply Hs|done].
  - etransitivity; [|exact Hlen]. apply inj_le, submseteq_length, concat_submseteq. intros b Hb. by apply Hl.
Qed.
End one_query.
End queries.

(** ** One page of distinct keys *)
Section one_page.
Context (range : TimeRange) (after : option Cursor) (limit : Z) (l : list Record_).
Context (Hlim : 0 < limit) (Hnd : NoDup (clustering <$> l)).
Abbreviation p := (logical_page range after limit l).
Abbreviation all := (sort_by clustering (matching range after l)).

Lemma all_strict : strictly_sorted_by clustering all.
Proof. apply sorted_by_strict; [apply sort_by_sorted|]. rewrite sort_by_Permutation. by apply matching_unique. Qed.
Lemma elem_of_all r : r ∈ all ↔ in_page range after r = true ∧ r ∈ l.
Proof. rewrite sort_by_Permutation. apply elem_of_matching. Qed.

Lemma page_within : strictly_sorted_by clustering (p_records p) ∧
  ∀ r, r ∈ p_records p → in_page range after r = true ∧ r ∈ l.
Proof.
  pose proof all_strict as Hs. rewrite <- (take_drop (Z.to_nat limit) all) in Hs.
  split; [by apply StronglySorted_app_1_l in Hs|]. intros r Hr. apply elem_of_all.
  rewrite <- (take_drop (Z.to_nat limit) all). apply elem_of_app. by left.
Qed.
Lemma last_page : p_next p = None → p_records p = all.
Proof.
  simpl. destruct (limit <? Z.of_nat (length all)) eqn:Em; zbool; [|intros _; apply take_ge; lia].
  destruct (last (take (Z.to_nat limit) all)) eqn:El; [done|]. intros _.
  apply last_None, (f_equal length) in El. rewrite length_take in El. simpl in El. lia.
Qed.
(** A page with a cursor is full, and the cursor separates what it shows from the rest. *)
Lemma full_page c : p_next p = Some c →
  Z.of_nat (length (p_records p)) = limit ∧
  (∃ x, x ∈ l ∧ c = cursor_from x ∧ after_cursor after x = true) ∧
  (∀ r r', r ∈ p_records p → after_cursor (Some c) r' = true → ord_lt (clustering r) (clustering r')) ∧
  (∀ r, r ∈ l → in_page range after r = true → r ∈ p_records p ∨ in_page range (Some c) r = true).
Proof.
  simpl. destruct (limit <? Z.of_nat (length all)) eqn:Em; zbool; [|done].
  destruct (last (take (Z.to_nat limit) all)) as [x|] eqn:El; simpl; [|done]. intros [= <-].
  apply last_Some in El as [shown El]. pose proof all_strict as Hs.
  pose proof (take_drop (Z.to_nat limit) all) as Htd. rewrite El in Htd. rewrite <- Htd in Hs.
  assert (x ∈ all) as Hx by (rewrite <- Htd; set_solver).
  apply elem_of_all in Hx as [Hx Hxl]. apply andb_prop in Hx as [_ Hxa].
  split_and!; [rewrite length_take; lia|by exists x| |].
  - intros r r' Hr Hr'. change (ord_lt (clustering x) (clustering r')) in Hr'. rewrite El in Hr.
    apply elem_of_app in Hr as [Hr| ->%list_elem_of_singleton]; [|done].
    eapply ord_lt_trans; [|exact Hr']. apply StronglySorted_app_1_l in Hs.
    eapply StronglySorted_app_1_elem_of in Hs; [exact Hs|done|]. by apply list_elem_of_singleton.
  - intros r Hr Hin. assert (r ∈ all) as Hra by (by apply elem_of_all). rewrite <- Htd in Hra. rewrite El.
    apply elem_of_app in Hra as [Hra|Hra]; [by left|]. right. unfold in_page in *.
    apply andb_prop in Hin as [-> _]. simpl. eapply StronglySorted_app_1_elem_of in Hs; [exact Hs|set_solver|done].
Qed.
Lemma page_after_trans c x r : c = cursor_from x → after_cursor after x = true →
  in_page range (Some c) r = true → in_page range after r = true.
Proof.
  intros -> Hx [Hr Hlt]%andb_prop. unfold in_page. rewrite Hr. simpl. destruct after as [c|]; [|done]. simpl in *.
  by eapply ord_lt_trans.
Qed.
End one_page.

Lemma submseteq_NoDup {A} (l k : list A) : l ⊆+ k → NoDup k → NoDup l.
Proof. intros [k' ->]%submseteq_Permutation. by intros [? _]%NoDup_app. Qed.

(** ** A client that follows the cursors *)
Section browsing.
Context `{ChronoLaws} {E S F T : Type} `{DurableBucketStore E S} `{!StoreLaws E S}.
Context `{ArchiveStore F T} `{!ArchiveLaws F T}.
Context (d : TableDefinition) (pk : list byte) (range : TimeRange) (limit : Z) (bs : list BucketId).
Context (Hr : in_range (range_start range)) (Hlt : range_start range < range_end range)
  (Hlim : 0 < limit <= usize_max) (Hbs : buckets_for_range d pk range = Value bs).
Abbreviation sys := (sys (S := S) (T := T)).

(** The adapter keeps the bounds, the limit and the cursors that can come up, and the records fit
    into memory. *)
Definition browsable (σ' : sys) : Prop :=
  (∀ after, cursor_of (written σ' bs) after →
     precise_for fidelity range after (page_capacity limit) (length (written σ' bs))) ∧
  Z.of_nat (length (written σ' bs)) <= usize_max.
(** No bucket of the range ever holds two records of one clustering key meanwhile. *)
Definition keys_unique (σ σ' : sys) : Prop := ∀ σm b l,
  steps σ σm → steps σm σ' → b ∈ bs → logical (tiers σm) b = Some l → NoDup (clustering <$> l).

Lemma keys_unique_later (σ σ1 σ' : sys) : steps σ σ1 → keys_unique σ σ' → keys_unique σ1 σ'.
Proof. intros Hs Hu σm b l Hto. apply Hu. by etransitivity. Qed.
(** It is so when no two records that were ever written share a key. *)
Lemma written_keys_unique (σ σ' : sys) : sys_inv σ → NoDup (clustering <$> written σ' bs) → keys_unique σ σ'.
Proof.
  intros Hσ Hnd σm b l Hto Hfrom Hb Hl. destruct (buckets_nodup d _ _ _ Hr Hlt Hbs) as [_ Hof].
  rewrite Forall_forall in Hof. destruct (inv_content _ (steps_inv _ _ Hσ Hto) b (proj1 (Hof b Hb))) as (l' & Hl' & _ & _ & Hu).
  simplify_eq. eapply submseteq_NoDup; [apply fmap_submseteq|exact Hnd]. etransitivity; [exact Hu|].
  etransitivity; [|by apply (written_mono σm σ' bs)]. apply list_elem_of_split in Hb as (bs1 & bs2 & ->).
  unfold written. rewrite map_app, concat_app. simpl.
  etransitivity; [apply submseteq_inserts_r, (reflexivity _)|apply submseteq_inserts_l, (reflexivity _)].
Qed.
(** Buckets of one range share no key. *)
Lemma contents_nodup (l : BucketId → list Record_) :
  (∀ b, b ∈ bs → Forall (in_bucket b) (l b) ∧ NoDup (clustering <$> l b)) →
  NoDup (clustering <$> concat (map l bs)).
Proof.
  destruct (buckets_nodup d _ _ _ Hr Hlt Hbs) as [Hnd Hof]. clear Hbs. intros Hl.
  induction Hnd as [|b bs' Hb Hnd IH]; simpl; [constructor|]. apply Forall_cons in Hof as [Hof Hofs].
  rewrite fmap_app. apply NoDup_app. split_and!; [by apply Hl; left| |apply IH; [done|intros; apply Hl; by right]].
  intros k (r & -> & Hr1)%list_elem_of_fmap (r' & Hk & Hr2)%list_elem_of_fmap.
  apply elem_of_concat_map in Hr2 as (b' & Hb' & Hr2). rewrite Forall_forall in Hofs.
  destruct (Hl b) as [Hin _]; [by left|]. destruct (Hl b') as [Hin' _]; [by right|]. rewrite Forall_forall in Hin, Hin'.
  assert (b = b') as <- by (eapply (in_bucket_unique d pk b b' r r'); eauto). done.
Qed.

Lemma cursor_of_mono (σ σ' : sys) after : steps σ σ' → cursor_of (written σ bs) after → cursor_of (written σ' bs) after.
Proof.
  intros Hs. destruct after as [c|]; [|done]. intros (r & Hr' & ->). exists r. split; [|done].
  eapply elem_of_submseteq; [exact Hr'|by apply written_mono].
Qed.
Lemma browses_steps n (σ : sys) after rs σ' : browses d pk range limit n σ after rs σ' → steps σ σ'.
Proof.
  induction 1 as [σ after p σ' (schedule & reads & Hs & _) _|n σ after p c σ1 rs σ' (schedule & reads & Hs & _) _ _ IH];
    [done|by etransitivity].
Qed.

(** A page on the way is a page of some distinct records between what was acknowledged and what
    is written in the end. *)
Lemma answer_page (σ σ1 σ' : sys) after p : sys_inv σ → steps σ1 σ' → browsable σ' → keys_unique σ σ' →
  cursor_of (written σ' bs) after → answers d σ σ1 (mkQuery pk range after limit) p →
  ∃ l, p = logical_page range after limit l ∧ acknowledged σ bs ⊆+ l ∧ l ⊆+ written σ' bs ∧
    NoDup (clustering <$> l).
Proof.
  intros Hσ Hs (Hpre & Hlen) Hu Hcur Ha. pose proof (submseteq_length _ _ (written_mono _ _ bs Hs)) as Hle.
  destruct (page_consistent d σ σ1 (mkQuery pk range after limit) bs p) as (l & Hl & ->); try done; simpl.
  - eapply precise_for_le; [exact Hle|]. by apply Hpre.
  - lia.
  - assert (concat (map l bs) ⊆+ written σ' bs) as Hw.
    { etransitivity; [|by apply written_mono]. apply concat_submseteq. intros b Hb. by apply Hl. }
    exists (concat (map l bs)). split_and!; [done| |done|].
    + apply concat_submseteq. intros b Hb. by apply Hl.
    + apply contents_nodup. intros b Hb. destruct (Hl b Hb) as ((σm & lm & Hto & Hfrom & Hlm & Hp) & _ & _ & Hin).
      split; [done|]. rewrite Hp. apply (Hu σm b); [done|by etransitivity|done|done].
Qed.

Lemma browses_complete n σ after rs σ' : browses d pk range limit n σ after rs σ' → sys_inv σ → browsable σ' →
  keys_unique σ σ' → cursor_of (written σ' bs) after →
  strictly_sorted_by clustering rs ∧
  (∀ r, r ∈ rs → in_page range after r = true ∧ r ∈ written σ' bs) ∧
  (∀ r, r ∈ acknowledged σ bs → in_page range after r = true → r ∈ rs) ∧
  (Z.of_nat n - 1) * limit <= Z.of_nat (length rs).
Proof.
  induction 1 as [σ after p σ' Ha Hnext|n σ after p c σ1 rs σ' Ha Hnext Hmore IH]; intros Hσ Hb Hu Hcur.
  - destruct (answer_page σ σ' σ' after p Hσ (rtc_refl _ _) Hb Hu Hcur Ha) as (l & -> & Hack & Hw & Hnd).
    destruct (page_within range after limit l Hnd) as [Hs Hin]. split_and!; [done| | |lia].
    + intros r Hr'. destruct (Hin r Hr') as [? Hl]. split; [done|]. by eapply elem_of_submseteq.
    + intros r Hr' Hp. rewrite (last_page range after limit l) by (done || lia). apply elem_of_all. split; [done|].
      by eapply elem_of_submseteq.
  - pose proof (browses_steps _ _ _ _ _ Hmore) as Hs1.
    assert (steps σ σ1) as Hs0 by (by destruct Ha as (? & ? & ? & _)).
    destruct (answer_page σ σ1 σ' after p Hσ Hs1 Hb Hu Hcur Ha) as (l & -> & Hack & Hw & Hnd).
    destruct (page_within range after limit l Hnd) as [Hs Hin].
    destruct (full_page range after limit l ltac:(lia) Hnd c Hnext) as (Hfull & (x & Hx & Hc & Hxa) & Hsep & Hrest).
    destruct IH as (IHs & IHin & IHack & IHn); [by eapply steps_inv|done|by eapply keys_unique_later| |].
    { exists x. split; [by eapply elem_of_submseteq|done]. }
    split_and!.
    + apply StronglySorted_app. split_and!; [|done|done]. intros r r' Hr' Hr''. apply Hsep; [done|].
      destruct (IHin r' Hr'') as [Hp _]. by apply andb_prop in Hp as [_ ?].
    + intros r [Hr'|Hr']%elem_of_app.
      * destruct (Hin r Hr') as [? Hl]. split; [done|]. by eapply elem_of_submseteq.
      * destruct (IHin r Hr') as [Hp ?]. split; [|done]. by eapply page_after_trans.
    + intros r Hr' Hp. apply elem_of_app. destruct (Hrest r) as [?|Hp']; [by eapply elem_of_submseteq|done|by left|].
      right. apply IHack; [|done]. eapply elem_of_submseteq; [exact Hr'|]. by apply acknowledged_mono.
    + rewrite length_app. lia.
Qed.
End browsing.

(** ** Theorems *)
Section query_theorems.
Context `{ChronoLaws} {E S F T : Type} `{DurableBucketStore E S} `{!StoreLaws E S}.
Context `{ArchiveStore F T} `{!ArchiveLaws F T}.
Abbreviation sys := (sys (S := S) (T := T)).

(** A program that runs alone is one of its interleavings. *)
Lemma run_interleaved {A} (p : prog A) (inputs : nat → input (E := E) (F := F)) n (σ : sys) :
  interleaved p σ (run p inputs n (tiers σ)).1
    (mkSys (run p inputs n (tiers σ)).2 (workers σ) (acked σ) (unsure σ)).
Proof.
  revert n σ. induction p as [a|X e k IH]; intros n σ; simpl; [split; [done|]; destruct σ; apply rtc_refl|].
  exists (inputs n), σ. split; [apply rtc_refl|].
  pose proof (IH (step_event e (inputs n) (tiers σ)).1 (Datatypes.S n)
    (mkSys (step_event e (inputs n) (tiers σ)).2 (workers σ) (acked σ) (unsure σ))) as Hk.
  simpl in Hk. by destruct (step_event e (inputs n) (tiers σ)).
Qed.

(** C5. A query over several buckets is consistent while the system moves: interleaved with appends,
    cutovers, cleanups and crashes between any two of its storage calls, a page that is returned is
    the logical page of one content per bucket of the range, each the content its bucket had at some
    instant during the query, whatever tier served it; every content holds all the records
    acknowledged before the query started, and only records acknowledged, or possibly written, by
    the time it ended. Conditions: the range is not empty and starts at a representable time, the limit
    is a positive [usize], the buckets of the range can be listed, the records number at most
    [usize::MAX], and [precise_for]: the adapter keeps the bounds and the cursor of the query as
    they are, and its limit too or more than there are records. The in-memory store always does;
    CockroachDB does for bounds and cursors of whole microseconds, and rounds finer ones for the
    buckets that are still hot. *)
Theorem concurrent_page_is_consistent d σ0 (σ σ' : sys) q bs p :
  initial σ0 → steps σ0 σ → in_range (range_start (q_range q)) →
  range_start (q_range q) < range_end (q_range q) → 0 < q_limit q <= usize_max →
  buckets_for_range d (q_partition_key q) (q_range q) = Value bs →
  precise_for fidelity (q_range q) (q_after q) (page_capacity (q_limit q)) (length (written σ' bs)) →
  Z.of_nat (length (written σ' bs)) <= usize_max →
  answers d σ σ' q p →
  ∃ l : BucketId → list Record_,
    p = logical_page (q_range q) (q_after q) (q_limit q) (concat (map l bs)) ∧
    ∀ b, b ∈ bs →
      (∃ σm lm, steps σ σm ∧ steps σm σ' ∧ logical (tiers σm) b = Some lm ∧ l b ≡ₚ lm) ∧
      acked σ b ⊆+ l b ∧ l b ⊆+ acked σ' b ++ unsure σ' b.
Proof.
  intros Hinit Hsteps Hr Hlt Hlim Hbs Hpre Hlen Ha. pose proof (steps_inv _ _ (initial_inv _ Hinit) Hsteps) as Hσ.
  destruct (page_consistent d σ σ' q bs p Hσ Hr Hlt Hlim Hbs Hpre Hlen Ha) as (l & Hl & ->).
  exists l. split; [done|]. intros b Hb. by destruct (Hl b Hb) as (? & ? & ? & _).
Qed.

(** C6. Following the cursors misses nothing that was acknowledged, although the system moves between
    and during the pages: a client that asks for page after page of a range until there is none gets
    records of the range only, in strictly increasing clustering order and so each once, among
    them every record of the range that was acknowledged before it started, wherever its bucket was
    moved meanwhile; and it gets them in at most one page more than the records it received fill.
    Conditions, besides those on the range, the limit and the number of records: the adapter keeps
    the bounds of the range, and the cursors made from records ever written, as they are
    ([precise_for]: always in memory, on CockroachDB for whole microseconds); and while the client
    browses no bucket of the range holds two records of the same clustering key ([keys_unique]:
    the primary key of the database sees to it, the in-memory store leaves it to the callers, who
    must not repeat an append that may have been committed). *)
Theorem browsing_misses_nothing d σ0 (σ σ' : sys) pk range limit bs n rs :
  initial σ0 → steps σ0 σ → in_range (range_start range) → range_start range < range_end range →
  0 < limit <= usize_max → buckets_for_range d pk range = Value bs →
  (∀ after, cursor_of (written σ' bs) after →
     precise_for fidelity range after (page_capacity limit) (length (written σ' bs))) →
  Z.of_nat (length (written σ' bs)) <= usize_max → keys_unique bs σ σ' →
  browses d pk range limit n σ None rs σ' →
  strictly_sorted_by clustering rs ∧
  (∀ r, r ∈ rs → range_contains range (event_time r) = true ∧ r ∈ written σ' bs) ∧
  (∀ r, r ∈ acknowledged σ bs → range_contains range (event_time r) = true → r ∈ rs) ∧
  (Z.of_nat n - 1) * limit <= Z.of_nat (length rs).
Proof.
  intros Hinit Hsteps Hr Hlt Hlim Hbs Hpre Hlen Hu Hrun. pose proof (steps_inv _ _ (initial_inv _ Hinit) Hsteps) as Hσ.
  destruct (browses_complete d pk range limit bs Hr Hlt Hlim Hbs n σ None rs σ' Hrun Hσ (conj Hpre Hlen) Hu I) as (Hs & Hin & Hack & Hn).
  split_and!; [done| | |done].
  - intros r Hrs. destruct (Hin r Hrs) as [[Hc _]%andb_prop ?]. done.
  - intros r Hra Hc. apply Hack; [done|]. unfold in_page. by rewrite Hc.
Qed.
End query_theorems.
