(* ===== verification/Cutover.v ===== *)
(** Complete cutovers over the in-memory store: what one coordinator run leaves behind when
    nothing fails, when the upload fails, and when a replacement worker takes over an
    abandoned attempt. The archive tier is any implementation of the port; what it
    answers to the upload is a hypothesis of each theorem. *)
From S2P Require Import Prelude Chrono Model Storage MemStore Observability Prog Coordinator.
Local Open Scope Z_scope.

#[local] Arguments snapshot : simpl never.

Section cutover.
Context {F T : Type} `{ArchiveStore F T}.
Abbreviation mem_run := (run (E := Env) (S := MemState) (F := F) (T := T)).

(** The session [s] holds an unexpired lease on the entry at the clock reading [t]. *)
Definition leased (e : DurableBucketEntry) (s : ArchiveSession) (t : Z) : Prop :=
  generation e = session_generation s ∧ archive_owner_token e = Some (owner_token s) ∧
  lease_expired e t = false.

Lemma leased_valid e s t : leased e s t → validate_active_session e s t = Ok tt.
Proof. by rewrite validate_active_ok. Qed.
Lemma leased_archiving e s t : leased e s t → e_state e = Archiving →
  validate_archive_session e s Archiving t = Ok tt.
Proof. intros. rewrite validate_archive_ok, validate_active_ok. done. Qed.

(** The entry after each stage. *)
Definition with_state (st : BucketState) (e : DurableBucketEntry) : DurableBucketEntry :=
  mkEntry st (generation e) (archive_owner_token e) (archive_owner_expires_at e) (next_attempt_at e)
    (records e).
Definition cleaned (key : string) (e : DurableBucketEntry) : DurableBucketEntry :=
  mkEntry (Archived key true) (generation e) (archive_owner_token e) (archive_owner_expires_at e)
    (next_attempt_at e) [].

Section session.
Context (s : ArchiveSession) (m : MemState) (e : DurableBucketEntry).
Context (He : m !! session_bucket s = Some e).

Lemma snapshot_leased env : leased e s (validate_now env) → e_state e = Archiving →
  snapshot s env m = Ok (records e).
Proof. intros. unfold snapshot. by rewrite He, leased_archiving. Qed.
Lemma publish_leased env key : leased e s (validate_now env) → e_state e = Archiving →
  store_exec (PublishArchive s key) env m = (Ok tt, <[session_bucket s := with_state (Archived key false) e]> m).
Proof. intros. change (store_exec (PublishArchive s key) env m) with (publish_archive s key env m).
  unfold publish_archive. by rewrite He, leased_archiving. Qed.
Lemma delete_leased env key : leased e s (validate_now env) → e_state e = Archived key false →
  store_exec (DeleteHotBucket s) env m = (Ok tt, <[session_bucket s := cleaned key e]> m).
Proof. intros Hl Hs. change (store_exec (DeleteHotBucket s) env m) with (delete_hot_bucket s env m).
  unfold delete_hot_bucket. rewrite He, Hs. by rewrite leased_valid. Qed.
Lemma abort_leased env : leased e s (validate_now env) → e_state e = Archiving →
  store_exec (AbortArchive s) env m =
  (Ok tt, <[session_bucket s := mkEntry Hot (generation e) None None None (records e)]> m).
Proof. intros. change (store_exec (AbortArchive s) env m) with (abort_archive s env m).
  unfold abort_archive. by rewrite He, leased_archiving. Qed.
Lemma defer_leased env backoff retry_at : lease_deadline (deadline_now env) backoff = Ok retry_at →
  leased e s (validate_now env) → e_state e = Archiving →
  store_exec (DeferArchive s backoff) env m =
  (Ok tt, <[session_bucket s := mkEntry Hot (generation e) None None (Some retry_at) (records e)]> m).
Proof. intros Hd ? ?. change (store_exec (DeferArchive s backoff) env m) with (defer_archive s backoff env m).
  unfold defer_archive. by rewrite Hd, He, leased_archiving. Qed.
End session.

Lemma leased_with_state st e s t : leased (with_state st e) s t ↔ leased e s t.
Proof. done. Qed.

(** Runs of the two session bodies; [e] is the claimed entry and [n] the index of the next event. *)
Section body.
Context (s : ArchiveSession) (m : MemState) (t : T) (e : DurableBucketEntry).
Context (inputs : nat → input (E := Env) (F := F)) (n : nat).
Context (He : m !! session_bucket s = Some e) (Hst : e_state e = Archiving).
Context (Hlease : ∀ k, leased e s (validate_now (in_store (inputs k)))).
Context (Hquiet : ∀ k, in_failure (inputs k) = None).

Abbreviation b := (session_bucket s).
(** The upload, as the [k]-th event from here. *)
Abbreviation upload k := (archive_exec (PutBucketGeneration b (session_generation s) (records e))
  (in_archive (inputs (k + n)%nat)) t).

Lemma claimed_bucket_completes key t' : upload 2 = (Ok key, t') →
  mem_run (archive_claimed_bucket b s) inputs n (m, t) =
  (Ok (mkOutcome b key (length (records e))), (<[b := cleaned key e]> m, t')).
Proof.
  intros Hup. simpl. rewrite (snapshot_leased s m e He) by auto. simpl. rewrite Hquiet. simpl.
  cbn [Nat.add] in Hup. rewrite Hup. simpl. rewrite Hquiet. simpl.
  rewrite (publish_leased s m e He) by auto. simpl. rewrite Hquiet. simpl.
  rewrite (delete_leased s _ (with_state (Archived key false) e) (lookup_insert_eq _ _ _) _ key) by (by try apply Hlease).
  simpl. rewrite Hquiet. simpl. by rewrite insert_insert_eq.
Qed.

Lemma claimed_bucket_reopens err t' : upload 2 = (Err err, t') →
  mem_run (archive_claimed_bucket b s) inputs n (m, t) =
  (Err (ArchiveStoreError err), (<[b := mkEntry Hot (generation e) None None None (records e)]> m, t')).
Proof.
  intros Hup. simpl. rewrite (snapshot_leased s m e He) by auto. simpl. rewrite Hquiet. simpl.
  cbn [Nat.add] in Hup. rewrite Hup. simpl. rewrite Hquiet. simpl.
  rewrite (abort_leased s m e He) by auto. simpl. by rewrite Hquiet.
Qed.

Lemma recovered_cutover_completes cfg o key t' : upload 3 = (Ok key, t') →
  mem_run (recover_claimed_cutover cfg b s o) inputs n (m, t) =
  ((Ok tt, count_completed o), (<[b := cleaned key e]> m, t')).
Proof.
  intros Hup. simpl. rewrite (snapshot_leased s m e He) by auto. simpl. rewrite Hquiet. simpl.
  cbn [Nat.add] in Hup. rewrite Hup. simpl. rewrite Hquiet. simpl.
  rewrite (publish_leased s m e He) by auto. simpl. rewrite Hquiet. simpl.
  rewrite (delete_leased s _ (with_state (Archived key false) e) (lookup_insert_eq _ _ _) _ key) by (by try apply Hlease).
  simpl. rewrite Hquiet. simpl. by rewrite insert_insert_eq.
Qed.

Lemma recovered_cutover_defers cfg o err t' retry_at : upload 3 = (Err err, t') →
  lease_deadline (deadline_now (in_store (inputs (5 + n)%nat))) (cfg_retry_backoff cfg) = Ok retry_at →
  mem_run (recover_claimed_cutover cfg b s o) inputs n (m, t) =
  ((Err (RecoveryDurableStore OperationFailed), count_deferred o),
   (<[b := mkEntry Hot (generation e) None None (Some retry_at) (records e)]> m, t')).
Proof.
  intros Hup Hretry. simpl. rewrite (snapshot_leased s m e He) by auto. simpl. rewrite Hquiet. simpl.
  cbn [Nat.add] in Hup. rewrite Hup. simpl. rewrite Hquiet. simpl.
  rewrite (defer_leased s m e He _ _ retry_at) by auto. simpl. by rewrite Hquiet.
Qed.
End body.

(** Running a program and then another. *)
Lemma run_bind {A B} (p : prog A) (f : A → prog B) inputs n st :
  ∃ n', mem_run (p ≫= f) inputs n st = mem_run (f (mem_run p inputs n st).1) inputs n' (mem_run p inputs n st).2.
Proof.
  revert n st. induction p as [a|X ev k IH]; intros n st; [by exists n|].
  simpl. destruct (step_event ev (inputs n) st) as [x st'] eqn:Ex. simpl. apply IH.
Qed.

Lemma run_store {X B} (c : store_call X) (f : X → prog B) inputs n m t x m' :
  store_exec c (in_store (inputs n)) m = (x, m') →
  mem_run (store c ≫= f) inputs n (m, t) = mem_run (f x) inputs (S n) (m', t).
Proof. intros Ex. cbn [store perform mbind prog_bind run step_event fst snd]. by rewrite Ex. Qed.

Lemma run_telemetry {B} h (p : prog B) inputs n st :
  mem_run (telemetry h ≫= λ _, p) inputs n st = mem_run p inputs (S n) st.
Proof. done. Qed.

(** Starting the renewer, running the body and shutting the renewer down. *)
Lemma run_renewed {A} (s : ArchiveSession) lease interval (p : prog A) inputs n st a st' :
  mem_run p inputs (S n) st = (a, st') →
  mem_run (perform (EStartRenewer s lease interval) ≫= λ _, p ≫= λ r, perform EShutdownRenewer ≫= λ _, Ret r)
    inputs n st = (a, st').
Proof.
  intros Hp. change (mem_run (p ≫= λ r, perform EShutdownRenewer ≫= λ _, Ret r) inputs (S n) st = (a, st')).
  destruct (run_bind p (λ r, perform EShutdownRenewer ≫= λ _, Ret r) inputs (S n) st) as [n' ->].
  by rewrite Hp.
Qed.

(** A worker's program run from the start over the in-memory store and the archive. *)
Definition run_worker {A} (inputs : nat → input (E := Env) (F := F)) (p : prog A) (m : MemState) (t : T) :
    A * (MemState * T) := mem_run p inputs 0 (m, t).

(** ** Theorems *)
Section theorems.
Context (inputs : nat → input (E := Env) (F := F)) (b : BucketId) (m : MemState) (t t' : T).
Context (Hquiet : ∀ k, in_failure (inputs k) = None).
Abbreviation entry := (entry_or_default m b).
Context (Hgen : 0 <= generation entry < u64_max).

Section claim.
(** The claim is granted by the event that reads [env0]. *)
Context (env0 : Env).
Abbreviation session := (mkSession b (uuid env0) (generation entry + 1)).

(** The entry a granted claim leaves, with the lease [d]. *)
Definition claimed_entry (d : Z) : DurableBucketEntry :=
  mkEntry Archiving (generation entry + 1) (Some (uuid env0)) (Some (deadline_now env0 + d)) None
    (records entry).

Lemma claimed_leased d k : (∀ k, validate_now (in_store (inputs k)) < deadline_now env0 + d) →
  leased (claimed_entry d) session (validate_now (in_store (inputs k))).
Proof. intros Hclock. split_and!; [done..|]. apply Z.leb_gt, Hclock. Qed.

Lemma checked_add_gen : u64_checked_add (generation entry) 1 = Some (generation entry + 1).
Proof. unfold u64_checked_add. by rewrite (proj2 (Z.leb_le (generation entry + 1) u64_max)) by lia. Qed.
Lemma lease_deadline_in d : d ≠ 0 → deadline_now env0 + d <= INSTANT_MAX →
  lease_deadline (deadline_now env0) d = Ok (deadline_now env0 + d).
Proof.
  intros Hd Hmax. unfold lease_deadline, instant_checked_add.
  by rewrite (proj2 (Z.eqb_neq d 0) Hd), (proj2 (Z.leb_le _ _) Hmax).
Qed.
Lemma begin_granted : e_state entry = Hot → deadline_now env0 + 300 * 1000000000 <= INSTANT_MAX →
  store_exec (BeginArchive b) env0 m = (Ok session, <[b := claimed_entry (300 * 1000000000)]> m).
Proof.
  intros Hst Hd. change (store_exec (BeginArchive b) env0 m) with (begin_archive b env0 m).
  unfold begin_archive. rewrite Hst, checked_add_gen, lease_deadline_in by done. done.
Qed.
Lemma claim_granted d : d ≠ 0 → deadline_now env0 + d <= INSTANT_MAX →
  attempt_due entry (now env0) = true →
  e_state entry = Hot ∨ e_state entry = Archiving ∧ lease_expired entry (now env0) = true →
  store_exec (ClaimArchive b d) env0 m = (Ok (Some session), <[b := claimed_entry d]> m).
Proof.
  intros Hd Hmax Hdue Hst. change (store_exec (ClaimArchive b d) env0 m) with (claim_archive b d env0 m).
  unfold claim_archive. rewrite lease_deadline_in, Hdue, checked_add_gen by done.
  destruct Hst as [->|[-> ->]]; done.
Qed.

End claim.
Abbreviation session env0 := (mkSession b (uuid env0) (generation entry + 1)).
(** What the [k]-th event reads. *)
Abbreviation env k := (in_store (inputs k)).

(** C32. An uninterrupted direct cutover of a hot bucket completes: it uploads exactly the bucket's
    records under the new generation, publishes the returned name, deletes the mutable
    records, and reports the bucket, the name and how many records it moved. If instead the
    upload fails, the bucket is reopened with all its records and the upload's error is
    returned. *)
Theorem direct_cutover_outcome up :
  e_state entry = Hot → deadline_now (env 1) + 300 * 1000000000 <= INSTANT_MAX →
  (∀ k, validate_now (in_store (inputs k)) < deadline_now (env 1) + 300 * 1000000000) →
  archive_exec (PutBucketGeneration b (generation entry + 1) (records entry))
    (in_archive (inputs 5)) t = (up, t') →
  run_worker inputs (archive_bucket b) m t =
  match up with
  | Ok key => (Ok (mkOutcome b key (length (records entry))),
      (<[b := mkEntry (Archived key true) (generation entry + 1) (Some (uuid (env 1)))
         (Some (deadline_now (env 1) + 300 * 1000000000)) None []]> m, t'))
  | Err err => (Err (ArchiveStoreError err),
      (<[b := mkEntry Hot (generation entry + 1) None None None (records entry)]> m, t'))
  end.
Proof.
  unfold run_worker.
  intros Hst Hd Hclock Hup. unfold archive_bucket, try_. rewrite run_telemetry.
  rewrite (run_store _ _ _ _ _ _ _ _ (begin_granted _ Hst Hd)).
  destruct up as [key|err]; apply run_renewed.
  - rewrite (claimed_bucket_completes (session (env 1)) _ t (claimed_entry (env 1) (300 * 1000000000)) inputs 3
      (lookup_insert_eq _ _ _) eq_refl (λ k, claimed_leased (env 1) _ k Hclock) Hquiet key t' Hup).
    by rewrite insert_insert_eq.
  - rewrite (claimed_bucket_reopens (session (env 1)) _ t (claimed_entry (env 1) (300 * 1000000000)) inputs 3
      (lookup_insert_eq _ _ _) eq_refl (λ k, claimed_leased (env 1) _ k Hclock) Hquiet err t' Hup).
    by rewrite insert_insert_eq.
Qed.

(** C33. A recovery worker finishes a cutover it can claim, be the bucket hot or left behind by a
    worker whose lease expired: the records end up in the archive under the new generation
    and the item is counted completed; if the upload fails, the bucket is hot again with all
    its records, not to be retried before the backoff has passed, the item is counted
    deferred, and the error returned is the store's [OperationFailed], not the upload's. *)
Theorem recovered_cutover_outcome cfg o up :
  cfg_lease_for cfg ≠ 0 → deadline_now (env 0) + cfg_lease_for cfg <= INSTANT_MAX →
  (∀ k, validate_now (in_store (inputs k)) < deadline_now (env 0) + cfg_lease_for cfg) →
  attempt_due entry (now (env 0)) = true →
  e_state entry = Hot ∨ e_state entry = Archiving ∧ lease_expired entry (now (env 0)) = true →
  cfg_retry_backoff cfg ≠ 0 →
  deadline_now (env 8) + cfg_retry_backoff cfg <= INSTANT_MAX →
  archive_exec (PutBucketGeneration b (generation entry + 1) (records entry))
    (in_archive (inputs 6)) t = (up, t') →
  run_worker inputs (recover_cutover cfg b o) m t =
  match up with
  | Ok key => ((Ok tt, count_completed (count_claimed o)),
      (<[b := mkEntry (Archived key true) (generation entry + 1) (Some (uuid (env 0)))
         (Some (deadline_now (env 0) + cfg_lease_for cfg)) None []]> m, t'))
  | Err _ => ((Err (RecoveryDurableStore OperationFailed), count_deferred (count_claimed o)),
      (<[b := mkEntry Hot (generation entry + 1) None None
         (Some (deadline_now (env 8) + cfg_retry_backoff cfg)) (records entry)]> m, t'))
  end.
Proof.
  unfold run_worker.
  intros Hl Hd Hclock Hdue Hst Hb Hretry Hup. unfold recover_cutover, with_claim.
  rewrite (run_store _ _ _ _ _ _ _ _ (claim_granted _ _ Hl Hd Hdue Hst)).
  destruct up as [key|err]; rewrite run_telemetry; apply run_renewed.
  - rewrite (recovered_cutover_completes (session (env 0)) _ t (claimed_entry (env 0) (cfg_lease_for cfg)) inputs 3
      (lookup_insert_eq _ _ _) eq_refl (λ k, claimed_leased (env 0) _ k Hclock) Hquiet cfg _ key t' Hup).
    by rewrite insert_insert_eq.
  - rewrite (recovered_cutover_defers (session (env 0)) _ t (claimed_entry (env 0) (cfg_lease_for cfg)) inputs 3
      (lookup_insert_eq _ _ _) eq_refl (λ k, claimed_leased (env 0) _ k Hclock) Hquiet cfg _ err t'
      (deadline_now (env 8) + cfg_retry_backoff cfg) Hup).
    + by rewrite insert_insert_eq.
    + cbn [Nat.add]. unfold lease_deadline, instant_checked_add.
      by rewrite (proj2 (Z.eqb_neq _ 0) Hb), (proj2 (Z.leb_le _ _) Hretry).
Qed.
End theorems.
End cutover.
