(* ===== verification/Cockroach.v ===== *)
(** The CockroachDB store (src/adapters/cockroach_durable.rs,
    [CockroachDurableBucketStore]).

    The database is its two tables: bucket metadata keyed by its primary key, and records
    keyed by the rest of theirs under it. Every SQL statement of the adapter is a function
    on them, with SQL's treatment of NULL written out; an inserted or updated row that
    violates the table's CHECK constraint or leaves the range of INT8 is a database error.
    The database itself, the driver and the network are not in the repository: an [attempt]
    says what they do to one try of a transaction (errors, timeouts, a COMMIT whose outcome
    is lost), and the retry loop of [transaction] is run against any sequence of them.
    Several processes share the database; each has its own [RouteCache]. *)
From S2P Require Import Prelude Chrono Model Schema Storage.
Local Open Scope Z_scope.

(** The driver's conversion of timestamps to the column type, and the two [chrono] operations
    of the lease computation. *)
Class Driver := {
  timestamptz : Z → Z;
  duration_from_std : Z → option Z;
  checked_add_signed : Z → Z → option Z
}.
(** The column type keeps whole microseconds. *)
Class DriverLaws `{Driver} : Prop :=
  timestamptz_whole : ∀ t, t mod 1000 = 0 → timestamptz t = t.

(** ** The database *)
Abbreviation MetaKey := (string * list byte * string)%type.

Record MetaRow := mkMeta {
  m_strategy : string;
  m_start : Z;
  m_end : Z;
  m_state : string;
  m_generation : Z;
  m_owner : option string;
  m_expires : option Z;
  m_object_key : option string;
  m_hot_deleted : bool;
  m_attempts : Z;
  m_next : option Z
}.

Record Db := mkDb {
  metadata : gmap MetaKey MetaRow;
  rows : gmap MetaKey (gmap (Z * list byte) (list byte))
}.

Definition key_of (b : BucketId) : MetaKey := (table_id b, partition_key b, key b).

(** The CHECK constraints of the metadata table, and the range of its INT8 columns. *)
Definition is_null {A} (o : option A) : bool := match o with None => true | Some _ => false end.
Definition meta_check (r : MetaRow) : bool :=
  bool_decide (m_state r ∈ ["hot"; "archiving"; "archived"]) &&
  (0 <=? m_generation r) && (m_start r <? m_end r) &&
  ((bool_decide (m_state r = "hot") && is_null (m_owner r) && is_null (m_expires r) &&
      is_null (m_object_key r) && negb (m_hot_deleted r)) ||
   (bool_decide (m_state r = "archiving") && negb (is_null (m_owner r)) && negb (is_null (m_expires r)) &&
      is_null (m_object_key r) && negb (m_hot_deleted r)) ||
   (bool_decide (m_state r = "archived") && negb (is_null (m_owner r)) && negb (is_null (m_object_key r)))).
Definition int8_range (r : MetaRow) : bool :=
  (m_generation r <=? i64_max) && (m_attempts r <=? i64_max).

(** ** Failures *)
(** A failed database operation carries whether it is a serialization failure (40001). *)
Inductive TransactionFailure :=
  | TxDatabase (retryable : bool)
  | TxStore (e : DurableBucketStoreError).

Definition into_store_error (f : TransactionFailure) : DurableBucketStoreError :=
  match f with TxDatabase _ => OperationFailed | TxStore e => e end.

(** ** Statements *)
(** A statement or a sequence of them inside a transaction. *)
Abbreviation Tx A := (Db → Result TransactionFailure (A * Db)).

Definition tx_ret {A} (a : A) : Tx A := λ db, Ok (a, db).
Definition tx_fail {A} (e : DurableBucketStoreError) : Tx A := λ _, Err (TxStore e).
Definition tx_bind {A B} (t : Tx A) (k : A → Tx B) : Tx B := λ db,
  match t db with Ok (a, db) => k a db | Err e => Err e end.

Definition write_row (k : MetaKey) (r : MetaRow) : Tx unit := λ db,
  if meta_check r && int8_range r then Ok (tt, mkDb (<[k := r]> (metadata db)) (rows db))
  else Err (TxDatabase false).

(** [UPDATE ... SET set WHERE <primary key> AND cond RETURNING *] *)
Definition update_row (k : MetaKey) (cond : MetaRow → bool) (set : MetaRow → MetaRow) : Tx (option MetaRow) :=
  λ db, match metadata db !! k with
  | None => Ok (None, db)
  | Some r => if cond r then tx_bind (write_row k (set r)) (λ _, tx_ret (Some (set r))) db else Ok (None, db)
  end.

(** Comparisons with a nullable column: NULL is neither. *)
Definition sql_le (o : option Z) (t : Z) : bool := match o with Some x => x <=? t | None => false end.
Definition sql_gt (o : option Z) (t : Z) : bool := match o with Some x => t <? x | None => false end.
Definition null_or_le (o : option Z) (t : Z) : bool := match o with Some x => x <=? t | None => true end.

(** [AND generation = $3 AND archive_owner_token = $4 AND archive_owner_expires_at > now()] *)
Definition owned (now : Z) (generation : Z) (token : string) (r : MetaRow) : bool :=
  (m_generation r =? generation) && bool_decide (m_owner r = Some token) && sql_gt (m_expires r) now.

Definition metadata_state (r : MetaRow) : Result DurableBucketStoreError BucketState :=
  if bool_decide (m_state r = "hot") then
    if is_null (m_owner r) && is_null (m_expires r) && is_null (m_object_key r) && negb (m_hot_deleted r)
    then Ok Hot else Err OperationFailed
  else if bool_decide (m_state r = "archiving") then
    if negb (is_null (m_owner r)) && negb (is_null (m_expires r)) && is_null (m_object_key r)
       && negb (m_hot_deleted r)
    then Ok Archiving else Err OperationFailed
  else if bool_decide (m_state r = "archived") then
    if negb (is_null (m_owner r)) then
      match m_object_key r with Some k => Ok (Archived k (m_hot_deleted r)) | None => Err OperationFailed end
    else Err OperationFailed
  else Err OperationFailed.

Definition state_from_metadata (b : BucketId) : Tx (option BucketState) := λ db,
  match metadata db !! key_of b with
  | None => Ok (None, db)
  | Some r => match metadata_state r with Ok s => Ok (Some s, db) | Err e => Err (TxStore e) end
  end.

(** The rows of one bucket as records. *)
Definition row_record (pk : list byte) (p : (Z * list byte) * list byte) : Record_ :=
  mkRecord pk p.1.1 p.1.2 p.2.
Definition bucket_rows (db : Db) (b : BucketId) : list Record_ :=
  map (row_record (partition_key b)) (map_to_list (default ∅ (rows db !! key_of b))).

Section statements.
Context `{Driver}.

(** [INSERT INTO metadata ... ON CONFLICT DO NOTHING], the other columns at their defaults. *)
Definition fresh_row (b : BucketId) : MetaRow :=
  mkMeta (strategy_as_str (strategy b)) (timestamptz (start b)) (timestamptz (end_ b)) "hot" 0 None None
    None false 0 None.
Definition insert_metadata (b : BucketId) : Tx unit := λ db,
  match metadata db !! key_of b with
  | Some _ => Ok (tt, db)
  | None => write_row (key_of b) (fresh_row b) db
  end.

(** [SELECT 1 FROM metadata WHERE table_id = $1 AND bucket_strategy != $2 LIMIT 1] *)
Definition strategy_conflict (b : BucketId) (db : Db) : bool :=
  existsb (λ p : MetaKey * MetaRow, bool_decide (p.1.1.1 = table_id b) &&
    negb (bool_decide (m_strategy p.2 = strategy_as_str (strategy b)))) (map_to_list (metadata db)).

(** [INSERT INTO records]: a duplicate primary key or a missing parent row is an error. *)
Definition insert_record (b : BucketId) (r : Record_) : Tx unit := λ db,
  let k := (table_id b, r_partition_key r, key b) in
  let bucket := default ∅ (rows db !! k) in
  let pk := (timestamptz (event_time r), sort_key r) in
  match metadata db !! k, bucket !! pk with
  | Some _, None => Ok (tt, mkDb (metadata db) (<[k := <[pk := value r]> bucket]> (rows db)))
  | _, _ => Err (TxDatabase false)
  end.

(** ** The transactions of the methods; [now] is the transaction's timestamp *)
Definition append_tx (b : BucketId) (r : Record_) (now : Z) : Tx unit := λ db,
  if strategy_conflict b db then Err (TxStore BucketStrategyMismatch)
  else tx_bind (insert_metadata b) (λ _,
       tx_bind (state_from_metadata b) (λ state,
       match state with
       | None => tx_fail OperationFailed
       | Some s => if bool_decide (s = Hot) then insert_record b r else tx_fail (BucketReadOnly s)
       end)) db.

Definition claimable (now : Z) (r : MetaRow) : bool :=
  bool_decide (m_state r = "hot") || (bool_decide (m_state r = "archiving") && sql_le (m_expires r) now).

Definition claim_archive_tx (b : BucketId) (token : string) (expires_at : Z) (now : Z) :
    Tx (option ArchiveSession) :=
  tx_bind (update_row (key_of b)
    (λ r, null_or_le (m_next r) now && claimable now r)
    (λ r, mkMeta (m_strategy r) (m_start r) (m_end r) "archiving" (m_generation r + 1) (Some token)
       (Some expires_at) None false (m_attempts r) None)) (λ row,
  tx_ret ((λ r, mkSession b token (m_generation r mod 2 ^ 64)) <$> row)).

Definition claim_cleanup_tx (b : BucketId) (token : string) (expires_at : Z) (now : Z) :
    Tx (option ArchiveSession) :=
  tx_bind (update_row (key_of b)
    (λ r, bool_decide (m_state r = "archived") && negb (m_hot_deleted r) &&
          null_or_le (m_next r) now && null_or_le (m_expires r) now)
    (λ r, mkMeta (m_strategy r) (m_start r) (m_end r) (m_state r) (m_generation r + 1) (Some token)
       (Some expires_at) (m_object_key r) (m_hot_deleted r) (m_attempts r) None)) (λ row,
  tx_ret ((λ r, mkSession b token (m_generation r mod 2 ^ 64)) <$> row)).

(** [if updated == 1 { Ok(()) } else { Err(StaleArchiveSession) }] *)
Definition update_one (k : MetaKey) (cond : MetaRow → bool) (set : MetaRow → MetaRow) : Tx unit :=
  tx_bind (update_row k cond set) (λ row,
  match row with Some _ => tx_ret tt | None => tx_fail StaleArchiveSession end).

Definition renew_tx (s : ArchiveSession) (expires_at : Z) (now : Z) : Tx unit :=
  update_one (key_of (session_bucket s))
    (λ r, owned now (session_generation s) (owner_token s) r &&
       (bool_decide (m_state r = "archiving") ||
        (bool_decide (m_state r = "archived") && negb (m_hot_deleted r))))
    (λ r, mkMeta (m_strategy r) (m_start r) (m_end r) (m_state r) (m_generation r) (m_owner r)
       (Some expires_at) (m_object_key r) (m_hot_deleted r) (m_attempts r) (m_next r)).

Definition archiving_owned (s : ArchiveSession) (now : Z) (r : MetaRow) : bool :=
  bool_decide (m_state r = "archiving") && owned now (session_generation s) (owner_token s) r.
Definition cleanup_owned (s : ArchiveSession) (now : Z) (r : MetaRow) : bool :=
  bool_decide (m_state r = "archived") && negb (m_hot_deleted r) &&
  owned now (session_generation s) (owner_token s) r.

Definition defer_archive_tx (s : ArchiveSession) (retry_at : Z) (now : Z) : Tx unit :=
  update_one (key_of (session_bucket s)) (archiving_owned s now)
    (λ r, mkMeta (m_strategy r) (m_start r) (m_end r) "hot" (m_generation r) None None None false
       (m_attempts r + 1) (Some retry_at)).

Definition defer_cleanup_tx (s : ArchiveSession) (retry_at : Z) (now : Z) : Tx unit :=
  update_one (key_of (session_bucket s)) (cleanup_owned s now)
    (λ r, mkMeta (m_strategy r) (m_start r) (m_end r) (m_state r) (m_generation r) (m_owner r)
       (Some retry_at) (m_object_key r) (m_hot_deleted r) (m_attempts r + 1) (Some retry_at)).

(** [now() + INTERVAL '5 minutes'] *)
Definition begin_archive_tx (b : BucketId) (token : string) (now : Z) : Tx ArchiveSession :=
  tx_bind (insert_metadata b) (λ _,
  tx_bind (update_row (key_of b) (claimable now)
    (λ r, mkMeta (m_strategy r) (m_start r) (m_end r) "archiving" (m_generation r + 1) (Some token)
       (Some (now + 300 * 1000000000)) None false (m_attempts r) (m_next r))) (λ row,
  match row with
  | Some r => if 0 <=? m_generation r then tx_ret (mkSession b token (m_generation r))
              else tx_fail OperationFailed
  | None => tx_bind (state_from_metadata b) (λ state,
      match state with None => tx_fail OperationFailed | Some s => tx_fail (ArchiveNotAllowed s) end)
  end)).

Definition snapshot_tx (s : ArchiveSession) (now : Z) : Tx (list Record_) := λ db,
  match metadata db !! key_of (session_bucket s) with
  | Some r => if archiving_owned s now r
              then Ok (sort_by clustering (bucket_rows db (session_bucket s)), db)
              else Err (TxStore StaleArchiveSession)
  | None => Err (TxStore StaleArchiveSession)
  end.

Definition publish_tx (s : ArchiveSession) (object_key : string) (now : Z) : Tx unit :=
  update_one (key_of (session_bucket s)) (archiving_owned s now)
    (λ r, mkMeta (m_strategy r) (m_start r) (m_end r) "archived" (m_generation r) (m_owner r)
       (m_expires r) (Some object_key) false (m_attempts r) (m_next r)).

(** [DELETE FROM records ... AND EXISTS (SELECT 1 FROM metadata WHERE owner)], then the update. *)
Definition delete_rows (s : ArchiveSession) (now : Z) : Tx unit := λ db,
  match metadata db !! key_of (session_bucket s) with
  | Some r => if cleanup_owned s now r
              then Ok (tt, mkDb (metadata db) (delete (key_of (session_bucket s)) (rows db)))
              else Ok (tt, db)
  | None => Ok (tt, db)
  end.
Definition delete_hot_bucket_tx (s : ArchiveSession) (now : Z) : Tx unit :=
  tx_bind (delete_rows s now) (λ _,
  update_one (key_of (session_bucket s)) (cleanup_owned s now)
    (λ r, mkMeta (m_strategy r) (m_start r) (m_end r) (m_state r) (m_generation r) (m_owner r)
       (m_expires r) (m_object_key r) true (m_attempts r) (m_next r))).

Definition abort_tx (s : ArchiveSession) (now : Z) : Tx unit :=
  update_one (key_of (session_bucket s)) (archiving_owned s now)
    (λ r, mkMeta (m_strategy r) (m_start r) (m_end r) "hot" (m_generation r) None None None false
       (m_attempts r) (m_next r)).
End statements.

(** ** The transaction retry loop *)
Definition MAX_TRANSACTION_ATTEMPTS : nat := 5.

(** What COMMIT reports: success; a serialization failure; another database error, after which
    the transaction may (an ambiguous-result code) or may not have been applied; no complete
    response within the time limit, or a broken connection. *)
Inductive commit_report :=
  | Committed
  | CommitConflict
  | CommitRejected (applied : bool)
  | CommitLost (applied : bool).

(** What happens to one attempt: no connection; BEGIN fails or times out; the statements time
    out; or they run at the timestamp [now], one of them possibly failing with a database
    error, a ROLLBACK succeeding or not, and COMMIT reporting as given. *)
Inductive attempt :=
  | AcquireFailed
  | BeginFailed (retryable : bool)
  | BeginTimedOut
  | OperationTimedOut
  | Ran (now : Z) (fault : option bool) (rolled_back : bool) (report : commit_report).

(** The body of [for attempt in 0..MAX_TRANSACTION_ATTEMPTS]; [remaining] attempts are left. *)
Fixpoint transaction_loop {A} (remaining : nat) (operation : Z → Tx A) (plan : nat → attempt) (db : Db) :
    Result DurableBucketStoreError A * Db :=
  match remaining with
  | O => (Err OperationFailed, db)
  | S remaining =>
    let retry (allowed : bool) (e : DurableBucketStoreError) :=
      if allowed && negb (remaining =? 0)%nat then transaction_loop remaining operation plan db else (Err e, db) in
    match plan remaining with
    | AcquireFailed => (Err Unavailable, db)
    | BeginFailed retryable => retry retryable OperationFailed
    | BeginTimedOut => (Err OperationFailed, db)
    | OperationTimedOut => (Err OperationFailed, db)
    | Ran now fault rolled_back report =>
      match (match fault with Some retryable => Err (TxDatabase retryable) | None => operation now db end) with
      | Ok (value, db') =>
        match report with
        | Committed => (Ok value, db')
        | CommitConflict => retry true OperationFailed
        | CommitRejected applied => (Err OperationFailed, if applied then db' else db)
        | CommitLost applied => (Err CommitOutcomeUnknown, if applied then db' else db)
        end
      | Err (TxDatabase true) => retry rolled_back OperationFailed
      | Err error => (Err (into_store_error error), db)
      end
    end
  end.
Definition transaction {A} (operation : Z → Tx A) (plan : nat → attempt) (db : Db) :
    Result DurableBucketStoreError A * Db :=
  transaction_loop MAX_TRANSACTION_ATTEMPTS operation plan db.

(** [transaction_retry_delay], in milliseconds; [sample] is the 16-bit random sample. *)
Definition transaction_retry_delay (attempt sample : Z) : Z :=
  let multiplier := Z.shiftl 1 (Z.min attempt 5) in
  let cap_millis := Z.min (Z.min (25 * multiplier) u64_max) 1000 in
  let half := cap_millis / 2 in
  half + sample mod (half + 1).

(** ** The route cache *)
Definition ROUTE_CACHE_MAX_ENTRIES : nat := 4096.
Record CachedArchiveEntry := mkCached { cached_key : string; observed_at : Z }.
Abbreviation RouteCache := (gmap BucketId CachedArchiveEntry).

Definition cached_archived (c : RouteCache) (b : BucketId) : option string := cached_key <$> c !! b.

(** [iter().min_by_key(observed_at)] *)
Definition earlier (p q : BucketId * CachedArchiveEntry) : BucketId * CachedArchiveEntry :=
  if observed_at q.2 <? observed_at p.2 then q else p.
Definition oldest_bucket (c : RouteCache) : option BucketId :=
  match map_to_list c with [] => None | p :: l => Some (foldl earlier p l).1 end.

Definition cache_archive_at (c : RouteCache) (b : BucketId) (object_key : string) (at_ : Z) : RouteCache :=
  let c' :=
    match c !! b with
    | Some _ => c
    | None => if (ROUTE_CACHE_MAX_ENTRIES <=? size c)%nat then
                match oldest_bucket c with Some o => delete o c | None => c end
              else c
    end in
  <[b := mkCached object_key at_]> c'.

Definition route_invalidate (c : RouteCache) (b : BucketId) : RouteCache := delete b c.

(** ** Reads *)
Definition routed_read_from_snapshot (state : string) (object_key : option string) (records : list Record_) :
    Result DurableBucketStoreError DurableBucketRead :=
  if bool_decide (state = "hot") || bool_decide (state = "archiving") then
    match object_key with None => Ok (ReadHot records) | Some _ => Err OperationFailed end
  else if bool_decide (state = "archived") then
    match records, object_key with
    | [], Some k => Ok (ReadArchive k)
    | _, _ => Err OperationFailed
    end
  else Err OperationFailed.

Definition bucket_from_row (k : MetaKey) (r : MetaRow) : Result DurableBucketStoreError BucketId :=
  match TableId_new k.1.1, strategy_from_str (m_strategy r), BucketKey_new k.2 with
  | Ok tid, Ok s, Ok bk => Ok (mkBucketId tid k.1.2 s bk (m_start r) (m_end r))
  | _, _, _ => Err OperationFailed
  end.

Definition limit_i64 (limit : Z) : Z := if limit <=? i64_max then limit else i64_max.

Section reads.
Context `{Driver}.

(** The routed statement: the route (hot when there is no metadata), and unless it is archived
    the bounded, ordered page of rows in the half-open range and after the cursor. *)
Definition routed_rows (b : BucketId) (range : TimeRange) (after : option Cursor) (limit : Z) (db : Db) :
    string * option string * list Record_ :=
  let route := match metadata db !! key_of b with
    | Some r => (m_state r, m_object_key r)
    | None => ("hot", None)
    end in
  let keep (r : Record_) :=
    (timestamptz (range_start range) <=? event_time r) && (event_time r <? timestamptz (range_end range)) &&
    match after with
    | Some c => ltb (timestamptz (c_event_time c), c_sort_key c) (clustering r)
    | None => true
    end in
  let hot := if bool_decide (route.1 = "archived") then []
    else take (Z.to_nat limit) (sort_by clustering (filter (λ r, Is_true (keep r)) (bucket_rows db b))) in
  (route.1, route.2, hot).

(** [ORDER BY bucket_end, table_id, partition_key, bucket_key] *)
Definition discovery_order (p : MetaKey * MetaRow) : Z * (string * (list byte * string)) :=
  (m_end p.2, (p.1.1.1, (p.1.1.2, p.1.2))).
Definition select_work (cond : MetaRow → bool) (limit : Z) (db : Db) : list (MetaKey * MetaRow) :=
  take (Z.to_nat limit) (sort_by discovery_order (filter (λ p, Is_true (cond p.2)) (map_to_list (metadata db)))).

Definition cleanup_pending (now : Z) (r : MetaRow) : bool :=
  bool_decide (m_state r = "archived") && negb (m_hot_deleted r) &&
  null_or_le (m_next r) now && null_or_le (m_expires r) now.
Definition cutover_pending (cutoff now : Z) (r : MetaRow) : bool :=
  (m_end r <=? cutoff) && null_or_le (m_next r) now && claimable now r.

(** [into_iter().map(...).collect::<Result<Vec<_>, _>>()] *)
Fixpoint collect_work (w : BucketId → ArchiveWork) (l : list (MetaKey * MetaRow)) :
    Result DurableBucketStoreError (list ArchiveWork) :=
  match l with
  | [] => Ok []
  | p :: l =>
    match bucket_from_row p.1 p.2 with
    | Err e => Err e
    | Ok b => match collect_work w l with Ok ws => Ok (w b :: ws) | Err e => Err e end
    end
  end.

Definition archive_lease_expiry (lease_for utc_now : Z) : Result DurableBucketStoreError Z :=
  if lease_for =? 0 then Err OperationFailed
  else match duration_from_std lease_for with
  | None => Err OperationFailed
  | Some d => ok_or (checked_add_signed utc_now d) OperationFailed
  end.

(** [i64::try_from(session.generation())] *)
Definition generation_i64 (g : Z) : Result DurableBucketStoreError Z :=
  if g <=? i64_max then Ok g else Err OperationFailed.
End reads.

(** ** The trait implementation *)
(** What a call reads from outside: the calling process and its clocks, the fresh token, what
    happens to its transaction's attempts, and for the methods that query outside a
    transaction whether each statement fails and its timestamp. *)
Inductive query_fault := NoConnection | QueryError.
Record CrEnv := mkCrEnv {
  process : nat;
  utc_now : Z;
  instant_now : Z;
  new_token : string;
  plan : nat → attempt;
  query_outcome : nat → option query_fault;
  query_now : nat → Z
}.

Record CrState := mkCr { db : Db; caches : gmap nat RouteCache }.

Section methods.
Context `{Driver}.

Definition cache_of (env : CrEnv) (s : CrState) : RouteCache := default ∅ (caches s !! process env).
Definition set_cache (env : CrEnv) (c : RouteCache) (s : CrState) : CrState :=
  mkCr (db s) (<[process env := c]> (caches s)).
Definition invalidate (b : BucketId) (env : CrEnv) (s : CrState) : CrState :=
  set_cache env (route_invalidate (cache_of env s) b) s.

Definition run_tx {A} (operation : Z → Tx A) (env : CrEnv) (s : CrState) :
    Result DurableBucketStoreError A * CrState :=
  let '(res, d) := transaction operation (plan env) (db s) in (res, mkCr d (caches s)).

(** Invalidate the route once the transaction has succeeded. *)
Definition then_invalidate {A} (b : BucketId) (env : CrEnv) (res : Result DurableBucketStoreError A * CrState) :
    Result DurableBucketStoreError A * CrState :=
  match res with
  | (Ok a, s) => (Ok a, invalidate b env s)
  | (Err e, s) => (Err e, s)
  end.

(** A method that first converts the session's generation. *)
Definition with_generation {A} (ses : ArchiveSession) (k : Result DurableBucketStoreError A * CrState)
    (s : CrState) : Result DurableBucketStoreError A * CrState :=
  match generation_i64 (session_generation ses) with Err e => (Err e, s) | Ok _ => k end.

(** A method that needs a lease deadline. *)
Definition with_expiry {A} (lease_for : Z) (env : CrEnv)
    (k : Z → Result DurableBucketStoreError A * CrState) (s : CrState) :
    Result DurableBucketStoreError A * CrState :=
  match archive_lease_expiry lease_for (utc_now env) with
  | Err e => (Err e, s)
  | Ok expires_at => k (timestamptz expires_at)
  end.

Definition query_result {A} (n : nat) (env : CrEnv) (a : A) : Result DurableBucketStoreError A :=
  match query_outcome env n with
  | None => Ok a
  | Some NoConnection => Err Unavailable
  | Some QueryError => Err OperationFailed
  end.

Definition cr_append (b : BucketId) (r : Record_) (env : CrEnv) (s : CrState) :=
  run_tx (append_tx b r) env s.

Definition cr_state (b : BucketId) (env : CrEnv) (s : CrState) : Result DurableBucketStoreError BucketState :=
  match query_result 0 env (metadata (db s) !! key_of b) with
  | Err e => Err e
  | Ok None => Ok Hot
  | Ok (Some r) => metadata_state r
  end.

(** Discovery is two statements outside a transaction, so the database may change between them:
    the first sees [d1], the second [d2]. The second only runs when the first left room, and
    cannot lack a connection. *)
Definition discover_on (scan : ArchiveScan) (env : CrEnv) (d1 d2 : Db) :
    Result DurableBucketStoreError (list ArchiveWork) :=
  let limit := scan_limit scan in
  cleanup_rows ← query_result 0 env (select_work (cleanup_pending (query_now env 0)) limit d1);
  work ← collect_work Cleanup cleanup_rows;
  let remaining := Z.max (limit - Z.of_nat (length work)) i64_min in
  if remaining =? 0 then Ok work
  else
    cutover_rows ← match query_result 1 env (select_work (cutover_pending
        (timestamptz (eligible_before scan)) (query_now env 1)) remaining d2) with
      | Ok l => Ok l | Err _ => Err OperationFailed end;
    cutover ← collect_work Cutover cutover_rows;
    Ok (work ++ cutover).
Definition cr_discover (scan : ArchiveScan) (env : CrEnv) (s : CrState) :
    Result DurableBucketStoreError (list ArchiveWork) := discover_on scan env (db s) (db s).

Definition cr_claim_archive (b : BucketId) (lease_for : Z) (env : CrEnv) (s : CrState) :=
  with_expiry lease_for env (λ expires_at,
    let '(res, s) := run_tx (claim_archive_tx b (new_token env) expires_at) env s in
    match res with
    | Ok (Some ses) => (Ok (Some ses), invalidate (session_bucket ses) env s)
    | res => (res, s)
    end) s.

Definition cr_claim_cleanup (b : BucketId) (lease_for : Z) (env : CrEnv) (s : CrState) :=
  with_expiry lease_for env (λ expires_at, run_tx (claim_cleanup_tx b (new_token env) expires_at) env s) s.

Definition cr_renew (ses : ArchiveSession) (lease_for : Z) (env : CrEnv) (s : CrState) :=
  with_generation ses (with_expiry lease_for env (λ expires_at, run_tx (renew_tx ses expires_at) env s) s) s.

Definition cr_defer_archive (ses : ArchiveSession) (retry_after : Z) (env : CrEnv) (s : CrState) :=
  with_generation ses (with_expiry retry_after env (λ retry_at,
    then_invalidate (session_bucket ses) env (run_tx (defer_archive_tx ses retry_at) env s)) s) s.

Definition cr_defer_cleanup (ses : ArchiveSession) (retry_after : Z) (env : CrEnv) (s : CrState) :=
  with_generation ses (with_expiry retry_after env (λ retry_at,
    run_tx (defer_cleanup_tx ses retry_at) env s) s) s.

Definition cr_read_range (b : BucketId) (range : TimeRange) (after : option Cursor) (limit : Z)
    (env : CrEnv) (s : CrState) : Result DurableBucketStoreError DurableBucketRead * CrState :=
  match cached_archived (cache_of env s) b with
  | Some object_key => (Ok (ReadArchive object_key), s)
  | None =>
    match query_result 0 env (routed_rows b range after (limit_i64 limit) (db s)) with
    | Err e => (Err e, s)
    | Ok (state, object_key, records) =>
      match routed_read_from_snapshot state object_key records with
      | Ok (ReadArchive k) => (Ok (ReadArchive k),
          set_cache env (cache_archive_at (cache_of env s) b k (instant_now env)) s)
      | res => (res, s)
      end
    end
  end.

Definition cr_begin_archive (b : BucketId) (env : CrEnv) (s : CrState) :=
  then_invalidate b env (run_tx (begin_archive_tx b (new_token env)) env s).

Definition cr_snapshot (ses : ArchiveSession) (env : CrEnv) (s : CrState) :=
  with_generation ses (run_tx (snapshot_tx ses) env s) s.

Definition cr_publish (ses : ArchiveSession) (object_key : string) (env : CrEnv) (s : CrState) :=
  with_generation ses
    (then_invalidate (session_bucket ses) env (run_tx (publish_tx ses object_key) env s)) s.

Definition cr_delete (ses : ArchiveSession) (env : CrEnv) (s : CrState) :=
  with_generation ses (run_tx (delete_hot_bucket_tx ses) env s) s.

Definition cr_abort (ses : ArchiveSession) (env : CrEnv) (s : CrState) :=
  with_generation ses
    (then_invalidate (session_bucket ses) env (run_tx (abort_tx ses) env s)) s.

#[export] Instance CockroachDurableBucketStore : DurableBucketStore CrEnv CrState := λ X c,
  match c in store_call X return CrEnv → CrState → X * CrState with
  | Append b r => cr_append b r
  | State b => λ env s, (cr_state b env s, s)
  | DiscoverArchiveWork scan => λ env s, (cr_discover scan env s, s)
  | ClaimArchive b lease_for => cr_claim_archive b lease_for
  | ClaimCleanup b lease_for => cr_claim_cleanup b lease_for
  | RenewArchiveLease ses lease_for => cr_renew ses lease_for
  | DeferArchive ses retry_after => cr_defer_archive ses retry_after
  | DeferCleanup ses retry_after => cr_defer_cleanup ses retry_after
  | ReadRange b range after limit => cr_read_range b range after limit
  | BeginArchive b => cr_begin_archive b
  | Snapshot ses => cr_snapshot ses
  | PublishArchive ses object_key => cr_publish ses object_key
  | DeleteHotBucket ses => cr_delete ses
  | AbortArchive ses => cr_abort ses
  end.
End methods.

(** ** Invariant and view *)
Definition state_of (r : MetaRow) : BucketState :=
  match metadata_state r with Ok st => st | Err _ => Hot end.

Definition db_entry (d : Db) (b : BucketId) : AEntry :=
  match metadata d !! key_of b with
  | Some r => mkAEntry (state_of r) (m_generation r) (m_owner r) (bucket_rows d b)
  | None => mkAEntry Hot 0 None (bucket_rows d b)
  end.

Section invariant.
Context `{Chrono, Driver}.

(** A row satisfies its table's constraints and describes a bucket the library derived. *)
Record row_ok (k : MetaKey) (r : MetaRow) : Prop := {
  row_check : meta_check r = true;
  row_range : int8_range r = true;
  row_bucket : ∃ b, canonical b ∧ k = key_of b ∧
    m_strategy r = strategy_as_str (strategy b) ∧ m_start r = start b ∧ m_end r = end_ b
}.
Definition db_ok (d : Db) : Prop := map_Forall row_ok (metadata d).

(** A cached route is the route the database has. *)
Definition route_ok (d : Db) (c : RouteCache) : Prop := map_Forall (λ b e,
  canonical b ∧ ∃ del, a_state (db_entry d b) = Archived (cached_key e) del) c.

Definition cr_inv (s : CrState) : Prop :=
  db_ok (db s) ∧
  map_Forall (λ _ c, route_ok (db s) c ∧ (size c <= ROUTE_CACHE_MAX_ENTRIES)%nat) (caches s).
End invariant.

Definition cr_fidelity `{Driver} : Fidelity := mkFidelity timestamptz limit_i64.

(** ** Lemmas *)
(** The three shapes a row that satisfies its constraints can have. *)
Lemma meta_check_cases r : meta_check r = true →
  (m_state r = "hot" ∧ m_owner r = None ∧ m_expires r = None ∧ m_object_key r = None ∧
     m_hot_deleted r = false ∧ metadata_state r = Ok Hot) ∨
  (m_state r = "archiving" ∧ is_Some (m_owner r) ∧ is_Some (m_expires r) ∧ m_object_key r = None ∧
     m_hot_deleted r = false ∧ metadata_state r = Ok Archiving) ∨
  (m_state r = "archived" ∧ is_Some (m_owner r) ∧
     ∃ k, m_object_key r = Some k ∧ metadata_state r = Ok (Archived k (m_hot_deleted r))).
Proof.
  destruct r as [strat st en state gen owner expires obj del att next].
  unfold meta_check, metadata_state. simpl. intros Hc. zbool.
  repeat match goal with Hor : (_ || _)%bool = true |- _ => apply orb_prop in Hor as [Hor|Hor] end; zbool;
    subst; simpl in *; destruct owner, expires, obj; try done.
  all: try (left; by split_and!). all: try (right; left; by split_and!; eauto).
  all: right; right; split_and!; eauto.
Qed.
Lemma state_of_row r : meta_check r = true →
  (state_of r = Hot ↔ m_state r = "hot") ∧ (state_of r = Archiving ↔ m_state r = "archiving") ∧
  (∀ k d, state_of r = Archived k d ↔ m_state r = "archived" ∧ m_object_key r = Some k ∧ m_hot_deleted r = d).
Proof.
  intros Hc. unfold state_of.
  destruct (meta_check_cases r Hc) as [(Es & ? & ? & ? & ? & ->)|[(Es & ? & ? & ? & ? & ->)|(Es & ? & k & ? & ->)]];
    rewrite Es; naive_solver.
Qed.

Section cockroach.
Context `{ChronoLaws, DriverLaws}.

Lemma key_of_inj b b' : canonical b → canonical b' → key_of b = key_of b' → b = b'.
Proof. intros Hb Hb' [= Et Ep Ek]. by apply canonical_key_inj. Qed.

Lemma write_row_ok k r d u d' : write_row k r d = Ok (u, d') →
  meta_check r = true ∧ int8_range r = true ∧ d' = mkDb (<[k := r]> (metadata d)) (rows d).
Proof.
  unfold write_row. destruct (meta_check r) eqn:E1, (int8_range r) eqn:E2; simpl; intros; simplify_eq. done.
Qed.
Lemma update_row_ok k cond set d row d' : update_row k cond set d = Ok (row, d') →
  (row = None ∧ d' = d) ∨
  ∃ r, metadata d !! k = Some r ∧ cond r = true ∧ row = Some (set r) ∧ meta_check (set r) = true ∧
    int8_range (set r) = true ∧ d' = mkDb (<[k := set r]> (metadata d)) (rows d).
Proof.
  unfold update_row, tx_bind. destruct (metadata d !! k) as [r|]; [|naive_solver].
  destruct (cond r) eqn:Ec; [|naive_solver]. destruct (write_row k (set r) d) as [[u d1]|] eqn:Ew; [|done].
  apply write_row_ok in Ew as (? & ? & ->). intros [= <- <-]. right. eauto 10.
Qed.
Lemma update_one_ok k cond set d u d' : update_one k cond set d = Ok (u, d') →
  ∃ r, metadata d !! k = Some r ∧ cond r = true ∧ meta_check (set r) = true ∧
    int8_range (set r) = true ∧ d' = mkDb (<[k := set r]> (metadata d)) (rows d).
Proof.
  unfold update_one. unfold tx_bind at 1. destruct (update_row k cond set d) as [[row d1]|] eqn:E; [|done].
  apply update_row_ok in E as [[-> ->]|(r & ? & ? & -> & ? & ? & ->)]; [done|].
  intros [= <- <-]. eauto 10.
Qed.

(** Two rows of the same bucket. *)
Definition same_bucket (r r' : MetaRow) : Prop :=
  m_strategy r' = m_strategy r ∧ m_start r' = m_start r ∧ m_end r' = m_end r.

Lemma row_ok_set k r r' : row_ok k r → same_bucket r r' → meta_check r' = true → int8_range r' = true →
  row_ok k r'.
Proof.
  intros [_ _ (b & Hb & Hk & Hs & Hst & Hen)] (Es & Est & Een) Hc Hr.
  split; [done..|]. exists b. by rewrite Es, Est, Een.
Qed.

(** What one successful transaction body on bucket [b] does: the database stays good, other
    buckets are untouched, and the bucket changes as [eff] says. *)
Definition tx_good {A} (b : BucketId) (eff : A → AEntry → AEntry → Prop) (d : Db) (v : A) (d' : Db) : Prop :=
  db_ok d' ∧ (∀ b', canonical b' → b' ≠ b → db_entry d' b' = db_entry d b') ∧
  eff v (db_entry d b) (db_entry d' b).

Lemma bucket_rows_meta d m b : bucket_rows (mkDb m (rows d)) b = bucket_rows d b.
Proof. done. Qed.
Lemma db_entry_insert d b r : db_entry (mkDb (<[key_of b := r]> (metadata d)) (rows d)) b =
  mkAEntry (state_of r) (m_generation r) (m_owner r) (bucket_rows d b).
Proof. unfold db_entry. simpl. by rewrite lookup_insert_eq. Qed.
Lemma db_entry_insert_ne d b b' r : canonical b → canonical b' → b' ≠ b →
  db_entry (mkDb (<[key_of b := r]> (metadata d)) (rows d)) b' = db_entry d b'.
Proof.
  intros Hb Hb' Hne. unfold db_entry. simpl. rewrite lookup_insert_ne; [done|].
  intros E. by apply Hne, key_of_inj.
Qed.
Lemma db_entry_put m rs b r : db_entry (mkDb (<[key_of b := r]> m) rs) b =
  mkAEntry (state_of r) (m_generation r) (m_owner r) (bucket_rows (mkDb m rs) b).
Proof. apply (db_entry_insert (mkDb m rs)). Qed.
Lemma db_entry_put_ne m rs b b' r : canonical b → canonical b' → b' ≠ b →
  db_entry (mkDb (<[key_of b := r]> m) rs) b' = db_entry (mkDb m rs) b'.
Proof. apply (db_entry_insert_ne (mkDb m rs)). Qed.
Lemma db_entry_row d b r : metadata d !! key_of b = Some r →
  db_entry d b = mkAEntry (state_of r) (m_generation r) (m_owner r) (bucket_rows d b).
Proof. unfold db_entry. by intros ->. Qed.

Lemma update_good {A} b (eff : A → AEntry → AEntry → Prop) d r r' v :
  canonical b → db_ok d → metadata d !! key_of b = Some r →
  meta_check r' = true → int8_range r' = true → same_bucket r r' →
  eff v (mkAEntry (state_of r) (m_generation r) (m_owner r) (bucket_rows d b))
    (mkAEntry (state_of r') (m_generation r') (m_owner r') (bucket_rows d b)) →
  tx_good b eff d v (mkDb (<[key_of b := r']> (metadata d)) (rows d)).
Proof.
  intros Hb Hd Hr Hc Hi Hsame Heff. split_and!.
  - apply map_Forall_insert_2; [|done]. eapply row_ok_set; eauto.
  - intros b' Hb' Hne. by apply db_entry_insert_ne.
  - by rewrite db_entry_insert, (db_entry_row _ _ _ Hr).
Qed.

Lemma fresh_row_ok b d u d' : canonical b → db_ok d → insert_metadata b d = Ok (u, d') →
  db_ok d' ∧ is_Some (metadata d' !! key_of b) ∧ ∀ b', canonical b' → db_entry d' b' = db_entry d b'.
Proof.
  intros Hb Hd. unfold insert_metadata. destruct (metadata d !! key_of b) as [r|] eqn:Er.
  - intros [= <- <-]. rewrite Er. eauto.
  - intros (Hc & Hi & ->)%write_row_ok. destruct (canonical_bounds b Hb) as (_ & _ & Ms & Me & _).
    assert (∀ t, midnight t → timestamptz t = t) as Hts.
    { intros t Ht. apply timestamptz_whole. unfold midnight, NANOS_PER_DAY in Ht. zlia. }
    split_and!.
    + apply map_Forall_insert_2; [|done]. split; [done..|]. exists b. simpl. by rewrite !Hts.
    + simpl. rewrite lookup_insert_eq. eauto.
    + intros b' Hb'. destruct (decide (b' = b)) as [->|Hne]; [|by apply db_entry_insert_ne].
      rewrite db_entry_insert. unfold db_entry. by rewrite Er.
Qed.

(** ** Each transaction body *)
Lemma row_hot r : meta_check r = true → m_state r = "hot" → state_of r = Hot.
Proof. intros Hc. by apply (state_of_row r Hc). Qed.
Lemma row_archiving r : meta_check r = true → m_state r = "archiving" → state_of r = Archiving.
Proof. intros Hc. by apply (state_of_row r Hc). Qed.
Lemma row_archived r : meta_check r = true → m_state r = "archived" →
  ∃ k, m_object_key r = Some k ∧ state_of r = Archived k (m_hot_deleted r).
Proof.
  intros Hc Hs. destruct (meta_check_cases r Hc) as [(E & _)|[(E & _)|(_ & _ & k & Hk & _)]]; [congruence..|].
  exists k. split; [done|]. by apply (state_of_row r Hc).
Qed.
Lemma state_same r r' : meta_check r = true → meta_check r' = true → m_state r' = m_state r →
  m_object_key r' = m_object_key r → m_hot_deleted r' = m_hot_deleted r → state_of r' = state_of r.
Proof.
  intros Hc Hc' Es Ek Ed. destruct (meta_check_cases r Hc) as [(E & _)|[(E & _)|(E & _)]].
  - rewrite (row_hot r), (row_hot r') by congruence. done.
  - rewrite (row_archiving r), (row_archiving r') by congruence. done.
  - destruct (row_archived r Hc E) as (k & Hk & ->).
    destruct (row_archived r' Hc') as (k' & Hk' & ->); congruence.
Qed.
Lemma claimable_state now r : meta_check r = true → claimable now r = true →
  state_of r = Hot ∨ state_of r = Archiving.
Proof.
  intros Hc. unfold claimable. rewrite orb_true_iff. intros [Hh|Ha]; zbool;
    [left; by apply row_hot|right; by apply row_archiving].
Qed.
Lemma owned_spec now g tok r : owned now g tok r = true → m_generation r = g ∧ m_owner r = Some tok.
Proof. unfold owned. intros. zbool. done. Qed.
Lemma generation_u64 r : meta_check r = true → int8_range r = true → m_generation r mod 2 ^ 64 = m_generation r.
Proof.
  unfold meta_check, int8_range. intros. zbool. apply Z.mod_small. unfold i64_max in *. lia.
Qed.
Section bodies.
Context (d : Db) (Hd : db_ok d).

Lemma row_valid b r : metadata d !! key_of b = Some r → meta_check r = true.
Proof. intros Hr. apply (row_check _ _ (Hd _ _ Hr)). Qed.

Lemma claim_archive_good b tok ex now v d' : canonical b → claim_archive_tx b tok ex now d = Ok (v, d') →
  tx_good b (λ v e e', claims (eff_claim b e) e v e') d v d'.
Proof.
  intros Hb. unfold claim_archive_tx. unfold tx_bind at 1.
  destruct (update_row _ _ _ d) as [[row d1]|] eqn:E; [|done]. intros [= <- <-].
  apply update_row_ok in E as [[-> ->]|(r & Hr & Hc & -> & Hck & Hir & ->)]; [by split_and!|]. zbool.
  apply update_good with r; try done. simpl.
  rewrite (generation_u64 _ Hck Hir : (m_generation r + 1) mod _ = _).
  destruct (claimable_state _ _ (row_valid _ _ Hr) ltac:(eassumption)) as [->| ->]; split_and!; auto.
Qed.
Lemma claim_cleanup_good b tok ex now v d' : canonical b → claim_cleanup_tx b tok ex now d = Ok (v, d') →
  tx_good b (λ v e e', claims (eff_claim_cleanup b e) e v e') d v d'.
Proof.
  intros Hb. unfold claim_cleanup_tx. unfold tx_bind at 1.
  destruct (update_row _ _ _ d) as [[row d1]|] eqn:E; [|done]. intros [= <- <-].
  apply update_row_ok in E as [[-> ->]|(r & Hr & Hc & -> & Hck & Hir & ->)]; [by split_and!|]. zbool.
  apply update_good with r; try done. simpl.
  rewrite (generation_u64 _ Hck Hir : (m_generation r + 1) mod _ = _).
  destruct (row_archived r (row_valid _ _ Hr)) as (k & Hk & Hst); [done|].
  rewrite (state_same r _ (row_valid _ _ Hr) Hck), Hst by done.
  exists k. assert (m_hot_deleted r = false) as -> by done. by split_and!.
Qed.
Lemma begin_archive_good b tok now v d' : canonical b → begin_archive_tx b tok now d = Ok (v, d') →
  tx_good b (λ s e e', eff_claim b e s e') d v d'.
Proof.
  intros Hb. unfold begin_archive_tx. unfold tx_bind at 1.
  destruct (insert_metadata b d) as [[u d1]|] eqn:Ei; [|done].
  destruct (fresh_row_ok b d u d1 Hb Hd Ei) as (Hd1 & _ & Hsame). unfold tx_bind at 1.
  destruct (update_row _ _ _ d1) as [[row d2]|] eqn:E; [|done].
  apply update_row_ok in E as [[-> ->]|(r & Hr & Hc & -> & Hck & Hir & ->)].
  { unfold tx_bind. destruct (state_from_metadata b d1) as [[[st|] d3]|]; done. }
  simpl. destruct (0 <=? m_generation r + 1); [|done]. intros [= <- <-].
  assert (tx_good b (λ s e e', eff_claim b e s e') d1 (mkSession b tok (m_generation r + 1))
    (mkDb (<[key_of b := mkMeta (m_strategy r) (m_start r) (m_end r) "archiving" (m_generation r + 1)
      (Some tok) (Some (now + 300 * 1000000000)) None false (m_attempts r) (m_next r)]> (metadata d1)) (rows d1)))
    as (Hg1 & Hg2 & Hg3).
  { apply update_good with r; try done. simpl.
    destruct (claimable_state _ _ (row_check _ _ (Hd1 _ _ Hr)) Hc) as [->| ->]; split_and!; auto. }
  split_and!; [done| |by rewrite <- Hsame].
  intros b' Hb' Hne. rewrite <- (Hsame b' Hb'). by apply Hg2.
Qed.
Lemma renew_good s ex now v d' : canonical (session_bucket s) → renew_tx s ex now d = Ok (v, d') →
  tx_good (session_bucket s) (λ _ e e', e' ≡ e ∧ owns e s) d v d'.
Proof.
  intros Hb (r & Hr & Hc & Hck & Hir & ->)%update_one_ok. zbool.
  match goal with Ho : owned _ _ _ _ = true |- _ => apply owned_spec in Ho as [Hg Ho] end.
  apply update_good with r; try done. rewrite (state_same r _ (row_valid _ _ Hr) Hck) by done. done.
Qed.
Lemma defer_cleanup_good s at_ now v d' : canonical (session_bucket s) → defer_cleanup_tx s at_ now d = Ok (v, d') →
  tx_good (session_bucket s) (λ _ e e', e' ≡ e ∧ owns e s ∧ ∃ k, a_state e = Archived k false) d v d'.
Proof.
  intros Hb (r & Hr & Hc & Hck & Hir & ->)%update_one_ok. unfold cleanup_owned in Hc. zbool.
  match goal with Ho : owned _ _ _ _ = true |- _ => apply owned_spec in Ho as [Hg Ho] end.
  apply update_good with r; try done. rewrite (state_same r _ (row_valid _ _ Hr) Hck) by done.
  destruct (row_archived r (row_valid _ _ Hr)) as (k & Hk & Hst); [done|].
  split; [done|]. split; [done|]. exists k. simpl. rewrite Hst. by f_equal.
Qed.

(** A row that its owner is archiving. *)
Lemma archiving_owned_spec s now b r : metadata d !! key_of b = Some r → archiving_owned s now r = true →
  state_of r = Archiving ∧ m_generation r = session_generation s ∧ m_owner r = Some (owner_token s).
Proof.
  intros Hr Ha. unfold archiving_owned in Ha. zbool.
  match goal with Ho : owned _ _ _ _ = true |- _ => apply owned_spec in Ho as [Hg Ho] end.
  split_and!; [|done..]. apply row_archiving; [by eapply row_valid|done].
Qed.
Lemma cleanup_owned_spec s now b r : metadata d !! key_of b = Some r → cleanup_owned s now r = true →
  ∃ k, m_object_key r = Some k ∧ state_of r = Archived k false ∧ m_state r = "archived" ∧
    m_generation r = session_generation s ∧ m_owner r = Some (owner_token s).
Proof.
  intros Hr Ha. unfold cleanup_owned in Ha. zbool.
  match goal with Ho : owned _ _ _ _ = true |- _ => apply owned_spec in Ho as [Hg Ho] end.
  destruct (row_archived r (row_valid _ _ Hr)) as (k & Hk & Hst); [done|]. exists k.
  rewrite Hst. split_and!; try done. by f_equal.
Qed.

Lemma defer_archive_good s at_ now v d' : canonical (session_bucket s) →
  defer_archive_tx s at_ now d = Ok (v, d') → tx_good (session_bucket s) (λ _, eff_release s) d v d'.
Proof.
  intros Hb (r & Hr & Hc & Hck & Hir & ->)%update_one_ok.
  destruct (archiving_owned_spec _ _ _ _ Hr Hc) as (Hst & Hg & Ho).
  by apply update_good with r.
Qed.
Lemma abort_good s now v d' : canonical (session_bucket s) →
  abort_tx s now d = Ok (v, d') → tx_good (session_bucket s) (λ _, eff_release s) d v d'.
Proof.
  intros Hb (r & Hr & Hc & Hck & Hir & ->)%update_one_ok.
  destruct (archiving_owned_spec _ _ _ _ Hr Hc) as (Hst & Hg & Ho).
  by apply update_good with r.
Qed.
Lemma publish_good s key now v d' : canonical (session_bucket s) →
  publish_tx s key now d = Ok (v, d') → tx_good (session_bucket s) (λ _, eff_publish s key) d v d'.
Proof.
  intros Hb (r & Hr & Hc & Hck & Hir & ->)%update_one_ok.
  destruct (archiving_owned_spec _ _ _ _ Hr Hc) as (Hst & Hg & Ho).
  apply update_good with r; try done. rewrite Hst.
  destruct (row_archived _ Hck) as (k & Hk & Hst'); [done|]. simpl in *. simplify_eq. rewrite Hst'.
  by split_and!.
Qed.
Lemma snapshot_good s now v d' : canonical (session_bucket s) → snapshot_tx s now d = Ok (v, d') →
  d' = d ∧ a_state (db_entry d (session_bucket s)) = Archiving ∧ owns (db_entry d (session_bucket s)) s ∧
  v ≡ₚ a_records (db_entry d (session_bucket s)).
Proof.
  intros Hb. unfold snapshot_tx. destruct (metadata d !! _) as [r|] eqn:Hr; [|done].
  destruct (archiving_owned s now r) eqn:Ha; [|done]. intros [= <- <-].
  destruct (archiving_owned_spec _ _ _ _ Hr Ha) as (Hst & Hg & Ho).
  rewrite (db_entry_row _ _ _ Hr). simpl. split_and!; [done..|]. apply sort_by_Permutation.
Qed.

(** Replacing the rows of one bucket. *)
Lemma db_entry_rows m rs rs' b b' : canonical b → canonical b' → b' ≠ b →
  (∀ k, k ≠ key_of b → rs' !! k = rs !! k) → db_entry (mkDb m rs') b' = db_entry (mkDb m rs) b'.
Proof.
  intros Hb Hb' Hne Hrs. unfold db_entry, bucket_rows. simpl. rewrite Hrs; [done|].
  intros E. by apply Hne, key_of_inj.
Qed.

Lemma append_good b r now v d' : canonical b → r_partition_key r = partition_key b →
  append_tx b r now d = Ok (v, d') → tx_good b (λ _, eff_append (stored_record cr_fidelity r)) d v d'.
Proof.
  intros Hb Hpk. unfold append_tx. destruct (strategy_conflict b d); [done|]. unfold tx_bind at 1.
  destruct (insert_metadata b d) as [[u d1]|] eqn:Ei; [|done].
  destruct (fresh_row_ok b d u d1 Hb Hd Ei) as (Hd1 & [row Hrow] & Hsame).
  unfold tx_bind, state_from_metadata. rewrite Hrow.
  destruct (metadata_state row) as [st|] eqn:Est; [|done]. case_bool_decide as Hst; [|done]. subst st.
  unfold insert_record. rewrite Hpk. change (table_id b, partition_key b, key b) with (key_of b).
  rewrite Hrow. set (bucket := default ∅ (rows d1 !! key_of b)). set (pk := (timestamptz (event_time r), sort_key r)).
  destruct (bucket !! pk) as [x|] eqn:Epk; [done|]. intros [= <- <-]. split_and!.
  - exact Hd1.
  - intros b' Hb' Hne. rewrite <- (Hsame b' Hb'). destruct d1 as [m1 r1].
    apply (db_entry_rows _ _ _ b); try done. simpl. intros k Hk. by rewrite lookup_insert_ne.
  - rewrite <- (Hsame b Hb), (db_entry_row d1 b row Hrow), (db_entry_row (mkDb (metadata d1) _) b row Hrow).
    assert (state_of row = Hot) as -> by (unfold state_of; by rewrite Est). split; [done|].
    split_and!; simpl; try done. unfold bucket_rows. simpl. rewrite lookup_insert_eq. simpl.
    fold bucket. change (stored_record cr_fidelity r)
      with (mkRecord (r_partition_key r) (timestamptz (event_time r)) (sort_key r) (value r)).
    rewrite (map_to_list_insert bucket pk (value r) Epk). simpl. unfold row_record at 1. simpl. by rewrite Hpk.
Qed.

Lemma delete_good s now v d' : canonical (session_bucket s) →
  delete_hot_bucket_tx s now d = Ok (v, d') → tx_good (session_bucket s) (λ _, eff_delete s) d v d'.
Proof.
  intros Hb. unfold delete_hot_bucket_tx, delete_rows. unfold tx_bind at 1.
  set (b := session_bucket s) in *. destruct (metadata d !! key_of b) as [r|] eqn:Hr.
  2: { intros (r & Hr' & _)%update_one_ok. congruence. }
  destruct (cleanup_owned s now r) eqn:Hc.
  2: { intros (r' & Hr' & Hc' & _)%update_one_ok. congruence. }
  intros (r' & Hr' & _ & Hck & Hir & ->)%update_one_ok. simpl in *. simplify_eq.
  destruct (cleanup_owned_spec _ _ _ _ Hr Hc) as (k & Hk & Hst & Hs & Hg & Ho). split_and!.
  - apply map_Forall_insert_2; [|done]. eapply row_ok_set; eauto. done.
  - intros b' Hb' Hne. rewrite db_entry_put_ne by done.
    destruct d as [m rs]. apply (db_entry_rows _ _ _ b); try done. simpl. intros. by rewrite lookup_delete_ne.
  - rewrite db_entry_put, (db_entry_row _ _ _ Hr), Hst.
    exists k. split; [done|]. split; [done|].
    destruct (row_archived _ Hck) as (k' & Hk' & Hst'); [done|]. simpl in *. simplify_eq.
    rewrite Hst'. split_and!; simpl; try done; try congruence.
    unfold bucket_rows. simpl. by rewrite lookup_delete_eq.
Qed.
End bodies.

(** ** The retry loop is atomic *)
(** What any number of attempts may end in. *)
Definition outcome_ok {A} (n : nat) (operation : Z → Tx A) (pl : nat → attempt) (d : Db)
    (out : Result DurableBucketStoreError A * Db) : Prop :=
  let '(res, d') := out in
  match res with
  | Ok v => ∃ i now rb, (i < n)%nat ∧ pl i = Ran now None rb Committed ∧ operation now d = Ok (v, d')
  | Err err =>
      (d' = d ∨ ambiguous err = true ∧ ∃ now v, operation now d = Ok (v, d')) ∧
      (ambiguous err = false → err = Unavailable ∨ ∃ now, operation now d = Err (TxStore err))
  end.
Lemma outcome_ok_mono {A} n (operation : Z → Tx A) pl d out :
  outcome_ok n operation pl d out → outcome_ok (S n) operation pl d out.
Proof.
  destruct out as [[v|err] d']; [|done]. intros (i & now & rb & ? & ? & ?). exists i, now, rb.
  split_and!; [lia|done..].
Qed.
Lemma transaction_loop_outcome {A} n (operation : Z → Tx A) pl d :
  outcome_ok n operation pl d (transaction_loop n operation pl d).
Proof.
  induction n as [|n IH]; simpl; [naive_solver|]. apply outcome_ok_mono in IH.
  assert (∀ (c : bool), outcome_ok (S n) operation pl d
    (if c then transaction_loop n operation pl d else (Err OperationFailed, d))) as Hretry.
  { intros []; [done|]. split; [by left|done]. }
  destruct (pl n) as [|rt| | |now fault rb rep] eqn:Epl; try (split; [by left|by auto]); [apply Hretry|].
  destruct fault as [[]|]; [apply Hretry|split; [by left|done]|].
  destruct (operation now d) as [[v d1]|[[]|e]] eqn:Eop; [|apply Hretry|split; [by left|done]|].
  - destruct rep as [| |[]|[]]; [|apply Hretry|..]; [by exists n, now, rb; auto|..]; (split; [|done]); eauto 6.
  - split; [by left|]. intros _. right. by exists now.
Qed.

Lemma run_tx_spec {A} (op : Z → Tx A) env s (P : A → Db → Prop) :
  (∀ now v d', op now (db s) = Ok (v, d') → P v d') →
  let '(res, s') := run_tx op env s in caches s' = caches s ∧
  match res with
  | Ok v => P v (db s')
  | Err err => db s' = db s ∨ (ambiguous err = true ∧ ∃ v, P v (db s'))
  end.
Proof.
  intros HP. unfold run_tx. pose proof (transaction_loop_outcome MAX_TRANSACTION_ATTEMPTS op (plan env) (db s)) as Ht.
  unfold transaction. destruct (transaction_loop _ _ _ _) as [[v|err] d']; simpl; (split; [done|]).
  - destruct Ht as (i & now & rb & _ & _ & Hop). by eapply HP.
  - destruct Ht as [[->|(Ha & now & v & Hop)] _]; [by left|right]. split; [done|]. exists v. by eapply HP.
Qed.

(** The statements themselves never report a serialization failure; the attempt does. *)
Lemma update_row_no_conflict k cond set d : update_row k cond set d ≠ Err (TxDatabase true).
Proof.
  unfold update_row, tx_bind, write_row. destruct (metadata d !! k) as [r|]; [|done].
  destruct (cond r); [|done]. by destruct (_ && _).
Qed.
Lemma bind_ret_no_conflict {A B} (t : Tx A) (f : A → B) d : t d ≠ Err (TxDatabase true) →
  tx_bind t (λ a, tx_ret (f a)) d ≠ Err (TxDatabase true).
Proof. unfold tx_bind, tx_ret. destruct (t d) as [[]|e]; [done|]. intros Hn [= ->]. done. Qed.

(** A transaction whose first attempt meets no fault is the run of its statements. *)
Lemma run_tx_commits {A} (op : Z → Tx A) env s now rb : plan env 4%nat = Ran now None rb Committed →
  op now (db s) ≠ Err (TxDatabase true) →
  run_tx op env s = match op now (db s) with
    | Ok (v, d') => (Ok v, mkCr d' (caches s))
    | Err f => (Err (into_store_error f), s)
    end.
Proof.
  intros Hp Hop. unfold run_tx, transaction, MAX_TRANSACTION_ATTEMPTS. simpl transaction_loop.
  rewrite Hp. destruct s as [d cs]. simpl in *.
  by destruct (op now d) as [[v d']|[[]|e]].
Qed.

(** ** The methods *)
Definition cr_view (s : CrState) (b : BucketId) : AEntry := db_entry (db s) b.

Lemma route_ok_kept d d' c : (∀ b, canonical b → route_kept (db_entry d b) (db_entry d' b)) →
  route_ok d c → route_ok d' c.
Proof.
  intros Hk Hc b e Hbe. destruct (Hc b e Hbe) as [Hb [del Hs]]. split; [done|]. by eapply Hk.
Qed.
Lemma cr_inv_db s d' : cr_inv s → db_ok d' →
  (∀ b, canonical b → route_kept (db_entry (db s) b) (db_entry d' b)) → cr_inv (mkCr d' (caches s)).
Proof.
  intros [_ Hc] Hd Hk. split; [done|]. intros p c Hp. destruct (Hc p c Hp) as [Hr Hsz].
  split; [|done]. by eapply route_ok_kept.
Qed.
Lemma cr_inv_cache env s c : cr_inv s → route_ok (db s) c → (size c <= ROUTE_CACHE_MAX_ENTRIES)%nat →
  cr_inv (set_cache env c s).
Proof. intros [Hd Hc] Hok Hsz. split; [done|]. by apply map_Forall_insert_2. Qed.
Lemma cache_of_ok env s : cr_inv s →
  route_ok (db s) (cache_of env s) ∧ (size (cache_of env s) <= ROUTE_CACHE_MAX_ENTRIES)%nat.
Proof.
  intros [_ Hc]. unfold cache_of. destruct (caches s !! process env) as [c|] eqn:E; [by apply (Hc _ _ E)|].
  simpl. split; [|rewrite map_size_empty; unfold ROUTE_CACHE_MAX_ENTRIES; lia].
  intros b e He. by rewrite lookup_empty in He.
Qed.
Lemma invalidate_inv b env s : cr_inv s → cr_inv (invalidate b env s).
Proof.
  intros Hs. destruct (cache_of_ok env s Hs) as [Hr Hsz].
  apply cr_inv_cache; [done|by apply map_Forall_delete|].
  unfold route_invalidate. rewrite map_size_delete. case_match; [|done]. etransitivity; [apply Nat.le_pred_l|done].
Qed.

(** What a method that runs one transaction guarantees. *)
Definition method_ok {A} (b : BucketId) (eff : A → AEntry → Prop) (s : CrState)
    (out : Result DurableBucketStoreError A * CrState) : Prop :=
  cr_inv out.2 ∧ (∀ b', canonical b' → b' ≠ b → cr_view out.2 b' = cr_view s b') ∧
  commits eff (cr_view s b) out.1 (cr_view out.2 b).

Lemma run_tx_ok {A} b (op : Z → Tx A) env s (eff : A → AEntry → AEntry → Prop) :
  canonical b → cr_inv s →
  (∀ now v d', op now (db s) = Ok (v, d') → tx_good b eff (db s) v d') →
  (∀ v e e', eff v e e' → route_kept e e') →
  method_ok b (λ v, eff v (cr_view s b)) s (run_tx op env s).
Proof.
  intros Hb Hs Hop Hkept. pose proof (run_tx_spec op env s _ Hop) as Hrun.
  destruct (run_tx op env s) as [res [d' cs']]. simpl in Hrun. destruct Hrun as [-> Hres].
  assert (∀ v, tx_good b eff (db s) v d' → cr_inv (mkCr d' (caches s)) ∧
    (∀ b', canonical b' → b' ≠ b → cr_view (mkCr d' (caches s)) b' = cr_view s b')) as Hgood.
  { intros v (Hd & Hframe & He). split; [|done]. apply cr_inv_db; [done..|]. intros b' Hb'.
    destruct (decide (b' = b)) as [->|Hne]; [by eapply Hkept|].
    rewrite Hframe by done. by apply route_kept_equiv. }
  unfold method_ok. simpl. destruct res as [v|err]; simpl in *.
  - destruct (Hgood v Hres). split_and!; try done. by destruct Hres as (_ & _ & He).
  - destruct Hres as [->|(Ha & v & Hv)].
    + split_and!; [|done|by left]. by destruct s.
    + destruct (Hgood v Hv). split_and!; try done. right. split; [done|]. exists v. by destruct Hv as (_ & _ & He).
Qed.
Lemma fails_ok {A} b (eff : A → AEntry → Prop) s e : cr_inv s → method_ok b eff s (Err e, s).
Proof. intros Hs. split_and!; [done|done|by left]. Qed.
Lemma then_invalidate_ok {A} b b' env (eff : A → AEntry → Prop) s out :
  method_ok b eff s out → method_ok b eff s (then_invalidate b' env out).
Proof.
  intros (Hi & Hf & Hc). destruct out as [[v|e] s']; [|by split_and!].
  split_and!; [by apply invalidate_inv|done|done].
Qed.
Lemma with_generation_ok {A} b ses (eff : A → AEntry → Prop) s k : cr_inv s →
  method_ok b eff s k → method_ok b eff s (with_generation ses k s).
Proof. intros Hs Hk. unfold with_generation. case_match; [done|by apply fails_ok]. Qed.
Lemma with_expiry_ok {A} b lease env (eff : A → AEntry → Prop) s k : cr_inv s →
  (∀ x, method_ok b eff s (k x)) → method_ok b eff s (with_expiry lease env k s).
Proof. intros Hs Hk. unfold with_expiry. case_match; [by apply Hk|by apply fails_ok]. Qed.

Section calls.
Context (env : CrEnv) (s : CrState) (Hs : cr_inv s).

Let Hd : db_ok (db s) := proj1 Hs.

Lemma cr_append_ok b r : canonical b → r_partition_key r = partition_key b →
  method_ok b (λ _, eff_append (stored_record cr_fidelity r) (cr_view s b)) s (cr_append b r env s).
Proof.
  intros Hb Hr. apply (run_tx_ok b _ env s (λ _, eff_append (stored_record cr_fidelity r))); [done..| |].
  - intros now v d'. by apply append_good.
  - intros v e e'. exact (entry_spec_route_kept cr_fidelity (Append b r) e (Ok tt) e').
Qed.
Lemma cr_claim_archive_ok b lease : canonical b →
  method_ok b (claims (eff_claim b (cr_view s b)) (cr_view s b)) s (cr_claim_archive b lease env s).
Proof.
  intros Hb. apply with_expiry_ok; [done|]. intros ex.
  assert (method_ok b (claims (eff_claim b (cr_view s b)) (cr_view s b)) s
    (run_tx (claim_archive_tx b (new_token env) ex) env s)) as Hm.
  { apply (run_tx_ok b _ env s (λ v e e', claims (eff_claim b e) e v e')); [done..| |].
    - intros now v d'. by apply claim_archive_good.
    - intros v e e'. exact (entry_spec_route_kept cr_fidelity (ClaimArchive b lease) e (Ok v) e'). }
  destruct (run_tx _ _ _) as [[[ses|]|err] s'] eqn:E; try done.
  apply (then_invalidate_ok b (session_bucket ses) env _ _ _ Hm).
Qed.
Lemma cr_claim_cleanup_ok b lease : canonical b →
  method_ok b (claims (eff_claim_cleanup b (cr_view s b)) (cr_view s b)) s (cr_claim_cleanup b lease env s).
Proof.
  intros Hb. apply with_expiry_ok; [done|]. intros ex.
  apply (run_tx_ok b _ env s (λ v e e', claims (eff_claim_cleanup b e) e v e')); [done..| |].
  - intros now v d'. by apply claim_cleanup_good.
  - intros v e e'. exact (entry_spec_route_kept cr_fidelity (ClaimCleanup b lease) e (Ok v) e').
Qed.
Lemma cr_begin_archive_ok b : canonical b →
  method_ok b (eff_claim b (cr_view s b)) s (cr_begin_archive b env s).
Proof.
  intros Hb. apply then_invalidate_ok, (run_tx_ok b _ env s (λ v e e', eff_claim b e v e')); [done..| |].
  - intros now v d'. by apply begin_archive_good.
  - intros v e e'. exact (entry_spec_route_kept cr_fidelity (BeginArchive b) e (Ok v) e').
Qed.

Section session.
Context (ses : ArchiveSession) (Hb : canonical (session_bucket ses)).
Let b := session_bucket ses.

Lemma cr_renew_ok lease :
  method_ok b (λ _ e', e' ≡ cr_view s b ∧ owns (cr_view s b) ses) s (cr_renew ses lease env s).
Proof.
  apply with_generation_ok, with_expiry_ok; [done..|]. intros ex.
  apply (run_tx_ok b _ env s (λ _ e e', e' ≡ e ∧ owns e ses)); [done..| |].
  - intros now v d'. by apply renew_good.
  - intros v e e' [He _]. by apply route_kept_equiv.
Qed.
Lemma cr_defer_cleanup_ok retry :
  method_ok b (λ _ e', e' ≡ cr_view s b ∧ owns (cr_view s b) ses ∧ ∃ k, a_state (cr_view s b) = Archived k false)
    s (cr_defer_cleanup ses retry env s).
Proof.
  apply with_generation_ok, with_expiry_ok; [done..|]. intros ex.
  apply (run_tx_ok b _ env s (λ _ e e', e' ≡ e ∧ owns e ses ∧ ∃ k, a_state e = Archived k false)); [done..| |].
  - intros now v d'. by apply defer_cleanup_good.
  - intros v e e' [He _]. by apply route_kept_equiv.
Qed.
Lemma cr_defer_archive_ok retry :
  method_ok b (λ _, eff_release ses (cr_view s b)) s (cr_defer_archive ses retry env s).
Proof.
  apply with_generation_ok, with_expiry_ok; [done..|]. intros ex. apply then_invalidate_ok.
  apply (run_tx_ok b _ env s (λ _, eff_release ses)); [done..| |].
  - intros now v d'. by apply defer_archive_good.
  - intros v e e'. exact (entry_spec_route_kept cr_fidelity (DeferArchive ses retry) e (Ok tt) e').
Qed.
Lemma cr_snapshot_ok :
  method_ok b (λ rs e', e' ≡ cr_view s b ∧ a_state (cr_view s b) = Archiving ∧ owns (cr_view s b) ses ∧
    rs ≡ₚ a_records (cr_view s b)) s (cr_snapshot ses env s).
Proof.
  apply with_generation_ok; [done|].
  apply (run_tx_ok b _ env s (λ rs e e', e' ≡ e ∧ a_state e = Archiving ∧ owns e ses ∧ rs ≡ₚ a_records e));
    [done..| |].
  - intros now v d' Ht. destruct (snapshot_good (db s) Hd ses now v d' Hb Ht) as (-> & ? & ? & ?).
    by split_and!.
  - intros v e e' [He _]. by apply route_kept_equiv.
Qed.
Lemma cr_publish_ok key :
  method_ok b (λ _, eff_publish ses key (cr_view s b)) s (cr_publish ses key env s).
Proof.
  apply with_generation_ok; [done|]. apply then_invalidate_ok.
  apply (run_tx_ok b _ env s (λ _, eff_publish ses key)); [done..| |].
  - intros now v d'. by apply publish_good.
  - intros v e e'. exact (entry_spec_route_kept cr_fidelity (PublishArchive ses key) e (Ok tt) e').
Qed.
Lemma cr_delete_ok : method_ok b (λ _, eff_delete ses (cr_view s b)) s (cr_delete ses env s).
Proof.
  apply with_generation_ok; [done|].
  apply (run_tx_ok b _ env s (λ _, eff_delete ses)); [done..| |].
  - intros now v d'. by apply delete_good.
  - intros v e e'. exact (entry_spec_route_kept cr_fidelity (DeleteHotBucket ses) e (Ok tt) e').
Qed.
Lemma cr_abort_ok : method_ok b (λ _, eff_release ses (cr_view s b)) s (cr_abort ses env s).
Proof.
  apply with_generation_ok; [done|]. apply then_invalidate_ok.
  apply (run_tx_ok b _ env s (λ _, eff_release ses)); [done..| |].
  - intros now v d'. by apply abort_good.
  - intros v e e'. exact (entry_spec_route_kept cr_fidelity (AbortArchive ses) e (Ok tt) e').
Qed.
End session.

(** A bucket without metadata is hot, and a row's state is its entry's. *)
Lemma route_of_entry b : match metadata (db s) !! key_of b with
  | None => a_state (cr_view s b) = Hot
  | Some r => metadata_state r = Ok (a_state (cr_view s b)) ∧ meta_check r = true
  end.
Proof.
  unfold cr_view, db_entry. destruct (metadata _ !! _) as [r|] eqn:E; [|done]. simpl.
  pose proof (row_check _ _ (Hd _ _ E)) as Hc. unfold state_of.
  destruct (meta_check_cases r Hc) as [(_ & _ & _ & _ & _ & ->)|[(_ & _ & _ & _ & _ & ->)|(_ & _ & k & _ & ->)]]; done.
Qed.

Lemma cr_state_ok b st : cr_state b env s = Ok st → st = a_state (cr_view s b).
Proof.
  unfold cr_state, query_result. pose proof (route_of_entry b) as Hr.
  destruct (query_outcome env 0) as [[]|]; [done..|].
  destruct (metadata _ !! _) as [r|]; [|congruence]. destruct Hr as [-> _]. congruence.
Qed.

(** The routed statement returns the route, and for a hot route the page the contract asks. *)
Lemma routed_rows_ok b range after limit state key rs :
  routed_rows b range after (limit_i64 limit) (db s) = (state, key, rs) →
  (∀ read, routed_read_from_snapshot state key rs = Ok read → routed cr_fidelity range after limit (cr_view s b) read).
Proof.
  unfold routed_rows. pose proof (route_of_entry b) as Hroute. intros [= <- <- <-] read.
  assert (a_records (cr_view s b) = bucket_rows (db s) b) as Hrec.
  { unfold cr_view, db_entry. by destruct (metadata _ !! _). }
  set (hot := take _ (sort_by _ _)).
  assert (hot = page (stored_range cr_fidelity range) (stored_cursor cr_fidelity <$> after)
    (f_limit cr_fidelity limit) (bucket_rows (db s) b)) as Hhot.
  { unfold hot, page, matching. do 2 f_equal. apply list_filter_iff. intros r.
    unfold in_page, range_contains, after_cursor, cursor_key. by destruct after as [c|]. }
  clearbody hot. unfold routed. rewrite Hrec.
  destruct (metadata _ !! _) as [r|]; simpl.
  - destruct Hroute as [Hst Hc].
    destruct (meta_check_cases r Hc) as [(Es & _ & _ & Ek & _ & Em)|[(Es & _ & _ & Ek & _ & Em)|(Es & _ & k & Ek & Em)]];
      rewrite Em in Hst; injection Hst as <-; rewrite Es, Ek; simpl; intros [= <-]; eauto; by rewrite Hhot; eauto.
  - rewrite Hroute. intros [= <-]. rewrite Hhot. eauto.
Qed.

Lemma oldest_in c o : oldest_bucket c = Some o → is_Some (c !! o).
Proof.
  unfold oldest_bucket. destruct (map_to_list c) as [|p l] eqn:E; [done|]. intros [= <-].
  assert (foldl earlier p l ∈ p :: l) as Hin.
  { clear. revert p. induction l as [|q l IH]; intros p; simpl; [set_solver|].
    specialize (IH (earlier p q)). apply elem_of_cons in IH as [->|IH]; [|set_solver].
    unfold earlier. destruct (_ <? _); set_solver. }
  rewrite <- E in Hin. destruct (foldl earlier p l) as [b' e]. apply elem_of_map_to_list in Hin. simpl. eauto.
Qed.
Lemma cache_archive_at_size c b k t : (size c <= ROUTE_CACHE_MAX_ENTRIES)%nat →
  (size (cache_archive_at c b k t) <= ROUTE_CACHE_MAX_ENTRIES)%nat.
Proof.
  intros Hc. unfold cache_archive_at. destruct (c !! b) as [x|] eqn:Eb.
  { rewrite map_size_insert_Some; [done|by rewrite Eb]. }
  destruct (ROUTE_CACHE_MAX_ENTRIES <=? size c)%nat eqn:El.
  - apply Nat.leb_le in El. unfold oldest_bucket. destruct (map_to_list c) as [|p l] eqn:Em.
    + apply (f_equal length) in Em. rewrite length_map_to_list in Em. unfold ROUTE_CACHE_MAX_ENTRIES in *. simpl in Em. lia.
    + destruct (oldest_in c (foldl earlier p l).1) as [e He]; [unfold oldest_bucket; by rewrite Em|].
      rewrite map_size_insert_None; [|by rewrite lookup_delete_None; right].
      rewrite map_size_delete_Some by done. unfold ROUTE_CACHE_MAX_ENTRIES in *. lia.
  - apply Nat.leb_gt in El. rewrite map_size_insert_None by done. lia.
Qed.
Lemma cache_archive_at_route c b k t del : canonical b → a_state (cr_view s b) = Archived k del →
  route_ok (db s) c → route_ok (db s) (cache_archive_at c b k t).
Proof.
  intros Hb Hk Hc. unfold cache_archive_at. apply map_Forall_insert_2; [by eauto|].
  destruct (c !! b); [done|]. destruct (_ <=? _)%nat; [|done].
  destruct (oldest_bucket c); [by apply map_Forall_delete|done].
Qed.

Lemma cr_read_range_ok b range after limit : canonical b →
  method_ok b (λ read e', e' ≡ cr_view s b ∧ routed cr_fidelity range after limit (cr_view s b) read) s
    (cr_read_range b range after limit env s).
Proof.
  intros Hb. unfold cr_read_range, cached_archived.
  destruct (cache_of env s !! b) as [e|] eqn:Ec; simpl.
  { destruct (proj1 (cache_of_ok env s Hs) b e Ec) as [_ [del Hst]]. split_and!; [done|done|]. split; [done|].
    unfold routed. unfold cr_view. by rewrite Hst. }
  unfold query_result. destruct (query_outcome env 0) as [[]|]; [by apply fails_ok..|].
  destruct (routed_rows _ _ _ _ _) as [[state key] rs] eqn:Er.
  pose proof (routed_rows_ok b range after limit state key rs Er) as Hread.
  destruct (routed_read_from_snapshot state key rs) as [[hot|k]|err]; [| |by apply fails_ok].
  - split_and!; [done|done|]. split; [done|by apply Hread].
  - specialize (Hread _ eq_refl). assert (∃ del, a_state (cr_view s b) = Archived k del) as [del Hk].
    { unfold routed in Hread. destruct (a_state (cr_view s b)) as [| |k' del]; [naive_solver..|].
      simplify_eq. eauto. }
    destruct (cache_of_ok env s Hs) as [Hr Hsz].
    split_and!; [|done|done]. apply cr_inv_cache; [done| |by apply cache_archive_at_size].
    by apply cache_archive_at_route with del.
Qed.

(** A row describes exactly the bucket it was written for. *)
Lemma bucket_from_row_ok k r b : metadata (db s) !! k = Some r → bucket_from_row k r = Ok b →
  canonical b ∧ k = key_of b ∧ m_end r = end_ b.
Proof.
  intros Hr. destruct (row_bucket _ _ (Hd _ _ Hr)) as (b0 & Hb0 & -> & Es & Est & Een).
  unfold bucket_from_row, TableId_new, BucketKey_new. simpl. rewrite Es, strategy_round_trip.
  destruct (is_blank (table_id b0)), (is_blank (key b0)); try done. intros [= <-].
  rewrite Est, Een. by destruct b0.
Qed.
Lemma collect_work_ok w l ws : collect_work w l = Ok ws →
  Forall2 (λ p x, ∃ b, bucket_from_row p.1 p.2 = Ok b ∧ x = w b) l ws.
Proof.
  revert ws. induction l as [|p l IH]; intros ws; simpl; [by intros [= <-]|].
  destruct (bucket_from_row p.1 p.2) as [b|] eqn:Eb; [|done].
  destruct (collect_work w l) as [ws'|]; [|done]. intros [= <-]. constructor; [by eauto|by apply IH].
Qed.
Lemma elem_of_select_work cond limit p : p ∈ select_work cond limit (db s) →
  metadata (db s) !! p.1 = Some p.2 ∧ cond p.2 = true.
Proof.
  unfold select_work. intros (i & Hi%list_elem_of_lookup_2 & _)%elem_of_take.
  rewrite sort_by_Permutation, list_elem_of_filter, Is_true_true in Hi. destruct Hi as [Hc Hp].
  destruct p. by apply elem_of_map_to_list in Hp.
Qed.
Lemma collect_selected w cond limit ws : collect_work w (select_work cond limit (db s)) = Ok ws →
  Forall (λ x, ∃ b r, x = w b ∧ canonical b ∧ metadata (db s) !! key_of b = Some r ∧ m_end r = end_ b ∧
    cond r = true) ws.
Proof.
  intros Hw%collect_work_ok. apply Forall_forall. intros x Hx.
  apply list_elem_of_lookup in Hx as [i Hi]. destruct (Forall2_lookup_r _ _ _ _ _ Hw Hi) as (p & Hp & b & Hb & ->).
  destruct (elem_of_select_work _ _ _ (list_elem_of_lookup_2 _ _ _ Hp)) as [Hr Hc].
  destruct (bucket_from_row_ok _ _ _ Hr Hb) as (? & Hk & ?). exists b, p.2. by rewrite <- Hk.
Qed.
End calls.

Lemma discover_on_inv scan env d1 d2 ws : discover_on scan env d1 d2 = Ok ws → ∃ work cutover,
  ws = work ++ cutover ∧
  collect_work Cleanup (select_work (cleanup_pending (query_now env 0)) (scan_limit scan) d1) = Ok work ∧
  (cutover = [] ∧ scan_limit scan - Z.of_nat (length work) = 0 ∨
   collect_work Cutover (select_work (cutover_pending (timestamptz (eligible_before scan)) (query_now env 1))
     (Z.max (scan_limit scan - Z.of_nat (length work)) i64_min) d2) = Ok cutover).
Proof.
  unfold discover_on, query_result. destruct (query_outcome env 0) as [[]|]; [done..|]. simpl.
  destruct (collect_work Cleanup _) as [work|] eqn:Ew; [|done]. simpl.
  destruct (_ =? 0) eqn:Er.
  - intros [= <-]. exists work, []. rewrite app_nil_r. split_and!; [done..|]. left. split; [done|].
    apply Z.eqb_eq in Er. unfold i64_min in Er. lia.
  - destruct (query_outcome env 1) as [[]|]; [done..|]. simpl.
    destruct (collect_work Cutover _) as [cutover|] eqn:Ec; [|done]. intros [= <-].
    exists work, cutover. auto.
Qed.

Lemma cr_exec_ok {X} (c : store_call X) env s : wf_call c → cr_inv s →
  cr_inv (store_exec c env s).2 ∧
  (∀ b, canonical b → call_bucket c ≠ Some b → cr_view (store_exec c env s).2 b = cr_view s b) ∧
  (∀ b, call_bucket c = Some b →
     entry_spec cr_fidelity c (cr_view s b) (store_exec c env s).1 (cr_view (store_exec c env s).2 b)).
Proof.
  intros [Hb Hpk] Hs.
  assert (∀ b A (eff : A → AEntry → Prop) out, call_bucket c = Some b → method_ok b eff s out →
    cr_inv out.2 ∧ (∀ b', canonical b' → call_bucket c ≠ Some b' → cr_view out.2 b' = cr_view s b') ∧
    (∀ b', call_bucket c = Some b' → commits eff (cr_view s b) out.1 (cr_view out.2 b) ∧ b' = b)) as Hlift.
  { intros b A eff out Hcb (Hi & Hf & Hc). rewrite Hcb. split_and!; [done| |naive_solver].
    intros b' Hb' Hne. apply Hf; [done|congruence]. }
  destruct c; simpl in Hb, Hpk;
    unfold store_exec, CockroachDurableBucketStore.
  2: { split_and!; [done..|]. intros b' [= <-]. split; [done|]. simpl.
       destruct (cr_state b env s) eqn:E; [|done]. by eapply cr_state_ok. }
  2: { done. }
  1: destruct (Hlift b _ _ _ eq_refl (cr_append_ok env s Hs b r Hb Hpk)) as (? & ? & He).
  2: destruct (Hlift b _ _ _ eq_refl (cr_claim_archive_ok env s Hs b lease_for Hb)) as (? & ? & He).
  3: destruct (Hlift b _ _ _ eq_refl (cr_claim_cleanup_ok env s Hs b lease_for Hb)) as (? & ? & He).
  4: destruct (Hlift _ _ _ _ eq_refl (cr_renew_ok env s Hs s0 Hb lease_for)) as (? & ? & He).
  5: destruct (Hlift _ _ _ _ eq_refl (cr_defer_archive_ok env s Hs s0 Hb retry_after)) as (? & ? & He).
  6: destruct (Hlift _ _ _ _ eq_refl (cr_defer_cleanup_ok env s Hs s0 Hb retry_after)) as (? & ? & He).
  7: destruct (Hlift b _ _ _ eq_refl (cr_read_range_ok env s Hs b range after limit Hb)) as (? & ? & He).
  8: destruct (Hlift b _ _ _ eq_refl (cr_begin_archive_ok env s Hs b Hb)) as (? & ? & He).
  9: destruct (Hlift _ _ _ _ eq_refl (cr_snapshot_ok env s Hs s0 Hb)) as (? & ? & He).
  10: destruct (Hlift _ _ _ _ eq_refl (cr_publish_ok env s Hs s0 Hb object_key)) as (? & ? & He).
  11: destruct (Hlift _ _ _ _ eq_refl (cr_delete_ok env s Hs s0 Hb)) as (? & ? & He).
  12: destruct (Hlift _ _ _ _ eq_refl (cr_abort_ok env s Hs s0 Hb)) as (? & ? & He).
  all: split_and!; [done..|]; intros b' Hb'; destruct (He b' Hb') as [Hc ->]; simpl in *;
    first [exact Hc | by apply commits_observes].
Qed.

#[export] Program Instance cockroach_laws : StoreLaws CrEnv CrState := {|
  store_inv := cr_inv;
  view := cr_view;
  fidelity := cr_fidelity
|}.
Next Obligation. intros X c env s Hc Hs. by apply cr_exec_ok. Qed.
Next Obligation. intros X c env s b Hc Hs Hb Hne. by rewrite (proj1 (proj2 (cr_exec_ok c env s Hc Hs))). Qed.
Next Obligation. intros X c env s b Hc Hs. by apply cr_exec_ok. Qed.
Next Obligation.
  intros scan env s ws Hs (work & cutover & -> & Hw & Hc)%discover_on_inv. apply Forall_app. split.
  - apply (collect_selected s Hs) in Hw. eapply Forall_impl; [exact Hw|]. naive_solver.
  - destruct Hc as [[-> _]|Hc]; [done|]. apply (collect_selected s Hs) in Hc.
    eapply Forall_impl; [exact Hc|]. naive_solver.
Qed.

(** ** Theorems *)

(** C9. The CockroachDB store implements the trait's contract: from a database that satisfies its
    constraints and route caches that agree with it, every method, run by any process against
    any sequence of transaction outcomes, keeps both, leaves every other bucket untouched, and
    relates the named bucket's state before, the returned value and the state after as the
    contract says; what it stores of a timestamp is what the column keeps. *)
Theorem cockroach_store_refines {X} (c : store_call X) env s b : wf_call c → cr_inv s →
  let '(x, s') := store_exec c env s in
  cr_inv s' ∧
  (call_bucket c = Some b → entry_spec cr_fidelity c (cr_view s b) x (cr_view s' b)) ∧
  (canonical b → call_bucket c ≠ Some b → cr_view s' b = cr_view s b).
Proof.
  intros Hc Hs. destruct (cr_exec_ok c env s Hc Hs) as (? & ? & He).
  destruct (store_exec c env s). split_and!; auto.
Qed.

(** The route cache is transparent: whatever a process has cached, a read whose statement
    succeeds returns exactly what it would with an empty cache. *)
Theorem route_cache_is_transparent b range after limit env s : cr_inv s → canonical b →
  query_outcome env 0 = None →
  (cr_read_range b range after limit env s).1 =
  (cr_read_range b range after limit env (mkCr (db s) ∅)).1.
Proof.
  intros Hs Hb Hq. unfold cr_read_range at 2. unfold cache_of, cached_archived at 1. simpl.
  rewrite lookup_empty. simpl. unfold cr_read_range, cached_archived.
  destruct (cache_of env s !! b) as [e|] eqn:Ec; simpl.
  2: { unfold query_result. rewrite Hq. destruct (routed_rows _ _ _ _ _) as [[st k] rs].
       by destruct (routed_read_from_snapshot st k rs) as [[]|]. }
  destruct (proj1 (cache_of_ok env s Hs) b e Ec) as [_ [del Hst]].
  unfold query_result. rewrite Hq. unfold routed_rows.
  pose proof (route_of_entry s Hs b) as Hr. unfold cr_view in Hr. rewrite Hst in Hr.
  destruct (metadata (db s) !! key_of b) as [r|] eqn:Er; [|done]. destruct Hr as [Hm Hc].
  destruct (meta_check_cases r Hc) as [(_ & _ & _ & _ & _ & Em)|[(_ & _ & _ & _ & _ & Em)|(Es & _ & k & Ek & Em)]];
    rewrite Em in Hm; try done. injection Hm as -> _. by rewrite Es, Ek.
Qed.

(** What a claim decides, on a transaction whose first attempt commits: the cutover of a bucket
    with a metadata row is granted exactly when its retry time has come and it is hot or its
    archiver's lease has expired, the cleanup exactly when it is published and not yet deleted
    and nobody holds its lease; the granted session carries the next generation, and the row
    then holds its token and deadline. *)
Theorem cockroach_claims_exactly_the_claimable b r lease ex env s now rb :
  cr_inv s → metadata (db s) !! key_of b = Some r → m_generation r < i64_max →
  archive_lease_expiry lease (utc_now env) = Ok ex → plan env 4%nat = Ran now None rb Committed →
  let ses := mkSession b (new_token env) (m_generation r + 1) in
  let held (s' : CrState) := ∃ r', metadata (db s') !! key_of b = Some r' ∧ m_generation r' = m_generation r + 1 ∧
    m_owner r' = Some (new_token env) ∧ m_expires r' = Some (timestamptz ex) ∧ m_next r' = None in
  (let '(res, s') := cr_claim_archive b lease env s in
   if null_or_le (m_next r) now && (bool_decide (state_of r = Hot) ||
     bool_decide (state_of r = Archiving) && sql_le (m_expires r) now)
   then res = Ok (Some ses) ∧ held s' else res = Ok None ∧ s' = s) ∧
  (let '(res, s') := cr_claim_cleanup b lease env s in
   if cleanup_pending now r then res = Ok (Some ses) ∧ held s' else res = Ok None ∧ s' = s).
Proof.
  intros Hs Hr Hg Hex Hplan ses held. pose proof (proj1 Hs _ _ Hr) as [Hc Hi _].
  assert ((m_generation r + 1) mod 2 ^ 64 = m_generation r + 1) as Hmod.
  { apply Z.mod_small. unfold meta_check in Hc. unfold i64_max in *. zbool. lia. }
  destruct (state_of_row r Hc) as (Hhot & Harch & _).
  rewrite (bool_decide_ext _ _ Hhot), (bool_decide_ext _ _ Harch).
  unfold cr_claim_archive, cr_claim_cleanup, with_expiry. rewrite Hex.
  rewrite !(run_tx_commits _ _ _ _ _ Hplan) by (apply bind_ret_no_conflict, update_row_no_conflict).
  unfold claim_archive_tx, claim_cleanup_tx, tx_bind, tx_ret, update_row. rewrite Hr.
  fold (claimable now r). unfold int8_range, meta_check in Hi, Hc |- *. zbool. split.
  - destruct (null_or_le (m_next r) now && claimable now r); simpl; [|by destruct s].
    unfold write_row, meta_check, int8_range. simpl.
    rewrite !(proj2 (Z.leb_le _ _)), (proj2 (Z.ltb_lt _ _)) by lia. simpl. rewrite Hmod. split; [done|].
    unfold held. simpl. rewrite lookup_insert_eq. by eexists.
  - fold (cleanup_pending now r). destruct (cleanup_pending now r) eqn:Ep; simpl; [|by destruct s].
    unfold cleanup_pending in Ep. zbool.
    destruct (meta_check_cases r (row_check _ _ (proj1 Hs _ _ Hr))) as [(E & _)|[(E & _)|(E & _ & k & Ek & _)]];
      [congruence..|].
    unfold write_row, meta_check, int8_range. simpl. rewrite E, Ek. simpl.
    rewrite !(proj2 (Z.leb_le _ _)), (proj2 (Z.ltb_lt _ _)) by lia. simpl. rewrite Hmod. split; [done|].
    unfold held. simpl. rewrite lookup_insert_eq. by eexists.
Qed.
(** Selecting below its limit is complete. *)
Lemma select_work_complete cond limit d k r : Z.of_nat (length (select_work cond limit d)) < limit →
  metadata d !! k = Some r → cond r = true → (k, r) ∈ select_work cond limit d.
Proof.
  unfold select_work. intros Hl Hr Hc. rewrite length_take in Hl. rewrite take_ge by lia.
  rewrite sort_by_Permutation, list_elem_of_filter, Is_true_true. split; [done|].
  by apply elem_of_map_to_list.
Qed.
Lemma select_work_length cond limit d : 0 <= limit → Z.of_nat (length (select_work cond limit d)) <= limit.
Proof. intros Hl. unfold select_work. rewrite length_take. lia. Qed.
Lemma collect_complete s w cond limit ws b r : cr_inv s → canonical b →
  collect_work w (select_work cond limit (db s)) = Ok ws → Z.of_nat (length ws) < limit →
  metadata (db s) !! key_of b = Some r → cond r = true → w b ∈ ws.
Proof.
  intros Hs Hb Hw%collect_work_ok Hl Hr Hc. rewrite <- (Forall2_length _ _ _ Hw) in Hl.
  pose proof (select_work_complete cond limit (db s) _ _ Hl Hr Hc) as Hin.
  apply list_elem_of_lookup in Hin as [i Hi].
  destruct (Forall2_lookup_l _ _ _ _ _ Hw Hi) as (x & Hx & b' & Hb' & ->). simpl in Hb'.
  destruct (bucket_from_row_ok s Hs _ _ _ Hr Hb') as (Hcan & Hk & _).
  rewrite (key_of_inj b b' Hb Hcan Hk). by eapply list_elem_of_lookup_2.
Qed.

(** Discovery is sound, bounded, complete and ordered by urgency: at most [limit] items; each
    cleanup is of a published bucket whose rows are still there, each cutover of a bucket that
    ended by the cutoff and is hot or abandoned; a pending item is only left out of a full
    list, and a pending cleanup only of a list of cleanups. The two statements may see different
    states of the database. *)
Theorem cockroach_discovery_exact scan env s1 s2 ws : cr_inv s1 → cr_inv s2 → 0 <= scan_limit scan →
  discover_on scan env (db s1) (db s2) = Ok ws →
  let pending w r := match w with
    | Cleanup b => metadata (db s1) !! key_of b = Some r ∧ cleanup_pending (query_now env 0) r = true
    | Cutover b => metadata (db s2) !! key_of b = Some r ∧
        cutover_pending (timestamptz (eligible_before scan)) (query_now env 1) r = true ∧ m_end r = end_ b
    end in
  Z.of_nat (length ws) <= scan_limit scan ∧
  (∀ w, w ∈ ws → canonical (work_bucket w) ∧ ∃ r, pending w r) ∧
  (∀ w r, canonical (work_bucket w) → pending w r → w ∉ ws →
     Z.of_nat (length ws) = scan_limit scan ∧
     ∀ b, w = Cleanup b → Forall (λ x, ∃ b', x = Cleanup b') ws).
Proof.
  intros Hs1 Hs2 Hl (work & cutover & -> & Hw & Hc)%discover_on_inv pending.
  pose proof (select_work_length (cleanup_pending (query_now env 0)) (scan_limit scan) (db s1) Hl) as Hlen.
  rewrite (Forall2_length _ _ _ (collect_work_ok _ _ _ Hw)) in Hlen.
  pose proof (collect_selected s1 Hs1 _ _ _ _ Hw) as Hsel. rewrite Forall_forall in Hsel.
  assert (Z.of_nat (length (work ++ cutover)) <= scan_limit scan ∧
    (∀ w, w ∈ cutover → canonical (work_bucket w) ∧ ∃ r, pending w r) ∧
    (∀ b r, canonical b → pending (Cutover b) r → Cutover b ∉ cutover →
      Z.of_nat (length (work ++ cutover)) = scan_limit scan) ∧
    (cutover = [] ∨ Z.of_nat (length work) < scan_limit scan)) as (Hlen' & Hsound & Hcut & Hroom).
  { rewrite length_app. destruct Hc as [[-> Hfull]|Hc]; simpl.
    { split_and!; [lia|by intros w Hin%elem_of_nil|lia|by left]. }
    rewrite Z.max_l in Hc by (unfold i64_min; lia).
    pose proof (select_work_length (cutover_pending (timestamptz (eligible_before scan)) (query_now env 1))
      (scan_limit scan - Z.of_nat (length work)) (db s2) ltac:(lia)) as Hlc.
    rewrite (Forall2_length _ _ _ (collect_work_ok _ _ _ Hc)) in Hlc.
    pose proof (collect_selected s2 Hs2 _ _ _ _ Hc) as Hsc. rewrite Forall_forall in Hsc. split_and!; [lia| | |].
    - intros w (b & r & -> & ? & ? & ? & ?)%Hsc. split; [done|]. by exists r.
    - intros b r Hb (Hr & Hp & _) Hnot.
      destruct (decide (Z.of_nat (length cutover) < scan_limit scan - Z.of_nat (length work))) as [Hlt|]; [|lia].
      destruct Hnot. by eapply (collect_complete s2).
    - destruct cutover; [by left|right]. simpl in Hlc. lia. }
  split_and!; [done| |].
  - intros w [Hin|Hin]%elem_of_app; [|by apply Hsound].
    apply Hsel in Hin as (b & r & -> & ? & ? & ? & ?). split; [done|]. by exists r.
  - intros w r Hb Hp [Hnw Hnc]%not_elem_of_app. destruct w as [b|b]; simpl in Hb.
    + split; [by eapply Hcut|done].
    + assert (Z.of_nat (length work) = scan_limit scan) as Hfull.
      { destruct (decide (Z.of_nat (length work) < scan_limit scan)); [|lia].
        destruct Hnw. destruct Hp. by eapply (collect_complete s1). }
      assert (cutover = []) as -> by (destruct Hroom; [done|lia]). rewrite app_nil_r. split; [done|].
      intros b' _. apply Forall_forall. intros x (b1 & r1 & -> & _)%Hsel. eauto.
Qed.

(** ** Appending *)
Lemma strategy_conflict_spec b d : strategy_conflict b d = true ↔
  ∃ k r, metadata d !! k = Some r ∧ k.1.1 = table_id b ∧ m_strategy r ≠ strategy_as_str (strategy b).
Proof.
  unfold strategy_conflict. rewrite existsb_exists. split.
  - intros ([k r] & Hin%list_elem_of_In%elem_of_map_to_list & Hc). zbool. eauto.
  - intros (k & r & Hr & Ht & Hne). exists (k, r). split; [by apply list_elem_of_In, elem_of_map_to_list|].
    simpl. by rewrite bool_decide_eq_true_2, bool_decide_eq_false_2.
Qed.
Lemma insert_metadata_succeeds b d : canonical b → db_ok d →
  ∃ d', insert_metadata b d = Ok (tt, d') ∧ rows d' = rows d ∧
    (∀ k r, metadata d' !! k = Some r → metadata d !! k = Some r ∨ k = key_of b ∧ r = fresh_row b).
Proof.
  intros Hb Hd. unfold insert_metadata. destruct (metadata d !! key_of b) as [r|] eqn:Er; [by eauto 6|].
  destruct (canonical_bounds b Hb) as (_ & _ & Ms & Me & Hlt).
  assert (∀ t, midnight t → timestamptz t = t) as Hts.
  { intros t Ht. apply timestamptz_whole. unfold midnight, NANOS_PER_DAY in Ht. zlia. }
  unfold write_row, meta_check, int8_range. simpl. rewrite !Hts by done.
  rewrite (proj2 (Z.ltb_lt _ _)) by lia. simpl. eexists. split_and!; [done..|]. simpl.
  intros k r. destruct (decide (k = key_of b)) as [->|Hne].
  - rewrite lookup_insert_eq. intros [= <-]. right. split; [done|]. unfold fresh_row. by rewrite !Hts.
  - rewrite lookup_insert_ne by done. auto.
Qed.

Lemma append_no_conflict b r now d : append_tx b r now d ≠ Err (TxDatabase true).
Proof.
  unfold append_tx, tx_bind, insert_metadata, state_from_metadata, insert_record, write_row, tx_fail. by case_all.
Qed.

(** C34. What an append does when its transaction's first attempt commits: another strategy in the
    table's metadata is [BucketStrategyMismatch], a bucket that is not hot is reported by its
    state, a row with the same clustering key makes the insertion fail, each without any
    change; otherwise the record is added, and from then on every bucket of the table has the
    record's strategy. *)
Theorem cockroach_append_outcome b r env s now rb :
  cr_inv s → canonical b → r_partition_key r = partition_key b → plan env 4%nat = Ran now None rb Committed →
  let e := cr_view s b in let '(res, s') := cr_append b r env s in
  if strategy_conflict b (db s) then res = Err BucketStrategyMismatch ∧ s' = s
  else if negb (bool_decide (a_state e = Hot)) then res = Err (BucketReadOnly (a_state e)) ∧ s' = s
  else if bool_decide (clustering (stored_record cr_fidelity r) ∈ map clustering (a_records e))
  then res = Err OperationFailed ∧ s' = s
  else res = Ok tt ∧ a_records (cr_view s' b) ≡ₚ stored_record cr_fidelity r :: a_records e ∧
    ∀ k row, metadata (db s') !! k = Some row → k.1.1 = table_id b → m_strategy row = strategy_as_str (strategy b).
Proof.
  intros Hs Hb Hpk Hplan e.
  pose proof (cr_append_ok env s Hs b r Hb Hpk) as (_ & _ & Hm).
  unfold cr_append in *. rewrite (run_tx_commits _ _ _ _ _ Hplan) in *; [|apply append_no_conflict..].
  unfold append_tx in *. destruct (strategy_conflict b (db s)) eqn:Esc; [done|].
  destruct (insert_metadata_succeeds b (db s) Hb (proj1 Hs)) as (d1 & Hi & Hrows & Hmeta).
  destruct (fresh_row_ok b (db s) tt d1 Hb (proj1 Hs) Hi) as (Hd1 & [row Hrow] & Hsame).
  assert (a_records e = bucket_rows d1 b ∧ metadata_state row = Ok (a_state e)) as [Hrec Hst].
  { unfold e, cr_view. rewrite <- (Hsame b Hb), (db_entry_row d1 b row Hrow). split; [done|]. simpl.
    pose proof (row_check _ _ (Hd1 _ _ Hrow)) as Hc. unfold state_of.
    destruct (meta_check_cases row Hc) as [(_ & _ & _ & _ & _ & ->)|[(_ & _ & _ & _ & _ & ->)|(_ & _ & k & _ & ->)]]; done. }
  unfold tx_bind in *. rewrite Hi in *. unfold state_from_metadata in *. rewrite Hrow, Hst in *.
  destruct (bool_decide (a_state e = Hot)) eqn:Hhot; [|done]. simpl negb in *. cbv iota in *.
  rewrite Hrec. unfold insert_record in *. rewrite Hpk in *.
  change (table_id b, partition_key b, key b) with (key_of b) in *. rewrite Hrow in *.
  assert (clustering (stored_record cr_fidelity r) ∈ map clustering (bucket_rows d1 b) ↔
    is_Some (default ∅ (rows d1 !! key_of b) !! (timestamptz (event_time r), sort_key r))) as Hiff.
  { unfold bucket_rows. rewrite map_map, list_elem_of_fmap. split.
    - intros ([[t k] v] & Heq & Hin%elem_of_map_to_list). injection Heq as -> ->. eauto.
    - intros [v Hv%elem_of_map_to_list]. by exists ((timestamptz (event_time r), sort_key r), v). }
  rewrite (bool_decide_ext _ _ Hiff). destruct (_ !! (_, _)) as [v|] eqn:Edup; simpl in *; [done|].
  destruct Hm as [_ Hm]. apply a_records_proper in Hm. simpl in Hm.
  split_and!; [done|by rewrite <- Hrec|]. intros k row' [Hk|[-> ->]]%Hmeta Ht; [|done].
  destruct (decide (m_strategy row' = strategy_as_str (strategy b))) as [|Hne]; [done|].
  assert (strategy_conflict b (db s) = true) by (apply strategy_conflict_spec; eauto). congruence.
Qed.
End cockroach.

(** C19. A transaction is atomic however its attempts fare: success means some attempt ran the
    statements on the database as it was and committed exactly their result; an error leaves
    the database as it was, except that after [OperationFailed] or [CommitOutcomeUnknown] the
    statements may have been applied, once; and any other error is the pool's refusal or the
    statements' own. *)
Theorem transaction_is_atomic {A} (operation : Z → Tx A) pl d :
  let '(res, d') := transaction operation pl d in
  match res with
  | Ok v => ∃ i now rb, (i < MAX_TRANSACTION_ATTEMPTS)%nat ∧ pl i = Ran now None rb Committed ∧
      operation now d = Ok (v, d')
  | Err err =>
      (d' = d ∨ ambiguous err = true ∧ ∃ now v, operation now d = Ok (v, d')) ∧
      (ambiguous err = false → err = Unavailable ∨ ∃ now, operation now d = Err (TxStore err))
  end.
Proof. exact (transaction_loop_outcome MAX_TRANSACTION_ATTEMPTS operation pl d). Qed.

(** An attempt that ends in a serialization failure the loop may retry. *)
Definition conflicts {A} (operation : Z → Tx A) (d : Db) (a : attempt) : bool :=
  match a with
  | BeginFailed retryable => retryable
  | Ran now (Some retryable) rolled_back _ => retryable && rolled_back
  | Ran now None _ CommitConflict => is_ok (operation now d)
  | _ => false
  end.

(** The loop retries: up to four serialization failures are absorbed and the first attempt
    that commits decides the result; five of them give [OperationFailed] and no change. *)
Theorem transaction_absorbs_conflicts {A} (operation : Z → Tx A) pl d n :
  (n <= MAX_TRANSACTION_ATTEMPTS)%nat →
  (∀ i, (n <= i < MAX_TRANSACTION_ATTEMPTS)%nat → conflicts operation d (pl i) = true) →
  match n with
  | O => transaction operation pl d = (Err OperationFailed, d)
  | S m => ∀ now rb v d', pl m = Ran now None rb Committed → operation now d = Ok (v, d') →
      transaction operation pl d = (Ok v, d')
  end.
Proof.
  unfold transaction. intros Hn Hc.
  assert (∀ k, (n <= k <= MAX_TRANSACTION_ATTEMPTS)%nat →
    match n with
    | O => transaction_loop k operation pl d = (Err OperationFailed, d)
    | S m => ∀ now rb v d', pl m = Ran now None rb Committed → operation now d = Ok (v, d') →
        transaction_loop k operation pl d = (Ok v, d')
    end) as Hk; [|by apply Hk].
  induction k as [|k IH]; intros Hk.
  { by destruct n; [|lia]. }
  destruct (decide (n = S k)) as [->|Hne].
  { intros now rb v d' Hp Ho. simpl. by rewrite Hp, Ho. }
  specialize (IH ltac:(lia)). assert (conflicts operation d (pl k) = true) as Hck by (apply Hc; lia).
  assert (∀ e, (if negb (k =? 0)%nat then transaction_loop k operation pl d else (Err e, d)) =
    if (k =? 0)%nat then (Err e, d) else transaction_loop k operation pl d) as Hif by (intros; by destruct (k =? 0)%nat).
  assert (transaction_loop (S k) operation pl d =
    if (k =? 0)%nat then (Err OperationFailed, d) else transaction_loop k operation pl d) as ->.
  { simpl. rewrite <- Hif. destruct (pl k) as [|[]| | |now [[]|] [] [| |?|?]]; try done; simpl in *;
      by destruct (operation now d) as [[]|]. }
  destruct (Nat.eqb_spec k 0) as [->|]; [|done]. by destruct n; [|lia].
Qed.

(** The backoff before attempt [attempt + 2] is jittered between half the exponential cap and
    the cap, which never exceeds 800 milliseconds, and [attempt] never overflows the shift. *)
Theorem retry_delay_bounds attempt sample : 0 <= attempt → 0 <= sample < 65536 →
  let cap := 25 * 2 ^ Z.min attempt 5 in
  cap / 2 <= transaction_retry_delay attempt sample <= cap ∧ 12 <= transaction_retry_delay attempt sample <= 800.
Proof.
  intros Ha Hs cap. unfold transaction_retry_delay. rewrite Z.shiftl_1_l. fold cap.
  assert (25 <= cap <= 800) as Hcap.
  { subst cap. assert (0 <= Z.min attempt 5 <= 5) as Hm by lia. revert Hm. generalize (Z.min attempt 5). intros m Hm.
    assert (m = 0 ∨ m = 1 ∨ m = 2 ∨ m = 3 ∨ m = 4 ∨ m = 5) as Hcases by lia.
    destruct Hcases as [->|[->|[->|[->|[->| ->]]]]]; lia. }
  unfold u64_max. rewrite !Z.min_l by lia. pose proof (Z.mod_pos_bound sample (cap / 2 + 1)). zlia.
Qed.
