(* ===== verification/LeaseStores.v ===== *)
(** The stores of [Leases]: the in-memory store (src/ports/storage.rs) and the CockroachDB store
    (src/adapters/cockroach_durable.rs) keep a lease until its deadline, grant nothing meanwhile and
    renew it for its holder. The database computes deadlines from the clock of the calling process and
    checks them against its own, so its lead is the skew of those clocks and the precision of the
    column. *)
From S2P Require Import Prelude Chrono Model Storage MemStore Observability Prog Coordinator System Renewer Leases Cockroach.
Local Open Scope Z_scope.

(** ** The in-memory store *)
Definition mem_held (s : ArchiveSession) (x : Z) (m : MemState) : Prop := ∃ e,
  m !! session_bucket s = Some e ∧ generation e = session_generation s ∧ archive_owner_token e = Some (owner_token s) ∧
  archive_owner_expires_at e = Some x ∧ e_state e ≠ Hot.
#[export] Instance mem_lease_store : LeaseStore Env MemState := {|
  lease_held := mem_held;
  call_within from to env := from <= now env <= to ∧ from <= deadline_now env <= to ∧ from <= validate_now env <= to;
  serves lease env := lease ≠ 0 ∧ deadline_now env + lease <= INSTANT_MAX;
  lead := 0;
  horizon := INSTANT_MAX
|}.

Section holding.
Context (s : ArchiveSession) (x : Z).

(** Another session of the bucket is refused. *)
Lemma other_session_stale e s' t : session_bucket s' = session_bucket s → s' ≠ s →
  generation e = session_generation s → archive_owner_token e = Some (owner_token s) →
  validate_active_session e s' t = Err StaleArchiveSession.
Proof.
  intros Hb Hne Hg Ht. unfold validate_active_session. rewrite Hg, Ht.
  destruct (session_generation s =? session_generation s') eqn:Eg; [|done].
  case_bool_decide as Eo; [|by rewrite orb_true_r]. destruct Hne. zbool. destruct s, s'; simplify_eq/=. congruence.
Qed.
Lemma lease_unexpired e t : archive_owner_expires_at e = Some x → t < x → lease_expired e t = false.
Proof. intros He Ht. unfold lease_expired. rewrite He. by apply Z.leb_gt. Qed.
Lemma holder_active e t : generation e = session_generation s → archive_owner_token e = Some (owner_token s) →
  archive_owner_expires_at e = Some x → t < x → validate_active_session e s t = Ok tt.
Proof.
  intros Hg Ht He Hlt. unfold validate_active_session.
  rewrite Hg, Ht, Z.eqb_refl, bool_decide_eq_true_2, (lease_unexpired e t He Hlt) by done. done.
Qed.

(** A change of the bucket's entry that keeps the owner and the lease. *)
Lemma holds_insert m e e' : m !! session_bucket s = Some e → mem_held s x m →
  generation e' = generation e → archive_owner_token e' = archive_owner_token e →
  archive_owner_expires_at e' = archive_owner_expires_at e → e_state e' ≠ Hot →
  mem_held s x (<[session_bucket s := e']> m).
Proof.
  intros Hm (e0 & Hm0 & ? & ? & ? & ?) ? ? ? ?. simplify_eq. exists e'. rewrite lookup_insert_eq. split_and!; congruence.
Qed.
Lemma holds_insert_ne m b e : b ≠ session_bucket s → mem_held s x m → mem_held s x (<[b := e]> m).
Proof. intros Hb (e0 & Hm & ?). exists e0. by rewrite lookup_insert_ne. Qed.

(** While the lease lasts, no call but the holder's own takes it away. *)
Lemma call_keeps_lease {X} (c : store_call X) env m : mem_held s x m →
  now env < x → ¬ gives_up s c → mem_held s x (store_exec c env m).2.
Proof.
  intros Hh Hn Hg. pose proof Hh as (e & Hm & Egen & Etok & Eexp & Est).
  pose proof (lease_unexpired e (now env) Eexp Hn) as Hun. unfold store_exec, InMemoryDurableBucketStore.
  destruct (decide (call_bucket c = Some (session_bucket s))) as [Hb|Hb].
  2: { assert (∀ b e', call_bucket c = Some b → mem_held s x (<[b := e']> m)) as Hother
         by (intros b e' Hc; apply holds_insert_ne; [congruence|done]).
       destruct c; simpl in *; unfold append, claim_archive, claim_cleanup, renew_archive_lease, defer_archive,
         defer_cleanup, begin_archive, publish_archive, delete_hot_bucket, abort_archive; repeat case_match; simpl; auto. }
  assert (∀ s' : ArchiveSession, session_bucket s' = session_bucket s → s' ≠ s → ∀ t,
    validate_active_session e s' t = Err StaleArchiveSession) as Hstale by (intros; by eapply other_session_stale).
  pose proof (bool_decide_eq_false_2 _ Est) as Hnot.
  destruct c as [b r|b|scan|b l|b l|s' l|s' l|s' l|b range after lim|b|s'|s' key|s'|s']; simpl in *; try done;
    simplify_eq; unfold append, claim_archive, claim_cleanup, renew_archive_lease, defer_archive, defer_cleanup,
      begin_archive, publish_archive, delete_hot_bucket, abort_archive, validate_archive_session;
    rewrite ?(entry_or_default_lookup _ _ _ Hm), ?Hb, ?Hm, ?Hun, ?Hstale, ?Hnot, ?andb_false_r by done; simpl;
    repeat case_match; guards; try done.
  all: eapply holds_insert; simpl; eauto; congruence.
Qed.
(** Nor is anybody granted the bucket. *)
Lemma no_grant_while_held {X} (c : store_call X) env m : mem_held s x m →
  now env < x → call_bucket c = Some (session_bucket s) → granted c (store_exec c env m).1 = None.
Proof.
  intros (e & Hm & Egen & Etok & Eexp & Est) Hn Hb.
  pose proof (lease_unexpired e (now env) Eexp Hn) as Hun. pose proof (bool_decide_eq_false_2 _ Est) as Hnot.
  unfold store_exec, InMemoryDurableBucketStore.
  destruct c as [b r|b|scan|b l|b l|s' l|s' l|s' l|b range after lim|b|s'|s' key|s'|s']; simpl in *; try done;
    simplify_eq; unfold claim_archive, claim_cleanup, begin_archive;
    rewrite ?(entry_or_default_lookup _ _ _ Hm), ?Hm, ?Hun, ?Hnot, ?andb_false_r; simpl; try done.
  all: destruct (lease_deadline _ _); [done|]; simpl; by destruct (e_state e) as [| |? []].
Qed.
End holding.

(** The holder renews in time: the lease starts again. *)
Lemma mem_renewed s x lease env m : mem_held s x m → serves lease env → validate_now env < x →
  (renew_archive_lease s lease env m).1 = Ok tt ∧
  mem_held s (deadline_now env + lease) (renew_archive_lease s lease env m).2.
Proof.
  intros (e & Hm & Egen & Etok & Eexp & Est) [Hl Hmax] Hlt.
  unfold renew_archive_lease, lease_deadline, instant_checked_add.
  rewrite (proj2 (Z.eqb_neq _ _) Hl), (proj2 (Z.leb_le _ _) Hmax). simpl.
  rewrite Hm, (holder_active s x) by done. split; [done|].
  eexists. simpl. rewrite lookup_insert_eq. split_and!; [reflexivity|..]; done.
Qed.
#[export] Instance mem_lease_laws `{Chrono} : LeaseLaws Env MemState.
Proof.
  split; simpl.
  - intros X c env m s x from to _ Hg Hh (Hn & _) Hlt. apply call_keeps_lease; [done|lia|done].
  - intros X c env m s x from to _ Hb Hh (Hn & _) Hlt. eapply no_grant_while_held; [done|lia|done].
  - intros env m s x lease from to Hh (_ & Hd & Hv) Hs Hlt. destruct (mem_renewed s x lease env m) as [Hok Hh']; [done|done|lia|].
    split; [done|]. exists (deadline_now env + lease). split; [lia|done].
  - intros X c env m s lease from to _ (_ & Hd & _) Hg Hc. exists (deadline_now env + lease). split; [lia|]. revert Hg Hc.
    unfold store_exec, InMemoryDurableBucketStore. destruct c; simpl; try done;
      unfold claim_archive, claim_cleanup, begin_archive; intros Hg [= <-]; revert Hg; case_all; simpl; try done;
      guards; intros; simplify_eq.
    all: eexists; simpl; rewrite lookup_insert_eq; split_and!; [reflexivity|..]; simpl; try done; congruence.
  - done.
  - intros t lease Ht Hl Hmax. exists (mkEnv t t t EmptyString). simpl. split_and!; lia.
Qed.

(** ** The CockroachDB store *)
(** Dates that can be represented add up, and the column type is precise to the microsecond. *)
Class DriverClock `{Driver} := {
  utc_horizon : Z;
  duration_exact d : 0 <= d <= utc_horizon → duration_from_std d = Some d;
  add_exact t d : 0 <= t → 0 <= d → t + d <= utc_horizon → checked_add_signed t d = Some (t + d);
  duration_sound d x : duration_from_std d = Some x → x = d;
  add_sound t d x : checked_add_signed t d = Some x → x = t + d;
  timestamptz_near t : t - 1000 < timestamptz t
}.

(** The row of a bucket whose lease runs until [x]. *)
Definition held_by (s : ArchiveSession) (x : Z) (r : MetaRow) : Prop :=
  m_generation r = session_generation s ∧ m_owner r = Some (owner_token s) ∧ m_expires r = Some x ∧
  (m_state r = "archiving" ∨ m_state r = "archived" ∧ m_hot_deleted r = false).
Definition row_held (s : ArchiveSession) (x : Z) (d : Db) : Prop := ∃ r,
  metadata d !! key_of (session_bucket s) = Some r ∧ held_by s x r ∧ meta_check r = true ∧ int8_range r = true.

Section rows.
Context `{ChronoLaws, DriverLaws} (s : ArchiveSession) (x now : Z) (Hbucket : canonical (session_bucket s)) (Hnow : now < x).

(** Nobody else is its owner, and nobody may claim it. *)
Lemma held_owner s' r : canonical (session_bucket s') → key_of (session_bucket s') = key_of (session_bucket s) →
  held_by s x r → owned now (session_generation s') (owner_token s') r = true → s' = s.
Proof.
  intros Hc Hk (Hg & Ho & _) Hown. apply key_of_inj in Hk; [|done..]. unfold owned in Hown. zbool.
  destruct s, s'. simpl in *. congruence.
Qed.
Lemma held_unclaimable r : held_by s x r → claimable now r = false.
Proof.
  intros (_ & _ & He & Hst). unfold claimable. rewrite He. simpl. rewrite (proj2 (Z.leb_gt _ _) Hnow), andb_false_r.
  by destruct Hst as [->|[-> _]].
Qed.

(** What a statement does to the row. *)
Lemma update_row_held k cond set d row d' : row_held s x d → update_row k cond set d = Ok (row, d') →
  (∀ r, k = key_of (session_bucket s) → held_by s x r → cond r = true → held_by s x (set r)) → row_held s x d'.
Proof.
  intros (r & Hr & Hh & Hc & Hi) [[-> ->]|(r0 & Hr0 & Hcond & _ & Hc' & Hi' & ->)]%update_row_ok Hset; [by exists r|].
  destruct (decide (k = key_of (session_bucket s))) as [->|Hne].
  - simplify_eq. exists (set r). simpl. rewrite lookup_insert_eq. auto.
  - exists r. simpl. by rewrite lookup_insert_ne.
Qed.
Lemma update_one_held k cond set d u d' : row_held s x d → update_one k cond set d = Ok (u, d') →
  (∀ r, k = key_of (session_bucket s) → held_by s x r → cond r = true → held_by s x (set r)) → row_held s x d'.
Proof.
  intros Hh. unfold update_one. unfold tx_bind at 1. destruct (update_row k cond set d) as [[row d1]|] eqn:E; [|done].
  intros Hrest Hset. assert (d' = d1) as -> by (by destruct row; [injection Hrest|discriminate Hrest]). by eapply update_row_held.
Qed.
Lemma insert_metadata_held b d u d' : row_held s x d → insert_metadata b d = Ok (u, d') → row_held s x d'.
Proof.
  intros (r & Hr & Hh & Hc & Hi). unfold insert_metadata. destruct (metadata d !! key_of b) as [r0|] eqn:Eb.
  - intros [= <- <-]. by exists r.
  - intros (_ & _ & ->)%write_row_ok. exists r. simpl. rewrite lookup_insert_ne; [done|]. intros E. congruence.
Qed.
Lemma state_from_metadata_db b d v d' : state_from_metadata b d = Ok (v, d') → d' = d.
Proof. unfold state_from_metadata. repeat case_match; naive_solver. Qed.
(** Changes that leave owner and deadline, or that only the owner could make. *)
Lemma held_other s' r (P : Prop) : s' ≠ s → canonical (session_bucket s') →
  key_of (session_bucket s') = key_of (session_bucket s) → held_by s x r →
  owned now (session_generation s') (owner_token s') r = true → P.
Proof. intros Hne Hc Hk Hh Ho. destruct Hne. by eapply held_owner. Qed.

(** ** The transactions *)
Definition keeps {A} (op : Tx A) : Prop := ∀ d v d', row_held s x d → op d = Ok (v, d') → row_held s x d'.
Lemma lease_kept_bind {A B} (op : Tx A) (k : A → Tx B) : keeps op → (∀ a, keeps (k a)) → keeps (tx_bind op k).
Proof.
  intros Ho Hk d v d' Hh. unfold tx_bind. destruct (op d) as [[a d1]|] eqn:E; [|done]. intros E'.
  eapply Hk; [|exact E']. by eapply Ho.
Qed.
Lemma lease_kept_ret {A} (a : A) : keeps (tx_ret a).
Proof. by intros d v d' Hh [= <- <-]. Qed.
Lemma lease_kept_fail {A} e : keeps (tx_fail (A := A) e).
Proof. by intros d v d' Hh. Qed.
Lemma keeps_update k cond set :
  (∀ r, k = key_of (session_bucket s) → held_by s x r → cond r = true → held_by s x (set r)) → keeps (update_row k cond set).
Proof. intros Hset d v d' Hh Hop. by eapply update_row_held. Qed.
Lemma keeps_update_one k cond set :
  (∀ r, k = key_of (session_bucket s) → held_by s x r → cond r = true → held_by s x (set r)) → keeps (update_one k cond set).
Proof. intros Hset d v d' Hh Hop. by eapply update_one_held. Qed.
Lemma keeps_insert b : keeps (insert_metadata b).
Proof. intros d v d' Hh Hop. by eapply insert_metadata_held. Qed.
Lemma keeps_state b : keeps (state_from_metadata b).
Proof. by intros d v d' Hh ->%state_from_metadata_db. Qed.

Lemma append_keeps b r : keeps (append_tx b r now).
Proof.
  intros d v d' Hh. unfold append_tx. destruct (strategy_conflict b d); [done|]. revert Hh. apply lease_kept_bind; [apply keeps_insert|].
  intros _. apply lease_kept_bind; [apply keeps_state|]. intros [st|]; [|apply lease_kept_fail]. case_bool_decide; [|apply lease_kept_fail].
  intros d1 v1 d2 (r0 & Hr0 & Hrest). unfold insert_record. repeat case_match; try done. intros [= <- <-]. by exists r0.
Qed.
Lemma claim_archive_keeps b token ex : keeps (claim_archive_tx b token ex now).
Proof.
  apply lease_kept_bind; [|intros; apply lease_kept_ret]. apply keeps_update. intros r _ Hh. by rewrite held_unclaimable, andb_false_r.
Qed.
Lemma claim_cleanup_keeps b token ex : keeps (claim_cleanup_tx b token ex now).
Proof.
  apply lease_kept_bind; [|intros; apply lease_kept_ret]. apply keeps_update. intros r _ (_ & _ & He & _). rewrite He. simpl.
  by rewrite (proj2 (Z.leb_gt _ _) Hnow), andb_false_r.
Qed.
Lemma begin_keeps b token : keeps (begin_archive_tx b token now).
Proof.
  apply lease_kept_bind; [apply keeps_insert|]. intros _. apply lease_kept_bind.
  - apply keeps_update. intros r _ Hh. by rewrite held_unclaimable.
  - intros [r|]; [case_match; [apply lease_kept_ret|apply lease_kept_fail]|]. apply lease_kept_bind; [apply keeps_state|].
    intros [st|]; apply lease_kept_fail.
Qed.
Lemma snapshot_keeps s' : keeps (snapshot_tx s' now).
Proof. intros d v d' Hh. unfold snapshot_tx. repeat case_match; try done. by intros [= <- <-]. Qed.
Lemma publish_keeps s' object_key : keeps (publish_tx s' object_key now).
Proof.
  apply keeps_update_one. intros r _ (Hg & Ho & He & _) _. split_and!; simpl; try done. by right.
Qed.

(** The transactions of other sessions. *)
Section others.
Context (s' : ArchiveSession) (Hne : s' ≠ s) (Hc : canonical (session_bucket s')).
Lemma renew_keeps ex : keeps (renew_tx s' ex now).
Proof.
  apply keeps_update_one. intros r Hk Hh [Ho _]%andb_prop. by eapply held_other.
Qed.
Lemma defer_archive_keeps retry_at : keeps (defer_archive_tx s' retry_at now).
Proof. apply keeps_update_one. intros r Hk Hh [_ Ho]%andb_prop. by eapply held_other. Qed.
Lemma defer_cleanup_keeps retry_at : keeps (defer_cleanup_tx s' retry_at now).
Proof. apply keeps_update_one. intros r Hk Hh [_ Ho]%andb_prop. by eapply held_other. Qed.
Lemma abort_keeps : keeps (abort_tx s' now).
Proof. apply keeps_update_one. intros r Hk Hh [_ Ho]%andb_prop. by eapply held_other. Qed.
Lemma delete_keeps : keeps (delete_hot_bucket_tx s' now).
Proof.
  apply lease_kept_bind.
  - intros d v d' (r & Hr & Hrest). unfold delete_rows. repeat case_match; intros [= <- <-]; by exists r.
  - intros _. apply keeps_update_one. intros r Hk Hh [_ Ho]%andb_prop. by eapply held_other.
Qed.
End others.
End rows.

(** A call changes the database by at most one run of its statements, at a timestamp of its plan, and
    answers what that run returned. *)
Lemma transaction_ran {A} n (op : Z → Tx A) pl d :
  ((transaction_loop n op pl d).2 = d ∧ is_ok (transaction_loop n op pl d).1 = false) ∨
  ∃ i now rb rep v, pl i = Ran now None rb rep ∧ op now d = Ok (v, (transaction_loop n op pl d).2) ∧
    ∀ w, (transaction_loop n op pl d).1 = Ok w → w = v.
Proof.
  induction n as [|n IH]; simpl; [by left|].
  assert (∀ (c : bool) e, ((if c then transaction_loop n op pl d else (Err e, d)).2 = d ∧
      is_ok (if c then transaction_loop n op pl d else (Err e, d)).1 = false) ∨
    ∃ i now rb rep v, pl i = Ran now None rb rep ∧ op now d = Ok (v, (if c then transaction_loop n op pl d else (Err e, d)).2) ∧
      ∀ w, (if c then transaction_loop n op pl d else (Err e, d)).1 = Ok w → w = v) as Hretry.
  { intros [] e; [done|by left]. }
  destruct (pl n) as [|rt| | |now fault rb rep] eqn:Epl; try (by left); [apply Hretry|].
  destruct fault as [[]|]; [apply Hretry|by left|].
  destruct (op now d) as [[v d1]|[[]|e]] eqn:Eop; [|apply Hretry|by left|by left].
  destruct rep as [| |[]|[]]; [|apply Hretry|..]; try (by left); right; exists n, now, rb; eexists; exists v;
    (split; [done|]); (split; [done|]); simpl; intros w; by intros [= <-].
Qed.

Section cockroach_leases.
Context `{ChronoLaws, DriverLaws, !DriverClock} (skew : Z).

(** The process's clock may be behind the database's by [skew]. *)
Definition cr_held (s : ArchiveSession) (x : Z) (st : CrState) : Prop := canonical (session_bucket s) ∧ row_held s x (db st).
Definition cr_within (from to : Z) (env : CrEnv) : Prop :=
  (∀ i now fault rb rep, plan env i = Ran now fault rb rep → from <= now <= to) ∧ from - skew <= utc_now env.
Definition cr_serves (lease : Z) (env : CrEnv) : Prop :=
  (∃ ex, archive_lease_expiry lease (utc_now env) = Ok ex) ∧ ∃ now rb, plan env 4%nat = Ran now None rb Committed.
Definition cr_lease_store : LeaseStore CrEnv CrState := {|
  lease_held := cr_held;
  call_within := cr_within;
  serves := cr_serves;
  lead := skew + 1000;
  horizon := utc_horizon
|}.

Lemma run_tx_ran {A} (op : Z → Tx A) env st from to : cr_within from to env →
  (db (run_tx op env st).2 = db st ∧ is_ok (run_tx op env st).1 = false) ∨
  ∃ now v, from <= now <= to ∧ op now (db st) = Ok (v, db (run_tx op env st).2) ∧
    ∀ w, (run_tx op env st).1 = Ok w → w = v.
Proof.
  intros [Hw _]. unfold run_tx, transaction. pose proof (transaction_ran MAX_TRANSACTION_ATTEMPTS op (plan env) (db st)) as Hran.
  destruct (transaction_loop _ _ _ _) as [res d]. simpl in *.
  destruct Hran as [Hran|(i & now & rb & rep & v & Hi & Hop & Hv)]; [by left|right]. exists now, v. eauto.
Qed.
Lemma run_tx_held {A} (op : Z → Tx A) env st s x from to : cr_within from to env → to < x →
  (∀ now, now < x → keeps s x (op now)) → row_held s x (db st) → row_held s x (db (run_tx op env st).2).
Proof.
  intros Hw Hlt Hk Hh. destruct (run_tx_ran op env st from to Hw) as [[-> _]|(now & v & Hnow & Hop & _)]; [done|].
  eapply Hk; [|exact Hh|exact Hop]. lia.
Qed.
Lemma then_invalidate_db {A} b env (out : Result DurableBucketStoreError A * CrState) : db (then_invalidate b env out).2 = db out.2.
Proof. by destruct out as [[a|e] st]. Qed.
Lemma expiry_near lease t ex : archive_lease_expiry lease t = Ok ex → lease ≠ 0 ∧ t + lease - 1000 < timestamptz ex.
Proof.
  unfold archive_lease_expiry. destruct (Z.eqb_spec lease 0); [done|]. destruct (duration_from_std lease) as [d|] eqn:Ed; [|done].
  destruct (checked_add_signed t d) as [y|] eqn:Ey; [|done]. intros [= <-]. apply duration_sound in Ed. apply add_sound in Ey.
  subst. split; [done|]. apply timestamptz_near.
Qed.
Lemma with_generation_held {A} s x ses (k : Result DurableBucketStoreError A * CrState) st :
  row_held s x (db st) → row_held s x (db k.2) → row_held s x (db (with_generation ses k st).2).
Proof. intros. unfold with_generation. by case_match. Qed.
Lemma with_expiry_held {A} s x lease env (k : Z → Result DurableBucketStoreError A * CrState) st :
  row_held s x (db st) → (∀ ex, row_held s x (db (k ex).2)) → row_held s x (db (with_expiry lease env k st).2).
Proof. intros Hh Hk. unfold with_expiry. case_match; [apply Hk|done]. Qed.
Lemma read_range_db b range after limit env st : db (cr_read_range b range after limit env st).2 = db st.
Proof. unfold cr_read_range. repeat case_match; done. Qed.
Lemma claim_archive_db b lease env st : db (cr_claim_archive b lease env st).2 =
  db (with_expiry lease env (λ ex, run_tx (claim_archive_tx b (new_token env) ex) env st) st).2.
Proof.
  unfold cr_claim_archive, with_expiry. destruct (archive_lease_expiry _ _) as [ex|]; [|done].
  by destruct (run_tx _ env st) as [[[ses|]|e] st'].
Qed.

(** While the lease lasts, no call but the holder's own takes it away. *)
Lemma cr_call_keeps {X} (c : store_call X) env st s x from to : wf_call c → ¬ gives_up s c →
  cr_held s x st → cr_within from to env → to < x → cr_held s x (store_exec c env st).2.
Proof.
  intros [Hwf _] Hg [Hb Hh] Hw Hlt. split; [done|].
  unfold store_exec, CockroachDurableBucketStore.
  destruct c as [b r|b|scan|b l|b l|s' l|s' l|s' l|b range after lim|b|s'|s' key|s'|s']; simpl in *;
    rewrite ?read_range_db, ?claim_archive_db; try done;
    unfold cr_append, cr_claim_cleanup, cr_renew, cr_defer_archive, cr_defer_cleanup, cr_begin_archive, cr_snapshot, cr_publish,
      cr_delete, cr_abort;
    repeat first [apply with_generation_held; [done|]|apply with_expiry_held; [done|intros ex]]; rewrite ?then_invalidate_db;
    eapply run_tx_held; eauto; intros now Hnow.
  - by apply append_keeps.
  - by apply claim_archive_keeps.
  - by apply claim_cleanup_keeps.
  - by apply renew_keeps.
  - by apply defer_archive_keeps.
  - by apply defer_cleanup_keeps.
  - by apply begin_keeps.
  - by apply snapshot_keeps.
  - by apply publish_keeps.
  - by apply delete_keeps.
  - by apply abort_keeps.
Qed.

(** Claims of the bucket find nothing to update. *)
Lemma claim_archive_refused s x now token ex d v d' : now < x → row_held s x d →
  claim_archive_tx (session_bucket s) token ex now d = Ok (v, d') → v = None.
Proof.
  intros Hnow (r & Hr & Hh & _). unfold claim_archive_tx, tx_bind, update_row. rewrite Hr.
  rewrite (held_unclaimable s x now Hnow r Hh), andb_false_r. by intros [= <- <-].
Qed.
Lemma claim_cleanup_refused s x now token ex d v d' : now < x → row_held s x d →
  claim_cleanup_tx (session_bucket s) token ex now d = Ok (v, d') → v = None.
Proof.
  intros Hnow (r & Hr & (_ & _ & He & _) & _). unfold claim_cleanup_tx, tx_bind, update_row. rewrite Hr, He. simpl.
  rewrite (proj2 (Z.leb_gt _ _) Hnow), andb_false_r. by intros [= <- <-].
Qed.
Lemma begin_refused s x now token d v d' : now < x → row_held s x d →
  begin_archive_tx (session_bucket s) token now d ≠ Ok (v, d').
Proof.
  intros Hnow (r & Hr & Hh & _). unfold begin_archive_tx, tx_bind, insert_metadata, update_row, state_from_metadata. rewrite Hr.
  rewrite Hr, (held_unclaimable s x now Hnow r Hh), Hr. by destruct (metadata_state r).
Qed.
Lemma cr_not_granted {X} (c : store_call X) env st s x from to : call_bucket c = Some (session_bucket s) →
  cr_held s x st → cr_within from to env → to < x → granted c (store_exec c env st).1 = None.
Proof.
  intros Hb [_ Hh] Hw Hlt. unfold store_exec, CockroachDurableBucketStore. destruct c; simpl in *; try done; simplify_eq.
  - unfold cr_claim_archive, with_expiry. destruct (archive_lease_expiry _ _) as [ex|]; [|done].
    destruct (run_tx_ran (claim_archive_tx (session_bucket s) (new_token env) (timestamptz ex)) env st from to Hw)
      as [[_ Hno]|(now & v & Hnow & Hop & Hv)]; destruct (run_tx _ env st) as [[v'|] st']; try done.
    rewrite (Hv v' eq_refl), (claim_archive_refused s x now _ _ _ _ _ ltac:(lia) Hh Hop). done.
  - unfold cr_claim_cleanup, with_expiry. destruct (archive_lease_expiry _ _) as [ex|]; [|done].
    destruct (run_tx_ran (claim_cleanup_tx (session_bucket s) (new_token env) (timestamptz ex)) env st from to Hw)
      as [[_ Hno]|(now & v & Hnow & Hop & Hv)]; destruct (run_tx _ env st) as [[v'|] st']; try done.
    simpl. by rewrite (Hv v' eq_refl), (claim_cleanup_refused s x now _ _ _ _ _ ltac:(lia) Hh Hop).
  - unfold cr_begin_archive.
    destruct (run_tx_ran (begin_archive_tx (session_bucket s) (new_token env)) env st from to Hw)
      as [[_ Hno]|(now & v & Hnow & Hop & Hv)]; destruct (run_tx _ env st) as [[v'|] st']; try done.
    destruct (begin_refused s x now _ _ _ _ ltac:(lia) Hh Hop).
Qed.

(** A renewal that is served. *)
Lemma cr_renewed env st s x lease from to : cr_held s x st → cr_within from to env → cr_serves lease env → to < x →
  (store_exec (RenewArchiveLease s lease) env st).1 = Ok tt ∧
  ∃ x', from + lease - (skew + 1000) <= x' ∧ cr_held s x' (store_exec (RenewArchiveLease s lease) env st).2.
Proof.
  intros [Hb (r & Hr & (Hg & Ho & He & Hst) & Hc & Hi)] [Hplan Hutc] [(ex & Hex) (now & rb & Hp)] Hlt.
  destruct (Hplan _ _ _ _ _ Hp) as [_ Hnow]. destruct (expiry_near _ _ _ Hex) as [_ Hnear].
  unfold store_exec, CockroachDurableBucketStore, cr_renew, with_generation, with_expiry, generation_i64.
  assert (session_generation s <= i64_max) as Hgen by (unfold int8_range in Hi; zbool; lia).
  rewrite (proj2 (Z.leb_le _ _) Hgen), Hex.
  set (r' := mkMeta (m_strategy r) (m_start r) (m_end r) (m_state r) (m_generation r) (m_owner r)
    (Some (timestamptz ex)) (m_object_key r) (m_hot_deleted r) (m_attempts r) (m_next r)).
  assert (meta_check r' = true) as Hc' by (unfold meta_check in *; simpl; by rewrite He in Hc).
  assert (renew_tx s (timestamptz ex) now (db st) =
    Ok (tt, mkDb (<[key_of (session_bucket s) := r']> (metadata (db st))) (rows (db st)))) as Hop.
  { unfold renew_tx, update_one, update_row, tx_bind, write_row, owned. rewrite Hr, Hg, Ho, He. simpl.
    rewrite Z.eqb_refl, bool_decide_eq_true_2, (proj2 (Z.ltb_lt now x)) by (done || lia). simpl.
    replace (bool_decide (m_state r = "archiving") || _) with true by (destruct Hst as [-> | [-> ->]]; done).
    rewrite <- Hg, <- Ho. fold r'. by rewrite Hc', (Hi : int8_range r' = true). }
  rewrite (run_tx_commits _ _ _ _ _ Hp) by (by rewrite Hop). rewrite Hop. split; [done|].
  exists (timestamptz ex). split; [lia|]. split; [done|]. exists r'. simpl. rewrite lookup_insert_eq. by split_and!.
Qed.

(** A row that a claim has written. *)
Lemma written_held b token ex r d : meta_check r = true → int8_range r = true →
  m_owner r = Some token → m_expires r = Some ex →
  (m_state r = "archiving" ∨ m_state r = "archived" ∧ m_hot_deleted r = false) →
  row_held (mkSession b token (m_generation r)) ex (mkDb (<[key_of b := r]> (metadata d)) (rows d)).
Proof. intros. exists r. simpl. rewrite lookup_insert_eq. by split_and!. Qed.
Lemma generation_fits r : meta_check r = true → int8_range r = true → m_generation r mod 2 ^ 64 = m_generation r.
Proof. intros Hc Hi. apply Z.mod_small. unfold meta_check, int8_range, i64_max in *. zbool. lia. Qed.
Lemma claim_archive_held b token ex now d ses d' : claim_archive_tx b token ex now d = Ok (Some ses, d') →
  session_bucket ses = b ∧ row_held ses ex d'.
Proof.
  unfold claim_archive_tx. unfold tx_bind at 1. destruct (update_row _ _ _ d) as [[row d1]|] eqn:E; [|done].
  apply update_row_ok in E as [[-> ->]|(r & Hr & Hcond & -> & Hc & Hi & ->)]; [done|]. intros [= <- <-]. split; [done|].
  pose proof (generation_fits _ Hc Hi) as Hgen. simpl in Hgen. rewrite Hgen.
  exact (written_held b token ex _ d Hc Hi eq_refl eq_refl (or_introl eq_refl)).
Qed.
Lemma claim_cleanup_held b token ex now d ses d' : claim_cleanup_tx b token ex now d = Ok (Some ses, d') →
  session_bucket ses = b ∧ row_held ses ex d'.
Proof.
  unfold claim_cleanup_tx. unfold tx_bind at 1. destruct (update_row _ _ _ d) as [[row d1]|] eqn:E; [|done].
  apply update_row_ok in E as [[-> ->]|(r & Hr & Hcond & -> & Hc & Hi & ->)]; [done|]. intros [= <- <-]. split; [done|].
  pose proof (generation_fits _ Hc Hi) as Hgen. simpl in Hgen. rewrite Hgen.
  refine (written_held b token ex _ d Hc Hi eq_refl eq_refl (or_intror _)). simpl. zbool. by destruct (m_hot_deleted r).
Qed.
Lemma begin_held b token now d ses d' : begin_archive_tx b token now d = Ok (ses, d') →
  session_bucket ses = b ∧ row_held ses (now + 300 * 1000000000) d'.
Proof.
  unfold begin_archive_tx. unfold tx_bind at 1. destruct (insert_metadata b d) as [[u d0]|]; [|done].
  unfold tx_bind at 1. destruct (update_row _ _ _ d0) as [[row d1]|] eqn:E; [|done].
  apply update_row_ok in E as [[-> ->]|(r & Hr & Hcond & -> & Hc & Hi & ->)].
  - unfold tx_bind. destruct (state_from_metadata b d0) as [[[st|] d2]|]; done.
  - destruct (0 <=? _); [|done]. intros [= <- <-]. split; [done|].
    exact (written_held b token _ _ d0 Hc Hi eq_refl eq_refl (or_introl eq_refl)).
Qed.
Lemma cr_granted_held {X} (c : store_call X) env st s lease from to : wf_call c → cr_within from to env →
  granted c (store_exec c env st).1 = Some s → call_lease c = Some lease → 0 <= skew →
  ∃ x, from + lease - (skew + 1000) <= x ∧ cr_held s x (store_exec c env st).2.
Proof.
  intros [Hwf _] Hw Hg Hc Hskew. pose proof (proj2 Hw) as Hutc. revert Hg Hc. unfold store_exec, CockroachDurableBucketStore.
  destruct c as [| | |b l|b l| | | | |b| | | |]; simpl in *; try done; intros Hg [= <-].
  - unfold cr_held. setoid_rewrite claim_archive_db. unfold cr_claim_archive, with_expiry in *.
    destruct (archive_lease_expiry l (utc_now env)) as [ex|] eqn:Hex; [|done]. apply expiry_near in Hex as [_ Hnear].
    destruct (run_tx_ran (claim_archive_tx b (new_token env) (timestamptz ex)) env st from to Hw)
      as [[_ Hno]|(now & v & Hnow & Hop & Hv)]; destruct (run_tx _ env st) as [[[ses|]|] st']; simplify_eq/=.
    rewrite <- (Hv _ eq_refl) in Hop. apply claim_archive_held in Hop as [<- Hh]. exists (timestamptz ex). split; [lia|done].
  - unfold cr_claim_cleanup, with_expiry in *.
    destruct (archive_lease_expiry l (utc_now env)) as [ex|] eqn:Hex; [|done]. apply expiry_near in Hex as [_ Hnear].
    destruct (run_tx_ran (claim_cleanup_tx b (new_token env) (timestamptz ex)) env st from to Hw)
      as [[_ Hno]|(now & v & Hnow & Hop & Hv)]; destruct (run_tx _ env st) as [[[ses|]|] st']; simplify_eq/=.
    rewrite <- (Hv _ eq_refl) in Hop. apply claim_cleanup_held in Hop as [<- Hh]. exists (timestamptz ex). split; [lia|done].
  - unfold cr_begin_archive in *.
    destruct (run_tx_ran (begin_archive_tx b (new_token env)) env st from to Hw)
      as [[_ Hno]|(now & v & Hnow & Hop & Hv)]; destruct (run_tx _ env st) as [[ses|] st']; simplify_eq/=.
    rewrite <- (Hv _ eq_refl) in Hop. apply begin_held in Hop as [<- Hh]. exists (now + 300 * 1000000000). split; [lia|done].
Qed.

Lemma cr_lease_laws : 0 <= skew → LeaseLaws CrEnv CrState (H1 := cr_lease_store).
Proof.
  intros Hskew. split; simpl.
  - intros X c env st s x from to Hwf Hg Hh Hw Hlt. by eapply cr_call_keeps.
  - intros X c env st s x from to _ Hb Hh Hw Hlt. by eapply cr_not_granted.
  - intros env st s x lease from to Hh Hw Hs Hlt. by eapply cr_renewed.
  - intros X c env st s lease from to Hwf Hw Hg Hc. by eapply cr_granted_held.
  - lia.
  - intros t lease Ht Hl Hmax.
    exists (mkCrEnv 0 t 0 EmptyString (λ _, Ran t None true Committed) (λ _, None) (λ _, t)). split.
    + split; simpl; [|lia]. intros i now fault rb rep [= <- _ _ _]. lia.
    + split; [|by exists t, true]. exists (t + lease). simpl. unfold archive_lease_expiry.
      rewrite (proj2 (Z.eqb_neq lease 0)) by lia. rewrite duration_exact by lia. simpl. by rewrite add_exact by lia.
Qed.
End cockroach_leases.

(** ** Theorems *)
(** With the direct coordinator's or validated settings, the session of a renewer that is served in
    time passes the check of every method of the in-memory store. *)
Theorem mem_renewer_stays_owner `{Chrono} interval jitter latency {X} (c : store_call X) env (m : MemState) s lease from u t u' :
  0 <= interval → 0 <= jitter → 0 <= latency → interval + 3 * jitter + 2 * latency < lease →
  wf_call c → call_within from u env → u <= from + latency →
  granted c (store_exec c env m).1 = Some s → call_lease c = Some lease →
  tsteps interval jitter latency (after_grant c env m s lease u) t → in_time interval jitter latency t u' →
  ∃ e, contents t !! session_bucket s = Some e ∧ validate_active_session e s u' = Ok tt.
Proof.
  intros Hi Hj Hl Hfits Hwf Hw Hu Hg Hc Hsteps Hin.
  destruct (grant_kept interval jitter latency c env m s lease from u t) as [x Hk]; try done; [simpl; lia|].
  assert (u' < x) as Hlt by (eapply kept_unexpired; [..|exact Hk|exact Hin]; simpl; first [done|lia]).
  destruct Hk as [(e & Hm & Hgen & Htok & Hexp & _) _ _ _ _ _ _ _]. exists e. split; [done|]. by eapply holder_active.
Qed.
(** The same over the database, for clocks that differ by at most [skew]: at every moment that is still
    in time the bucket's row is owned by the session, which is what its statements require. *)
Theorem cockroach_renewer_stays_owner `{ChronoLaws, DriverLaws, !DriverClock} skew interval jitter latency {X} (c : store_call X) env
    (st : CrState) s lease from u t u' :
  let _ := cr_lease_store skew in
  0 <= skew → 0 <= interval → 0 <= jitter → 0 <= latency → interval + 3 * jitter + 2 * latency + skew + 1000 < lease →
  wf_call c → call_within from u env → u <= from + latency →
  granted c (store_exec c env st).1 = Some s → call_lease c = Some lease →
  tsteps interval jitter latency (after_grant c env st s lease u) t → in_time interval jitter latency t u' →
  ∃ r, metadata (db (contents t)) !! key_of (session_bucket s) = Some r ∧
    owned u' (session_generation s) (owner_token s) r = true.
Proof.
  intros store Hskew Hi Hj Hl Hfits Hwf Hw Hu Hg Hc Hsteps Hin. pose proof (cr_lease_laws skew Hskew) as Hlaws.
  destruct (grant_kept interval jitter latency c env st s lease from u t) as [x Hk]; try done; [simpl; lia|].
  assert (u' < x) as Hlt by (eapply kept_unexpired; [..|exact Hk|exact Hin]; simpl; first [done|lia]).
  destruct Hk as [[_ (r & Hr & (Hgen & Hown & Hexp & _) & _)] _ _ _ _ _ _ _]. exists r. split; [done|].
  unfold owned. rewrite Hgen, Hown, Hexp, Z.eqb_refl, bool_decide_eq_true_2 by done. simpl. by apply Z.ltb_lt.
Qed.
(** The stores disagree on a renewal after the cleanup: in memory the session can still be renewed, in
    the database its renewal is refused as stale as soon as the cleanup has committed. *)
Theorem renewal_after_cleanup_differs `{ChronoLaws, DriverLaws} s :
  (∀ x m env lease, lease_held s x m → validate_now env < x → serves lease env → (renew_archive_lease s lease env m).1 = Ok tt) ∧
  (∀ env m, (delete_hot_bucket s env m).1 = Ok tt → ∃ x, lease_held s x (delete_hot_bucket s env m).2) ∧
  (∀ d d' now now' ex, delete_hot_bucket_tx s now d = Ok (tt, d') → renew_tx s ex now' d' = Err (TxStore StaleArchiveSession)).
Proof.
  split_and!.
  - intros x m env lease Hh Hlt Hs. by apply (mem_renewed s x).
  - intros env m. unfold delete_hot_bucket. destruct (m !! session_bucket s) as [e|] eqn:Em; [|done].
    destruct (e_state e) as [| |k []] eqn:Est; try done. destruct (validate_active_session e s _) as [[]|] eqn:Ev; [|done].
    apply validate_active_ok in Ev as (Hg & Ht & Hl). unfold lease_expired in Hl.
    destruct (archive_owner_expires_at e) as [x|] eqn:Ex; [|done]. intros _. exists x. eexists. simpl.
    rewrite lookup_insert_eq. by split_and!.
  - intros d d' now now' ex. unfold delete_hot_bucket_tx. unfold tx_bind at 1. destruct (delete_rows s now d) as [[u d1]|]; [|done].
    intros (r & Hr & Hcond & _ & _ & ->)%update_one_ok. unfold cleanup_owned in Hcond. zbool.
    unfold renew_tx, update_one, update_row, tx_bind. simpl. rewrite lookup_insert_eq. simpl.
    match goal with H : m_state r = "archived" |- _ => rewrite H end. by rewrite andb_false_r.
Qed.
