(* ===== verification/Migrations.v ===== *)
(** Schema migrations (src/adapters/cockroach_schema.rs, and [migrate], [validate_schema],
    [read_applied_migrations] and [validate_table] of src/adapters/cockroach_durable.rs):
    the planner that checks a database's migration history against the migrations the
    binary ships, the transaction that applies what is missing, and the read-only check of
    runtime startup. The database is its history table, a log of the SQL batches that were
    committed, and what its information schema answers; SHA-256 is a parameter. *)
From S2P Require Import Prelude Chrono Model Paths.
Local Open Scope Z_scope.

(** ** Data *)
(** Versions are [i64]. *)
Record SchemaMigration := mkMigration { version : Z; mig_name : string; mig_sql : string }.
Record AppliedMigration := mkApplied { a_version : Z; a_name : string; a_checksum : string }.

Definition V4_BASELINE_SQL : string := "CREATE TABLE IF NOT EXISTS pulpitum_v4_bucket_metadata (
    table_id STRING NOT NULL,
    partition_key BYTES NOT NULL,
    bucket_key STRING NOT NULL,
    bucket_strategy STRING NOT NULL,
    bucket_start TIMESTAMPTZ NOT NULL,
    bucket_end TIMESTAMPTZ NOT NULL,
    state STRING NOT NULL DEFAULT 'hot',
    generation INT8 NOT NULL DEFAULT 0,
    archive_owner_token STRING NULL,
    archive_owner_expires_at TIMESTAMPTZ NULL,
    archive_object_key STRING NULL,
    hot_deleted BOOL NOT NULL DEFAULT false,
    archive_attempts INT8 NOT NULL DEFAULT 0,
    archive_next_attempt_at TIMESTAMPTZ NULL,
    PRIMARY KEY (table_id, partition_key, bucket_key),
    CONSTRAINT pulpitum_v4_metadata_state_check
        CHECK (state IN ('hot', 'archiving', 'archived')),
    CONSTRAINT pulpitum_v4_metadata_generation_check
        CHECK (generation >= 0),
    CONSTRAINT pulpitum_v4_metadata_bounds_check
        CHECK (bucket_start < bucket_end),
    CONSTRAINT pulpitum_v4_metadata_invariants CHECK (
        (state = 'hot'
            AND archive_owner_token IS NULL
            AND archive_owner_expires_at IS NULL
            AND archive_object_key IS NULL
            AND hot_deleted = false)
        OR (state = 'archiving'
            AND archive_owner_token IS NOT NULL
            AND archive_owner_expires_at IS NOT NULL
            AND archive_object_key IS NULL
            AND hot_deleted = false)
        OR (state = 'archived'
            AND archive_owner_token IS NOT NULL
            AND archive_object_key IS NOT NULL)
    )
);
CREATE TABLE IF NOT EXISTS pulpitum_v4_records (
    table_id STRING NOT NULL,
    partition_key BYTES NOT NULL,
    bucket_key STRING NOT NULL,
    event_time TIMESTAMPTZ NOT NULL,
    sort_key BYTES NOT NULL,
    value BYTES NOT NULL,
    PRIMARY KEY (table_id, partition_key, bucket_key, event_time, sort_key),
    CONSTRAINT pulpitum_v4_records_bucket_fk
        FOREIGN KEY (table_id, partition_key, bucket_key)
        REFERENCES pulpitum_v4_bucket_metadata (table_id, partition_key, bucket_key)
);
CREATE INDEX IF NOT EXISTS pulpitum_v4_archive_discovery_idx
    ON pulpitum_v4_bucket_metadata
    (state, hot_deleted, archive_next_attempt_at, archive_owner_expires_at,
     bucket_end, table_id, partition_key, bucket_key);".
Definition MIGRATIONS : list SchemaMigration :=
  [mkMigration 4 "v4_durable_bucket_store_baseline" V4_BASELINE_SQL].

Inductive CockroachSchemaError :=
  | SchemaDatabase (message : string)
  | ChecksumDrift (version : Z) (expected_name expected_checksum actual_name actual_checksum : string)
  | UnsupportedHistoricalVersion (version first_supported : Z)
  | FutureVersion (version latest_supported : Z)
  | MigrationGap (missing present : Z)
  | DuplicateVersion (version : Z)
  | PendingMigrations (versions : list Z)
  | MissingColumn (table column : string)
  | PrimaryKeyMismatch (table : string) (expected actual : list string).

Record ExpectedTable := mkTable { table_name : string; columns : list string; primary_key : list string }.

Definition V4_METADATA_TABLE : string := "pulpitum_v4_bucket_metadata".
Definition V4_RECORDS_TABLE : string := "pulpitum_v4_records".
Definition EXPECTED_V4_TABLES : list ExpectedTable :=
  [ mkTable V4_METADATA_TABLE
      ["table_id"; "partition_key"; "bucket_key"; "bucket_strategy"; "bucket_start"; "bucket_end"; "state";
       "generation"; "archive_owner_token"; "archive_owner_expires_at"; "archive_object_key"; "hot_deleted";
       "archive_attempts"; "archive_next_attempt_at"]
      ["table_id"; "partition_key"; "bucket_key"];
    mkTable V4_RECORDS_TABLE
      ["table_id"; "partition_key"; "bucket_key"; "event_time"; "sort_key"; "value"]
      ["table_id"; "partition_key"; "bucket_key"; "event_time"; "sort_key"] ].

Section migrations.
(** [Sha256]. *)
Context (sha256 : list byte → list byte).

(** ** Planning *)
(** Two lower-case hexadecimal digits per byte of the digest. *)
Definition migration_checksum (sql : string) : string := partition_key_path_component (sha256 (string_bytes sql)).
Definition checksum (m : SchemaMigration) : string := migration_checksum (mig_sql m).

(** [migrations.iter().map(|m| (m.version, m)).collect::<BTreeMap<_, _>>()] *)
Definition expected_map (migrations : list SchemaMigration) : gmap Z SchemaMigration :=
  foldl (λ acc m, <[version m := m]> acc) ∅ migrations.

(** The first loop, returning the keys of [seen]. *)
Fixpoint check_applied (migrations : list SchemaMigration) (first latest : SchemaMigration)
    (seen : gset Z) (applied : list AppliedMigration) : Result CockroachSchemaError (gset Z) :=
  match applied with
  | [] => Ok seen
  | a :: applied =>
    if bool_decide (a_version a ∈ seen) then Err (DuplicateVersion (a_version a))
    else if a_version a <? version first then Err (UnsupportedHistoricalVersion (a_version a) (version first))
    else if version latest <? a_version a then Err (FutureVersion (a_version a) (version latest))
    else match expected_map migrations !! a_version a with
    | None =>
      let missing := from_option version (a_version a)
        (head (filter (λ candidate, Is_true (a_version a <? version candidate)) migrations)) in
      Err (MigrationGap missing (a_version a))
    | Some e =>
      if negb (bool_decide (a_name a = mig_name e)) || negb (bool_decide (a_checksum a = checksum e))
      then Err (ChecksumDrift (a_version a) (mig_name e) (checksum e) (a_name a) (a_checksum a))
      else check_applied migrations first latest ({[a_version a]} ∪ seen) applied
    end
  end.

(** The second loop; [migrations[index]] panics out of range. *)
Fixpoint check_prefix (migrations : list SchemaMigration) (versions : list Z) :
    Outcome (Result CockroachSchemaError unit) :=
  match versions, migrations with
  | [], _ => Value (Ok tt)
  | _ :: _, [] => Panicked
  | v :: versions, m :: migrations =>
    if bool_decide (v = version m) then check_prefix migrations versions
    else Value (Err (MigrationGap (version m) v))
  end.

Definition plan_migrations (migrations : list SchemaMigration) (applied : list AppliedMigration) :
    Outcome (Result CockroachSchemaError (list SchemaMigration)) :=
  first ← expect (head migrations);
  latest ← expect (last migrations);
  match check_applied migrations first latest ∅ applied with
  | Err e => Value (Err e)
  | Ok seen =>
    res ← check_prefix migrations (sort_by id (elements seen));
    match res with
    | Err e => Value (Err e)
    | Ok _ => Value (Ok (filter (λ m, version m ∉ seen) migrations))
    end
  end.

(** ** The database *)
(** The history table is absent before the first [migrate]; a row is a version with its name
    and checksum. [committed_sql] logs the batches that were run. *)
Record SchemaDb := mkSchemaDb { history : option (gmap Z (string * string)); committed_sql : list string }.

(** [CREATE TABLE IF NOT EXISTS pulpitum_schema_migrations] *)
Definition create_history (d : SchemaDb) : SchemaDb :=
  mkSchemaDb (Some (default ∅ (history d))) (committed_sql d).

(** [INSERT INTO pulpitum_schema_migrations]: the primary key, the CHECK on the version and the
    unique name can reject the row. *)
Definition insert_history (m : SchemaMigration) (d : SchemaDb) : option SchemaDb :=
  let h := default ∅ (history d) in
  if bool_decide (h !! version m = None) && (0 <=? version m) &&
     forallb (λ p : Z * (string * string), negb (bool_decide (p.2.1 = mig_name m))) (map_to_list h)
  then Some (mkSchemaDb (Some (<[version m := (mig_name m, checksum m)]> h)) (committed_sql d))
  else None.

(** [SELECT version, name, checksum ... ORDER BY version] *)
Definition row_applied (p : Z * (string * string)) : AppliedMigration := mkApplied p.1 p.2.1 p.2.2.
Definition read_applied_migrations (d : SchemaDb) : list AppliedMigration :=
  map row_applied (sort_by fst (map_to_list (default ∅ (history d)))).

(** The [for migration in pending] loop: the database may fail the statements of any migration;
    an error is whether it is a serialization failure. *)
Definition fault_at (fault : option (nat * bool)) (i : nat) : option bool :=
  match fault with Some (j, retryable) => if bool_decide (i = j) then Some retryable else None | None => None end.
Fixpoint apply_pending (fault : option (nat * bool)) (i : nat) (pending : list SchemaMigration) (d : SchemaDb) :
    Result bool SchemaDb :=
  match pending with
  | [] => Ok d
  | m :: pending =>
    match fault_at fault i with
    | Some retryable => Err retryable
    | None =>
      match insert_history m (mkSchemaDb (history d) (committed_sql d ++ [mig_sql m])) with
      | None => Err false
      | Some d => apply_pending fault (S i) pending d
      end
    end
  end.

(** What happens to one attempt of [migrate], with the message of each database error. *)
Inductive migration_commit := MigCommitted | MigConflict | MigCommitFailed (applied : bool).
Inductive migration_attempt :=
  | MigAcquireFailed
  | MigBeginFailed (retryable : bool)
  | MigReadFailed
  | MigRan (fault : option (nat * bool)) (commit : migration_commit).

(** Reading a history table that does not exist is a database error. *)
Definition is_null_history (d : SchemaDb) : bool := match history d with None => true | Some _ => false end.

Section migrate.
(** [error.to_string()] of the failing attempt. *)
Context (message : nat → string).

(** [for attempt in 0..MAX_TRANSACTION_ATTEMPTS]; [remaining] attempts are left. *)
Fixpoint migrate_loop (remaining : nat) (migrations : list SchemaMigration) (plan : nat → migration_attempt)
    (d : SchemaDb) : Outcome (Result CockroachSchemaError unit) * SchemaDb :=
  match remaining with
  | O => (Value (Err (SchemaDatabase "migration transaction exhausted its retry budget")), d)
  | S remaining =>
    let retry (allowed : bool) :=
      if allowed && negb (remaining =? 0)%nat then migrate_loop remaining migrations plan d
      else (Value (Err (SchemaDatabase (message remaining))), d) in
    match plan remaining with
    | MigAcquireFailed => retry false
    | MigBeginFailed retryable => retry retryable
    | MigReadFailed => retry false
    | MigRan fault commit =>
      match plan_migrations migrations (read_applied_migrations d) with
      | Panicked => (Panicked, d)
      | OutOfFuel => (OutOfFuel, d)
      | Value (Err e) => (Value (Err e), d)
      | Value (Ok pending) =>
        match apply_pending fault 0 pending d with
        | Err retryable => retry retryable
        | Ok d' =>
          match commit with
          | MigCommitted => (Value (Ok tt), d')
          | MigConflict => retry true
          | MigCommitFailed applied => (Value (Err (SchemaDatabase (message remaining))), if applied then d' else d)
          end
        end
      end
    end
  end.

(** [history_fault]: whether acquiring the first connection or creating the history table fails. *)
Definition migrate (migrations : list SchemaMigration) (history_fault : bool) (plan : nat → migration_attempt)
    (d : SchemaDb) : Outcome (Result CockroachSchemaError unit) * SchemaDb :=
  if history_fault then (Value (Err (SchemaDatabase (message 5))), d)
  else migrate_loop 5 migrations plan (create_history d).

(** ** Validation at startup *)
(** What the information schema answers for a table: its columns, and the columns of its primary
    key in order. [fault n] is whether the [n]-th statement fails. *)
Context (schema_columns : string → list string) (schema_primary_key : string → list string).

Definition validate_table (fault : nat → bool) (n : nat) (t : ExpectedTable) : Result CockroachSchemaError unit :=
  if fault n then Err (SchemaDatabase (message n))
  else match filter (λ c, c ∉ schema_columns (table_name t)) (columns t) with
  | c :: _ => Err (MissingColumn (table_name t) c)
  | [] =>
    if fault (S n) then Err (SchemaDatabase (message (S n)))
    else if negb (bool_decide (schema_primary_key (table_name t) = primary_key t))
    then Err (PrimaryKeyMismatch (table_name t) (primary_key t) (schema_primary_key (table_name t)))
    else Ok tt
  end.

Fixpoint validate_tables (fault : nat → bool) (n : nat) (ts : list ExpectedTable) :
    Result CockroachSchemaError unit :=
  match ts with
  | [] => Ok tt
  | t :: ts => validate_table fault n t ≫= λ _, validate_tables fault (S (S n)) ts
  end.

Definition validate_schema (migrations : list SchemaMigration) (fault : nat → bool) (d : SchemaDb) :
    Outcome (Result CockroachSchemaError unit) :=
  if fault 0%nat || fault 1%nat || is_null_history d then Value (Err (SchemaDatabase (message 0)))
  else
    res ← plan_migrations migrations (read_applied_migrations d);
    Value (match res with
    | Err e => Err e
    | Ok [] => validate_tables fault 2 EXPECTED_V4_TABLES
    | Ok pending => Err (PendingMigrations (map version pending))
    end).
End migrate.

(** ** Lemmas *)
(** The migrations a binary ships: at least one, in increasing order of version. *)
Definition increasing (migrations : list SchemaMigration) : Prop :=
  migrations ≠ [] ∧ StronglySorted (λ m m', version m < version m') migrations.

(** The history row of an applied migration. *)
Definition applied_of (m : SchemaMigration) : AppliedMigration := mkApplied (version m) (mig_name m) (checksum m).

Lemma increasing_NoDup ms : StronglySorted (λ m m', version m < version m') ms → NoDup (version <$> ms).
Proof.
  induction 1 as [|m ms Hs IH Hm]; [constructor|]. rewrite fmap_cons. constructor; [|done].
  intros (m' & E & Hin)%list_elem_of_fmap. rewrite Forall_forall in Hm. specialize (Hm m' Hin). lia.
Qed.
Lemma expected_map_lookup ms : NoDup (version <$> ms) → ∀ v m, expected_map ms !! v = Some m ↔ m ∈ ms ∧ version m = v.
Proof.
  unfold expected_map. induction ms as [|x ms IH] using rev_ind; intros Hnd v m.
  { simpl. rewrite lookup_empty. set_solver. }
  rewrite fmap_app in Hnd. apply NoDup_app in Hnd as (Hnd & Hx & _). rewrite foldl_app. simpl.
  rewrite lookup_insert_Some, IH, elem_of_app, list_elem_of_singleton by done. split; [naive_solver|].
  intros [[Hin| ->] Hv]; [|by left]. right. split; [|done]. intros Heq. apply (Hx v); [|set_solver].
  apply list_elem_of_fmap. by exists m.
Qed.
Lemma increasing_bounds ms first latest m : StronglySorted (λ m m', version m < version m') ms →
  head ms = Some first → last ms = Some latest → m ∈ ms → version first <= version m <= version latest.
Proof.
  intros Hs Hf Hl Hm. split.
  - destruct ms as [|x ms]; [done|]. simplify_eq/=. apply StronglySorted_inv in Hs as [_ Hx].
    apply elem_of_cons in Hm as [->|Hm]; [done|]. rewrite Forall_forall in Hx. specialize (Hx m Hm). lia.
  - clear Hf. induction Hs as [|x ms Hs IH Hx]; [done|]. destruct ms as [|y ms].
    + simpl in Hl. simplify_eq. apply list_elem_of_singleton in Hm as ->. done.
    + assert (last (y :: ms) = Some latest) as Hl' by done. apply elem_of_cons in Hm as [->|Hm]; [|by apply IH].
      rewrite Forall_forall in Hx. assert (latest ∈ y :: ms) as Hin by by apply last_Some_elem_of.
      specialize (Hx latest Hin). lia.
Qed.

Section planner.
Context (ms : list SchemaMigration) (first latest : SchemaMigration).
Context (Hs : StronglySorted (λ m m', version m < version m') ms).
Context (Hf : head ms = Some first) (Hl : last ms = Some latest).

Let Hnd : NoDup (version <$> ms) := increasing_NoDup ms Hs.

(** The first loop accepts exactly distinct rows of shipped migrations. *)
Lemma check_applied_ok applied seen seen' : check_applied ms first latest seen applied = Ok seen' ↔
  Forall (λ a, a ∈ applied_of <$> ms) applied ∧ NoDup (a_version <$> applied) ∧
  (∀ a, a ∈ applied → a_version a ∉ seen) ∧ seen' = seen ∪ list_to_set (a_version <$> applied).
Proof.
  revert seen. induction applied as [|a applied IH]; intros seen; cbn [check_applied].
  { split; [intros [= <-]; split_and!; [constructor|constructor|set_solver|set_solver]|].
    intros (_ & _ & _ & ->). f_equal. set_solver. }
  assert (a ∈ applied_of <$> ms ↔ ∃ e, expected_map ms !! a_version a = Some e ∧
    a_name a = mig_name e ∧ a_checksum a = checksum e) as Hin.
  { rewrite list_elem_of_fmap. setoid_rewrite (expected_map_lookup ms Hnd). split.
    - intros (e & -> & He). by exists e.
    - intros (e & [He Hv] & Hn & Hc). exists e. split; [|done]. destruct a. simpl in *. by subst. }
  rewrite Forall_cons, fmap_cons, NoDup_cons. case_bool_decide as Hseen.
  { split; [done|]. intros (_ & _ & Hno & _). destruct (Hno a); [left|done]. }
  destruct (expected_map ms !! a_version a) as [e|] eqn:Ee.
  2: { split; [by case_all|]. intros ([Ha _] & _). apply Hin in Ha. naive_solver. }
  apply (expected_map_lookup ms Hnd) in Ee as [He Hv].
  pose proof (increasing_bounds ms first latest e Hs Hf Hl He).
  rewrite (proj2 (Z.ltb_ge _ _)), (proj2 (Z.ltb_ge _ _)) by lia.
  destruct (_ || _) eqn:Ed.
  { split; [done|]. intros ([Ha _] & _). apply Hin in Ha as (e' & [= <-] & Hn & Hc).
    rewrite Hn, Hc, !bool_decide_eq_true_2 in Ed by done. done. }
  zbool. rewrite IH. assert (a ∈ applied_of <$> ms) as Ha by (apply Hin; naive_solver). split.
  - intros (Hall & Hnda & Hno & ->). split_and!; try done.
    + intros (a' & E & Ha')%list_elem_of_fmap. apply (Hno a' Ha'). set_solver.
    + intros a' [->|Ha']%elem_of_cons; [done|]. specialize (Hno a' Ha'). set_solver.
    + set_solver.
  - intros ([_ Hall] & [Hna Hnda] & Hno & ->). split_and!; try done; [|set_solver].
    intros a' Ha'. assert (a_version a' ∉ seen) by (apply Hno; set_solver).
    assert (a_version a' ≠ a_version a); [|set_solver].
    intros E. apply Hna. apply list_elem_of_fmap. eauto.
Qed.
End planner.

Lemma check_prefix_ok ms vs : check_prefix ms vs = Value (Ok tt) ↔ vs = take (length vs) (version <$> ms).
Proof.
  revert ms. induction vs as [|v vs IH]; intros [|m ms]; simpl; try done.
  case_bool_decide as Hv; [|naive_solver]. rewrite IH. split; [intros E; by f_equal|by intros [= _ E]].
Qed.
Lemma check_prefix_returns ms vs : (length vs <= length ms)%nat → ∃ r, check_prefix ms vs = Value r.
Proof.
  revert ms. induction vs as [|v vs IH]; intros [|m ms] Hl; simpl in *; try (by eauto); [lia|].
  case_bool_decide; [apply IH; lia|eauto].
Qed.

(** The versions of an increasing list, in order, and what is left of it. *)
Lemma increasing_versions ms n : StronglySorted (λ m m', version m < version m') ms →
  sorted_by id (take n (version <$> ms)).
Proof.
  intros Hs. rewrite <- fmap_take. apply (StronglySorted_app_1_l _ _ (version <$> drop n ms)).
  rewrite <- fmap_app, take_drop. induction Hs as [|m ms Hs IH Hm]; [constructor|].
  rewrite fmap_cons. constructor; [done|]. rewrite Forall_fmap. eapply Forall_impl; [exact Hm|].
  intros m' Hlt. simpl in *. apply ord_le_lt_eq. left. apply ord_lt_spec. by apply Z.compare_lt_iff.
Qed.
Lemma filter_not_taken ms n : NoDup (version <$> ms) →
  filter (λ m, version m ∉ (list_to_set (version <$> take n ms) : gset Z)) ms = drop n ms.
Proof.
  intros Hnd. set (P := λ m, version m ∉ (list_to_set (version <$> take n ms) : gset Z)).
  transitivity (filter P (take n ms ++ drop n ms)); [by rewrite take_drop|]. rewrite filter_app.
  rewrite <- (take_drop n ms), fmap_app in Hnd. apply NoDup_app in Hnd as (_ & Hno & _).
  rewrite (filter_none _ (take n ms)), (filter_all _ (drop n ms)); [done|..].
  - apply Forall_forall. intros m Hm. unfold P. rewrite elem_of_list_to_set. intros Hin. apply (Hno _ Hin).
    apply list_elem_of_fmap. by exists m.
  - apply Forall_forall. intros m Hm Hn. apply Hn. unfold P. rewrite elem_of_list_to_set. apply list_elem_of_fmap. by exists m.
Qed.

Lemma take_subseteq {A} n (l : list A) : take n l ⊆ l.
Proof. intros x (i & Hi & _)%elem_of_take. by eapply list_elem_of_lookup_2. Qed.
Lemma take_NoDup {A} n (l : list A) : NoDup l → NoDup (take n l).
Proof. rewrite <- (take_drop n l) at 1. rewrite NoDup_app. naive_solver. Qed.

(** Accepted rows are the rows of the shipped migrations with their versions. *)
Lemma applied_by_version ms (applied : list AppliedMigration) ms' : NoDup (version <$> ms) → ms' ⊆ ms →
  Forall (λ a, a ∈ applied_of <$> ms) applied → a_version <$> applied ≡ₚ version <$> ms' →
  applied ≡ₚ applied_of <$> ms'.
Proof.
  intros Hnd Hsub Hall Hp. set (f v := from_option applied_of (mkApplied v "" "") (expected_map ms !! v)).
  assert (∀ m, m ∈ ms → f (version m) = applied_of m) as Hfm.
  { intros m Hm. unfold f. by rewrite (proj2 (expected_map_lookup ms Hnd _ m) (conj Hm eq_refl)). }
  assert (f <$> (a_version <$> applied) = applied) as <-.
  { rewrite Forall_forall in Hall. rewrite <- list_fmap_compose. transitivity (id <$> applied); [|apply list_fmap_id].
    apply list_fmap_ext. intros i a Ha. simpl.
    apply list_elem_of_lookup_2, Hall, list_elem_of_fmap in Ha as (m & -> & Hm). by apply Hfm. }
  assert (f <$> (version <$> ms') = applied_of <$> ms') as <-; [|by rewrite Hp].
  rewrite <- list_fmap_compose. apply list_fmap_ext. intros i m Hm.
  apply Hfm, Hsub. by eapply list_elem_of_lookup_2.
Qed.

(** What the planner computes for an increasing list of migrations. *)
Lemma plan_ok ms applied pending : increasing ms →
  plan_migrations ms applied = Value (Ok pending) ↔
  ∃ n, (n <= length ms)%nat ∧ applied ≡ₚ applied_of <$> take n ms ∧ pending = drop n ms.
Proof.
  intros [Hne Hs]. pose proof (increasing_NoDup ms Hs) as Hnd.
  unfold plan_migrations. destruct (head ms) as [first|] eqn:Hf; [|by destruct ms].
  destruct (last ms) as [latest|] eqn:Hl; [|by apply last_None in Hl]. simpl.
  assert (∀ n, elements (list_to_set (version <$> take n ms) : gset Z) ≡ₚ take n (version <$> ms)) as Hel.
  { intros n. rewrite elements_list_to_set; [by rewrite fmap_take|]. rewrite fmap_take. by apply take_NoDup. }
  split.
  - destruct (check_applied ms first latest ∅ applied) as [seen|] eqn:Ec; [|done].
    apply (check_applied_ok ms first latest Hs Hf Hl) in Ec as (Hall & Hnda & _ & ->).
    destruct (check_prefix ms _) as [[[]|]| |] eqn:Ep; try done. simpl. intros [= <-].
    apply check_prefix_ok in Ep. rewrite union_empty_l_L in *. set (n := length (sort_by _ _)) in *.
    assert (a_version <$> applied ≡ₚ version <$> take n ms) as Hp.
    { rewrite fmap_take, <- Ep, sort_by_Permutation. symmetry. by apply elements_list_to_set. }
    exists n. assert (length (sort_by id (elements (list_to_set (a_version <$> applied) : gset Z))) <= length ms)%nat
      as Hlen by (apply (f_equal length) in Ep; rewrite length_take, length_fmap in Ep; lia).
    split_and!; [done| |].
    + apply (applied_by_version ms); [done| |done|done]. apply take_subseteq.
    + rewrite <- (filter_not_taken ms n Hnd). apply list_filter_iff. intros m.
      rewrite !elem_of_list_to_set. by rewrite Hp.
  - intros (n & Hn & Hp & ->).
    assert (check_applied ms first latest ∅ applied = Ok (list_to_set (a_version <$> applied))) as ->.
    { apply (check_applied_ok ms first latest Hs Hf Hl). split_and!; [| |set_solver|by rewrite union_empty_l_L].
      - rewrite Hp. apply Forall_forall. intros a (m & -> & Hm)%list_elem_of_fmap.
        apply list_elem_of_fmap. exists m. split; [done|]. by eapply take_subseteq.
      - rewrite Hp, <- list_fmap_compose. change (NoDup (version <$> take n ms)). rewrite fmap_take. by apply take_NoDup. }
    assert (list_to_set (a_version <$> applied) = (list_to_set (version <$> take n ms) : gset Z)) as Hset.
    { apply leibniz_equiv. rewrite Hp. by rewrite <- list_fmap_compose. }
    rewrite Hset.
    assert (sort_by id (elements (list_to_set (version <$> take n ms) : gset Z)) = take n (version <$> ms)) as ->.
    { apply (StronglySorted_unique_strong (λ x y, ord_le (id x) (id y)));
        [|apply sort_by_sorted|by apply increasing_versions|by rewrite sort_by_Permutation].
      intros x y _ _. apply ord_le_antisym. }
    assert (check_prefix ms (take n (version <$> ms)) = Value (Ok tt)) as ->.
    { apply check_prefix_ok. by rewrite length_take, length_fmap, Nat.min_l by lia. }
    simpl. do 2 f_equal. by apply filter_not_taken.
Qed.

Lemma plan_returns ms applied : increasing ms → ∃ r, plan_migrations ms applied = Value r.
Proof.
  intros [Hne Hs]. unfold plan_migrations. destruct (head ms) as [first|] eqn:Hf; [|by destruct ms].
  destruct (last ms) as [latest|] eqn:Hl; [|by apply last_None in Hl]. simpl.
  destruct (check_applied ms first latest ∅ applied) as [seen|] eqn:Ec; [|by eauto].
  apply (check_applied_ok ms first latest Hs Hf Hl) in Ec as (Hall & Hnda & _ & ->). rewrite union_empty_l_L.
  destruct (check_prefix_returns ms (sort_by id (elements (list_to_set (a_version <$> applied) : gset Z)))) as [r ->].
  - rewrite sort_by_Permutation, elements_list_to_set, <- (length_fmap version ms) by done.
    apply submseteq_length, NoDup_submseteq; [done|]. intros v (a & -> & Ha)%list_elem_of_fmap.
    rewrite Forall_forall in Hall. apply Hall, list_elem_of_fmap in Ha as (m & -> & Hm).
    apply list_elem_of_fmap. by exists m.
  - simpl. destruct r; eauto.
Qed.

(** ** Applying *)
(** The history holds exactly the first [n] migrations. *)
Definition up_to (ms : list SchemaMigration) (n : nat) (d : SchemaDb) : Prop :=
  read_applied_migrations d ≡ₚ applied_of <$> take n ms.

Lemma read_applied_rows d : read_applied_migrations d ≡ₚ row_applied <$> map_to_list (default ∅ (history d)).
Proof. unfold read_applied_migrations. by rewrite sort_by_Permutation. Qed.
Lemma insert_history_ok m d d' : insert_history m d = Some d' →
  read_applied_migrations d' ≡ₚ applied_of m :: read_applied_migrations d ∧ committed_sql d' = committed_sql d ∧
  is_Some (history d').
Proof.
  unfold insert_history. destruct (_ && _) eqn:E; [|done]. zbool. intros [= <-]. split_and!; [|done|by eexists].
  rewrite !read_applied_rows. simpl. by rewrite map_to_list_insert by done.
Qed.
Lemma insert_history_succeeds ms n m d : NoDup (version <$> ms) → NoDup (mig_name <$> ms) → ms !! n = Some m →
  0 <= version m → up_to ms n d → is_Some (insert_history m d).
Proof.
  intros Hv Hn Hm H0 Hup. unfold insert_history.
  assert (∀ p, p ∈ map_to_list (default ∅ (history d)) → p.1 ≠ version m ∧ p.2.1 ≠ mig_name m) as Hne.
  { intros p Hp. assert (row_applied p ∈ applied_of <$> take n ms) as Hin.
    { rewrite <- Hup, read_applied_rows. apply list_elem_of_fmap. by exists p. }
    apply list_elem_of_fmap in Hin as (m' & Hrow & (i & Hi & Hlt)%elem_of_take). injection Hrow as -> -> _.
    split; intros E; assert (i = n) as ->; try lia.
    - eapply (NoDup_lookup _ _ _ (version m) Hv); rewrite list_lookup_fmap, ?Hi, ?Hm; simpl; by f_equal.
    - eapply (NoDup_lookup _ _ _ (mig_name m) Hn); rewrite list_lookup_fmap, ?Hi, ?Hm; simpl; by f_equal. }
  assert (default ∅ (history d) !! version m = None) as Hk.
  { destruct (default ∅ (history d) !! version m) as [x|] eqn:E; [|done].
    apply elem_of_map_to_list in E. by destruct (Hne _ E). }
  rewrite Hk, bool_decide_eq_true_2, (proj2 (Z.leb_le _ _)) by done. simpl.
  destruct (forallb _ _) eqn:Ef; [by eexists|]. exfalso. apply not_true_iff_false in Ef. apply Ef, forallb_forall.
  intros p Hp%list_elem_of_In. rewrite bool_decide_eq_false_2; [done|]. by apply Hne.
Qed.

Lemma apply_pending_ok ms fault i n d d' : up_to ms n d → apply_pending fault i (drop n ms) d = Ok d' →
  up_to ms (length ms) d' ∧ committed_sql d' = committed_sql d ++ (mig_sql <$> drop n ms).
Proof.
  remember (drop n ms) as pending eqn:Ep. revert i n d Ep.
  induction pending as [|m pending IH]; intros i n d Ep Hup; cbn [apply_pending].
  - intros [= <-]. rewrite app_nil_r. split; [|done]. unfold up_to in *.
    rewrite take_ge in Hup |- * by (apply (f_equal length) in Ep; rewrite length_drop in Ep; simpl in Ep; lia). done.
  - destruct (fault_at fault i); [done|].
    destruct (insert_history m _) as [d1|] eqn:Ei; [|done]. intros Ha.
    apply insert_history_ok in Ei as (Hr & Hsql & _). simpl in Hsql.
    assert (ms !! n = Some m) as Hm by by rewrite <- (Nat.add_0_r n), <- lookup_drop, <- Ep.
    destruct (IH (S i) (S n) d1) as [Hup' Hc]; [|..|done|].
    + rewrite <- Nat.add_1_r, <- drop_drop, <- Ep. done.
    + unfold up_to in *. rewrite (take_S_r _ _ m), fmap_app by done. simpl.
      transitivity (applied_of m :: read_applied_migrations d); [exact Hr|].
      rewrite Hup. apply Permutation_cons_append.
    + split; [done|]. by rewrite Hc, Hsql, <- app_assoc.
Qed.
Lemma apply_pending_succeeds ms i n d : NoDup (version <$> ms) → NoDup (mig_name <$> ms) →
  Forall (λ m, 0 <= version m) ms → up_to ms n d → ∃ d', apply_pending None i (drop n ms) d = Ok d'.
Proof.
  intros Hv Hn H0. remember (drop n ms) as pending eqn:Ep. revert i n d Ep.
  induction pending as [|m pending IH]; intros i n d Ep Hup; cbn [apply_pending fault_at]; [by eauto|].
  assert (ms !! n = Some m) as Hm by by rewrite <- (Nat.add_0_r n), <- lookup_drop, <- Ep.
  destruct (insert_history_succeeds ms n m (mkSchemaDb (history d) (committed_sql d ++ [mig_sql m])))
    as [d1 Hd1]; [done..| |done|].
  { by apply (Forall_lookup_1 _ _ _ _ H0 Hm). }
  rewrite Hd1. apply insert_history_ok in Hd1 as (Hr & _ & _). apply (IH (S i) (S n)).
  - rewrite <- Nat.add_1_r, <- drop_drop, <- Ep. done.
  - unfold up_to in *. rewrite (take_S_r _ _ m), fmap_app by done. simpl.
    transitivity (applied_of m :: read_applied_migrations d); [exact Hr|].
    rewrite Hup. apply Permutation_cons_append.
Qed.

(** What any number of attempts may end in. *)
Definition migrated (ms : list SchemaMigration) (n : nat) (d d' : SchemaDb) : Prop :=
  up_to ms (length ms) d' ∧ committed_sql d' = committed_sql d ++ (mig_sql <$> drop n ms).
Lemma migrate_loop_outcome message ms k pl d n : increasing ms → (n <= length ms)%nat → up_to ms n d →
  let '(res, d') := migrate_loop message k ms pl d in
  ∃ r, res = Value r ∧
  match r with
  | Ok _ => migrated ms n d d'
  | Err _ => d' = d ∨ migrated ms n d d' ∧ ∃ i fault, pl i = MigRan fault (MigCommitFailed true)
  end.
Proof.
  intros Hi Hn Hup. induction k as [|k IH]; cbn [migrate_loop]; [by eexists; split; [done|left]|].
  assert (∀ c : bool, let '(res, d') := if c then migrate_loop message k ms pl d
      else (Value (Err (SchemaDatabase (message k))), d) in
    ∃ r, res = Value r ∧
    match r with
    | Ok _ => migrated ms n d d'
    | Err _ => d' = d ∨ migrated ms n d d' ∧ ∃ i fault, pl i = MigRan fault (MigCommitFailed true)
    end) as Hretry by (intros []; [done|by eexists; split; [done|left]]).
  destruct (pl k) as [|rt| |fault commit] eqn:Epl; [apply (Hretry false)|apply Hretry|apply (Hretry false)|].
  assert (plan_migrations ms (read_applied_migrations d) = Value (Ok (drop n ms))) as -> by (apply plan_ok; eauto).
  destruct (apply_pending fault 0 (drop n ms) d) as [d1|rt] eqn:Ea; [|apply Hretry].
  apply apply_pending_ok in Ea; [|done].
  destruct commit as [| |[]]; [by eexists|apply Hretry| |by eexists; split; [done|left]].
  eexists. split; [done|]. right. eauto.
Qed.
End migrations.

(** ** Theorems *)

(** The planner accepts a history exactly when it is the rows of a prefix of the migrations the
    binary ships, in any order, with their names and checksums unchanged; it then returns the
    rest, in order; and it always returns a verdict. *)
Theorem planner_accepts_exactly_prefixes sha256 migrations applied : increasing migrations →
  (∃ verdict, plan_migrations sha256 migrations applied = Value verdict) ∧
  ∀ pending, plan_migrations sha256 migrations applied = Value (Ok pending) ↔
    ∃ n, (n <= length migrations)%nat ∧ applied ≡ₚ map (applied_of sha256) (take n migrations) ∧
      pending = drop n migrations.
Proof. intros Hi. split; [by apply plan_returns|]. intros pending. by apply plan_ok. Qed.

(** C40. [migrate] brings a database whose history is a prefix of the shipped migrations up to date
    and runs each missing migration's SQL exactly once, in order; when it fails it leaves
    history and schema as they were, unless a COMMIT that was applied reported an error; and
    it succeeds when its first attempt meets no fault. *)
Theorem migrate_applies_each_once sha256 message migrations history_fault pl d n :
  increasing migrations → NoDup (mig_name <$> migrations) → Forall (λ m, 0 <= version m) migrations →
  (n <= length migrations)%nat → up_to sha256 migrations n d →
  let '(res, d') := migrate sha256 message migrations history_fault pl d in
  let done_ := up_to sha256 migrations (length migrations) d' ∧
    committed_sql d' = committed_sql d ++ map mig_sql (drop n migrations) in
  (∃ r, res = Value r ∧
   match r with
   | Ok _ => done_
   | Err _ => (read_applied_migrations d' = read_applied_migrations d ∧ committed_sql d' = committed_sql d) ∨
       done_ ∧ ∃ i fault, pl i = MigRan fault (MigCommitFailed true)
   end) ∧
  (history_fault = false → pl 4%nat = MigRan None MigCommitted → res = Value (Ok tt)).
Proof.
  intros Hi Hnames H0 Hn Hup. unfold migrate. destruct history_fault.
  { split; [|done]. eexists. split; [done|]. by left. }
  assert (up_to sha256 migrations n (create_history d)) as Hup' by done.
  pose proof (migrate_loop_outcome sha256 message migrations 5 pl (create_history d) n Hi Hn Hup') as Ho.
  destruct (migrate_loop _ _ 5 _ _ _) as [res d'] eqn:E. simpl. split.
  - destruct Ho as (r & -> & Hr). exists r. split; [done|]. destruct r; [exact Hr|].
    destruct Hr as [->|Hr]; [by left|by right].
  - intros _ Hp. cbn [migrate_loop] in E. rewrite Hp in E.
    assert (plan_migrations sha256 migrations (read_applied_migrations (create_history d)) =
      Value (Ok (drop n migrations))) as Eplan by (apply plan_ok; eauto). rewrite Eplan in E.
    destruct (apply_pending_succeeds sha256 migrations 0 n (create_history d)) as [d1 Ed1]; try done.
    { by apply increasing_NoDup, Hi. }
    rewrite Ed1 in E. congruence.
Qed.

(** Startup validation, when no statement fails, accepts a database exactly when its history is
    complete and every required table has all required columns and the required primary key
    in order. *)
Theorem validate_schema_accepts_exactly sha256 message schema_columns schema_primary_key migrations d :
  increasing migrations →
  validate_schema sha256 message schema_columns schema_primary_key migrations (λ _, false) d = Value (Ok tt) ↔
  is_Some (history d) ∧ up_to sha256 migrations (length migrations) d ∧
  Forall (λ t, Forall (λ c, c ∈ schema_columns (table_name t)) (columns t) ∧
    schema_primary_key (table_name t) = primary_key t) EXPECTED_V4_TABLES.
Proof.
  intros Hi. unfold validate_schema, is_null_history. cbn [orb].
  destruct (history d) as [h|] eqn:Eh; [|split; [done|by intros [[] _]]].
  assert (∀ ts n, validate_tables message schema_columns schema_primary_key (λ _, false) n ts = Ok tt ↔
    Forall (λ t, Forall (λ c, c ∈ schema_columns (table_name t)) (columns t) ∧
      schema_primary_key (table_name t) = primary_key t) ts) as Htables.
  { induction ts as [|t ts IH]; intros n; [by split|]. cbn [validate_tables]. rewrite Forall_cons, <- (IH (S (S n))).
    unfold validate_table. destruct (filter _ (columns t)) as [|c cs] eqn:Ec.
    - assert (Forall (λ c, c ∈ schema_columns (table_name t)) (columns t)) as Hall.
      { apply Forall_forall. intros c Hc. destruct (decide (c ∈ schema_columns (table_name t))) as [|Hn]; [done|].
        assert (c ∈ filter (λ c, c ∉ schema_columns (table_name t)) (columns t)) as Hin by by apply list_elem_of_filter.
        rewrite Ec in Hin. by apply elem_of_nil in Hin. }
      case_bool_decide; simpl; naive_solver.
    - split; [done|]. intros [[Hall _] _]. assert (c ∈ c :: cs) as Hin by left.
      rewrite <- Ec in Hin. apply list_elem_of_filter in Hin as [Hn Hc]. rewrite Forall_forall in Hall. naive_solver. }
  rewrite <- (Htables EXPECTED_V4_TABLES 2%nat). clear Htables. cbv iota.
  generalize (validate_tables message schema_columns schema_primary_key (λ _, false) 2 EXPECTED_V4_TABLES). intros v.
  destruct (plan_returns sha256 migrations (read_applied_migrations d) Hi) as [r Er]. rewrite Er. simpl.
  pose proof (λ pending, plan_ok sha256 migrations (read_applied_migrations d) pending Hi) as Hplan. rewrite Er in Hplan.
  assert (r = Ok [] ↔ up_to sha256 migrations (length migrations) d) as Hcomplete.
  { split.
    - intros ->. destruct (proj1 (Hplan []) eq_refl) as (n & Hn & Hp & Hdrop). unfold up_to.
      apply (f_equal length) in Hdrop. rewrite length_drop in Hdrop. simpl in Hdrop.
      by replace (length migrations) with n by lia.
    - intros Hup. assert (Value r = Value (Ok [])) as [=]; [|done]. apply Hplan. exists (length migrations).
      rewrite drop_all. done. }
  rewrite <- Hcomplete. destruct r as [[|m pending]|e]; try (split; [done|by intros (_ & [=] & _)]).
  split; [intros [= ->]; eauto|by intros (_ & _ & ->)].
Qed.
