(* ===== verification/LoadProfile.v ===== *)
(** The load profile shared by the showcase and the fault harness
    (src/dev_support/load_profile.rs, [SpikySqlLoadProfile]): how many operations each one-second
    interval of a four-second cycle offers. [usize] is 64 bits wide; the sums are checked, as in a
    build with overflow checks, and shown not to overflow. *)
From S2P Require Import Prelude.
Local Open Scope Z_scope.

Record SpikySqlLoadProfile := mkProfile { target_rps : Z }.

Definition DEFAULT_TARGET_RPS : Z := 50.
Definition WORKERS : nat := 128.
Definition QUEUE_CAPACITY : nat := 4096.
Definition SHAPE_PERMILLE : list Z := [250; 500; 2250; 1000].

Definition saturating_mul (x y : Z) : Z := Z.min (x * y) usize_max.
(** [+] on [usize], which panics on overflow. *)
Definition usize_add (x y : Z) : Outcome Z := if x + y <=? usize_max then Value (x + y) else Panicked.
Fixpoint usize_sum (acc : Z) (l : list Z) : Outcome Z :=
  match l with [] => Value acc | x :: l => acc ← usize_add acc x; usize_sum acc l end.

Definition SpikySqlLoadProfile_new (target : Z) : SpikySqlLoadProfile :=
  mkProfile (if target =? 0 then DEFAULT_TARGET_RPS else target).
Definition SpikySqlLoadProfile_default : SpikySqlLoadProfile := SpikySqlLoadProfile_new DEFAULT_TARGET_RPS.

Definition share (p : SpikySqlLoadProfile) (weight : Z) : Z := saturating_mul (target_rps p) weight / 1000.
Definition operations_for_second (p : SpikySqlLoadProfile) (second : Z) : Outcome Z :=
  let second := second mod Z.of_nat (length SHAPE_PERMILLE) in
  weight ← expect (SHAPE_PERMILLE !! Z.to_nat second);
  let base := share p weight in
  allocated ← usize_sum 0 (map (share p) SHAPE_PERMILLE);
  let remainder := saturating_sub (saturating_mul (target_rps p) (Z.of_nat (length SHAPE_PERMILLE))) allocated in
  if second =? 2 then usize_add base remainder else Value base.

Definition is_query (p : SpikySqlLoadProfile) (sequence : Z) : bool := sequence mod 2 =? 0.

(** ** Lemmas *)
Section shares.
Context (p : SpikySqlLoadProfile) (Hp : 0 <= target_rps p <= usize_max).

Lemma share_bounds w : 0 <= w → 0 <= share p w <= usize_max / 1000.
Proof.
  intros Hw. unfold share, saturating_mul. split; [apply Z.div_pos; unfold usize_max; lia|].
  apply Z.div_le_mono; lia.
Qed.
Lemma usize_sum_ok acc l : 0 <= acc → Forall (λ x, 0 <= x) l → acc + foldr Z.add 0 l <= usize_max →
  usize_sum acc l = Value (acc + foldr Z.add 0 l).
Proof.
  revert acc. induction l as [|x l IH]; intros acc Ha Hl Hs; simpl in *; [by rewrite Z.add_0_r|].
  apply Forall_cons in Hl as [Hx Hl].
  assert (0 <= foldr Z.add 0 l) by (clear -Hl; induction Hl; simpl; lia).
  unfold usize_add. rewrite (proj2 (Z.leb_le (acc + x) usize_max)) by lia. simpl. rewrite IH; [f_equal; lia|lia|done|lia].
Qed.
Definition allocated : Z := share p 250 + share p 500 + share p 2250 + share p 1000.
Lemma allocated_sum : usize_sum 0 (map (share p) SHAPE_PERMILLE) = Value allocated.
Proof.
  pose proof (share_bounds 250 ltac:(lia)). pose proof (share_bounds 500 ltac:(lia)).
  pose proof (share_bounds 2250 ltac:(lia)). pose proof (share_bounds 1000 ltac:(lia)).
  assert (usize_max / 1000 * 4 <= usize_max) by (vm_compute; intros; discriminate).
  rewrite usize_sum_ok; simpl; [unfold allocated; f_equal; lia|done|repeat constructor; lia|lia].
Qed.
(** The shares never exceed four times the target, saturated. *)
Lemma allocated_le : allocated <= saturating_mul (target_rps p) 4.
Proof.
  assert (∀ w, 0 <= w → 1000 * share p w <= target_rps p * w) as Hs.
  { intros w Hw. etransitivity; [apply Z.mul_div_le; lia|]. unfold saturating_mul. lia. }
  pose proof (Hs 250 ltac:(lia)). pose proof (Hs 500 ltac:(lia)). pose proof (Hs 2250 ltac:(lia)).
  pose proof (Hs 1000 ltac:(lia)). pose proof (share_bounds 250 ltac:(lia)). pose proof (share_bounds 500 ltac:(lia)).
  pose proof (share_bounds 2250 ltac:(lia)). pose proof (share_bounds 1000 ltac:(lia)).
  assert (usize_max / 1000 * 4 <= usize_max) by (vm_compute; intros; discriminate).
  unfold allocated, saturating_mul. lia.
Qed.
Lemma operations_at second : operations_for_second p second = Value
  match second mod 4 with
  | 0 => share p 250
  | 1 => share p 500
  | 2 => share p 2250 + (saturating_mul (target_rps p) 4 - allocated)
  | _ => share p 1000
  end.
Proof.
  pose proof (Z.mod_pos_bound second 4 ltac:(lia)) as Hm. unfold operations_for_second.
  change (Z.of_nat (length SHAPE_PERMILLE)) with 4. rewrite allocated_sum.
  assert (second mod 4 = 0 ∨ second mod 4 = 1 ∨ second mod 4 = 2 ∨ second mod 4 = 3) as [->|[->|[->| ->]]] by lia;
    try done. simpl. pose proof allocated_le as Hal.
  pose proof (share_bounds 250 ltac:(lia)). pose proof (share_bounds 500 ltac:(lia)). pose proof (share_bounds 1000 ltac:(lia)).
  unfold usize_add, saturating_sub. rewrite Z.max_l by lia.
  rewrite (proj2 (Z.leb_le _ usize_max)); [done|]. unfold allocated, saturating_mul in *. lia.
Qed.
End shares.

(** ** Theorems *)
(** The load averages to its target: for every target a [usize] can hold and every second, the
    number of operations is computed without overflow, and any four consecutive seconds together
    offer exactly four times the target, saturated at the largest [usize]; a zero target becomes the
    default. *)
Theorem load_averages_to_its_target target second :
  0 <= target <= usize_max → 0 <= second →
  let p := SpikySqlLoadProfile_new target in
  target_rps p = (if target =? 0 then 50 else target) ∧
  ∃ a b c d, operations_for_second p second = Value a ∧ operations_for_second p (second + 1) = Value b ∧
    operations_for_second p (second + 2) = Value c ∧ operations_for_second p (second + 3) = Value d ∧
    0 <= a ∧ 0 <= b ∧ 0 <= c ∧ 0 <= d ∧
    a + b + c + d = saturating_mul (target_rps p) 4.
Proof.
  intros Ht Hs p. split; [done|].
  assert (0 <= target_rps p <= usize_max) as Hp.
  { unfold p, SpikySqlLoadProfile_new. destruct (target =? 0); simpl; [vm_compute; split; intros; discriminate|lia]. }
  do 4 eexists. rewrite !(operations_at p Hp). split_and!; [done..| | | | |].
  1-4: pose proof (share_bounds p Hp 250 ltac:(lia)); pose proof (share_bounds p Hp 500 ltac:(lia));
    pose proof (share_bounds p Hp 2250 ltac:(lia)); pose proof (share_bounds p Hp 1000 ltac:(lia));
    pose proof (allocated_le p Hp); repeat case_match; lia.
  rewrite (Z.add_mod second 1), (Z.add_mod second 2), (Z.add_mod second 3) by lia.
  pose proof (Z.mod_pos_bound second 4 ltac:(lia)) as Hm.
  assert (second mod 4 = 0 ∨ second mod 4 = 1 ∨ second mod 4 = 2 ∨ second mod 4 = 3) as [->|[->|[->| ->]]] by lia;
    simpl; unfold allocated; lia.
Qed.
