(* ===== verification/Showcase.v ===== *)
(** The showcase (examples/showcase.rs): the chat user interface and the load simulator that drive
    the SQL sidecar. What is modelled: the two HTTP handlers, how each load request is built,
    queued and served, the statements and parameters that are sent to the sidecar, the seeding
    of the previous year's conversations through the router, and the main function that ties them.

    What the sidecar answers, whether it can be connected to, the clock and the state of the queue
    are read from the environment. The HTTP server, the ticker and the log output are not modelled. *)
From S2P Require Import Prelude Chrono Model Schema Storage Text ArchiveFormat Observability PoolConfig Prog Table Placeholders Gateway Programs Startup LoadProfile.
Local Open Scope Z_scope.

(** ** Constants *)
Definition ACTORS : list string := ["Ada"; "Bea"; "Cy"; "Dee"; "Eli"].
Definition CHANNELS : list string := ["general"; "engineering"; "random"].
Definition CHANNEL_MESSAGE_COUNT_INTERVAL : Z := 1000.
Definition SELECT_MESSAGES_SQL : string :=
  "SELECT timestamp, id, value FROM messages WHERE channel_id = $1 AND timestamp >= $2 AND timestamp < $3 ORDER BY timestamp ASC, id ASC LIMIT $4".
Definition SELECT_MESSAGE_COUNT_SQL : string :=
  "SELECT COUNT(*) AS message_count FROM messages WHERE channel_id = $1 AND timestamp >= $2 AND timestamp < $3".
Definition INSERT_MESSAGE_SQL : string :=
  "INSERT INTO messages (channel_id, timestamp, id, value) VALUES ($1, $2, $3, $4)".

(** ** Strings *)
(** [str::split_once]: around the first occurrence. *)
Fixpoint split_once (sep s : string) : option (string * string) :=
  match strip_prefix sep s with
  | Some rest => Some ("", rest)
  | None =>
      match s with
      | EmptyString => None
      | String a s' => match split_once sep s' with Some (x, y) => Some (String a x, y) | None => None end
      end
  end.
(** [String::from_utf8_lossy]: every maximal invalid sequence becomes one U+FFFD. *)
Definition REPLACEMENT : list byte := [xef; xbf; xbd]%byte.
Fixpoint utf8_lossy (l : list byte) : list byte :=
  match l with
  | [] => []
  | b0 :: l0 =>
      if in_bytes 0 127 b0 then b0 :: utf8_lossy l0
      else if in_bytes 194 223 b0 then
        match l0 with
        | b1 :: l1 => if is_continuation b1 then b0 :: b1 :: utf8_lossy l1 else REPLACEMENT ++ utf8_lossy l0
        | [] => REPLACEMENT
        end
      else
        match l0 with
        | [] => REPLACEMENT
        | b1 :: l1 =>
            if three_byte_lead b0 b1 then
              match l1 with
              | b2 :: l2 => if is_continuation b2 then b0 :: b1 :: b2 :: utf8_lossy l2 else REPLACEMENT ++ utf8_lossy l1
              | [] => REPLACEMENT
              end
            else if four_byte_lead b0 b1 then
              match l1 with
              | b2 :: l2 =>
                  if is_continuation b2 then
                    match l2 with
                    | b3 :: l3 =>
                        if is_continuation b3 then b0 :: b1 :: b2 :: b3 :: utf8_lossy l3 else REPLACEMENT ++ utf8_lossy l2
                    | [] => REPLACEMENT
                    end
                  else REPLACEMENT ++ utf8_lossy l1
              | [] => REPLACEMENT
              end
            else REPLACEMENT ++ utf8_lossy l0
        end
  end.
Definition from_utf8_lossy (l : list byte) : string := String.string_of_list_byte (utf8_lossy l).

(** ** The user interface *)
Record UiState := mkUi { sql_url : string; channels : list string; history_start : Z }.
Record ChannelResponse := mkChannel { ch_id : string; ch_name : string }.
Record MessageResponse := mkMessage { msg_id : string; msg_actor : string; msg_text : string; msg_timestamp : Z }.
Inductive StatusCode := NOT_FOUND | SERVICE_UNAVAILABLE | INTERNAL_SERVER_ERROR.

Definition list_channels (state : UiState) : list ChannelResponse :=
  map (λ id, mkChannel id (rsplit_next "-" id)) (channels state).

(** A parameter of a statement, and what [try_get] finds in the columns of a row. *)
Inductive SqlParam := PText (s : string) | PTimestamp (t : Z) | PBigint (n : Z) | PBytea (bytes : list byte).
Record Row := mkRow { col_timestamp : option Z; col_id : option string; col_value : option (list byte) }.

Definition unexpected_schema : StatusCode * string := (INTERNAL_SERVER_ERROR, "unexpected message schema").
Definition message_of_row (row : Row) : Result (StatusCode * string) MessageResponse :=
  timestamp ← ok_or (col_timestamp row) unexpected_schema;
  id ← ok_or (col_id row) unexpected_schema;
  value ← ok_or (col_value row) unexpected_schema;
  let text := from_utf8_lossy value in
  let '(actor, text) := match split_once ": " text with Some (actor, body) => (actor, body) | None => ("Pulpitum", text) end in
  Ok (mkMessage id actor text timestamp).
Fixpoint messages_of_rows (rows : list Row) : Result (StatusCode * string) (list MessageResponse) :=
  match rows with
  | [] => Ok []
  | row :: rows => m ← message_of_row row; ms ← messages_of_rows rows; Ok (m :: ms)
  end.

(** [DateTime + Duration], which panics outside the representable instants. *)
Definition add_duration `{Chrono} (t d : Z) : Outcome Z :=
  if (min_utc <=? t + d) && (t + d <=? max_utc) then Value (t + d) else Panicked.

(** [connect] says whether the sidecar was reached, [query] is what it answered. *)
Definition list_messages `{Chrono} (state : UiState) (channel : string) (now : Z) (connect : bool)
    (query : string → list SqlParam → option (list Row)) : Outcome (Result (StatusCode * string) (list MessageResponse)) :=
  if bool_decide (channel ∈ channels state) then
    end_ ← add_duration now NANOS_PER_DAY;
    Value (
      _ ← (if connect then Ok tt else Err (SERVICE_UNAVAILABLE, "SQL sidecar is unavailable"));
      rows ← ok_or (query SELECT_MESSAGES_SQL [PText channel; PTimestamp (history_start state); PTimestamp end_; PBigint 100])
                   (INTERNAL_SERVER_ERROR, "message query failed");
      messages_of_rows rows)
  else Value (Err (NOT_FOUND, "unknown channel")).

(** ** Load requests *)
Inductive LoadOperation := LoadAppend | RecentRead | CountChannelMessages.
Record LoadRequest := mkRequest { lr_sequence : Z; lr_channel_index : Z; lr_operation : LoadOperation }.
Definition load_operation (p : SpikySqlLoadProfile) (sequence : Z) : LoadOperation :=
  if negb (is_query p sequence) then LoadAppend
  else if sequence mod CHANNEL_MESSAGE_COUNT_INTERVAL =? 0 then CountChannelMessages else RecentRead.

Section settings.
Context (env : string → Var).
Definition showcase_pool_config : Result ProgramError CockroachPoolConfig :=
  pool_settings env 1 "COCKROACH_POOL_MAX_CONNECTIONS must be greater than zero".
Definition load_target_rps : Z :=
  match var_ok (env "SHOWCASE_LOAD_TARGET_RPS") ≫= λ value, parse_usize (String.list_ascii_of_string value) with
  | Some value => if 0 <? value then value else DEFAULT_TARGET_RPS
  | None => DEFAULT_TARGET_RPS
  end.
End settings.

(** ** A load worker *)
(** What one request reads from outside: the clock, the client a connection attempt yields, and what
    a client answers to a statement: the number of rows it changed or returned, or the count. *)
Section worker.
Context `{Chrono} {Client : Type}.
Record sidecar := mkSidecar {
  sc_now : Z;
  sc_connect : option Client;
  sc_execute : Client → string → list SqlParam → option Z;
  sc_query : Client → string → list SqlParam → option nat;
  sc_query_one : Client → string → list SqlParam → option (option Z)
}.

(** The client is opened when there is none yet. *)
Definition sql_client (e : sidecar) (client : option Client) : option Client :=
  match client with None => sc_connect e | Some c => Some c end.

Definition append_via_sql_sidecar (e : sidecar) (client : option Client) (channel : string) (timestamp : Z)
    (id value : string) : bool * option Client :=
  match sql_client e client with
  | None => (false, None)
  | Some c =>
      (match sc_execute e c INSERT_MESSAGE_SQL
               [PText channel; PTimestamp timestamp; PText id; PBytea (string_bytes value)] with
       | Some rows => rows =? 1
       | None => false
       end, Some c)
  end.
Definition query_via_sql_sidecar (e : sidecar) (client : option Client) (channel : string) (start end_ limit : Z) :
    option nat * option Client :=
  match sql_client e client with
  | None => (None, None)
  | Some c => (sc_query e c SELECT_MESSAGES_SQL [PText channel; PTimestamp start; PTimestamp end_; PBigint limit], Some c)
  end.
(** [try_into] refuses a negative count. *)
Definition count_messages_via_sql_sidecar (e : sidecar) (client : option Client) (channel : string) (start end_ : Z) :
    option Z * option Client :=
  match sql_client e client with
  | None => (None, None)
  | Some c =>
      (match sc_query_one e c SELECT_MESSAGE_COUNT_SQL [PText channel; PTimestamp start; PTimestamp end_] with
       | Some (Some count) => if 0 <=? count then Some count else None
       | _ => None
       end, Some c)
  end.

Definition load_id (actor : string) (sequence : Z) : string :=
  "load-" +:+ actor +:+ "-" +:+ zero_pad 20 (pretty (Z.to_N sequence)).
Definition load_text (actor : string) (sequence : Z) : string :=
  actor +:+ ": load simulation message " +:+ pretty (Z.to_N sequence).
Definition load_actor (sequence : Z) : Outcome string :=
  expect (ACTORS !! Z.to_nat (sequence mod Z.of_nat (length ACTORS))).

(** The body of the worker's loop: whether the request succeeded, and the client kept for the next. *)
Definition serve_request (chans : list string) (history : Z) (e : sidecar) (client : option Client) (r : LoadRequest) :
    Outcome (bool * option Client) :=
  channel ← expect (chans !! Z.to_nat (lr_channel_index r));
  match lr_operation r with
  | RecentRead =>
      start ← add_duration (sc_now e) (- (5 * 60 * SECOND));
      end_ ← add_duration (sc_now e) SECOND;
      let '(found, client) := query_via_sql_sidecar e client channel start end_ 25 in
      Value (bool_decide (is_Some found), client)
  | CountChannelMessages =>
      end_ ← add_duration (sc_now e) SECOND;
      let '(count, client) := count_messages_via_sql_sidecar e client channel history end_ in
      Value (bool_decide (is_Some count), client)
  | LoadAppend =>
      actor ← load_actor (lr_sequence r);
      Value (append_via_sql_sidecar e client channel (sc_now e) (load_id actor (lr_sequence r)) (load_text actor (lr_sequence r)))
  end.
(** [run_load_worker]: the requests it receives, each with what it reads, until the queue closes. *)
Fixpoint run_load_worker (chans : list string) (history : Z) (client : option Client)
    (requests : list (sidecar * LoadRequest)) : Outcome (list bool * option Client) :=
  match requests with
  | [] => Value ([], client)
  | (e, r) :: requests =>
      served ← serve_request chans history e client r;
      rest ← run_load_worker chans history served.2 requests;
      Value (served.1 :: rest.1, rest.2)
  end.
End worker.
Arguments sidecar : clear implicits.

(** ** The load simulation *)
Inductive SendResult := Sent | Full | Closed.
Record Simulation := mkSimulation { sim_second : Z; sim_sequence : Z }.

(** The inner loop: [n] requests are still to be offered; [sends k] is the answer to the attempt with
    [k] left. Returns the requests enqueued, the next sequence number, and whether the queue closed. *)
Fixpoint offer (p : SpikySqlLoadProfile) (channel_count : Z) (sends : nat → SendResult) (n : nat) (sequence : Z) :
    Outcome (list LoadRequest * Z * bool) :=
  match n with
  | O => Value ([], sequence, false)
  | S n =>
      index ← (if channel_count =? 0 then Panicked else Value (sequence mod channel_count));
      let request := mkRequest sequence index (load_operation p sequence) in
      let sequence := wrapping_add_u64 sequence 1 in
      match sends n with
      | Sent => rest ← offer p channel_count sends n sequence; Value (request :: rest.1.1, rest.1.2, rest.2)
      | Full => Value ([], sequence, false)
      | Closed => Value ([], sequence, true)
      end
  end.
(** One tick: the requests enqueued, how many were dropped, and the state for the next tick, if any. *)
Definition tick (p : SpikySqlLoadProfile) (channel_count : Z) (sends : nat → SendResult) (s : Simulation) :
    Outcome (list LoadRequest * Z * option Simulation) :=
  offered ← operations_for_second p (sim_second s);
  res ← offer p channel_count sends (Z.to_nat offered) (sim_sequence s);
  let '(enqueued, sequence, closed) := res in
  let dropped := offered - Z.of_nat (length enqueued) in
  Value (enqueued, dropped,
         if closed : bool then None else Some (mkSimulation (wrapping_add_u64 (sim_second s) 1) sequence)).
(** [run_load_simulation], tick after tick. *)
Fixpoint run_load_simulation (p : SpikySqlLoadProfile) (channel_count : Z) (sends : list (nat → SendResult))
    (s : Simulation) : Outcome (list LoadRequest) :=
  match sends with
  | [] => Value []
  | f :: sends =>
      res ← tick p channel_count f s;
      match res with
      | (enqueued, _, None) => Value enqueued
      | (enqueued, _, Some s') => rest ← run_load_simulation p channel_count sends s'; Value (enqueued ++ rest)
      end
  end.

(** ** Seeding *)
Section seeding.
Context `{Chrono}.
Definition prior_year_timestamp (now : Z) : Outcome Z :=
  expect ((λ t, t + 12 * 3600 * SECOND) <$> with_ymd (year now - 1) 6 1).
Definition run_channels (run : Z) : list string :=
  map (λ channel, "showcase-" +:+ fmt_width 0 run +:+ "-" +:+ channel) CHANNELS.
Definition seed_record (channel : string) (old_timestamp sequence : Z) : Record_ :=
  mkRecord (string_bytes channel) old_timestamp (string_bytes ("seed-" +:+ zero_pad 3 (pretty (Z.to_N sequence))))
    (string_bytes ("Ada: archived conversation " +:+ pretty (Z.to_N sequence) +:+ " in #" +:+ channel)).
Definition seed_records (chans : list string) (old_timestamp : Z) : list Record_ :=
  channel ← chans; map (seed_record channel old_timestamp) (seqZ 0 8).
(** The nested loops; [nows] are the clock readings of the appends. *)
Fixpoint seed (d : TableDefinition) (records : list Record_) (nows : nat → Z) :
    prog (Outcome (Result DurableTableError unit)) :=
  match records with
  | [] => Ret (Value (Ok tt))
  | r :: records =>
      match table_append d r (nows (length records)) with
      | OutOfFuel => Ret OutOfFuel
      | Panicked => Ret Panicked
      | Value append =>
          append ≫= λ res, match res with Err e => Ret (Value (Err e)) | Ok _ => seed d records nows end
      end
  end.
End seeding.

(** ** Lemmas *)
Section utf8.
(** What holds of the shorter lists holds of the list. *)
Lemma bytes_ind (P : list byte → Prop) :
  (∀ l, (∀ l', (length l' < length l)%nat → P l') → P l) → ∀ l, P l.
Proof.
  intros HP l. remember (length l) as n eqn:Hn. revert l Hn. induction (lt_wf n) as [n _ IH]. intros l ->.
  apply HP. intros l' Hlt. by apply (IH _ Hlt).
Qed.
Lemma utf8_lossy_valid l : valid_utf8 l = true → utf8_lossy l = l.
Proof.
  revert l. refine (bytes_ind _ _). intros l IH' Hv.
  destruct l as [|b0 l]; [done|]. simpl in *. destruct (in_bytes 0 127 b0) eqn:E0; [by rewrite IH' by (simpl; lia || done)|].
  destruct l as [|b1 l]; [done|]. destruct (in_bytes 194 223 b0) eqn:E1.
  { apply andb_prop in Hv as [-> Hv]. rewrite IH' by (simpl; lia || done). done. }
  destruct l as [|b2 l]; [done|]. destruct (three_byte_lead b0 b1) eqn:E2.
  { apply andb_prop in Hv as [-> Hv]. rewrite IH' by (simpl; lia || done). done. }
  destruct l as [|b3 l]; [done|]. repeat apply andb_prop in Hv as [Hv ?].
  repeat match goal with H : _ = true |- _ => rewrite H end. rewrite IH' by (simpl; lia || done). done.
Qed.
Lemma valid_replacement l : valid_utf8 (REPLACEMENT ++ l) = valid_utf8 l.
Proof. done. Qed.
Lemma utf8_lossy_is_valid l : valid_utf8 (utf8_lossy l) = true.
Proof.
  revert l. refine (bytes_ind _ _). intros l IH. destruct l as [|b0 l]; [done|]. cbn [utf8_lossy].
  destruct (in_bytes 0 127 b0) eqn:E0; [simpl; rewrite E0; apply IH; simpl; lia|].
  destruct (in_bytes 194 223 b0) eqn:E1.
  { destruct l as [|b1 l]; [done|]. destruct (is_continuation b1) eqn:Ec;
      [simpl; rewrite E0, E1, Ec|rewrite valid_replacement]; apply IH; simpl; lia. }
  destruct l as [|b1 l]; [done|]. destruct (three_byte_lead b0 b1) eqn:E2.
  { destruct l as [|b2 l]; [done|]. destruct (is_continuation b2) eqn:Ec;
      [simpl; rewrite E0, E1, E2, Ec|rewrite valid_replacement]; apply IH; simpl; lia. }
  destruct (four_byte_lead b0 b1) eqn:E3; [|rewrite valid_replacement; apply IH; simpl; lia].
  destruct l as [|b2 l]; [done|]. destruct (is_continuation b2) eqn:Ec2; [|rewrite valid_replacement; apply IH; simpl; lia].
  destruct l as [|b3 l]; [done|]. destruct (is_continuation b3) eqn:Ec3;
    [simpl; rewrite E0, E1, E2, E3, Ec2, Ec3|rewrite valid_replacement]; apply IH; simpl; lia.
Qed.
End utf8.
Lemma from_utf8_lossy_str s : is_str s → from_utf8_lossy (string_bytes s) = s.
Proof.
  intros Hs. unfold from_utf8_lossy. rewrite utf8_lossy_valid by done. apply String.string_of_list_byte_of_string.
Qed.

Lemma split_once_app actor body : has_char ":" actor = false → split_once ": " (actor +:+ ": " +:+ body) = Some (actor, body).
Proof.
  induction actor as [|a actor IH]; simpl; [done|]. intros [Ha Hrest]%orb_false_iff.
  apply bool_decide_eq_false in Ha. rewrite decide_False by congruence. by rewrite IH.
Qed.

(** Digits only. *)
Lemma pretty_go_char_free c x s : c ∉ map pretty_N_char [0;1;2;3;4;5;6;7;8;9]%N → has_char c s = false →
  has_char c (pretty_N_go x s) = false.
Proof.
  intros Hc. revert s. induction (N.lt_wf_0 x) as [x _ IH]. intros s Hs.
  assert (x = 0 ∨ 0 < x)%N as [->|Hx] by lia; [by rewrite pretty_N_go_0|].
  rewrite pretty_N_go_step by done. apply IH; [by apply N.div_lt|]. simpl. rewrite Hs, orb_false_r.
  apply bool_decide_eq_false. intros <-. apply Hc. pose proof (N.mod_lt x 10 ltac:(lia)) as Hm.
  assert (x `mod` 10 = 0 ∨ x `mod` 10 = 1 ∨ x `mod` 10 = 2 ∨ x `mod` 10 = 3 ∨ x `mod` 10 = 4 ∨ x `mod` 10 = 5 ∨
    x `mod` 10 = 6 ∨ x `mod` 10 = 7 ∨ x `mod` 10 = 8 ∨ x `mod` 10 = 9)%N as Hcases by lia.
  destruct_or! Hcases; rewrite Hcases; set_solver.
Qed.
Lemma pretty_no_dash (x : N) : has_char "-" (pretty x) = false.
Proof.
  unfold pretty, pretty_N. case_decide; [done|]. apply pretty_go_char_free; [|done].
  apply (bool_decide_unpack _). by vm_compute.
Qed.
Lemma zero_pad_no_dash w (x : N) : has_char "-" (zero_pad w (pretty x)) = false.
Proof.
  unfold zero_pad. rewrite has_char_app, pretty_no_dash, orb_false_r. induction (w - _)%nat; [done|]. simpl. done.
Qed.

(** The sequence number can be read off a record's identifier. *)
Lemma load_id_sequence actor n : 0 <= n → Z.of_N (decimal_value (rsplit_next "-" (load_id actor n))) = n.
Proof.
  intros Hn. unfold load_id.
  assert ("load-" +:+ actor +:+ "-" +:+ zero_pad 20 (pretty (Z.to_N n)) =
    ("load-" +:+ actor) +:+ String "-" (zero_pad 20 (pretty (Z.to_N n)))) as ->.
  { rewrite string_app_assoc. done. }
  rewrite rsplit_next_app by apply zero_pad_no_dash. rewrite decimal_zero_pad, decimal_value_pretty. lia.
Qed.

(** ** The requests of the simulation *)
Definition request_at (p : SpikySqlLoadProfile) (channel_count sequence : Z) : LoadRequest :=
  mkRequest sequence (sequence mod channel_count) (load_operation p sequence).

Section simulation.
Context (p : SpikySqlLoadProfile) (channel_count : Z) (Hc : 0 < channel_count).

(** A tick enqueues consecutive requests; one that finds the queue full uses up a number. *)
Lemma offer_spec sends n sequence : 0 <= sequence → sequence + Z.of_nat n < 2 ^ 64 →
  ∃ k next closed, offer p channel_count sends n sequence =
    Value (map (request_at p channel_count) (seqZ sequence (Z.of_nat k)), next, closed) ∧
    (k ≤ n)%nat ∧ sequence + Z.of_nat k <= next <= sequence + Z.of_nat n.
Proof.
  revert sequence. induction n as [|n IH]; intros sequence Hs Hn; simpl; [by exists 0%nat, sequence, false; split_and!; [|lia..]|].
  rewrite (proj2 (Z.eqb_neq channel_count 0)) by lia. simpl.
  assert (wrapping_add_u64 sequence 1 = sequence + 1) as -> by (unfold wrapping_add_u64; rewrite Z.mod_small; lia).
  destruct (sends n).
  - destruct (IH (sequence + 1)) as (k & next & closed & -> & Hk & Hnext); [lia..|]. exists (S k), next, closed.
    split_and!; [|lia..]. rewrite Nat2Z.inj_succ, (seqZ_cons sequence), Z.pred_succ by lia. done.
  - exists 0%nat, (sequence + 1), false. split_and!; [done|lia..].
  - exists 0%nat, (sequence + 1), true. split_and!; [done|lia..].
Qed.

(** The numbers of the requests enqueued from a state on. *)
Definition fresh_from (sequence : Z) (rs : list LoadRequest) : Prop :=
  StronglySorted Z.lt (lr_sequence <$> rs) ∧
  Forall (λ r, sequence <= lr_sequence r < 2 ^ 64 ∧ r = request_at p channel_count (lr_sequence r)) rs.

Lemma seqZ_lt a n : StronglySorted Z.lt (seqZ a (Z.of_nat n)).
Proof.
  revert a. induction n as [|n IH]; intros a; [constructor|]. rewrite seqZ_cons by lia.
  constructor; [replace (Z.pred (Z.of_nat (S n))) with (Z.of_nat n) by lia; apply IH|].
  apply Forall_forall. intros x Hx%elem_of_seqZ. lia.
Qed.
Lemma requests_fresh a k : 0 <= a → a + Z.of_nat k <= 2 ^ 64 →
  fresh_from a (map (request_at p channel_count) (seqZ a (Z.of_nat k))).
Proof.
  intros Ha Hk. change (map ?f ?l) with (f <$> l). split.
  - rewrite <- list_fmap_compose. erewrite list_fmap_ext; [rewrite list_fmap_id; apply seqZ_lt|done].
  - apply Forall_fmap, Forall_forall. intros x Hx%elem_of_seqZ. simpl. split; [lia|done].
Qed.
Lemma fresh_app a b rs rs' : fresh_from a rs → (∀ r, r ∈ rs → lr_sequence r < b) → a <= b →
  fresh_from b rs' → fresh_from a (rs ++ rs').
Proof.
  intros [Hs Hf] Hlt Hab [Hs' Hf']. split.
  - rewrite fmap_app. apply StronglySorted_app. split_and!; [|done|done].
    intros x y (r & -> & Hr)%list_elem_of_fmap (r' & -> & Hr')%list_elem_of_fmap.
    rewrite Forall_forall in Hf'. destruct (Hf' _ Hr') as [? _]. specialize (Hlt _ Hr). lia.
  - apply Forall_app. split; [done|]. eapply Forall_impl; [exact Hf'|]. simpl. intros r [? ?]. split; [lia|done].
Qed.

(** How many requests the given ticks may offer. *)
Fixpoint offered_total (ticks : nat) (second : Z) : Outcome Z :=
  match ticks with
  | O => Value 0
  | S ticks => n ← operations_for_second p second;
      rest ← offered_total ticks (wrapping_add_u64 second 1); Value (n + rest)
  end.
Lemma simulation_fresh sends s total : 0 <= target_rps p <= usize_max → 0 <= sim_sequence s →
  offered_total (length sends) (sim_second s) = Value total → sim_sequence s + total < 2 ^ 64 →
  ∃ rs, run_load_simulation p channel_count sends s = Value rs ∧ fresh_from (sim_sequence s) rs.
Proof.
  intros Hp. revert s total. induction sends as [|f sends IH]; intros s total Hs; simpl.
  { intros _ _. exists []. split; [done|]. split; constructor. }
  destruct (operations_for_second p (sim_second s)) as [n| |] eqn:En; simpl; [|done..].
  destruct (offered_total _ _) as [rest| |] eqn:Er; simpl; [|done..]. intros [= <-] Hlt.
  assert (∀ ticks second total, offered_total ticks second = Value total → 0 <= total) as Hpos.
  { induction ticks as [|ticks IHt]; intros second total; simpl; [by intros [= <-]|].
    destruct (operations_for_second p second) as [n'| |] eqn:En'; simpl; [|done..].
    destruct (offered_total ticks _) as [r| |] eqn:Er'; simpl; [|done..]. intros [= <-]. apply IHt in Er'.
    rewrite operations_at in En' by done. simplify_eq.
    pose proof (share_bounds p Hp 250 ltac:(lia)); pose proof (share_bounds p Hp 500 ltac:(lia));
    pose proof (share_bounds p Hp 2250 ltac:(lia)); pose proof (share_bounds p Hp 1000 ltac:(lia));
    pose proof (allocated_le p Hp). repeat case_match; lia. }
  pose proof (Hpos _ _ _ Er) as Hrest.
  assert (0 <= n) as Hn by (pose proof (Hpos 1%nat (sim_second s) n) as H1; simpl in H1; rewrite En in H1; simpl in H1;
    apply H1; by rewrite Z.add_0_r).
  unfold tick. rewrite En. simpl.
  destruct (offer_spec f (Z.to_nat n) (sim_sequence s)) as (k & next & closed & -> & Hk & Hnext); [lia..|]. simpl.
  pose proof (requests_fresh (sim_sequence s) k ltac:(lia) ltac:(lia)) as Hfresh. destruct closed; [by eauto|].
  destruct (IH (mkSimulation (wrapping_add_u64 (sim_second s) 1) next) rest) as (rs & -> & Hrs);
    [simpl; lia|done|simpl; lia|]. simpl in *. eexists. split; [done|].
  eapply (fresh_app _ next); [exact Hfresh| |lia|done].
  change (map ?f ?l) with (f <$> l). intros r (x & -> & Hx%elem_of_seqZ)%list_elem_of_fmap. simpl. lia.
Qed.
End simulation.

(** ** Theorems *)
(** The load simulator never reuses a record identifier: whatever the queue answers, the requests
    it enqueues over any number of ticks carry strictly increasing sequence numbers, each with the
    channel and the operation of its number, as long as it has offered fewer than 2^64 requests; and
    requests with different numbers append records with different identifiers, whoever the actors. *)
Theorem load_identifiers_are_unique p channel_count sends total :
  0 < channel_count → 0 <= target_rps p <= usize_max →
  offered_total p (length sends) 0 = Value total → total < 2 ^ 64 →
  (∃ rs, run_load_simulation p channel_count sends (mkSimulation 0 0) = Value rs ∧
     StronglySorted Z.lt (lr_sequence <$> rs) ∧
     Forall (λ r, r = request_at p channel_count (lr_sequence r) ∧ 0 <= lr_channel_index r < channel_count) rs) ∧
  (∀ actor actor' n n', 0 <= n → 0 <= n' → load_id actor n = load_id actor' n' → n = n').
Proof.
  intros Hc Hp Ht Hlt. split.
  - destruct (simulation_fresh p channel_count Hc sends (mkSimulation 0 0) total Hp ltac:(done) Ht Hlt)
      as (rs & -> & Hs & Hf). exists rs. split_and!; [done..|]. eapply Forall_impl; [exact Hf|].
    simpl. intros r [Hr Er]. split; [done|]. rewrite Er. simpl. by apply Z.mod_pos_bound.
  - intros actor actor' n n' Hn Hn' E. rewrite <- (load_id_sequence actor n), <- (load_id_sequence actor' n') by done.
    by rewrite E.
Qed.

(** A worker that has once connected keeps that client for good: after its connection has failed,
    every later request fails, although the sidecar could be reached again. *)
Theorem worker_never_reconnects `{Chrono} {Client : Type} chans history (c : Client)
    (requests : list (sidecar Client * LoadRequest)) results client :
  Forall (λ '(e, r), (∀ stmt ps, sc_execute e c stmt ps = None) ∧ (∀ stmt ps, sc_query e c stmt ps = None) ∧
    (∀ stmt ps, sc_query_one e c stmt ps = None)) requests →
  run_load_worker chans history (Some c) requests = Value (results, client) →
  client = Some c ∧ Forall (λ ok, ok = false) results.
Proof.
  intros Hdead. revert results client. induction Hdead as [|[e r] requests (Hx & Hq & H1) _ IH]; intros results client; simpl.
  { intros [= <- <-]. by split. }
  assert (∀ served, serve_request chans history e (Some c) r = Value served → served = (false, Some c)) as Hserve.
  { intros served. unfold serve_request. destruct (expect _) as [channel| |]; simpl; [|done..].
    destruct (lr_operation r); simpl.
    - destruct (load_actor _); simpl; [|done..]. unfold append_via_sql_sidecar. simpl. rewrite Hx. by intros [= <-].
    - destruct (add_duration _ (- _)) as [start| |]; simpl; [|done..].
      destruct (add_duration _ _) as [end_| |]; simpl; [|done..]. unfold query_via_sql_sidecar. simpl. rewrite Hq.
      by intros [= <-].
    - destruct (add_duration _ _); simpl; [|done..]. unfold count_messages_via_sql_sidecar. simpl. rewrite H1.
      by intros [= <-]. }
  destruct (serve_request chans history e (Some c) r) as [served| |]; simpl; [|done..].
  rewrite (Hserve served eq_refl). simpl. destruct (run_load_worker _ _ _ _) as [[results' client']| |]; simpl; [|done..].
  intros [= <- <-]. destruct (IH results' client' eq_refl) as [-> Hall]. split; [done|]. by constructor.
Qed.

(** The showcase's statements are the sidecar's fixed shapes, and the types the sidecar infers for
    their placeholders are those of the parameters the showcase binds. *)
Definition param_type (q : SqlParam) : Type_ :=
  match q with PText _ => TEXT | PTimestamp _ => TIMESTAMPTZ | PBigint _ => INT8 | PBytea _ => BYTEA end.
Theorem statements_match_the_gateway channel id t u n bytes :
  SELECT_MESSAGES_SQL = shape_template (from_statement SELECT_MESSAGES_SQL) "messages" ∧
  SELECT_MESSAGE_COUNT_SQL = shape_template (from_statement SELECT_MESSAGE_COUNT_SQL) "messages" ∧
  INSERT_MESSAGE_SQL = shape_template (from_statement INSERT_MESSAGE_SQL) "messages" ∧
  read_parameter_types SELECT_MESSAGES_SQL =
    Value (Ok (map param_type [PText channel; PTimestamp t; PTimestamp u; PBigint n])) ∧
  read_parameter_types SELECT_MESSAGE_COUNT_SQL =
    Value (Ok (map param_type [PText channel; PTimestamp t; PTimestamp u])) ∧
  placeholder_indices INSERT_MESSAGE_SQL = Value (Ok [1; 2; 3; 4]) ∧
  map snd column_types = map param_type [PText channel; PTimestamp t; PText id; PBytea bytes].
Proof. split_and!; by vm_compute. Qed.

(** Messages are shown with the actor they were written by: a value of the form "actor: body" is
    split at the first colon and space, and shown unchanged otherwise. *)
Theorem messages_show_their_actor t id actor body :
  is_str (actor +:+ ": " +:+ body) → has_char ":" actor = false →
  message_of_row (mkRow (Some t) (Some id) (Some (string_bytes (actor +:+ ": " +:+ body)))) =
  Ok (mkMessage id actor body t).
Proof. intros Hs Ha. unfold message_of_row. simpl. rewrite from_utf8_lossy_str by done. by rewrite split_once_app. Qed.

(** The channels of a run are listed under their short names. *)
Theorem channels_are_listed_by_name url run history :
  map ch_name (list_channels (mkUi url (run_channels run) history)) = CHANNELS.
Proof.
  unfold list_channels, run_channels, CHANNELS. cbn [channels map ch_name]. assert (∀ c, has_char "-" c = false →
    rsplit_next "-" ("showcase-" +:+ fmt_width 0 run +:+ "-" +:+ c) = c) as Hname.
  { intros c Hc. change ("-" +:+ c) with (String "-" c). rewrite string_app_assoc. by apply rsplit_next_app. }
  by rewrite !Hname.
Qed.

(** ** Seeding falls into the write window *)
Section seeding_lemmas.
Context `{ChronoLaws}.

(** The bucket of a year. *)
Lemma year_bucket d pk t b : bucket_strategy d = CalendarYearUtc → in_range t → bucket_for_event_time d pk t = Value b →
  ymd (start b) = (year t, (1, 1)) ∧ midnight (start b) ∧ in_range (start b) ∧
  ∀ u, in_range u → bucket_contains b u = true ↔ year u = year t.
Proof.
  intros Hd Ht E. unfold bucket_for_event_time in E. rewrite Hd in E.
  apply for_event_time_inv in E as (a & e & Eb & ->).
  destruct (bucket_bounds_inv CalendarYearUtc t a e Ht Eb) as ((Ra & Ma & Ya) & _ & Hu). simpl in *.
  split_and!; [done..|]. intros u Hr. rewrite bucket_contains_spec. simpl. rewrite Hu by done. unfold ymd. simpl.
  split; [by intros [= ->]|by intros ->].
Qed.
Lemma year_lt t u : in_range t → in_range u → year t < year u → t < u.
Proof.
  intros Ht Hu Hy. apply ymd_lt_inv; [done..|]. apply lex_lt_spec. by left.
Qed.

Lemma prior_year_spec now old : in_range now → prior_year_timestamp now = Value old →
  in_range old ∧ year old = year now - 1.
Proof.
  intros Hn. unfold prior_year_timestamp. destruct (with_ymd (year now - 1) 6 1) as [t|] eqn:Et; [|done]. simpl.
  intros [= <-]. apply with_ymd_spec in Et as (Ht & Hm & Hy). injection Hy. intros Hd Hmo Hyr.
  assert (t < now) as Hlt by (apply year_lt; [done..|lia]).
  assert (t / NANOS_PER_DAY ≠ now / NANOS_PER_DAY) as Hne.
  { intros Hd'. apply (ymd_same_day t now Ht Hn) in Hd'. unfold ymd in Hd'. injection Hd'. intros. lia. }
  assert (t + NANOS_PER_DAY <= now) as Hday.
  { unfold midnight, NANOS_PER_DAY in *. pose proof (Z.div_mod t 86400000000000 ltac:(lia)).
    pose proof (Z.div_mod now 86400000000000 ltac:(lia)). pose proof (Z.mod_pos_bound now 86400000000000 ltac:(lia)). nia. }
  assert (in_range (t + 12 * 3600 * SECOND)) as Hold.
  { unfold in_range, SECOND, NANOS_PER_DAY in *. lia. }
  split; [done|]. assert (ymd t = ymd (t + 12 * 3600 * SECOND)) as E.
  { apply ymd_same_day; [done..|]. unfold midnight, SECOND, NANOS_PER_DAY in *.
    pose proof (Z.div_mod t 86400000000000 ltac:(lia)).
    rewrite (Z.div_unique (t + 12 * 3600 * 1000000000) 86400000000000 (t / 86400000000000) (12 * 3600 * 1000000000)) by lia.
    done. }
  unfold ymd in E. injection E. intros. lia.
Qed.

(** The bucket of the previous year is the older of the two writable ones. *)
Lemma previous_year_writable d pk old now bs b : bucket_strategy d = CalendarYearUtc → writable_buckets d = 2 →
  in_range old → in_range now → year old = year now - 1 →
  bucket_for_event_time d pk old = Value b → writable_buckets_at d pk now = Value bs →
  ∃ newest, bs = [b; newest] ∧ start b < start newest.
Proof.
  intros Hd Hw Ho Hn Hy Eb Ew.
  destruct (writable_spec d pk now bs Hn ltac:(lia) Ew) as (Hlen & Hall & (newest & El & Hnew) & Hadj).
  rewrite Hw in Hlen. destruct bs as [|oldest [|newest' [|]]]; try done. simpl in El. simplify_eq.
  exists newest. rewrite !Forall_cons in Hall. destruct Hall as (Hbo & Hbn & _).
  pose proof (proj1 (bucket_of_contains d pk newest now Hbn Hn) Hnew) as Enew.
  pose proof (bucket_for_event_time_of d pk old b Ho Eb) as Hb.
  destruct (year_bucket d pk now newest Hd Hn Enew) as (Yn & Mn & Rn & Cn).
  destruct (year_bucket d pk old b Hd Ho Eb) as (Yb & Mb & Rb & Cb).
  injection Yn. injection Yb. intros _ _ Yb' _ _ Yn'.
  assert (old < start newest) as Hlt by (apply year_lt; [done..|lia]).
  assert (start b < start newest) as Hstart by (apply year_lt; [done..|lia]).
  split; [|done]. f_equal.
  assert (in_range (start newest - 1)) as Ru by (unfold in_range in *; lia).
  pose proof (Hadj 0%nat oldest newest eq_refl eq_refl) as Hend. pose proof (bucket_of_day d pk oldest Hbo) as Hday.
  assert (year (start newest - 1) = year old) as Hu.
  { destruct (Z.lt_trichotomy (year (start newest - 1)) (year old)) as [Hc|[Hc|Hc]]; [|done|]; exfalso.
    - pose proof (year_lt _ _ Ru Ho Hc). lia.
    - assert (year (start newest - 1) = year now ∨ year now < year (start newest - 1)) as [E|E] by lia.
      + apply Cn in E; [|done]. apply bucket_contains_spec in E. lia.
      + pose proof (year_lt (start newest) (start newest - 1) Rn Ru ltac:(lia)). lia. }
  apply (bucket_of_unique d pk oldest b (start newest - 1)); [done..| |by apply Cb].
  apply bucket_contains_spec. unfold NANOS_PER_DAY in *. lia.
Qed.

(** Seeding the previous year's conversations is admitted by the router: as long as the year does
    not change while the showcase seeds, each of the 24 records is sent to the store, to the bucket
    of the previous year, and none is refused for being outside the write window. *)
Theorem seeding_is_admitted tid d run now old (nows : nat → Z) r k :
  chat_messages "messages" tid = Value d → in_range now → prior_year_timestamp now = Value old →
  in_range (nows k) → year (nows k) = year now → year min_utc + 2 <= year now < year max_utc →
  r ∈ seed_records (run_channels run) old →
  ∃ b, bucket_for d r = Value b ∧ in_bucket b r ∧
    table_append d r (nows k) = Value (Vis (EStore (Append b r)) (λ res, Ret (map_err (append_error b) res))).
Proof.
  intros Hd Hn Hold Hnk Hyk Hy Hr. destruct (prior_year_spec now old Hn Hold) as [Ho Hyo].
  assert (event_time r = old) as Er.
  { unfold seed_records in Hr. apply list_elem_of_bind in Hr as (c & Hr & _). change (map ?f ?l) with (f <$> l) in Hr.
    apply list_elem_of_fmap in Hr as (n & -> & _). done. }
  assert (bucket_strategy d = CalendarYearUtc ∧ writable_buckets d = 2) as [Hs Hw].
  { unfold chat_messages, definition_new, new_with_bucket_strategy in Hd.
    destruct (validate _) eqn:Ev in Hd; simplify_eq/=. done. }
  destruct (bucket_bounds_total (bucket_strategy d) (event_time r)) as (a & e & Ebb); [by rewrite Er|rewrite Er; lia|].
  assert (∃ b, bucket_for d r = Value b) as [b Eb] by (eexists; apply for_event_time_inv; eauto).
  assert (bucket_for_event_time d (r_partition_key r) old = Value b) as Eb' by (by rewrite <- Er).
  destruct (writable_returns d (r_partition_key r) (nows k)) as [bs Ebs]; [done|lia|lia|].
  destruct (previous_year_writable d (r_partition_key r) old (nows k) bs b Hs Hw Ho Hnk ltac:(lia) Eb' Ebs)
    as (newest & -> & Hlt).
  pose proof (bucket_for_event_time_of _ _ _ _ Ho Eb') as Hb.
  assert (partition_key b = r_partition_key r) as Hpk by (by destruct Hb as (_ & _ & ? & _)).
  exists b. split; [done|]. split.
  { split; [done|]. apply (bucket_of_contains d (r_partition_key r)); [done|by rewrite Er|by rewrite Er]. }
  unfold table_append. rewrite Eb. cbn [mbind Outcome_bind]. rewrite Hpk, Ebs. cbn [mbind Outcome_bind head last expect].
  rewrite Z.ltb_irrefl. simpl. by rewrite (proj2 (Z.ltb_ge (start newest) (start b))) by lia.
Qed.
End seeding_lemmas.

(** ** The program *)
(** What [main] starts with: the database and the archive, the table, the channels of this run and
    the time of the conversations it seeds. *)
Section main.
Context `{Chrono} {Operator Cert Key : Type}.
Context (env : string → Var) (operator_new : S3Service → Result string Operator) (parse_config : string → option PgConfig).

Record Setup := mkSetup {
  su_durable : @PoolInner Cert Key;
  su_archive : OpenDalArchiveStore Operator;
  su_table : TableDefinition;
  su_old_timestamp : Z;
  su_ui : UiState
}.
Definition COCKROACH_URL : string := "postgresql://pulpitum_runtime@cockroach-1:26257/defaultdb?sslmode=disable".
Definition SQL_URL : string := "postgresql://pulpitum@sql-sidecar:5433/pulpitum?sslmode=disable".
(** Everything before the first append; the clock is read for the name of the run and for the year. *)
Definition showcase_setup (run_now year_now : Z) : Outcome (Result StartupError Setup) :=
  pool <?~ map_err StartProgram (showcase_pool_config env);
  durable <?~ map_err (λ e, StartProgram (ProgramDurable e))
    (connect_insecure_dev_with_pool_config parse_config (setting env "COCKROACH_URL" COCKROACH_URL) pool);
  format <?~ map_err StartFormat (format_from_str (setting env "ARCHIVE_FORMAT" "json"));
  archive <?~ map_err (λ e, StartProgram (ProgramStore e))
    (s3 operator_new (setting env "S3_ENDPOINT" "http://minio:9000") "pulpitum" (setting env "S3_ACCESS_KEY" "minioadmin")
       (setting env "S3_SECRET_KEY" "minioadmin") "showcase");
  table_id <?~ map_err StartDefinition (TableId_new (setting env "SHOWCASE_TABLE_ID" "pulpitum.showcase.messages"));
  definition ← chat_messages "messages" table_id;
  table <?~ map_err StartTable (with_definition definition);
  let chans := run_channels (run_now / SECOND) in
  old_timestamp ← prior_year_timestamp year_now;
  history_start ← add_duration old_timestamp (- NANOS_PER_DAY);
  Value (Ok (mkSetup durable (with_format archive format) table old_timestamp
    (mkUi (setting env "SHOWCASE_SQL_URL" SQL_URL) chans history_start))).

(** What [run_load_simulation] has spawned before its first tick. *)
Record Load := mkLoad { ld_profile : SpikySqlLoadProfile; ld_workers : nat; ld_queue : nat; ld_channel_count : Z }.
Definition start_load (ui : UiState) : Load :=
  mkLoad (SpikySqlLoadProfile_new (load_target_rps env)) WORKERS QUEUE_CAPACITY (Z.of_nat (length (channels ui))).

Definition showcase_main (run_now year_now : Z) (nows : nat → Z) : prog (Outcome (Result StartupError (UiState * Load))) :=
  match showcase_setup run_now year_now with
  | OutOfFuel => Ret OutOfFuel
  | Panicked => Ret Panicked
  | Value (Err e) => Ret (Value (Err e))
  | Value (Ok s) =>
      seed (su_table s) (seed_records (channels (su_ui s)) (su_old_timestamp s)) nows ≫= λ seeded,
      Ret (res ← seeded;
           Value match res with Ok _ => Ok (su_ui s, start_load (su_ui s)) | Err e => Err (StartTable e) end)
  end.
End main.

Lemma connect_insecure_dev_ok {Cert Key : Type} parse_config url config (inner : @PoolInner Cert Key) :
  connect_insecure_dev_with_pool_config parse_config url config = Ok inner →
  transport inner = InsecureDev ∧ (0 < max_connections (settings inner))%nat ∧
  ∃ parsed, parse_config url = Some parsed ∧ ssl_mode parsed = Disable.
Proof.
  unfold connect_insecure_dev_with_pool_config, connect_insecure_dev, require_ssl_mode.
  destruct (parse_config url) as [parsed|]; [|done]. cbn [ok_or mbind Result_bind].
  destruct (bool_decide _) eqn:Em; [|done]. apply bool_decide_eq_true in Em. cbn [negb mbind Result_bind].
  destruct (connect_with_transport _ _ _ _) as [i|] eqn:E; [|done]. intros [= <-].
  apply connect_with_transport_ok in E as [Hv ->]. split_and!; [done| |eauto]. destruct Hv. simpl. lia.
Qed.
Lemma seed_record_of chans old r : r ∈ seed_records chans old →
  event_time r = old ∧ ∃ channel, channel ∈ chans ∧ r_partition_key r = string_bytes channel.
Proof.
  unfold seed_records. intros (c & Hr & Hc)%list_elem_of_bind. change (map ?f ?l) with (f <$> l) in Hr.
  apply list_elem_of_fmap in Hr as (n & -> & _). eauto.
Qed.

(** What the showcase seeds is what its user interface shows. A showcase that starts talks plain text
    only to a database of sslmode=disable, has a valid table, lists the three channels by name, and
    every record it seeds belongs to a channel it lists and lies in the time range of the statement
    that the interface sends for that channel, now and later; and every request of the load
    simulation is for a channel of the list. *)
Theorem showcase_shows_its_seeds `{ChronoLaws} {Operator Cert Key : Type} env (operator_new : S3Service → Result string Operator)
    parse_config run_now year_now (s : @Setup Operator Cert Key) later :
  in_range year_now → year_now <= later → in_range (later + NANOS_PER_DAY) →
  showcase_setup env operator_new parse_config run_now year_now = Value (Ok s) →
  transport (su_durable s) = InsecureDev ∧ (0 < max_connections (settings (su_durable s)))%nat ∧
  (∃ parsed, parse_config (setting env "COCKROACH_URL" COCKROACH_URL) = Some parsed ∧ ssl_mode parsed = Disable) ∧
  validate (su_table s) = Ok tt ∧ map ch_name (list_channels (su_ui s)) = CHANNELS ∧
  (∀ r, r ∈ seed_records (channels (su_ui s)) (su_old_timestamp s) →
     ∃ channel, channel ∈ channels (su_ui s) ∧ r_partition_key r = string_bytes channel ∧
       ∃ shown : TimeRange, range_contains shown (event_time r) = true ∧
       ∀ query, list_messages (su_ui s) channel later true query = Value (
         rows ← ok_or (query SELECT_MESSAGES_SQL
                  [PText channel; PTimestamp (range_start shown); PTimestamp (range_end shown); PBigint 100])
                (INTERNAL_SERVER_ERROR, "message query failed");
         messages_of_rows rows)) ∧
  ∀ n, is_Some (channels (su_ui s) !! Z.to_nat (lr_channel_index
    (request_at (ld_profile (start_load env (su_ui s))) (ld_channel_count (start_load env (su_ui s))) n))).
Proof.
  intros Hn Hlater Hend Hm. unfold showcase_setup in Hm.
  repeat first [apply step_ok in Hm as (? & ?%map_err_ok & Hm)|apply step_ok in Hm as (? & ? & Hm)].
  destruct (chat_messages _ _) as [d| |] eqn:Ed; [|done..]. cbn [mbind Outcome_bind] in Hm.
  apply step_ok in Hm as (table & Ht%map_err_ok & Hm).
  destruct (prior_year_timestamp year_now) as [old| |] eqn:Eo; [|done..]. cbn [mbind Outcome_bind] in Hm.
  unfold add_duration at 1 in Hm. destruct (_ && _); [|done]. cbn [mbind Outcome_bind] in Hm. injection Hm as <-.
  match goal with H : connect_insecure_dev_with_pool_config _ _ _ = Ok _ |- _ =>
    destruct (connect_insecure_dev_ok _ _ _ _ H) as (? & ? & ?) end.
  assert (table = d ∧ validate d = Ok tt) as [-> Hv].
  { unfold with_definition in Ht. destruct (validate d) as [[]|]; [|done]. by injection Ht as <-. }
  destruct (prior_year_spec year_now old Hn Eo) as [Ho Hy].
  pose proof (year_lt old year_now Ho Hn ltac:(lia)) as Hlt. cbn [su_durable su_table su_ui su_old_timestamp].
  split_and!; [done..|apply channels_are_listed_by_name| |].
  - intros r (Hr & channel & Hc & Hk)%seed_record_of. exists channel. split_and!; [done..|].
    exists (mkTimeRange (old + - NANOS_PER_DAY) (later + NANOS_PER_DAY)). split.
    { unfold range_contains, NANOS_PER_DAY. simpl. rewrite Hr. apply andb_true_intro. split; zbool; lia. }
    intros query. unfold list_messages, add_duration. rewrite bool_decide_eq_true_2 by done.
    destruct Hend as [Hmin Hmax]. by rewrite (proj2 (Z.leb_le _ _) Hmin), (proj2 (Z.leb_le _ _) Hmax).
  - intros n. apply lookup_lt_is_Some. simpl. assert (0 <= n mod 3 < 3) by (apply Z.mod_pos_bound; lia). lia.
Qed.
