(* ===== verification/Witnesses.v ===== *)
(** Concrete instances of the theorems: each lemma applies one theorem to concrete inputs
    (2026 in the proleptic Gregorian calendar of [Gregorian], the in-memory tiers, a driver
    that truncates to microseconds) and discharges its hypotheses there by evaluation. *)
From S2P Require Import Prelude Chrono Gregorian Model Schema Storage MemStore Paths MemArchive ArchiveCache.
From S2P Require Import Prog Table Coordinator System Cutover Cockroach Migrations.
Local Open Scope Z_scope.

(** 2026-03-15T12:00:00Z, the partition "general", and the table of the examples. *)
Definition noon : Z := 1773576000000000000.
Definition general : list byte := key_from_string "general".
Definition messages : TableDefinition :=
  mkDefinition "messages" "t1" "channel_id" "event_time" CalendarMonthUtc required_clustering 2.
Definition march : BucketId := mkBucketId "t1" general CalendarMonthUtc "month:2026-03"
  1772323200000000000 1775001600000000000.
Definition april : BucketId := mkBucketId "t1" general CalendarMonthUtc "month:2026-04"
  1775001600000000000 1777593600000000000.
Definition hello : Record_ := mkRecord general noon (key_from_string "k1") (key_from_string "hello").
Definition world : Record_ := mkRecord general (noon + 1000) (key_from_string "k2") (key_from_string "world").
Definition spring : TimeRange := mkTimeRange noon (noon + 30 * NANOS_PER_DAY).

(** Closes an arithmetic goal about closed terms, one conjunct at a time. *)
Ltac closed := first [ split; closed | vm_compute; first [done | intros; discriminate] ].

Lemma noon_in_range : in_range noon.
Proof. closed. Qed.
Lemma march_derived : for_event_time_with_strategy "t1" general CalendarMonthUtc noon = Value march.
Proof. by vm_compute. Qed.
Lemma march_canonical : canonical march.
Proof. exists noon. split; [apply noon_in_range|apply march_derived]. Qed.
Lemma april_canonical : canonical april.
Proof. exists (end_ march). split; [closed|by vm_compute]. Qed.

Lemma buckets_partition_time_witness :
  bucket_contains march noon = true ∧
  ∀ u, in_range u → bucket_contains march u = true ↔
    for_event_time_with_strategy "t1" general CalendarMonthUtc u = Value march.
Proof. exact (buckets_partition_time "t1" general CalendarMonthUtc noon march noon_in_range march_derived). Defined.

Lemma buckets_tile_time_witness : start april = end_ march.
Proof.
  apply (proj1 (buckets_tile_time "t1" general CalendarMonthUtc noon march noon_in_range march_derived) april).
  by vm_compute.
Defined.

Lemma bucket_key_identifies_bucket_witness : march = march.
Proof.
  exact (bucket_key_identifies_bucket "t1" general CalendarMonthUtc CalendarMonthUtc noon (noon + 1) march march
    noon_in_range ltac:(closed) march_derived ltac:(by vm_compute) eq_refl).
Defined.

Lemma bucket_derivation_returns_witness :
  (∃ b, for_event_time_with_strategy "t1" general CalendarDayUtc noon = Value b) ∧
  for_event_time_with_strategy "t1" general CalendarYearUtc max_utc = Panicked.
Proof.
  split.
  - apply (proj1 (bucket_derivation_returns "t1" general CalendarDayUtc noon noon_in_range)). by vm_compute.
  - apply (proj2 (bucket_derivation_returns "t1" general CalendarYearUtc max_utc ltac:(closed))). done.
Defined.

Lemma spring_buckets : buckets_for_range messages general spring = Value [march; april].
Proof. by vm_compute. Qed.

Lemma buckets_for_range_exact_witness :
  (∀ b, b ∈ [march; april] ↔ bucket_of messages general b ∧ start b < range_end spring ∧ range_start spring < end_ b) ∧
  StronglySorted (λ b b', end_ b <= start b') [march; april].
Proof.
  exact (buckets_for_range_exact messages general spring [march; april] noon_in_range ltac:(closed) spring_buckets).
Defined.

Lemma buckets_for_range_returns_witness : ∃ bs, buckets_for_range messages general spring = Value bs.
Proof.
  apply (proj2 (buckets_for_range_returns messages general spring noon_in_range)); closed.
Defined.

Lemma writable_window_witness : ∃ bs, writable_buckets_at messages general noon = Value bs ∧
  length bs = 2%nat.
Proof.
  destruct (writable_window messages general noon noon_in_range ltac:(closed)) as [Hw Hr].
  destruct Hr as [bs Hbs]; [closed|]. exists bs. split; [done|]. by apply (Hw bs Hbs).
Defined.

(** ** The in-memory store: an append, a claim of 10 time units at 5, and a second at 100 *)
Definition at_time (t : Z) (token : string) : Env := mkEnv t t t token.
Definition appended : MemState := (store_exec (Append march hello) (at_time 0 "u0") (∅ : MemState)).2.
Definition session_a : ArchiveSession := mkSession march "a" 1.
Definition session_b : ArchiveSession := mkSession march "b" 2.
Definition claimed_a : MemState := (store_exec (ClaimArchive march 10) (at_time 5 "a") appended).2.
Definition entry_a : DurableBucketEntry := mkEntry Archiving 1 (Some "a") (Some 15) None [hello].

Lemma empty_store_inv : mem_inv ∅.
Proof. apply map_Forall_empty. Qed.
Lemma appended_inv : mem_inv appended.
Proof. apply mem_exec_inv, empty_store_inv. Qed.
Lemma claimed_inv : mem_inv claimed_a.
Proof. apply mem_exec_inv, appended_inv. Qed.
Lemma claimed_canonical : mem_canonical claimed_a.
Proof.
  apply mem_exec_canonical; [split; [apply march_canonical|done]|apply appended_inv|].
  apply mem_exec_canonical; [split; [apply march_canonical|done]|apply empty_store_inv|apply map_Forall_empty].
Qed.
Lemma claimed_entry : claimed_a !! march = Some entry_a.
Proof. by vm_compute. Qed.
Lemma claim_b_granted :
  granted (ClaimArchive march 10) (store_exec (ClaimArchive march 10) (at_time 100 "b") claimed_a).1 = Some session_b.
Proof. by vm_compute. Qed.

Lemma mem_store_refines_witness :
  entry_spec exact (ClaimArchive march 10) (mem_view appended march)
    (store_exec (ClaimArchive march 10) (at_time 5 "a") appended).1 (mem_view claimed_a march).
Proof.
  pose proof (mem_store_refines (ClaimArchive march 10) (at_time 5 "a") appended march appended_inv) as Hr.
  destruct (store_exec (ClaimArchive march 10) (at_time 5 "a") appended) as [x m'] eqn:E.
  destruct Hr as (_ & He & _). unfold claimed_a. rewrite E. by apply He.
Defined.

Lemma superseded_session_is_fenced_witness :
  let m' := run_calls [Invoke _ (Append march hello) (at_time 101 "u1")]
    (store_exec (ClaimArchive march 10) (at_time 100 "b") claimed_a).2 in
  failed (PublishArchive session_a "k") (store_exec (PublishArchive session_a "k") (at_time 102 "u2") m').1.
Proof.
  apply (superseded_session_is_fenced (ClaimArchive march 10) (at_time 100 "b") claimed_a session_a session_b
    [Invoke _ (Append march hello) (at_time 101 "u1")] (PublishArchive session_a "k") (at_time 102 "u2")
    claimed_inv claim_b_granted eq_refl ltac:(closed) eq_refl).
Defined.

Lemma contract_fences_superseded_sessions_witness :
  let s' := run_calls [Invoke _ (Append march hello) (at_time 101 "u1")]
    (store_exec (ClaimArchive march 10) (at_time 100 "b") claimed_a).2 in
  failed (PublishArchive session_a "k") (store_exec (PublishArchive session_a "k") (at_time 102 "u2") s').1.
Proof.
  apply (contract_fences_superseded_sessions (ClaimArchive march 10) (at_time 100 "b") claimed_a session_a session_b
    [Invoke _ (Append march hello) (at_time 101 "u1")] (PublishArchive session_a "k") (at_time 102 "u2")).
  - split; [apply claimed_inv|apply claimed_canonical].
  - split; [apply march_canonical|done].
  - apply claim_b_granted.
  - done.
  - done.
  - constructor; [|constructor]. split; [apply march_canonical|done].
  - done.
  - split; [apply march_canonical|done].
Defined.

Lemma lease_exclusive_then_transferable_witness :
  granted (ClaimArchive march 10) (store_exec (ClaimArchive march 10) (at_time 14 "b") claimed_a).1 = None ∧
  (claim_archive march 10 (at_time 15 "b") claimed_a).1 = Ok (Some session_b).
Proof.
  split.
  - apply (lease_exclusive_then_transferable (ClaimArchive march 10) (at_time 14 "b") claimed_a march entry_a 10
      claimed_entry); try done; closed.
  - apply (lease_exclusive_then_transferable (ClaimArchive march 10) (at_time 15 "b") claimed_a march entry_a 10
      claimed_entry); try done; closed.
Defined.

Lemma discovery_exact_witness : ∃ cleanup cutover,
  [Cutover march] = take 5 (map Cleanup cleanup ++ map Cutover cutover) ∧ march ∈ cutover.
Proof.
  destruct (discovery_exact (mkScan (end_ march) 5) (at_time 20 "u") claimed_a [Cutover march] ltac:(by vm_compute))
    as (cleanup & cutover & Hws & _ & _ & _ & Hc & _).
  exists cleanup, cutover. split; [done|]. apply Hc. exists entry_a. split_and!; [apply claimed_entry|done..|by right].
Defined.

Lemma append_behaviour_witness :
  records (entry_or_default (append march world appended).2 march) = [hello; world].
Proof.
  pose proof (append_behaviour march world appended appended_inv) as Hb.
  destruct (append march world appended) as [res m']. simpl in *.
  rewrite (proj2 (proj1 Hb ltac:(by vm_compute))). by vm_compute.
Defined.

(** ** The archive tier *)
(** The cache of a platform on which a [Record] takes 104 bytes. *)
#[local] Instance memory_cache : ArchiveStore unit (Cache MemArchive) := ImmutableArchiveCache 104.

Lemma generation_names_identify_upload_witness :
  bucket_generation_key march 1 = bucket_generation_key march 2 ↔ march = march ∧ 1 = 2.
Proof.
  apply (generation_names_identify_upload march march 1 2 march_canonical march_canonical); closed.
Defined.

Lemma archive_round_trip_witness :
  let m' := (put_bucket_generation march 1 [hello; world] (∅ : MemArchive)).2 in
  get_bucket march (bucket_generation_key march 1) (put_bucket_generation march 2 [] m').2 = Ok [hello; world].
Proof.
  destruct (archive_round_trip march 1 [hello; world] ∅ [(march, 2, [])] march_canonical ltac:(lia))
    as (k & Hk & Hget & _).
  - constructor; [|constructor]. split_and!; [apply march_canonical|lia|congruence].
  - injection Hk as <-. apply Hget. repeat constructor; by vm_compute.
Defined.

Definition object_1 : string := Eval vm_compute in bucket_generation_key march 1.
Definition cache_calls : list (unit * {X & archive_call X}) :=
  [(tt, existT _ (PutBucketGeneration march 1 [hello])); (tt, existT _ (GetBucket march object_1))].
Definition filled : Cache MemArchive :=
  foldl (λ c '(env, call), (archive_exec (projT2 call) env c).2) (cache_new ∅ 1000 1) cache_calls.

Lemma cache_stays_within_bounds_witness :
  used_bytes (cached filled) = 118 ∧ used_bytes (cached filled) <= 1000 ∧
  Z.of_nat (size (entries (cached filled))) <= 1.
Proof.
  split; [by vm_compute|]. apply (cache_stays_within_bounds 104 (∅ : MemArchive) 1000 1 cache_calls); closed.
Defined.

(** A cache that has uploaded an object and read it: the next read answers from the cache. *)
Lemma filled_reachable : cache_reachable 104 filled.
Proof.
  apply (use_get 104 _ tt march object_1); [|apply march_canonical].
  apply (use_put 104 _ tt march 1 [hello]); [|apply march_canonical|lia| |by repeat constructor].
  - by apply (use_new 104 (∅ : MemArchive) 1000 1).
  - intros b' k _ _. reflexivity.
Qed.
Lemma cache_is_transparent_witness :
  object (inner filled) march object_1 = Some [hello] ∧
  (cache_get_bucket 104 march object_1 tt (cache_get_bucket 104 march object_1 tt filled).2).1 = Ok [hello].
Proof.
  pose proof (cache_is_transparent 104 tt filled march object_1 filled_reachable march_canonical) as Ht.
  assert ((cache_get_bucket 104 march object_1 tt filled).1 = Ok [hello]) as Hr by (by vm_compute).
  destruct (cache_get_bucket 104 march object_1 tt filled) as [res c']. simpl in Hr. subst res.
  destruct Ht as (Hobj & _ & Hnext). split; [by apply Hobj|]. apply Hnext; [done|..]; by vm_compute.
Defined.

(** Two entries, the older of which has to go. *)
Definition two_entries : CacheState := mkCacheState
  (<[(march, "new") := mkCacheEntry [] 40 9]> {[(march, "old") := mkCacheEntry [] 50 3]}) 90.
Lemma two_entries_ok : state_ok two_entries.
Proof.
  split; [by vm_compute|]. intros k e. simpl.
  intros [[_ <-]|[_ [_ <-]%lookup_singleton_Some]]%lookup_insert_Some; done.
Qed.
Lemma eviction_is_lru_witness :
  let st' := evict (size (entries two_entries)) 100 2 30 two_entries in
  over_limit 100 2 30 st' = false ∧
  (∀ k k' e e', entries two_entries !! k = Some e → entries st' !! k = None →
     entries st' !! k' = Some e' → last_access e <= last_access e').
Proof.
  pose proof (eviction_is_lru 100 2 30 two_entries two_entries_ok eq_refl ltac:(closed) ltac:(closed)) as Hl.
  intros st'. change (evict _ _ _ _ _) with st' in Hl. clearbody st'. exact (conj (proj1 Hl) (proj2 (proj2 (proj2 Hl)))).
Defined.

(** ** Queries over both tiers: march archived and deleted from the mutable tier, april hot *)
Definition later : Record_ :=
  mkRecord general (noon + 20 * NANOS_PER_DAY) (key_from_string "k3") (key_from_string "later").
Definition mixed : MemState * MemArchive :=
  (<[march := mkEntry (Archived object_1 true) 1 (Some "a") (Some 15) None []]>
     {[april := mkEntry Hot 0 None None None [later]]},
   {[object_1 := [hello; world]]}).
Definition contents (b : BucketId) : list Record_ := if decide (b = march) then [hello; world] else [later].
Definition quiet (n : nat) : input (E := Env) (F := unit) := mkInput (at_time 0 "u") tt None 0.

Lemma mixed_inv : store_inv mixed.1.
Proof.
  split; apply map_Forall_insert_2; try apply map_Forall_singleton.
  - split; simpl; [constructor|closed|done|by eauto|done].
  - split; simpl; [by repeat constructor|closed|done|done|done].
  - apply march_canonical.
  - apply april_canonical.
Qed.
Lemma mixed_reads after limit b : b ∈ [march; april] →
  logical mixed b = Some (contents b) ∧ Forall (in_bucket b) (contents b) ∧
  ∃ rs, task mixed (λ _, quiet) (mkQuery general spring after limit) b = Value (Ok rs).
Proof.
  intros [->|[->|[]%elem_of_nil]%elem_of_cons]%elem_of_cons; (split_and!; [by vm_compute| |]).
  1, 3: repeat constructor; by vm_compute.
  all: eexists; unfold task, run, read_bucket; cbn; done.
Qed.

Lemma append_admits_exactly_the_window_witness : ∃ p, table_append messages hello noon = Value p.
Proof.
  apply (proj2 (append_admits_exactly_the_window messages hello noon noon_in_range noon_in_range ltac:(closed)));
    closed.
Defined.

Lemma query_page_is_logical_page_witness :
  query_page messages (λ _, 0%nat) (task mixed (λ _, quiet) (mkQuery general spring None 2))
    (mkQuery general spring None 2) =
  Value (Ok (mkPage [hello; world] (Some (cursor_from world)))).
Proof.
  destruct (query_page_is_logical_page messages (λ _, 0%nat) mixed (λ _, quiet) (mkQuery general spring None 2)
    [march; april] contents) as [_ Hq].
  - apply noon_in_range.
  - closed.
  - closed.
  - apply spring_buckets.
  - apply mixed_inv.
  - done.
  - apply precise_for_exact.
  - intros b Hb. by apply mixed_reads.
  - closed.
  - rewrite Hq; [by vm_compute|]. repeat constructor; by vm_compute; set_solver.
Defined.

Lemma pagination_is_complete_witness :
  paginate 4 (λ after, let q := mkQuery general spring after 2 in
    query_page messages (λ _, 1%nat) (task mixed (λ _, quiet) q) q) None =
  Value (Ok (sort_by clustering (matching spring None [hello; world; later]))).
Proof.
  apply (pagination_is_complete messages mixed (λ _ _, 1%nat) (λ _ _, quiet) general spring 2 [march; april] contents).
  - apply noon_in_range.
  - closed.
  - closed.
  - apply spring_buckets.
  - apply mixed_inv.
  - done.
  - intros. apply precise_for_exact.
  - intros after b _ Hb. by apply mixed_reads.
  - closed.
  - repeat constructor; by vm_compute; set_solver.
Defined.

(** ** Coordinators *)
Definition hourly : ArchiveRecoveryConfig := mkConfig (end_ march) 10 60 20 30.

Lemma coordinators_are_disciplined_witness :
  follows Coordinator.closed NoSession (archive_bucket march) ∧
  follows Coordinator.closed NoSession (run_once hourly).
Proof.
  destruct (coordinators_are_disciplined hourly march march_canonical) as (Hdirect & Hcycle & _). by split.
Defined.

Lemma cycle_outcome_accounts_witness :
  ends (λ r, match r with Err _ => True | Ok o => discovered o = 1 ∧ completed o = claimed o ∧ deferred o = 0 ∧
      0 <= claimed o <= discovered o ∧ discovered o < 2 ^ 32 end)
    (recover_all hourly [Cutover march] (mkRecovery 1 0 0 0)).
Proof. apply (cycle_outcome_accounts hourly [Cutover march]); [closed|simpl; lia]. Defined.

(** ** The system: an append to an empty system, and a read after it *)
Definition start_state : sys (S := MemState) (T := MemArchive) := mkSys (∅, ∅) ∅ (λ _, []) (λ _, []).
Lemma start_initial : initial start_state.
Proof.
  split_and!; try done; split; apply map_Forall_empty.
Qed.
Definition one_append : sys (S := MemState) (T := MemArchive) :=
  mkSys (appended, ∅) ∅ (record_if true march hello (λ _, [])) (record_if false march hello (λ _, [])).
Lemma one_append_step : step start_state one_append.
Proof.
  exact (step_append start_state march hello (mkInput (at_time 0 "u0") tt None 0) march_canonical
    (conj eq_refl eq_refl)).
Qed.

Lemma no_acknowledged_record_is_lost_witness :
  ∃ l, logical (tiers one_append) march = Some l ∧ [hello] ⊆+ l.
Proof.
  destruct (no_acknowledged_record_is_lost start_state one_append march start_initial
    (rtc_once _ _ one_append_step) march_canonical) as (l & Hl & Ha & _).
  exists l. split; [done|]. replace [hello] with (acked one_append march); [done|]. by vm_compute.
Defined.

(** An append adds its record and acknowledges it; a reader's call changes nothing. *)
Definition first_append : sys (S := MemState) (T := MemArchive) :=
  after_append start_state march hello (mkInput (at_time 0 "u0") tt None 0).
Lemma system_refines_append_only_table_witness :
  (∃ l, logical (tiers first_append) march = Some l ∧ l ≡ₚ [hello] ∧ acked first_append march = [hello]) ∧
  (∃ l, logical (tiers (mkSys (step_event (EStore (State march)) (mkInput (at_time 0 "u0") tt None 0) (tiers start_state)).2
      ∅ (λ _, []) (λ _, []))) march = Some l ∧ l ≡ₚ []).
Proof.
  destruct (system_refines_append_only_table start_state start_state march [] start_initial (rtc_refl _ _)
    march_canonical eq_refl) as [Hinternal Happend]. split.
  - destruct (Happend march hello (mkInput (at_time 0 "u0") tt None 0) march_canonical (conj eq_refl eq_refl))
      as (l & Hl & Hadded).
    rewrite decide_True in Hadded by done. exists l. split; [exact Hl|].
    replace (append_result _ _ _ _) with (Ok tt : Result DurableBucketStoreError unit) in Hadded by (by vm_compute).
    destruct Hadded as (Hp & Ha & _). split; [exact Hp|exact Ha].
  - destruct (Hinternal _ (step_client start_state (EStore (State march)) (mkInput (at_time 0 "u0") tt None 0)
      (conj (conj march_canonical I) I))) as (_ & _ & Hl). exact Hl.
Defined.

Lemma routed_read_is_linearizable_witness : ∃ σm l,
  steps one_append σm ∧ steps σm one_append ∧
  (∃ lm, logical (tiers σm) march = Some lm ∧ l ≡ₚ lm) ∧
  acked one_append march ⊆+ l ∧ [hello] = page spring None 5 l.
Proof.
  destruct (routed_read_is_linearizable start_state one_append one_append march spring None 5 [hello] start_initial
    (rtc_once _ _ one_append_step) march_canonical) as (σm & l & Hto & Hfrom & Hl & Ha & _ & Hpage);
    [|exists σm, l; split_and!; [done..|apply Hpage, precise_exact]].
  exists (mkInput (at_time 1 "u") tt None 0), one_append. split; [apply rtc_refl|].
  exists (mkInput (at_time 2 "u") tt None 0), one_append. split; [apply rtc_refl|].
  split; [by vm_compute|]. apply rtc_refl.
Defined.

(** ** Whole cutovers *)
Definition worker_inputs (n : nat) : input (E := Env) (F := unit) := mkInput (at_time 5 "a") tt None 0.

Lemma appended_hot : e_state (entry_or_default appended march) = Hot.
Proof. by vm_compute. Qed.
Lemma appended_generation : 0 <= generation (entry_or_default appended march) < u64_max.
Proof. closed. Qed.
Definition upload : Result StoreError string * MemArchive :=
  archive_exec (PutBucketGeneration march (generation (entry_or_default appended march) + 1)
    (records (entry_or_default appended march))) (in_archive (worker_inputs 4)) ∅.
Lemma upload_named : upload.1 = Ok object_1.
Proof. by vm_compute. Qed.

Lemma direct_cutover_outcome_witness :
  (run_worker worker_inputs (archive_bucket march) appended (∅ : MemArchive)).1 =
  Ok (mkOutcome march object_1 (length (records (entry_or_default appended march)))).
Proof.
  pose proof (direct_cutover_outcome worker_inputs march appended (∅ : MemArchive) upload.2
    (λ _, eq_refl) appended_generation upload.1 appended_hot ltac:(closed) ltac:(intros; closed)
    (surjective_pairing _)) as Hrun.
  rewrite upload_named in Hrun. exact (f_equal fst Hrun).
Defined.

Lemma recovered_cutover_outcome_witness :
  (run_worker worker_inputs (recover_cutover hourly march (mkRecovery 1 0 0 0)) appended (∅ : MemArchive)).1 =
  (Ok tt, count_completed (count_claimed (mkRecovery 1 0 0 0))).
Proof.
  pose proof (recovered_cutover_outcome worker_inputs march appended (∅ : MemArchive) upload.2
    (λ _, eq_refl) appended_generation hourly (mkRecovery 1 0 0 0) upload.1 ltac:(done) ltac:(closed)
    ltac:(intros; closed) ltac:(by vm_compute) (or_introl appended_hot) ltac:(done) ltac:(closed)
    (surjective_pairing _)) as Hrun.
  rewrite upload_named in Hrun. exact (f_equal fst Hrun).
Defined.

(** ** The CockroachDB store, behind a driver that truncates to microseconds *)
#[local] Instance micro_driver : Driver := {|
  timestamptz t := t - t mod 1000;
  duration_from_std d := if d <=? i64_max then Some d else None;
  checked_add_signed t d := if greg_range (t + d) then Some (t + d) else None
|}.
#[local] Instance micro_driver_laws : DriverLaws.
Proof. intros t Ht. simpl. rewrite Ht. lia. Qed.

Definition healthy (now : Z) (token : string) : CrEnv :=
  mkCrEnv 0 now now token (λ _, Ran now None true Committed) (λ _, None) (λ _, now).
Definition empty_cr : CrState := mkCr (mkDb ∅ ∅) ∅.
Definition appended_cr : CrState := (store_exec (Append march hello) (healthy noon "u") empty_cr).2.

(** Bounds finer than the column are rounded: a hot bucket serves a record from before the start of
    the range asked for, which the archive would filter out. *)
Example rounded_bound_admits_an_earlier_record :
  range_contains (mkTimeRange (noon + 1) (end_ march)) (event_time hello) = false ∧
  (cr_read_range march (mkTimeRange (noon + 1) (end_ march)) None 5 (healthy noon "u") appended_cr).1 =
    Ok (ReadHot [hello]).
Proof. split; by vm_compute. Qed.

Lemma empty_cr_inv : cr_inv empty_cr.
Proof. split; apply map_Forall_empty. Qed.
Lemma append_wf : wf_call (Append march hello).
Proof. split; [apply march_canonical|done]. Qed.
Lemma appended_cr_inv : cr_inv appended_cr.
Proof. by apply cr_exec_ok; [apply append_wf|apply empty_cr_inv]. Qed.
Lemma appended_row : metadata (db appended_cr) !! key_of march = Some (fresh_row march).
Proof. by vm_compute. Qed.

Lemma cockroach_store_refines_witness :
  cr_inv (store_exec (Append march hello) (healthy noon "u") empty_cr).2 ∧
  entry_spec cr_fidelity (Append march hello) (cr_view empty_cr march)
    (store_exec (Append march hello) (healthy noon "u") empty_cr).1
    (cr_view (store_exec (Append march hello) (healthy noon "u") empty_cr).2 march).
Proof.
  pose proof (cockroach_store_refines (Append march hello) (healthy noon "u") empty_cr march append_wf empty_cr_inv)
    as Hr.
  destruct (store_exec (Append march hello) (healthy noon "u") empty_cr) as [x s'].
  exact (conj (proj1 Hr) (proj1 (proj2 Hr) eq_refl)).
Defined.

Lemma route_cache_is_transparent_witness :
  (cr_read_range march spring None 5 (healthy noon "u") appended_cr).1 =
  (cr_read_range march spring None 5 (healthy noon "u") (mkCr (db appended_cr) ∅)).1.
Proof.
  exact (route_cache_is_transparent march spring None 5 (healthy noon "u") appended_cr appended_cr_inv
    march_canonical eq_refl).
Defined.

Lemma cockroach_claims_exactly_the_claimable_witness :
  (cr_claim_archive march 60 (healthy noon "a") appended_cr).1 = Ok (Some session_a).
Proof.
  pose proof (cockroach_claims_exactly_the_claimable march (fresh_row march) 60 (noon + 60) (healthy noon "a")
    appended_cr noon true appended_cr_inv appended_row ltac:(closed) ltac:(by vm_compute) eq_refl) as [Hc _].
  destruct (cr_claim_archive march 60 (healthy noon "a") appended_cr) as [res s'].
  exact (proj1 Hc).
Defined.

Lemma discovered_march :
  discover_on (mkScan (end_ march) 5) (healthy noon "u") (db empty_cr) (db appended_cr) = Ok [Cutover march].
Proof. by vm_compute. Qed.
Lemma cockroach_discovery_exact_witness : Z.of_nat (length [Cutover march]) <= 5.
Proof.
  apply (cockroach_discovery_exact (mkScan (end_ march) 5) (healthy noon "u") empty_cr appended_cr [Cutover march]
    empty_cr_inv appended_cr_inv ltac:(closed) discovered_march).
Defined.

Lemma cockroach_append_outcome_witness :
  (cr_append march world (healthy noon "u") appended_cr).1 = Ok tt ∧
  a_records (cr_view (cr_append march world (healthy noon "u") appended_cr).2 march) ≡ₚ [world; hello].
Proof.
  pose proof (cockroach_append_outcome march world (healthy noon "u") appended_cr noon true appended_cr_inv
    march_canonical eq_refl eq_refl) as Ha. cbv zeta in Ha.
  destruct (cr_append march world (healthy noon "u") appended_cr) as [res s'].
  replace (strategy_conflict march (db appended_cr)) with false in Ha by by vm_compute.
  replace (a_state (cr_view appended_cr march)) with Hot in Ha by by vm_compute.
  replace (a_records (cr_view appended_cr march)) with [hello] in Ha by by vm_compute.
  replace (bool_decide (clustering (stored_record cr_fidelity world) ∈ map clustering [hello])) with false in Ha
    by by vm_compute.
  replace (stored_record cr_fidelity world) with world in Ha by by vm_compute.
  destruct Ha as (Hres & Hrec & _). split; [exact Hres|exact Hrec].
Defined.

(** The first attempt meets a conflict at COMMIT, the second commits. *)
Definition conflicting (n : nat) : attempt :=
  if (n =? 4)%nat then Ran noon None true CommitConflict else Ran noon None true Committed.
Lemma transaction_absorbs_conflicts_witness :
  (transaction (append_tx march hello) conflicting (mkDb ∅ ∅)).1 = Ok tt.
Proof.
  destruct (append_tx march hello noon (mkDb ∅ ∅)) as [[[] d']|] eqn:E; [|by vm_compute in E].
  rewrite (transaction_absorbs_conflicts (append_tx march hello) conflicting (mkDb ∅ ∅) 4 ltac:(unfold MAX_TRANSACTION_ATTEMPTS; lia)
    ltac:(intros i [Hi Hi']; assert (i = 4%nat) as -> by (unfold MAX_TRANSACTION_ATTEMPTS in Hi'; lia); by vm_compute)
    noon true tt d' eq_refl E). done.
Defined.

Lemma retry_delay_bounds_witness : 50 <= transaction_retry_delay 2 7 <= 100.
Proof. apply (retry_delay_bounds 2 7); closed. Defined.

(** ** Inputs the program rejects *)
Lemma no_partial_pages_witness :
  query_page messages (λ _, 0%nat) (task mixed (λ _, quiet) (mkQuery general (mkTimeRange 5 5) None 2))
    (mkQuery general (mkTimeRange 5 5) None 2) = Value (Err InvalidTimeRange).
Proof.
  apply (proj1 (no_partial_pages messages (λ _, 0%nat) (task mixed (λ _, quiet)
    (mkQuery general (mkTimeRange 5 5) None 2)) (mkQuery general (mkTimeRange 5 5) None 2))). closed.
Defined.

Lemma definition_validation_witness : validate messages = Ok tt ∧ chat_messages " " "t1" = Panicked.
Proof.
  split.
  - apply (proj1 (definition_validation messages " " "t1")). by vm_compute.
  - apply (proj2 (definition_validation messages " " "t1")). left. by vm_compute.
Defined.

(** ** Migrations, with an empty digest in place of SHA-256 *)
Definition digest : list byte → list byte := λ _, [].
Lemma shipped_increasing : increasing MIGRATIONS.
Proof. split; [done|]. repeat constructor. Qed.
Definition baseline : SchemaMigration := mkMigration 4 "v4_durable_bucket_store_baseline" V4_BASELINE_SQL.

Lemma planner_accepts_exactly_prefixes_witness :
  plan_migrations digest MIGRATIONS [] = Value (Ok MIGRATIONS) ∧
  plan_migrations digest MIGRATIONS [applied_of digest baseline] = Value (Ok []).
Proof.
  split.
  - apply (proj2 (planner_accepts_exactly_prefixes digest MIGRATIONS [] shipped_increasing)).
    exists 0%nat. split_and!; [simpl; lia|done|done].
  - apply (proj2 (planner_accepts_exactly_prefixes digest MIGRATIONS [applied_of digest baseline] shipped_increasing)).
    exists 1%nat. split_and!; [simpl; lia|done|done].
Defined.

Definition fresh_db : SchemaDb := mkSchemaDb None [].
Lemma migrate_applies_each_once_witness :
  (migrate digest (λ _, "") MIGRATIONS false (λ _, MigRan None MigCommitted) fresh_db).1 = Value (Ok tt).
Proof.
  pose proof (migrate_applies_each_once digest (λ _, "") MIGRATIONS false (λ _, MigRan None MigCommitted)
    fresh_db 0 shipped_increasing ltac:(apply NoDup_singleton) ltac:(by repeat constructor) ltac:(simpl; lia)
    ltac:(by vm_compute)) as Hm.
  destruct (migrate digest (λ _, "") MIGRATIONS false (λ _, MigRan None MigCommitted) fresh_db) as [res d'].
  by apply Hm.
Defined.

Definition migrated_db : SchemaDb :=
  mkSchemaDb (Some {[4 := (mig_name baseline, checksum digest baseline)]}) [V4_BASELINE_SQL].
Definition v4_columns (t : string) : list string :=
  if decide (t = V4_METADATA_TABLE) then "extra" :: from_option columns [] (EXPECTED_V4_TABLES !! 0%nat)
  else from_option columns [] (EXPECTED_V4_TABLES !! 1%nat).
Definition v4_primary_key (t : string) : list string :=
  if decide (t = V4_METADATA_TABLE) then ["table_id"; "partition_key"; "bucket_key"]
  else ["table_id"; "partition_key"; "bucket_key"; "event_time"; "sort_key"].
Lemma validate_schema_accepts_exactly_witness :
  validate_schema digest (λ _, "") v4_columns v4_primary_key MIGRATIONS (λ _, false) migrated_db = Value (Ok tt).
Proof.
  apply (validate_schema_accepts_exactly digest (λ _, "") v4_columns v4_primary_key MIGRATIONS migrated_db
    shipped_increasing).
  split_and!; [by eexists|by vm_compute|].
  repeat constructor; simpl; set_solver.
Defined.
