(* ===== verification/QueryWitnesses.v ===== *)
(** Concrete runs of queries in a system that moves: three records, two of them acknowledged before
    a client starts to follow cursors and one appended to another bucket meanwhile. *)
From S2P Require Import Prelude Chrono Gregorian Model Schema Storage MemStore MemArchive Observability Prog Table Coordinator System Queries Witnesses.
Local Open Scope Z_scope.

(** The state after an append by a client, with the in-memory adapters. *)
Definition client_append (σ : sys (S := MemState) (T := MemArchive)) (b : BucketId) (r : Record_) :
    sys (S := MemState) (T := MemArchive) := after_append σ b r (quiet 0).
Lemma client_append_step σ b r : canonical b → in_bucket b r → steps σ (client_append σ b r).
Proof. intros Hb Hr. apply rtc_once, step_append; [done|]. by destruct r. Qed.

Definition two_appends := client_append one_append march world.
Definition three_appends := client_append two_appends april later.
Lemma two_appends_steps : steps start_state two_appends.
Proof.
  eapply rtc_l; [apply one_append_step|]. apply client_append_step; [apply march_canonical|by split].
Qed.
Lemma three_appends_steps : steps two_appends three_appends.
Proof. apply client_append_step; [apply april_canonical|by split]. Qed.

(** A read changes neither in-memory tier. *)
Lemma read_leaves_tiers b range after limit (st : MemState * MemArchive) :
  (run (read_bucket b range after limit) quiet 0 st).2 = st.
Proof.
  destruct st as [m t]. cbn. unfold read_range. destruct (m !! b) as [[[| |k del] ? ? ? ? ?]|]; cbn; try done.
  by destruct (get_bucket b k t).
Qed.
Lemma tasks_execute (σ : sys (S := MemState) (T := MemArchive)) q : executes σ σ q (task (tiers σ) (λ _, quiet) q).
Proof.
  intros b r [= <-]. exists σ, σ. split_and!; [apply rtc_refl| |apply rtc_refl].
  pose proof (run_interleaved (read_bucket b (q_range q) (q_after q) (page_capacity (q_limit q))) quiet 0 σ) as Hrun.
  rewrite read_leaves_tiers in Hrun. by destruct σ.
Qed.
Lemma task_answers σ q p : query_page messages (λ _, 0%nat) (task (tiers σ) (λ _, quiet) q) q = Value (Ok p) →
  answers messages σ σ q p.
Proof. intros Hq. exists (λ _, 0%nat), (task (tiers σ) (λ _, quiet) q). split_and!; [apply rtc_refl|apply tasks_execute|done]. Qed.

Lemma concurrent_page_is_consistent_witness : ∃ l : BucketId → list Record_,
  mkPage [hello] (Some (cursor_from hello)) = logical_page spring None 1 (concat (map l [march; april])) ∧
  ∀ b, b ∈ [march; april] →
    (∃ σm lm, steps two_appends σm ∧ steps σm two_appends ∧ logical (tiers σm) b = Some lm ∧ l b ≡ₚ lm) ∧
    acked two_appends b ⊆+ l b ∧ l b ⊆+ acked two_appends b ++ unsure two_appends b.
Proof.
  apply (concurrent_page_is_consistent messages start_state two_appends two_appends (mkQuery general spring None 1)
    [march; april] (mkPage [hello] (Some (cursor_from hello))) start_initial two_appends_steps noon_in_range).
  - closed.
  - closed.
  - apply spring_buckets.
  - apply precise_for_exact.
  - closed.
  - apply task_answers. by vm_compute.
Defined.

(** Two pages of one record, the append to the other bucket, and the last page. *)
Lemma three_pages : browses messages general spring 1 3 two_appends None [hello; world; later] three_appends.
Proof.
  apply (browse_more _ _ _ _ 2 two_appends None (mkPage [hello] (Some (cursor_from hello))) (cursor_from hello)
    two_appends [world; later]); [apply task_answers; by vm_compute|done|].
  apply (browse_more _ _ _ _ 1 two_appends (Some (cursor_from hello)) (mkPage [world] (Some (cursor_from world)))
    (cursor_from world) three_appends [later]); [|done|].
  - destruct (task_answers three_appends (mkQuery general spring (Some (cursor_from hello)) 1)
      (mkPage [world] (Some (cursor_from world)))) as (schedule & reads & _ & Hex & Hq); [by vm_compute|].
    exists schedule, reads. split_and!; [apply three_appends_steps| |done]. intros b r Hr.
    destruct (Hex b r Hr) as (σ1 & σ2 & Hto & Hrun & Hfrom). exists σ1, σ2. split_and!; [|done|done].
    by etransitivity; [apply three_appends_steps|].
  - apply (browse_last _ _ _ _ three_appends (Some (cursor_from world)) (mkPage [later] None));
      [apply task_answers; by vm_compute|done].
Qed.
Lemma browsing_misses_nothing_witness :
  strictly_sorted_by clustering [hello; world; later] ∧ hello ∈ [hello; world; later] ∧ (3 - 1) * 1 <= 3.
Proof.
  destruct (browsing_misses_nothing messages start_state two_appends three_appends general spring 1 [march; april] 3
    [hello; world; later] start_initial two_appends_steps noon_in_range ltac:(closed) ltac:(closed) spring_buckets)
    as (Hs & _ & Hack & Hn).
  - intros. apply precise_for_exact.
  - closed.
  - apply (written_keys_unique messages general spring [march; april]);
      [apply noon_in_range|closed|apply spring_buckets| |repeat constructor; by vm_compute; set_solver].
    eapply steps_inv; [apply initial_inv, start_initial|apply two_appends_steps].
  - apply three_pages.
  - split_and!; [done| |done]. apply Hack; [|by vm_compute]. apply (bool_decide_unpack _). by vm_compute.
Defined.
