(* ===== verification/RenewerWitnesses.v ===== *)
(** A concrete run of a coordinator with its lease renewer: the lease expires before the first
    renewal, the renewal fails, and the coordinator sees it and shuts its renewer down; and a renewal that is
    answered in time. *)
From S2P Require Import Prelude Chrono Gregorian Model Schema Storage MemStore MemArchive Observability Prog Table Coordinator System Cockroach Renewer Leases LeaseStores Witnesses.
Local Open Scope Z_scope.

(** ** An executable scheduler *)
(** A move of the owner that involves its renewer. *)
Definition own_next (π : process) : option process :=
  match π with
  | mkProcess (Some (Vis e k)) err r false =>
      match e in event X return (X → prog unit) → option process with
      | EStartRenewer s lease _ => λ k,
          match r with None => Some (mkProcess (Some (k tt)) None (Some (ArchiveLeaseRenewer_start s lease)) false) | _ => None end
      | EPollFailure => λ k,
          match err, r with
          | Some _, _ => Some (mkProcess (Some (k err)) None r false)
          | None, Some r => match poll_failure r with
              | Value (err, r) => Some (mkProcess (Some (k err)) None (Some r) false) | _ => None end
          | _, _ => None
          end
      | EShutdownRenewer => λ k,
          match r with
          | Some r => match stop r, task_state r with
              | Open, _ => Some (mkProcess (Some (Vis EShutdownRenewer k)) err (Some (request_stop r)) false)
              | (Sent _ | SenderDropped), Ended => Some (mkProcess (Some (k tt)) None None false)
              | _, _ => None
              end
          | None => None
          end
      | _ => λ _, None
      end k
  | _ => None
  end.
Lemma own_next_sound π π' : own_next π = Some π' → owner_step π π'.
Proof.
  destruct π as [[[a|X e k]|] err r []]; try done. destruct e; simpl; try done.
  - destruct r; [done|]. intros [= <-]. constructor.
  - destruct err as [err|]; [intros [= <-]; constructor|]. destruct r as [r|]; [|done].
    destruct (poll_failure r) as [[err r']| |] eqn:E; [|done..]. intros [= <-]. by constructor.
  - destruct r as [r|]; [|done]. destruct (stop r) eqn:Es, (task_state r) eqn:Et; intros; simplify_eq;
      constructor; by rewrite ?Es.
Qed.

Inductive move := Work (i : input (E := Env) (F := unit)) | Own | Task (ev : task_event) | Renew (i : input (E := Env) (F := unit)).
(** A move of process 0. *)
Definition make_move (m : move) (c : csys (S := MemState) (T := MemArchive)) : option (csys (S := MemState) (T := MemArchive)) :=
  π ← c_procs c !! 0%nat;
  match m, π with
  | Work i, mkProcess (Some (Vis e k)) err r false =>
      if own_event e then Some (set_proc 0 (mkProcess (Some (k (step_event e i (c_tiers c)).1)) err r false)
        (set_tiers (step_event e i (c_tiers c)).2 c)) else None
  | Own, π => (λ π', set_proc 0 π' c) <$> own_next π
  | Task ev, mkProcess p err (Some r) b => (λ r', set_proc 0 (mkProcess p err (Some r') b) c) <$> task_step ev r
  | Renew i, mkProcess p err (Some r) b =>
      let out := step_event (EStore (RenewArchiveLease (session r) (lease_for r))) i (c_tiers c) in
      (λ r', set_proc 0 (mkProcess p err (Some r') b) (set_tiers out.2 c)) <$> answer out.1 r
  | _, _ => None
  end.
Lemma make_move_sound m c c' : make_move m c = Some c' → cstep (E := Env) (F := unit) c c'.
Proof.
  unfold make_move. destruct (c_procs c !! 0%nat) as [π|] eqn:Hid; [|done]. cbn [mbind option_bind].
  destruct m as [i| |ev|i].
  - destruct π as [[[a|X e k]|] err r []]; try done. destruct (own_event e) eqn:He; [|done]. intros [= <-].
    by eapply (c_work c 0 e k err r i).
  - intros Hm. assert (∃ π', own_next π = Some π' ∧ c' = set_proc 0 π' c) as (π' & Hn & ->).
    { destruct π as [[[]|] ? [] []], (own_next _); simplify_eq/=; eauto. }
    eapply c_own; [exact Hid|by apply own_next_sound].
  - destruct π as [p err [r|] b]; [|by destruct p as [[]|], b]. intros Hm.
    assert (∃ r', task_step ev r = Some r' ∧ c' = set_proc 0 (mkProcess p err (Some r') b) c) as (r' & Ht & ->).
    { destruct p as [[]|], b, (task_step ev r); simplify_eq/=; eauto. }
    by eapply c_task.
  - destruct π as [p err [r|] b]; [|by destruct p as [[]|], b]. intros Hm.
    assert (∃ r', answer (step_event (EStore (RenewArchiveLease (session r) (lease_for r))) i (c_tiers c)).1 r = Some r' ∧
      c' = set_proc 0 (mkProcess p err (Some r') b)
        (set_tiers (step_event (EStore (RenewArchiveLease (session r) (lease_for r))) i (c_tiers c)).2 c)) as (r' & Ht & ->).
    { destruct p as [[]|], b, (answer _ r); simplify_eq/=; eauto. }
    by eapply c_renew.
Qed.
Fixpoint make_moves (ms : list move) (c : csys (S := MemState) (T := MemArchive)) : option (csys (S := MemState) (T := MemArchive)) :=
  match ms with [] => Some c | m :: ms => make_move m c ≫= make_moves ms end.
Lemma make_moves_sound ms c c' : make_moves ms c = Some c' → csteps (E := Env) (F := unit) c c'.
Proof.
  revert c. induction ms as [|m ms IH]; intros c; simpl; [intros [= <-]; apply rtc_refl|].
  destruct (make_move m c) as [c1|] eqn:E; [|done]. intros Hc. eapply rtc_l; [by eapply make_move_sound|by apply IH].
Qed.

(** ** The run *)
#[export] Instance Env_inhabited : Inhabited Env := populate (at_time 0 "u").
Definition hot_start : csys (S := MemState) (T := MemArchive) := mkC (∅, ∅) ∅ (λ _, []) (λ _, []).
Lemma hot_start_initial : c_initial hot_start.
Proof. split; [apply start_initial|done]. Qed.
Definition hot_march : csys (S := MemState) (T := MemArchive) :=
  set_proc 0 (mkProcess (Some (forget (archive_bucket march))) None None false)
    (mkC (appended, ∅) ∅ (record_if true march hello (λ _, [])) (record_if false march hello (λ _, []))).
Lemma hot_march_steps : csteps (E := Env) (F := unit) hot_start hot_march.
Proof.
  eapply rtc_l; [exact (c_append hot_start march hello (mkInput (at_time 0 "u0") tt None 0) march_canonical (conj eq_refl eq_refl))|].
  apply rtc_once. apply c_spawn; [done|]. apply runs_archive, march_canonical.
Qed.

Definition early : input (E := Env) (F := unit) := mkInput (at_time 5 "a") tt None 0.
Definition too_late : input (E := Env) (F := unit) := mkInput (at_time (10 * DIRECT_ARCHIVE_LEASE) "a") tt None 0.
(** Claim, start, sleep, renew too late, snapshot, see the failure, stop, join. *)
Definition expired_run : list move :=
  [Work early; Work early; Own; Task Elapse; Task (Select false); Renew too_late; Task Resume; Work too_late; Own; Own; Own].
Definition finished (c : csys (S := MemState) (T := MemArchive)) : bool :=
  match c_procs c !! 0%nat with Some (mkProcess (Some (Ret _)) None None false) => true | _ => false end.

Lemma renewers_refine_the_system_witness : ∃ c, csteps (E := Env) (F := unit) hot_start c ∧ finished c = true ∧
  ∃ l, logical (c_tiers c) march = Some l ∧ c_acked c march ⊆+ l.
Proof.
  assert (∃ c, make_moves expired_run hot_march = Some c ∧ finished c = true) as (c & Hrun & Hf).
  { assert ((finished <$> make_moves expired_run hot_march) = Some true) as Hf by by vm_compute.
    destruct (make_moves expired_run hot_march) as [c|]; [|done]. exists c. by simplify_eq/=. }
  assert (csteps (E := Env) (F := unit) hot_start c) as Hc
    by (etransitivity; [apply hot_march_steps|by eapply make_moves_sound]).
  destruct (renewers_refine_the_system hot_start c hot_start_initial Hc) as (_ & _ & Hl).
  destruct (Hl march march_canonical) as (l & Hl' & Ha & _). exact (ex_intro _ c (conj Hc (conj Hf (ex_intro _ l (conj Hl' Ha))))).
Defined.

(** A renewer stopped while its renewal is under way: the answer is its last step but one. *)
Definition stopped : ArchiveLeaseRenewer := request_stop (with_task Renewing (ArchiveLeaseRenewer_start session_a 60)).
Lemma stopped_renewer_ends_witness : is_Some (renewer_run [inr (Ok tt); inl Resume] stopped) ∧
  ∃ ev, ev ≠ inl Elapse ∧ is_Some (renewer_step ev stopped).
Proof.
  split; [by vm_compute; eauto|]. apply (proj1 (proj2 (stopped_renewer_ends stopped eq_refl))). done.
Defined.

(** The lease and the interval of the direct coordinator, with an executor that may be half a minute
    late and a store that may take a minute: the bucket is claimed at 0, and the first renewal is
    answered after 61 seconds. *)
Definition seconds (n : Z) : Z := n * 1000000000.
Definition claim_env : Env := mkEnv 0 0 0 "t".
Definition renewal_env : Env := mkEnv (seconds 60) (seconds 61) (seconds 61) "u".
Definition held : ArchiveSession := mkSession march "t" 1.
Definition lease_start : timed MemState := after_grant (BeginArchive march) claim_env (∅ : MemState) held DIRECT_ARCHIVE_LEASE 0.
Ltac clocks := split_and?; by vm_compute.
Lemma renewed_lease_is_kept_witness : ∃ t,
  tsteps DIRECT_ARCHIVE_LEASE_RENEWAL_INTERVAL (seconds 30) (seconds 60) lease_start t ∧
  clock t = seconds 61 ∧ lease_held held (seconds 361) (Leases.contents t) ∧ failure (the_renewer t) = Open.
Proof.
  assert (∃ t, tsteps DIRECT_ARCHIVE_LEASE_RENEWAL_INTERVAL (seconds 30) (seconds 60) lease_start t ∧
    clock t = seconds 61 ∧ lease_held held (seconds 361) (Leases.contents t)) as (t & Hrun & Hc & Hh).
  { eexists. split.
    - eapply rtc_l; [apply (t_wait _ _ _ _ (seconds 60)); clocks|].
      eapply rtc_l; [apply (t_task _ _ _ _ Elapse); [done|clocks|reflexivity]|].
      eapply rtc_l; [apply (t_task _ _ _ _ (Select false)); [done|done|reflexivity]|].
      eapply rtc_l; [apply (t_renew _ _ _ _ renewal_env (seconds 61)); [clocks|clocks|clocks|clocks|reflexivity]|].
      eapply rtc_l; [apply (t_task _ _ _ _ Resume); [done|done|reflexivity]|]. apply rtc_refl.
    - split; [by vm_compute|]. eexists. split; [by vm_compute|]. split_and!; by vm_compute. }
  exists t. split; [exact Hrun|]. split; [exact Hc|]. split; [exact Hh|].
  apply (renewed_lease_is_kept DIRECT_ARCHIVE_LEASE_RENEWAL_INTERVAL (seconds 30) (seconds 60)
    (BeginArchive march) claim_env (∅ : MemState) held DIRECT_ARCHIVE_LEASE 0 0 t);
    [clocks..|split; [apply march_canonical|done]|clocks|clocks|clocks|clocks|exact Hrun].
Defined.

(** Over the database, with clocks that may differ by a minute: a claim at noon whose lease is the
    direct coordinator's; the session owns the row to the end of its first interval and delay. *)
#[local] Existing Instances micro_driver micro_driver_laws.
#[local] Program Instance micro_clock : DriverClock := {| utc_horizon := 4 * noon |}.
Next Obligation. intros d Hd. simpl. rewrite (proj2 (Z.leb_le d i64_max)); [done|]. unfold noon, i64_max in *. lia. Qed.
Next Obligation.
  intros t d Ht Hd Hmax. simpl. assert (greg_min <= 0 ∧ 4 * noon <= greg_max) as [H1 H2] by (split; by vm_compute).
  unfold greg_range. by rewrite (proj2 (Z.leb_le greg_min (t + d))), (proj2 (Z.leb_le (t + d) greg_max)) by lia.
Qed.
Next Obligation. intros d y. simpl. by case_match; intros [= <-]. Qed.
Next Obligation. intros t d y. simpl. by case_match; intros [= <-]. Qed.
Next Obligation. intros t. simpl. pose proof (Z.mod_pos_bound t 1000). lia. Qed.
Definition claimed_cr : CrState := (store_exec (ClaimArchive march DIRECT_ARCHIVE_LEASE) (healthy noon "a") appended_cr).2.
Lemma cockroach_renewer_stays_owner_witness : ∃ r, metadata (db claimed_cr) !! key_of march = Some r ∧
  owned (noon + seconds 90) 1 "a" r = true.
Proof.
  apply (cockroach_renewer_stays_owner (seconds 60) DIRECT_ARCHIVE_LEASE_RENEWAL_INTERVAL (seconds 30) (seconds 30)
    (ClaimArchive march DIRECT_ARCHIVE_LEASE) (healthy noon "a") appended_cr session_a DIRECT_ARCHIVE_LEASE noon noon
    (after_grant (ClaimArchive march DIRECT_ARCHIVE_LEASE) (healthy noon "a") appended_cr session_a DIRECT_ARCHIVE_LEASE noon)).
  - by vm_compute.
  - by vm_compute.
  - by vm_compute.
  - by vm_compute.
  - by vm_compute.
  - split; [apply march_canonical|done].
  - split; [intros i now fault rb rep [= <- _ _ _]; lia|by vm_compute].
  - by vm_compute.
  - by vm_compute.
  - by vm_compute.
  - apply rtc_refl.
  - by vm_compute.
Defined.
