(* ===== verification/ObjectWitnesses.v ===== *)
(** Concrete instances of the theorems about archive objects: uploads of two records through
    [Codecs], with requests that fail, time out and take effect or not. *)
From S2P Require Import Prelude Chrono Gregorian Model Storage Paths Text ArchiveFormat OpenDal Codecs Witnesses.
Local Open Scope Z_scope.

(** ** Archive objects *)
Definition objects_store : OpenDalArchiveStore unit := with_format (with_operator tt "archive" "/pulpitum/") Parquet_.
Definition missing (k : string) : string := "NotFound: " +:+ k.
(** Every request is served; and an upload whose first write times out although it took effect, and
    whose second is answered with an error although it did. *)
Definition served : nat → op := quiet_env (λ _, Served).
Definition flaky (n : nat) : reply :=
  match n with O => Elapsed true | 2%nat => OpenDal.Failed OtherKind "connection reset" true | _ => Served end.
(** Every request before the last times out without effect. *)
Definition down (n : nat) : reply := Elapsed false.

Abbreviation od_put := (write_records sample_digest missing objects_store march (Some 1) [hello; world]).
Definition od_key : string := Eval vm_compute in
  match (od_put served ∅).1 with Ok k => k | Err _ => "" end.

Lemma pair_ok {A B} (p : A * B) x : p.1 = x → p = (x, p.2).
Proof. intros <-. apply surjective_pairing. Qed.
Lemma flaky_ok : od_put (quiet_env flaky) ∅ = (Ok od_key, (od_put (quiet_env flaky) ∅).2).
Proof. apply pair_ok. by vm_compute. Qed.

Lemma format_names_parse_witness : format_from_str (" " +:+ "JSON" +:+ "") = Ok Json ∧
  format_from_str "csv" = Err (UnsupportedFormat "csv").
Proof.
  destruct (format_names_parse " " "JSON" "" Json "csv") as [H1 H2]; [by vm_compute..|].
  split; [exact H1|]. apply H2. by intros [].
Defined.
Definition two_records : list byte := Eval vm_compute in
  match serialize Parquet_ [hello; world] with Ok body => body | Err _ => [] end.
Lemma payload_round_trip_witness : deserialize Parquet_ two_records = Ok [hello; world].
Proof. apply (proj1 (payload_round_trip Parquet_ [hello; world] two_records)). by vm_compute. Defined.

Lemma acknowledged_upload_stays_readable_witness :
  (od_get_bucket sample_digest missing march od_key served (od_put (quiet_env flaky) ∅).2).1 = Ok [hello; world].
Proof.
  exact (proj1 (acknowledged_upload_stays_readable sample_digest missing sample_digest_length objects_store
    march (Some 1) [hello; world] (quiet_env flaky) ∅ od_key _ _ served flaky_ok (reflexivity _) eq_refl eq_refl)).
Defined.
Lemma archive_read_is_checked_witness :
  OpenDal.readable sample_digest (((od_put served ∅).2 ∪ ∅) ∪ ∅) march od_key [hello; world].
Proof.
  apply (proj1 (archive_read_is_checked sample_digest missing march od_key served (od_put served ∅).2
    [hello; world] eq_refl eq_refl)). by vm_compute.
Defined.

(** An upload that is down at first leaves nothing, and the retry returns its key. *)
Definition unwrap_or {E A} (d : A) (r : Result E A) : A := match r with Ok a => a | Err _ => d end.
Lemma unwrap_ok {E A} (d : A) (r : Result E A) : is_ok r = true → r = Ok (unwrap_or d r).
Proof. by destruct r. Qed.
Definition upload_1 : OpenDal.upload := unwrap_or (mkUpload [] (mkManifest 0 Json 0 march None "" 0 0 "" []) [] "")
  (prepare_upload sample_digest objects_store march (Some 1) [hello; world]).
Lemma undisturbed_empty u : undisturbed u ∅.
Proof. split; intros x; by rewrite lookup_empty. Qed.
Lemma upload_retry_succeeds_witness :
  (od_put served (od_put (quiet_env down) ∅).2).1 = Ok (u_manifest_key upload_1).
Proof.
  apply (upload_retry_succeeds sample_digest missing objects_store march (Some 1)
    [hello; world] upload_1 (quiet_env down) served ∅).
  - apply unwrap_ok. by vm_compute.
  - apply undisturbed_empty.
  - intros n. apply undisturbed_empty.
  - intros n. split; [done|apply undisturbed_empty].
Defined.

Lemma flaky_key : (od_put (quiet_env flaky) ∅).1 = Ok od_key.
Proof. by rewrite flaky_ok. Qed.
Lemma opendal_store_refines_witness :
  od_object sample_digest missing (od_put (quiet_env flaky) ∅).2 march od_key = Some [hello; world].
Proof.
  destruct (opendal_store_refines sample_digest missing sample_digest_length objects_store march 1
    [hello; world] od_key flaky ∅ ltac:(intros k body m Hk; by rewrite lookup_empty in Hk) march_canonical
    ltac:(closed)) as [Hput _].
  pose proof flaky_key as Hkey.
  destruct (od_put (quiet_env flaky) ∅) as [res s']. destruct Hput as (_ & _ & _ & Hk).
  exact (proj2 (Hk od_key Hkey)).
Defined.

Definition s3_sample : S3ArchiveConfig :=
  mkS3Config (Some "https://s3.example") "archive" (Some "eu") (Some "id") (Some "secret") None "/pulpitum/" false
    (Some S3Managed).
Lemma s3_config_accepts_exactly_witness :
  is_blank "archive" = false ∧ (is_Some (Some "id") ↔ is_Some (Some "secret")).
Proof.
  destruct (proj1 (s3_config_accepts_exactly (λ svc, Ok svc) s3_sample
    (with_operator (s3_service s3_sample) "archive" "/pulpitum/")) eq_refl) as (Hb & _ & Hk & _).
  split; [exact Hb|exact Hk].
Defined.
