(* ===== verification/PoolWitnesses.v ===== *)
(** Concrete instances of the theorems about the connection pool: a pool of one connection that is
    prewarmed, checked out, marked uncertain and dropped, and a TLS configuration over certificates
    that are numbers. *)
From S2P Require Import Prelude Chrono Model Storage Pool PoolConfig.
Local Open Scope Z_scope.

(** Prewarm one connection; a caller acquires it; marks it uncertain and starts to drop it. *)
Definition warm : list event := [Run 0 (Connect Connected); Run 0 Go; Run 0 Go; Run 0 Go; Run 0 Go].
Definition take : list event := [Spawn; Run 2 Go; Run 2 Grant; Run 2 Go; Run 2 Go; Run 2 Go; Run 2 Go; Run 2 Go; Run 2 Go; Run 2 Go].
Definition let_go : list event := [Run 2 (Mark false); Run 2 Go].
Definition after (es : list event) : pool := default from_client (run es (connecting 1)).
Lemma after_reachable es : is_Some (run es (connecting 1)) → pool_of 1 (after es).
Proof. intros [p E]. left. exists es. unfold after. by rewrite E. Qed.
Lemma warm_ok : pool_of 1 (after warm).
Proof. apply after_reachable. eexists. vm_compute. reflexivity. Qed.
Lemma take_ok : pool_of 1 (after (warm ++ take)).
Proof. apply after_reachable. eexists. vm_compute. reflexivity. Qed.
Lemma let_go_ok : pool_of 1 (after (warm ++ take ++ let_go)).
Proof. apply after_reachable. eexists. vm_compute. reflexivity. Qed.
Lemma let_go_next : reachable (after (warm ++ take ++ let_go)) (after (warm ++ take ++ let_go ++ [Run 2 Go])).
Proof. exists [Run 2 Go]. vm_compute. reflexivity. Qed.

Lemma pool_respects_its_budget_witness :
  threads (after (warm ++ take)) !! 2%nat = Some (Held 0 true) ∧
  n_live (sh (after (warm ++ take))) <= 1 ∧ count is_held (after (warm ++ take)) <= 1.
Proof.
  split; [by vm_compute|].
  destruct (pool_respects_its_budget 1 (after (warm ++ take)) take_ok) as (H1 & H2 & _).
  split; [exact H1|exact H2].
Defined.
Lemma uncertain_connection_is_retired_witness :
  threads (after (warm ++ take ++ let_go)) !! 2%nat = Some (Releasing 0 false) ∧
  state_of 0 (sh (after (warm ++ take ++ let_go ++ [Run 2 Go]))) = Some CLOSED.
Proof.
  split; [by vm_compute|].
  destruct (uncertain_connection_is_retired 1 (after (warm ++ take ++ let_go)) 2 0
    (after (warm ++ take ++ let_go ++ [Run 2 Go])) let_go_ok ltac:(by vm_compute)
    let_go_next) as [H|(H & _)]; [by vm_compute in H|exact H].
Defined.
Lemma gauges_at_rest_witness :
  idle (sh (after (warm ++ take))) = n_idle (sh (after (warm ++ take))) ∧
  in_use (sh (after (warm ++ take))) = count is_held (after (warm ++ take))
    + count is_cancelled_opening (after (warm ++ take)).
Proof.
  destruct (gauges_at_rest 1 (after (warm ++ take)) take_ok
    ltac:(vm_compute; repeat constructor) ltac:(vm_compute; intros; discriminate)
    ltac:(vm_compute; intros; discriminate)) as (H1 & H2 & _).
  split; [exact H1|exact H2].
Defined.
Lemma pool_never_wedges_witness :
  (∃ i ch t p', threads (after (warm ++ take)) !! i = Some t ∧ finished t = false ∧
     exec (Run i ch) (after (warm ++ take)) = Some p') ∧ permits (sh (after warm)) = 1.
Proof.
  split.
  - apply (proj1 (pool_never_wedges 1 (after (warm ++ take)) take_ok)).
    exists 2%nat, (Held 0 true). split_and!; [by vm_compute|done|done].
  - apply (proj2 (pool_never_wedges 1 (after warm) warm_ok)).
    vm_compute. repeat constructor.
Defined.

(** Certificates and keys are numbers; a bundle of bytes is the certificates it lists. *)
Definition sample_certificates (pem : list byte) : option (list N) := Some (Byte.to_N <$> pem).
Definition sample_key (pem : list byte) : option N := Byte.to_N <$> head pem.
Definition sample_tls : CockroachTlsConfig (Cert := N) (Key := N) := mkTls [7%N] None None.
Lemma tls_configuration_is_well_formed_witness :
  tls_wf (Key := N) (λ c : N, negb (c =? 0)%N) sample_tls.
Proof.
  apply (tls_configuration_is_well_formed sample_certificates (λ c : N, negb (c =? 0)%N) sample_key true
    (λ _ _, true) sample_tls).
  apply (built_ca sample_certificates (λ c : N, negb (c =? 0)%N) sample_key [Byte.x07]). by vm_compute.
Defined.
Definition sample_url (url : string) : option PgConfig :=
  if decide (url = "postgresql://localhost/db?sslmode=require")
  then Some (mkPgConfig Require_ [] [Tcp "localhost"] [26257]) else None.
Definition sample_pool : PoolInner (Cert := N) (Key := N) :=
  mkInner "postgresql://localhost/db?sslmode=require" (Some (mkTarget "localhost" 26257))
    (Rustls (mkConnector [7%N] None)) pool_config_default (connecting 16).
Lemma transport_matches_url_witness : valid_pool_config pool_config_default.
Proof.
  destruct (transport_matches_url (Cert := N) (Key := N) true (λ _ _, true) sample_url
    "postgresql://localhost/db?sslmode=require" pool_config_default sample_tls sample_pool) as [[Hrustls _] _].
  assert (connect_rustls (Cert := N) (Key := N) true (λ _ _, true) sample_url
    "postgresql://localhost/db?sslmode=require" pool_config_default sample_tls = Ok sample_pool) as E by reflexivity.
  destruct (Hrustls E) as (_ & Hv & _). exact Hv.
Defined.
