(* ===== verification/SqlWitnesses.v ===== *)
(** Concrete instances of the theorems of [DataFusion]: an engine that compares texts and
    instants, Arrow operations that check lengths and types, and the table of [Witnesses]
    with March archived and April hot. *)
From S2P Require Import Prelude Chrono Gregorian Model Schema Storage MemStore Paths MemArchive Text Prog Table DataFusion Witnesses.
Local Open Scope Z_scope.

(** ** An engine *)
Definition plain_scalar (v : ScalarValue) : sql_value :=
  match v with
  | Utf8 (Some s) | Utf8View (Some s) | LargeUtf8 (Some s) => VText s
  | TimestampSecond (Some v) _ => VInstant (v * 1000000000)
  | TimestampMillisecond (Some v) _ => VInstant (v * 1000000)
  | TimestampMicrosecond (Some v) _ => VInstant (v * 1000)
  | TimestampNanosecond (Some v) _ => VInstant v
  | OtherScalar tag => VOther tag
  | _ => VNull
  end.
(** Casts to seconds truncate; other casts keep the value. *)
Definition plain_cast (t : DataType) (v : sql_value) : option sql_value :=
  match t, v with
  | TypeTimestamp Second _, VInstant n => Some (VInstant (n / 1000000000 * 1000000000))
  | _, _ => Some v
  end.
Definition plain_operator (op : Operator) (v w : sql_value) : option sql_value :=
  match op, v, w with
  | And, VBool a, VBool b => Some (VBool (a && b))
  | Eq_, VText s, VText t => Some (VBool (bool_decide (s = t)))
  | GtEq, VInstant t, VInstant u => Some (VBool (u <=? t))
  | Lt_, VInstant t, VInstant u => Some (VBool (t <? u))
  | _, _, _ => Some VNull
  end.
#[export] Instance plain_engine : SqlEngine := {|
  scalar_value := plain_scalar;
  cast_value := plain_cast;
  try_cast_value := plain_cast;
  operator_value := plain_operator;
  other_value := λ _, None
|}.
#[export] Instance plain_engine_laws : SqlEngineLaws.
Proof. split; try done. intros [] []; simpl; try naive_solver. destruct b, b0; naive_solver. Qed.

(** ** Arrow *)
Definition column_fits (n : nat) (fc : Field * ArrayRef) : bool :=
  bool_decide (data_type fc.1 = array_type fc.2) && bool_decide (array_length fc.2 = n).
Definition plain_try_new (fields : list Field) (cols : list ArrayRef) : option RecordBatch :=
  match cols with
  | [] => None
  | c :: _ =>
      if bool_decide (length fields = length cols) && forallb (column_fits (array_length c)) (zip fields cols)
      then Some (mkBatch fields cols (array_length c)) else None
  end.
#[export] Instance plain_arrow : Arrow := {|
  schema_project := λ fields indices, collect_option (fields !!.) indices;
  batch_try_new := plain_try_new;
  batch_project := λ b indices,
    fields ← collect_option (batch_schema b !!.) indices;
    cols ← collect_option (columns b !!.) indices;
    Some (mkBatch fields cols (num_rows b))
|}.
Lemma plain_columns_fit fields cols n :
  Forall2 (λ f c, data_type f = array_type c ∧ array_length c = n) fields cols →
  forallb (column_fits n) (zip fields cols) = true.
Proof.
  induction 1 as [|f c fields cols [Ht Hl] _ IH]; [done|]. simpl. rewrite IH, andb_true_r. unfold column_fits.
  simpl. by rewrite Ht, Hl, !bool_decide_eq_true_2.
Qed.
#[export] Instance plain_arrow_laws : ArrowLaws.
Proof.
  split; [done| |done]. intros fields cols n Hne HF. simpl. unfold plain_try_new.
  pose proof (Forall2_length _ _ _ HF) as El. pose proof (plain_columns_fit _ _ _ HF) as Hf.
  destruct HF as [|f c fields cols [_ Hl] _]; [done|]. rewrite Hl.
  by rewrite bool_decide_eq_true_2, Hf by done.
Qed.

(** ** A query *)
Definition utc (t : Z) : Expr := Literal (TimestampNanosecond (Some t) (Some "UTC")).
Definition spring_filters : list Expr := [
  BinaryExpr (BinaryExpr (Column (Some "messages") "channel_id") Eq_ (Literal (Utf8 (Some "general")))) And
    (BinaryExpr (Column (Some "messages") "timestamp") GtEq (utc (range_start spring)));
  BinaryExpr (Column (Some "messages") "timestamp") Lt_ (Cast (utc (range_end spring)) (TypeTimestamp Nanosecond (Some "UTC"))) ].
Definition spring_query : RoutedQuery := mkRouted (Some general) (Some (range_start spring)) (Some (range_end spring)).
Definition spring_plan : RoutedScanExec := mkScan (provider_schema messages)
  [mkField "id" TypeUtf8 false; mkField "value" TypeBinary false] [2; 3]%nat spring_query (Some 2).

Lemma messages_columns : NoDup (field_name <$> provider_schema messages).
Proof. repeat constructor; by vm_compute; set_solver. Qed.
Lemma spring_extracted : extract_query messages spring_filters = Ok spring_query.
Proof. by vm_compute. Qed.
Lemma spring_scan : scan messages (Some [2; 3]%nat) spring_filters (Some 2) = Ok spring_plan.
Proof. by vm_compute. Qed.
Lemma spring_faithful : Forall casts_faithful spring_filters.
Proof. by repeat constructor. Qed.
Lemma spring_column_first : Forall column_first spring_filters.
Proof. repeat constructor; done. Qed.

Lemma extract_query_accepts_exactly_witness : extract_query messages spring_filters = Ok spring_query.
Proof.
  apply (proj2 (extract_query_accepts_exactly messages spring_filters spring_query)).
  exists [[OnPartition "general"; From (range_start spring)]; [Before (range_end spring)]], general,
    (range_start spring), (range_end spring).
  split_and!; try done; try by repeat constructor.
  constructor; [|constructor; [by constructor|constructor]].
  change [OnPartition "general"; From (range_start spring)] with ([OnPartition "general"] ++ [From (range_start spring)]).
  repeat constructor; done.
Defined.
Lemma pushdown_is_exact_witness : passes_all messages spring_filters hello ↔ admits spring_query hello.
Proof.
  exact (pushdown_is_exact messages spring_filters spring_query hello messages_columns spring_extracted
    spring_faithful spring_column_first).
Defined.
Lemma reversed_comparisons_move_the_bounds_witness :
  ∃ q, extract_query messages (reversed_filters "channel_id" "general" noon (noon + 1)) = Ok q ∧
    admits q hello ∧ ¬ passes_all messages (reversed_filters "channel_id" "general" noon (noon + 1)) hello.
Proof.
  destruct (reversed_comparisons_move_the_bounds messages "general" noon (noon + 1) hello messages_columns
    ltac:(lia) eq_refl) as (q & Eq & _ & Hs & _). exists q. split; [exact Eq|exact (Hs eq_refl)].
Defined.
(** A cast that changes the literal: the filter asks for instants before a whole second, the
    routed query for those before the literal itself. *)
Example truncating_cast_is_ignored :
  let bound := noon + 500000000 in
  let filter := BinaryExpr (Column None "timestamp") Lt_ (Cast (utc bound) (TypeTimestamp Second (Some "UTC"))) in
  let record := mkRecord general (noon + 1) (key_from_string "k") [] in
  collect_predicate filter "channel_id" RoutedQuery_default = Ok (mkRouted None None (Some bound)) ∧
  admits (mkRouted None None (Some bound)) record ∧ ¬ passes messages record filter.
Proof. split_and!; [by vm_compute|split_and!; simpl; [done..|]; intros e [= <-]; closed|by vm_compute]. Qed.

Lemma batches_carry_the_records_witness :
  ∃ batches, record_batches [hello; world] (provider_schema messages) [2; 0]%nat = Ok batches ∧
    concat (batch_rows <$> batches) = projected_row [2; 0]%nat <$> [hello; world] ∧
    Forall (λ b, 0 < num_rows b <= BATCH_SIZE)%nat batches.
Proof.
  apply (proj1 (batches_carry_the_records messages [2; 0]%nat [hello; world] ltac:(repeat constructor; lia))).
  repeat constructor; by vm_compute.
Defined.
Lemma scan_returns_the_matching_rows_witness :
  ∃ batches, execute messages (λ _, 0%nat) (task mixed (λ _, quiet)) spring_plan 0 = Ok (Value (Ok <$> batches)) ∧
    concat (batch_rows <$> batches) =
      [[Some (CText "k1"); Some (CBinary (key_from_string "hello"))];
       [Some (CText "k2"); Some (CBinary (key_from_string "world"))]].
Proof.
  destruct (scan_returns_the_matching_rows messages (λ _, 0%nat) mixed (λ _, quiet) (Some [2; 3]%nat) spring_filters
    (Some 2) spring_plan general (range_start spring) (range_end spring) contents messages_columns spring_scan
    spring_faithful spring_column_first eq_refl ltac:(closed) ltac:(closed) ltac:(closed) ltac:(closed)
    mixed_inv ltac:(done)) as (bs & Ebs & _ & Hrun).
  change (q_range _) with spring in Ebs. rewrite spring_buckets in Ebs. injection Ebs as <-.
  destruct Hrun as (batches & Hexec & Hrows).
  - intros b Hb. by apply mixed_reads.
  - apply precise_for_exact.
  - closed.
  - repeat constructor; by vm_compute; set_solver.
  - repeat constructor.
  - exists batches. split; [exact Hexec|]. rewrite Hrows. by vm_compute.
Defined.
