(* ===== verification/ResultWitnesses.v ===== *)
(** Concrete instances of the theorems of [Results], [LoadProfile] and [Showcase]: the rows of two
    records under a projection, a small load, and a simulation whose queue fills up. *)
From S2P Require Import Prelude Chrono Model Schema Storage Text Observability Prog Table DataFusion Placeholders Gateway Results LoadProfile Showcase Witnesses SqlWitnesses.
Local Open Scope Z_scope.

(** ** Result rows *)
Definition plain_text (c : ResultColumn) (row : nat) : option string := None.
(** An encoder that refuses empty values. *)
Definition plain_field (f : FieldInfo) (v : FieldValue) : Result PgWireError (option (list byte)) :=
  match v with
  | FieldText s => Ok (Some (string_bytes s))
  | FieldBytes [] => Err (query_error "empty")
  | FieldBytes l => Ok (Some l)
  | _ => Ok None
  end.
Definition text_format (i : nat) : FieldFormat := FormatText.

Lemma sql_rows_are_the_records_witness : ∃ batches fields,
  record_batches [hello; world] (provider_schema messages) [2; 0]%nat = Ok batches ∧
  fi_type <$> fields = [TEXT; TEXT] ∧
  encode_rows plain_text plain_field (result_batch <$> batches) fields =
    Value (Ok [[Some (sort_key hello); Some (r_partition_key hello)]; [Some (sort_key world); Some (r_partition_key world)]]).
Proof.
  destruct (sql_rows_are_the_records plain_text plain_field messages [2; 0]%nat [hello; world]
    [mkField "id" TypeUtf8 false; mkField "channel_id" TypeUtf8 false] text_format
    ltac:(repeat constructor) ltac:(apply (bool_decide_unpack _); by vm_compute) ltac:(by vm_compute))
    as (batches & fields & Hb & Hf & Ht & He).
  exists batches, fields. split_and!; [done..|]. rewrite He.
  vm_compute in Hf. injection Hf as <-. by vm_compute.
Defined.

(** ** Load *)
Definition light_load : SpikySqlLoadProfile := SpikySqlLoadProfile_new 2.
Lemma load_averages_to_its_target_witness : ∃ a b c d,
  operations_for_second light_load 5 = Value a ∧ operations_for_second light_load 6 = Value b ∧
  operations_for_second light_load 7 = Value c ∧ operations_for_second light_load 8 = Value d ∧ a + b + c + d = 8.
Proof.
  destruct (proj2 (load_averages_to_its_target 2 5 ltac:(closed) ltac:(lia))) as (a & b & c & d & ? & ? & ? & ? & _ & _ & _ & _ & H).
  exists a, b, c, d. by split_and!.
Defined.

(** Eight ticks; the queue is full from the third request of each on. *)
Definition crowded : list (nat → SendResult) := replicate 8 (λ left, if decide (left = 2)%nat then Full else Sent).
Lemma load_identifiers_are_unique_witness : ∃ rs,
  run_load_simulation light_load 4 crowded (mkSimulation 0 0) = Value rs ∧ StronglySorted Z.lt (lr_sequence <$> rs) ∧
  load_id "Ada" 3 ≠ load_id "Linus" 4.
Proof.
  destruct (load_identifiers_are_unique light_load 4 crowded 16 ltac:(lia) ltac:(closed) ltac:(by vm_compute) ltac:(lia))
    as [(rs & Hrs & Hs & _) Hid].
  exists rs. split_and!; [done..|]. intros E. by apply Hid in E; [|lia..].
Defined.
