(* ===== verification/GatewayWitnesses.v ===== *)
(** Concrete instances of the theorems of [Placeholders], [Gateway] and [SidecarSecurity]: a
    parser that knows three statements, a portal with bound values, and a secure sidecar. *)
From S2P Require Import Prelude Chrono Gregorian Model Schema Storage MemStore MemArchive Paths Text Prog Table DataFusion Placeholders Gateway SidecarSecurity Witnesses.
Local Open Scope Z_scope.

(** ** Statements *)
Definition noon_text : string := "2026-03-15T12:00:00Z".
Definition hello_bytes : list byte := key_from_string "hello".
Definition order : list string := ["Timestamp"; "CHANNEL_ID"; "value"; "id"].
Definition values_query (row : list SqlExpr) : SqlQuery :=
  mkSqlQuery None (Values [row]) None None None [] None None None [].
Definition insert_of (row : list SqlExpr) : SqlInsert :=
  mkSqlInsert (TableName "Messages") None order false (Some (values_query row)) [] None [] false None None false
    None None None None None [] [] None.
Definition lower_order : list string := to_ascii_lowercase <$> order.
Definition literal_insert : SqlInsert := insert_of (spelled "general" noon_text "k1" hello_bytes <$> lower_order).
Definition number_of (c : string) : N :=
  if decide (c = "channel_id") then 2 else if decide (c = "timestamp") then 1 else if decide (c = "id") then 4 else 3.
Definition bound_insert : SqlInsert := insert_of (bound_expr number_of <$> lower_order).

#[export] Instance three_statements : SqlFrontend := {|
  parse_sql := λ s,
    if decide (s = "literal") then Some [Insert literal_insert]
    else if decide (s = "bound") then Some [Insert bound_insert]
    else if decide (s = "drop") then Some [OtherStatement "DROP TABLE"]
    else None;
  into_string := λ v, match v with SingleQuotedString s => Some s | _ => None end;
  parse_from_rfc3339 := λ s, if decide (s = noon_text) then Some noon else None
|}.
#[export] Instance three_statements_laws : SqlFrontendLaws.
Proof. by split. Qed.

Definition hello_portal : Portal := mkPortal 4
  (λ i, if i =? 1 then Ok (Some "general") else Ok (Some "k1"))
  (λ _, Ok (Some noon)) (λ _, Ok (Some hello_bytes)) (λ _, Ok None).

Lemma order_columns : lower_order ≡ₚ message_columns.
Proof. apply (bool_decide_unpack _). by vm_compute. Qed.
Lemma plain_row row : length row = 4%nat → plain_insert (insert_of row) "messages" row.
Proof.
  intros Hr. split_and!; [done| | |by exists (values_query row)|done].
  - by exists "Messages".
  - apply order_columns.
Qed.

Lemma insert_accepted_exactly_witness :
  parse_insert_values "literal" "messages" =
    Ok (list_to_map (zip lower_order (spelled "general" noon_text "k1" hello_bytes <$> lower_order))).
Proof.
  apply (proj2 (insert_accepted_exactly "messages" "literal" _)).
  exists literal_insert, (spelled "general" noon_text "k1" hello_bytes <$> lower_order).
  split_and!; [done|by apply plain_row|done].
Defined.
Lemma insert_appends_what_it_spells_witness :
  gateway_action "messages" "literal" None = Value (Ok (AppendRecord hello)) ∧
  gateway_action "messages" "bound" (Some hello_portal) = Value (Ok (AppendRecord hello)).
Proof.
  split.
  - apply (proj1 (insert_appends_what_it_spells "messages" "literal" literal_insert "general" noon_text noon "k1"
      hello_bytes number_of hello_portal ltac:(done) ltac:(done) ltac:(apply (bool_decide_unpack _); by vm_compute)
      ltac:(by split_and!))). by apply plain_row.
  - apply (proj2 (insert_appends_what_it_spells "messages" "bound" bound_insert "general" noon_text noon "k1"
      hello_bytes number_of hello_portal ltac:(done) ltac:(done) ltac:(apply (bool_decide_unpack _); by vm_compute)
      ltac:(by split_and!))). by apply plain_row.
Defined.
(** The bound INSERT, handled by a sidecar over empty in-memory tiers whose session knows no query. *)
Definition empty_tiers : MemState * MemArchive := (∅, ∅).
Lemma gateway_panics_only_where_known_witness :
  extended_do_query (λ _ _, None) (λ _ _, Ok None) "messages" (λ _, None : option unit) (λ _ _, None) (λ _, [])
    (λ _, None) (append_through messages noon quiet empty_tiers) "bound" (λ _, FormatText) hello_portal ≠ OutOfFuel ∧
  do_describe_statement "messages" (λ _, None : option unit) (λ _, []) "bound" ≠ Panicked ∧
  bytea_literal (ValueExpr (SingleQuotedString "\xaé1")) = Panicked.
Proof.
  destruct (gateway_panics_only_where_known "messages" (λ _ _, None) (λ _ _, Ok None) (λ _, None : option unit)
    (λ _ _, None) (λ _, []) (λ _, None) ltac:(done) messages noon quiet empty_tiers noon_in_range ltac:(closed)
    ltac:(closed) "bound") as (Hq & _ & [_ Hd] & _ & Hp & _).
  split_and!; [apply Hq|exact Hd|exact Hp].
Defined.
Lemma gateway_boundary_witness :
  ∃ e, ∀ (DF : Type) session with_params schema collect append to_string encode format_for,
     execute_with_parameters to_string encode "messages" (DataFrame := DF) session with_params schema collect append
       "drop" format_for None = Value (Err e).
Proof. apply (proj2 (gateway_boundary "messages" "drop" None)); done. Defined.
(** A sign is taken for a hexadecimal digit. *)
Example signed_hexadecimal : bytea_literal (ValueExpr (SingleQuotedString "\x+f")) = Value (Ok [x0f]).
Proof. reflexivity. Qed.

(** ** Placeholders *)
Definition select_tokens : list token := [
  Plain (String.list_ascii_of_string "SELECT id FROM messages WHERE channel_id = "); Param 1;
  Plain (String.list_ascii_of_string " AND note = "); Quoted (String.list_ascii_of_string "it's $9");
  Plain (String.list_ascii_of_string " LIMIT "); Param 2 ].
Lemma scanner_finds_the_placeholders_witness :
  placeholder_indices (String.string_of_list_ascii (render select_tokens)) = Value (Ok [1; 2]).
Proof.
  apply (proj2 scanner_finds_the_placeholders select_tokens).
  cbn [separated select_tokens]. split_and!; try (by apply (bool_decide_unpack _); vm_compute); closed.
Defined.

(** ** Security *)
Definition secure_options := from_options (Cert := nat) (Key := nat) (λ _, Some (key_from_string "secret"))
  (λ _, Some [1%nat]) (λ _, Some 2%nat) true (λ _ _, true) (λ _, true) (λ p s _, key_from_string p ++ s)
  (Some []) (Some []) (Some []) None None (mkUuids [x01] [x02] "decoy").
Definition anywhere : SocketAddr := mkSocketAddr (V4 0 0 0 0) 5433.

Lemma public_sidecar_requires_tls_witness :
  ∃ security handler, secure_options = Ok security ∧
    startup_handler (λ _, true) security = Value handler ∧
    on_startup (λ _, Ok tt) (λ _ _, Ok tt) handler false Startup = Err tls_required_error.
Proof.
  destruct secure_options as [security|] eqn:E; [|by vm_compute in E].
  destruct (public_sidecar_requires_tls (λ _, Some (key_from_string "secret")) (λ _, Some [1%nat]) (λ _, Some 2%nat)
    true (λ _ _, true) (λ _, true) (λ p s _, key_from_string p ++ s) (λ _, None) (λ _, Some anywhere)
    (Some []) (Some []) (Some []) None None (mkUuids [x01] [x02] "decoy") security anywhere (λ _, Ok tt) (λ _ _, Ok tt) E
    ltac:(vm_compute in E; by injection E as <-)) as (_ & _ & handler & Hh & Hs).
  exists security, handler. exact (conj eq_refl (conj Hh (Hs eq_refl))).
Defined.
Lemma logins_are_indistinguishable_witness :
  let self := CredentialSource_new (λ p s _, key_from_string p ++ s) "u" "d" "p" (mkUuids [x01] [x02] "decoy") in
  get_password self (mkLogin (Some "admin") None) = get_password self (mkLogin None (Some "d")).
Proof.
  apply (logins_are_indistinguishable (λ p s _, key_from_string p ++ s) "u" "d" "p" (mkUuids [x01] [x02] "decoy")
    (mkLogin (Some "admin") None) (mkLogin None (Some "d"))); done.
Defined.
Lemma password_file_accepted_exactly_witness :
  parse_password_file (key_from_string "secret" ++ [carriage_return; newline]) = Ok "secret".
Proof.
  apply (proj2 (password_file_accepted_exactly _ "secret")). split_and!; [done|by apply (bool_decide_unpack _)|].
  exists [carriage_return; newline]. split; [by right; right; left|done].
Defined.
