(* ===== verification/StartupWitnesses.v ===== *)
(** The programs started in concrete environments: a sidecar with nothing configured, one with a blank
    table name, an archiver that was enabled, and a
    showcase that seeds an empty in-memory store. *)
From S2P Require Import Prelude Chrono Gregorian Model Schema Storage Text ArchiveFormat Observability Pool PoolConfig Prog Table Placeholders Gateway SidecarSecurity Coordinator Programs Startup MemStore MemArchive LoadProfile Showcase Witnesses.
Local Open Scope Z_scope.

Definition no_environment : string → option (list byte) := λ _, None.
Definition with_setting (name value : string) : string → option (list byte) :=
  λ n, if decide (n = name) then Some (string_bytes value) else None.
Definition disabled (url : string) : option PgConfig := Some (mkPgConfig Disable [] [] []).
Definition local_address (text : string) : option SocketAddr :=
  if decide (text = "127.0.0.1:5433") then Some (mkSocketAddr (V4 127 0 0 1) 5433) else None.
Definition plain_uuids : Uuids := mkUuids [] [] "".
Definition start_sidecar (env_os : string → option (list byte)) :=
  sidecar_main (Operator := unit) (SCert := unit) (SKey := unit) (Cert := unit) (Key := unit) env_os
    (λ _, Ok tt) (λ _, None) (λ _, None) (λ _, None) true (λ _ _, true) (λ _, true) (λ _ _ _, []) (λ _, None) (λ _, true)
    (λ _, None) true (λ _ _, true) disabled local_address plain_uuids (λ _, true) Some.

Definition started {A} (o : Outcome (Result StartupError A)) : option A :=
  match o with Value (Ok a) => Some a | _ => None end.
Lemma sidecar_starts_safely_witness : ∃ s, start_sidecar no_environment = Value (Ok s) ∧
  validate (sp_definition s) = Ok tt ∧ name (sp_definition s) = sp_table_name s ∧
  (is_secure (sp_security s) = true ∨ is_loopback (ip (sp_address s)) = true).
Proof.
  assert (is_Some (started (start_sidecar no_environment))) as [s Hs] by (vm_compute; by eexists).
  assert (start_sidecar no_environment = Value (Ok s)) as Hm.
  { destruct (start_sidecar no_environment) as [[s'|]| |]; by simplify_eq/=. }
  clear Hs. exists s. split; [exact Hm|].
  assert (∀ a a', Some a = Some a' → ip a' = ip a) as Hb by (by intros a a' [= <-]).
  destruct (sidecar_starts_safely _ _ _ _ _ _ _ _ _ _ _ _ _ _ _ _ plain_uuids (λ _, true) Some s (λ _, Ok tt) (λ _ _, Ok tt) Hb Hm)
    as (Hv & Hn & _ & _ & Hl & _).
  exact (conj Hv (conj Hn Hl)).
Defined.
(** A table name of blanks stops the sidecar with a panic. *)
Lemma blank_table_name_panics_witness : start_sidecar (with_setting "PULPITUM_SQL_TABLE" "  ") = Panicked.
Proof. by vm_compute. Qed.

Definition start_archiver (env_os : string → option (list byte)) :=
  archiver_main (Operator := unit) (Cert := unit) (Key := unit) env_os (λ _, Ok tt) (λ _, None) (λ _, None) (λ _, true)
    (λ _, None) true (λ _ _, true) disabled (λ _, None) noon.
Lemma archiver_starts_safely_witness : ∃ a, start_archiver (with_setting "PULPITUM_ARCHIVAL_ENABLED" "true") = Value (Ok a) ∧
  0 < cfg_lease_renewal_interval (ar_config a) < cfg_lease_for (ar_config a) ∧
  start_archiver no_environment ≠ Value (Ok a).
Proof.
  assert (is_Some (started (start_archiver (with_setting "PULPITUM_ARCHIVAL_ENABLED" "true")))) as [a Ha] by (vm_compute; by eexists).
  assert (start_archiver (with_setting "PULPITUM_ARCHIVAL_ENABLED" "true") = Value (Ok a)) as Hm.
  { destruct (start_archiver _) as [[a'|]| |]; by simplify_eq/=. }
  clear Ha. exists a. split; [exact Hm|].
  destruct (archiver_starts_safely _ _ _ _ _ _ _ _ _ _ _ _ Hm) as (_ & _ & _ & Hr & _). split; [exact Hr|].
  assert (started (start_archiver no_environment) = None) as Hn by by vm_compute. intros E. by rewrite E in Hn.
Defined.

Definition set_up_showcase := showcase_setup (Operator := unit) (Cert := unit) (Key := unit) (var no_environment) (λ _, Ok tt)
  disabled noon noon.
Lemma showcase_shows_its_seeds_witness : ∃ s, set_up_showcase = Value (Ok s) ∧ map ch_name (list_channels (su_ui s)) = CHANNELS.
Proof.
  assert (is_Some (started set_up_showcase)) as [s Hs] by (vm_compute; by eexists).
  assert (set_up_showcase = Value (Ok s)) as Hm by (destruct set_up_showcase as [[s'|]| |]; by simplify_eq/=).
  clear Hs. exists s. split; [exact Hm|].
  eapply (showcase_shows_its_seeds _ _ _ noon noon s noon); [closed|done|closed|exact Hm].
Defined.
(** The whole program over an empty in-memory store: the 24 records of the previous year are stored,
    eight in each of three buckets. *)
Example showcase_seeds_an_empty_store :
  let '(result, (m, _)) := run (showcase_main (Operator := unit) (Cert := unit) (Key := unit) (var no_environment) (λ _, Ok tt)
    disabled noon noon (λ _, noon)) quiet 0 (∅ : MemState, (∅ : MemArchive)) in
  is_Some (started result) ∧ map (λ p, length (records p.2)) (map_to_list m) = [8; 8; 8]%nat.
Proof. vm_compute. split; [by eexists|done]. Qed.
